(* ===== verification/_CoqProject ===== *)
-Q . S2P
Prelude.v
Stack.v
RangeStack.v
PigeonHole.v
Varint.v
Que.v
StringToken.v
IntervalIndex.v
ByteSegment.v
SegLog.v
ResourceList.v
TransferBuffer.v
SegLinear.v
OpQue.v
RsQuery.v
SkipList.v
IntervalSkipList.v
LogIndex.v
Raid4.v
ErasureTools.v
ErasureFiles.v
JeraseCheck.v
SegJerase.v
JeraseInspect.v
SegLun.v
JeraseLun.v
