(* ===== verification/Prelude.v ===== *)
(** * L-Store verification library

    L-Store is a distributed storage system written in C.  This library models
    parts of it as functions and step relations and proves what they do.  C
    files are named below relative to [src/src].

    ** The program

    - The toolbox ([toolbox]) has the containers and text routines that all
      other parts use.
    - The operation layer ([gop]) runs and queues operations; the client
      library ([ibp]) speaks to storage depots with it.
    - The depot server ([ibp-server]) stores allocations on resources.
    - The file layer ([lio]) builds files from segments: a segment driver
      stores bytes in other segments or in blocks on depots, found through an
      interval index.

    ** The files

    - [Prelude] (this file): outcomes of C code ([res], with one constructor
      per kind of fault), the state monad, machine integers, shared lemmas and
      tactics.
    - [Stack]: [toolbox/stack.c], the doubly linked list with a cursor, on a
      heap of cells; the interface [CursorStack] with its laws.  A list with a
      cursor is the specification.
    - [RangeStack]: [toolbox/range_stack.c], merging of ranges, proved
      against the [CursorStack] interface.
    - [PigeonHole]: [toolbox/pigeon_hole.c] and [toolbox/pigeon_coop.c], slot
      allocation.
    - [Varint]: [toolbox/varint.c].
    - [Que]: [toolbox/que.c], the blocking queue, as a step relation over
      threads, a lock and two condition variables.
    - [StringToken]: [toolbox/string_token.c], escaping, tokens, numbers with
      units, trimming, on buffers with bounds.
    - [IntervalIndex]: the interface of the interval index, with a sorted list
      as an instance.  The segment drivers are proved against it, and
      [IntervalSkipList] shows that the code's index implements it.
    - [ByteSegment]: the interface that segment drivers offer and use, with an
      in-memory instance, and the layout of stored integers.
    - [SegLog]: [lio/segment/log.c], the log segment over three other
      segments; concurrent writers are a step relation whose steps are the
      critical sections.
    - [ResourceList]: [ibp-server/resource_list.c], the depot's table of
      resources, and how a resource is picked.
    - [TransferBuffer]: [toolbox/transfer_buffer.c], scattered buffers.
    - [SegLinear]: [lio/segment/linear.c], the segment made of blocks.
    - [OpQue]: [gop/opque.c] and [gop/gop.c], queues of operations and waiting
      for them, as a step relation over clients and portals.
    - [RsQuery]: [lio/rs/query_base.c], the queries of the resource service
      and their text, over the tokenizer of [StringToken].
    - [SkipList]: [toolbox/skiplist.c], nodes with arrays of next pointers on
      a heap; an ordered association list is the specification.
    - [IntervalSkipList]: [toolbox/interval_skiplist.c] over [SkipList]; an
      ordered table of intervals is the specification.
    - [LogIndex]: the log segment with the interval skip list as its mapping.
    - [Raid4]: [lio/raid4.c], the single parity code on blocks of memory.
    - [ErasureTools]: [lio/erasure_tools.c], plans, matrices, encoding and
      decoding of files; the Jerasure library is the class [Jerasure].
    - [ErasureFiles]: what encoding and decoding do to files, for every code
      that does on blocks what it documents, and for the code of [Raid4].
    - [JeraseCheck]: [lio/segment/jerasure.c], the check of a stripe by its
      checksum or by control chunks, and the search for the bad devices.
    - [SegJerase]: the same file's reads and writes of stripes over a child
      segment whose devices can fail; the child is the class [Child].
    - [JeraseInspect]: the same file's inspections and repairs.
    - [SegLun]: [lio/segment/lun.c], the segment striped over the devices of
      rows of allocations: reading, writing, growing and shrinking.
    - [JeraseLun]: the two together; the striped segment is an instance of the
      class [Child] that keeps what [SegJerase] asks of one.

    ** What is shown

    - Refinement: the stack is a list with a cursor; the resource table is a
      finite map; the skip list is an ordered association list and the
      interval skip list an ordered table of intervals, whatever levels are
      drawn, and so the drivers' theorems hold over it; the blocking queue is
      a bounded FIFO in every interleaving; a log segment with concurrent
      writers is a plain file to which the writes are applied one after the
      other.
    - Invariants and safety: merged ranges stay ascending and apart; pigeon
      holes are never handed out twice, nor do their items overlap, if the
      callback hands out no buffer twice; a linear segment whose blocks have no
      [cap_offset] stays tiled by its blocks under every truncation but a
      reservation of exactly the space it has, whatever fails; the rows of a
      striped one cover it without sharing an allocation under every
      truncation, although rows behind its end can be left when a growth
      fails; every operation of a queue that is not started in the middle of an
      addition is submitted and completed once, and no client sleeps on such a
      queue that nothing will wake.
    - Function: reads, writes, merges, change lists, copies between buffers
      and iterators give exactly the bytes or items they should, and return;
      so do reads and writes of a striped segment, except on the devices they
      report as lost, reads of damaged stripes, the search for bad devices, and
      full inspections, which repair every stripe that can be read.  The
      accesses to a striped segment reach no more rows than the table on the
      stack has room for, copies are between buffers of less than 2^31 bytes,
      and inspections are over a child that does not fail.
    - Round trips: a log is reloaded from its table; escaping, tokens, times,
      scaled integers, variable-length integers and resource queries are read
      back; a file whose lost strips a code can rebuild and which reaches to
      their end is restored where a [long] is as long as an [int]; what is
      written to the erasure-coded segment is read back although as many
      devices as there are parities fail, and over a striped segment although
      devices of its rows are down or fail after the write, for accesses in
      space that has been made before.
    - Bounds and errors: task arrays are large enough; and, where the code
      goes wrong, the exact input and effect: a lost piece of a vectored
      write, a clobbered byte, a deadlock, an operation submitted twice, reads
      and writes outside a buffer, an array cleared beyond its end, sizes that
      overflow, data cut off by a truncation of its allocation, a copy that does
      not end, a removal that frees what it did not find, a failed write that
      is a success, stripes made unreadable by a repair.

    ** Bounds and fuel

    Loops that are not structural take fuel, which the definitions compute
    from what bounds the loop in the code: the live cells for stacks, the
    count of ranges for range merging, the devices and stripes for checks,
    inspections and striped accesses, the rows to add for growing a striped
    segment, the length of the arrays for the resource table and the buffers,
    the bytes to copy for copies, the size of the log for loading, the records found for cutting ranges, the nodes on
    the heap for walks along a skip list.  The theorems show a result, so
    [OutOfFuel] is never the reason for an outcome, but where the code does not
    end: an inspection that has no room for a stripe, a copy of 2^31 contiguous
    bytes or more; the two pigeon hole
    iterators take any fuel above the number of slots, and a search in an
    interval skip list any fuel above the number of intervals.  Integers are
    at machine width in [Varint], [RangeStack], [StringToken],
    [TransferBuffer], [ErasureTools] and in the stored records of [SegLog]; elsewhere counts,
    offsets and sizes are unbounded integers.

    ** Not modelled

    Sockets, threads' scheduling, logging, signal handling, memory
    exhaustion, and the services that are protocols over the network (the
    operation layer's portals, the depot commands, the resource, data and
    object services, FUSE).  The interval skip list is modelled for all tables
    but its theorems are about intervals that do not meet.  Of the segment
    drivers the cache is not modelled; of the modelled drivers, cloning, the
    text form of a segment and, for the striped one, inspection, migration
    and the remapping of capabilities are not.  The depots, the resource
    service and the segments below a driver enter as parameters that can
    fail. *)
From stdpp Require Export base numbers option gmap list.

(** ** Outcomes of C code

    A C routine either returns normally or runs into something the language
    or the code itself does not recover from.  The faults are kept apart so
    that a theorem can say which one happens; [OutOfFuel] is produced only by
    loops that are given too little fuel, and never stands for a behaviour of
    the code. *)
Inductive fault :=
| NullDeref
| BadPointer
| OutOfBounds
| Overflow
| DivByZero
| Aborted
| Uninitialised
| OutOfFuel.

Inductive res (A : Type) :=
| Ok (a : A)
| Fault (f : fault).
Arguments Ok {A} a.
Arguments Fault {A} f.

#[export] Instance fault_eq_dec : EqDecision fault.
Proof. solve_decision. Defined.

#[export] Instance res_ret : MRet res := fun A a => Ok a.
#[export] Instance res_bind : MBind res := fun A B k m =>
  match m with Ok a => k a | Fault f => Fault f end.

(** Code that reads and writes a state [S]. *)
Definition ST (S A : Type) : Type := S -> res (A * S).

#[export] Instance st_ret {S} : MRet (ST S) := fun A a s => Ok (a, s).
#[export] Instance st_bind {S} : MBind (ST S) := fun A B k m s =>
  match m s with Ok (a, s') => k a s' | Fault f => Fault f end.

Definition st_get {S} : ST S S := fun s => Ok (s, s).
Definition st_put {S} (s : S) : ST S unit := fun _ => Ok (tt, s).
Definition st_fail {S A} (f : fault) : ST S A := fun _ => Fault f.

Lemma st_bind_ok {S A B} (m : ST S A) (k : A -> ST S B) s a s' : m s = Ok (a, s') -> (m ≫= k) s = k a s'.
Proof. intros E. unfold mbind, st_bind. by rewrite E. Qed.

(** ** Shared tactics *)

Create HintDb lstore.
Create Rewrite HintDb lstore_rw.

(** Turns boolean comparisons in the context into propositions. *)
Ltac breflect :=
  repeat match goal with
  | H : (_ && _)%bool = true |- _ => apply andb_prop in H; destruct H
  | H : (_ || _)%bool = false |- _ => apply orb_false_iff in H; destruct H
  | H : negb _ = true |- _ => apply negb_true_iff in H
  | H : negb _ = false |- _ => apply negb_false_iff in H
  | H : (_ <? _)%Z = true |- _ => apply Z.ltb_lt in H
  | H : (_ <? _)%Z = false |- _ => apply Z.ltb_ge in H
  | H : (_ <=? _)%Z = true |- _ => apply Z.leb_le in H
  | H : (_ <=? _)%Z = false |- _ => apply Z.leb_gt in H
  | H : (_ >? _)%Z = true |- _ => rewrite Z.gtb_ltb in H; apply Z.ltb_lt in H
  | H : (_ >? _)%Z = false |- _ => rewrite Z.gtb_ltb in H; apply Z.ltb_ge in H
  | H : (_ >=? _)%Z = true |- _ => rewrite Z.geb_leb in H; apply Z.leb_le in H
  | H : (_ >=? _)%Z = false |- _ => rewrite Z.geb_leb in H; apply Z.leb_gt in H
  | H : (_ =? _)%Z = true |- _ => apply Z.eqb_eq in H
  | H : (_ =? _)%Z = false |- _ => apply Z.eqb_neq in H
  end.

(** Splits on every conditional of the goal and closes what linear
    arithmetic can close. *)
Ltac cases_lia :=
  repeat (case_match; breflect); try done; try lia.

(** Evaluates the monadic plumbing of a goal whose parts are known. *)
Ltac st_simpl :=
  repeat (unfold mbind, mret, st_bind, st_ret, res_bind, res_ret, st_get,
    st_put, st_fail in *; simpl in *).

(** ** Machine integers *)

Definition int32_ok (x : Z) : bool := ((- 2 ^ 31 <=? x) && (x <? 2 ^ 31))%Z.
Definition int64_ok (x : Z) : bool := ((- 2 ^ 63 <=? x) && (x <? 2 ^ 63))%Z.

(** Conversion to an unsigned type of [w] bits. *)
Definition to_unsigned (w x : Z) : Z := (x mod 2 ^ w)%Z.

(** Conversion to a signed type of [w] bits, as the two's complement
    machines the code runs on perform it. *)
Definition to_signed (w x : Z) : Z :=
  let y := (x mod 2 ^ w)%Z in
  if (y <? 2 ^ (w - 1))%Z then y else (y - 2 ^ w)%Z.

Lemma to_unsigned_small w x : (0 <= x < 2 ^ w)%Z -> to_unsigned w x = x.
Proof. intros. unfold to_unsigned. by apply Z.mod_small. Qed.

Lemma to_unsigned_range w x : (0 <= w)%Z -> (0 <= to_unsigned w x < 2 ^ w)%Z.
Proof. intros. unfold to_unsigned. apply Z.mod_pos_bound. lia. Qed.

Lemma to_signed_small w x :
  (0 < w)%Z -> (- 2 ^ (w - 1) <= x < 2 ^ (w - 1))%Z -> to_signed w x = x.
Proof.
  intros Hw Hx. unfold to_signed.
  assert (H2 : (2 ^ w = 2 * 2 ^ (w - 1))%Z).
  { rewrite <- Z.pow_succ_r by lia. f_equal. lia. }
  destruct (Z.le_gt_cases 0 x).
  - rewrite Z.mod_small by lia. cases_lia.
  - assert (Hm : (x mod 2 ^ w = x + 2 ^ w)%Z).
    { symmetry. apply (Z.mod_unique_pos _ _ (-1)); lia. }
    rewrite Hm. cases_lia.
Qed.

Lemma to_signed_unsigned w x : (0 <= w)%Z -> to_signed w (to_unsigned w x) = to_signed w x.
Proof. intros. unfold to_signed, to_unsigned. by rewrite Z.mod_mod by lia. Qed.

(** ** Memory *)

(** Addresses of heap objects; a C pointer to one is an [option loc], with
    [None] for [NULL]. *)
Abbreviation loc := positive.

(** ** Lists *)

(** The last element of a list, or [d] of an empty one. *)
Definition last_or {A} (d : option A) (l : list A) : option A :=
  match last l with Some x => Some x | None => d end.

(** The first element of a list, or [d] of an empty one. *)
Definition head_or {A} (d : option A) (l : list A) : option A :=
  match l with x :: _ => Some x | [] => d end.

Lemma last_or_snoc {A} (d : option A) l x : last_or d (l ++ [x]) = Some x.
Proof. unfold last_or. by rewrite last_snoc. Qed.

Lemma last_or_cons {A} (d : option A) x l : last_or d (x :: l) = last_or (Some x) l.
Proof. unfold last_or. rewrite last_cons. by destruct (last l). Qed.

Lemma last_or_app {A} (d : option A) l1 l2 :
  last_or d (l1 ++ l2) = last_or (last_or d l1) l2.
Proof.
  unfold last_or. rewrite last_app. by destruct (last l2).
Qed.

Lemma head_or_app {A} (d : option A) l1 l2 :
  head_or d (l1 ++ l2) = head_or (head_or d l2) l1.
Proof. by destruct l1. Qed.

#[export] Hint Rewrite @last_or_snoc @last_or_cons @head_or_app : lstore_rw.

(** ** Maps given as lists of bindings

    A memory whose live cells are known is [list_to_map kvs]; these lemmas
    describe access to the cell in the middle of the list. *)
Section bindings.
Context `{Countable K} {A : Type}.
Implicit Types k : list (K * A).

Lemma bindings_lookup k1 p a k2 :
  p ∉ k1.*1 -> (list_to_map (k1 ++ (p, a) :: k2) : gmap K A) !! p = Some a.
Proof.
  intros Hp. rewrite list_to_map_app, lookup_union_r by by apply not_elem_of_list_to_map_1.
  simpl. by rewrite lookup_insert_eq.
Qed.

Lemma bindings_insert k1 p a b k2 :
  p ∉ k1.*1 ->
  <[p := b]> (list_to_map (k1 ++ (p, a) :: k2) : gmap K A) = list_to_map (k1 ++ (p, b) :: k2).
Proof.
  intros Hp. rewrite !list_to_map_app. simpl.
  rewrite insert_union_r by by apply not_elem_of_list_to_map_1.
  by rewrite insert_insert_eq.
Qed.

Lemma bindings_delete k1 p a k2 :
  p ∉ k1.*1 -> p ∉ k2.*1 ->
  delete p (list_to_map (k1 ++ (p, a) :: k2) : gmap K A) = list_to_map (k1 ++ k2).
Proof.
  intros H1 H2. rewrite !list_to_map_app. simpl.
  rewrite delete_union, delete_insert_eq, !delete_id; [done|..];
    by apply not_elem_of_list_to_map_1.
Qed.

Lemma bindings_nodup k1 p a k2 :
  NoDup (k1 ++ (p, a) :: k2).*1 <-> p ∉ k1.*1 /\ p ∉ k2.*1 /\ NoDup (k1 ++ k2).*1.
Proof.
  rewrite !fmap_app. simpl. rewrite <- Permutation_middle, NoDup_cons, elem_of_app. tauto.
Qed.

Lemma bindings_nodup_cons p a k2 :
  NoDup ((p, a) :: k2).*1 <-> p ∉ k2.*1 /\ NoDup k2.*1.
Proof. csimpl. apply NoDup_cons. Qed.

End bindings.

(** ** Permutations of concatenations *)

Lemma perm_swap_front {A} (a b r r' : list A) : r ≡ₚ a ++ r' -> b ++ r ≡ₚ a ++ (b ++ r').
Proof. intros ->. apply Permutation_app_swap_app. Qed.

Lemma perm_front_last {A} (a : list A) : a ≡ₚ a ++ [].
Proof. by rewrite app_nil_r. Qed.

Lemma perm_cut {A} (a l r r' : list A) : r ≡ₚ a ++ r' -> l ≡ₚ r' -> a ++ l ≡ₚ r.
Proof. by intros -> ->. Qed.

(** Brings a piece to the front of a concatenation. *)
Ltac perm_find := first [reflexivity | apply perm_front_last | apply perm_swap_front; perm_find].

Ltac perm_norm :=
  repeat match goal with
  | |- context [?x :: ?l] => lazymatch l with [] => fail | _ => change (x :: l) with ([x] ++ l) end
  end; rewrite <- ?app_assoc, ?app_nil_r.

(** Solves [l ≡ₚ l'] when both are concatenations of the same pieces. *)
Ltac perm_solve :=
  perm_norm; repeat first [reflexivity | eapply perm_cut; [perm_find|] | apply perm_front_last].

(** ** Sums over a list *)

Fixpoint zsum {A} (f : A -> Z) (l : list A) : Z :=
  match l with [] => 0%Z | x :: l => (f x + zsum f l)%Z end.

Section zsum.
Context {A : Type} (f : A -> Z).
Local Open Scope Z_scope.

Lemma zsum_app l1 l2 : zsum f (l1 ++ l2) = zsum f l1 + zsum f l2.
Proof. induction l1; simpl; lia. Qed.

Lemma zsum_insert l i x y : l !! i = Some x -> zsum f (<[i := y]> l) = zsum f l - f x + f y.
Proof.
  intros Hi. rewrite <- (take_drop_middle l i x Hi) at 2.
  rewrite insert_take_drop by by apply lookup_lt_Some in Hi.
  rewrite !zsum_app. simpl. lia.
Qed.

Lemma zsum_fmap (g : A -> A) l : (forall x, f (g x) = f x) -> zsum f (g <$> l) = zsum f l.
Proof. intros Hg. induction l as [|x l IH]; csimpl; [done|]. by rewrite Hg, IH. Qed.

Lemma zsum_nonneg l : (forall x, 0 <= f x) -> 0 <= zsum f l.
Proof. intros Hf. induction l as [|x l IH]; simpl; [lia|]. pose proof (Hf x). lia. Qed.

Lemma zsum_lookup l i x : (forall y, 0 <= f y) -> l !! i = Some x -> f x <= zsum f l.
Proof.
  intros Hf Hi. rewrite <- (take_drop_middle l i x Hi), zsum_app. simpl.
  pose proof (zsum_nonneg (take i l) Hf). pose proof (zsum_nonneg (drop (S i) l) Hf). lia.
Qed.

End zsum.

(** The first number that satisfies a test. *)
Lemma least_true (Q : nat -> bool) n :
  Q n = true -> exists n0, (n0 <= n)%nat /\ Q n0 = true /\ forall n', (n' < n0)%nat -> Q n' = false.
Proof.
  induction (lt_wf n) as [n _ IH]. intros Hn. destruct (existsb Q (seq 0 n)) eqn:E.
  - apply existsb_exists in E as (k & Hk%in_seq & HQ). destruct (IH k ltac:(lia) HQ) as (n0 & ? & ? & ?).
    exists n0. split; [lia|done].
  - exists n. split; [done|]. split; [done|]. intros n' Hn'. destruct (Q n') eqn:HQ; [|done]. exfalso.
    rewrite <- not_true_iff_false in E. apply E, existsb_exists. exists n'. split; [apply in_seq; lia|done].
Qed.

(** Filters that keep all or nothing. *)
Lemma filter_keeps {A} (P : A -> Prop) `{!forall x, Decision (P x)} (l : list A) : (forall x, x ∈ l -> P x) -> filter P l = l.
Proof.
  induction l as [|x l IH]; intros Hl; [done|]. rewrite filter_cons, decide_True by (apply Hl; by left). f_equal. apply IH. intros y Hy. apply Hl. by right.
Qed.

Lemma filter_drops {A} (P : A -> Prop) `{!forall x, Decision (P x)} (l : list A) : (forall x, x ∈ l -> ~ P x) -> filter P l = [].
Proof.
  induction l as [|x l IH]; intros Hl; [done|]. rewrite filter_cons, decide_False by (apply Hl; by left). apply IH. intros y Hy. apply Hl. by right.
Qed.

Lemma filter_iff_in {A} (P Q : A -> Prop) `{!forall x, Decision (P x), !forall x, Decision (Q x)} (l : list A) :
  (forall x, x ∈ l -> P x <-> Q x) -> filter P l = filter Q l.
Proof.
  induction l as [|x l IH]; intros Hl; [done|]. rewrite !filter_cons, IH by (intros y Hy; apply Hl; by right).
  pose proof (Hl x ltac:(by left)). repeat case_decide; naive_solver.
Qed.
