(* ===== verification/Stack.v ===== *)
(** * The toolbox stack ([src/src/toolbox/stack.c])

    A doubly linked list of elements holding [void *] data, with a cursor
    [curr].  The elements live in a heap; the operations follow and rewrite
    the [up] and [down] pointers exactly as the C code does.  The second half
    of the file gives the abstract view, a list from top to bottom with an
    optional focused element, and shows that every pointer operation
    implements its abstract counterpart and leaves the rest of the heap
    alone. *)
From S2P Require Import Prelude.
Local Open Scope Z_scope.

Section code.
Context {V : Type}.

(** ** Data *)

Record tbx_stack_ele_t := Ele {
  ele_data : option V;
  ele_up : option loc;
  ele_down : option loc }.

Record tbx_stack_t := Stk {
  stk_top : option loc;
  stk_bottom : option loc;
  stk_curr : option loc;
  stk_n : Z }.

(** The memory an operation sees: the heap of elements and the stack
    structure the caller passes. *)
Record stack_mem := Mem {
  mem_heap : gmap loc tbx_stack_ele_t;
  mem_stk : tbx_stack_t }.

Definition set_ele_up (u : option loc) (e : tbx_stack_ele_t) : tbx_stack_ele_t :=
  Ele (ele_data e) u (ele_down e).
Definition set_ele_down (d : option loc) (e : tbx_stack_ele_t) : tbx_stack_ele_t :=
  Ele (ele_data e) (ele_up e) d.
Definition set_ele_data (v : option V) (e : tbx_stack_ele_t) : tbx_stack_ele_t :=
  Ele v (ele_up e) (ele_down e).

Abbreviation stackM := (ST stack_mem).

(** ** Access to the heap and to the stack structure *)

Definition get_stk : stackM tbx_stack_t := fun m => Ok (mem_stk m, m).
Definition put_stk (s : tbx_stack_t) : stackM unit := fun m => Ok (tt, Mem (mem_heap m) s).

Definition set_top (p : option loc) : stackM unit :=
  s ← get_stk; put_stk (Stk p (stk_bottom s) (stk_curr s) (stk_n s)).
Definition set_bottom (p : option loc) : stackM unit :=
  s ← get_stk; put_stk (Stk (stk_top s) p (stk_curr s) (stk_n s)).
Definition set_curr (p : option loc) : stackM unit :=
  s ← get_stk; put_stk (Stk (stk_top s) (stk_bottom s) p (stk_n s)).
Definition set_n (n : Z) : stackM unit :=
  s ← get_stk; put_stk (Stk (stk_top s) (stk_bottom s) (stk_curr s) n).

(** [p->...]: faults on [NULL] and on an address that is not allocated. *)
Definition load_ele (p : option loc) : stackM tbx_stack_ele_t := fun m =>
  match p with
  | None => Fault NullDeref
  | Some l => match mem_heap m !! l with
              | None => Fault BadPointer
              | Some e => Ok (e, m)
              end
  end.

Definition store_ele (f : tbx_stack_ele_t -> tbx_stack_ele_t) (p : option loc) : stackM unit :=
  fun m =>
  match p with
  | None => Fault NullDeref
  | Some l => match mem_heap m !! l with
              | None => Fault BadPointer
              | Some _ => Ok (tt, Mem (alter f l (mem_heap m)) (mem_stk m))
              end
  end.

(** [malloc(sizeof(tbx_stack_ele_t))] followed by the store to [data].  The
    links of a fresh element are indeterminate in C; every caller overwrites
    both before they are read. *)
Definition malloc_ele (v : option V) : stackM loc := fun m =>
  let l := fresh (dom (mem_heap m)) in
  Ok (l, Mem (<[l := Ele v None None]> (mem_heap m)) (mem_stk m)).

Definition free_ele (l : loc) : stackM unit := fun m =>
  match mem_heap m !! l with
  | None => Fault BadPointer
  | Some _ => Ok (tt, Mem (delete l (mem_heap m)) (mem_stk m))
  end.

(** ** Operations *)

Definition MOVE_TOP : Z := 1.
Definition MOVE_BOTTOM : Z := 2.
Definition MOVE_BOTH : Z := 3.

(** [tbx_stack_new]: a zeroed structure. *)
Definition tbx_stack_new : tbx_stack_t := Stk None None None 0.

Definition tbx_stack_get_top : stackM (option loc) :=
  s ← get_stk; mret (stk_top s).

Definition tbx_stack_ele_get_down (ele : option loc) : stackM (option loc) :=
  e ← load_ele ele; mret (ele_down e).

Definition check_ends : stackM Z :=
  s ← get_stk;
  let status := if decide (stk_curr s = stk_top s) then 0 + MOVE_TOP else 0 in
  mret (if decide (stk_curr s = stk_bottom s) then status + MOVE_BOTTOM else status).

Definition tbx_stack_count : stackM Z :=
  s ← get_stk; mret (stk_n s).

Definition tbx_stack_ele_get_data (ele : option loc) : stackM (option V) :=
  match ele with
  | None => mret None
  | Some _ => e ← load_ele ele; mret (ele_data e)
  end.

Definition set_stack_ele_data (ele : option loc) (v : option V) : stackM unit :=
  match ele with
  | None => mret tt
  | Some _ => store_ele (set_ele_data v) ele
  end.

Definition tbx_stack_link_push (ele : loc) : stackM unit :=
  s ← get_stk;
  store_ele (set_ele_down (stk_top s)) (Some ele);;
  store_ele (set_ele_up None) (Some ele);;
  match stk_top s with
  | None => set_bottom (Some ele)
  | Some _ => store_ele (set_ele_up (Some ele)) (stk_top s)
  end;;
  set_top (Some ele);;
  set_curr (Some ele);;
  set_n (stk_n s + 1).

Definition tbx_stack_push (v : option V) : stackM unit :=
  ele ← malloc_ele v;
  tbx_stack_link_push ele.

Definition tbx_stack_get_current_ptr : stackM (option loc) :=
  s ← get_stk; mret (stk_curr s).

Definition tbx_stack_get_current_data : stackM (option V) :=
  s ← get_stk;
  match stk_curr s with
  | Some _ => e ← load_ele (stk_curr s); mret (ele_data e)
  | None => mret None
  end.

Definition tbx_stack_move_to_ptr (p : option loc) : stackM Z :=
  set_curr p;; mret 1.

Definition tbx_stack_move_to_top : stackM Z :=
  s ← get_stk; set_curr (stk_top s);; mret 1.

Definition tbx_stack_move_to_bottom : stackM Z :=
  s ← get_stk; set_curr (stk_bottom s);; mret 1.

Definition tbx_stack_move_down : stackM Z :=
  s ← get_stk;
  match stk_curr s with
  | Some _ => e ← load_ele (stk_curr s); set_curr (ele_down e);; mret 1
  | None => mret 0
  end.

Definition tbx_stack_move_up : stackM Z :=
  s ← get_stk;
  match stk_curr s with
  | Some _ => e ← load_ele (stk_curr s); set_curr (ele_up e);; mret 1
  | None => mret 0
  end.

Definition tbx_stack_top_first : stackM (option V) :=
  tbx_stack_move_to_top;; tbx_stack_get_current_data.

Definition tbx_stack_bottom_first : stackM (option V) :=
  tbx_stack_move_to_bottom;; tbx_stack_get_current_data.

Definition tbx_stack_next_down : stackM (option V) :=
  tbx_stack_move_down;; tbx_stack_get_current_data.

Definition tbx_stack_next_up : stackM (option V) :=
  tbx_stack_move_up;; tbx_stack_get_current_data.

Definition moves_top (move_ends : Z) : bool :=
  (move_ends =? MOVE_TOP) || (move_ends =? MOVE_BOTH).
Definition moves_bottom (move_ends : Z) : bool :=
  (move_ends =? MOVE_BOTTOM) || (move_ends =? MOVE_BOTH).

Definition tbx_stack_link_insert_below (ele : loc) : stackM Z :=
  move_ends ← check_ends;
  s ← get_stk;
  match stk_curr s with
  | Some _ =>
      set_n (stk_n s + 1);;
      c ← load_ele (stk_curr s);
      store_ele (set_ele_down (ele_down c)) (Some ele);;
      store_ele (set_ele_up (stk_curr s)) (Some ele);;
      match ele_down c with
      | Some _ => store_ele (set_ele_up (Some ele)) (ele_down c)
      | None => mret tt
      end;;
      store_ele (set_ele_down (Some ele)) (stk_curr s);;
      (if moves_top move_ends then set_top (stk_curr s) else mret tt);;
      (if moves_bottom move_ends then set_bottom (Some ele) else mret tt);;
      set_curr (Some ele);;
      mret 1
  | None =>
      match stk_top s with
      | Some _ => mret 0
      | None => tbx_stack_link_push ele;; mret 1
      end
  end.

Definition tbx_stack_insert_below (v : option V) : stackM Z :=
  ele ← malloc_ele v;
  ret ← tbx_stack_link_insert_below ele;
  (if ret =? 0 then free_ele ele else mret tt);;
  mret ret.

Definition tbx_stack_link_insert_above (ele : loc) : stackM Z :=
  move_ends ← check_ends;
  s ← get_stk;
  match stk_curr s with
  | Some _ =>
      set_n (stk_n s + 1);;
      store_ele (set_ele_down (stk_curr s)) (Some ele);;
      c ← load_ele (stk_curr s);
      store_ele (set_ele_up (ele_up c)) (Some ele);;
      match ele_up c with
      | Some _ => store_ele (set_ele_down (Some ele)) (ele_up c)
      | None => mret tt
      end;;
      store_ele (set_ele_up (Some ele)) (stk_curr s);;
      (if moves_top move_ends then set_top (Some ele) else mret tt);;
      (if moves_bottom move_ends then set_bottom (stk_curr s) else mret tt);;
      set_curr (Some ele);;
      mret 1
  | None =>
      match stk_top s with
      | Some _ => mret 0
      | None => tbx_stack_link_push ele;; mret 1
      end
  end.

Definition tbx_stack_insert_above (v : option V) : stackM Z :=
  ele ← malloc_ele v;
  ret ← tbx_stack_link_insert_above ele;
  (if ret =? 0 then free_ele ele else mret tt);;
  mret ret.

Definition tbx_stack_unlink_current (mv_up : bool) : stackM (option loc) :=
  move_ends ← check_ends;
  s ← get_stk;
  match stk_curr s with
  | Some _ =>
      set_n (stk_n s - 1);;
      e ← load_ele (stk_curr s);
      match ele_up e with
      | Some _ => store_ele (set_ele_down (ele_down e)) (ele_up e)
      | None => mret tt
      end;;
      match ele_down e with
      | Some _ => store_ele (set_ele_up (ele_up e)) (ele_down e)
      | None => mret tt
      end;;
      set_curr (if mv_up then ele_up e else ele_down e);;
      (if moves_top move_ends then set_top (ele_down e) else mret tt);;
      (if moves_bottom move_ends then set_bottom (ele_up e) else mret tt);;
      mret (stk_curr s)
  | None => mret None
  end.

(** [tbx_stack_delete_current] returns its status and the data pointers it
    passes to [free]. *)
Definition tbx_stack_delete_current (mv_up data_also : bool) : stackM (Z * list V) :=
  ele ← tbx_stack_unlink_current mv_up;
  match ele with
  | Some l =>
      e ← load_ele ele;
      free_ele l;;
      mret (1, if data_also then option_list (ele_data e) else [])
  | None => mret (0, [])
  end.

Definition pop_link : stackM (option loc) :=
  tbx_stack_move_to_top;; tbx_stack_unlink_current false.

Definition tbx_stack_pop : stackM (option V) :=
  ele ← pop_link;
  match ele with
  | None => mret None
  | Some l =>
      e ← load_ele ele;
      free_ele l;;
      mret (ele_data e)
  end.

Definition tbx_stack_pop_bottom : stackM (option V) :=
  tbx_stack_move_to_bottom;;
  v ← tbx_stack_get_current_data;
  tbx_stack_delete_current true false;;
  mret v.

(** [while ((ptr = tbx_stack_pop(stack)) != NULL) { free(ptr) }]: the popped
    pointers, in the order in which they are freed. *)
Fixpoint stack_empty_loop (fuel : nat) (data_also : bool) : stackM (list V) :=
  match fuel with
  | O => st_fail OutOfFuel
  | S fuel =>
      v ← tbx_stack_pop;
      match v with
      | None => mret []
      | Some p =>
          rest ← stack_empty_loop fuel data_also;
          mret (if data_also then p :: rest else rest)
      end
  end.

Definition tbx_stack_empty (data_also : bool) : stackM (list V) := fun m =>
  stack_empty_loop (S (size (mem_heap m))) data_also m.

(** [tbx_stack_free]: the pointers freed and the heap without the stack
    header. *)
Definition tbx_stack_free (data_also : bool) (m : stack_mem) : res (list V * gmap loc tbx_stack_ele_t) :=
  '(freed, m') ← tbx_stack_empty data_also m; Ok (freed, mem_heap m').

(** [tbx_stack_dup(new, old)] works on two stacks in one heap. *)
Definition dup_mem : Type := gmap loc tbx_stack_ele_t * tbx_stack_t * tbx_stack_t.

Definition on_new {A} (op : stackM A) : ST dup_mem A := fun '(h, new, old) =>
  '(a, m) ← op (Mem h new); Ok (a, (mem_heap m, mem_stk m, old)).
Definition on_old {A} (op : stackM A) : ST dup_mem A := fun '(h, new, old) =>
  '(a, m) ← op (Mem h old); Ok (a, (mem_heap m, new, mem_stk m)).

Fixpoint stack_dup_loop (fuel : nat) : ST dup_mem unit :=
  match fuel with
  | O => st_fail OutOfFuel
  | S fuel =>
      v ← on_old tbx_stack_get_current_data;
      match v with
      | None => mret tt
      | Some _ =>
          on_new (tbx_stack_push v);;
          on_old tbx_stack_move_up;;
          stack_dup_loop fuel
      end
  end.

Definition tbx_stack_dup : ST dup_mem unit := fun d =>
  (on_old tbx_stack_move_to_bottom;;
   stack_dup_loop (S (size d.1.1))) d.

End code.
Arguments tbx_stack_ele_t : clear implicits.
Arguments stack_mem : clear implicits.
Arguments dup_mem : clear implicits.
#[global] Arguments store_ele : simpl never.
#[global] Arguments load_ele : simpl never.
#[global] Arguments malloc_ele : simpl never.
#[global] Arguments free_ele : simpl never.

(** ** The abstract stack

    The elements from top to bottom, with the cursor either off the list or
    on one element. *)
Inductive zstack (A : Type) :=
| Off (l : list A)
| At (l1 : list A) (x : A) (l2 : list A).
Arguments Off {A} l.
Arguments At {A} l1 x l2.

Section spec.
Context {A : Type}.

Definition z_list (z : zstack A) : list A :=
  match z with Off l => l | At l1 x l2 => l1 ++ x :: l2 end.

Definition z_focus (z : zstack A) : option A :=
  match z with Off _ => None | At _ x _ => Some x end.

(** The cursor on the first element after [l1], if there is one. *)
Definition z_after (l1 l2 : list A) : zstack A :=
  match l2 with [] => Off l1 | x :: l2' => At l1 x l2' end.

(** The cursor on the last element before [l2], if there is one. *)
Definition z_before (l1 l2 : list A) : zstack A :=
  match last l1 with
  | None => Off l2
  | Some x => At (removelast l1) x l2
  end.

Definition z_push (x : A) (z : zstack A) : zstack A := At [] x (z_list z).
Definition z_top (z : zstack A) : zstack A := z_after [] (z_list z).
Definition z_bottom (z : zstack A) : zstack A := z_before (z_list z) [].

Definition z_down (z : zstack A) : zstack A :=
  match z with Off l => Off l | At l1 x l2 => z_after (l1 ++ [x]) l2 end.
Definition z_up (z : zstack A) : zstack A :=
  match z with Off l => Off l | At l1 x l2 => z_before l1 (x :: l2) end.

(** Insertion next to the cursor; refused when the position is unknown. *)
Definition z_insert_below (y : A) (z : zstack A) : option (zstack A) :=
  match z with
  | At l1 x l2 => Some (At (l1 ++ [x]) y l2)
  | Off [] => Some (At [] y [])
  | Off _ => None
  end.
Definition z_insert_above (y : A) (z : zstack A) : option (zstack A) :=
  match z with
  | At l1 x l2 => Some (At l1 y (x :: l2))
  | Off [] => Some (At [] y [])
  | Off _ => None
  end.

Definition z_delete (mv_up : bool) (z : zstack A) : zstack A :=
  match z with
  | Off l => Off l
  | At l1 x l2 => if mv_up then z_before l1 l2 else z_after l1 l2
  end.

(** Moving the cursor never changes the elements. *)
Lemma z_after_list l1 l2 : z_list (z_after l1 l2) = l1 ++ l2.
Proof. destruct l2; simpl; by rewrite ?app_nil_r. Qed.

Lemma removelast_last_eq (l : list A) x : last l = Some x -> l = removelast l ++ [x].
Proof.
  intros H. apply last_Some in H as [l' ->]. by rewrite removelast_last.
Qed.

Lemma z_before_list l1 l2 : z_list (z_before l1 l2) = l1 ++ l2.
Proof.
  unfold z_before. destruct (last l1) as [x|] eqn:E; simpl.
  - rewrite (removelast_last_eq l1 x E) at 2. by rewrite <- app_assoc.
  - by apply last_None in E as ->.
Qed.

Lemma z_before_snoc l1 x l2 : z_before (l1 ++ [x]) l2 = At l1 x l2.
Proof. unfold z_before. by rewrite last_snoc, removelast_last. Qed.

Lemma z_focus_after l1 l2 : z_focus (z_after l1 l2) = head_or None l2.
Proof. by destruct l2. Qed.

Lemma z_focus_before l1 l2 : z_focus (z_before l1 l2) = last_or None l1.
Proof. unfold z_before, last_or. by destruct (last l1). Qed.

End spec.

#[export] Hint Rewrite @z_after_list @z_before_list @z_before_snoc @z_focus_after
  @z_focus_before : lstore_rw.

Definition z_map {A B} (f : A -> B) (z : zstack A) : zstack B :=
  match z with
  | Off l => Off (f <$> l)
  | At l1 x l2 => At (f <$> l1) (f x) (f <$> l2)
  end.

Section z_map.
Context {A B : Type} (f : A -> B).

Lemma z_map_list z : z_list (z_map f z) = f <$> z_list z.
Proof. destruct z; simpl; [done|]. by rewrite fmap_app. Qed.

Lemma z_map_focus z : z_focus (z_map f z) = f <$> z_focus z.
Proof. by destruct z. Qed.

Lemma z_map_after l1 l2 : z_map f (z_after l1 l2) = z_after (f <$> l1) (f <$> l2).
Proof. by destruct l2. Qed.

Lemma z_map_before l1 l2 : z_map f (z_before l1 l2) = z_before (f <$> l1) (f <$> l2).
Proof.
  destruct l1 as [|x l1 _] using rev_ind; [done|].
  rewrite fmap_app. simpl. by rewrite !z_before_snoc.
Qed.

Lemma z_map_delete mv z : z_map f (z_delete mv z) = z_delete mv (z_map f z).
Proof.
  destruct z as [|l1 x l2]; [done|]. destruct mv; [apply z_map_before|apply z_map_after].
Qed.

Lemma z_map_down z : z_map f (z_down z) = z_down (z_map f z).
Proof.
  destruct z as [|l1 x l2]; [done|]. simpl. rewrite z_map_after. by rewrite fmap_app.
Qed.

Lemma z_map_up z : z_map f (z_up z) = z_up (z_map f z).
Proof. destruct z as [|l1 x l2]; [done|]. apply z_map_before. Qed.

Lemma z_map_top z : z_map f (z_top z) = z_top (z_map f z).
Proof. unfold z_top. by rewrite z_map_after, z_map_list. Qed.

Lemma z_map_bottom z : z_map f (z_bottom z) = z_bottom (z_map f z).
Proof. unfold z_bottom. by rewrite z_map_before, z_map_list. Qed.

Lemma z_map_push x z : z_map f (z_push x z) = z_push (f x) (z_map f z).
Proof. unfold z_push. simpl. by rewrite z_map_list. Qed.

Lemma z_map_insert_below y z :
  z_map f <$> z_insert_below y z = z_insert_below (f y) (z_map f z).
Proof. destruct z as [[]|l1 x l2]; simpl; [done..|]. by rewrite fmap_app. Qed.

Lemma z_map_insert_above y z :
  z_map f <$> z_insert_above y z = z_insert_above (f y) (z_map f z).
Proof. by destruct z as [[]|l1 x l2]. Qed.
End z_map.

(** ** Representation *)

Section rep.
Context {V : Type}.
Implicit Types (h : gmap loc (tbx_stack_ele_t V)) (u d : option loc)
  (xs ys : list (loc * option V)) (z : zstack (loc * option V)).

(** [dseg h u xs d]: the elements [xs] are linked in the heap in this order,
    the first one points up to [u] and the last one down to [d]. *)
Fixpoint dseg h u xs d : Prop :=
  match xs with
  | [] => True
  | (l, v) :: xs' => h !! l = Some (Ele v u (head_or d xs'.*1)) /\ dseg h (Some l) xs' d
  end.

(** The heap and the stack structure hold the nodes of [z]. *)
Record stack_rep (h : gmap loc (tbx_stack_ele_t V)) (s : tbx_stack_t)
    (z : zstack (loc * option V)) : Prop := {
  rep_nodup : NoDup (z_list z).*1;
  rep_dseg : dseg h None (z_list z) None;
  rep_top : stk_top s = head_or None (z_list z).*1;
  rep_bottom : stk_bottom s = last_or None (z_list z).*1;
  rep_curr : stk_curr s = fst <$> z_focus z;
  rep_n : stk_n s = Z.of_nat (length (z_list z)) }.

(** What an operation on the nodes [z] may do to the rest of the heap:
    nothing, and it never captures an address that was in use. *)
Definition keeps h z h' (z' : zstack (loc * option V)) : Prop :=
  forall l, l ∈ dom h -> l ∉ (z_list z).*1 -> h' !! l = h !! l /\ l ∉ (z_list z').*1.

Lemma dseg_app h u xs ys d :
  dseg h u (xs ++ ys) d <->
  dseg h u xs (head_or d ys.*1) /\ dseg h (last_or u xs.*1) ys d.
Proof.
  revert u. induction xs as [|[l v] xs IH]; intros u; simpl; [tauto|].
  rewrite IH, fmap_app, head_or_app, last_or_cons. tauto.
Qed.

Lemma dseg_frame h h' u xs d :
  (forall l, l ∈ xs.*1 -> h' !! l = h !! l) -> dseg h u xs d -> dseg h' u xs d.
Proof.
  revert u. induction xs as [|[l v] xs IH]; intros u Hf; simpl; [done|].
  intros [Hl Hxs]. split.
  - rewrite Hf; [done|]. simpl. set_solver.
  - apply IH; [|done]. intros. apply Hf. simpl. set_solver.
Qed.

Lemma dseg_dom h u xs d l : dseg h u xs d -> l ∈ xs.*1 -> l ∈ dom h.
Proof.
  revert u. induction xs as [|[k v] xs IH]; intros u; simpl; [set_solver|].
  intros [Hk Hxs] [->|]%elem_of_cons; [|by eapply IH].
  apply elem_of_dom. eauto.
Qed.

(** Redirecting the outward pointers of a segment. *)
Definition alter_opt (f : tbx_stack_ele_t V -> tbx_stack_ele_t V) (p : option loc)
    (h : gmap loc (tbx_stack_ele_t V)) : gmap loc (tbx_stack_ele_t V) :=
  match p with None => h | Some l => alter f l h end.

Lemma alter_opt_ne f p h l : p <> Some l -> alter_opt f p h !! l = h !! l.
Proof. destruct p; simpl; [|done]. intros. rewrite lookup_alter_ne; congruence. Qed.

Lemma dseg_set_up h u u' xs d :
  NoDup xs.*1 -> dseg h u xs d -> dseg (alter_opt (set_ele_up u') (head_or None xs.*1) h) u' xs d.
Proof.
  destruct xs as [|[l v] xs]; simpl; [done|].
  intros [Hl _]%NoDup_cons [Hh Hxs]. split.
  - by rewrite lookup_alter_eq, Hh.
  - eapply dseg_frame; [|done]. intros k Hk. rewrite lookup_alter_ne; [done|].
    set_solver.
Qed.

Lemma dseg_set_down h u xs d d' :
  NoDup xs.*1 -> dseg h u xs d ->
  dseg (alter_opt (set_ele_down d') (last_or None xs.*1) h) u xs d'.
Proof.
  destruct xs as [|[l v] xs _] using rev_ind; [done|].
  rewrite fmap_app. simpl. rewrite last_or_snoc, !dseg_app. simpl.
  intros (Hn & Hd & _)%NoDup_app [Hxs [Hl _]]. split; [|split; [|done]].
  - eapply dseg_frame; [|done]. intros k Hk. apply lookup_alter_ne. set_solver.
  - by rewrite lookup_alter_eq, Hl.
Qed.

Lemma dseg_head h u xs d l : head_or None xs.*1 = Some l -> dseg h u xs d -> is_Some (h !! l).
Proof. destruct xs as [|[k v] xs]; simpl; [done|]. intros [= ->] [-> _]. eauto. Qed.

Lemma dseg_last h u xs d l : last_or None xs.*1 = Some l -> dseg h u xs d -> is_Some (h !! l).
Proof.
  destruct xs as [|[k v] xs _] using rev_ind; [done|].
  rewrite fmap_app, dseg_app. simpl. rewrite last_or_snoc.
  intros [= ->] [_ [-> _]]. eauto.
Qed.

Lemma head_or_elem (l : list loc) x : head_or None l = Some x -> x ∈ l.
Proof. destruct l; simpl; intros [=]; subst. apply elem_of_cons. by left. Qed.

Lemma last_or_elem (l : list loc) x : last_or None l = Some x -> x ∈ l.
Proof.
  unfold last_or. intros H. destruct (last l) as [y|] eqn:E; simplify_eq.
  apply last_Some in E as [l' ->]. set_solver.
Qed.

(** The focused node sits in the heap between its neighbours. *)
Lemma rep_at h s l1 l v l2 :
  stack_rep h s (At l1 (l, v) l2) ->
  stk_curr s = Some l /\
  h !! l = Some (Ele v (last_or None l1.*1) (head_or None l2.*1)) /\
  dseg h None l1 (Some l) /\ dseg h (Some l) l2 None /\
  NoDup l1.*1 /\ NoDup l2.*1 /\ (l ∉ l1.*1) /\ (l ∉ l2.*1) /\
  (forall k, k ∈ l1.*1 -> k ∉ l2.*1).
Proof.
  intros [Hn Hd Ht Hb Hc Hs]. simpl in *.
  rewrite fmap_app in Hn. simpl in Hn.
  apply NoDup_app in Hn as (Hn1 & Hdisj & Hn2).
  apply NoDup_cons in Hn2 as [Hl2 Hn2].
  apply dseg_app in Hd as [Hd1 [Hl Hd2]]. simpl in *.
  repeat split; try done; set_solver.
Qed.

(** *** Linking and unlinking one element *)

Lemma store_ele_run f l h s :
  is_Some (h !! l) -> store_ele f (Some l) (Mem h s) = Ok (tt, Mem (alter f l h) s).
Proof. intros [e He]. unfold store_ele. simpl. by rewrite He. Qed.

Lemma load_ele_run l h s e : h !! l = Some e -> load_ele (Some l) (Mem h s) = Ok (e, Mem h s).
Proof. intros He. unfold load_ele. simpl. by rewrite He. Qed.

Lemma store_opt_run f p h s :
  (forall l, p = Some l -> is_Some (h !! l)) ->
  (match p with Some _ => store_ele f p | None => mret tt end) (Mem h s)
  = Ok (tt, Mem (alter_opt f p h) s).
Proof. destruct p; simpl; [|done]. intros Hp. apply store_ele_run. auto. Qed.

Lemma is_Some_alter (f : tbx_stack_ele_t V -> tbx_stack_ele_t V) k (h : gmap loc _) l :
  is_Some (alter f k h !! l) <-> is_Some (h !! l).
Proof. rewrite lookup_alter_is_Some. done. Qed.

Lemma is_Some_alter_opt f p h l : is_Some (alter_opt f p h !! l) <-> is_Some (h !! l).
Proof. destruct p; simpl; [apply is_Some_alter|done]. Qed.

Lemma link_push_run h s z l v u d :
  stack_rep h s z -> h !! l = Some (Ele v u d) -> l ∉ (z_list z).*1 ->
  exists h' s',
    tbx_stack_link_push l (Mem h s) = Ok (tt, Mem h' s') /\
    stack_rep h' s' (z_push (l, v) z) /\
    (forall k, k <> l -> k ∉ (z_list z).*1 -> h' !! k = h !! k).
Proof.
  intros [Hn Hd Ht Hb Hc Hs] Hl Hnew.
  set (h1 := alter (set_ele_up None) l (alter (set_ele_down (stk_top s)) l h)).
  assert (Hl1 : h1 !! l = Some (Ele v None (stk_top s))).
  { unfold h1. by rewrite !lookup_alter_eq, Hl. }
  assert (Hk1 : forall k, k <> l -> h1 !! k = h !! k).
  { intros k ?. unfold h1. by rewrite !lookup_alter_ne. }
  set (h' := alter_opt (set_ele_up (Some l)) (stk_top s) h1).
  assert (Htl : stk_top s <> Some l).
  { rewrite Ht. intros ?%head_or_elem. done. }
  exists h', (Stk (Some l) (if stk_top s then stk_bottom s else Some l) (Some l) (stk_n s + 1)).
  split; [|split].
  - unfold tbx_stack_link_push. st_simpl.
    rewrite store_ele_run by eauto. simpl.
    rewrite store_ele_run by (rewrite is_Some_alter; eauto). simpl. fold h1.
    destruct (stk_top s) as [t|] eqn:Et; [|done].
    rewrite store_ele_run; [done|]. rewrite Hk1 by congruence.
    eapply dseg_head; [by rewrite <- Ht|done].
  - split; simpl.
    + by apply NoDup_cons.
    + split.
      * unfold h'. rewrite alter_opt_ne by done. by rewrite Hl1, Ht.
      * unfold h'. rewrite Ht. apply dseg_set_up with (u := None); [done|].
        eapply dseg_frame; [|done]. intros. apply Hk1. set_solver.
    + done.
    + rewrite last_or_cons, Hb, Ht. destruct (z_list z); [done|]. simpl.
      by rewrite !last_or_cons.
    + done.
    + lia.
  - intros k Hkl Hkz. unfold h'. rewrite alter_opt_ne; [by apply Hk1|].
    rewrite Ht. intros ?%head_or_elem. done.
Qed.

Lemma rep_at_top h s l1 l v l2 :
  stack_rep h s (At l1 (l, v) l2) -> stk_curr s = stk_top s <-> l1 = [].
Proof.
  intros Hr. destruct (rep_at _ _ _ _ _ _ Hr) as (Hc & _ & _ & _ & _ & _ & Hl1 & _).
  rewrite Hc, (rep_top _ _ _ Hr). simpl. destruct l1 as [|[k w] l1]; simpl; [done|].
  split; [|done]. intros [= ->]. set_solver.
Qed.

Lemma rep_at_bottom h s l1 l v l2 :
  stack_rep h s (At l1 (l, v) l2) -> stk_curr s = stk_bottom s <-> l2 = [].
Proof.
  intros Hr. destruct (rep_at _ _ _ _ _ _ Hr) as (Hc & _ & _ & _ & _ & _ & _ & Hl2 & _).
  rewrite Hc, (rep_bottom _ _ _ Hr). simpl. rewrite fmap_app. simpl.
  rewrite last_or_app, last_or_cons.
  destruct l2 as [|[k w] l2 _] using rev_ind; [done|].
  rewrite fmap_app in Hl2 |- *. simpl in *. rewrite last_or_snoc. split.
  - intros [= ->]. set_solver.
  - intros []%app_eq_nil. done.
Qed.

Lemma link_insert_below_run h s l1 c w l2 l v u d :
  stack_rep h s (At l1 (c, w) l2) -> h !! l = Some (Ele v u d) ->
  l ∉ (l1 ++ (c, w) :: l2).*1 ->
  exists h' s',
    tbx_stack_link_insert_below l (Mem h s) = Ok (1, Mem h' s') /\
    stack_rep h' s' (At (l1 ++ [(c, w)]) (l, v) l2) /\
    (forall k, k <> l -> k ∉ (l1 ++ (c, w) :: l2).*1 -> h' !! k = h !! k).
Proof.
  intros Hr Hl Hnew.
  destruct (rep_at _ _ _ _ _ _ Hr) as (Hc & Hhc & Hd1 & Hd2 & Hn1 & Hn2 & Hc1 & Hc2 & Hdis).
  pose proof (rep_at_top _ _ _ _ _ _ Hr) as Htop.
  pose proof (rep_at_bottom _ _ _ _ _ _ Hr) as Hbot.
  destruct Hr as [Hn _ Ht Hb _ Hs]. simpl in *.
  rewrite fmap_app in Hnew, Hn. simpl in Hnew, Hn.
  set (h1 := alter (set_ele_up (Some c)) l (alter (set_ele_down (head_or None l2.*1)) l h)).
  set (h2 := alter_opt (set_ele_up (Some l)) (head_or None l2.*1) h1).
  set (h' := alter (set_ele_down (Some l)) c h2).
  assert (Hlc : l <> c) by set_solver.
  assert (Hh2 : forall k, k <> l -> k ∉ l2.*1 -> h2 !! k = h !! k).
  { intros k Hk Hk2. unfold h2, h1. rewrite alter_opt_ne.
    - by rewrite !lookup_alter_ne.
    - intros ?%head_or_elem. done. }
  exists h', (Stk (stk_top s) (if decide (l2 = []) then Some l else stk_bottom s) (Some l) (stk_n s + 1)).
  split; [|split].
  - unfold tbx_stack_link_insert_below. st_simpl. rewrite Hc in Htop, Hbot |- *. simpl.
    rewrite (load_ele_run _ _ _ _ Hhc). simpl.
    rewrite store_ele_run by eauto. simpl.
    rewrite store_ele_run by (rewrite is_Some_alter; eauto). simpl. fold h1.
    rewrite (store_opt_run _ _ h1).
    2:{ intros k Hk. unfold h1. rewrite !is_Some_alter. by eapply dseg_head. }
    fold h2. rewrite store_ele_run by (rewrite Hh2 by set_solver; eauto). fold h'.
    repeat case_decide; simpl; repeat f_equal; try done; tauto.
  - split; simpl.
    + rewrite <- app_assoc. simpl. rewrite fmap_app. simpl. apply NoDup_app in Hn as (? & ? & ?).
      apply NoDup_app. split; [done|]. split; [set_solver|].
      apply NoDup_cons in H1 as [? ?]. apply NoDup_cons. split; [set_solver|].
      apply NoDup_cons. split; [set_solver|done].
    + rewrite <- app_assoc. simpl. apply dseg_app. simpl. split; [|split; [|split]].
      * eapply dseg_frame; [|done]. intros k Hk. unfold h'.
        rewrite lookup_alter_ne by set_solver. apply Hh2; set_solver.
      * unfold h'. rewrite lookup_alter_eq, Hh2 by set_solver. by rewrite Hhc.
      * unfold h'. rewrite lookup_alter_ne by done. unfold h2.
        rewrite alter_opt_ne by (intros ?%head_or_elem; set_solver).
        unfold h1. by rewrite !lookup_alter_eq, Hl.
      * apply dseg_frame with (h := h2).
        { intros k Hk. unfold h'. apply lookup_alter_ne. set_solver. }
        apply dseg_set_up with (u := Some c); [done|].
        eapply dseg_frame; [|done]. intros k Hk. unfold h1.
        rewrite !lookup_alter_ne by set_solver. done.
    + rewrite <- app_assoc, Ht, !fmap_app. simpl. by rewrite !head_or_app.
    + rewrite <- app_assoc, Hb, !fmap_app. simpl. rewrite !last_or_app, !last_or_cons.
      case_decide; [by subst|]. destruct l2; [done|]. simpl. by rewrite !last_or_cons.
    + done.
    + rewrite Hs, !length_app. simpl. lia.
  - intros k Hk Hkz. rewrite fmap_app in Hkz. simpl in Hkz. unfold h'.
    rewrite lookup_alter_ne by set_solver. apply Hh2; set_solver.
Qed.

Lemma link_insert_above_run h s l1 c w l2 l v u d :
  stack_rep h s (At l1 (c, w) l2) -> h !! l = Some (Ele v u d) ->
  l ∉ (l1 ++ (c, w) :: l2).*1 ->
  exists h' s',
    tbx_stack_link_insert_above l (Mem h s) = Ok (1, Mem h' s') /\
    stack_rep h' s' (At l1 (l, v) ((c, w) :: l2)) /\
    (forall k, k <> l -> k ∉ (l1 ++ (c, w) :: l2).*1 -> h' !! k = h !! k).
Proof.
  intros Hr Hl Hnew.
  destruct (rep_at _ _ _ _ _ _ Hr) as (Hc & Hhc & Hd1 & Hd2 & Hn1 & Hn2 & Hc1 & Hc2 & Hdis).
  pose proof (rep_at_top _ _ _ _ _ _ Hr) as Htop.
  pose proof (rep_at_bottom _ _ _ _ _ _ Hr) as Hbot.
  destruct Hr as [Hn _ Ht Hb _ Hs]. simpl in *.
  rewrite fmap_app in Hnew, Hn. simpl in Hnew, Hn.
  set (h1 := alter (set_ele_up (last_or None l1.*1)) l (alter (set_ele_down (Some c)) l h)).
  set (h2 := alter_opt (set_ele_down (Some l)) (last_or None l1.*1) h1).
  set (h' := alter (set_ele_up (Some l)) c h2).
  assert (Hlc : l <> c) by set_solver.
  assert (Hh2 : forall k, k <> l -> k ∉ l1.*1 -> h2 !! k = h !! k).
  { intros k Hk Hk2. unfold h2, h1. rewrite alter_opt_ne.
    - by rewrite !lookup_alter_ne.
    - intros ?%last_or_elem. done. }
  exists h', (Stk (if decide (l1 = []) then Some l else stk_top s) (stk_bottom s) (Some l) (stk_n s + 1)).
  split; [|split].
  - unfold tbx_stack_link_insert_above. st_simpl. rewrite Hc in Htop, Hbot |- *. simpl.
    rewrite store_ele_run by eauto. simpl.
    rewrite (load_ele_run c _ _ (Ele w (last_or None l1.*1) (head_or None l2.*1)))
      by (by rewrite lookup_alter_ne). simpl.
    rewrite store_ele_run by (rewrite is_Some_alter; eauto). simpl. fold h1.
    rewrite (store_opt_run _ _ h1).
    2:{ intros k Hk. unfold h1. rewrite !is_Some_alter. by eapply dseg_last. }
    fold h2. rewrite store_ele_run by (rewrite Hh2 by set_solver; eauto). fold h'.
    repeat case_decide; simpl; repeat f_equal; try done; tauto.
  - split; simpl.
    + rewrite fmap_app. simpl. apply NoDup_app in Hn as (? & ? & ?).
      apply NoDup_app. split; [done|]. split; [set_solver|].
      apply NoDup_cons. split; [set_solver|done].
    + apply dseg_app. simpl. split; [|split; [|split]].
      * apply dseg_frame with (h := h2).
        { intros k Hk. unfold h'. apply lookup_alter_ne. set_solver. }
        apply dseg_set_down with (d := Some c); [done|].
        eapply dseg_frame; [|done]. intros k Hk. unfold h1.
        rewrite !lookup_alter_ne by set_solver. done.
      * unfold h'. rewrite lookup_alter_ne by done. unfold h2.
        rewrite alter_opt_ne by (intros ?%last_or_elem; set_solver).
        unfold h1. by rewrite !lookup_alter_eq, Hl.
      * unfold h'. rewrite lookup_alter_eq, Hh2 by set_solver. by rewrite Hhc.
      * eapply dseg_frame; [|done]. intros k Hk. unfold h'.
        rewrite lookup_alter_ne by set_solver. apply Hh2; set_solver.
    + rewrite Ht, !fmap_app. simpl. rewrite !head_or_app. simpl.
      case_decide; [by subst|]. by destruct l1.
    + rewrite Hb, !fmap_app. simpl. by rewrite !last_or_app, !last_or_cons.
    + done.
    + rewrite Hs, !length_app. simpl. lia.
  - intros k Hk Hkz. rewrite fmap_app in Hkz. simpl in Hkz. unfold h'.
    rewrite lookup_alter_ne by set_solver. apply Hh2; set_solver.
Qed.

Lemma unlink_current_run h s l1 c w l2 mv :
  stack_rep h s (At l1 (c, w) l2) ->
  exists h' s',
    tbx_stack_unlink_current mv (Mem h s) = Ok (Some c, Mem h' s') /\
    stack_rep h' s' (z_delete mv (At l1 (c, w) l2)) /\
    (forall k, k ∉ (l1 ++ l2).*1 -> h' !! k = h !! k).
Proof.
  intros Hr.
  destruct (rep_at _ _ _ _ _ _ Hr) as (Hc & Hhc & Hd1 & Hd2 & Hn1 & Hn2 & Hc1 & Hc2 & Hdis).
  pose proof (rep_at_top _ _ _ _ _ _ Hr) as Htop.
  pose proof (rep_at_bottom _ _ _ _ _ _ Hr) as Hbot.
  destruct Hr as [Hn _ Ht Hb _ Hs]. simpl in *.
  rewrite fmap_app in Hn. simpl in Hn.
  set (h1 := alter_opt (set_ele_down (head_or None l2.*1)) (last_or None l1.*1) h).
  set (h' := alter_opt (set_ele_up (last_or None l1.*1)) (head_or None l2.*1) h1).
  assert (Hz : z_list (if mv then z_before l1 l2 else z_after l1 l2) = l1 ++ l2).
  { destruct mv; [apply z_before_list|apply z_after_list]. }
  exists h', (Stk (if decide (l1 = []) then head_or None l2.*1 else stk_top s)
             (if decide (l2 = []) then last_or None l1.*1 else stk_bottom s)
             (if mv then last_or None l1.*1 else head_or None l2.*1) (stk_n s - 1)).
  split; [|split].
  - unfold tbx_stack_unlink_current. st_simpl. rewrite Hc in Htop, Hbot |- *. simpl.
    rewrite (load_ele_run _ _ _ _ Hhc). simpl.
    rewrite (store_opt_run _ _ h) by (intros k Hk; by eapply dseg_last). fold h1.
    rewrite (store_opt_run _ _ h1).
    2:{ intros k Hk. unfold h1. rewrite is_Some_alter_opt. by eapply dseg_head. }
    fold h'. repeat case_decide; simpl; repeat f_equal; try done; tauto.
  - split; rewrite ?Hz; simpl.
    + rewrite fmap_app. apply NoDup_app in Hn as (? & ? & ?).
      apply NoDup_app. split; [done|]. split; [set_solver|done].
    + apply dseg_app. split.
      * apply dseg_frame with (h := h1).
        { intros k Hk. unfold h'. apply alter_opt_ne. intros ?%head_or_elem. set_solver. }
        by apply dseg_set_down with (d := Some c).
      * apply dseg_set_up with (u := Some c); [done|].
        eapply dseg_frame; [|done]. intros k Hk. apply alter_opt_ne.
        intros ?%last_or_elem. set_solver.
    + rewrite Ht, !fmap_app, !head_or_app. simpl. case_decide; [by subst|]. by destruct l1.
    + rewrite Hb, !fmap_app, !last_or_app. simpl. rewrite last_or_cons.
      case_decide; [by subst|]. destruct l2; [done|]. simpl. by rewrite !last_or_cons.
    + destruct mv; [rewrite z_focus_before|rewrite z_focus_after].
      * unfold last_or. rewrite fmap_last. by destruct (last l1).
      * by destruct l2.
    + rewrite Hs, !length_app. simpl. lia.
  - intros k Hkz. rewrite fmap_app in Hkz. unfold h', h1. rewrite !alter_opt_ne; [done|..].
    + intros ?%last_or_elem. set_solver.
    + intros ?%head_or_elem. set_solver.
Qed.

End rep.

(** ** Refinement of the single operations *)

Section refinement.
Context {V : Type}.
Implicit Types (z : zstack (option V)) (zn : zstack (loc * option V)).

(** [implements op z r z']: run on any memory that represents [z], [op]
    returns [r] without a fault, the memory then represents [z'], and the
    cells that do not belong to the stack are untouched. *)
Definition implements {A} (op : ST (stack_mem V) A) z (r : A) z' : Prop :=
  forall h s zn, stack_rep h s zn -> z_map snd zn = z ->
  exists h' s' zn', op (Mem h s) = Ok (r, Mem h' s') /\
    stack_rep h' s' zn' /\ z_map snd zn' = z' /\ keeps h zn h' zn'.

Lemma keeps_refl h zn zn' : z_list zn' = z_list zn -> keeps h zn h zn'.
Proof. intros E l _ Hl. by rewrite E. Qed.

Lemma keeps_trans (h0 h1 h2 : gmap loc (tbx_stack_ele_t V)) zn0 zn1 zn2 :
  keeps h0 zn0 h1 zn1 -> keeps h1 zn1 h2 zn2 -> keeps h0 zn0 h2 zn2.
Proof.
  intros H01 H12 l Hl Hz. destruct (H01 l Hl Hz) as [E1 Hz1].
  destruct (H12 l) as [E2 Hz2]; [|done|].
  - apply elem_of_dom. rewrite E1. by apply elem_of_dom.
  - split; [congruence|done].
Qed.

Lemma implements_ret {A} (a : A) z : implements (mret a) z a z.
Proof. intros h s zn Hr Hz. exists h, s, zn. auto using keeps_refl. Qed.

Lemma implements_bind {A B} (op : ST (stack_mem V) A) (k : A -> ST (stack_mem V) B) z a z1 b z2 :
  implements op z a z1 -> implements (k a) z1 b z2 -> implements (op ≫= k) z b z2.
Proof.
  intros H1 H2 h s zn Hr Hz.
  destruct (H1 h s zn Hr Hz) as (h1 & s1 & zn1 & E1 & Hr1 & Hz1 & Hk1).
  destruct (H2 h1 s1 zn1 Hr1 Hz1) as (h2 & s2 & zn2 & E2 & Hr2 & Hz2 & Hk2).
  exists h2, s2, zn2. split; [|eauto using keeps_trans].
  unfold mbind, st_bind. by rewrite E1.
Qed.

(** Cursor moves do not touch the heap. *)
Lemma rep_move h s zn zn' :
  stack_rep (V := V) h s zn -> z_list zn' = z_list zn ->
  stack_rep h (Stk (stk_top s) (stk_bottom s) (fst <$> z_focus zn') (stk_n s)) zn'.
Proof. intros [] E. split; rewrite ?E; done. Qed.

Lemma implements_move {A} (op : ST (stack_mem V) A) zn_op z (r : A) z' :
  (forall h s zn, stack_rep h s zn -> z_map snd zn = z ->
     z_list (zn_op zn) = z_list zn /\ z_map snd (zn_op zn) = z' /\
     op (Mem h s) = Ok (r, Mem h (Stk (stk_top s) (stk_bottom s)
                                      (fst <$> z_focus (zn_op zn)) (stk_n s)))) ->
  implements op z r z'.
Proof.
  intros H h s zn Hr Hz. destruct (H h s zn Hr Hz) as (El & Ez & E).
  exists h, (Stk (stk_top s) (stk_bottom s) (fst <$> z_focus (zn_op zn)) (stk_n s)), (zn_op zn).
  split; [done|]. split; [by eapply rep_move|]. split; [done|]. by apply keeps_refl.
Qed.

Lemma fst_head_or (l : list (loc * option V)) : fst <$> head_or None l = head_or None l.*1.
Proof. by destruct l. Qed.

Lemma fst_last_or (l : list (loc * option V)) : fst <$> last_or None l = last_or None l.*1.
Proof. unfold last_or. rewrite fmap_last. by destruct (last l). Qed.

Lemma move_to_top_ok z : implements tbx_stack_move_to_top z 1 (z_top z).
Proof.
  apply (implements_move _ z_top). intros h s zn Hr <-.
  split; [apply z_after_list|]. split; [apply z_map_top|].
  unfold z_top. rewrite z_focus_after, fst_head_or.
  unfold tbx_stack_move_to_top. st_simpl.
  by rewrite <- (rep_top _ _ _ Hr).
Qed.

Lemma move_to_bottom_ok z : implements tbx_stack_move_to_bottom z 1 (z_bottom z).
Proof.
  apply (implements_move _ z_bottom). intros h s zn Hr <-.
  split; [unfold z_bottom; by rewrite z_before_list, app_nil_r|].
  split; [apply z_map_bottom|].
  unfold z_bottom. rewrite z_focus_before, fst_last_or.
  unfold tbx_stack_move_to_bottom. st_simpl.
  by rewrite <- (rep_bottom _ _ _ Hr).
Qed.

Lemma move_down_ok z :
  implements tbx_stack_move_down z (if z_focus z then 1 else 0) (z_down z).
Proof.
  apply (implements_move _ z_down). intros h s zn Hr <-.
  split; [|split; [apply z_map_down|]].
  - destruct zn; simpl; [done|]. by rewrite z_after_list, <- app_assoc.
  - destruct zn as [l|l1 [c w] l2].
    + unfold tbx_stack_move_down. st_simpl. rewrite (rep_curr _ _ _ Hr). simpl. destruct s; simpl. do 3 f_equal.
      pose proof (rep_curr _ _ _ Hr) as E. simpl in E. by subst.
    + destruct (rep_at _ _ _ _ _ _ Hr) as (Hc & Hhc & _).
      unfold tbx_stack_move_down. st_simpl. rewrite Hc, (load_ele_run _ _ _ _ Hhc). simpl.
      by rewrite z_focus_after, fst_head_or.
Qed.

Lemma move_up_ok z :
  implements tbx_stack_move_up z (if z_focus z then 1 else 0) (z_up z).
Proof.
  apply (implements_move _ z_up). intros h s zn Hr <-.
  split; [|split; [apply z_map_up|]].
  - destruct zn; simpl; [done|]. by rewrite z_before_list.
  - destruct zn as [l|l1 [c w] l2].
    + unfold tbx_stack_move_up. st_simpl. rewrite (rep_curr _ _ _ Hr). simpl. destruct s; simpl. do 3 f_equal.
      pose proof (rep_curr _ _ _ Hr) as E. simpl in E. by subst.
    + destruct (rep_at _ _ _ _ _ _ Hr) as (Hc & Hhc & _).
      unfold tbx_stack_move_up. st_simpl. rewrite Hc, (load_ele_run _ _ _ _ Hhc). simpl.
      by rewrite z_focus_before, fst_last_or.
Qed.

Lemma get_current_data_ok z :
  implements tbx_stack_get_current_data z (mjoin (z_focus z)) z.
Proof.
  intros h s zn Hr <-. exists h, s, zn. split; [|auto using keeps_refl].
  destruct zn as [l|l1 [c w] l2].
  - unfold tbx_stack_get_current_data. st_simpl. by rewrite (rep_curr _ _ _ Hr).
  - destruct (rep_at _ _ _ _ _ _ Hr) as (Hc & Hhc & _).
    unfold tbx_stack_get_current_data. st_simpl. rewrite Hc, (load_ele_run _ _ _ _ Hhc). simpl. by destruct w.
Qed.

Lemma count_ok z : implements tbx_stack_count z (Z.of_nat (length (z_list z))) z.
Proof.
  intros h s zn Hr <-. exists h, s, zn. split; [|auto using keeps_refl].
  unfold tbx_stack_count. st_simpl. by rewrite (rep_n _ _ _ Hr), z_map_list, length_fmap.
Qed.

(** A fresh element is linked in; [zn'] is the new node list. *)
Lemma malloc_fresh h s v :
  exists l, l ∉ dom h /\ malloc_ele (V := V) v (Mem h s) = Ok (l, Mem (<[l := Ele v None None]> h) s).
Proof.
  exists (fresh (dom h)). split; [apply is_fresh|done].
Qed.

Lemma rep_insert_ne h s zn l e :
  stack_rep (V := V) h s zn -> l ∉ dom h -> stack_rep (<[l := e]> h) s zn.
Proof.
  intros [] Hl. split; try done. eapply dseg_frame; [|done].
  intros k Hk. apply lookup_insert_ne. intros <-. apply Hl. by eapply dseg_dom.
Qed.

Lemma rep_dom h s zn l : stack_rep (V := V) h s zn -> l ∈ (z_list zn).*1 -> l ∈ dom h.
Proof. intros [] ?. by eapply dseg_dom. Qed.

Lemma keeps_link h h' l e zn (zn' : zstack (loc * option V)) :
  l ∉ dom h -> (forall k, k ∈ (z_list zn').*1 -> k = l \/ k ∈ (z_list zn).*1) ->
  (forall k, k <> l -> k ∉ (z_list zn).*1 -> h' !! k = (<[l := e]> h) !! k) ->
  keeps h zn h' zn'.
Proof.
  intros Hl Hz Hk k Hkd Hkz. assert (k <> l) by (intros ->; done). split.
  - rewrite Hk by done. by rewrite lookup_insert_ne.
  - intros Hin. destruct (Hz k Hin); done.
Qed.

Lemma push_ok v z : implements (tbx_stack_push v) z tt (z_push v z).
Proof.
  intros h s zn Hr <-. destruct (malloc_fresh h s v) as (l & Hl & Em).
  assert (Hlz : l ∉ (z_list zn).*1) by (intros ?; eauto using rep_dom).
  destruct (link_push_run (<[l := Ele v None None]> h) s zn l v None None)
    as (h' & s' & E & Hr' & Hk); [by apply rep_insert_ne|by rewrite lookup_insert_eq|done|].
  exists h', s', (z_push (l, v) zn). split.
  { unfold tbx_stack_push, mbind, st_bind. by rewrite Em. }
  split; [done|]. split; [apply z_map_push|].
  apply (keeps_link _ _ l (Ele v None None)); [done| |done]. simpl. set_solver.
Qed.

(** Both insertions share their cases: on the cursor, on the empty stack, or
    refused because the position is unknown. *)
Lemma link_insert_push h s zn l v u d (link : loc -> ST (stack_mem V) Z) :
  link = tbx_stack_link_insert_below \/ link = tbx_stack_link_insert_above ->
  stack_rep h s zn -> z_list zn = [] -> h !! l = Some (Ele v u d) ->
  exists h' s', link l (Mem h s) = Ok (1, Mem h' s') /\
    stack_rep h' s' (At [] (l, v) []) /\
    (forall k, k <> l -> h' !! k = h !! k).
Proof.
  intros Hlink Hr Hz Hl.
  destruct (link_push_run h s zn l v u d) as (h' & s' & E & Hr' & Hk); [done..| |].
  { rewrite Hz. set_solver. }
  exists h', s'. unfold z_push in Hr'. rewrite Hz in Hr', Hk. split; [|split; [done|set_solver]].
  assert (Hc : stk_curr s = None).
  { rewrite (rep_curr _ _ _ Hr). destruct zn as [|l1 x l2]; [done|]. by destruct l1. }
  assert (Ht : stk_top s = None) by (by rewrite (rep_top _ _ _ Hr), Hz).
  destruct Hlink as [-> | ->];
    unfold tbx_stack_link_insert_below, tbx_stack_link_insert_above;
    st_simpl; rewrite Hc, Ht; simpl; by rewrite E.
Qed.

Lemma link_insert_refused h s (xs : list (loc * option V)) l (link : loc -> ST (stack_mem V) Z) :
  link = tbx_stack_link_insert_below \/ link = tbx_stack_link_insert_above ->
  stack_rep h s (Off xs) -> xs <> [] -> forall h2,
  link l (Mem h2 s) = Ok (0, Mem h2 s).
Proof.
  intros Hlink Hr Hz h2.
  pose proof (rep_curr _ _ _ Hr) as Hc. pose proof (rep_top _ _ _ Hr) as Ht. simpl in *.
  destruct xs as [|[k w] xs]; [done|]. simpl in Ht.
  destruct Hlink as [-> | ->];
    unfold tbx_stack_link_insert_below, tbx_stack_link_insert_above;
    st_simpl; by rewrite Hc, Ht.
Qed.

Lemma free_fresh h s l e :
  l ∉ dom h -> free_ele (V := V) l (Mem (<[l := e]> h) s) = Ok (tt, Mem h s).
Proof.
  intros Hl. unfold free_ele. simpl. rewrite lookup_insert_eq.
  rewrite delete_insert_id; [done|]. by apply not_elem_of_dom.
Qed.

Lemma insert_below_ok v z :
  implements (tbx_stack_insert_below v) z
    (if z_insert_below v z then 1 else 0) (default z (z_insert_below v z)).
Proof.
  intros h s zn Hr <-. destruct (malloc_fresh h s v) as (l & Hl & Em).
  assert (Hlz : l ∉ (z_list zn).*1) by (intros ?; eauto using rep_dom).
  unfold tbx_stack_insert_below. unfold mbind, st_bind. rewrite Em.
  pose proof (rep_insert_ne _ _ _ l (Ele v None None) Hr Hl) as Hr1.
  destruct zn as [[|x xs]|l1 [c w] l2].
  - destruct (link_insert_push _ s (Off []) l v None None _ (or_introl eq_refl) Hr1 eq_refl)
      as (h' & s' & E & Hr' & Hk); [by rewrite lookup_insert_eq|].
    rewrite E. simpl. exists h', s', (At [] (l, v) []). do 3 (split; [done|]).
    apply (keeps_link _ _ l (Ele v None None)); [done| |by auto]. simpl. set_solver.
  - rewrite (link_insert_refused _ _ _ l _ (or_introl eq_refl) Hr) by done. simpl.
    rewrite free_fresh by done. exists h, s, (Off (x :: xs)). auto using keeps_refl.
  - destruct (link_insert_below_run _ _ _ _ _ _ l v None None Hr1) as (h' & s' & E & Hr' & Hk);
      [by rewrite lookup_insert_eq|done|].
    rewrite E. simpl. exists h', s', (At (l1 ++ [(c, w)]) (l, v) l2). split; [done|].
    split; [done|]. split; [simpl; by rewrite fmap_app|].
    apply (keeps_link _ _ l (Ele v None None)); [done| |done]. simpl.
    intros k. rewrite !fmap_app. simpl. set_solver.
Qed.

Lemma insert_above_ok v z :
  implements (tbx_stack_insert_above v) z
    (if z_insert_above v z then 1 else 0) (default z (z_insert_above v z)).
Proof.
  intros h s zn Hr <-. destruct (malloc_fresh h s v) as (l & Hl & Em).
  assert (Hlz : l ∉ (z_list zn).*1) by (intros ?; eauto using rep_dom).
  unfold tbx_stack_insert_above. unfold mbind, st_bind. rewrite Em.
  pose proof (rep_insert_ne _ _ _ l (Ele v None None) Hr Hl) as Hr1.
  destruct zn as [[|x xs]|l1 [c w] l2].
  - destruct (link_insert_push _ s (Off []) l v None None _ (or_intror eq_refl) Hr1 eq_refl)
      as (h' & s' & E & Hr' & Hk); [by rewrite lookup_insert_eq|].
    rewrite E. simpl. exists h', s', (At [] (l, v) []). do 3 (split; [done|]).
    apply (keeps_link _ _ l (Ele v None None)); [done| |by auto]. simpl. set_solver.
  - rewrite (link_insert_refused _ _ _ l _ (or_intror eq_refl) Hr) by done. simpl.
    rewrite free_fresh by done. exists h, s, (Off (x :: xs)). auto using keeps_refl.
  - destruct (link_insert_above_run _ _ _ _ _ _ l v None None Hr1) as (h' & s' & E & Hr' & Hk);
      [by rewrite lookup_insert_eq|done|].
    rewrite E. simpl. exists h', s', (At l1 (l, v) ((c, w) :: l2)). split; [done|].
    split; [done|]. split; [done|].
    apply (keeps_link _ _ l (Ele v None None)); [done| |done]. simpl.
    intros k. rewrite !fmap_app. simpl. set_solver.
Qed.

Lemma z_delete_list {A} mv (l1 l2 : list A) x :
  z_list (z_delete mv (At l1 x l2)) = l1 ++ l2.
Proof. destruct mv; [apply z_before_list|apply z_after_list]. Qed.

(** Unlinking the current element and freeing it. *)
Lemma unlink_free_run h s l1 c w l2 mv :
  stack_rep h s (At l1 (c, w) l2) ->
  exists h1 s' (e : tbx_stack_ele_t V),
    tbx_stack_unlink_current mv (Mem h s) = Ok (Some c, Mem h1 s') /\
    load_ele (Some c) (Mem h1 s') = Ok (e, Mem h1 s') /\ ele_data e = w /\
    free_ele c (Mem h1 s') = Ok (tt, Mem (delete c h1) s') /\
    stack_rep (delete c h1) s' (z_delete mv (At l1 (c, w) l2)) /\
    keeps h (At l1 (c, w) l2) (delete c h1) (z_delete mv (At l1 (c, w) l2)).
Proof.
  intros Hr. destruct (rep_at _ _ _ _ _ _ Hr) as (_ & Hhc & _ & _ & _ & _ & Hc1 & Hc2 & _).
  destruct (unlink_current_run _ _ _ _ _ _ mv Hr) as (h1 & s' & E & Hr' & Hk).
  assert (Hcz : c ∉ (l1 ++ l2).*1) by (rewrite fmap_app; set_solver).
  exists h1, s', (Ele w (last_or None l1.*1) (head_or None l2.*1)).
  split; [done|]. split; [by rewrite (load_ele_run c h1 s' _) by (by rewrite Hk)|].
  split; [done|]. split; [unfold free_ele; simpl; by rewrite Hk, Hhc|]. split.
  - destruct Hr'. split; try done. eapply dseg_frame; [|done]. intros k Hkz.
    rewrite z_delete_list in Hkz. apply lookup_delete_ne. set_solver.
  - intros k Hkd Hkz. rewrite z_delete_list. simpl in Hkz. rewrite fmap_app in Hkz |- *.
    simpl in Hkz. split; [|set_solver].
    rewrite lookup_delete_ne by set_solver. apply Hk. rewrite fmap_app. set_solver.
Qed.

Definition z_freed (data_also : bool) z : list V :=
  if data_also then option_list (mjoin (z_focus z)) else [].

Lemma delete_current_ok mv data_also z :
  implements (tbx_stack_delete_current mv data_also) z
    (if z_focus z then 1 else 0, z_freed data_also z) (z_delete mv z).
Proof.
  intros h s zn Hr <-. unfold tbx_stack_delete_current, mbind, st_bind.
  destruct zn as [l|l1 [c w] l2].
  - unfold tbx_stack_unlink_current. pose proof (rep_curr _ _ _ Hr) as Hc.
    st_simpl. rewrite Hc. simpl. exists h, s, (Off l).
    split; [by destruct data_also|]. auto using keeps_refl.
  - destruct (unlink_free_run _ _ _ _ _ _ mv Hr) as (h1 & s' & e & E & El & Ew & Ef & Hr' & Hk).
    rewrite E, El, Ef. simpl. eexists _, _, _. split; [|split; [done|]].
    + rewrite Ew. unfold z_freed. simpl. by destruct w.
    + split; [by rewrite z_map_delete|done].
Qed.

(** The element that [tbx_stack_pop] takes, and what is left. *)
Definition z_pop z : option V * zstack (option V) :=
  match z_list z with [] => (None, Off []) | v :: l => (v, z_after [] l) end.

Lemma pop_ok z : implements tbx_stack_pop z (z_pop z).1 (z_pop z).2.
Proof.
  intros h s zn Hr <-.
  destruct (move_to_top_ok _ h s zn Hr eq_refl) as (h0 & s0 & zn0 & E0 & Hr0 & Hz0 & Hk0).
  rewrite <- z_map_top in Hz0. unfold z_top in Hz0.
  unfold tbx_stack_pop, pop_link. unfold mbind, st_bind. rewrite E0.
  assert (El : z_list (z_map snd zn) = z_list (z_map snd zn0)).
  { rewrite Hz0, z_map_after, z_after_list, z_map_list. done. }
  unfold z_pop. rewrite El. rewrite z_map_after in Hz0.
  destruct zn0 as [l|l1 [c w] l2].
  - rewrite z_map_list. simpl in *.
    destruct (snd <$> z_list zn) eqn:E; simpl in Hz0; simplify_eq.
    unfold tbx_stack_unlink_current. pose proof (rep_curr _ _ _ Hr0) as Hc.
    st_simpl. rewrite Hc. rewrite Hz0. exists h0, s0, (Off l). simpl. by rewrite Hz0.
  - assert (l1 = []) as ->.
    { destruct (snd <$> z_list zn) as [|y ys]; simpl in Hz0; [done|].
      injection Hz0 as Hl1 _ _. by apply fmap_nil_inv in Hl1. }
    destruct (unlink_free_run _ _ _ _ _ _ false Hr0) as (h1 & s' & e & E & El' & Ew & Ef & Hr' & Hk).
    rewrite E, El', Ef. simpl. eexists _, _, _. split; [by rewrite Ew|].
    split; [done|]. split; [by rewrite z_map_delete|]. by eapply keeps_trans.
Qed.

Lemma pop_bottom_ok z :
  implements tbx_stack_pop_bottom z (mjoin (z_focus (z_bottom z))) (z_delete true (z_bottom z)).
Proof.
  eapply implements_bind; [apply move_to_bottom_ok|].
  eapply implements_bind; [apply get_current_data_ok|].
  eapply implements_bind; [apply delete_current_ok|]. apply implements_ret.
Qed.

(** Emptying stops at the first element whose data pointer is [NULL]. *)
Fixpoint empty_list (l : list (option V)) : list V * zstack (option V) :=
  match l with
  | [] => ([], Off [])
  | None :: l' => ([], z_after [] l')
  | Some p :: l' => (p :: (empty_list l').1, (empty_list l').2)
  end.

Lemma stack_empty_loop_ok data_also fuel z :
  (length (z_list z) < fuel)%nat ->
  implements (stack_empty_loop fuel data_also) z
    (if data_also then (empty_list (z_list z)).1 else []) (empty_list (z_list z)).2.
Proof.
  revert z. induction fuel as [|fuel IH]; intros z Hf; [lia|].
  cbn [stack_empty_loop]. eapply implements_bind; [apply pop_ok|].
  unfold z_pop. destruct (z_list z) as [|[p|] l] eqn:E; simpl.
  - destruct data_also; apply implements_ret.
  - assert (El : z_list (z_after [] l) = l) by apply z_after_list.
    specialize (IH (z_after [] l)). rewrite El in IH. simpl in Hf.
    eapply implements_bind; [apply IH; lia|].
    destruct data_also; apply implements_ret.
  - destruct data_also; apply implements_ret.
Qed.

Lemma rep_size h s zn : stack_rep (V := V) h s zn -> (length (z_list zn) <= size h)%nat.
Proof.
  intros Hr. rewrite <- size_dom, <- (length_fmap fst).
  rewrite <- (size_list_to_set (C := gset loc)) by apply Hr.
  apply subseteq_size. intros l Hl%elem_of_list_to_set. by eapply rep_dom.
Qed.

Lemma stack_empty_ok data_also z :
  implements (tbx_stack_empty data_also) z
    (if data_also then (empty_list (z_list z)).1 else []) (empty_list (z_list z)).2.
Proof.
  intros h s zn Hr Hz. unfold tbx_stack_empty. simpl.
  eapply (stack_empty_loop_ok data_also (S (size h))); [|done|done].
  subst z. rewrite z_map_list, length_fmap. apply rep_size in Hr. lia.
Qed.

End refinement.

(** ** Whole runs of the stack interface *)

Section scripts.
Context {V : Type}.

Inductive stack_cmd :=
| CCount | CPush (v : option V) | CPop | CPopBottom | CCurrent
| CToTop | CToBottom | CDown | CUp
| CInsertBelow (v : option V) | CInsertAbove (v : option V)
| CDelete (mv_up data_also : bool) | CEmpty (data_also : bool).

(** What a call returns: a status or count, a data pointer, and the data
    pointers handed to [free]. *)
Record stack_out := Out { out_int : Z; out_data : option V; out_freed : list V }.

Definition exec_cmd (c : stack_cmd) : ST (stack_mem V) stack_out :=
  match c with
  | CCount => n ← tbx_stack_count; mret (Out n None [])
  | CPush v => tbx_stack_push v;; mret (Out 0 None [])
  | CPop => v ← tbx_stack_pop; mret (Out 0 v [])
  | CPopBottom => v ← tbx_stack_pop_bottom; mret (Out 0 v [])
  | CCurrent => v ← tbx_stack_get_current_data; mret (Out 0 v [])
  | CToTop => r ← tbx_stack_move_to_top; mret (Out r None [])
  | CToBottom => r ← tbx_stack_move_to_bottom; mret (Out r None [])
  | CDown => r ← tbx_stack_move_down; mret (Out r None [])
  | CUp => r ← tbx_stack_move_up; mret (Out r None [])
  | CInsertBelow v => r ← tbx_stack_insert_below v; mret (Out r None [])
  | CInsertAbove v => r ← tbx_stack_insert_above v; mret (Out r None [])
  | CDelete mv d => '(r, f) ← tbx_stack_delete_current mv d; mret (Out r None f)
  | CEmpty d => f ← tbx_stack_empty d; mret (Out 0 None f)
  end.

Definition spec_cmd (c : stack_cmd) (z : zstack (option V)) : stack_out * zstack (option V) :=
  match c with
  | CCount => (Out (Z.of_nat (length (z_list z))) None [], z)
  | CPush v => (Out 0 None [], z_push v z)
  | CPop => (Out 0 (z_pop z).1 [], (z_pop z).2)
  | CPopBottom => (Out 0 (mjoin (z_focus (z_bottom z))) [], z_delete true (z_bottom z))
  | CCurrent => (Out 0 (mjoin (z_focus z)) [], z)
  | CToTop => (Out 1 None [], z_top z)
  | CToBottom => (Out 1 None [], z_bottom z)
  | CDown => (Out (if z_focus z then 1 else 0) None [], z_down z)
  | CUp => (Out (if z_focus z then 1 else 0) None [], z_up z)
  | CInsertBelow v => (Out (if z_insert_below v z then 1 else 0) None [],
                       default z (z_insert_below v z))
  | CInsertAbove v => (Out (if z_insert_above v z then 1 else 0) None [],
                       default z (z_insert_above v z))
  | CDelete mv d => (Out (if z_focus z then 1 else 0) None (z_freed d z), z_delete mv z)
  | CEmpty d => (Out 0 None (if d then (empty_list (z_list z)).1 else []),
                 (empty_list (z_list z)).2)
  end.

Fixpoint exec_cmds (cs : list stack_cmd) : ST (stack_mem V) (list stack_out) :=
  match cs with
  | [] => mret []
  | c :: cs => o ← exec_cmd c; os ← exec_cmds cs; mret (o :: os)
  end.

Fixpoint spec_cmds (cs : list stack_cmd) (z : zstack (option V))
    : list stack_out * zstack (option V) :=
  match cs with
  | [] => ([], z)
  | c :: cs =>
      let '(o, z1) := spec_cmd c z in
      let '(os, z2) := spec_cmds cs z1 in (o :: os, z2)
  end.

(** The refinement lemma of the operation in the goal. *)
Ltac stack_op_ok :=
  lazymatch goal with
  | |- implements tbx_stack_count _ _ _ => apply count_ok
  | |- implements (tbx_stack_push _) _ _ _ => apply push_ok
  | |- implements tbx_stack_pop _ _ _ => apply pop_ok
  | |- implements tbx_stack_pop_bottom _ _ _ => apply pop_bottom_ok
  | |- implements tbx_stack_get_current_data _ _ _ => apply get_current_data_ok
  | |- implements tbx_stack_move_to_top _ _ _ => apply move_to_top_ok
  | |- implements tbx_stack_move_to_bottom _ _ _ => apply move_to_bottom_ok
  | |- implements tbx_stack_move_down _ _ _ => apply move_down_ok
  | |- implements tbx_stack_move_up _ _ _ => apply move_up_ok
  | |- implements (tbx_stack_insert_below _) _ _ _ => apply insert_below_ok
  | |- implements (tbx_stack_insert_above _) _ _ _ => apply insert_above_ok
  | |- implements (tbx_stack_delete_current _ _) _ _ _ => apply delete_current_ok
  | |- implements (tbx_stack_empty _) _ _ _ => apply stack_empty_ok
  end.

Lemma exec_cmd_ok c z : implements (exec_cmd c) z (spec_cmd c z).1 (spec_cmd c z).2.
Proof. destruct c; simpl; (eapply implements_bind; [stack_op_ok|apply implements_ret]). Qed.

Lemma exec_cmds_ok cs z : implements (exec_cmds cs) z (spec_cmds cs z).1 (spec_cmds cs z).2.
Proof.
  revert z. induction cs as [|c cs IH]; intros z; simpl; [apply implements_ret|].
  eapply implements_bind; [apply exec_cmd_ok|].
  destruct (spec_cmd c z) as [o z1]. simpl.
  eapply implements_bind; [apply IH|].
  destruct (spec_cmds cs z1) as [os z2]. apply implements_ret.
Qed.

Lemma stack_new_rep h : stack_rep (V := V) h tbx_stack_new (Off []).
Proof. split; simpl; try done. constructor. Qed.

(** C21: Any sequence of calls on a new stack, in a heap that may hold other
    elements, runs without a fault and returns what the abstract list with a
    cursor returns; the stack then represents the abstract result, and no
    heap cell that existed before has changed. *)
Theorem stack_refines_list (cs : list stack_cmd) (h : gmap loc (tbx_stack_ele_t V)) :
  exists h' s' zn',
    exec_cmds cs (Mem h tbx_stack_new) = Ok ((spec_cmds cs (Off [])).1, Mem h' s') /\
    stack_rep h' s' zn' /\ z_map snd zn' = (spec_cmds cs (Off [])).2 /\
    forall l, l ∈ dom h -> h' !! l = h !! l.
Proof.
  destruct (exec_cmds_ok cs (Off []) h tbx_stack_new (Off []) (stack_new_rep h) eq_refl)
    as (h' & s' & zn' & E & Hr & Hz & Hk).
  exists h', s', zn'. do 3 (split; [done|]).
  intros l Hl. apply Hk; [done|]. simpl. set_solver.
Qed.

End scripts.

(** ** Two stacks in one heap: duplication *)

Section dup.
Context {V : Type}.
Implicit Types (z : zstack (option V)).

(** Both stacks are represented and share no element. *)
Definition two_stacks (d : dup_mem V) (z_new z_old : zstack (option V)) : Prop :=
  let '(h, new, old) := d in
  exists zn zo, stack_rep h new zn /\ stack_rep h old zo /\
    z_map snd zn = z_new /\ z_map snd zo = z_old /\
    (forall l, l ∈ (z_list zn).*1 -> l ∉ (z_list zo).*1).

Lemma rep_keeps h s zn h' zo zo' :
  stack_rep (V := V) h s zn -> keeps h zo h' zo' ->
  (forall l, l ∈ (z_list zn).*1 -> l ∉ (z_list zo).*1) ->
  stack_rep h' s zn /\ (forall l, l ∈ (z_list zn).*1 -> l ∉ (z_list zo').*1).
Proof.
  intros Hr Hk Hd. split.
  - destruct Hr. split; try done. eapply dseg_frame; [|done].
    intros l Hl. apply Hk; [by eapply dseg_dom|auto].
  - intros l Hl. apply (Hk l); [by eapply rep_dom|auto].
Qed.

Lemma on_new_ok {A} (op : ST (stack_mem V) A) d z_new z_old (r : A) z' :
  implements op z_new r z' -> two_stacks d z_new z_old ->
  exists d', on_new op d = Ok (r, d') /\ two_stacks d' z' z_old.
Proof.
  destruct d as [[h new] old]. intros Hop (zn & zo & Hn & Ho & En & Eo & Hd).
  destruct (Hop h new zn Hn En) as (h' & s' & zn' & E & Hn' & Ez & Hk).
  destruct (rep_keeps h old zo h' zn zn') as [Ho' Hd']; [done..|set_solver|].
  exists (h', s', old). split; [unfold on_new; by rewrite E|].
  exists zn', zo. repeat (split; [done|]). set_solver.
Qed.

Lemma on_old_ok {A} (op : ST (stack_mem V) A) d z_new z_old (r : A) z' :
  implements op z_old r z' -> two_stacks d z_new z_old ->
  exists d', on_old op d = Ok (r, d') /\ two_stacks d' z_new z'.
Proof.
  destruct d as [[h new] old]. intros Hop (zn & zo & Hn & Ho & En & Eo & Hd).
  destruct (Hop h old zo Ho Eo) as (h' & s' & zo' & E & Ho' & Ez & Hk).
  destruct (rep_keeps h new zn h' zo zo') as [Hn' Hd']; [done..|].
  exists (h', new, s'). split; [unfold on_old; by rewrite E|].
  exists zn, zo'. repeat (split; [done|]). done.
Qed.

Lemma stack_dup_loop_ok fuel l1 l2 z_new d :
  (length l1 < fuel)%nat -> Forall is_Some l1 ->
  two_stacks d z_new (z_before l1 l2) ->
  exists d' z_new', stack_dup_loop fuel d = Ok (tt, d') /\
    two_stacks d' z_new' (Off (l1 ++ l2)) /\ z_list z_new' = l1 ++ z_list z_new.
Proof.
  revert l1 l2 z_new d. induction fuel as [|fuel IH]; intros l1 l2 z_new d Hf Hs Hd; [lia|].
  destruct l1 as [|x l1 _] using rev_ind.
  - destruct (on_old_ok _ _ _ _ _ _ (get_current_data_ok _) Hd) as (d1 & E1 & Hd1).
    exists d1, z_new. cbn [stack_dup_loop]. unfold mbind, st_bind. by rewrite E1.
  - apply Forall_app in Hs as [Hs Hx]. apply Forall_singleton in Hx as [p ->].
    rewrite z_before_snoc in Hd. rewrite length_app in Hf. simpl in Hf.
    destruct (on_old_ok _ _ _ _ _ _ (get_current_data_ok _) Hd) as (d1 & E1 & Hd1).
    destruct (on_new_ok _ _ _ _ _ _ (push_ok (Some p) z_new) Hd1) as (d2 & E2 & Hd2).
    destruct (on_old_ok _ _ _ _ _ _ (move_up_ok _) Hd2) as (d3 & E3 & Hd3).
    destruct (IH l1 (Some p :: l2) (z_push (Some p) z_new) d3) as (d4 & zn4 & E4 & Hd4 & Ez);
      [lia|done|done|].
    exists d4, zn4. cbn [stack_dup_loop]. unfold mbind, st_bind.
    rewrite E1. simpl. rewrite E2, E3, E4. split; [done|].
    rewrite <- !app_assoc. split; [done|]. by rewrite Ez.
Qed.

(** When no element of [old] holds a [NULL] pointer, [tbx_stack_dup]
    terminates and puts a copy of [old] on top of [new], element for element
    in the same order; [old] keeps its elements and the two stacks stay
    disjoint in the heap. *)
Theorem stack_dup_copies (d : dup_mem V) z_new z_old
    (Hd : two_stacks d z_new z_old) (Hs : Forall is_Some (z_list z_old)) :
  exists d' z_new', tbx_stack_dup d = Ok (tt, d') /\
    two_stacks d' z_new' (Off (z_list z_old)) /\
    z_list z_new' = z_list z_old ++ z_list z_new.
Proof.
  destruct (on_old_ok _ _ _ _ _ _ (move_to_bottom_ok _) Hd) as (d1 & E1 & Hd1).
  destruct (stack_dup_loop_ok (S (size d.1.1)) (z_list z_old) [] z_new d1)
    as (d2 & zn2 & E2 & Hd2 & Ez); [|done|done|].
  - destruct d as [[h new] old]. destruct Hd as (zn & zo & _ & Ho & _ & <- & _).
    rewrite z_map_list, length_fmap. apply rep_size in Ho. simpl. lia.
  - exists d2, zn2. rewrite app_nil_r in Hd2. split; [|done].
    unfold tbx_stack_dup, mbind, st_bind. by rewrite E1.
Qed.

End dup.

(** A run of the duplication theorem: [old] holds two elements, [new] none. *)
Definition dup_example : dup_mem nat :=
  (<[1%positive := Ele (Some 5%nat) None (Some 2%positive)]>
     (<[2%positive := Ele (Some 6%nat) (Some 1%positive) None]> ∅),
   tbx_stack_new, Stk (Some 1%positive) (Some 2%positive) None 2).

Lemma stack_dup_copies_witness :
  exists d' z_new', tbx_stack_dup dup_example = Ok (tt, d') /\
    two_stacks d' z_new' (Off [Some 5%nat; Some 6%nat]) /\
    z_list z_new' = [Some 5%nat; Some 6%nat] ++ [].
Proof.
  apply (stack_dup_copies dup_example (Off []) (Off [Some 5%nat; Some 6%nat])).
  - exists (Off []), (Off [(1%positive, Some 5%nat); (2%positive, Some 6%nat)]).
    split; [apply stack_new_rep|]. split.
    { split; try done. repeat constructor; set_solver. }
    split; [done|]. split; [done|]. simpl. set_solver.
  - repeat constructor; eauto.
Defined.

(** ** The interface other components program against

    A cursor stack of data pointers: [cs_does op z r z'] says that [op], run
    where the stack holds [z], returns [r] and leaves [z'].  The heap model
    above and the abstract stack itself are the two instances. *)
Class CursorStack (M V : Type) := {
  cs_rep : M -> zstack (option V) -> Prop;
  cs_new : M;
  cs_count : ST M Z;
  cs_push : option V -> ST M unit;
  cs_current : ST M (option V);
  cs_to_top : ST M Z;
  cs_to_bottom : ST M Z;
  cs_down : ST M Z;
  cs_up : ST M Z;
  cs_insert_below : option V -> ST M Z;
  cs_insert_above : option V -> ST M Z;
  cs_delete : bool -> bool -> ST M (Z * list V) }.

Definition cs_does {M V} `{CursorStack M V} {A} (op : ST M A)
    (z : zstack (option V)) (r : A) (z' : zstack (option V)) : Prop :=
  forall m, cs_rep m z -> exists m', op m = Ok (r, m') /\ cs_rep m' z'.

Class CursorStackLaws (M V : Type) `{CursorStack M V} := {
  cs_new_ok : cs_rep cs_new (Off (A := option V) []);
  cs_count_ok z : cs_does cs_count z (Z.of_nat (length (z_list z))) z;
  cs_push_ok v z : cs_does (cs_push v) z tt (z_push v z);
  cs_current_ok z : cs_does cs_current z (mjoin (z_focus z)) z;
  cs_to_top_ok z : cs_does cs_to_top z 1 (z_top z);
  cs_to_bottom_ok z : cs_does cs_to_bottom z 1 (z_bottom z);
  cs_down_ok z : cs_does cs_down z (if z_focus z then 1 else 0) (z_down z);
  cs_up_ok z : cs_does cs_up z (if z_focus z then 1 else 0) (z_up z);
  cs_insert_below_ok v z :
    cs_does (cs_insert_below v) z (if z_insert_below v z then 1 else 0)
      (default z (z_insert_below v z));
  cs_insert_above_ok v z :
    cs_does (cs_insert_above v) z (if z_insert_above v z then 1 else 0)
      (default z (z_insert_above v z));
  cs_delete_ok mv d z :
    cs_does (cs_delete mv d) z (if z_focus z then 1 else 0, z_freed d z) (z_delete mv z) }.

#[export] Instance mem_cursor_stack V : CursorStack (stack_mem V) V := {
  cs_rep m z := exists zn, stack_rep (mem_heap m) (mem_stk m) zn /\ z_map snd zn = z;
  cs_new := Mem ∅ tbx_stack_new;
  cs_count := tbx_stack_count;
  cs_push := tbx_stack_push;
  cs_current := tbx_stack_get_current_data;
  cs_to_top := tbx_stack_move_to_top;
  cs_to_bottom := tbx_stack_move_to_bottom;
  cs_down := tbx_stack_move_down;
  cs_up := tbx_stack_move_up;
  cs_insert_below := tbx_stack_insert_below;
  cs_insert_above := tbx_stack_insert_above;
  cs_delete := tbx_stack_delete_current }.

Lemma implements_does {V A} (op : ST (stack_mem V) A) z r z' :
  implements op z r z' -> cs_does op z r z'.
Proof.
  intros H [h s] (zn & Hr & Hz). destruct (H h s zn Hr Hz) as (h' & s' & zn' & E & Hr' & Hz' & _).
  exists (Mem h' s'). split; [done|]. exists zn'. done.
Qed.

#[export] Instance mem_cursor_stack_laws V : CursorStackLaws (stack_mem V) V.
Proof.
  split; intros; try apply implements_does.
  - exists (Off []). split; [apply stack_new_rep|done].
  - apply count_ok.
  - apply push_ok.
  - apply get_current_data_ok.
  - apply move_to_top_ok.
  - apply move_to_bottom_ok.
  - apply move_down_ok.
  - apply move_up_ok.
  - apply insert_below_ok.
  - apply insert_above_ok.
  - apply delete_current_ok.
Qed.

#[export] Instance list_cursor_stack V : CursorStack (zstack (option V)) V := {
  cs_rep z z' := z = z';
  cs_new := Off [];
  cs_count z := Ok (Z.of_nat (length (z_list z)), z);
  cs_push v z := Ok (tt, z_push v z);
  cs_current z := Ok (mjoin (z_focus z), z);
  cs_to_top z := Ok (1, z_top z);
  cs_to_bottom z := Ok (1, z_bottom z);
  cs_down z := Ok (if z_focus z then 1 else 0, z_down z);
  cs_up z := Ok (if z_focus z then 1 else 0, z_up z);
  cs_insert_below v z :=
    Ok (if z_insert_below v z then 1 else 0, default z (z_insert_below v z));
  cs_insert_above v z :=
    Ok (if z_insert_above v z then 1 else 0, default z (z_insert_above v z));
  cs_delete mv d z := Ok ((if z_focus z then 1 else 0, z_freed d z), z_delete mv z) }.

#[export] Instance list_cursor_stack_laws V : CursorStackLaws (zstack (option V)) V.
Proof. split; intros; [done|..]; intros ? ->; eexists; done. Qed.

Section does.
Context {M V : Type} `{CursorStack M V}.

Lemma does_ret {A} (a : A) z : cs_does (mret a) z a z.
Proof. intros m Hm. by exists m. Qed.

Lemma does_bind {A B} (op : ST M A) (k : A -> ST M B) z a z1 b z2 :
  cs_does op z a z1 -> cs_does (k a) z1 b z2 -> cs_does (op ≫= k) z b z2.
Proof.
  intros H1 H2 m Hm. destruct (H1 m Hm) as (m1 & E1 & Hm1).
  destruct (H2 m1 Hm1) as (m2 & E2 & Hm2). exists m2. split; [|done].
  unfold mbind, st_bind. by rewrite E1.
Qed.
End does.

#[export] Hint Resolve cs_count_ok cs_push_ok cs_current_ok cs_to_top_ok cs_to_bottom_ok
  cs_down_ok cs_up_ok cs_insert_below_ok cs_insert_above_ok cs_delete_ok : lstore.
