(* ===== verification/RangeStack.v ===== *)
(** * Ordered lists of disjoint ranges ([src/src/toolbox/range_stack.c])

    A stack of pointers to [int64_t\[2\]] ranges, kept in ascending order with
    a gap of at least one value between neighbours.  The ranges are mutated
    through the pointers on the stack, so the model keeps them in a memory of
    their own and the stack holds their addresses.  The code is written
    against the [CursorStack] interface. *)
From S2P Require Import Prelude Stack.
Local Open Scope Z_scope.

Section code.
Context {M : Type} `{CursorStack M loc}.

Record range_mem := RMem {
  rm_stk : M;
  rm_rng : gmap loc (Z * Z) }.

Abbreviation rangeM := (ST range_mem).

Definition on_stk {A} (op : ST M A) : rangeM A := fun s =>
  '(a, m) ← op (rm_stk s); Ok (a, RMem m (rm_rng s)).

(** [rng\[0\]], [rng\[1\]] *)
Definition load_rng (p : option loc) : rangeM (Z * Z) := fun s =>
  match p with
  | None => Fault NullDeref
  | Some l => match rm_rng s !! l with
              | None => Fault BadPointer
              | Some r => Ok (r, s)
              end
  end.

Definition store_rng (p : option loc) (r : Z * Z) : rangeM unit := fun s =>
  match p with
  | None => Fault NullDeref
  | Some l => match rm_rng s !! l with
              | None => Fault BadPointer
              | Some _ => Ok (tt, RMem (rm_stk s) (<[l := r]> (rm_rng s)))
              end
  end.

Definition free_rng (l : loc) : rangeM unit := fun s =>
  match rm_rng s !! l with
  | None => Fault BadPointer
  | Some _ => Ok (tt, RMem (rm_stk s) (delete l (rm_rng s)))
  end.

Fixpoint free_rngs (ls : list loc) : rangeM unit :=
  match ls with [] => mret tt | l :: ls => free_rng l;; free_rngs ls end.

(** Signed 64 bit arithmetic; overflow is undefined behaviour. *)
Definition chk64 (x : Z) : rangeM Z :=
  if int64_ok x then mret x else st_fail Overflow.

(** The loop of [_range_collapse].  [hi1] is [trng\[1\]+1] as it was when the
    routine started; [more] is the loop flag. *)
Fixpoint range_collapse_loop (fuel : nat) (trng : option loc) (hi1 : Z) (more : bool) : rangeM unit :=
  match fuel with
  | O => st_fail OutOfFuel
  | S fuel =>
      rng ← on_stk cs_current;
      match rng with
      | None => mret tt
      | Some _ =>
          if more then
            r ← load_rng rng;
            if r.1 <=? hi1 then
              t ← load_rng trng;
              (if t.2 <? r.2 then store_rng trng (t.1, r.2) else mret tt);;
              d ← on_stk (cs_delete false true);
              free_rngs d.2;;
              range_collapse_loop fuel trng hi1 (negb (t.2 <? r.2))
            else range_collapse_loop fuel trng hi1 false
          else mret tt
      end
  end.

Definition range_collapse : rangeM unit :=
  trng ← on_stk cs_current;
  t ← load_rng trng;
  hi1 ← chk64 (t.2 + 1);
  on_stk cs_down;;
  n ← on_stk cs_count;
  range_collapse_loop (S (S (Z.to_nat n))) trng hi1 true.

(** The search for the insertion point; returns [prng] and [rng]. *)
Fixpoint range_find_loop (fuel : nat) (lo : Z) (prng : option loc) : rangeM (option loc * option loc) :=
  match fuel with
  | O => st_fail OutOfFuel
  | S fuel =>
      rng ← on_stk cs_current;
      match rng with
      | None => mret (prng, None)
      | Some _ =>
          r ← load_rng rng;
          if lo <=? r.1 then mret (prng, rng)
          else on_stk cs_down;; range_find_loop fuel lo rng
      end
  end.

(** The new range touches the previous one, whose value is [p]: extend it,
    and collapse what it reaches now. *)
Definition range_extend_prev (new_rng : loc) (hi : Z) (prng rng : option loc) (p : Z * Z) : rangeM unit :=
  (if p.2 <? hi then
     match prng with None => mret tt | Some _ => store_rng prng (p.1, hi) end;;
     match rng with
     | None => mret tt
     | Some _ => on_stk cs_up;; range_collapse
     end
   else mret tt);;
  free_rng new_rng.

(** The new range does not touch the previous one: it overlaps the current
    range, is inserted before it, or goes to the end. *)
Definition range_merge_here (new_rng : loc) (lo hi : Z) (rng : option loc) : rangeM unit :=
  match rng with
  | Some _ =>
      r ← load_rng rng;
      h1 ← chk64 (hi + 1);
      if r.1 <=? h1 then
        free_rng new_rng;;
        store_rng rng (lo, r.2);;
        if r.2 <? hi then store_rng rng (lo, hi);; range_collapse else mret tt
      else on_stk (cs_insert_above (Some new_rng));; mret tt
  | None =>
      on_stk cs_to_bottom;;
      on_stk (cs_insert_below (Some new_rng));;
      mret tt
  end.

(** [prng\[0\]], [prng\[1\]]: with no previous range the code points [prng] at
    a local array whose upper end is [lo - 10]. *)
Definition range_prev (lo : Z) (prng : option loc) : rangeM (Z * Z) :=
  match prng with
  | None => x ← chk64 (lo - 10); mret (12345, x)
  | Some _ => load_rng prng
  end.

(** [tbx_range_stack_merge] on an existing stack. *)
Definition tbx_range_stack_merge (new_rng : loc) : rangeM unit :=
  n ← on_stk cs_count;
  if n =? 0 then on_stk (cs_push (Some new_rng))
  else
    new ← load_rng (Some new_rng);
    let lo := new.1 in
    let hi := new.2 in
    on_stk cs_to_top;;
    f ← range_find_loop (S (Z.to_nat n)) lo None;
    let prng := f.1 in
    let rng := f.2 in
    p ← range_prev lo prng;
    p1 ← chk64 (p.2 + 1);
    if lo <=? p1 then range_extend_prev new_rng hi prng rng p
    else range_merge_here new_rng lo hi rng.

(** [*range_stack_ptr] may be [NULL]: a stack is made on first use. *)
Definition range_merge_ptr (stk : option M) (rng : gmap loc (Z * Z)) (new_rng : loc)
    : res (M * gmap loc (Z * Z)) :=
  '(_, s) ← tbx_range_stack_merge new_rng (RMem (default cs_new stk) rng);
  Ok (rm_stk s, rm_rng s).

Definition tbx_range_stack_merge2 (stk : option M) (rng : gmap loc (Z * Z)) (lo hi : Z)
    : res (M * gmap loc (Z * Z)) :=
  let l := fresh (dom rng) in
  range_merge_ptr stk (<[l := (lo, hi)]> rng) l.

(** A sequence of merges, as the callers perform it. *)
Fixpoint merge_all (stk : option M) (rng : gmap loc (Z * Z)) (rs : list (Z * Z))
    : res (option M * gmap loc (Z * Z)) :=
  match rs with
  | [] => Ok (stk, rng)
  | (lo, hi) :: rs =>
      '(m, g) ← tbx_range_stack_merge2 stk rng lo hi; merge_all (Some m) g rs
  end.

End code.
Arguments range_mem : clear implicits.
#[global] Arguments load_rng : simpl never.
#[global] Arguments store_rng : simpl never.
#[global] Arguments free_rng : simpl never.
#[global] Arguments chk64 : simpl never.

(** ** Range lists *)

(** [ranges_from b l]: ascending non-empty ranges, the first one starting
    more than one past [b]. *)
Fixpoint ranges_from (b : option Z) (l : list (Z * Z)) : Prop :=
  match l with
  | [] => True
  | (lo, hi) :: l =>
      (forall x, b = Some x -> x + 1 < lo) /\ lo <= hi /\ ranges_from (Some hi) l
  end.

Definition ranges_ok (l : list (Z * Z)) : Prop := ranges_from None l.

Definition in_ranges (x : Z) (l : list (Z * Z)) : Prop :=
  exists r, r ∈ l /\ r.1 <= x <= r.2.

(** What [_range_collapse] computes on the ranges below the current one. *)
Fixpoint collapse_list (lo hi : Z) (l : list (Z * Z)) : list (Z * Z) :=
  match l with
  | [] => [(lo, hi)]
  | (a, b) :: l' =>
      if a <=? hi + 1
      then if hi <? b then (lo, b) :: l' else collapse_list lo hi l'
      else (lo, hi) :: l
  end.

(** The ranges before and after the insertion point. *)
Fixpoint find_list (lo : Z) (l : list (Z * Z)) : list (Z * Z) * list (Z * Z) :=
  match l with
  | [] => ([], [])
  | r :: l' => if lo <=? r.1 then ([], l)
               else (r :: (find_list lo l').1, (find_list lo l').2)
  end.

(** The merge as a function on range lists. *)
Definition merge_list (l : list (Z * Z)) (lo hi : Z) : list (Z * Z) :=
  let '(l1, l2) := find_list lo l in
  let new := match l2 with
             | (c, d) :: l2' =>
                 if c <=? hi + 1
                 then if d <? hi then collapse_list lo hi l2' else (lo, d) :: l2'
                 else (lo, hi) :: l2
             | [] => [(lo, hi)]
             end in
  match last l1 with
  | Some (a, b) =>
      if lo <=? b + 1
      then if b <? hi then removelast l1 ++ collapse_list a hi l2 else l1 ++ l2
      else l1 ++ new
  | None => new
  end.

(** ** The set a range list denotes *)

(** Equivalences between combinations of interval memberships and opaque
    propositions. *)
Ltac interval_tauto :=
  repeat match goal with
  | |- context [?a <= ?x <= ?b] =>
      lazymatch goal with
      | _ : a <= x <= b |- _ => fail
      | _ : ~ (a <= x <= b) |- _ => fail
      | _ => destruct (decide (a <= x <= b))
      end
  end; first [tauto | exfalso; lia].

Section range_lists.
Implicit Types (l : list (Z * Z)) (lo hi x : Z).

Lemma in_ranges_nil x : in_ranges x [] <-> False.
Proof. unfold in_ranges. set_solver. Qed.

Lemma in_ranges_cons x a b l : in_ranges x ((a, b) :: l) <-> a <= x <= b \/ in_ranges x l.
Proof.
  unfold in_ranges. setoid_rewrite elem_of_cons. split.
  - intros (r & [->|Hr] & ?); [by left|right; eauto].
  - intros [?|(r & ? & ?)]; [exists (a, b); eauto|eauto].
Qed.

Lemma in_ranges_app x l1 l2 : in_ranges x (l1 ++ l2) <-> in_ranges x l1 \/ in_ranges x l2.
Proof. unfold in_ranges. setoid_rewrite elem_of_app. naive_solver. Qed.

Definition hi_or (b : option Z) l : option Z := last_or b (l.*2).

Lemma ranges_from_app b l1 l2 :
  ranges_from b (l1 ++ l2) <-> ranges_from b l1 /\ ranges_from (hi_or b l1) l2.
Proof.
  revert b. induction l1 as [|[lo hi] l1 IH]; intros b; simpl; [tauto|].
  rewrite IH. unfold hi_or. simpl. rewrite last_or_cons. tauto.
Qed.

Lemma ranges_from_weaken b b' l :
  (forall x, b' = Some x -> exists y, b = Some y /\ x <= y) ->
  ranges_from b l -> ranges_from b' l.
Proof.
  destruct l as [|[lo hi] l]; simpl; [done|]. intros Hb (H1 & ? & ?). split; [|done].
  intros x Hx. destruct (Hb x Hx) as (y & -> & ?). specialize (H1 y eq_refl). lia.
Qed.

Lemma ranges_from_above b l x : ranges_from (Some b) l -> in_ranges x l -> b + 1 < x.
Proof.
  revert b. induction l as [|[lo hi] l IH]; intros b; simpl; [by rewrite in_ranges_nil|].
  intros (H1 & ? & H2). specialize (H1 b eq_refl). rewrite in_ranges_cons.
  intros [?|Hx]; [lia|]. specialize (IH _ H2 Hx). lia.
Qed.

(** A set of integers has one representation as an ordered range list. *)
Lemma ranges_unique b l l' :
  ranges_from b l -> ranges_from b l' ->
  (forall x, in_ranges x l <-> in_ranges x l') -> l = l'.
Proof.
  revert b l'. induction l as [|[lo hi] l IH]; intros b [|[lo' hi'] l']; simpl; [done|..].
  - intros _ (_ & ? & _) Hx. destruct (proj2 (Hx lo')) as (? & ? & _); [|set_solver].
    apply in_ranges_cons. interval_tauto.
  - intros (_ & ? & _) _ Hx. destruct (proj1 (Hx lo)) as (? & ? & _); [|set_solver].
    apply in_ranges_cons. interval_tauto.
  - intros (_ & H1 & H2) (_ & H1' & H2') Hx.
    assert (Hx' : forall x, (lo <= x <= hi \/ in_ranges x l) <->
                            (lo' <= x <= hi' \/ in_ranges x l')).
    { intros x. by rewrite <- !in_ranges_cons. }
    assert (Hab : forall x, in_ranges x l -> hi + 1 < x) by eauto using ranges_from_above.
    assert (Hab' : forall x, in_ranges x l' -> hi' + 1 < x) by eauto using ranges_from_above.
    assert (lo = lo').
    { destruct (proj1 (Hx' lo)) as [?|?%Hab']; [lia|..];
        destruct (proj2 (Hx' lo')) as [?|?%Hab]; lia. }
    assert (hi = hi').
    { destruct (Z.lt_trichotomy hi hi') as [?|[?|?]]; [|done|].
      - destruct (proj2 (Hx' (hi + 1))) as [?|?%Hab]; lia.
      - destruct (proj1 (Hx' (hi' + 1))) as [?|?%Hab']; lia. }
    subst. f_equal. apply (IH (Some hi')); [done..|]. intros x. split; intros Hi.
    + destruct (proj1 (Hx' x)) as [?|?]; [by right| |done]. apply Hab in Hi. lia.
    + destruct (proj2 (Hx' x)) as [?|?]; [by right| |done]. apply Hab' in Hi. lia.
Qed.

(** Collapsing keeps the order and loses no value. *)
Lemma collapse_ok b lo hi l m :
  (forall x, b = Some x -> x + 1 < lo) -> lo <= m <= hi -> ranges_from (Some m) l ->
  ranges_from b (collapse_list lo hi l) /\
  forall x, in_ranges x (collapse_list lo hi l) <-> lo <= x <= hi \/ in_ranges x l.
Proof.
  revert m. induction l as [|[c d] l IH]; intros m Hb Hm; simpl.
  - intros _. split; [repeat split; [done|lia]|]. intros x. by rewrite in_ranges_cons.
  - intros (Hc & Hd & Hl). specialize (Hc m eq_refl).
    destruct (Z.leb_spec c (hi + 1)).
    + destruct (Z.ltb_spec hi d).
      * split; [simpl; repeat split; [done|lia|done]|]. intros x. rewrite !in_ranges_cons. interval_tauto.
      * destruct (IH m) as [H1 H2]; [done|lia|by apply (ranges_from_weaken (Some d)); [intros ? [= <-]; exists d; split; [done|lia]|]|].
        split; [done|]. intros x. rewrite H2, in_ranges_cons. interval_tauto.
    + split; [simpl; repeat split; [done|lia|by intros ? [= <-]|done..]|].
      intros x. by rewrite in_ranges_cons.
Qed.

Lemma find_list_app lo l : (find_list lo l).1 ++ (find_list lo l).2 = l.
Proof. induction l as [|r l IH]; simpl; [done|]. case_match; simpl; by rewrite ?IH. Qed.

Lemma find_list_before lo l r : r ∈ (find_list lo l).1 -> r.1 < lo.
Proof.
  induction l as [|r' l IH]; simpl; [set_solver|]. destruct (Z.leb_spec lo r'.1); simpl; [set_solver|].
  intros [->|?]%elem_of_cons; auto.
Qed.

Lemma find_list_after lo l : head_or None (fst <$> (find_list lo l).2) = None \/
  exists c, head_or None (fst <$> (find_list lo l).2) = Some c /\ lo <= c.
Proof.
  induction l as [|r l IH]; simpl; [by left|]. destruct (Z.leb_spec lo r.1); simpl; [|done].
  right. eauto.
Qed.

(** The part of the merge that starts at the insertion point. *)
Definition merge_after (lo hi : Z) (l2 : list (Z * Z)) : list (Z * Z) :=
  match l2 with
  | (c, d) :: l2' =>
      if c <=? hi + 1
      then if d <? hi then collapse_list lo hi l2' else (lo, d) :: l2'
      else (lo, hi) :: l2
  | [] => [(lo, hi)]
  end.

Lemma merge_after_ok b b' lo hi l :
  (forall x, b = Some x -> x + 1 < lo) -> lo <= hi ->
  head_or None l.*1 = None \/ (exists c, head_or None l.*1 = Some c /\ lo <= c) ->
  ranges_from b' l ->
  ranges_from b (merge_after lo hi l) /\
  forall x, in_ranges x (merge_after lo hi l) <-> lo <= x <= hi \/ in_ranges x l.
Proof.
  intros Hb Hlh Hh Hl. destruct l as [|[c d] l]; simpl in *.
  - split; [done|]. intros x. by rewrite in_ranges_cons.
  - destruct Hh as [?|(? & [= <-] & Hc)]; [done|]. destruct Hl as (_ & Hd & Hl).
    destruct (Z.leb_spec c (hi + 1)); [destruct (Z.ltb_spec d hi)|].
    + destruct (collapse_ok b lo hi l d) as [Hr1 Hr2]; [done|lia|done|].
      split; [done|]. intros x. rewrite Hr2, in_ranges_cons. interval_tauto.
    + split; [simpl; repeat split; [done|lia|done]|]. intros x. rewrite !in_ranges_cons. interval_tauto.
    + split; [simpl; repeat split; [done|lia|by intros ? [= <-]|done..]|].
      intros x. by rewrite in_ranges_cons.
Qed.

(** Merging adds exactly the values of the new range and restores the order. *)
Lemma merge_list_ok l lo hi :
  ranges_ok l -> lo <= hi ->
  ranges_ok (merge_list l lo hi) /\
  forall x, in_ranges x (merge_list l lo hi) <-> lo <= x <= hi \/ in_ranges x l.
Proof.
  intros Hl Hlh. unfold merge_list.
  pose proof (find_list_app lo l) as Hlo. pose proof (find_list_before lo l) as Hbef.
  pose proof (find_list_after lo l) as Haft.
  destruct (find_list lo l) as [l1 l2]. simpl in *. subst l. fold (merge_after lo hi l2).
  unfold ranges_ok in *. apply ranges_from_app in Hl as [Hl1 Hl2].
  destruct (last l1) as [[a b]|] eqn:El.
  - pose proof (removelast_last_eq _ _ El) as E. rewrite E in Hl1, Hl2 |- *.
    set (l1' := removelast l1) in *. clearbody l1'. subst l1. rewrite removelast_last in *.
    assert (a < lo) by (apply (Hbef (a, b)); set_solver).
    apply ranges_from_app in Hl1 as [Hl1 (Hg & Hab & _)].
    unfold hi_or in Hl2. rewrite fmap_app in Hl2. simpl in Hl2. rewrite last_or_snoc in Hl2.
    destruct (Z.leb_spec lo (b + 1)); [destruct (Z.ltb_spec b hi)|].
    + destruct (collapse_ok (hi_or None l1') a hi l2 b) as [Hr1 Hr2]; [done|lia|done|].
      rewrite ranges_from_app. split; [done|]. intros x.
      rewrite !in_ranges_app, Hr2, in_ranges_cons, in_ranges_nil. interval_tauto.
    + rewrite <- app_assoc. simpl. rewrite ranges_from_app. split; [by repeat split|].
      intros x. rewrite !in_ranges_app, in_ranges_cons. interval_tauto.
    + destruct (merge_after_ok (Some b) (Some b) lo hi l2) as [Hr1 Hr2];
        [intros ? [= <-]; lia|done..|].
      rewrite <- app_assoc. simpl. rewrite ranges_from_app. split; [by repeat split|].
      intros x. rewrite <- app_assoc. simpl. rewrite !in_ranges_app, !in_ranges_cons, Hr2. interval_tauto.
  - apply last_None in El as ->. simpl. by apply (merge_after_ok _ None).
Qed.
End range_lists.

(** ** The code computes [merge_list] *)

Section refine.
Context {M : Type} `{CursorStackLaws M loc}.
Abbreviation rkey := (loc * (Z * Z))%type.
Abbreviation ptrs k := (Some <$> (k : list rkey).*1).
Abbreviation rmap k := (list_to_map (k : list rkey) : gmap loc (Z * Z)).

(** From cursor list [z] and range memory [g] the operation returns [r] and
    leaves [z'] and [g']. *)
Definition rdoes {A} (op : ST (range_mem M) A) (z : zstack (option loc)) (g : gmap loc (Z * Z))
    (r : A) (z' : zstack (option loc)) (g' : gmap loc (Z * Z)) : Prop :=
  forall m, cs_rep m z -> exists m', op (RMem m g) = Ok (r, RMem m' g') /\ cs_rep m' z'.

Lemma rd_ret {A} (a : A) z g : rdoes (mret a) z g a z g.
Proof. intros m Hm. by exists m. Qed.

Lemma rd_bind {A B} (op : ST (range_mem M) A) (k : A -> ST (range_mem M) B) z g a z1 g1 b z2 g2 :
  rdoes op z g a z1 g1 -> rdoes (k a) z1 g1 b z2 g2 -> rdoes (op ≫= k) z g b z2 g2.
Proof.
  intros H1 H2 m Hm. destruct (H1 m Hm) as (m1 & E1 & Hm1).
  destruct (H2 m1 Hm1) as (m2 & E2 & Hm2). exists m2. split; [|done].
  unfold mbind, st_bind. by rewrite E1.
Qed.

Lemma rd_stk {A} (op : ST M A) z r z' g : cs_does op z r z' -> rdoes (on_stk op) z g r z' g.
Proof.
  intros H1 m Hm. destruct (H1 m Hm) as (m1 & E1 & Hm1). exists m1. split; [|done].
  unfold on_stk. simpl. by rewrite E1.
Qed.

Lemma rd_load z g p r : g !! p = Some r -> rdoes (load_rng (Some p)) z g r z g.
Proof. intros E m Hm. exists m. split; [|done]. unfold load_rng. simpl. by rewrite E. Qed.

Lemma rd_store z g p r r' :
  g !! p = Some r' -> rdoes (store_rng (Some p) r) z g tt z (<[p := r]> g).
Proof. intros E m Hm. exists m. split; [|done]. unfold store_rng. simpl. by rewrite E. Qed.

Lemma rd_free z g p r : g !! p = Some r -> rdoes (free_rng p) z g tt z (delete p g).
Proof. intros E m Hm. exists m. split; [|done]. unfold free_rng. simpl. by rewrite E. Qed.

Lemma rd_chk64 z g x : int64_ok x = true -> rdoes (chk64 x) z g x z g.
Proof. intros E m Hm. exists m. split; [|done]. unfold chk64. by rewrite E. Qed.

Hint Resolve rd_ret rd_stk rd_load rd_store rd_free rd_chk64 : lstore.

Ltac rstep := eapply rd_bind; [solve [eauto with lstore]|simpl].

Lemma collapse_loop_stop fuel t hi1 z g :
  rdoes (range_collapse_loop (S fuel) t hi1 false) z g tt z g.
Proof. simpl. rstep. case_match; eauto with lstore. Qed.

(** Deleting the current element and freeing the range it points to. *)
Lemma delete_free_ok ps1 p r ps2 k1 k2 {B} (k : ST (range_mem M) B) b z' g' :
  p ∉ k1.*1 -> p ∉ k2.*1 ->
  rdoes k (z_after ps1 ps2) (rmap (k1 ++ k2)) b z' g' ->
  rdoes (d ← on_stk (cs_delete false true); free_rngs d.2;; k)
    (At ps1 (Some p) ps2) (rmap (k1 ++ (p, r) :: k2)) b z' g'.
Proof.
  intros H1 H2 Hk. rstep.
  eapply (rd_bind _ _ _ _ tt _ (rmap (k1 ++ k2))); [|exact Hk].
  eapply rd_bind; [|apply rd_ret]. rewrite <- (bindings_delete k1 p r k2) by done.
  eapply rd_free. by apply bindings_lookup.
Qed.

Lemma collapse_loop_ok fuel t lo hi ps k1 k2 :
  (length k2 < fuel)%nat -> NoDup (k1 ++ (t, (lo, hi)) :: k2).*1 ->
  exists r k3, r :: k3.*2 = collapse_list lo hi k2.*2 /\ k3 `suffix_of` k2 /\
  rdoes (range_collapse_loop (S fuel) (Some t) (hi + 1) true)
    (z_after (ps ++ [Some t]) (ptrs k2)) (rmap (k1 ++ (t, (lo, hi)) :: k2))
    tt (z_after (ps ++ [Some t]) (ptrs k3)) (rmap (k1 ++ (t, r) :: k3)).
Proof.
  revert k2. induction fuel as [|fuel IH]; intros k2 Hf Hn; [lia|].
  destruct k2 as [|[p [a b]] k2].
  - exists (lo, hi), []. split; [done|]. split; [done|]. change (S (S fuel)) with (1 + S fuel)%nat.
    simpl. rstep. apply rd_ret.
  - pose proof Hn as (Ht & _ & Hn')%bindings_nodup.
    assert (Hn2 : NoDup ((k1 ++ [(t, (lo, hi))]) ++ (p, (a, b)) :: k2).*1) by by rewrite <- app_assoc.
    apply bindings_nodup in Hn2 as (Hp1 & Hp2 & Hn2). rewrite <- app_assoc in Hn2. simpl in Hn2.
    assert (Hpl : rmap (k1 ++ (t, (lo, hi)) :: (p, (a, b)) :: k2) !! p = Some (a, b)).
    { change (?x :: ?y :: k2) with ([x] ++ y :: k2). rewrite app_assoc. by apply bindings_lookup. }
    assert (Htl : rmap (k1 ++ (t, (lo, hi)) :: (p, (a, b)) :: k2) !! t = Some (lo, hi))
      by by apply bindings_lookup.
    assert (Hd : forall r, k1 ++ (t, r) :: (p, (a, b)) :: k2 = (k1 ++ [(t, r)]) ++ (p, (a, b)) :: k2).
    { intros. by rewrite <- app_assoc. }
    assert (Hp1' : forall r, p ∉ (k1 ++ [(t, r)]).*1) by (intros; rewrite fmap_app in *; set_solver).
    remember (S fuel) as f eqn:Ef. simpl. simpl in Hf.
    destruct (Z.leb_spec a (hi + 1)) as [Ha|Ha]; [destruct (Z.ltb_spec hi b) as [Hb|Hb]|].
    + exists (lo, b), k2. split; [done|]. split; [by apply suffix_cons_r|].
      rstep. rstep. rewrite (proj2 (Z.leb_le _ _) Ha). rstep.
      rewrite (proj2 (Z.ltb_lt _ _) Hb). rstep. rewrite bindings_insert, Hd by done.
      apply delete_free_ok; [done..|]. rewrite <- app_assoc, Ef. apply collapse_loop_stop.
    + destruct (IH k2) as (r & k3 & E & Hs & HR); [lia|done|].
      exists r, k3. split; [done|]. split; [by apply suffix_cons_r|].
      rstep. rstep. rewrite (proj2 (Z.leb_le _ _) Ha). rstep.
      rewrite (proj2 (Z.ltb_ge _ _) Hb). rstep. rewrite Hd.
      apply delete_free_ok; [done..|]. rewrite <- app_assoc. apply HR.
    + exists (lo, hi), ((p, (a, b)) :: k2). split; [done|]. split; [done|].
      rstep. rstep. rewrite (proj2 (Z.leb_gt _ _) Ha), Ef. apply collapse_loop_stop.
Qed.

Lemma range_collapse_ok t lo hi ps k1 k2 :
  int64_ok (hi + 1) = true -> NoDup (k1 ++ (t, (lo, hi)) :: k2).*1 ->
  exists r k3, r :: k3.*2 = collapse_list lo hi k2.*2 /\ k3 `suffix_of` k2 /\
  rdoes range_collapse
    (At ps (Some t) (ptrs k2)) (rmap (k1 ++ (t, (lo, hi)) :: k2))
    tt (z_after (ps ++ [Some t]) (ptrs k3)) (rmap (k1 ++ (t, r) :: k3)).
Proof.
  intros Hh Hn.
  set (n := Z.of_nat (length (z_list (z_after (ps ++ [Some t]) (ptrs k2))))).
  destruct (collapse_loop_ok (S (Z.to_nat n)) t lo hi ps k1 k2) as (r & k3 & E & Hs & HR); [|done|].
  { unfold n. rewrite z_after_list, !length_app, !length_fmap. lia. }
  exists r, k3. split; [done|]. split; [done|]. unfold range_collapse. rstep.
  apply bindings_nodup in Hn as (Ht & _ & _).
  eapply rd_bind; [apply rd_load; by apply bindings_lookup|]. cbv beta.
  rstep. rstep. rstep. apply HR.
Qed.

Lemma find_loop_ok fuel lo prng ps k g :
  (length k < fuel)%nat -> (forall p r, (p, r) ∈ k -> g !! p = Some r) ->
  exists ka kb, k = ka ++ kb /\ find_list lo k.*2 = (ka.*2, kb.*2) /\
  rdoes (range_find_loop fuel lo prng) (z_after ps (ptrs k)) g
    (last_or prng ka.*1, head_or None kb.*1) (z_after (ps ++ ptrs ka) (ptrs kb)) g.
Proof.
  revert prng ps k. induction fuel as [|fuel IH]; intros prng ps k Hf Hg; [lia|].
  destruct k as [|[p r] k]; csimpl in *.
  - exists [], []. split; [done|]. split; [done|]. rewrite app_nil_r. rstep. apply rd_ret.
  - assert (Hp : g !! p = Some r) by (apply Hg; set_solver).
    destruct (lo <=? r.1) eqn:El.
    + exists [], ((p, r) :: k). split; [done|]. split; [done|]. rewrite app_nil_r.
      rstep. rstep. rewrite El. apply rd_ret.
    + destruct (IH (Some p) (ps ++ [Some p]) k) as (ka & kb & -> & E & HR); [lia|set_solver|].
      exists ((p, r) :: ka), kb. split; [done|]. rewrite E. split; [done|].
      csimpl. rewrite last_or_cons. rstep. rstep. rewrite El. rstep.
      rewrite <- app_assoc in HR. exact HR.
Qed.

(** The stack holds the addresses of exactly the allocated ranges, in the
    order of [l]: nothing is lost, shared or dangling. *)
Definition range_rep (m : M) (g : gmap loc (Z * Z)) (l : list (Z * Z)) : Prop :=
  exists z k, cs_rep m z /\ z_list z = ptrs k /\ g = rmap k /\ NoDup k.*1 /\ k.*2 = l.

(** No endpoint is so close to the limits of [int64_t] that the code's
    arithmetic on it overflows. *)
Definition range_bounds (r : Z * Z) : Prop :=
  - 2 ^ 63 + 10 <= r.1 /\ r.2 < 2 ^ 63 - 1 /\ r.1 <= r.2.

Lemma rd_rep {A} (op : ST (range_mem M) A) z g (a : A) z' g' m l k :
  rdoes op z g a z' g' -> cs_rep m z -> z_list z' = ptrs k -> g' = rmap k -> NoDup k.*1 ->
  k.*2 = l -> exists s, op (RMem m g) = Ok (a, s) /\ range_rep (rm_stk s) (rm_rng s) l.
Proof.
  intros Hd Hm Hz Hg Hn Hl. destruct (Hd m Hm) as (m' & E & Hm'). eexists. split; [done|].
  by exists z', k.
Qed.


Lemma rd_free_front p r z (k : list rkey) :
  p ∉ k.*1 -> rdoes (free_rng p) z (<[p := r]> (rmap k)) tt z (rmap k).
Proof.
  intros Hp. assert (E : delete p (<[p := r]> (rmap k)) = rmap k) by (apply (bindings_delete []); set_solver).
  rewrite <- E at 2. by eapply rd_free, lookup_insert_eq.
Qed.

Hint Resolve rd_free_front : lstore.

Lemma suffix_nodup (k1 k2 k3 : list rkey) x :
  k3 `suffix_of` k2 -> NoDup (k1 ++ x :: k2).*1 -> NoDup (k1 ++ x :: k3).*1.
Proof.
  intros [k' ->]. rewrite !fmap_app. csimpl. rewrite !fmap_app.
  intros (? & Hd & [? Hn]%NoDup_cons)%NoDup_app. apply NoDup_app in Hn as (_ & _ & ?).
  apply NoDup_app. split; [done|]. split; [set_solver|]. apply NoDup_cons. set_solver.
Qed.

Lemma rmap_move new r (ka kb : list rkey) :
  NoDup ((new, r) :: ka ++ kb).*1 ->
  rmap ((new, r) :: ka ++ kb) = rmap (ka ++ (new, r) :: kb) /\ NoDup (ka ++ (new, r) :: kb).*1.
Proof.
  intros Hn. assert (Hp : (new, r) :: ka ++ kb ≡ₚ ka ++ (new, r) :: kb) by apply Permutation_middle.
  split; [by apply list_to_map_proper|]. by rewrite <- Hp.
Qed.

Lemma z_bottom_insert {A} (y : A) z :
  exists z', z_insert_below y (z_bottom z) = Some z' /\ z_list z' = z_list z ++ [y].
Proof.
  unfold z_bottom. destruct (z_list z) as [|x l _] using rev_ind; [by eexists|].
  rewrite z_before_snoc. by eexists.
Qed.

Lemma merge_here_ok new lo hi ka kb :
  int64_ok (hi + 1) = true -> NoDup ((new, (lo, hi)) :: ka ++ kb).*1 ->
  exists z' k', z_list z' = ptrs k' /\ NoDup k'.*1 /\ k'.*2 = ka.*2 ++ merge_after lo hi kb.*2 /\
  rdoes (range_merge_here new lo hi (head_or None kb.*1)) (z_after (ptrs ka) (ptrs kb))
    (rmap ((new, (lo, hi)) :: ka ++ kb)) tt z' (rmap k').
Proof.
  intros Hh Hn. destruct (rmap_move _ _ _ _ Hn) as [Em Hn']. destruct kb as [|[p [c d]] kb].
  - destruct (z_bottom_insert (Some new) (Off (ptrs ka))) as (z' & E & El).
    exists z', (ka ++ [(new, (lo, hi))]). rewrite El, !fmap_app.
    split; [done|]. split; [by rewrite <- fmap_app|]. split; [done|]. rewrite Em.
    simpl. rstep. eapply rd_bind; [apply rd_stk, cs_insert_below_ok|]. simpl. rewrite E. apply rd_ret.
  - assert (Hp : rmap ((new, (lo, hi)) :: ka ++ (p, (c, d)) :: kb) !! p = Some (c, d)).
    { apply (bindings_lookup ((new, (lo, hi)) :: ka)).
      rewrite app_comm_cons in Hn. by apply bindings_nodup in Hn as [? _]. }
    apply bindings_nodup_cons in Hn as [Hnew Hn]. pose proof Hn as (Hpa & Hpb & _)%bindings_nodup.
    csimpl. destruct (c <=? hi + 1) eqn:Ec; [destruct (d <? hi) eqn:Ed|].
    + destruct (range_collapse_ok p lo hi (ptrs ka) ka kb) as (r & k3 & E & Hs & HR); [done|..].
      { by rewrite bindings_nodup in Hn |- *. }
      exists (z_after (ptrs ka ++ [Some p]) (ptrs k3)), (ka ++ (p, r) :: k3).
      split; [by rewrite z_after_list, !fmap_app, <- app_assoc|].
      split; [apply (suffix_nodup _ kb); [done|by rewrite bindings_nodup in Hn |- *]|].
      split; [by rewrite fmap_app, <- E|]. rstep. rstep. rewrite Ec. rstep.
      eapply rd_bind; [by eapply rd_store, bindings_lookup|]. cbv beta. rewrite Ed.
      rewrite bindings_insert by done.
      eapply rd_bind; [by eapply rd_store, bindings_lookup|]. cbv beta.
      rewrite bindings_insert by done. exact HR.
    + exists (At (ptrs ka) (Some p) (ptrs kb)), (ka ++ (p, (lo, d)) :: kb).
      simpl. rewrite !fmap_app. split; [done|]. split; [by rewrite fmap_app in Hn|].
      split; [done|]. rstep. rstep. rewrite Ec. rstep.
      eapply rd_bind; [by eapply rd_store, bindings_lookup|]. cbv beta. rewrite Ed.
      rewrite bindings_insert by done. apply rd_ret.
    + exists (At (ptrs ka) (Some new) (ptrs ((p, (c, d)) :: kb))), (ka ++ (new, (lo, hi)) :: (p, (c, d)) :: kb).
      simpl. rewrite !fmap_app. split; [done|]. split; [by rewrite fmap_app in Hn'|].
      split; [done|]. rstep. rstep. rewrite Ec. rstep. rewrite <- Em. apply rd_ret.
Qed.

Lemma extend_prev_ok new lo hi p a b ka kb :
  int64_ok (hi + 1) = true -> NoDup ((new, (lo, hi)) :: (ka ++ [(p, (a, b))]) ++ kb).*1 ->
  exists z' k', z_list z' = ptrs k' /\ NoDup k'.*1 /\
  k'.*2 = (if b <? hi then ka.*2 ++ collapse_list a hi kb.*2 else (ka.*2 ++ [(a, b)]) ++ kb.*2) /\
  rdoes (range_extend_prev new hi (Some p) (head_or None kb.*1) (a, b))
    (z_after (ptrs (ka ++ [(p, (a, b))])) (ptrs kb))
    (rmap ((new, (lo, hi)) :: (ka ++ [(p, (a, b))]) ++ kb)) tt z' (rmap k').
Proof.
  rewrite <- app_assoc. intros Hh Hn. apply bindings_nodup_cons in Hn as [Hnew Hn].
  pose proof Hn as (Hpa & Hpb & _)%bindings_nodup.
  assert (Hn' : forall r, NoDup ((new, (lo, hi)) :: ka ++ (p, r) :: kb).*1).
  { intros r. apply bindings_nodup_cons. rewrite !fmap_app in *. csimpl in *. done. }
  assert (Hpn : p ∉ ((new, (lo, hi)) :: ka).*1) by (rewrite fmap_app in Hnew; set_solver).
  unfold range_extend_prev. cbn [fst snd]. destruct (b <? hi) eqn:Eb.
  - destruct (range_collapse_ok p a hi (ptrs ka) ((new, (lo, hi)) :: ka) kb) as (r & k3 & E & Hs & HR);
      [done|apply (Hn' (a, hi))|].
    assert (Hn3 : NoDup ((new, (lo, hi)) :: ka ++ (p, r) :: k3).*1).
    { rewrite app_comm_cons. apply (suffix_nodup _ kb); [done|]. apply (Hn' r). }
    assert (Hz : exists z, z_list z = ptrs (ka ++ (p, r) :: k3) /\
      rdoes (store_rng (Some p) (a, hi);;
             match head_or None kb.*1 with None => mret tt | Some _ => on_stk cs_up;; range_collapse end)
        (z_after (ptrs (ka ++ [(p, (a, b))])) (ptrs kb)) (rmap (((new, (lo, hi)) :: ka) ++ (p, (a, b)) :: kb))
        tt z (rmap (((new, (lo, hi)) :: ka) ++ (p, r) :: k3))).
    { destruct kb as [|[q rq] kb].
      - destruct Hs as [k' Hs]. symmetry in Hs. apply app_nil in Hs as [_ ->]. assert (r = (a, hi)) as -> by by injection E.
        eexists. split; [|eapply rd_bind; [by eapply rd_store, bindings_lookup|]; cbv beta;
          rewrite bindings_insert by done; apply rd_ret]. by rewrite !fmap_app.
      - eexists. split; [|eapply rd_bind; [by eapply rd_store, bindings_lookup|]; cbv beta;
          rewrite bindings_insert by done; csimpl; rstep; rewrite !fmap_app; csimpl; rewrite z_before_snoc;
          exact HR].
        by rewrite z_after_list, !fmap_app, <- app_assoc. }
    destruct Hz as (z & Hz & HR'). exists z, (ka ++ (p, r) :: k3). split; [done|].
    apply bindings_nodup_cons in Hn3 as [Hnew3 Hn3].
    split; [done|]. split; [by rewrite fmap_app, <- E|].
    eapply rd_bind; [exact HR'|]. cbv beta. by apply rd_free_front.
  - exists (z_after (ptrs (ka ++ [(p, (a, b))])) (ptrs kb)), (ka ++ (p, (a, b)) :: kb).
    rewrite z_after_list, !fmap_app, <- !app_assoc. csimpl. split; [done|].
    split; [by rewrite fmap_app in Hn|]. split; [done|]. rstep.
    by apply rd_free_front.
Qed.

Lemma bounds_hi r : range_bounds r -> int64_ok (r.2 + 1) = true.
Proof. unfold range_bounds, int64_ok. intros. apply andb_true_intro. lia. Qed.

(** Running the search, then [range_prev], brings the code to the decision
    between its two ways to merge. *)
Lemma merge_search_ok z (k : list rkey) new lo hi :
  z_list z = ptrs k -> k <> [] -> new ∉ k.*1 -> NoDup k.*1 ->
  exists ka kb, k = ka ++ kb /\ find_list lo k.*2 = (ka.*2, kb.*2) /\
  forall p z' g',
    let g := <[new := (lo, hi)]> (rmap k) in
    let zi := z_after (ptrs ka) (ptrs kb) in
    rdoes (range_prev lo (last_or None ka.*1)) zi g p zi g ->
    int64_ok (p.2 + 1) = true ->
    rdoes (if lo <=? p.2 + 1
           then range_extend_prev new hi (last_or None ka.*1) (head_or None kb.*1) p
           else range_merge_here new lo hi (head_or None kb.*1)) zi g tt z' g' ->
    rdoes (tbx_range_stack_merge new) z g tt z' g'.
Proof.
  intros Hz Hne Hnew Hn.
  assert (Hlen : Z.of_nat (length (z_list z)) = Z.of_nat (length k)) by (rewrite Hz, !length_fmap; done).
  destruct (find_loop_ok (S (length k)) lo None [] k (<[new := (lo, hi)]> (rmap k)))
    as (ka & kb & E1 & E & HR); [lia|..].
  { intros p r Hp. rewrite lookup_insert_ne; [|intros ->; apply Hnew; by apply (list_elem_of_fmap_2 fst _ (p, r))].
    by apply elem_of_list_to_map. }
  exists ka, kb. split; [done|]. split; [done|]. intros p z' g' g zi Hp Hok Hfin.
  unfold tbx_range_stack_merge. rstep. rewrite Hlen.
  destruct (Z.eqb_spec (Z.of_nat (length k)) 0); [by destruct k|].
  eapply rd_bind; [apply rd_load, lookup_insert_eq|]. cbv beta.
  rstep. rewrite Nat2Z.id. unfold z_top. rewrite Hz.
  eapply rd_bind; [exact HR|]. cbv beta. eapply rd_bind; [exact Hp|]. cbv beta. rstep. exact Hfin.
Qed.

Lemma merge_code_ok m g l new lo hi :
  range_rep m g l -> g !! new = None -> Forall range_bounds l -> range_bounds (lo, hi) ->
  exists s, tbx_range_stack_merge new (RMem m (<[new := (lo, hi)]> g)) = Ok (tt, s) /\
    range_rep (rm_stk s) (rm_rng s) (merge_list l lo hi).
Proof.
  intros (z & k & Hm & Hz & -> & Hn & <-) Hnew Hb Hlh.
  apply not_elem_of_list_to_map in Hnew.
  destruct (decide (k = [])) as [->|Hne].
  { eapply (rd_rep _ _ _ _ _ _ _ _ [(new, (lo, hi))]); [|done|..].
    - unfold tbx_range_stack_merge. rstep. rewrite Hz. simpl. apply rd_stk, cs_push_ok.
    - simpl. by rewrite Hz.
    - done.
    - apply NoDup_singleton.
    - done. }
  destruct (merge_search_ok z k new lo hi) as (ka & kb & -> & E & HR); [done..|].
  assert (Hn' : NoDup ((new, (lo, hi)) :: ka ++ kb).*1) by by apply bindings_nodup_cons.
  assert (Hhi : int64_ok (hi + 1) = true) by apply (bounds_hi (lo, hi) Hlh).
  destruct (merge_here_ok new lo hi ka kb Hhi Hn') as (zh & kh & Hzh & Hnh & Eh & HRh).
  unfold merge_list. rewrite E. fold (merge_after lo hi kb.*2).
  destruct ka as [|[p [a b]] ka _] using rev_ind.
  - eapply (rd_rep _ _ _ _ _ _ _ _ kh); [|done..].
    apply (HR (12345, lo - 10)).
    + simpl. destruct Hlh as (? & ? & ?). simpl in *.
      eapply rd_bind; [apply rd_chk64; unfold int64_ok; apply andb_true_intro; lia|apply rd_ret].
    + destruct Hlh as (? & ? & ?). simpl in *. unfold int64_ok. apply andb_true_intro. lia.
    + simpl. destruct (Z.leb_spec lo (lo - 10 + 1)); [lia|]. exact HRh.
  - destruct (extend_prev_ok new lo hi p a b ka kb Hhi Hn') as (ze & ke & Hze & Hne' & Ee & HRe).
    assert (Hab : int64_ok (b + 1) = true).
    { apply (bounds_hi (a, b)). rewrite Forall_forall in Hb. apply Hb.
      rewrite !fmap_app. set_solver. }
    assert (Hpl : (<[new:=(lo, hi)]> (rmap ((ka ++ [(p, (a, b))]) ++ kb))) !! p = Some (a, b)).
    { rewrite <- app_assoc in *. simpl. apply (bindings_lookup ((new, (lo, hi)) :: ka)).
      rewrite app_comm_cons in Hn'. by apply bindings_nodup in Hn' as [? _]. }
    assert (Elast : last_or None (ka ++ [(p, (a, b))]).*1 = Some p)
      by (rewrite fmap_app; apply last_or_snoc).
    specialize (HR (a, b)). cbv zeta in HR. rewrite Elast in HR.
    rewrite !fmap_app in Eh |- *. csimpl. rewrite last_snoc.
    destruct (lo <=? b + 1) eqn:El.
    + eapply (rd_rep _ _ _ _ _ _ _ _ ke); [|done..|rewrite Ee; by case_match; rewrite ?removelast_last].
      eapply HR; [by apply rd_load|done|]. simpl. rewrite El. exact HRe.
    + eapply (rd_rep _ _ _ _ _ _ _ _ kh); [|done..].
      eapply HR; [by apply rd_load|done|]. simpl. rewrite El. exact HRh.
Qed.

(** [*range_stack_ptr]: [NULL] stands for the empty list. *)
Definition range_ptr_rep (p : option M) (g : gmap loc (Z * Z)) (l : list (Z * Z)) : Prop :=
  match p with None => g = ∅ /\ l = [] | Some m => range_rep m g l end.

Lemma range_new_rep : range_rep cs_new ∅ [].
Proof. exists (Off []), []. repeat split; [apply cs_new_ok|constructor]. Qed.

Lemma merge2_code_ok p g l lo hi :
  range_ptr_rep p g l -> Forall range_bounds l -> range_bounds (lo, hi) ->
  exists m' g', tbx_range_stack_merge2 p g lo hi = Ok (m', g') /\
    range_rep m' g' (merge_list l lo hi).
Proof.
  intros Hp Hb Hlh.
  assert (Hr : range_rep (default cs_new p) g l).
  { destruct p; [done|]. destruct Hp as [-> ->]. apply range_new_rep. }
  unfold tbx_range_stack_merge2, range_merge_ptr.
  destruct (merge_code_ok _ _ _ (fresh (dom g)) lo hi Hr) as (s & E & Hs); [|done..|].
  { apply not_elem_of_dom, is_fresh. }
  rewrite E. by exists (rm_stk s), (rm_rng s).
Qed.

(** Bounds are inherited: the merged ranges lie in the hull of the inputs. *)
Lemma bounds_of_members l :
  ranges_ok l -> (forall x, in_ranges x l -> - 2 ^ 63 + 10 <= x < 2 ^ 63 - 1) ->
  Forall range_bounds l.
Proof.
  unfold ranges_ok. generalize (@None Z). induction l as [|[a b] l IH]; intros o; [done|].
  intros (_ & Hab & Hl) Hx. constructor.
  - pose proof (Hx a) as Ha. pose proof (Hx b) as Hb. rewrite in_ranges_cons in Ha, Hb.
    unfold range_bounds. simpl. lia.
  - apply (IH _ Hl). intros x Hi. apply Hx. rewrite in_ranges_cons. by right.
Qed.

Lemma members_of_bounds l x :
  Forall range_bounds l -> in_ranges x l -> - 2 ^ 63 + 10 <= x < 2 ^ 63 - 1.
Proof.
  intros Hb (r & Hr & Hx). rewrite Forall_forall in Hb. destruct (Hb _ Hr) as (? & ? & ?). lia.
Qed.

Lemma merge_list_bounds l lo hi :
  ranges_ok l -> Forall range_bounds l -> range_bounds (lo, hi) ->
  Forall range_bounds (merge_list l lo hi).
Proof.
  intros Hl Hb Hlh. destruct (merge_list_ok l lo hi Hl) as [Ho Hi]; [apply Hlh|].
  apply bounds_of_members; [done|]. intros x [?|Hx]%Hi; [|eauto using members_of_bounds].
  destruct Hlh as (? & ? & ?). simpl in *. lia.
Qed.

Lemma merge_all_ok p g l rs :
  range_ptr_rep p g l -> ranges_ok l -> Forall range_bounds l -> Forall range_bounds rs ->
  exists p' g' l', merge_all p g rs = Ok (p', g') /\ range_ptr_rep p' g' l' /\ ranges_ok l' /\
    forall x, in_ranges x l' <-> in_ranges x l \/ in_ranges x rs.
Proof.
  intros Hp Hl Hb Hrs. revert p g l Hp Hl Hb.
  induction Hrs as [|[lo hi] rs Hr _ IH]; intros p g l Hp Hl Hb.
  - exists p, g, l. do 3 (split; [done|]). intros x. rewrite in_ranges_nil. tauto.
  - destruct (merge2_code_ok p g l lo hi Hp Hb Hr) as (m' & g' & E & Hrep).
    destruct (merge_list_ok l lo hi Hl) as [Ho Hi]; [apply Hr|].
    destruct (IH (Some m') g' (merge_list l lo hi)) as (p2 & g2 & l2 & E2 & ? & ? & Hi2);
      [done..|by apply merge_list_bounds|].
    exists p2, g2, l2. simpl. rewrite E. do 3 (split; [done|]).
    intros x. rewrite Hi2, Hi, in_ranges_cons. tauto.
Qed.

End refine.

(** C28: Adding a range through [tbx_range_stack_merge2] to a well-formed list
    on the heap-allocated stack succeeds, and the list it leaves is again
    ascending, with gaps between neighbours, owns exactly the ranges it
    points to, and denotes the old set of values plus those of the new
    range. *)
Theorem range_merge_adds (p : option (stack_mem loc)) g l lo hi :
  range_ptr_rep p g l -> ranges_ok l -> Forall range_bounds l -> range_bounds (lo, hi) ->
  exists m' g' l',
    tbx_range_stack_merge2 p g lo hi = Ok (m', g') /\
    range_rep m' g' l' /\ ranges_ok l' /\ Forall range_bounds l' /\
    forall x, in_ranges x l' <-> in_ranges x l \/ lo <= x <= hi.
Proof.
  intros Hp Hl Hb Hr. destruct (merge2_code_ok p g l lo hi Hp Hb Hr) as (m' & g' & E & Hrep).
  destruct (merge_list_ok l lo hi Hl) as [Ho Hi]; [apply Hr|].
  exists m', g', (merge_list l lo hi). do 3 (split; [done|]).
  split; [by apply merge_list_bounds|]. intros x. rewrite Hi. tauto.
Qed.

Lemma range_merge_adds_witness :
  exists (m' : stack_mem loc) g' l',
    tbx_range_stack_merge2 (M := stack_mem loc) None ∅ 50 98 = Ok (m', g') /\
    range_rep m' g' l' /\ ranges_ok l' /\ Forall range_bounds l' /\
    forall x, in_ranges x l' <-> in_ranges x [] \/ 50 <= x <= 98.
Proof.
  apply (range_merge_adds None ∅ [] 50 98); [done|done|constructor|].
  unfold range_bounds. simpl. lia.
Defined.

(** C27: The outcome of a series of merges depends only on the set of values
    they add: two series that cover the same values, in whatever order and
    however cut into overlapping pieces, leave the same list of ranges. *)
Theorem range_merge_canonical rs1 rs2 :
  Forall range_bounds rs1 -> Forall range_bounds rs2 ->
  (forall x, in_ranges x rs1 <-> in_ranges x rs2) ->
  exists (p1 p2 : option (stack_mem loc)) g1 g2 l,
    merge_all None ∅ rs1 = Ok (p1, g1) /\ merge_all None ∅ rs2 = Ok (p2, g2) /\
    range_ptr_rep p1 g1 l /\ range_ptr_rep p2 g2 l.
Proof.
  intros H1 H2 Hx.
  destruct (merge_all_ok (M := stack_mem loc) None ∅ [] rs1) as (p1 & g1 & l1 & E1 & Hr1 & Ho1 & Hi1); [done..|].
  destruct (merge_all_ok (M := stack_mem loc) None ∅ [] rs2) as (p2 & g2 & l2 & E2 & Hr2 & Ho2 & Hi2); [done..|].
  exists p1, p2, g1, g2, l1. do 3 (split; [done|]).
  rewrite (ranges_unique None l1 l2); [done..|]. intros x. rewrite Hi1, Hi2, Hx. tauto.
Qed.

Lemma range_merge_canonical_witness :
  exists (p1 p2 : option (stack_mem loc)) g1 g2 l,
    merge_all None ∅ [(100, 200); (50, 98); (95, 101)] = Ok (p1, g1) /\
    merge_all None ∅ [(50, 200)] = Ok (p2, g2) /\
    range_ptr_rep p1 g1 l /\ range_ptr_rep p2 g2 l.
Proof.
  apply range_merge_canonical.
  - repeat constructor; simpl; lia.
  - repeat constructor; simpl; lia.
  - intros x. rewrite !in_ranges_cons, in_ranges_nil. lia.
Defined.
