(* ===== verification/PigeonHole.v ===== *)
(** * Slot allocators: pigeon holes and pigeon coops
    ([src/src/toolbox/pigeon_hole.c], [src/src/toolbox/pigeon_coop.c])

    A pigeon hole structure is a fixed array of slots that are reserved and
    released; a coop is an array of such shelves that grows when every shelf
    is full and shrinks from the top.  Each routine runs under the lock of its
    structure, so it is modelled as one atomic state transformer. *)
From S2P Require Import Prelude.
Local Open Scope Z_scope.

(** ** Pigeon holes *)

Record tbx_ph_t := Ph {
  nholes : Z;
  ph_nused : Z;
  next_slot : Z;
  hole : list Z }.

(** The iterator's pointer to its structure is passed along separately. *)
Record tbx_ph_iter_t := PhIter {
  start_slot : Z;
  ph_count : Z;
  ph_found : Z }.

(** [ph->hole\[slot\]] *)
Definition get_hole (ph : tbx_ph_t) (slot : Z) : res Z :=
  if slot <? 0 then Fault OutOfBounds
  else match hole ph !! Z.to_nat slot with
       | Some c => Ok c
       | None => Fault OutOfBounds
       end.

Definition set_hole (ph : tbx_ph_t) (slot c : Z) : list Z := <[Z.to_nat slot := c]> (hole ph).

(** C's [%] on operands of which the second may be zero. *)
Definition c_rem (a b : Z) : res Z := if b =? 0 then Fault DivByZero else Ok (Z.rem a b).

Definition tbx_ph_new (size : Z) : tbx_ph_t :=
  Ph size 0 0 (replicate (Z.to_nat size) 0).

Definition tbx_ph_iter_init (ph : tbx_ph_t) : tbx_ph_iter_t :=
  let start := next_slot ph - ph_nused ph in
  PhIter (if start <? 0 then start + nholes ph else start) 0 0.

(** The scan of [tbx_ph_next] from position [i], [n] positions to go. *)
Fixpoint ph_next_loop (ph : tbx_ph_t) (pi : tbx_ph_iter_t) (i : Z) (n : nat) : res (Z * tbx_ph_iter_t) :=
  match n with
  | O => Ok (-1, PhIter (start_slot pi) (-1) (ph_found pi))
  | S n =>
      slot ← c_rem (start_slot pi + i) (nholes ph);
      c ← get_hole ph slot;
      if c =? 1 then Ok (slot, PhIter (start_slot pi) (i + 1) (ph_found pi + 1))
      else ph_next_loop ph pi (i + 1) n
  end.

Definition tbx_ph_next (ph : tbx_ph_t) (pi : tbx_ph_iter_t) : res (Z * tbx_ph_iter_t) :=
  if ph_count pi =? -1 then Ok (-1, pi)
  else ph_next_loop ph pi (ph_count pi) (Z.to_nat (nholes ph - ph_count pi)).

Definition tbx_ph_used (ph : tbx_ph_t) : Z := ph_nused ph.
Definition tbx_ph_free (ph : tbx_ph_t) : Z := nholes ph - ph_nused ph.

Definition tbx_ph_release (ph : tbx_ph_t) (slot : Z) : res tbx_ph_t :=
  if (slot <? 0) || (slot >=? nholes ph) then Ok ph
  else
    c ← get_hole ph slot;
    if c =? 1 then Ok (Ph (nholes ph) (ph_nused ph - 1) (next_slot ph) (set_hole ph slot 0))
    else Ok ph.

(** The search of [tbx_ph_reserve]; falling out of the loop aborts. *)
Fixpoint ph_reserve_loop (ph : tbx_ph_t) (i : Z) (n : nat) : res (Z * tbx_ph_t) :=
  match n with
  | O => Fault Aborted
  | S n =>
      slot ← c_rem (next_slot ph + i) (nholes ph);
      c ← get_hole ph slot;
      if c =? 0 then
        nxt ← c_rem (slot + 1) (nholes ph);
        Ok (slot, Ph (nholes ph) (ph_nused ph + 1) nxt (set_hole ph slot 1))
      else ph_reserve_loop ph (i + 1) n
  end.

Definition tbx_ph_reserve (ph : tbx_ph_t) : res (Z * tbx_ph_t) :=
  if ph_nused ph =? nholes ph then Ok (-1, ph)
  else ph_reserve_loop ph 0 (Z.to_nat (nholes ph)).

(** All the slots the iterator yields before it reports [-1]. *)
Fixpoint ph_iter_run (fuel : nat) (ph : tbx_ph_t) (pi : tbx_ph_iter_t) : res (list Z) :=
  match fuel with
  | O => Fault OutOfFuel
  | S fuel =>
      '(slot, pi) ← tbx_ph_next ph pi;
      if slot =? -1 then Ok [] else rest ← ph_iter_run fuel ph pi; Ok (slot :: rest)
  end.

Definition ph_iter_all (ph : tbx_ph_t) : res (list Z) :=
  ph_iter_run (S (Z.to_nat (nholes ph))) ph (tbx_ph_iter_init ph).

(** ** Pigeon coops *)

Section coop.
(** Buffers come from the callback [pc->new]; [new_fn k] is what its [k]-th
    call returns. *)
Context {D : Type} (new_fn : nat -> D).

Record tbx_pc_t := Pc {
  nshelves : Z;
  shelf_size : Z;
  item_size : Z;
  check_shelf : Z;
  pc_nused : Z;
  ph_shelf : list tbx_ph_t;
  data_shelf : list D;
  new_calls : nat }.

(** A hole of a coop; [data] is a byte offset into a shelf's buffer. *)
Record tbx_pch_t := Pch {
  pch_shelf : Z;
  pch_hole : Z;
  pch_data : option (D * Z) }.

(** [pci_ph] is the index of the shelf that [pci->pi.ph] points to. *)
Record tbx_pc_iter_t := PcIter {
  pci_shelf : Z;
  pci_ph : Z;
  pci_pi : tbx_ph_iter_t }.

Definition no_pch : tbx_pch_t := Pch (-1) (-1) None.

Definition get_shelf (pc : tbx_pc_t) (i : Z) : res tbx_ph_t :=
  if i <? 0 then Fault OutOfBounds
  else match ph_shelf pc !! Z.to_nat i with Some s => Ok s | None => Fault OutOfBounds end.

Definition get_data (pc : tbx_pc_t) (i : Z) : res D :=
  if i <? 0 then Fault OutOfBounds
  else match data_shelf pc !! Z.to_nat i with Some d => Ok d | None => Fault OutOfBounds end.

Definition put_shelf (pc : tbx_pc_t) (i : Z) (s : tbx_ph_t) : list tbx_ph_t :=
  <[Z.to_nat i := s]> (ph_shelf pc).

Definition tbx_pc_new (size isize : Z) : tbx_pc_t :=
  Pc 1 size isize 0 0 [tbx_ph_new size] [new_fn 0] 1.

Definition tbx_pc_iter_init (pc : tbx_pc_t) : res tbx_pc_iter_t :=
  s ← get_shelf pc 0; Ok (PcIter 0 0 (tbx_ph_iter_init s)).

(** The search of [tbx_pc_next] over the shelves from [i] on; [pci->shelf] is
    the value the code set before the loop. *)
Fixpoint pc_next_loop (pc : tbx_pc_t) (pci : tbx_pc_iter_t) (i : Z) (n : nat)
    : res (tbx_pch_t * tbx_pc_iter_t) :=
  match n with
  | O => Ok (no_pch, PcIter (-1) (pci_ph pci) (pci_pi pci))
  | S n =>
      shelf ← get_shelf pc i;
      if tbx_ph_used shelf >? 0 then
        '(slot, pi) ← tbx_ph_next shelf (tbx_ph_iter_init shelf);
        let pci := PcIter (pci_shelf pci) i pi in
        if slot >=? 0 then
          d ← get_data pc (pci_shelf pci);
          Ok (Pch (pci_shelf pci) slot (Some (d, slot * item_size pc)), pci)
        else pc_next_loop pc pci (i + 1) n
      else pc_next_loop pc pci (i + 1) n
  end.

Definition tbx_pc_next (pc : tbx_pc_t) (pci : tbx_pc_iter_t) : res (tbx_pch_t * tbx_pc_iter_t) :=
  if pci_shelf pci =? -1 then Ok (no_pch, pci)
  else if pci_shelf pci >=? nshelves pc then Ok (no_pch, pci)
  else
    cur ← get_shelf pc (pci_ph pci);
    '(slot, pi) ← tbx_ph_next cur (pci_pi pci);
    if slot >=? 0 then
      d ← get_data pc (pci_shelf pci);
      Ok (Pch (pci_shelf pci) slot (Some (d, slot * item_size pc)),
          PcIter (pci_shelf pci) (pci_ph pci) pi)
    else
      let pci := PcIter (pci_shelf pci + 1) (pci_ph pci) pi in
      pc_next_loop pc pci (pci_shelf pci) (Z.to_nat (nshelves pc - pci_shelf pci)).

(** [while ((tbx_ph_used(pc->ph_shelf\[i\]) == 0) && (i>0)) i--;] *)
Fixpoint last_used_loop (pc : tbx_pc_t) (i : nat) : res Z :=
  s ← get_shelf pc (Z.of_nat i);
  if (tbx_ph_used s =? 0) && (0 <? Z.of_nat i)
  then match i with O => Ok 0 | S i => last_used_loop pc i end
  else Ok (Z.of_nat i).

(** Returns the status, the coop, the invalidated hole and the buffers given
    back to [pc->free]. *)
Definition tbx_pch_release (pc : tbx_pc_t) (pch : tbx_pch_t)
    : res (Z * tbx_pc_t * tbx_pch_t * list D) :=
  if (pch_shelf pch <? 0) || (pch_shelf pch >=? nshelves pc) then Ok (-1, pc, pch, [])
  else
    s ← get_shelf pc (pch_shelf pch);
    s' ← tbx_ph_release s (pch_hole pch);
    let n := tbx_ph_used s' in
    let pc1 := Pc (nshelves pc) (shelf_size pc) (item_size pc) (pch_shelf pch) (pc_nused pc - 1)
                  (put_shelf pc (pch_shelf pch) s') (data_shelf pc) (new_calls pc) in
    if (n =? 0) && (nshelves pc1 >? 1) then
      i ← last_used_loop pc1 (Z.to_nat (nshelves pc1 - 1));
      let n := i + 1 in
      if n <? nshelves pc1 then
        Ok (0, Pc n (shelf_size pc1) (item_size pc1) (check_shelf pc1) (pc_nused pc1)
               (take (Z.to_nat n) (ph_shelf pc1)) (take (Z.to_nat n) (data_shelf pc1)) (new_calls pc1),
            no_pch, drop (Z.to_nat n) (data_shelf pc1))
      else Ok (0, pc1, no_pch, [])
    else Ok (0, pc1, no_pch, []).

(** The search of [tbx_pch_reserve]: [k] shelves are still to be tried. *)
Fixpoint pch_reserve_loop (pc : tbx_pc_t) (start : Z) (n : Z) (k : nat) : res (option (tbx_pch_t * tbx_pc_t)) :=
  match k with
  | O => Ok None
  | S k =>
      i ← c_rem (start + n) (nshelves pc);
      s ← get_shelf pc i;
      '(slot, s') ← tbx_ph_reserve s;
      if negb (slot =? -1) then
        d ← get_data pc i;
        Ok (Some (Pch i slot (Some (d, slot * item_size pc)),
                  Pc (nshelves pc) (shelf_size pc) (item_size pc) i (pc_nused pc + 1)
                     (put_shelf pc i s') (data_shelf pc) (new_calls pc)))
      else pch_reserve_loop pc start (n + 1) k
  end.

(** Adds a shelf and takes its first hole.  The data pointer is computed
    without the item size. *)
Definition pch_reserve_grow (pc : tbx_pc_t) : res (tbx_pch_t * tbx_pc_t) :=
  let i := nshelves pc in
  let d := new_fn (new_calls pc) in
  '(slot, s) ← tbx_ph_reserve (tbx_ph_new (shelf_size pc));
  Ok (Pch i slot (Some (d, slot)),
      Pc (nshelves pc + 1) (shelf_size pc) (item_size pc) i (pc_nused pc + 1)
         (ph_shelf pc ++ [s]) (data_shelf pc ++ [d]) (S (new_calls pc))).

Definition tbx_pch_reserve (pc : tbx_pc_t) : res (tbx_pch_t * tbx_pc_t) :=
  if shelf_size pc =? 0 then Fault DivByZero
  else
    let n := Z.quot (pc_nused pc) (shelf_size pc) in
    let start_shelf := if n >? check_shelf pc then check_shelf pc else n in
    r ← pch_reserve_loop pc start_shelf 0 (Z.to_nat (nshelves pc));
    match r with
    | Some x => Ok x
    | None => pch_reserve_grow pc
    end.

(** The buffers given back when the coop is destroyed. *)
Definition tbx_pc_destroy (pc : tbx_pc_t) : list D := take (Z.to_nat (nshelves pc)) (data_shelf pc).

(** Everything the coop iterator yields before it reports a hole of [-1]. *)
Fixpoint pc_iter_run (fuel : nat) (pc : tbx_pc_t) (pci : tbx_pc_iter_t) : res (list tbx_pch_t) :=
  match fuel with
  | O => Fault OutOfFuel
  | S fuel =>
      '(pch, pci) ← tbx_pc_next pc pci;
      if pch_hole pch =? -1 then Ok [] else rest ← pc_iter_run fuel pc pci; Ok (pch :: rest)
  end.

Definition pc_iter_all (fuel : nat) (pc : tbx_pc_t) : res (list tbx_pch_t) :=
  pci ← tbx_pc_iter_init pc; pc_iter_run fuel pc pci.

End coop.

#[global] Arguments tbx_ph_next : simpl never.
#[global] Arguments tbx_pc_t : clear implicits.
#[global] Arguments tbx_pch_t : clear implicits.

(** ** Counting used holes *)

Definition hole_sum (l : list Z) : Z := foldr Z.add 0 l.
Definition hole_val (c : Z) : Prop := c = 0 \/ c = 1.

Lemma hole_sum_app l1 l2 : hole_sum (l1 ++ l2) = hole_sum l1 + hole_sum l2.
Proof. induction l1; simpl; lia. Qed.

Lemma hole_sum_insert l i c c' :
  l !! i = Some c -> hole_sum (<[i := c']> l) = hole_sum l - c + c'.
Proof.
  intros Hi. rewrite <- (take_drop_middle l i c Hi) at 2.
  rewrite insert_take_drop by by apply lookup_lt_Some in Hi.
  rewrite !hole_sum_app. simpl. lia.
Qed.

Lemma hole_sum_bounds l : Forall hole_val l -> 0 <= hole_sum l <= Z.of_nat (length l).
Proof. induction 1 as [|c l [->| ->] _ IH]; simpl; lia. Qed.

Lemma hole_sum_free l :
  Forall hole_val l -> hole_sum l < Z.of_nat (length l) -> exists i, l !! i = Some 0.
Proof.
  induction 1 as [|c l [->| ->] _ IH]; simpl; [lia|by exists O|].
  intros. destruct IH as [i Hi]; [lia|]. by exists (S i).
Qed.

Lemma hole_sum_pos l i : Forall hole_val l -> l !! i = Some 1 -> 0 < hole_sum l.
Proof.
  intros Hl Hi. pose proof (hole_sum_insert l i 1 0 Hi).
  assert (Hl' : Forall hole_val (<[i := 0]> l)) by (apply Forall_insert; [done|by left]).
  pose proof (hole_sum_bounds _ Hl'). lia.
Qed.

Lemma hole_sum_used l : 0 < hole_sum l -> Forall hole_val l -> exists i, l !! i = Some 1.
Proof.
  intros Hs Hl. revert Hs. induction Hl as [|c l [->| ->] _ IH]; simpl; intros; [lia| |by exists O].
  destruct IH as [i Hi]; [lia|]. by exists (S i).
Qed.

(** ** Pigeon hole invariant *)

Record ph_ok (ph : tbx_ph_t) : Prop := PhOk {
  ph_ok_size : 0 < nholes ph;
  ph_ok_len : nholes ph = Z.of_nat (length (hole ph));
  ph_ok_val : Forall hole_val (hole ph);
  ph_ok_sum : ph_nused ph = hole_sum (hole ph);
  ph_ok_next : 0 <= next_slot ph < nholes ph }.

Definition ph_used (ph : tbx_ph_t) (slot : Z) : Prop :=
  0 <= slot /\ hole ph !! Z.to_nat slot = Some 1.

Instance ph_used_dec ph slot : Decision (ph_used ph slot).
Proof. unfold ph_used. apply _. Defined.

Lemma ph_used_range ph slot : ph_ok ph -> ph_used ph slot -> 0 <= slot < nholes ph.
Proof.
  intros Hok [? Hs]. apply lookup_lt_Some in Hs. rewrite (ph_ok_len ph Hok). lia.
Qed.

Lemma get_hole_ok ph slot :
  ph_ok ph -> 0 <= slot < nholes ph ->
  get_hole ph slot = Ok (if decide (ph_used ph slot) then 1 else 0).
Proof.
  intros [] Hs. unfold get_hole. destruct (Z.ltb_spec slot 0); [lia|].
  destruct (hole ph !! Z.to_nat slot) as [c|] eqn:E.
  - pose proof (Forall_lookup_1 _ _ _ _ ph_ok_val0 E) as [->| ->];
      case_decide as Hu; [by destruct Hu; simplify_eq|done|done|].
    by destruct Hu.
  - apply lookup_ge_None in E. lia.
Qed.

Lemma c_rem_mod a b : 0 <= a -> 0 < b -> c_rem a b = Ok (a mod b).
Proof.
  intros. unfold c_rem. destruct (Z.eqb_spec b 0); [lia|]. by rewrite Z.rem_mod_nonneg by lia.
Qed.

Lemma ph_new_ok size : 0 < size -> ph_ok (tbx_ph_new size).
Proof.
  intros. assert (Hs : forall n, hole_sum (replicate n 0) = 0) by (induction n; simpl; lia).
  split; simpl; [done| | |by rewrite Hs|lia].
  - rewrite length_replicate. lia.
  - apply Forall_replicate. by left.
Qed.

Lemma ph_new_used size slot : ~ ph_used (tbx_ph_new size) slot.
Proof. intros [_ Hs]. simpl in Hs. apply lookup_replicate in Hs as [? _]. done. Qed.

(** Writing [c] to a slot. *)
Lemma set_hole_ok ph slot c n nxt :
  ph_ok ph -> 0 <= slot < nholes ph -> hole_val c ->
  n = ph_nused ph - (if decide (ph_used ph slot) then 1 else 0) + c -> 0 <= nxt < nholes ph ->
  ph_ok (Ph (nholes ph) n nxt (set_hole ph slot c)) /\
  forall s, ph_used (Ph (nholes ph) n nxt (set_hole ph slot c)) s <->
    (if decide (s = slot) then c = 1 else ph_used ph s).
Proof.
  intros Hok Hs Hc Hn Hx. pose proof (get_hole_ok ph slot Hok Hs) as Hg.
  unfold get_hole in Hg. destruct (Z.ltb_spec slot 0); [lia|].
  destruct (hole ph !! Z.to_nat slot) as [v|] eqn:E; [|done]. injection Hg as Hg.
  destruct Hok. split.
  - split; simpl; [done| | | |done].
    + unfold set_hole. by rewrite length_insert.
    + by apply Forall_insert.
    + unfold set_hole. rewrite (hole_sum_insert _ _ _ _ E). lia.
  - intros s. unfold ph_used at 1, set_hole. simpl. destruct (decide (s = slot)) as [->|Hd].
    + rewrite list_lookup_insert_eq by by apply lookup_lt_Some in E.
      split; [by intros [_ [= ->]]|by intros ->].
    + unfold ph_used. destruct (decide (0 <= s)); [|naive_solver].
      rewrite list_lookup_insert_ne; [done|]. lia.
Qed.

Lemma ph_reserve_loop_ok ph i n :
  ph_ok ph -> 0 <= i ->
  (exists j, i <= j < i + Z.of_nat n /\ ~ ph_used ph ((next_slot ph + j) mod nholes ph)) ->
  exists slot ph', ph_reserve_loop ph i n = Ok (slot, ph') /\ 0 <= slot < nholes ph /\
    ~ ph_used ph slot /\ ph_ok ph' /\ nholes ph' = nholes ph /\ ph_nused ph' = ph_nused ph + 1 /\
    (forall s, ph_used ph' s <-> ph_used ph s \/ s = slot).
Proof.
  intros Hok. revert i. induction n as [|n IH]; intros i Hi (j & Hj & Hu); [lia|].
  pose proof (ph_ok_size ph Hok). pose proof (ph_ok_next ph Hok).
  assert (Hm : 0 <= (next_slot ph + i) mod nholes ph < nholes ph) by (apply Z.mod_pos_bound; lia).
  cbn [ph_reserve_loop]. rewrite c_rem_mod by lia. cbn [mbind res_bind].
  rewrite get_hole_ok by done. set (slot := (next_slot ph + i) mod nholes ph) in *.
  cbn [mbind res_bind]. case_decide as Hs; simpl.
  - apply IH; [lia|]. exists j. split; [|done]. destruct (decide (i = j)); [by subst|lia].
  - rewrite c_rem_mod by lia. simpl.
    destruct (set_hole_ok ph slot 1 (ph_nused ph + 1) ((slot + 1) mod nholes ph)) as [Hok' Hus];
      [done|done|by right|rewrite decide_False by done; lia|apply Z.mod_pos_bound; lia|].
    eexists _, _. split; [done|]. do 5 (split; [done|]). intros s. rewrite Hus. case_decide; naive_solver.
Qed.

Lemma ph_reserve_ok ph :
  ph_ok ph ->
  (ph_nused ph = nholes ph /\ tbx_ph_reserve ph = Ok (-1, ph)) \/
  exists slot ph', tbx_ph_reserve ph = Ok (slot, ph') /\ 0 <= slot < nholes ph /\
    ~ ph_used ph slot /\ ph_ok ph' /\ nholes ph' = nholes ph /\ ph_nused ph' = ph_nused ph + 1 /\
    (forall s, ph_used ph' s <-> ph_used ph s \/ s = slot).
Proof.
  intros Hok. unfold tbx_ph_reserve. destruct (Z.eqb_spec (ph_nused ph) (nholes ph)) as [E|E]; [by left|right].
  apply ph_reserve_loop_ok; [done|lia|].
  pose proof (hole_sum_bounds _ (ph_ok_val ph Hok)). destruct Hok.
  destruct (hole_sum_free (hole ph)) as [z Hz]; [done|lia|].
  pose proof (lookup_lt_Some _ _ _ Hz).
  exists ((Z.of_nat z - next_slot ph) mod nholes ph).
  pose proof (Z.mod_pos_bound (Z.of_nat z - next_slot ph) (nholes ph)).
  split; [lia|]. rewrite Zplus_mod_idemp_r.
  replace (next_slot ph + (Z.of_nat z - next_slot ph)) with (Z.of_nat z) by lia.
  rewrite Z.mod_small by lia. intros [_ Hu]. rewrite Nat2Z.id in Hu. congruence.
Qed.

Lemma ph_release_ok ph slot :
  ph_ok ph ->
  exists ph', tbx_ph_release ph slot = Ok ph' /\ ph_ok ph' /\ nholes ph' = nholes ph /\
    ph_nused ph' = ph_nused ph - (if decide (ph_used ph slot) then 1 else 0) /\
    forall s, ph_used ph' s <-> ph_used ph s /\ s <> slot.
Proof.
  intros Hok. unfold tbx_ph_release. destruct (_ || _)%bool eqn:Er.
  - assert (Hn : ~ ph_used ph slot).
    { intros Hu%ph_used_range; [|done]. apply orb_prop in Er as [?|?]; breflect; lia. }
    exists ph. do 3 (split; [done|]). rewrite decide_False by done. split; [lia|]. naive_solver.
  - breflect. rewrite get_hole_ok by (done || lia). simpl. case_decide as Hu; simpl.
    + destruct (set_hole_ok ph slot 0 (ph_nused ph - 1) (next_slot ph)) as [Hok' Hus];
        [done|lia|by left|rewrite decide_True by done; lia|apply Hok|].
      eexists. split; [done|]. do 3 (split; [done|]). intros s. rewrite Hus. case_decide; naive_solver.
    + exists ph. do 3 (split; [done|]). split; [lia|]. naive_solver.
Qed.

(** ** The iterator *)

(** The slots of [ph] in the order of the iterator, from position [i]. *)
Definition ring (ph : tbx_ph_t) (start i : Z) : list Z :=
  (fun j => (start + j) mod nholes ph) <$> seqZ i (nholes ph - i).

Lemma ring_cons ph start i :
  i < nholes ph -> ring ph start i = (start + i) mod nholes ph :: ring ph start (i + 1).
Proof.
  intros. unfold ring. rewrite seqZ_cons by lia. csimpl. f_equal. f_equal. f_equal; lia.
Qed.

Lemma ring_nil ph start i : nholes ph <= i -> ring ph start i = [].
Proof. intros. unfold ring. by rewrite seqZ_nil by lia. Qed.

Lemma ph_next_loop_ok ph pi i n :
  ph_ok ph -> 0 <= start_slot pi -> 0 <= i -> i + Z.of_nat n = nholes ph ->
  match filter (ph_used ph) (ring ph (start_slot pi) i) with
  | [] => exists pi', ph_next_loop ph pi i n = Ok (-1, pi')
  | s :: l => exists pi', ph_next_loop ph pi i n = Ok (s, pi') /\ s <> -1 /\
      start_slot pi' = start_slot pi /\ i < ph_count pi' <= nholes ph /\
      filter (ph_used ph) (ring ph (start_slot pi) (ph_count pi')) = l
  end.
Proof.
  intros Hok Hst. revert i. induction n as [|n IH]; intros i Hi Hn.
  { rewrite ring_nil by lia. simpl. by eexists. }
  pose proof (ph_ok_size ph Hok).
  assert (Hm : 0 <= (start_slot pi + i) mod nholes ph < nholes ph) by (apply Z.mod_pos_bound; lia).
  rewrite ring_cons by lia. cbn [ph_next_loop]. rewrite c_rem_mod by lia. cbn [mbind res_bind].
  rewrite get_hole_ok by done. cbn [mbind res_bind]. rewrite filter_cons.
  case_decide as Hu; simpl.
  - eexists. split; [done|]. simpl. repeat split; lia.
  - specialize (IH (i + 1) ltac:(lia) ltac:(lia)).
    destruct (filter _ _); [done|]. destruct IH as (pi' & ? & ? & ? & ? & ?).
    exists pi'. repeat split; try done; lia.
Qed.

Lemma ph_iter_run_ok ph pi fuel :
  ph_ok ph -> 0 <= start_slot pi -> 0 <= ph_count pi <= nholes ph ->
  nholes ph - ph_count pi < Z.of_nat fuel ->
  ph_iter_run fuel ph pi = Ok (filter (ph_used ph) (ring ph (start_slot pi) (ph_count pi))).
Proof.
  intros Hok. revert pi. induction fuel as [|fuel IH]; intros pi Hst Hc Hf; [lia|].
  cbn [ph_iter_run]. unfold tbx_ph_next. destruct (Z.eqb_spec (ph_count pi) (-1)); [lia|].
  pose proof (ph_next_loop_ok ph pi (ph_count pi) (Z.to_nat (nholes ph - ph_count pi)) Hok) as Hl.
  specialize (Hl ltac:(lia) ltac:(lia) ltac:(lia)).
  destruct (filter _ _) as [|s l].
  - destruct Hl as [pi' ->]. done.
  - destruct Hl as (pi' & -> & Hs & E & Hc' & El). simpl.
    destruct (Z.eqb_spec s (-1)); [done|]. rewrite IH by lia. simpl. by rewrite E, El.
Qed.

Lemma ring_NoDup ph start i : 0 < nholes ph -> 0 <= i -> NoDup (ring ph start i).
Proof.
  intros Hp Hi. apply NoDup_fmap_2_strong; [|apply NoDup_seqZ].
  intros j k Hj Hk E. apply elem_of_seqZ in Hj, Hk.
  assert (Hd : (j - k) mod nholes ph = 0).
  { replace (j - k) with ((start + j) - (start + k)) by lia.
    rewrite Zminus_mod, E, Z.sub_diag. done. }
  apply Z.mod_divide in Hd as [q Hq]; [|lia].
  assert (q = 0) as -> by nia. lia.
Qed.

Lemma ring_full ph start s :
  0 < nholes ph -> 0 <= s < nholes ph -> s ∈ ring ph start 0.
Proof.
  intros Hp Hs. apply list_elem_of_fmap. exists ((s - start) mod nholes ph). split.
  - rewrite Zplus_mod_idemp_r. replace (start + (s - start)) with s by lia. by rewrite Z.mod_small.
  - apply elem_of_seqZ. pose proof (Z.mod_pos_bound (s - start) (nholes ph)). lia.
Qed.

Lemma ph_start_range ph : ph_ok ph -> 0 <= start_slot (tbx_ph_iter_init ph).
Proof.
  intros []. unfold tbx_ph_iter_init. simpl. pose proof (hole_sum_bounds _ ph_ok_val0).
  case_match; breflect; lia.
Qed.

(** C37: Iterating over a pigeon hole structure terminates and yields every
    reserved slot exactly once, and no other slot. *)
Theorem ph_iter_complete ph :
  ph_ok ph ->
  exists l, ph_iter_all ph = Ok l /\ NoDup l /\ forall s, s ∈ l <-> ph_used ph s.
Proof.
  intros Hok. pose proof (ph_ok_size ph Hok). pose proof (ph_start_range ph Hok).
  unfold ph_iter_all. rewrite ph_iter_run_ok; [|done|done|simpl; lia|simpl; lia].
  eexists. split; [done|]. split; [by apply NoDup_filter, ring_NoDup|].
  intros s. rewrite list_elem_of_filter. split; [tauto|].
  intros Hu. split; [done|]. apply ring_full; [done|]. by apply ph_used_range.
Qed.

Lemma ph_iter_complete_witness :
  let ph := Ph 4 2 0 [0; 1; 0; 1] in
  exists l, ph_iter_all ph = Ok l /\ NoDup l /\ forall s, s ∈ l <-> ph_used ph s.
Proof.
  apply ph_iter_complete. split; simpl; [lia|lia| |lia|lia].
  repeat constructor; by (left + right).
Defined.

(** ** Coops: holding, reserving and releasing *)

#[global] Arguments tbx_ph_iter_init : simpl never.

Section coop_proofs.
Context {D : Type} (new_fn : nat -> D).
Implicit Types pc : tbx_pc_t D.

Definition used_sum (l : list tbx_ph_t) : Z := foldr (fun s n => ph_nused s + n) 0 l.

Record pc_ok pc : Prop := PcOk {
  pc_ok_shelves : nshelves pc = Z.of_nat (length (ph_shelf pc));
  pc_ok_some : 0 < nshelves pc;
  pc_ok_data : length (data_shelf pc) = length (ph_shelf pc);
  pc_ok_size : 0 < shelf_size pc;
  pc_ok_shelf : Forall (fun s => ph_ok s /\ nholes s = shelf_size pc) (ph_shelf pc);
  pc_ok_sum : pc_nused pc = used_sum (ph_shelf pc);
  pc_ok_check : 0 <= check_shelf pc }.

(** Hole [s] of shelf [i] is reserved. *)
Definition held pc (i s : Z) : Prop :=
  0 <= i /\ exists ph, ph_shelf pc !! Z.to_nat i = Some ph /\ ph_used ph s.

Lemma used_sum_app l1 l2 : used_sum (l1 ++ l2) = used_sum l1 + used_sum l2.
Proof. induction l1; simpl; lia. Qed.

Lemma used_sum_insert l i s s' :
  l !! i = Some s -> used_sum (<[i := s']> l) = used_sum l - ph_nused s + ph_nused s'.
Proof.
  intros Hi. rewrite <- (take_drop_middle l i s Hi) at 2.
  rewrite insert_take_drop by by apply lookup_lt_Some in Hi.
  rewrite !used_sum_app. simpl. lia.
Qed.

Lemma ph_nused_nonneg s : ph_ok s -> 0 <= ph_nused s.
Proof. intros []. pose proof (hole_sum_bounds _ ph_ok_val0). lia. Qed.

Lemma used_sum_nonneg l (n : Z) :
  Forall (fun s => ph_ok s /\ nholes s = n) l -> 0 <= used_sum l.
Proof.
  induction 1 as [|s l [Hs _] _ IH]; simpl; [lia|]. pose proof (ph_nused_nonneg s Hs). lia.
Qed.

Lemma pc_shelf_ok pc i s :
  pc_ok pc -> ph_shelf pc !! i = Some s -> ph_ok s /\ nholes s = shelf_size pc.
Proof. intros Hok Hi. apply (Forall_lookup_1 _ _ _ _ (pc_ok_shelf pc Hok) Hi). Qed.

Lemma get_shelf_ok pc i :
  pc_ok pc -> 0 <= i < nshelves pc ->
  exists s, get_shelf pc i = Ok s /\ ph_shelf pc !! Z.to_nat i = Some s /\
    ph_ok s /\ nholes s = shelf_size pc.
Proof.
  intros Hok Hi. unfold get_shelf. destruct (Z.ltb_spec i 0); [lia|].
  destruct (ph_shelf pc !! Z.to_nat i) as [s|] eqn:E.
  - exists s. do 2 (split; [done|]). by eapply pc_shelf_ok.
  - apply lookup_ge_None in E. pose proof (pc_ok_shelves pc Hok). lia.
Qed.

Lemma get_data_ok pc i :
  pc_ok pc -> 0 <= i < nshelves pc ->
  exists d, get_data pc i = Ok d /\ data_shelf pc !! Z.to_nat i = Some d.
Proof.
  intros Hok Hi. unfold get_data. destruct (Z.ltb_spec i 0); [lia|].
  destruct (data_shelf pc !! Z.to_nat i) as [s|] eqn:E; [by exists s|].
  apply lookup_ge_None in E. pose proof (pc_ok_shelves pc Hok). pose proof (pc_ok_data pc Hok). lia.
Qed.

Lemma pc_new_ok size isize : 0 < size -> pc_ok (tbx_pc_new new_fn size isize).
Proof.
  intros. split; simpl; try done. constructor; [|done]. split; [by apply ph_new_ok|done].
Qed.

Lemma pc_new_held size isize i s : ~ held (tbx_pc_new new_fn size isize) i s.
Proof.
  intros (_ & ph & Hp & Hu). simpl in Hp. apply list_lookup_singleton_Some in Hp as [_ <-].
  by eapply ph_new_used.
Qed.

(** Replacing one shelf by another of the same size. *)
Definition with_shelf pc (i : Z) (s : tbx_ph_t) (chk : Z) : tbx_pc_t D :=
  Pc (nshelves pc) (shelf_size pc) (item_size pc) chk
     (pc_nused pc + (ph_nused s - default 0 (ph_nused <$> ph_shelf pc !! Z.to_nat i)))
     (put_shelf pc i s) (data_shelf pc) (new_calls pc).

Lemma with_shelf_ok pc i s0 s chk :
  pc_ok pc -> 0 <= i -> ph_shelf pc !! Z.to_nat i = Some s0 -> ph_ok s -> nholes s = shelf_size pc ->
  0 <= chk ->
  pc_ok (with_shelf pc i s chk) /\
  forall j x, held (with_shelf pc i s chk) j x <-> (if decide (j = i) then ph_used s x else held pc j x).
Proof.
  intros Hok Hi Hs0 Hs Hn Hc. split.
  - destruct Hok. split; simpl; unfold put_shelf; rewrite ?length_insert; try done.
    + by apply Forall_insert.
    + rewrite Hs0. simpl. rewrite (used_sum_insert _ _ _ _ Hs0). lia.
  - intros j x. unfold held, with_shelf, put_shelf. simpl. destruct (decide (j = i)) as [->|Hj].
    + rewrite list_lookup_insert_eq by by apply lookup_lt_Some in Hs0. naive_solver.
    + destruct (decide (0 <= j)); [|naive_solver]. rewrite list_lookup_insert_ne by lia. done.
Qed.

(** What a successful reservation promises. *)
Definition reserved pc (pch : tbx_pch_t D) pc' : Prop :=
  pc_ok pc' /\ ~ held pc (pch_shelf pch) (pch_hole pch) /\
  (forall i s, held pc' i s <-> held pc i s \/ (i = pch_shelf pch /\ s = pch_hole pch)) /\
  data_shelf pc `prefix_of` data_shelf pc' /\ shelf_size pc' = shelf_size pc /\
  item_size pc' = item_size pc /\ pc_nused pc' = pc_nused pc + 1 /\
  0 <= pch_shelf pch /\ 0 <= pch_hole pch < shelf_size pc /\
  exists d, data_shelf pc' !! Z.to_nat (pch_shelf pch) = Some d /\
    pch_data pch = Some (d, pch_hole pch * item_size pc).

Lemma pch_reserve_loop_ok pc start n k :
  pc_ok pc -> 0 <= start -> 0 <= n ->
  match pch_reserve_loop pc start n k with
  | Ok (Some (pch, pc')) => reserved pc pch pc'
  | Ok None => True
  | Fault _ => False
  end.
Proof.
  intros Hok Hst. revert n. induction k as [|k IH]; intros n Hn; [done|].
  pose proof (pc_ok_some pc Hok). cbn [pch_reserve_loop]. rewrite c_rem_mod by lia. simpl.
  set (i := (start + n) mod nshelves pc).
  assert (Hi : 0 <= i < nshelves pc) by (apply Z.mod_pos_bound; lia).
  destruct (get_shelf_ok pc i Hok Hi) as (s & -> & Hs & Hsok & Hsn). simpl.
  destruct (ph_reserve_ok s Hsok) as [[_ ->]|(slot & s' & -> & Hsl & Hfree & Hok' & Hn' & Hu' & Hus)]; simpl.
  { apply IH. lia. }
  destruct (Z.eqb_spec slot (-1)); [lia|]. simpl.
  destruct (get_data_ok pc i Hok Hi) as (d & -> & Hd). simpl.
  destruct (with_shelf_ok pc i s s' i Hok) as [Hpok Hh]; [lia|done|done|lia|lia|].
  unfold with_shelf in Hpok, Hh. rewrite Hs in Hpok, Hh. simpl in Hpok, Hh.
  replace (ph_nused s' - ph_nused s) with 1 in Hpok, Hh by lia.
  split; [done|]. simpl. split.
  { intros (_ & ph & Hph & Hu). rewrite Hs in Hph. by simplify_eq. }
  split.
  { intros j x. rewrite Hh. case_decide as Hj; [|naive_solver]. subst j. rewrite Hus.
    unfold held. rewrite Hs. naive_solver lia. }
  repeat split; try done; try lia. eauto.
Qed.

Lemma ph_reserve_first ph slot ph' :
  ph_ok ph -> ph_nused ph <> nholes ph -> ~ ph_used ph (next_slot ph) ->
  tbx_ph_reserve ph = Ok (slot, ph') -> slot = next_slot ph.
Proof.
  intros Hok Hne Hu. unfold tbx_ph_reserve. rewrite (proj2 (Z.eqb_neq _ _) Hne).
  pose proof (ph_ok_size ph Hok). pose proof (ph_ok_next ph Hok).
  destruct (Z.to_nat (nholes ph)) as [|k] eqn:Ek; [lia|]. cbn [ph_reserve_loop].
  rewrite c_rem_mod, Z.add_0_r, Z.mod_small by lia. simpl.
  rewrite get_hole_ok, decide_False by done. simpl. rewrite c_rem_mod by lia. simpl. congruence.
Qed.

Lemma reserve_new_shelf size :
  0 < size -> exists s, tbx_ph_reserve (tbx_ph_new size) = Ok (0, s) /\ ph_ok s /\ nholes s = size /\
    ph_nused s = 1 /\ forall x, ph_used s x <-> x = 0.
Proof.
  intros Hs. pose proof (ph_new_ok size Hs) as Hok.
  destruct (ph_reserve_ok (tbx_ph_new size) Hok)
    as [[E _]|(slot & s' & E & _ & _ & Hok' & Hn' & Hu' & Hus)]; [simpl in E; lia|].
  assert (slot = 0) as ->.
  { apply (ph_reserve_first _ _ _ Hok) in E; [done|simpl; lia|apply ph_new_used]. }
  exists s'. do 4 (split; [done|]). intros x. rewrite Hus.
  split; [intros [?%ph_new_used|?]; done|by right].
Qed.

Lemma reserve_grow_ok pc :
  pc_ok pc -> exists pch pc', pch_reserve_grow new_fn pc = Ok (pch, pc') /\ reserved pc pch pc'.
Proof.
  intros Hok. unfold pch_reserve_grow.
  destruct (reserve_new_shelf (shelf_size pc)) as (s & -> & Hsok & Hsn & Hsu & Hus); [apply Hok|].
  simpl. eexists _, _. split; [done|]. destruct Hok.
  assert (Hidx : Z.to_nat (nshelves pc) = length (ph_shelf pc)) by lia.
  split.
  { split; simpl; rewrite ?length_app; simpl; try lia; [|rewrite used_sum_app; simpl; lia].
    apply Forall_app. split; [done|]. by constructor. }
  simpl. split.
  { intros (_ & ph & Hph & _). apply lookup_lt_Some in Hph. lia. }
  split.
  { intros i x. unfold held. simpl. split.
    - intros (Hi & ph & Hph & Hu). apply lookup_app_Some in Hph as [Hph|[Hge Hph]]; [left; eauto|right].
      apply list_lookup_singleton_Some in Hph as [Hz <-]. apply Hus in Hu. lia.
    - intros [(Hi & ph & Hph & Hu)|[-> ->]].
      + split; [done|]. exists ph. split; [by apply lookup_app_l_Some|done].
      + split; [lia|]. exists s. rewrite Hidx, lookup_app_r, Nat.sub_diag by lia. by rewrite Hus. }
  split; [by apply prefix_app_r|]. do 3 (split; [done|]). split; [lia|]. split; [lia|].
  exists (new_fn (new_calls pc)).
  rewrite Hidx, lookup_app_r by lia. by rewrite pc_ok_data0, Nat.sub_diag.
Qed.

Lemma pch_reserve_ok pc :
  pc_ok pc -> exists pch pc', tbx_pch_reserve new_fn pc = Ok (pch, pc') /\ reserved pc pch pc'.
Proof.
  intros Hok. unfold tbx_pch_reserve. pose proof (pc_ok_size pc Hok).
  destruct (Z.eqb_spec (shelf_size pc) 0); [lia|].
  set (start := if Z.quot (pc_nused pc) (shelf_size pc) >? check_shelf pc then check_shelf pc
    else Z.quot (pc_nused pc) (shelf_size pc)).
  assert (Hst : 0 <= start).
  { pose proof (used_sum_nonneg _ _ (pc_ok_shelf pc Hok)). pose proof (pc_ok_sum pc Hok).
    pose proof (pc_ok_check pc Hok). unfold start. case_match; [done|]. apply Z.quot_pos; lia. }
  pose proof (pch_reserve_loop_ok pc start 0 (Z.to_nat (nshelves pc)) Hok Hst) as Hl.
  specialize (Hl ltac:(lia)).
  destruct (pch_reserve_loop _ _ _ _) as [[[pch pc']|]|]; [by exists pch, pc'| |done].
  simpl. by apply reserve_grow_ok.
Qed.

(** The shelf at which [last_used_loop] stops. *)
Lemma last_used_ok pc i :
  pc_ok pc -> (i < length (ph_shelf pc))%nat ->
  exists j, last_used_loop pc i = Ok (Z.of_nat j) /\ (j <= i)%nat /\
    forall k s, (j < k <= i)%nat -> ph_shelf pc !! k = Some s -> ph_nused s = 0.
Proof.
  intros Hok. induction i as [|i IH]; intros Hi; cbn [last_used_loop].
  - destruct (get_shelf_ok pc (Z.of_nat 0) Hok) as (s & -> & Hs & _);
      [pose proof (pc_ok_shelves pc Hok); lia|].
    simpl. rewrite andb_false_r. exists O. repeat split; [lia|]. intros; lia.
  - destruct (get_shelf_ok pc (Z.of_nat (S i)) Hok) as (s' & -> & Hs' & _);
      [pose proof (pc_ok_shelves pc Hok); lia|].
    cbn [mbind res_bind]. unfold tbx_ph_used.
    destruct (Z.eqb_spec (ph_nused s') 0) as [E|E]; simpl.
    + destruct IH as (j & Ej & Hj & Hk); [lia|]. exists j. split; [done|]. split; [lia|].
      intros k t Hkt Ht. destruct (decide (k = S i)) as [->|]; [|apply (Hk k); [lia|done]].
      rewrite Nat2Z.id in Hs'. congruence.
    + exists (S i). repeat split; [lia|]. intros; lia.
Qed.

(** Dropping empty shelves from the top changes nothing that is held. *)
Definition truncated pc (n : Z) : tbx_pc_t D :=
  Pc n (shelf_size pc) (item_size pc) (check_shelf pc) (pc_nused pc)
     (take (Z.to_nat n) (ph_shelf pc)) (take (Z.to_nat n) (data_shelf pc)) (new_calls pc).

Lemma used_sum_zero l : (forall k s, l !! k = Some s -> ph_nused s = 0) -> used_sum l = 0.
Proof.
  induction l as [|s l IH]; simpl; [done|]. intros Hz.
  rewrite (Hz O s eq_refl), IH; [done|]. intros k t Ht. by apply (Hz (S k)).
Qed.

Lemma unused_shelf s x : ph_ok s -> ph_nused s = 0 -> ~ ph_used s x.
Proof. intros [] Hz [_ Hx]. apply hole_sum_pos in Hx; [lia|done]. Qed.

Lemma truncated_ok pc n :
  pc_ok pc -> 0 < n <= nshelves pc ->
  (forall k s, (Z.to_nat n <= k)%nat -> ph_shelf pc !! k = Some s -> ph_nused s = 0) ->
  pc_ok (truncated pc n) /\ forall i x, held (truncated pc n) i x <-> held pc i x.
Proof.
  intros Hok Hn Hz. split.
  - destruct Hok. split; simpl; rewrite ?length_take; try lia.
    + by apply Forall_take.
    + rewrite pc_ok_sum0. rewrite <- (take_drop (Z.to_nat n) (ph_shelf pc)) at 1.
      rewrite used_sum_app, (used_sum_zero (drop _ _)); [lia|].
      intros k s Hs. rewrite lookup_drop in Hs. by apply Hz in Hs; [|lia].
  - intros i x. unfold held. simpl. split.
    + intros (Hi & ph & Hp & Hu). split; [done|]. exists ph.
      by apply lookup_take_Some in Hp as [? _].
    + intros (Hi & ph & Hp & Hu). split; [done|]. exists ph. split; [|done].
      apply lookup_take_Some. split; [done|]. destruct (decide (Z.to_nat i < Z.to_nat n)%nat); [done|].
      exfalso. eapply (unused_shelf ph x); [by eapply pc_shelf_ok|eapply Hz; [|done]; lia|done].
Qed.

Definition released pc (pch : tbx_pch_t D) pc' (freed : list D) : Prop :=
  pc_ok pc' /\ shelf_size pc' = shelf_size pc /\ item_size pc' = item_size pc /\
  pc_nused pc' = pc_nused pc - 1 /\
  (forall i s, held pc' i s <-> held pc i s /\ ~ (i = pch_shelf pch /\ s = pch_hole pch)) /\
  data_shelf pc = data_shelf pc' ++ freed.

Lemma pch_release_ok pc pch :
  pc_ok pc -> held pc (pch_shelf pch) (pch_hole pch) ->
  exists pc' freed, tbx_pch_release pc pch = Ok (0, pc', no_pch, freed) /\ released pc pch pc' freed.
Proof.
  intros Hok Hheld. pose proof Hheld as (Hi & s & Hs & Hu). unfold tbx_pch_release.
  assert (Hi2 : 0 <= pch_shelf pch < nshelves pc).
  { apply lookup_lt_Some in Hs. pose proof (pc_ok_shelves pc Hok). lia. }
  destruct (_ || _)%bool eqn:Er; [apply orb_prop in Er as [?|?]; breflect; lia|].
  destruct (get_shelf_ok pc _ Hok Hi2) as (s0 & -> & Hs0 & Hsok & Hsn). simpl. simplify_eq.
  destruct (ph_release_ok s (pch_hole pch) Hsok) as (s' & -> & Hok' & Hn' & Hu' & Hus). simpl.
  rewrite decide_True in Hu' by done.
  destruct (with_shelf_ok pc _ s s' (pch_shelf pch) Hok Hi Hs Hok') as [Hpok Hh]; [lia|lia|].
  unfold with_shelf in Hpok, Hh. rewrite Hs in Hpok, Hh. simpl in Hpok, Hh.
  replace (pc_nused pc + (ph_nused s' - ph_nused s)) with (pc_nused pc - 1) in Hpok, Hh by lia.
  set (pc1 := Pc _ _ _ _ _ _ _ _) in *.
  assert (Hh1 : forall i x, held pc1 i x <-> held pc i x /\ ~ (i = pch_shelf pch /\ x = pch_hole pch)).
  { intros j x. rewrite Hh. case_decide as Hj; [|naive_solver]. subst j. rewrite Hus.
    unfold held. rewrite Hs. naive_solver. }
  assert (Hkeep : released pc pch pc1 []).
  { split; [done|]. do 4 (split; [done|]). simpl. by rewrite app_nil_r. }
  destruct (_ && _)%bool eqn:Ee; [|by eexists _, _].
  destruct (last_used_ok pc1 (Z.to_nat (nshelves pc1 - 1)) Hpok) as (j & Ej & Hj & Hz).
  { pose proof (pc_ok_shelves pc1 Hpok). pose proof (pc_ok_some pc1 Hpok). lia. }
  change (nshelves pc1) with (nshelves pc) in *. rewrite Ej. simpl.
  destruct (Z.ltb_spec (Z.of_nat j + 1) (nshelves pc)); [|by eexists _, _].
  destruct (truncated_ok pc1 (Z.of_nat j + 1) Hpok) as [Htok Hth]; [simpl; lia|..].
  { intros k t Hk Ht. apply (Hz k); [|done]. pose proof (lookup_lt_Some _ _ _ Ht).
    pose proof (pc_ok_shelves pc1 Hpok) as E1. change (nshelves pc1) with (nshelves pc) in E1. lia. }
  eexists _, _. split; [done|]. split; [exact Htok|]. do 3 (split; [done|]).
  split; [intros i x; rewrite <- Hh1; apply Hth|]. simpl. by rewrite take_drop.
Qed.

(** ** Clients of a coop *)

(** A coop with the holes its clients currently own.  When a reservation adds a
    shelf, the callback returns a buffer that no other shelf has; a buffer that
    was given back may be returned again. *)
Inductive coop_reach (size isize : Z) : tbx_pc_t D -> list (tbx_pch_t D) -> Prop :=
| reach_new : coop_reach size isize (tbx_pc_new new_fn size isize) []
| reach_reserve pc live pch pc' :
    coop_reach size isize pc live -> tbx_pch_reserve new_fn pc = Ok (pch, pc') ->
    new_calls pc' = new_calls pc \/ new_fn (new_calls pc) ∉ data_shelf pc ->
    coop_reach size isize pc' (pch :: live)
| reach_release pc l1 pch l2 st pc' h freed :
    coop_reach size isize pc (l1 ++ pch :: l2) -> tbx_pch_release pc pch = Ok (st, pc', h, freed) ->
    coop_reach size isize pc' (l1 ++ l2).

Definition pch_id (pch : tbx_pch_t D) : Z * Z := (pch_shelf pch, pch_hole pch).

(** The data pointer of an owned hole points into the live buffer of its
    shelf. *)
Definition pch_valid pc (pch : tbx_pch_t D) : Prop :=
  0 <= pch_shelf pch /\ 0 <= pch_hole pch < shelf_size pc /\
  exists d, data_shelf pc !! Z.to_nat (pch_shelf pch) = Some d /\
    pch_data pch = Some (d, pch_hole pch * item_size pc).

Record live_ok pc (live : list (tbx_pch_t D)) : Prop := LiveOk {
  live_pc : pc_ok pc;
  live_nodup : NoDup (pch_id <$> live);
  live_held i s : held pc i s <-> (i, s) ∈ pch_id <$> live;
  live_valid : Forall (pch_valid pc) live;
  live_count : pc_nused pc = Z.of_nat (length live) }.

Lemma live_reserve pc live pch pc' :
  live_ok pc live -> reserved pc pch pc' -> live_ok pc' (pch :: live).
Proof.
  intros [Hok Hn Hh Hv Hc] (Hok' & Hfree & Hheld & [ds Hd] & Hs & Hi & Hu & Hr1 & Hr2 & d & Hdl & Hdp).
  split; [done|..].
  - csimpl. apply NoDup_cons. split; [|done]. unfold pch_id at 1. by rewrite <- Hh.
  - intros i s. rewrite Hheld, Hh. csimpl. rewrite elem_of_cons. unfold pch_id at 2.
    rewrite (pair_equal_spec i). naive_solver.
  - constructor; [unfold pch_valid; rewrite Hs, Hi; eauto|].
    eapply Forall_impl; [exact Hv|]. intros q (? & ? & d' & Hd' & ?). unfold pch_valid.
    rewrite Hs, Hi. do 2 (split; [done|]). exists d'. split; [|done].
    rewrite Hd. by apply lookup_app_l_Some.
  - simpl. lia.
Qed.

Lemma live_release pc l1 pch l2 pc' freed :
  live_ok pc (l1 ++ pch :: l2) -> released pc pch pc' freed -> live_ok pc' (l1 ++ l2).
Proof.
  intros [Hok Hn Hh Hv Hc] (Hok' & Hs & Hi & Hu & Hheld & Hd).
  rewrite fmap_app, fmap_cons, <- Permutation_middle, NoDup_cons in Hn. destruct Hn as [Hnew Hn].
  assert (Hmem : forall i s, held pc' i s <-> (i, s) ∈ pch_id <$> (l1 ++ l2)).
  { intros i s. rewrite Hheld, Hh, fmap_app, fmap_cons, <- Permutation_middle, <- fmap_app, elem_of_cons.
    rewrite <- fmap_app in Hnew. unfold pch_id at 1. rewrite (pair_equal_spec i).
    unfold pch_id at 1 in Hnew. split; [naive_solver|].
    intros Hin. split; [by right|]. intros [-> ->]. done. }
  split; [done|by rewrite fmap_app|done|..].
  - rewrite Forall_app, Forall_cons in Hv.
    assert (Hv' : Forall (pch_valid pc) (l1 ++ l2)) by (apply Forall_app; tauto).
    rewrite Forall_forall in Hv' |- *. intros q Hq. destruct (Hv' q Hq) as (H1 & H2 & d & Hdl & Hdp).
    unfold pch_valid. rewrite Hs, Hi. do 2 (split; [done|]). exists d. split; [|done].
    assert (Hhq : held pc' (pch_shelf q) (pch_hole q)).
    { apply Hmem. by apply (list_elem_of_fmap_2 pch_id). }
    destruct Hhq as (_ & ph & Hph & _). apply lookup_lt_Some in Hph.
    rewrite Hd in Hdl. rewrite lookup_app_l in Hdl; [done|]. by rewrite (pc_ok_data pc' Hok').
  - rewrite !length_app in *. simpl in Hc. lia.
Qed.

(** A reservation takes a hole of a shelf there is, or adds one buffer. *)
Lemma reserve_loop_data pc start n k pch pc' :
  pch_reserve_loop pc start n k = Ok (Some (pch, pc')) -> data_shelf pc' = data_shelf pc /\ new_calls pc' = new_calls pc.
Proof.
  revert n. induction k as [|k IH]; intros n; cbn [pch_reserve_loop]; [done|].
  destruct (c_rem _ _) as [i|]; [|done]. cbn [mbind res_bind]. destruct (get_shelf pc i) as [s|]; [|done]. cbn [mbind res_bind].
  destruct (tbx_ph_reserve s) as [[slot s']|]; [|done]. cbn [mbind res_bind]. destruct (negb _); [|apply IH].
  destruct (get_data pc i); [|done]. cbn [mbind res_bind]. by intros [= _ <-].
Qed.

Lemma reserve_data pc pch pc' :
  tbx_pch_reserve new_fn pc = Ok (pch, pc') ->
  (data_shelf pc' = data_shelf pc /\ new_calls pc' = new_calls pc) \/
  (data_shelf pc' = data_shelf pc ++ [new_fn (new_calls pc)] /\ new_calls pc' = S (new_calls pc)).
Proof.
  unfold tbx_pch_reserve. destruct (shelf_size pc =? 0); [done|]. destruct (pch_reserve_loop _ _ _ _) as [[[pch2 pc2]|]|] eqn:E; [| |done]; cbn [mbind res_bind].
  - intros [= -> ->]. left. by eapply reserve_loop_data.
  - unfold pch_reserve_grow. destruct (tbx_ph_reserve _) as [[slot s]|]; [|done]. cbn [mbind res_bind]. intros [= _ <-]. by right.
Qed.

Lemma coop_reach_ok size isize pc live :
  0 < size -> coop_reach size isize pc live -> live_ok pc live /\ item_size pc = isize /\ shelf_size pc = size /\ NoDup (data_shelf pc).
Proof.
  intros Hsz. induction 1 as [|pc live pch pc' _ (Hl & Hi & Hz & Hn) E Hnew|pc l1 pch l2 st pc' h freed _ (Hl & Hi & Hz & Hn) E].
  - split; [|split; [done|split; [done|apply NoDup_singleton]]]. split; [by apply pc_new_ok|constructor| |constructor|done].
    intros i s. split; [by intros ?%pc_new_held|]. csimpl. set_solver.
  - destruct (pch_reserve_ok pc (live_pc _ _ Hl)) as (pch2 & pc2 & E2 & Hr).
    rewrite E in E2. simplify_eq. split; [by eapply live_reserve|]. split; [apply Hr|]. split; [apply Hr|].
    destruct (reserve_data _ _ _ E) as [[-> _]|[-> Hc]]; [done|]. destruct Hnew as [Hnew|Hnew]; [lia|].
    apply NoDup_app. split; [done|]. split; [set_solver|apply NoDup_singleton].
  - destruct (pch_release_ok pc pch (live_pc _ _ Hl)) as (pc2 & fr2 & E2 & Hr).
    { apply (live_held _ _ Hl). rewrite fmap_app. csimpl. set_solver. }
    rewrite E in E2. simplify_eq. split; [by eapply live_release|]. destruct Hr as (_ & -> & -> & _ & _ & Hd).
    split; [done|]. split; [done|]. rewrite Hd, NoDup_app in Hn. apply Hn.
Qed.

(** The items of different holes do not overlap. *)
Lemma valid_apart pc p q :
  0 < item_size pc -> NoDup (data_shelf pc) -> pch_valid pc p -> pch_valid pc q -> pch_id p <> pch_id q ->
  exists d o d' o', pch_data p = Some (d, o) /\ pch_data q = Some (d', o') /\ (d = d' -> o + item_size pc <= o' \/ o' + item_size pc <= o).
Proof.
  intros Hi Hn (Hs & Hh & d & Hd & ->) (Hs' & Hh' & d' & Hd' & ->) Hne. eexists _, _, _, _. split; [done|]. split; [done|]. intros <-.
  pose proof (NoDup_lookup _ _ _ _ Hn Hd Hd') as He. assert (pch_hole p <> pch_hole q) by (intros E; apply Hne; unfold pch_id; f_equal; [lia|done]).
  destruct (decide (pch_hole p < pch_hole q)); [left|right]; rewrite <- Z.mul_succ_l; apply Z.mul_le_mono_nonneg_r; lia.
Qed.

(** ** Iterating over a coop without empty shelves *)

(** The holes still to come when the iterator stands in shelf [i]. *)
Fixpoint items_from (i : Z) (l : list tbx_ph_t) : list (Z * Z) :=
  match l with
  | [] => []
  | s :: l => (pair i <$> filter (ph_used s) (ring s (start_slot (tbx_ph_iter_init s)) 0)) ++ items_from (i + 1) l
  end.

Definition items_left (i : Z) (s : tbx_ph_t) (pi : tbx_ph_iter_t) (l : list tbx_ph_t) : list (Z * Z) :=
  (pair i <$> filter (ph_used s) (ring s (start_slot pi) (ph_count pi))) ++ items_from (i + 1) l.

Lemma ph_next_ok s pi :
  ph_ok s -> 0 <= start_slot pi -> 0 <= ph_count pi <= nholes s ->
  match filter (ph_used s) (ring s (start_slot pi) (ph_count pi)) with
  | [] => exists pi', tbx_ph_next s pi = Ok (-1, pi')
  | x :: l => exists pi', tbx_ph_next s pi = Ok (x, pi') /\ 0 <= x /\
      start_slot pi' = start_slot pi /\ 0 <= ph_count pi' <= nholes s /\
      filter (ph_used s) (ring s (start_slot pi) (ph_count pi')) = l
  end.
Proof.
  intros Hok Hst Hc. unfold tbx_ph_next. destruct (Z.eqb_spec (ph_count pi) (-1)); [lia|].
  pose proof (ph_next_loop_ok s pi (ph_count pi) (Z.to_nat (nholes s - ph_count pi)) Hok) as Hl.
  specialize (Hl ltac:(lia) ltac:(lia) ltac:(lia)).
  destruct (filter _ _) as [|x l] eqn:Ef; [done|].
  assert (Hx : ph_used s x).
  { assert (Hx : x ∈ filter (ph_used s) (ring s (start_slot pi) (ph_count pi))) by (rewrite Ef; set_solver).
    by apply list_elem_of_filter in Hx as [? _]. }
  destruct Hl as (pi' & ? & ? & ? & ? & ?). exists pi'. repeat split; try done; [apply Hx|lia..].
Qed.

(** The first used hole of a shelf that has one. *)
Lemma used_ring_nonempty s start : ph_ok s -> 0 < ph_nused s -> filter (ph_used s) (ring s start 0) <> [].
Proof.
  intros Hok Hp E. destruct (hole_sum_used (hole s)) as [i Hi]; [by rewrite <- (ph_ok_sum s Hok)|apply Hok|].
  assert (Hu : ph_used s (Z.of_nat i)) by (split; [lia|by rewrite Nat2Z.id]).
  assert (Hin : Z.of_nat i ∈ filter (ph_used s) (ring s start 0)).
  { apply list_elem_of_filter. split; [done|].
    apply ring_full; [apply Hok|by apply ph_used_range]. }
  rewrite E in Hin. set_solver.
Qed.

Section iterate.
Variable pc : tbx_pc_t D.
Hypothesis Hpc : pc_ok pc.
Hypothesis Hfull : Forall (fun s => 0 < ph_nused s) (ph_shelf pc).

(** The iterator stands in shelf [i], with [l] the shelves after it. *)
Definition iter_at (i : Z) (s : tbx_ph_t) (pi : tbx_ph_iter_t) (l : list tbx_ph_t) : Prop :=
  0 <= i /\ drop (Z.to_nat i) (ph_shelf pc) = s :: l /\
  0 <= start_slot pi /\ 0 <= ph_count pi <= nholes s.

Lemma iter_at_shelf i s pi l :
  iter_at i s pi l -> 0 <= i < nshelves pc /\ get_shelf pc i = Ok s /\ ph_ok s /\ 0 < ph_nused s /\
  nshelves pc - i = Z.of_nat (S (length l)).
Proof.
  intros (Hi & Hd & _). assert (Hl : ph_shelf pc !! Z.to_nat i = Some s).
  { rewrite <- (Nat.add_0_r (Z.to_nat i)), <- lookup_drop, Hd. done. }
  assert (Hlen : nshelves pc - i = Z.of_nat (S (length l))).
  { pose proof (f_equal length Hd) as E. rewrite length_drop in E. simpl in E.
    pose proof (pc_ok_shelves pc Hpc). lia. }
  split; [lia|]. unfold get_shelf. destruct (Z.ltb_spec i 0); [lia|]. rewrite Hl.
  split; [done|]. split; [by eapply pc_shelf_ok|]. split; [|done].
  by eapply (Forall_lookup_1 _ _ _ _ Hfull).
Qed.

Lemma pc_next_step i s pi l :
  iter_at i s pi l ->
  match items_left i s pi l with
  | [] => exists pci, tbx_pc_next pc (PcIter i i pi) = Ok (no_pch, pci)
  | (j, x) :: rest =>
      exists data s' pi' l', tbx_pc_next pc (PcIter i i pi) = Ok (Pch j x data, PcIter j j pi') /\
        0 <= x /\ iter_at j s' pi' l' /\ items_left j s' pi' l' = rest
  end.
Proof.
  intros Hat. destruct (iter_at_shelf _ _ _ _ Hat) as (Hi & Hg & Hs & Hus & Hlen).
  destruct Hat as (_ & Hd & Hst & Hc). unfold tbx_pc_next. simpl.
  destruct (Z.eqb_spec i (-1)); [lia|]. rewrite Z.geb_leb. destruct (Z.leb_spec (nshelves pc) i); [lia|].
  rewrite Hg. simpl. pose proof (ph_next_ok s pi Hs Hst Hc) as Hn. unfold items_left.
  destruct (filter (ph_used s) _) as [|x xs] eqn:Ef; simpl.
  2:{ destruct Hn as (pi' & -> & Hx & Est & Hc' & Exs). simpl. rewrite Z.geb_leb.
      destruct (Z.leb_spec 0 x); [|lia]. destruct (get_data_ok pc i Hpc Hi) as (d & -> & _). simpl.
      eexists _, s, pi', l. split; [done|]. split; [done|].
      split; [by repeat split; try lia|]. by rewrite Est, Exs. }
  destruct Hn as [pi' ->]. simpl.
  replace (Z.to_nat (nshelves pc - (i + 1))) with (length l) by lia.
  destruct l as [|s2 l]; [by eexists|]. cbn [items_from length pc_next_loop app pci_shelf].
  set (pi2 := tbx_ph_iter_init s2).
  assert (Hd2 : drop (Z.to_nat (i + 1)) (ph_shelf pc) = s2 :: l).
  { replace (Z.to_nat (i + 1)) with (Z.to_nat i + 1)%nat by lia.
    by rewrite <- drop_drop, Hd. }
  assert (Hs2 : ph_ok s2).
  { eapply (pc_shelf_ok pc (Z.to_nat (i + 1))); [done|].
    rewrite <- (Nat.add_0_r (Z.to_nat _)), <- lookup_drop, Hd2. done. }
  assert (Hst2 : 0 <= start_slot pi2) by by apply ph_start_range.
  assert (Hc2 : 0 <= ph_count pi2 <= nholes s2) by (pose proof (ph_ok_size s2 Hs2); change (ph_count pi2) with 0; lia).
  assert (Hat2 : iter_at (i + 1) s2 pi2 l) by (split; [lia|done]).
  destruct (iter_at_shelf _ _ _ _ Hat2) as (Hi2 & Hg2 & _ & Hus2 & _).
  rewrite Hg2. cbn [mbind res_bind]. unfold tbx_ph_used. rewrite Z.gtb_ltb. destruct (Z.ltb_spec 0 (ph_nused s2)); [|lia].
  pose proof (used_ring_nonempty s2 (start_slot pi2) Hs2 Hus2) as Hne.
  pose proof (ph_next_ok s2 pi2 Hs2 Hst2 Hc2) as Hn2. change (ph_count pi2) with 0 in Hn2 at 1.
  destruct (filter (ph_used s2) (ring s2 (start_slot pi2) 0)) as [|x xs] eqn:Ef2; [done|].
  fold pi2. simpl.
  destruct Hn2 as (pi3 & -> & Hx & Est & Hc' & Exs). simpl. rewrite Z.geb_leb.
  destruct (Z.leb_spec 0 x); [|lia]. destruct (get_data_ok pc (i + 1) Hpc Hi2) as (d & -> & _). simpl.
  eexists _, s2, pi3, l. split; [done|]. split; [done|].
  split; [split; [lia|]; split; [done|]; lia|]. unfold items_left. by rewrite Est, Exs.
Qed.

Lemma pc_iter_run_ok fuel i s pi l :
  iter_at i s pi l -> (length (items_left i s pi l) < fuel)%nat ->
  exists r, pc_iter_run fuel pc (PcIter i i pi) = Ok r /\ pch_id <$> r = items_left i s pi l.
Proof.
  revert i s pi l. induction fuel as [|fuel IH]; intros i s pi l Hat Hf; [lia|].
  pose proof (pc_next_step i s pi l Hat) as Hn. cbn [pc_iter_run].
  destruct (items_left i s pi l) as [|[j x] rest].
  - destruct Hn as [pci ->]. by exists [].
  - destruct Hn as (d & s' & pi' & l' & -> & Hx & Hat' & <-). simpl.
    destruct (Z.eqb_spec x (-1)); [lia|]. simpl in Hf.
    destruct (IH j s' pi' l' Hat') as (r & -> & Er); [lia|]. simpl.
    eexists. split; [done|]. csimpl. by rewrite Er.
Qed.
End iterate.

Lemma items_from_elem (n : Z) l i j x :
  Forall (fun s => ph_ok s /\ nholes s = n) l ->
  (j, x) ∈ items_from i l <->
  i <= j /\ exists s, l !! Z.to_nat (j - i) = Some s /\ ph_used s x.
Proof.
  intros Hl. revert i. induction Hl as [|s l [Hs _] _ IH]; intros i; simpl.
  - split; [set_solver|]. intros (_ & s & E & _). done.
  - rewrite elem_of_app, IH, list_elem_of_fmap. split.
    + intros [(y & [= -> ->] & Hy)|(Hij & t & Ht & Hu)].
      * apply list_elem_of_filter in Hy as [Hy _]. split; [lia|]. exists s. by rewrite Z.sub_diag.
      * split; [lia|]. exists t. replace (Z.to_nat (j - i)) with (S (Z.to_nat (j - (i + 1)))) by lia. done.
    + intros (Hij & t & Ht & Hu). destruct (decide (i = j)) as [->|Hne].
      * left. rewrite Z.sub_diag in Ht. injection Ht as <-. exists x. split; [done|].
        apply list_elem_of_filter. split; [done|]. apply ring_full; [apply Hs|by apply ph_used_range].
      * right. split; [lia|]. exists t.
        replace (Z.to_nat (j - i)) with (S (Z.to_nat (j - (i + 1)))) in Ht by lia. done.
Qed.

Lemma items_from_NoDup (n : Z) l i :
  Forall (fun s => ph_ok s /\ nholes s = n) l -> NoDup (items_from i l).
Proof.
  intros Hl. revert i. induction Hl as [|s l [Hs Hn] Hl IH]; intros i; simpl; [constructor|].
  apply NoDup_app. split; [|split; [|done]].
  - apply NoDup_fmap_2; [by intros ?? [= ->]|].
    apply NoDup_filter, ring_NoDup; [apply Hs|lia].
  - intros [j x] Hj Hj'. apply (items_from_elem n) in Hj' as [? _]; [|done].
    apply list_elem_of_fmap in Hj as (y & [= -> ->] & _). lia.
Qed.

Lemma items_from_length (n : Z) l i :
  Forall (fun s => ph_ok s /\ nholes s = n) l -> (length (items_from i l) <= length l * Z.to_nat n)%nat.
Proof.
  intros Hl. revert i. induction Hl as [|s l [Hs Hn] Hl IH]; intros i; cbn [items_from length Nat.mul]; [lia|].
  rewrite length_app, length_fmap.
  pose proof (length_filter (ph_used s) (ring s (start_slot (tbx_ph_iter_init s)) 0)) as Hf.
  unfold ring in Hf at 2. rewrite length_fmap, length_seqZ in Hf. specialize (IH (i + 1)). lia.
Qed.

(** C22: Whatever sequence of reservations and releases the clients of a coop
    perform, if the callback returns no buffer that another shelf has, then the
    next reservation succeeds, every owned hole can be released, no two owned
    holes are the same, each owned data pointer points to an item inside a
    buffer the coop still has, the items of different holes do not overlap,
    on one shelf or on two, and the coop's use count is the number of owned
    holes. *)
Theorem coop_clients_safe size isize pc live :
  0 < size -> 0 < isize -> coop_reach size isize pc live ->
  (exists pch pc', tbx_pch_reserve new_fn pc = Ok (pch, pc')) /\
  (forall pch, pch ∈ live -> exists pc' freed, tbx_pch_release pc pch = Ok (0, pc', no_pch, freed)) /\
  NoDup (pch_id <$> live) /\ pc_nused pc = Z.of_nat (length live) /\
  (forall p, p ∈ live -> exists d o, pch_data p = Some (d, o) /\ d ∈ data_shelf pc /\ 0 <= o /\ o + isize <= size * isize) /\
  forall p q, p ∈ live -> q ∈ live -> pch_id p <> pch_id q ->
    exists d o d' o', pch_data p = Some (d, o) /\ pch_data q = Some (d', o') /\ (d = d' -> o + isize <= o' \/ o' + isize <= o).
Proof.
  intros Hsz His Hr. destruct (coop_reach_ok _ _ _ _ Hsz Hr) as (Hl & <- & <- & Hn).
  split; [destruct (pch_reserve_ok pc (live_pc _ _ Hl)) as (? & ? & ? & _); eauto|].
  split.
  { intros pch Hp. destruct (pch_release_ok pc pch (live_pc _ _ Hl)) as (? & ? & ? & _); [|eauto].
    apply (live_held _ _ Hl). by apply (list_elem_of_fmap_2 pch_id). }
  pose proof (proj1 (Forall_forall _ _) (live_valid _ _ Hl)) as Hv. do 2 (split; [apply Hl|]). split.
  - intros p Hp. destruct (Hv p Hp) as (Hs & Hh & d & Hd & ->). eexists _, _. split; [done|]. split; [by eapply list_elem_of_lookup_2|]. nia.
  - intros p q Hp Hq Hne. apply valid_apart; auto.
Qed.

(** Iterating over a coop none of whose shelves is empty terminates and
    yields every reserved hole exactly once. *)
Theorem coop_iter_complete pc fuel :
  pc_ok pc -> Forall (fun s => 0 < ph_nused s) (ph_shelf pc) ->
  nshelves pc * shelf_size pc < Z.of_nat fuel ->
  exists l, pc_iter_all fuel pc = Ok l /\ NoDup (pch_id <$> l) /\
    forall i s, (i, s) ∈ pch_id <$> l <-> held pc i s.
Proof.
  intros Hok Hfull Hf. pose proof (pc_ok_shelf pc Hok) as Hsh. pose proof (pc_ok_some pc Hok).
  destruct (ph_shelf pc) as [|s l] eqn:El; [pose proof (pc_ok_shelves pc Hok) as E; rewrite El in E; simpl in E; lia|].
  assert (Hs : ph_ok s) by by inversion Hsh as [|?? [? _]].
  assert (Hat : iter_at pc 0 s (tbx_ph_iter_init s) l).
  { split; [lia|]. split; [by rewrite drop_0|]. split; [by apply ph_start_range|].
    change (ph_count _) with 0. pose proof (ph_ok_size s Hs). lia. }
  rewrite <- El in Hfull. unfold pc_iter_all, tbx_pc_iter_init.
  destruct (iter_at_shelf pc Hok Hfull _ _ _ _ Hat) as (_ & -> & _). cbn [mbind res_bind].
  assert (Eit : items_left 0 s (tbx_ph_iter_init s) l = items_from 0 (ph_shelf pc)) by by rewrite El.
  destruct (pc_iter_run_ok pc Hok Hfull fuel 0 s (tbx_ph_iter_init s) l Hat) as (r & Er & Hr).
  { rewrite Eit, El. pose proof (items_from_length _ _ 0 Hsh) as Hb. rewrite <- El in Hb |- *.
    pose proof (pc_ok_shelves pc Hok). pose proof (pc_ok_size pc Hok). nia. }
  exists r. split; [done|]. rewrite Hr, Eit, El. split; [by eapply items_from_NoDup|].
  intros i x. rewrite (items_from_elem _ _ _ _ _ Hsh). unfold held. by rewrite Z.sub_0_r, El.
Qed.

End coop_proofs.

(** Three holes on two shelves. *)
Definition three_holes : list (tbx_pch_t nat) := [Pch 1 0 (Some (1%nat, 0)); Pch 0 1 (Some (0%nat, 8)); Pch 0 0 (Some (0%nat, 0))].
Definition two_shelves : tbx_pc_t nat := Pc 2 2 8 1 3 [Ph 2 2 0 [1; 1]; Ph 2 1 1 [1; 0]] [0; 1]%nat 2.

Lemma two_shelves_reach : coop_reach id 2 8 two_shelves three_holes.
Proof.
  eapply reach_reserve; [eapply reach_reserve; [eapply reach_reserve; [apply reach_new|..]|..]|..];
    [vm_compute; reflexivity|by left|vm_compute; reflexivity|by left|vm_compute; reflexivity|right; vm_compute; set_solver].
Qed.

Lemma coop_clients_safe_witness :
  (exists pch pc', tbx_pch_reserve id two_shelves = Ok (pch, pc')) /\
  (forall pch, pch ∈ three_holes -> exists pc' freed, tbx_pch_release two_shelves pch = Ok (0, pc', no_pch, freed)) /\
  NoDup (pch_id <$> three_holes) /\ pc_nused two_shelves = 3 /\
  (forall p, p ∈ three_holes -> exists d o, pch_data p = Some (d, o) /\ d ∈ data_shelf two_shelves /\ 0 <= o /\ o + 8 <= 2 * 8) /\
  forall p q, p ∈ three_holes -> q ∈ three_holes -> pch_id p <> pch_id q ->
    exists d o d' o', pch_data p = Some (d, o) /\ pch_data q = Some (d', o') /\ (d = d' -> o + 8 <= o' \/ o' + 8 <= o).
Proof. apply (coop_clients_safe id 2 8 two_shelves three_holes); [lia|lia|apply two_shelves_reach]. Defined.

Lemma coop_iter_complete_witness :
  let pc := Pc 2 2 8 1 3 [Ph 2 2 0 [1; 1]; Ph 2 1 1 [1; 0]] [10; 11]%nat 2 in
  exists l, pc_iter_all 5 pc = Ok l /\ NoDup (pch_id <$> l) /\
    forall i s, (i, s) ∈ pch_id <$> l <-> held pc i s.
Proof.
  apply coop_iter_complete; [|repeat constructor|simpl; lia].
  split; simpl; try done; try lia.
  assert (H01 : hole_val 0 /\ hole_val 1) by (split; [by left|by right]). destruct H01.
  repeat constructor; simpl; done.
Defined.

(** Three one-hole shelves of which the middle one has been released. *)
Definition gap_coop : res (tbx_pc_t nat) :=
  '(_, pc) ← tbx_pch_reserve id (tbx_pc_new id 1 8);
  '(p1, pc) ← tbx_pch_reserve id pc;
  '(_, pc) ← tbx_pch_reserve id pc;
  '(_, pc, _, _) ← tbx_pch_release pc p1;
  Ok pc.

(** The coop iterator misreports after an empty shelf: with shelves 0 and
    2 in use it yields hole 0 of shelf 1, which is free, with the data
    pointer of that shelf, and then hole 0 of shelf 2. *)
Theorem coop_iter_gap :
  exists pc l, gap_coop = Ok pc /\ pc_iter_all 10 pc = Ok l /\
    pch_id <$> l = [(0, 0); (1, 0); (2, 0)] /\ pch_data <$> l = [Some (0%nat, 0); Some (1%nat, 0); Some (2%nat, 0)] /\
    held pc 0 0 /\ ~ held pc 1 0 /\ held pc 2 0.
Proof.
  exists (Pc 3 1 8 1 2 [Ph 1 1 0 [1]; Ph 1 0 0 [0]; Ph 1 1 0 [1]] [0; 1; 2]%nat 3),
    [Pch 0 0 (Some (0%nat, 0)); Pch 1 0 (Some (1%nat, 0)); Pch 2 0 (Some (2%nat, 0))].
  split; [vm_compute; reflexivity|]. split; [vm_compute; reflexivity|]. do 2 (split; [reflexivity|]).
  split; [split; [lia|by eexists]|]. split; [|split; [lia|by eexists]].
  intros (_ & ph & [= <-] & _ & Hu). done.
Qed.
