(* ===== verification/Varint.v ===== *)
(** * Variable length integers ([src/src/toolbox/varint.c])

    Base-128 encoding of unsigned 64 bit integers, and of signed ones through
    the zigzag map.  A buffer is the list of its bytes; access outside of it
    is a fault, as are the signed overflows and the over-long shifts that the
    language leaves undefined. *)
From S2P Require Import Prelude.
Local Open Scope Z_scope.

Definition get_byte (buf : list Z) (i : nat) : res Z :=
  match buf !! i with Some b => Ok b | None => Fault OutOfBounds end.

Definition put_byte (buf : list Z) (i : nat) (b : Z) : res (list Z) :=
  if decide (i < length buf)%nat then Ok (<[i := b]> buf) else Fault OutOfBounds.

(** The loop body at index [i], with [n] rounds left. *)
Fixpoint varint_encode_loop (n i : nat) (value : Z) (buf : list Z) : res (Z * list Z) :=
  match n with
  | O => Ok (-1, buf)
  | S n =>
      let b := to_unsigned 8 (Z.lor value 128) in
      buf ← put_byte buf i b;
      let value := Z.shiftr value 7 in
      if value =? 0 then
        buf ← put_byte buf i (Z.lxor b 128);
        Ok (Z.of_nat i + 1, buf)
      else varint_encode_loop n (S i) value buf
  end.

Definition varint_encode (value : Z) (buf : list Z) : res (Z * list Z) :=
  varint_encode_loop 16 0 value buf.

(** Returns the bytes used and the value accumulated so far. *)
Fixpoint varint_decode_loop (n i : nat) (bits value : Z) (buf : list Z) : res (Z * Z) :=
  match n with
  | O => Ok (-1, value)
  | S n =>
      b ← get_byte buf i;
      if bits >=? 64 then Fault Overflow
      else
        let value := to_unsigned 64 (value + to_unsigned 64 (Z.shiftl (Z.land b 127) bits)) in
        if Z.land b 128 =? 0 then Ok (Z.of_nat i + 1, value)
        else varint_decode_loop n (S i) (bits + 7) value buf
  end.

Definition varint_decode (buf : list Z) (bufsize : Z) : res (Z * Z) :=
  varint_decode_loop (Z.to_nat bufsize) 0 0 0 buf.

(** Signed 64 bit arithmetic. *)
Definition chk_int64 (x : Z) : res Z := if int64_ok x then Ok x else Fault Overflow.

Definition tbx_zigzag_encode (value : Z) (buf : list Z) : res (Z * list Z) :=
  zz ← (if value <? 0
        then m ← chk_int64 (- value); d ← chk_int64 (2 * m); chk_int64 (d - 1)
        else chk_int64 (2 * value));
  varint_encode (to_unsigned 64 zz) buf.

Definition tbx_zigzag_decode (buf : list Z) (bufsize : Z) : res (Z * Z) :=
  '(n, zz) ← varint_decode buf bufsize;
  let v := if Z.land zz 1 =? 0 then Z.shiftr zz 1
           else to_unsigned 64 (to_unsigned 64 (- Z.shiftr zz 1) - 1) in
  Ok (n, to_signed 64 v).

(** ** Facts about single bytes *)

Lemma byte_cases (P : Z -> bool) :
  forallb P (seqZ 0 256) = true -> forall b, 0 <= b < 256 -> P b = true.
Proof.
  intros Hall b Hb. rewrite forallb_forall in Hall. apply Hall.
  apply list_elem_of_In, elem_of_seqZ. lia.
Qed.

Lemma low_byte_lor v : 0 <= v -> to_unsigned 8 (Z.lor v 128) = Z.lor (v mod 256) 128.
Proof.
  intros Hv. unfold to_unsigned. rewrite <- !(Z.land_ones _ 8) by lia.
  rewrite Z.land_lor_distr_l. done.
Qed.

Lemma cont_byte b : 0 <= b < 256 -> Z.land (Z.lor b 128) 127 = b mod 128 /\ Z.land (Z.lor b 128) 128 <> 0.
Proof.
  intros Hb. pose proof (byte_cases (fun b => (Z.land (Z.lor b 128) 127 =? b mod 128) &&
    negb (Z.land (Z.lor b 128) 128 =? 0)) eq_refl b Hb) as H. cbv beta in H.
  breflect. done.
Qed.

Lemma last_byte b : 0 <= b < 128 ->
  Z.land (Z.lxor (Z.lor b 128) 128) 127 = b /\ Z.land (Z.lxor (Z.lor b 128) 128) 128 = 0.
Proof.
  intros Hb. pose proof (byte_cases (fun b => (128 <=? b) || ((Z.land (Z.lxor (Z.lor b 128) 128) 127 =? b) &&
    (Z.land (Z.lxor (Z.lor b 128) 128) 128 =? 0))) eq_refl b ltac:(lia)) as H. cbv beta in H.
  apply orb_prop in H as [H|H]; breflect; [lia|done].
Qed.

(** ** Encoding and decoding *)

Lemma put_byte_ok buf i b : (i < length buf)%nat -> put_byte buf i b = Ok (<[i := b]> buf).
Proof. intros. unfold put_byte. by rewrite decide_True. Qed.

(** [shiftr]/[shiftl] by a byte's worth of payload. *)
Lemma shift7 v i : 0 <= v -> 0 <= i ->
  (v mod 128) * 2 ^ i + Z.shiftr v 7 * 2 ^ (i + 7) = v * 2 ^ i.
Proof.
  intros. rewrite Z.shiftr_div_pow2, Z.pow_add_r by lia. change (2 ^ 7) with 128.
  pose proof (Z.div_mod v 128). nia.
Qed.

Lemma mod_256_128 v : (v mod 256) mod 128 = v mod 128.
Proof. symmetry. apply (Znumtheory.Zmod_div_mod 128 256); [lia|lia|by exists 2]. Qed.

(** One round of the decoder on a byte whose payload is [p]. *)
Lemma decode_add acc p bits :
  0 <= acc -> 0 <= p -> 0 <= bits -> acc + p * 2 ^ bits < 2 ^ 64 ->
  to_unsigned 64 (acc + to_unsigned 64 (Z.shiftl p bits)) = acc + p * 2 ^ bits.
Proof.
  intros. assert (0 <= p * 2 ^ bits) by (pose proof (Z.pow_nonneg 2 bits); nia).
  rewrite Z.shiftl_mul_pow2 by lia. rewrite (to_unsigned_small 64 (p * _)) by lia.
  apply to_unsigned_small. lia.
Qed.

(** What the encoder writes from index [i] on, the decoder reads back. *)
Lemma encode_loop_ok n i v buf :
  0 <= v -> v < 2 ^ (7 * Z.of_nat n) -> (0 < n)%nat -> (i + n <= length buf)%nat ->
  exists k buf', varint_encode_loop n i v buf = Ok (Z.of_nat k, buf') /\
    (i < k <= i + n)%nat /\ (k = S i \/ 2 ^ (7 * Z.of_nat (k - i - 1)) <= v) /\ length buf' = length buf /\
    (forall j, (j < i \/ k <= j)%nat -> buf' !! j = buf !! j) /\
    forall m acc, 0 <= acc -> acc + v * 2 ^ (7 * Z.of_nat i) < 2 ^ 64 ->
      (k <= i + m)%nat -> (k <= 10)%nat ->
      varint_decode_loop m i (7 * Z.of_nat i) acc buf' =
        Ok (Z.of_nat k, acc + v * 2 ^ (7 * Z.of_nat i)).
Proof.
  revert i v buf. induction n as [|n IH]; intros i v buf Hv Hb Hn Hi; [lia|].
  cbn [varint_encode_loop]. rewrite low_byte_lor by done.
  pose proof (Z.mod_pos_bound v 256 ltac:(lia)) as Hm.
  rewrite put_byte_ok by lia. cbn [mbind res_bind].
  assert (Hsh : Z.shiftr v 7 = v / 128) by by rewrite Z.shiftr_div_pow2 by lia.
  rewrite Hsh. destruct (Z.eqb_spec (v / 128) 0) as [E|E].
  - assert (Hv' : v < 128) by (apply Z.div_small_iff in E; lia).
    rewrite (Z.mod_small v 256) by lia. rewrite put_byte_ok by (rewrite length_insert; lia). simpl.
    eexists (S i), _. split; [do 2 f_equal; lia|]. split; [lia|]. split; [by left|].
    split; [by rewrite !length_insert|]. split; [intros; by rewrite !list_lookup_insert_ne by lia|].
    intros m acc Ha Hacc Hk H10. destruct m as [|m]; [lia|]. cbn [varint_decode_loop].
    unfold get_byte. rewrite list_lookup_insert_eq by (rewrite length_insert; lia).
    cbn [mbind res_bind]. destruct (last_byte v ltac:(lia)) as [-> ->].
    rewrite Z.geb_leb. destruct (Z.leb_spec 64 (7 * Z.of_nat i)); [lia|]. simpl.
    rewrite decode_add by lia. do 2 f_equal. lia.
  - destruct (IH (S i) (v / 128) (<[i := Z.lor (v mod 256) 128]> buf))
      as (k & buf' & Ee & Hk & Hlow & Hlen & Hkeep & Hdec).
    { apply Z.div_pos; lia. }
    { apply Z.div_lt_upper_bound; [lia|]. change 128 with (2 ^ 7).
      rewrite <- Z.pow_add_r by lia. replace (7 + 7 * Z.of_nat n) with (7 * Z.of_nat (S n)) by lia. done. }
    { destruct n; [|lia]. simpl in Hb. rewrite Z.div_small in E; lia. }
    { rewrite length_insert. lia. }
    exists k, buf'. split; [done|]. split; [lia|]. split.
    { right. destruct Hlow as [->|Hlow].
      - replace (S (S i) - i - 1)%nat with 1%nat by lia. simpl. pose proof (Z.div_mod v 128).
        pose proof (Z.div_pos v 128). pose proof (Z.mod_pos_bound v 128). lia.
      - replace (7 * Z.of_nat (k - i - 1)) with (7 * Z.of_nat (k - S i - 1) + 7) by lia.
        rewrite Z.pow_add_r by lia. change (2 ^ 7) with 128.
        pose proof (Z.div_mod v 128). pose proof (Z.mod_pos_bound v 128). lia. }
    split; [by rewrite Hlen, length_insert|].
    split; [intros j Hj; rewrite Hkeep, list_lookup_insert_ne by lia; done|].
    intros m acc Ha Hacc Hkm H10. destruct m as [|m]; [lia|]. cbn [varint_decode_loop].
    unfold get_byte. rewrite Hkeep, list_lookup_insert_eq by lia.
    cbn [mbind res_bind]. destruct (cont_byte (v mod 256) Hm) as [-> Hc].
    rewrite mod_256_128, Z.geb_leb. destruct (Z.leb_spec 64 (7 * Z.of_nat i)); [lia|].
    rewrite (proj2 (Z.eqb_neq _ _) Hc).
    pose proof (shift7 v (7 * Z.of_nat i) Hv ltac:(lia)) as Hs7. rewrite Hsh in Hs7.
    pose proof (Z.mod_pos_bound v 128 ltac:(lia)). pose proof (Z.div_pos v 128).
    pose proof (Z.pow_nonneg 2 (7 * Z.of_nat i + 7)). pose proof (Z.pow_nonneg 2 (7 * Z.of_nat i)).
    rewrite decode_add by nia.
    replace (7 * Z.of_nat i + 7) with (7 * Z.of_nat (S i)) in * by lia.
    rewrite Hdec by nia. do 2 f_equal. lia.
Qed.

Lemma encode_ok v buf :
  0 <= v < 2 ^ 64 -> (16 <= length buf)%nat ->
  exists k buf', varint_encode v buf = Ok (Z.of_nat k, buf') /\ (0 < k <= 10)%nat /\
    length buf' = length buf /\ (forall j, (k <= j)%nat -> buf' !! j = buf !! j) /\
    forall size, Z.of_nat k <= size -> varint_decode buf' size = Ok (Z.of_nat k, v).
Proof.
  intros Hv Hl. destruct (encode_loop_ok 16 0 v buf) as (k & buf' & E & Hk & Hlow & Hlen & Hkeep & Hdec);
    [lia|lia|lia|lia|].
  assert (H10 : (k <= 10)%nat).
  { destruct (decide (k <= 10)%nat); [done|]. destruct Hlow as [->|Hlow]; [lia|].
    pose proof (Z.pow_le_mono_r 2 70 (7 * Z.of_nat (k - 0 - 1))). lia. }
  exists k, buf'. split; [done|]. split; [lia|]. split; [done|]. split; [intros; apply Hkeep; lia|].
  intros size Hs. unfold varint_decode. rewrite (Hdec _ 0); [do 2 f_equal; lia|lia..].
Qed.

(** C29: Every unsigned 64 bit integer is encoded in at most ten bytes, bytes
    after them are left alone, and decoding any buffer that starts with them
    gives the integer and the same length. *)
Theorem varint_roundtrip v buf size :
  0 <= v < 2 ^ 64 -> (16 <= length buf)%nat -> 10 <= size ->
  exists k buf', varint_encode v buf = Ok (Z.of_nat k, buf') /\ (0 < k <= 10)%nat /\
    (forall j, (k <= j)%nat -> buf' !! j = buf !! j) /\
    varint_decode buf' size = Ok (Z.of_nat k, v).
Proof.
  intros Hv Hl Hs. destruct (encode_ok v buf Hv Hl) as (k & buf' & E & Hk & _ & Hkeep & Hd).
  exists k, buf'. do 3 (split; [done|]). apply Hd. lia.
Qed.

Lemma varint_roundtrip_witness :
  exists k buf', varint_encode 2348298882212802647 (replicate 20 0) = Ok (Z.of_nat k, buf') /\
    (0 < k <= 10)%nat /\ (forall j, (k <= j)%nat -> buf' !! j = replicate 20 0 !! j) /\
    varint_decode buf' 20 = Ok (Z.of_nat k, 2348298882212802647).
Proof. apply varint_roundtrip; [lia|simpl; lia|lia]. Defined.

Lemma zigzag_unmap v :
  - 2 ^ 62 < v < 2 ^ 62 ->
  let zz := if v <? 0 then 2 * - v - 1 else 2 * v in
  0 <= zz < 2 ^ 63 /\
  to_signed 64 (if Z.land zz 1 =? 0 then Z.shiftr zz 1
                else to_unsigned 64 (to_unsigned 64 (- Z.shiftr zz 1) - 1)) = v.
Proof.
  intros Hv zz. assert (Hr : 0 <= zz < 2 ^ 63) by (unfold zz; case_match; breflect; lia).
  split; [done|]. change 1 with (Z.ones 1) at 1. rewrite Z.land_ones, Z.shiftr_div_pow2 by lia.
  change (2 ^ 1) with 2. unfold zz. destruct (Z.ltb_spec v 0).
  - replace (2 * - v - 1) with (1 + (- v - 1) * 2) by lia.
    rewrite Z.mod_add, Z.div_add by lia. change (1 mod 2) with 1. change (1 / 2) with 0.
    change (1 =? 0) with false. cbv iota.
    assert (E : to_unsigned 64 (to_unsigned 64 (- (0 + (- v - 1))) - 1) = to_unsigned 64 v).
    { unfold to_unsigned. rewrite Zminus_mod_idemp_l. f_equal. lia. }
    rewrite E, to_signed_unsigned by lia. apply to_signed_small; lia.
  - replace (2 * v) with (v * 2) by lia. rewrite Z.mod_mul, Z.div_mul by lia. simpl.
    apply to_signed_small; lia.
Qed.

(** Signed integers of fewer than 63 bits survive the zigzag encoding. *)
Theorem zigzag_roundtrip v buf size :
  - 2 ^ 62 < v < 2 ^ 62 -> (16 <= length buf)%nat -> 10 <= size ->
  exists k buf', tbx_zigzag_encode v buf = Ok (Z.of_nat k, buf') /\ (0 < k <= 10)%nat /\
    tbx_zigzag_decode buf' size = Ok (Z.of_nat k, v).
Proof.
  intros Hv Hl Hs. destruct (zigzag_unmap v Hv) as [Hr Hu].
  set (zz := if v <? 0 then _ else _) in *.
  assert (Ezz : tbx_zigzag_encode v buf = varint_encode (to_unsigned 64 zz) buf).
  { unfold tbx_zigzag_encode, chk_int64, int64_ok, zz. destruct (Z.ltb_spec v 0);
      repeat (rewrite (proj2 (Z.leb_le _ _)) by lia; rewrite (proj2 (Z.ltb_lt _ _)) by lia; simpl); done. }
  rewrite Ezz, (to_unsigned_small 64 zz) by lia.
  destruct (encode_ok zz buf ltac:(lia) Hl) as (k & buf' & E & Hk & _ & _ & Hd).
  exists k, buf'. do 2 (split; [done|]). unfold tbx_zigzag_decode. rewrite Hd by lia. simpl. by rewrite Hu.
Qed.

Lemma zigzag_roundtrip_witness :
  exists k buf', tbx_zigzag_encode (-16385) (replicate 20 0) = Ok (Z.of_nat k, buf') /\ (0 < k <= 10)%nat /\
    tbx_zigzag_decode buf' 20 = Ok (Z.of_nat k, -16385).
Proof. apply zigzag_roundtrip; [lia|simpl; lia|lia]. Defined.
