(* ===== verification/Que.v ===== *)
(** * The bounded blocking queue ([src/src/toolbox/que.c])

    A ring buffer of fixed-size objects behind a mutex and two condition
    variables.  The model runs any number of threads, each inside one call of
    [tbx_que_put], [tbx_que_get] or [tbx_que_count] at a time, and interleaves
    them at the points where the code gives up or takes the lock: taking the
    lock, one round of the [while (1)] loop (which the lock makes atomic),
    waking up inside [apr_thread_cond_timedwait], and unlocking.  A wait may
    end at any moment, so that broadcasts, time-outs and spurious wake-ups are
    all covered. *)
From stdpp Require Import relations.
From S2P Require Import Prelude.
Local Open Scope Z_scope.

Definition TBX_QUE_BLOCK : Z := 123456789.

Section code.
Context {V : Type} (zero : V).

Record tbx_que_s := Que {
  array : list V;
  n_objects : Z;
  slot : Z;
  n_used : Z;
  get_waiting : Z;
  put_waiting : Z }.

Definition tbx_que_create (n : Z) : tbx_que_s :=
  Que (replicate (Z.to_nat n) zero) n 0 0 0 0.

(** The calls; a put may have a [NULL] object, a get may have no place to
    store one. *)
Inductive que_op :=
| OpPut (object : option V)
| OpGet (store : bool)
| OpCount.

(** What one round of the loop ends in. *)
Inductive round_end :=
| REnd (err : Z) (got : option V)
| RWait (stime : Z).

(** [(apr_time_now()-stime) > dt], then the restart of the clock for a call
    that blocks; [now1] and [now2] are the two readings of the clock. *)
Definition que_no_luck (dt stime now1 now2 : Z) : round_end :=
  if now1 - stime >? dt then REnd 1 None
  else RWait (if dt =? TBX_QUE_BLOCK then now2 else stime).

Definition put_round (q : tbx_que_s) (object : option V) (dt stime now1 now2 : Z)
    : res (tbx_que_s * round_end) :=
  if n_used q <? n_objects q then
    match object with
    | Some o =>
        let s := Z.rem (n_used q + slot q) (n_objects q) in
        if (s <? 0) || (s >=? Z.of_nat (length (array q))) then Fault OutOfBounds
        else Ok (Que (<[Z.to_nat s := o]> (array q)) (n_objects q) (slot q) (n_used q + 1)
                     (get_waiting q) (put_waiting q), REnd 0 None)
    | None => Ok (q, REnd 0 None)
    end
  else
    match que_no_luck dt stime now1 now2 with
    | REnd e g => Ok (q, REnd e g)
    | RWait st => Ok (Que (array q) (n_objects q) (slot q) (n_used q)
                          (get_waiting q) (put_waiting q + 1), RWait st)
    end.

Definition get_round (q : tbx_que_s) (store : bool) (dt stime now1 now2 : Z)
    : res (tbx_que_s * round_end) :=
  if n_used q >? 0 then
    if store then
      if n_objects q =? 0 then Fault DivByZero
      else
        let s := Z.rem (slot q) (n_objects q) in
        if s <? 0 then Fault OutOfBounds
        else match array q !! Z.to_nat s with
             | None => Fault OutOfBounds
             | Some v => Ok (Que (array q) (n_objects q) (s + 1) (n_used q - 1)
                                 (get_waiting q) (put_waiting q), REnd 0 (Some v))
             end
    else Ok (q, REnd 0 None)
  else
    match que_no_luck dt stime now1 now2 with
    | REnd e g => Ok (q, REnd e g)
    | RWait st => Ok (Que (array q) (n_objects q) (slot q) (n_used q)
                          (get_waiting q + 1) (put_waiting q), RWait st)
    end.

Definition que_round (op : que_op) (q : tbx_que_s) (dt stime now1 now2 : Z)
    : res (tbx_que_s * round_end) :=
  match op with
  | OpPut o => put_round q o dt stime now1 now2
  | OpGet b => get_round q b dt stime now1 now2
  | OpCount => Ok (q, REnd 0 None)
  end.

(** A successful round broadcasts to a condition that has waiters. *)
Definition wakes_get (q : tbx_que_s) (e : round_end) : bool :=
  match e with REnd 0 _ => get_waiting q >? 0 | _ => false end.
Definition wakes_put (q : tbx_que_s) (e : round_end) : bool :=
  match e with REnd 0 _ => put_waiting q >? 0 | _ => false end.

(** [q->put_waiting--] or [q->get_waiting--] after the wait. *)
Definition que_woken (op : que_op) (q : tbx_que_s) : tbx_que_s :=
  match op with
  | OpPut _ => Que (array q) (n_objects q) (slot q) (n_used q) (get_waiting q) (put_waiting q - 1)
  | OpGet _ => Que (array q) (n_objects q) (slot q) (n_used q) (get_waiting q - 1) (put_waiting q)
  | OpCount => q
  end.

(** ** Threads *)

Inductive thread :=
| TIdle
| TLock (op : que_op) (dt stime : Z)
| TRound (op : que_op) (dt stime : Z)
| TWait (op : que_op) (dt stime : Z) (signalled : bool)
| TUnlock (err : Z) (got : option V)
| TCount (n : Z).

(** [puts] and [gets] record the objects in the order in which the rounds
    stored and removed them. *)
Record que_state := QS {
  qs_q : tbx_que_s;
  qs_lock : option nat;
  qs_now : Z;
  qs_threads : list thread;
  qs_puts : list V;
  qs_gets : list V }.

(** A broadcast reaches every thread that waits for the condition. *)
Definition signal (wg wp : bool) (t : thread) : thread :=
  match t with
  | TWait (OpGet b) dt st sg => TWait (OpGet b) dt st (sg || wg)
  | TWait (OpPut o) dt st sg => TWait (OpPut o) dt st (sg || wp)
  | _ => t
  end.

Definition put_log (op : que_op) (e : round_end) : list V :=
  match op, e with OpPut (Some o), REnd 0 _ => [o] | _, _ => [] end.
Definition get_log (e : round_end) : list V :=
  match e with REnd 0 (Some v) => [v] | _ => [] end.

(** The thread after its round, and the lock: a wait releases it. *)
Definition after_round (op : que_op) (dt : Z) (e : round_end) : thread :=
  match e with
  | REnd err got => TUnlock err got
  | RWait st => TWait op dt st false
  end.

Inductive que_step : que_state -> que_state -> Prop :=
| step_tick q lk now now' ts ps gs :
    now <= now' -> que_step (QS q lk now ts ps gs) (QS q lk now' ts ps gs)
| step_call i op dt q lk now ts ps gs :
    ts !! i = Some TIdle ->
    que_step (QS q lk now ts ps gs) (QS q lk now (<[i := TLock op dt now]> ts) ps gs)
| step_lock i op dt st q now ts ps gs :
    ts !! i = Some (TLock op dt st) -> op <> OpCount ->
    que_step (QS q None now ts ps gs) (QS q (Some i) now (<[i := TRound op dt st]> ts) ps gs)
| step_count_lock i dt st q now ts ps gs :
    ts !! i = Some (TLock OpCount dt st) ->
    que_step (QS q None now ts ps gs) (QS q (Some i) now (<[i := TCount (n_used q)]> ts) ps gs)
(** the second [apr_thread_mutex_lock] of [tbx_que_count] *)
| step_count_relock i n q now ts ps gs :
    ts !! i = Some (TCount n) ->
    que_step (QS q None now ts ps gs) (QS q (Some i) now (<[i := TIdle]> ts) ps gs)
| step_round i op dt st q q' e now now1 now2 ts ps gs :
    ts !! i = Some (TRound op dt st) -> now <= now1 -> now1 <= now2 ->
    que_round op q dt st now1 now2 = Ok (q', e) ->
    que_step (QS q (Some i) now ts ps gs)
      (QS q' (match e with REnd _ _ => Some i | RWait _ => None end) now2
          (<[i := after_round op dt e]> (signal (wakes_get q e) (wakes_put q e) <$> ts))
          (ps ++ put_log op e) (gs ++ get_log e))
| step_wake i op dt st sg q now ts ps gs :
    ts !! i = Some (TWait op dt st sg) ->
    que_step (QS q None now ts ps gs)
      (QS (que_woken op q) (Some i) now (<[i := TRound op dt st]> ts) ps gs)
| step_unlock i err got q now ts ps gs :
    ts !! i = Some (TUnlock err got) ->
    que_step (QS q (Some i) now ts ps gs) (QS q None now (<[i := TIdle]> ts) ps gs).

Definition que_init (n : Z) (nthreads : nat) : que_state :=
  QS (tbx_que_create n) None 0 (replicate nthreads TIdle) [] [].

Inductive que_reach (n : Z) (nthreads : nat) : que_state -> Prop :=
| reach_init : que_reach n nthreads (que_init n nthreads)
| reach_step s s' : que_reach n nthreads s -> que_step s s' -> que_reach n nthreads s'.

End code.
#[global] Arguments tbx_que_s : clear implicits.
#[global] Arguments que_op : clear implicits.
#[global] Arguments thread : clear implicits.
#[global] Arguments que_state : clear implicits.
#[global] Arguments round_end : clear implicits.

Section proofs.
Context {V : Type} (zero : V).
Implicit Types (q : tbx_que_s V) (t : thread V) (ts : list (thread V)).

(** [k] objects of a ring of [n], from position [s]. *)
Fixpoint ring_take (arr : list V) (n s : Z) (k : nat) : list V :=
  match k with
  | O => []
  | S k => option_list (arr !! Z.to_nat (s mod n)) ++ ring_take arr n (s + 1) k
  end.

(** The objects in the queue, oldest first. *)
Definition content q : list V :=
  ring_take (array q) (n_objects q) (slot q) (Z.to_nat (n_used q)).

Record que_ok (n : Z) q : Prop := QueOk {
  que_ok_n : n_objects q = n;
  que_ok_pos : 0 < n;
  que_ok_len : Z.of_nat (length (array q)) = n;
  que_ok_slot : 0 <= slot q <= n;
  que_ok_used : 0 <= n_used q <= n }.

Lemma rem_mod a b : 0 <= a -> 0 < b -> Z.rem a b = a mod b.
Proof. intros. apply Z.rem_mod_nonneg; lia. Qed.

Lemma ring_take_congr arr n s s' k :
  s mod n = s' mod n -> ring_take arr n s k = ring_take arr n s' k.
Proof.
  revert s s'. induction k as [|k IH]; intros s s' E; simpl; [done|]. rewrite E. f_equal.
  apply IH. by rewrite <- (Zplus_mod_idemp_l s), E, Zplus_mod_idemp_l.
Qed.

Lemma ring_take_snoc arr n s k :
  ring_take arr n s (S k) = ring_take arr n s k ++ option_list (arr !! Z.to_nat ((s + Z.of_nat k) mod n)).
Proof.
  revert s. induction k as [|k IH]; intros s.
  - simpl. by rewrite Z.add_0_r, app_nil_r.
  - change (ring_take arr n s (S (S k)))
      with (option_list (arr !! Z.to_nat (s mod n)) ++ ring_take arr n (s + 1) (S k)).
    rewrite IH, app_assoc. do 5 f_equal. lia.
Qed.

(** Writing past the end of the taken part does not show. *)
Lemma ring_take_insert arr n s k j o :
  0 < n -> Z.of_nat k <= j < n ->
  ring_take (<[Z.to_nat ((s + j) mod n) := o]> arr) n s k = ring_take arr n s k.
Proof.
  intros Hn. revert s j. induction k as [|k IH]; intros s j Hj; [done|]. cbn [ring_take].
  replace (s + j) with (s + 1 + (j - 1)) by lia. rewrite IH by lia. f_equal.
  rewrite list_lookup_insert_ne; [done|]. intros E.
  pose proof (Z.mod_pos_bound s n Hn). pose proof (Z.mod_pos_bound (s + 1 + (j - 1)) n Hn).
  apply Z2Nat.inj in E; [|lia..]. replace (s + 1 + (j - 1)) with (s + j) in E by lia.
  assert (Hd : j mod n = 0).
  { replace j with ((s + j) - s) by lia. by rewrite Zminus_mod, E, Z.sub_diag. }
  rewrite Z.mod_small in Hd; lia.
Qed.

Lemma put_content n q o gw pw :
  que_ok n q -> n_used q < n ->
  let q' := Que (<[Z.to_nat ((n_used q + slot q) mod n) := o]> (array q)) n (slot q) (n_used q + 1) gw pw in
  que_ok n q' /\ content q' = content q ++ [o].
Proof.
  intros [<- Hp Hl Hs Hu] Hlt. split; [split; simpl; rewrite ?length_insert; lia|].
  unfold content. simpl. replace (Z.to_nat (n_used q + 1)) with (S (Z.to_nat (n_used q))) by lia.
  pose proof (Z.mod_pos_bound (slot q + n_used q) (n_objects q) Hp).
  rewrite ring_take_snoc, (Z.add_comm (n_used q)), ring_take_insert by lia. f_equal.
  rewrite Z2Nat.id by lia. rewrite list_lookup_insert_eq by lia. done.
Qed.

Lemma get_content n q gw pw :
  que_ok n q -> 0 < n_used q ->
  exists v, array q !! Z.to_nat (slot q mod n) = Some v /\
  let q' := Que (array q) n (slot q mod n + 1) (n_used q - 1) gw pw in
  que_ok n q' /\ content q = v :: content q'.
Proof.
  intros [<- Hp Hl Hs Hu] Hlt. pose proof (Z.mod_pos_bound (slot q) (n_objects q) Hp).
  destruct (array q !! Z.to_nat (slot q mod n_objects q)) as [v|] eqn:E;
    [|apply lookup_ge_None in E; lia].
  exists v. split; [done|]. split; [split; simpl; lia|].
  unfold content. simpl. replace (Z.to_nat (n_used q)) with (S (Z.to_nat (n_used q - 1))) by lia.
  simpl. rewrite E. simpl. f_equal. apply ring_take_congr. by rewrite Zplus_mod_idemp_l.
Qed.

(** ** One round *)

Definition round_effect (n : Z) (op : que_op V) q q' (e : round_end V) : Prop :=
  que_ok n q' /\ content q ++ put_log op e = get_log e ++ content q' /\
  match e with
  | REnd err _ => get_waiting q' = get_waiting q /\ put_waiting q' = put_waiting q /\
      (err = 0 \/ n_used q' = n_used q)
  | RWait _ => n_used q' = n_used q /\
      match op with
      | OpGet _ => get_waiting q' = get_waiting q + 1 /\ put_waiting q' = put_waiting q /\ n_used q = 0
      | OpPut _ => get_waiting q' = get_waiting q /\ put_waiting q' = put_waiting q + 1 /\ n_used q = n
      | OpCount => False
      end
  end.

Lemma same_effect n op q e :
  que_ok n q -> put_log op e = [] -> get_log e = [] ->
  match e with REnd _ _ => True | RWait _ => False end -> round_effect n op q q e.
Proof.
  intros Hq Hp Hg He. split; [done|]. rewrite Hp, Hg, app_nil_r. split; [done|].
  destruct e; [|done]. split; [done|]. split; [done|]. by right.
Qed.

Lemma no_luck_cases dt st now1 now2 :
  que_no_luck (V := V) dt st now1 now2 = REnd 1 None \/
  exists st', que_no_luck (V := V) dt st now1 now2 = RWait st'.
Proof. unfold que_no_luck. case_match; [by left|right; by eexists]. Qed.

Lemma put_round_ok n q o dt st now1 now2 :
  que_ok n q -> exists q' e, put_round q o dt st now1 now2 = Ok (q', e) /\ round_effect n (OpPut o) q q' e.
Proof.
  intros Hq. unfold put_round. pose proof Hq as [Hn Hp Hl Hs Hu]. rewrite Hn.
  destruct (Z.ltb_spec (n_used q) n) as [Hlt|Hge].
  - destruct o as [o|]; [|by eexists _, _; split; [done|by apply same_effect]].
    rewrite rem_mod by lia. pose proof (Z.mod_pos_bound (n_used q + slot q) n Hp).
    destruct (_ || _)%bool eqn:Eb; [apply orb_prop in Eb as [?|?]; breflect; lia|].
    destruct (put_content n q o (get_waiting q) (put_waiting q) Hq Hlt) as [Hok Hc].
    eexists _, _. split; [done|]. split; [exact Hok|]. split; [by rewrite Hc|].
    split; [done|]. split; [done|]. by left.
  - destruct (no_luck_cases dt st now1 now2) as [->|[st' ->]];
      [eexists _, _; split; [done|apply same_effect; by destruct o]|].
    eexists _, _. split; [done|]. split; [by split|]. 
    assert (Ep : put_log (OpPut o) (RWait st') = []) by by destruct o.
    rewrite Ep, app_nil_r.
    split; [by unfold content; simpl; rewrite Hn|]. repeat split. lia.
Qed.

Lemma get_round_ok n q b dt st now1 now2 :
  que_ok n q -> exists q' e, get_round q b dt st now1 now2 = Ok (q', e) /\ round_effect n (OpGet b) q q' e.
Proof.
  intros Hq. unfold get_round. pose proof Hq as [Hn Hp Hl Hs Hu]. rewrite Hn, Z.gtb_ltb.
  destruct (Z.ltb_spec 0 (n_used q)) as [Hlt|Hge].
  - destruct b; [|by eexists _, _; split; [done|by apply same_effect]].
    destruct (Z.eqb_spec n 0); [lia|]. rewrite rem_mod by lia.
    pose proof (Z.mod_pos_bound (slot q) n Hp). destruct (Z.ltb_spec (slot q mod n) 0); [lia|].
    destruct (get_content n q (get_waiting q) (put_waiting q) Hq Hlt) as (v & -> & Hok & Hc).
    eexists _, _. split; [done|]. split; [exact Hok|]. simpl. rewrite app_nil_r.
    split; [done|]. split; [done|]. split; [done|]. by left.
  - destruct (no_luck_cases dt st now1 now2) as [->|[st' ->]];
      [by eexists _, _; split; [done|by apply same_effect]|].
    eexists _, _. split; [done|]. split; [by split|]. simpl. rewrite app_nil_r.
    split; [by unfold content; simpl; rewrite Hn|]. repeat split. lia.
Qed.

Lemma que_round_ok n q op dt st now1 now2 :
  que_ok n q -> exists q' e, que_round op q dt st now1 now2 = Ok (q', e) /\ round_effect n op q q' e.
Proof.
  destruct op; simpl; [apply put_round_ok|apply get_round_ok|].
  intros. by eexists _, _; split; [done|by apply same_effect].
Qed.

(** ** The invariant of all interleavings *)

Definition wait_get t : Z := match t with TWait (OpGet _) _ _ _ => 1 | _ => 0 end.
Definition wait_put t : Z := match t with TWait (OpPut _) _ _ _ => 1 | _ => 0 end.
Definition deaf_get t : bool := match t with TWait (OpGet _) _ _ false => true | _ => false end.
Definition deaf_put t : bool := match t with TWait (OpPut _) _ _ false => true | _ => false end.
Definition holder t : bool := match t with TRound _ _ _ | TUnlock _ _ | TCount _ => true | _ => false end.
Definition count_waits t : bool := match t with TWait OpCount _ _ _ => true | _ => false end.

Record que_inv (n : Z) (s : que_state V) : Prop := QueInv {
  inv_q : que_ok n (qs_q s);
  inv_hist : qs_puts s = qs_gets s ++ content (qs_q s);
  inv_gw : get_waiting (qs_q s) = zsum wait_get (qs_threads s);
  inv_pw : put_waiting (qs_q s) = zsum wait_put (qs_threads s);
  inv_hold i t : qs_threads s !! i = Some t -> (holder t = true <-> qs_lock s = Some i);
  inv_get i t : qs_threads s !! i = Some t -> deaf_get t = true -> n_used (qs_q s) = 0;
  inv_put i t : qs_threads s !! i = Some t -> deaf_put t = true -> n_used (qs_q s) = n }.

(** Replacing a thread that is not waiting by one that is not waiting. *)
Lemma inv_replace n q lk lk' now now' ts ps gs i t t' :
  que_inv n (QS q lk now ts ps gs) -> ts !! i = Some t ->
  wait_get t = 0 -> wait_put t = 0 -> wait_get t' = 0 -> wait_put t' = 0 ->
  (lk' = if holder t' then Some i else if holder t then None else lk) ->
  (lk = None \/ lk = Some i \/ (holder t = false /\ holder t' = false)) ->
  que_inv n (QS q lk' now' (<[i := t']> ts) ps gs).
Proof.
  intros [Hq Hh Hg Hp Hho Hge Hpu] Hi W1 W2 W3 W4 Hlk Hcase. simpl in *.
  assert (D : deaf_get t' = false /\ deaf_put t' = false).
  { by destruct t' as [| | |[]|?|]. }
  pose proof (lookup_lt_Some _ _ _ Hi) as Hlt. pose proof (Hho i t Hi) as Hhi.
  split; simpl; try done.
  - rewrite (zsum_insert _ _ _ _ _ Hi). lia.
  - rewrite (zsum_insert _ _ _ _ _ Hi). lia.
  - intros j u Hj. apply list_lookup_insert_Some in Hj as [(Ej & Eu & _)|[Hne Hj]]; [subst j; subst u|].
    + subst lk'. destruct (holder t'); [done|]. split; [done|]. destruct (holder t); [done|].
      intros E. by apply Hhi in E.
    + rewrite (Hho j u Hj). subst lk'. destruct (holder t') eqn:Et'.
      * destruct Hcase as [->|[->|[_ ?]]]; [|done..]. split; intros [=]; congruence.
      * destruct (holder t); [|done]. rewrite (proj1 Hhi eq_refl). split; intros [=]; congruence.
  - intros j u Hj Hd. apply list_lookup_insert_Some in Hj as [(Ej & Eu & _)|[Hne Hj]];
      [subst j; subst u; destruct D; congruence|eauto].
  - intros j u Hj Hd. apply list_lookup_insert_Some in Hj as [(Ej & Eu & _)|[Hne Hj]];
      [subst j; subst u; destruct D; congruence|eauto].
Qed.

Lemma wait_signal wg wp t :
  wait_get (signal wg wp t) = wait_get t /\ wait_put (signal wg wp t) = wait_put t /\
  holder (signal wg wp t) = holder t.
Proof. by destruct t as [| | |[]| |]. Qed.

(** A thread that a broadcast did not wake was not waiting for it. *)
Lemma deaf_signal wg wp t :
  (deaf_get (signal wg wp t) = true -> deaf_get t = true /\ wg = false) /\
  (deaf_put (signal wg wp t) = true -> deaf_put t = true /\ wp = false).
Proof. destruct t as [| | |[] ? ? []| |], wg, wp; simpl; naive_solver. Qed.

Lemma wait_bounds : (forall t, 0 <= wait_get t) /\ (forall t, 0 <= wait_put t).
Proof. split; intros [| | |[]| |]; simpl; lia. Qed.

Lemma deaf_waits t : (deaf_get t = true -> wait_get t = 1) /\ (deaf_put t = true -> wait_put t = 1).
Proof. by destruct t as [| | |[] ? ? []| |]. Qed.

(** The waiting counters see every thread that no broadcast has reached. *)
Lemma deaf_counted n s i t :
  que_inv n s -> qs_threads s !! i = Some t ->
  (deaf_get t = true -> 0 < get_waiting (qs_q s)) /\ (deaf_put t = true -> 0 < put_waiting (qs_q s)).
Proof.
  intros Hinv Hi. rewrite (inv_gw _ _ Hinv), (inv_pw _ _ Hinv).
  destruct wait_bounds as [Bg Bp]. destruct (deaf_waits t) as [Dg Dp].
  pose proof (zsum_lookup wait_get _ _ _ Bg Hi). pose proof (zsum_lookup wait_put _ _ _ Bp Hi).
  split; intros Hd; [specialize (Dg Hd)|specialize (Dp Hd)]; lia.
Qed.

Lemma inv_round n i op dt st q q' e now now2 ts ps gs :
  que_inv n (QS q (Some i) now ts ps gs) -> ts !! i = Some (TRound op dt st) ->
  round_effect n op q q' e ->
  que_inv n (QS q' (match e with REnd _ _ => Some i | RWait _ => None end) now2
    (<[i := after_round op dt e]> (signal (wakes_get q e) (wakes_put q e) <$> ts))
    (ps ++ put_log op e) (gs ++ get_log e)).
Proof.
  intros Hinv Hi (Hok & Hc & He). pose proof Hinv as [Hq Hh Hg Hp Hho Hge Hpu]. simpl in *.
  set (ts' := signal _ _ <$> ts).
  assert (Hi' : ts' !! i = Some (TRound op dt st)) by by unfold ts'; rewrite list_lookup_fmap, Hi.
  assert (Hold : forall j u, ts' !! j = Some u -> exists t, ts !! j = Some t /\
    u = signal (wakes_get q e) (wakes_put q e) t).
  { intros j u Hj. unfold ts' in Hj. rewrite list_lookup_fmap in Hj.
    destruct (ts !! j) as [t|]; [|done]. injection Hj as <-. by exists t. }
  assert (Hsg : zsum wait_get ts' = zsum wait_get ts /\ zsum wait_put ts' = zsum wait_put ts).
  { split; apply zsum_fmap; intros t; apply wait_signal. }
  assert (Hdeaf : forall j u, ts' !! j = Some u ->
    (deaf_get u = true -> n_used q' = 0) /\ (deaf_put u = true -> n_used q' = n)).
  { intros j u Hj. destruct (Hold j u Hj) as (t & Ht & ->).
    destruct (deaf_signal (wakes_get q e) (wakes_put q e) t) as [Dg Dp].
    destruct (deaf_counted n _ j t Hinv Ht) as [Cg Cp]. simpl in Cg, Cp.
    assert (Hsame : (match e with REnd 0 _ => False | _ => True end) -> n_used q' = n_used q).
    { destruct e as [[| |]|]; [done|..]; intros _; [..|apply He]; destruct He as (_ & _ & [?|?]); done. }
    assert (Hs1 : wakes_get q e = false -> 0 < get_waiting q -> n_used q' = n_used q).
    { destruct e as [[| |]|]; simpl; [|by intros; apply Hsame..]. rewrite Z.gtb_ltb. intros ?%Z.ltb_ge. lia. }
    assert (Hs2 : wakes_put q e = false -> 0 < put_waiting q -> n_used q' = n_used q).
    { destruct e as [[| |]|]; simpl; [|by intros; apply Hsame..]. rewrite Z.gtb_ltb. intros ?%Z.ltb_ge. lia. }
    split; intros Hd.
    - destruct (Dg Hd) as [Hd' Hw]. rewrite (Hs1 Hw (Cg Hd')). eauto.
    - destruct (Dp Hd) as [Hd' Hw]. rewrite (Hs2 Hw (Cp Hd')). eauto. }
  split; simpl.
  - done.
  - rewrite Hh, <- !app_assoc. by rewrite Hc.
  - rewrite (zsum_insert _ _ _ _ _ Hi'), (proj1 Hsg). simpl.
    destruct e as [|st']; simpl; [lia|]. destruct op; simpl in *; [lia|lia|by destruct He].
  - rewrite (zsum_insert _ _ _ _ _ Hi'), (proj2 Hsg). simpl.
    destruct e as [|st']; simpl; [lia|]. destruct op; simpl in *; [lia|lia|by destruct He].
  - intros j u Hj. apply list_lookup_insert_Some in Hj as [(Ej & Eu & _)|[Hne Hj]].
    + subst j; subst u. by destruct e.
    + destruct (Hold j u Hj) as (t & Ht & ->). specialize (Hho j t Ht).
      rewrite (proj2 (proj2 (wait_signal _ _ t))), Hho. destruct e; [done|].
      split; intros [=]; congruence.
  - intros j u Hj Hd. apply list_lookup_insert_Some in Hj as [(Ej & Eu & _)|[Hne Hj]].
    + subst j; subst u. destruct e, op; try done; simpl in He; lia.
    + by apply (Hdeaf j u Hj).
  - intros j u Hj Hd. apply list_lookup_insert_Some in Hj as [(Ej & Eu & _)|[Hne Hj]].
    + subst j; subst u. destruct e, op; try done; simpl in He; lia.
    + by apply (Hdeaf j u Hj).
Qed.

Lemma inv_wake n i op dt st sg q now ts ps gs :
  que_inv n (QS q None now ts ps gs) -> ts !! i = Some (TWait op dt st sg) ->
  que_inv n (QS (que_woken op q) (Some i) now (<[i := TRound op dt st]> ts) ps gs).
Proof.
  intros [Hq Hh Hg Hp Hho Hge Hpu] Hi. simpl in *.
  assert (Eu : n_used (que_woken op q) = n_used q) by by destruct op.
  assert (Ec : content (que_woken op q) = content q) by by destruct op.
  assert (Eo : que_ok n (que_woken op q)) by (destruct Hq; by destruct op).
  split; simpl; rewrite ?Eu, ?Ec; try done.
  - rewrite (zsum_insert _ _ _ _ _ Hi). destruct op; simpl; lia.
  - rewrite (zsum_insert _ _ _ _ _ Hi). destruct op; simpl; lia.
  - intros j u Hj. apply list_lookup_insert_Some in Hj as [(Ej & Eu' & _)|[Hne Hj]].
    + subst j; subst u. done.
    + rewrite (Hho j u Hj). split; intros [=]; congruence.
  - intros j u Hj Hd. apply list_lookup_insert_Some in Hj as [(Ej & Eu' & _)|[Hne Hj]];
      [by subst u|eauto].
  - intros j u Hj Hd. apply list_lookup_insert_Some in Hj as [(Ej & Eu' & _)|[Hne Hj]];
      [by subst u|eauto].
Qed.

Lemma inv_step n s s' : que_inv n s -> que_step s s' -> que_inv n s'.
Proof.
  intros Hinv Hs. destruct Hs as [| | | |i m q now ts ps gs Hi|i op dt st q q' e now now1 now2 ts ps gs Hi _ _ E| |].
  - by destruct Hinv.
  - eapply inv_replace; [done|done|done..|by right; right].
  - eapply inv_replace; [done|done|done..|by left].
  - eapply inv_replace; [done|done|done..|by left].
  - pose proof (inv_hold _ _ Hinv i _ Hi) as Hh. simpl in Hh. by pose proof (proj1 Hh eq_refl).
  - destruct (que_round_ok n q op dt st now1 now2 (inv_q _ _ Hinv)) as (q2 & e2 & E2 & He).
    rewrite E in E2. injection E2 as <- <-. by eapply inv_round.
  - by eapply inv_wake.
  - eapply inv_replace; [done|done|done..|by right; left].
Qed.

Lemma inv_reach n k s : 0 < n -> que_reach zero n k s -> que_inv n s.
Proof.
  intros Hn. induction 1 as [|s s' _ IH Hs]; [|by eapply inv_step].
  assert (Hr : forall i t, replicate k (@TIdle V) !! i = Some t -> t = TIdle).
  { intros i t Hi. by apply lookup_replicate in Hi as [? _]. }
  assert (Hz : forall f : thread V -> Z, f TIdle = 0 -> zsum f (replicate k TIdle) = 0).
  { intros f Hf. clear Hr. induction k as [|k IH]; simpl; [done|]. rewrite IH. lia. }
  split; simpl.
  - split; simpl; rewrite ?length_replicate; lia.
  - done.
  - by rewrite Hz.
  - by rewrite Hz.
  - intros i t Hi. by rewrite (Hr i t Hi).
  - intros i t Hi. by rewrite (Hr i t Hi).
  - intros i t Hi. by rewrite (Hr i t Hi).
Qed.

(** C19: In every interleaving of puts, gets, waits and time-outs the objects
    removed so far followed by those in the ring are the objects stored so
    far, in order; the ring never holds more than its capacity; at most one
    thread is inside a critical section; and no round of a thread faults. *)
Theorem que_fifo n k s :
  0 < n -> que_reach zero n k s ->
  qs_puts s = qs_gets s ++ content (qs_q s) /\ 0 <= n_used (qs_q s) <= n_objects (qs_q s) /\
  (forall i j t u, qs_threads s !! i = Some t -> qs_threads s !! j = Some u ->
     holder t = true -> holder u = true -> i = j) /\
  (forall op dt st now1 now2, exists q' e, que_round op (qs_q s) dt st now1 now2 = Ok (q', e)).
Proof.
  intros Hn Hr. pose proof (inv_reach n k s Hn Hr) as Hinv.
  split; [apply Hinv|]. split.
  { pose proof (inv_q _ _ Hinv) as []. lia. }
  split.
  - intros i j t u Hi Hj Ht Hu. apply (inv_hold _ _ Hinv i t Hi) in Ht.
    apply (inv_hold _ _ Hinv j u Hj) in Hu. congruence.
  - intros op dt st now1 now2.
    destruct (que_round_ok n _ op dt st now1 now2 (inv_q _ _ Hinv)) as (q' & e & ? & _). eauto.
Qed.

(** C25: No wake-up is lost: a thread that waits in [tbx_que_get] and that no
    broadcast has reached since means that the queue is empty, and one in
    [tbx_que_put] that the queue is full. *)
Theorem que_no_lost_wakeup n k s i op dt st :
  0 < n -> que_reach zero n k s -> qs_threads s !! i = Some (TWait op dt st false) ->
  match op with
  | OpGet _ => n_used (qs_q s) = 0
  | OpPut _ => n_used (qs_q s) = n_objects (qs_q s)
  | OpCount => True
  end.
Proof.
  intros Hn Hr Hi. pose proof (inv_reach n k s Hn Hr) as Hinv. destruct op; [| |done].
  - rewrite (que_ok_n _ _ (inv_q _ _ Hinv)). by apply (inv_put _ _ Hinv i _ Hi).
  - by apply (inv_get _ _ Hinv i _ Hi).
Qed.

Lemma count_stuck n s s' i c :
  que_inv n s -> que_step s s' -> qs_threads s !! i = Some (TCount c) -> qs_threads s' !! i = Some (TCount c).
Proof.
  intros Hinv Hs Hi. pose proof (proj1 (inv_hold _ _ Hinv i _ Hi) eq_refl) as Hlk.
  destruct Hs as [|j| | | |j op dt st q q' e now now1 now2 ts ps gs Hj _ _ _| |j err got q now ts ps gs Hj];
    simpl in *; try done.
  - rewrite list_lookup_insert_ne; [done|]. congruence.
  - rewrite list_lookup_insert_ne by congruence. rewrite list_lookup_fmap, Hi. done.
  - rewrite list_lookup_insert_ne; [done|]. congruence.
Qed.

(** [tbx_que_count] locks the mutex a second time instead of unlocking
    it: once a thread has read the count, it never gets past that call in
    any continuation, and no other thread ever holds the lock again. *)
Theorem que_count_deadlock n k s i c :
  0 < n -> que_reach zero n k s -> qs_threads s !! i = Some (TCount c) ->
  forall s', rtc que_step s s' -> qs_threads s' !! i = Some (TCount c) /\ qs_lock s' = Some i.
Proof.
  intros Hn Hr Hi s' Hs. apply (inv_reach n k s Hn) in Hr. induction Hs as [s|s s1 s' H1 _ IH].
  - split; [done|]. by apply (inv_hold _ _ Hr i _ Hi).
  - apply IH; [by eapply inv_step|by eapply count_stuck].
Qed.
End proofs.

(** A run in which thread 0 stores an object and thread 1 waits for one. *)
Definition que_run1 : que_state Z :=
  QS (Que [7; 0] 2 0 1 0 0) (Some 0%nat) 5 [TUnlock 0 None; TIdle] [7] [].

Lemma que_run1_reach : que_reach 0 2 2 que_run1.
Proof.
  eapply reach_step; [eapply reach_step; [eapply reach_step; [apply reach_init|]|]|].
  - by apply (step_call 0 (OpPut (Some 7)) 10).
  - by apply (step_lock 0 (OpPut (Some 7)) 10 0).
  - by apply (step_round 0 (OpPut (Some 7)) 10 0 _ (Que [7; 0] 2 0 1 0 0) (REnd 0 None) 0 1 5).
Qed.

Lemma que_fifo_witness :
  qs_puts que_run1 = qs_gets que_run1 ++ content (qs_q que_run1) /\
  0 <= n_used (qs_q que_run1) <= n_objects (qs_q que_run1) /\
  (forall i j t u, qs_threads que_run1 !! i = Some t -> qs_threads que_run1 !! j = Some u ->
     holder t = true -> holder u = true -> i = j) /\
  (forall op dt st now1 now2, exists q' e, que_round op (qs_q que_run1) dt st now1 now2 = Ok (q', e)).
Proof. apply (que_fifo 0 2 2); [lia|apply que_run1_reach]. Defined.

(** Thread 1 waits in a get on an empty queue. *)
Definition que_run2 : que_state Z :=
  QS (Que [0; 0] 2 0 0 1 0) None 5 [TIdle; TWait (OpGet true) 10 0 false] [] [].

Lemma que_run2_reach : que_reach 0 2 2 que_run2.
Proof.
  eapply reach_step; [eapply reach_step; [eapply reach_step; [apply reach_init|]|]|].
  - by apply (step_call 1 (OpGet true) 10).
  - by apply (step_lock 1 (OpGet true) 10 0).
  - by apply (step_round 1 (OpGet true) 10 0 _ (Que [0; 0] 2 0 0 1 0) (RWait 0) 0 1 5).
Qed.

Lemma que_no_lost_wakeup_witness : n_used (qs_q que_run2) = 0.
Proof. apply (que_no_lost_wakeup 0 2 2 que_run2 1 (OpGet true) 10 0); [lia|apply que_run2_reach|done]. Defined.

Definition que_run3 : que_state Z :=
  QS (Que [0; 0] 2 0 0 0 0) (Some 0%nat) 0 [TCount 0; TIdle] [] [].

Lemma que_run3_reach : que_reach 0 2 2 que_run3.
Proof.
  eapply reach_step; [eapply reach_step; [apply reach_init|]|].
  - by apply (step_call 0 OpCount 10).
  - by apply (step_count_lock 0 10 0 (Que [0; 0] 2 0 0 0 0) 0 [TLock OpCount 10 0; TIdle]).
Qed.

Lemma que_count_deadlock_witness :
  qs_threads que_run3 !! 0%nat = Some (TCount 0) /\ qs_lock que_run3 = Some 0%nat.
Proof. apply (que_count_deadlock 0 2 2 que_run3 0 0); [lia|apply que_run3_reach|done|done]. Defined.
