(* ===== verification/StringToken.v ===== *)
(** * Tokens, escaping, and numbers with units ([src/src/toolbox/string_token.c])

    Characters are [ascii]; memory that holds a C string is the list of its
    characters with the terminating [NUL] in it, and access outside of the
    list is a fault.  [sprintf] and [sscanf] are modelled for the conversions
    the routines use. *)
From Stdlib Require Import Ascii String.
From S2P Require Import Prelude.
Local Open Scope Z_scope.

Abbreviation chars := (list ascii).
Definition NUL : ascii := "000"%char.
Definition lit (s : string) : chars := list_ascii_of_string s.

#[export] Instance ascii_eqdec : EqDecision ascii := ascii_dec.

(** ** C strings in memory *)

Definition mem_get (mem : chars) (p : Z) : res ascii :=
  if p <? 0 then Fault OutOfBounds
  else match mem !! Z.to_nat p with Some c => Ok c | None => Fault OutOfBounds end.

Definition mem_set (mem : chars) (p : Z) (c : ascii) : res chars :=
  if (p <? 0) || (p >=? Z.of_nat (length mem)) then Fault OutOfBounds
  else Ok (<[Z.to_nat p := c]> mem).

(** The characters before the first [NUL]; [None] when there is none. *)
Fixpoint until_nul (s : chars) : option chars :=
  match s with
  | [] => None
  | c :: s => if decide (c = NUL) then Some [] else cons c <$> until_nul s
  end.

(** The string at [p]. *)
Definition c_str (mem : chars) (p : Z) : res chars :=
  if (p <? 0) || (p >? Z.of_nat (length mem)) then Fault OutOfBounds
  else match until_nul (drop (Z.to_nat p) mem) with
       | Some s => Ok s
       | None => Fault OutOfBounds
       end.

Definition c_strlen (mem : chars) (p : Z) : res Z :=
  s ← c_str mem p; Ok (Z.of_nat (length s)).

(** [index(set, c) != NULL] for a character that is not [NUL]. *)
Definition in_set (set : chars) (c : ascii) : bool := bool_decide (c ∈ set).

(** ** Escaped tokens *)

Fixpoint skip_delims (fuel : nat) (mem : chars) (p ndata : Z) (delims : chars) (n : Z) : res Z :=
  match fuel with
  | O => Fault OutOfFuel
  | S fuel =>
      if n <? ndata then
        c ← mem_get mem (p + n);
        if in_set delims c then skip_delims fuel mem p ndata delims (n + 1) else Ok n
      else Ok n
  end.

Fixpoint scan_token (fuel : nat) (mem : chars) (p ndata : Z) (delims : chars) (esc : ascii) (n : Z) : res Z :=
  match fuel with
  | O => Fault OutOfFuel
  | S fuel =>
      if n <? ndata then
        c ← mem_get mem (p + n);
        if in_set delims c then Ok n
        else scan_token fuel mem p ndata delims esc ((if decide (c = esc) then n + 1 else n) + 1)
      else Ok n
  end.

(** The token ([None] stands for [&NULL_TERMINATOR]), the changed memory,
    [*last] and [*finished]. *)
Definition tbx_stk_escape_string_token (mem : chars) (str : option Z) (delims : chars) (esc : ascii)
    (compress_delims : bool) (last : option Z) : res (option Z * chars * option Z * Z) :=
  match (match str with None => last | Some _ => str end) with
  | None => Ok (None, mem, None, 1)
  | Some ptr =>
      ndata ← c_strlen mem ptr;
      let fuel := S (Z.to_nat ndata) in
      n ← (if compress_delims then skip_delims fuel mem ptr ndata delims 0 else Ok 0);
      let token := ptr + n in
      n ← scan_token fuel mem ptr ndata delims esc n;
      mem ← mem_set mem (ptr + n) NUL;
      if n >=? ndata - 1 then Ok (Some token, mem, None, 1)
      else Ok (Some token, mem, Some (ptr + n + 1), 0)
  end.

(** [&(data\[n\])], as the offset [n]. *)
Fixpoint escape_strchr_loop (fuel : nat) (mem : chars) (p ndata : Z) (esc mtch : ascii) (n : Z) : res Z :=
  match fuel with
  | O => Fault OutOfFuel
  | S fuel =>
      if n <? ndata then
        c ← mem_get mem (p + n);
        if decide (c = mtch) then Ok n
        else escape_strchr_loop fuel mem p ndata esc mtch ((if decide (c = esc) then n + 1 else n) + 1)
      else Ok n
  end.

Definition tbx_stk_escape_strchr (esc : ascii) (mem : chars) (p : Z) (mtch : ascii) : res Z :=
  ndata ← c_strlen mem p;
  escape_strchr_loop (S (Z.to_nat ndata)) mem p ndata esc mtch 0.

(** ** Escaping *)

Definition needs_escape (special : chars) (esc c : ascii) : bool :=
  bool_decide (c = esc) || in_set special c.

Fixpoint escape_count (special : chars) (esc : ascii) (data : chars) : Z :=
  match data with
  | [] => 0
  | c :: data => (if needs_escape special esc c then 1 else 0) + escape_count special esc data
  end.

(** [str\[j\] = c; j++] after [FATAL_UNLESS(j < output_len)]; [str] is what has
    been written so far. *)
Definition fatal_put (output_len : Z) (str : chars) (c : ascii) : res chars :=
  if Z.of_nat (length str) <? output_len then Ok (str ++ [c]) else Fault Aborted.

Fixpoint escape_text_loop (special : chars) (esc : ascii) (output_len : Z) (data str : chars) : res chars :=
  match data with
  | [] => Ok str
  | c :: data =>
      str ← (if needs_escape special esc c then fatal_put output_len str esc else Ok str);
      str ← fatal_put output_len str c;
      escape_text_loop special esc output_len data str
  end.

(** The result is the memory allocated for it, terminator included. *)
Definition tbx_stk_escape_text (special : chars) (esc : ascii) (data : chars) : res chars :=
  let n := escape_count special esc data in
  let output_len := Z.of_nat (length data) + n + 1 in
  str ← escape_text_loop special esc output_len data [];
  fatal_put output_len str NUL.

(** An escape at the very end leaves a cleared byte in its place. *)
Fixpoint unescape_loop (esc : ascii) (data : chars) : chars :=
  match data with
  | [] => []
  | c :: data =>
      if decide (c = esc)
      then match data with [] => [NUL] | c' :: data => c' :: unescape_loop esc data end
      else c :: unescape_loop esc data
  end.

Definition tbx_stk_unescape_text (esc : ascii) (data : chars) : chars :=
  unescape_loop esc data ++ [NUL].

(** ** Escape sequences of arguments *)

Definition special_chars : chars := lit "abfnrtv\".
Definition replace_chars : chars :=
  ["007"; "008"; "012"; "010"; "013"; "009"; "011"; "\"]%char.

(** [replace\[k\]] for the first [k] with [special\[k\] == c]. *)
Fixpoint find_special (c : ascii) (sp rp : chars) : option ascii :=
  match sp, rp with
  | s :: sp, r :: rp => if decide (c = s) then Some r else find_special c sp rp
  | _, _ => None
  end.

(** The loop over [i], which stops before the last character, and the
    assignment after it, which copies the last character unless the last
    round of the loop made a substitution. *)
Fixpoint argv2format_loop (arg : chars) : chars :=
  match arg with
  | [] => []
  | [c] => [c]
  | c :: (d :: arg') as rest =>
      if decide (c = "\"%char) then
        match find_special d special_chars replace_chars with
        | Some r => r :: match arg' with [_] => [] | _ => argv2format_loop arg' end
        | None => c :: argv2format_loop rest
        end
      else c :: argv2format_loop rest
  end.

Definition tbx_stk_argv2format (arg : chars) : chars := argv2format_loop arg ++ [NUL].

(** ** Numbers *)

Definition is_digit (c : ascii) : bool :=
  let n := Z.of_N (N_of_ascii c) in (48 <=? n) && (n <=? 57).
Definition digit_val (c : ascii) : Z := Z.of_N (N_of_ascii c) - 48.
Definition digit_char (d : Z) : ascii := ascii_of_N (Z.to_N (48 + d)).

Definition is_space (c : ascii) : bool :=
  in_set (" " :: "009" :: "010" :: "011" :: "012" :: "013" :: [])%char c.

(** The decimal digits of a non-negative number of at most [fuel] digits. *)
Fixpoint print_digits (fuel : nat) (n : Z) (acc : chars) : chars :=
  match fuel with
  | O => acc
  | S fuel =>
      let acc := digit_char (n mod 10) :: acc in
      if n / 10 =? 0 then acc else print_digits fuel (n / 10) acc
  end.

(** [%d], [%ld]: at most 20 digits for 64 bits. *)
Definition fmt_int (n : Z) : chars :=
  if n <? 0 then "-"%char :: print_digits 20 (- n) [] else print_digits 20 n [].

(** [%0wd]: zeros go between the sign and the digits. *)
Definition fmt_pad (w : nat) (n : Z) : chars :=
  let sign := if n <? 0 then ["-"%char] else [] in
  let ds := print_digits 20 (Z.abs n) [] in
  sign ++ replicate (w - length sign - length ds) "0"%char ++ ds.

(** The digits at the front of a string: the value and whether there were
    any. *)
Fixpoint read_digits (acc : Z) (s : chars) : Z :=
  match s with
  | [] => acc
  | c :: s => if is_digit c then read_digits (10 * acc + digit_val c) s else acc
  end.

Fixpoint skip_space (s : chars) : chars :=
  match s with [] => [] | c :: s' => if is_space c then skip_space s' else s end.

(** [sscanf(s, "%d", &t)]: [None] when the conversion fails. *)
Definition scan_int (s : chars) : option Z :=
  let s := skip_space s in
  let '(neg, s) := match s with
                   | "-"%char :: s' => (true, s')
                   | "+"%char :: s' => (false, s')
                   | _ => (false, s)
                   end in
  match s with
  | c :: _ => if is_digit c then Some (if neg then - read_digits 0 s else read_digits 0 s) else None
  | [] => None
  end.

(** [strncpy(string, value, 100)] into an array of 100 characters. *)
Definition copy100 (value : chars) : chars :=
  take 100 (value ++ replicate (100 - length value) NUL).

Definition chk64 (x : Z) : res Z := if int64_ok x then Ok x else Fault Overflow.
Definition chk32 (x : Z) : res Z := if int32_ok x then Ok x else Fault Overflow.

(** The scale factor and the modified token. *)
Definition scale_of (base : Z) (token : chars) : Z * chars :=
  match last token with
  | None => (base, token)
  | Some c =>
      let cut := take (length token - 1) token in
      if in_set (lit "b") c then (1, cut)
      else if in_set (lit "Kk") c then (base, cut)
      else if in_set (lit "Mm") c then (base * base, cut)
      else if in_set (lit "Gg") c then (base * base * base, cut)
      else if in_set (lit "Tt") c then (base * base * base * base, cut)
      else (1, token)
  end.

Definition split_token_into_number_and_scale (token : chars) : Z * chars :=
  match last token with
  | None => (1, token)
  | Some c =>
      if in_set (lit "Ii") c then scale_of 1024 (take (length token - 1) token)
      else scale_of 1000 token
  end.

(** A failed conversion leaves the local [n] uninitialised. *)
Definition tbx_stk_string_get_integer (value : chars) : res Z :=
  s ← c_str (copy100 value) 0;
  let '(scale, s) := split_token_into_number_and_scale s in
  match scan_int s with
  | None => Fault Uninitialised
  | Some n => n ← chk64 n; chk64 (scale * n)
  end.

Definition apr_time_from_sec (sec : Z) : Z := sec * 1000000.
Definition apr_time_sec (t : Z) : Z := Z.quot t 1000000.

(** The factor of a unit letter. *)
Definition time_unit (unit : ascii) : option Z :=
  if in_set (lit "Dd") unit then Some (apr_time_from_sec (24 * 3600))
  else if in_set (lit "Hh") unit then Some (apr_time_from_sec 3600)
  else if in_set (lit "Mm") unit then Some (apr_time_from_sec 60)
  else if in_set (lit "Ss") unit then Some (apr_time_from_sec 1)
  else if in_set (lit "Uu") unit then Some 1
  else None.

(** [sscanf(.., "%d", &t)]: [t] keeps its old value when the conversion
    fails; [None] is an uninitialised [t]. *)
Definition scan_t (s : chars) (t : option Z) : res (option Z) :=
  match scan_int s with
  | Some n => n ← chk32 n; Ok (Some n)
  | None => Ok t
  end.

Definition use_t (t : option Z) : res Z :=
  match t with Some t => Ok t | None => Fault Uninitialised end.

(** The loop over the characters: [num] is [string+j] up to the current
    position. *)
Fixpoint get_time_loop (s num : chars) (dt : Z) (t : option Z) : res Z :=
  match s with
  | [] => match num with
          | [] => Ok dt
          | _ => t ← scan_t num t; t ← use_t t; chk64 (dt + t)
          end
  | c :: s =>
      if is_digit c then get_time_loop s (num ++ [c]) dt t
      else
        t ← scan_t num t;
        match time_unit c with
        | None => Ok 0
        | Some u =>
            t' ← use_t t;
            x ← chk64 (t' * u);
            dt ← chk64 (dt + x);
            get_time_loop s [] dt t
        end
  end.

Definition tbx_stk_string_get_time (value : chars) : res Z :=
  s ← c_str (copy100 value) 0;
  get_time_loop s [] 0 None.

(** [char *unit="\0KMGTPE"] with its terminator. *)
Definition scale_units : chars := NUL :: lit "KMGTPE" ++ [NUL].

(** The loop that divides by [base]: returns [n] and [i]. *)
Fixpoint scale_loop (k : nat) (base n : Z) (i : nat) : Z * nat :=
  match k with
  | O => (n, i)
  | S k => if Z.rem (Z.abs n) base =? 0 then scale_loop k base (Z.quot n base) (S i) else (n, i)
  end.

(** The characters [sprintf] writes, a [NUL] included. *)
Definition tbx_stk_pretty_print_int_with_scale (value : Z) : chars :=
  let base := if Z.rem value 1000 =? 0 then 1000
              else if Z.rem value 1024 =? 0 then 1024 else 1 in
  if base =? 1 then fmt_int value ++ [NUL]
  else
    let '(n, i) := scale_loop 7 base value 0 in
    let u := default NUL (scale_units !! i) in
    if base =? 1024 then
      if decide (i = O) then fmt_int n ++ [u; " "%char; NUL] else fmt_int n ++ [u; "i"%char; NUL]
    else fmt_int n ++ [u; " "%char; NUL].

(** The fields are [int]s. *)
Definition tbx_stk_pretty_print_time (dt : Z) (use_days : bool) : chars :=
  let hours := to_signed 32 (Z.quot (apr_time_sec dt) 3600) in
  let min := to_signed 32 (Z.rem (Z.quot (apr_time_sec dt) 60) 60) in
  let sec := to_signed 32 (Z.rem (apr_time_sec dt) 60) in
  let usec := to_signed 32 (Z.rem dt (apr_time_from_sec 1)) in
  let tail := fmt_pad 2 min ++ lit "m" ++ fmt_pad 2 sec ++ lit "s" ++ fmt_pad 6 usec ++ lit "u" ++ [NUL] in
  if use_days then
    let days := Z.quot hours 24 in
    let hours := Z.rem hours 24 in
    fmt_int days ++ lit "d" ++ fmt_pad 2 hours ++ lit "h" ++ tail
  else fmt_int hours ++ lit "h" ++ tail.

(** ** Trimming *)

Fixpoint trim_front (fuel : nat) (mem : chars) (i : Z) : res Z :=
  match fuel with
  | O => Fault OutOfFuel
  | S fuel => c ← mem_get mem i; if decide (c = " "%char) then trim_front fuel mem (i + 1) else Ok i
  end.

(** [start] and [i] are offsets into the allocation. *)
Fixpoint trim_back (fuel : nat) (mem : chars) (start i : Z) : res Z :=
  match fuel with
  | O => Fault OutOfFuel
  | S fuel => c ← mem_get mem (start + i); if decide (c = " "%char) then trim_back fuel mem start (i - 1) else Ok i
  end.

(** Returns [start] and the changed memory. *)
Definition tbx_stk_string_trim (mem : chars) (str : Z) : res (Z * chars) :=
  start ← trim_front (S (length mem)) mem str;
  n ← c_strlen mem start;
  i ← trim_back (S (length mem)) mem start (n - 1);
  mem ← mem_set mem (start + i + 1) NUL;
  Ok (start, mem).

(** ** Escaping loses nothing *)

(** The escaped text as a function of the text. *)
Fixpoint esc_list (special : chars) (esc : ascii) (data : chars) : chars :=
  match data with
  | [] => []
  | c :: data => (if needs_escape special esc c then [esc; c] else [c]) ++ esc_list special esc data
  end.

Lemma escape_count_nonneg special esc data : 0 <= escape_count special esc data.
Proof. induction data; simpl; [lia|]. case_match; lia. Qed.

Lemma esc_list_length special esc data :
  Z.of_nat (length (esc_list special esc data)) = Z.of_nat (length data) + escape_count special esc data.
Proof. induction data as [|c data IH]; simpl; [done|]. rewrite length_app. case_match; simpl; lia. Qed.

Lemma fatal_put_ok len str c : Z.of_nat (length str) < len -> fatal_put len str c = Ok (str ++ [c]).
Proof. intros. unfold fatal_put. by rewrite (proj2 (Z.ltb_lt _ _)). Qed.

Lemma escape_text_loop_ok special esc len data str :
  Z.of_nat (length str) + Z.of_nat (length data) + escape_count special esc data < len ->
  escape_text_loop special esc len data str = Ok (str ++ esc_list special esc data).
Proof.
  revert str. induction data as [|c data IH]; intros str Hl; simpl in *; [by rewrite app_nil_r|].
  pose proof (escape_count_nonneg special esc data).
  destruct (needs_escape special esc c); simpl.
  - rewrite fatal_put_ok by lia. simpl. rewrite fatal_put_ok by (rewrite length_app; simpl; lia). simpl.
    rewrite IH by (rewrite !length_app; simpl; lia). by rewrite <- !app_assoc.
  - rewrite fatal_put_ok by lia. simpl. rewrite IH by (rewrite length_app; simpl; lia).
    by rewrite <- app_assoc.
Qed.

Lemma escape_text_ok special esc data :
  tbx_stk_escape_text special esc data = Ok (esc_list special esc data ++ [NUL]).
Proof.
  unfold tbx_stk_escape_text. pose proof (escape_count_nonneg special esc data).
  rewrite escape_text_loop_ok by (simpl; lia). simpl. apply fatal_put_ok.
  rewrite esc_list_length. lia.
Qed.

Lemma unescape_esc_list special esc data : unescape_loop esc (esc_list special esc data) = data.
Proof.
  induction data as [|c data IH]; simpl; [done|].
  destruct (needs_escape special esc c) eqn:E; simpl.
  - rewrite decide_True by done. by rewrite IH.
  - rewrite decide_False; [by rewrite IH|]. intros ->. unfold needs_escape in E.
    by rewrite bool_decide_true in E.
Qed.

(** C34: Escaping a text never runs out of the space computed for it, uses
    exactly that space, and unescaping the result gives the text back. *)
Theorem escape_roundtrip special esc data :
  exists e, tbx_stk_escape_text special esc data = Ok (e ++ [NUL]) /\
    Z.of_nat (length e) = Z.of_nat (length data) + escape_count special esc data /\
    tbx_stk_unescape_text esc e = data ++ [NUL].
Proof.
  exists (esc_list special esc data). split; [apply escape_text_ok|].
  split; [apply esc_list_length|]. unfold tbx_stk_unescape_text. by rewrite unescape_esc_list.
Qed.

(** ** Splitting an escaped text into tokens *)

(** How far [scan_token] moves over a string. *)
Fixpoint scan_list (delims : chars) (esc : ascii) (s : chars) : nat :=
  match s with
  | [] => O
  | c :: s =>
      if in_set delims c then O
      else if decide (c = esc)
           then match s with [] => 2 | _ :: s => S (S (scan_list delims esc s)) end
           else S (scan_list delims esc s)
  end.

(** Memory with the string [s] at [p]. *)
Definition str_at (mem : chars) (p : Z) (s : chars) : Prop :=
  0 <= p /\ exists post, drop (Z.to_nat p) mem = s ++ NUL :: post.

Lemma until_nul_app s post : NUL ∉ s -> until_nul (s ++ NUL :: post) = Some s.
Proof.
  induction s as [|c s IH]; intros Hn; simpl; [done|].
  rewrite decide_False by set_solver. rewrite IH by set_solver. done.
Qed.

Lemma str_at_len mem p s : str_at mem p s -> p + Z.of_nat (length s) < Z.of_nat (length mem).
Proof.
  intros [Hp [post Hd]]. pose proof (f_equal length Hd) as E.
  rewrite length_drop, length_app in E. simpl in E. lia.
Qed.

Lemma str_at_strlen mem p s : NUL ∉ s -> str_at mem p s -> c_strlen mem p = Ok (Z.of_nat (length s)).
Proof.
  intros Hn Hs. pose proof (str_at_len _ _ _ Hs). destruct Hs as [Hp [post Hd]].
  unfold c_strlen, c_str. destruct (_ || _)%bool eqn:E.
  { apply orb_prop in E as [?|?]; breflect; lia. }
  by rewrite Hd, until_nul_app.
Qed.

Lemma str_at_get mem p s i c : str_at mem p s -> s !! i = Some c -> mem_get mem (p + Z.of_nat i) = Ok c.
Proof.
  intros [Hp [post Hd]] Hi. unfold mem_get. destruct (Z.ltb_spec (p + Z.of_nat i) 0); [lia|].
  replace (Z.to_nat (p + Z.of_nat i)) with (Z.to_nat p + i)%nat by lia.
  rewrite <- lookup_drop, Hd, (lookup_app_l_Some _ _ _ _ Hi). done.
Qed.

Lemma scan_token_ok fuel mem p s delims esc n :
  str_at mem p s -> (n <= length s + 1)%nat -> (length s - n < fuel)%nat ->
  scan_token fuel mem p (Z.of_nat (length s)) delims esc (Z.of_nat n) =
    Ok (Z.of_nat (n + scan_list delims esc (drop n s))).
Proof.
  intros Hs. revert n. induction fuel as [|fuel IH]; intros n Hn Hf; [lia|]. cbn [scan_token].
  destruct (s !! n) as [c|] eqn:E.
  - pose proof (lookup_lt_Some _ _ _ E). rewrite (proj2 (Z.ltb_lt _ _)) by lia.
    rewrite (str_at_get _ _ _ _ _ Hs E). cbn [mbind res_bind].
    rewrite (drop_S _ _ _ E). cbn [scan_list]. destruct (in_set delims c); [by rewrite Nat.add_0_r|].
    destruct (decide (c = esc)).
    + replace (Z.of_nat n + 1 + 1) with (Z.of_nat (S (S n))) by lia. rewrite IH by lia.
      destruct (drop (S n) s) as [|c' s'] eqn:Ed.
      * apply (f_equal length) in Ed. rewrite length_drop in Ed. simpl in Ed.
        rewrite drop_ge by lia. simpl. f_equal. lia.
      * assert (Hd2 : drop (S (S n)) s = s').
        { change (S (S n)) with (1 + S n)%nat. rewrite Nat.add_comm, <- drop_drop, Ed. done. }
        rewrite Hd2. f_equal. lia.
    + replace (Z.of_nat n + 1) with (Z.of_nat (S n)) by lia. rewrite IH by lia. f_equal. lia.
  - apply lookup_ge_None in E. rewrite (proj2 (Z.ltb_ge _ _)) by lia.
    rewrite drop_ge by lia. simpl. f_equal. lia.
Qed.

Lemma scan_esc_list special delims esc t rest :
  (forall c, c ∈ delims -> c ∈ special) -> esc ∉ delims ->
  scan_list delims esc (esc_list special esc t ++ rest) =
    (length (esc_list special esc t) + scan_list delims esc rest)%nat.
Proof.
  intros Hsub Hesc. induction t as [|c t IH]; [done|]. cbn [esc_list].
  destruct (needs_escape special esc c) eqn:E; cbn [app scan_list length].
  - unfold in_set at 1. rewrite bool_decide_false by done. rewrite decide_True by done. by rewrite IH.
  - unfold needs_escape in E. apply orb_false_iff in E as [E1 E2].
    apply bool_decide_eq_false_1 in E1. unfold in_set in E2. apply bool_decide_eq_false_1 in E2.
    unfold in_set at 1. rewrite bool_decide_false by eauto. rewrite decide_False by done. by rewrite IH.
Qed.

Lemma esc_list_nonul special esc t : esc <> NUL -> NUL ∉ t -> NUL ∉ esc_list special esc t.
Proof.
  intros He. induction t as [|c t IH]; simpl; [done|]. intros Hn. case_match; set_solver.
Qed.

(** All the tokens of a text, as a caller collects them. *)
Fixpoint token_run (fuel : nat) (mem : chars) (str : option Z) (delims : chars) (esc : ascii)
    (last : option Z) : res (list chars) :=
  match fuel with
  | O => Fault OutOfFuel
  | S fuel =>
      '(tok, mem, last, fin) ← tbx_stk_escape_string_token mem str delims esc false last;
      s ← match tok with None => Ok [] | Some p => c_str mem p end;
      if fin =? 1 then Ok [s]
      else rest ← token_run fuel mem None delims esc last; Ok (s :: rest)
  end.

Fixpoint joined (d : ascii) (ts : list chars) : chars :=
  match ts with
  | [] => []
  | [t] => t
  | t :: ts => t ++ d :: joined d ts
  end.

Lemma mem_set_ok mem p c : 0 <= p < Z.of_nat (length mem) -> mem_set mem p c = Ok (<[Z.to_nat p := c]> mem).
Proof.
  intros. unfold mem_set. destruct (_ || _)%bool eqn:E; [|done].
  apply orb_prop in E as [?|?]; breflect; lia.
Qed.

Lemma drop_insert_at (mem : chars) p i c :
  0 <= p -> drop (Z.to_nat p) (<[Z.to_nat (p + Z.of_nat i) := c]> mem) = <[i := c]> (drop (Z.to_nat p) mem).
Proof.
  intros. rewrite drop_insert_ge by lia. f_equal. lia.
Qed.

Lemma insert_after (s1 : chars) x y s2 : <[length s1 := y]> (s1 ++ x :: s2) = s1 ++ y :: s2.
Proof. rewrite insert_app_r_alt by lia. by rewrite Nat.sub_diag. Qed.

Lemma str_at_c_str mem p s : NUL ∉ s -> str_at mem p s -> c_str mem p = Ok s.
Proof.
  intros Hn Hs. pose proof (str_at_len _ _ _ Hs). destruct Hs as [Hp [post Hd]].
  unfold c_str. destruct (_ || _)%bool eqn:E; [apply orb_prop in E as [?|?]; breflect; lia|].
  by rewrite Hd, until_nul_app.
Qed.

(** One call on a text that starts with an escaped token. *)
Lemma token_call mem p str last e d rest :
  (match str with None => last | Some _ => str end) = Some p ->
  forall esc, NUL ∉ e -> NUL ∉ rest -> d <> NUL -> rest <> [] ->
  scan_list [d] esc (e ++ d :: rest) = length e ->
  str_at mem p (e ++ d :: rest) ->
  exists mem', tbx_stk_escape_string_token mem str [d] esc false last
      = Ok (Some p, mem', Some (p + Z.of_nat (length e) + 1), 0) /\
    str_at mem' p e /\ str_at mem' (p + Z.of_nat (length e) + 1) rest /\
    mem' = <[Z.to_nat (p + Z.of_nat (length e)) := NUL]> mem.
Proof.
  intros Hptr esc He Hr Hd Hne Hsc Hs. unfold tbx_stk_escape_string_token. rewrite Hptr.
  pose proof (str_at_len _ _ _ Hs) as Hlen. rewrite length_app in Hlen. simpl in Hlen.
  rewrite (str_at_strlen mem p (e ++ d :: rest)); [|set_solver|done]. cbn [mbind res_bind].
  rewrite (scan_token_ok _ mem p (e ++ d :: rest) [d] esc 0 Hs) by lia. cbn [mbind res_bind].
  rewrite drop_0, Hsc, Nat.add_0_l. destruct Hs as [Hp [post Hdr]].
  rewrite mem_set_ok by lia. cbn [mbind res_bind]. rewrite Z.geb_leb, length_app. cbn [length].
  destruct (Z.leb_spec (Z.of_nat (length e + S (length rest)) - 1) (Z.of_nat (length e)));
    [destruct rest; [done|simpl in *; lia]|].
  rewrite Z.add_0_r. eexists. split; [done|].
  rewrite <- app_assoc in Hdr. cbn [app] in Hdr.
  assert (Hd2 : drop (Z.to_nat p) (<[Z.to_nat (p + Z.of_nat (length e)) := NUL]> mem) = e ++ NUL :: rest ++ NUL :: post).
  { by rewrite drop_insert_at, Hdr, insert_after. }
  split; [split; [done|by eexists]|]. split; [|done]. split; [lia|]. exists post.
  replace (Z.to_nat (p + Z.of_nat (length e) + 1)) with (Z.to_nat p + S (length e))%nat by lia.
  rewrite <- drop_drop, Hd2, drop_app_ge by lia.
  by replace (S (length e) - length e)%nat with 1%nat by lia.
Qed.

Lemma token_call_last mem p str last e d :
  (match str with None => last | Some _ => str end) = Some p ->
  forall esc, NUL ∉ e -> scan_list [d] esc e = length e -> str_at mem p e ->
  exists mem', tbx_stk_escape_string_token mem str [d] esc false last = Ok (Some p, mem', None, 1) /\
    str_at mem' p e /\ mem' = <[Z.to_nat (p + Z.of_nat (length e)) := NUL]> mem.
Proof.
  intros Hptr esc He Hsc Hs. unfold tbx_stk_escape_string_token. rewrite Hptr.
  pose proof (str_at_len _ _ _ Hs) as Hlen.
  rewrite (str_at_strlen mem p e) by done. cbn [mbind res_bind].
  rewrite (scan_token_ok _ mem p e [d] esc 0 Hs) by lia. cbn [mbind res_bind].
  rewrite drop_0, Hsc, Nat.add_0_l. destruct Hs as [Hp [post Hdr]].
  rewrite mem_set_ok by lia. cbn [mbind res_bind]. rewrite Z.geb_leb.
  destruct (Z.leb_spec (Z.of_nat (length e) - 1) (Z.of_nat (length e))); [|lia].
  rewrite Z.add_0_r. eexists. split; [done|]. split; [|done]. split; [done|]. exists post.
  by rewrite drop_insert_at, Hdr, insert_after.
Qed.

Lemma joined_nonempty d ts t : last ts = Some t -> t <> [] -> joined d ts <> [].
Proof.
  destruct ts as [|t0 [|t1 ts]]; simpl; [done|congruence|]. intros _ _ E. by destruct t0.
Qed.

Lemma joined_nonul d special esc ts :
  d <> NUL -> esc <> NUL -> Forall (fun t => NUL ∉ t) ts -> NUL ∉ joined d (esc_list special esc <$> ts).
Proof.
  intros Hd He. induction 1 as [|t ts Ht _ IH]; csimpl; [set_solver|].
  pose proof (esc_list_nonul special esc t He Ht). destruct ts as [|t1 ts]; [done|]. csimpl in *. set_solver.
Qed.

Lemma token_run_ok d esc ts t fuel mem str lst p :
  d <> esc -> d <> NUL -> esc <> NUL -> last ts = Some t -> t <> [] ->
  Forall (fun t => NUL ∉ t) ts -> (length ts <= fuel)%nat ->
  (match str with None => lst | Some _ => str end) = Some p ->
  str_at mem p (joined d (esc_list [d] esc <$> ts)) ->
  token_run fuel mem str [d] esc lst = Ok (esc_list [d] esc <$> ts).
Proof.
  intros Hde Hd He Hlast Ht Hn. revert fuel mem str lst p.
  induction Hn as [|t0 ts Ht0 Hn IH]; intros fuel mem str lst p Hf Hptr Hs; [done|].
  destruct fuel as [|fuel]; [simpl in Hf; lia|]. cbn [token_run].
  pose proof (esc_list_nonul [d] esc t0 He Ht0) as He0.
  assert (Hsc : forall rest, scan_list [d] esc (esc_list [d] esc t0 ++ rest) =
    (length (esc_list [d] esc t0) + scan_list [d] esc rest)%nat).
  { intros. apply scan_esc_list; [done|set_solver]. }
  destruct ts as [|t1 ts].
  - csimpl in *. specialize (Hsc []). rewrite app_nil_r, Nat.add_0_r in Hsc.
    destruct (token_call_last mem p str lst _ d Hptr esc He0 Hsc Hs) as (mem' & -> & Hs' & _).
    cbn [mbind res_bind]. by rewrite (str_at_c_str _ _ _ He0 Hs').
  - assert (Hlast' : last (t1 :: ts) = Some t) by done.
    set (rest := joined d (esc_list [d] esc <$> t1 :: ts)).
    assert (Hne : rest <> []).
    { assert (Hl2 : last (esc_list [d] esc <$> t1 :: ts) = Some (esc_list [d] esc t)) by by rewrite fmap_last, Hlast'.
      apply (joined_nonempty _ _ _ Hl2). destruct t as [|c t]; [done|].
      cbn [esc_list]. by destruct (needs_escape [d] esc c). }
    assert (Hsc0 : scan_list [d] esc (esc_list [d] esc t0 ++ d :: rest) = length (esc_list [d] esc t0)).
    { rewrite Hsc. simpl. unfold in_set. rewrite bool_decide_true by set_solver. lia. }
    destruct (token_call mem p str lst (esc_list [d] esc t0) d rest Hptr esc) as (mem' & -> & Hs0 & Hs1 & _);
      [done|by apply joined_nonul|done|done|done|exact Hs|].
    cbn [mbind res_bind]. rewrite (str_at_c_str _ _ _ He0 Hs0). cbn [mbind res_bind].
    simpl Z.eqb. cbv iota. rewrite (IH Hlast' fuel mem' None (Some (p + Z.of_nat (length (esc_list [d] esc t0)) + 1))
      (p + Z.of_nat (length (esc_list [d] esc t0)) + 1));
      [done|simpl in *; lia|done|exact Hs1].
Qed.

(** C33: Tokens that are escaped, joined with a delimiter other than the escape
    character and then split again with [tbx_stk_escape_string_token], without
    compressing delimiters, come back in order, and unescaping them gives the
    original texts, provided that the last one is not empty. *)
Theorem token_roundtrip d esc ts t :
  d <> esc -> d <> NUL -> esc <> NUL -> last ts = Some t -> t <> [] ->
  Forall (fun t => NUL ∉ t) ts ->
  exists toks, token_run (length ts) (joined d (esc_list [d] esc <$> ts) ++ [NUL]) (Some 0) [d] esc None = Ok toks /\
    tbx_stk_unescape_text esc <$> toks = (fun t => t ++ [NUL]) <$> ts.
Proof.
  intros Hde Hd He Hl Ht Hn. exists (esc_list [d] esc <$> ts). split.
  - eapply token_run_ok; [done..|]. split; [done|]. by exists [].
  - rewrite <- list_fmap_compose. apply list_fmap_ext. intros i s _. simpl.
    unfold tbx_stk_unescape_text. by rewrite unescape_esc_list.
Qed.

Lemma token_roundtrip_witness :
  exists toks, token_run 3 (joined ":" (esc_list [":"] "\" <$> [lit "a:b"; []; lit "c\"]) ++ [NUL])%char
      (Some 0) [":"%char] "\"%char None = Ok toks /\
    tbx_stk_unescape_text "\"%char <$> toks = (fun t => t ++ [NUL]) <$> [lit "a:b"; []; lit "c\"].
Proof.
  apply (token_roundtrip ":"%char "\"%char [lit "a:b"; []; lit "c\"] (lit "c\")); [done..|].
  repeat constructor; apply (bool_decide_unpack _); vm_compute; exact I.
Defined.

(** An empty text at the end is lost: the delimiter before it is taken for the
    end of the string. *)
Lemma token_last_lost :
  token_run 2 (joined ":" [lit "a"; []] ++ [NUL])%char (Some 0) [":"%char] "\"%char None = Ok [lit "a"].
Proof. by vm_compute. Qed.

(** A text that ends in a lone escape character makes the tokenizer
    write one byte past the terminator: on a buffer of exactly the text and
    its terminator the write is out of bounds. *)
Theorem token_escape_overrun d esc s :
  d <> esc -> esc <> NUL -> NUL ∉ s -> d ∉ s -> esc ∉ s ->
  tbx_stk_escape_string_token (s ++ [esc; NUL]) (Some 0) [d] esc false None = Fault OutOfBounds.
Proof.
  intros Hde He Hn Hd Hs. unfold tbx_stk_escape_string_token.
  assert (Hat : str_at (s ++ [esc; NUL]) 0 (s ++ [esc])).
  { split; [done|]. exists []. simpl. by rewrite <- app_assoc. }
  rewrite (str_at_strlen _ _ (s ++ [esc])); [|set_solver|done]. cbn [mbind res_bind].
  rewrite (scan_token_ok _ _ _ (s ++ [esc]) [d] esc 0 Hat) by lia. cbn [mbind res_bind].
  assert (Hsc : scan_list [d] esc (s ++ [esc]) = (length s + 2)%nat).
  { clear Hat Hn. induction s as [|c s IH]; simpl.
    - unfold in_set. rewrite bool_decide_false by set_solver. by rewrite decide_True.
    - unfold in_set. rewrite bool_decide_false by set_solver. rewrite decide_False by set_solver.
      rewrite IH by set_solver. done. }
  rewrite drop_0, Hsc. unfold mem_set. rewrite !length_app. cbn [length].
  destruct (_ || _)%bool eqn:E; [done|]. breflect. lia.
Qed.

Lemma token_escape_overrun_witness :
  tbx_stk_escape_string_token (lit "ab" ++ ["\"; NUL])%char (Some 0) [":"%char] "\"%char false None = Fault OutOfBounds.
Proof.
  apply token_escape_overrun; [done|done|..]; apply (bool_decide_unpack _); vm_compute; exact I.
Defined.

(** ** Decimal numbers *)

Definition digits (ds : chars) : Prop := Forall (fun c => is_digit c = true) ds.

Lemma all_digits (P : Z -> bool) : forallb P (seqZ 0 10) = true -> forall d, 0 <= d < 10 -> P d = true.
Proof.
  intros H d Hd. rewrite forallb_forall in H. apply H, list_elem_of_In, elem_of_seqZ. lia.
Qed.

Lemma digit_char_ok d : 0 <= d < 10 -> is_digit (digit_char d) = true /\ digit_val (digit_char d) = d.
Proof.
  intros Hd. pose proof (all_digits (fun d => is_digit (digit_char d) && (digit_val (digit_char d) =? d))
    eq_refl d Hd) as H. cbv beta in H. breflect. done.
Qed.

Lemma digit_inv c : is_digit c = true -> exists d, 0 <= d < 10 /\ c = digit_char d.
Proof.
  unfold is_digit. intros H. breflect. exists (Z.of_N (N_of_ascii c) - 48). split; [lia|].
  unfold digit_char. rewrite <- (ascii_N_embedding c) at 1. f_equal. lia.
Qed.

Lemma print_digits_ok fuel n acc :
  (0 < fuel)%nat -> 0 <= n < 10 ^ Z.of_nat fuel ->
  exists ds, print_digits fuel n acc = ds ++ acc /\ ds <> [] /\ digits ds /\
    forall a rest, read_digits a (ds ++ rest) = read_digits (a * 10 ^ Z.of_nat (length ds) + n) rest.
Proof.
  revert n acc. induction fuel as [|fuel IH]; intros n acc Hf Hn; [lia|]. cbn [print_digits].
  pose proof (Z.mod_pos_bound n 10 ltac:(lia)) as Hm. destruct (digit_char_ok _ Hm) as [Hd Hv].
  pose proof (Z.div_mod n 10 ltac:(lia)) as Hdm.
  destruct (Z.eqb_spec (n / 10) 0) as [E|E].
  - exists [digit_char (n mod 10)]. split; [done|]. split; [done|]. split; [by repeat constructor|].
    intros a rest. simpl. rewrite Hd, Hv. f_equal. lia.
  - rewrite Nat2Z.inj_succ, Z.pow_succ_r in Hn by lia.
    assert (Hq : 0 <= n / 10) by (apply Z.div_pos; lia).
    destruct (IH (n / 10) (digit_char (n mod 10) :: acc)) as (ds & -> & _ & Hds & Hr).
    { destruct fuel; [simpl in Hn; rewrite Z.div_small in E; lia|lia]. }
    { split; [done|]. apply Z.div_lt_upper_bound; lia. }
    exists (ds ++ [digit_char (n mod 10)]). split; [by rewrite <- app_assoc|].
    split; [by destruct ds|]. split; [apply Forall_app; split; [done|by repeat constructor]|].
    intros a rest. rewrite <- app_assoc, Hr. simpl. rewrite Hd, Hv, length_app. simpl.
    rewrite Nat2Z.inj_add, Z.pow_add_r by lia. change (10 ^ Z.of_nat 1) with 10. f_equal. lia.
Qed.

Lemma print_digits_length fuel n acc k :
  (0 < k)%nat -> 0 <= n < 10 ^ Z.of_nat k -> (length (print_digits fuel n acc) <= k + length acc)%nat.
Proof.
  revert n acc k. induction fuel as [|fuel IH]; intros n acc k Hk Hn; cbn [print_digits]; [lia|].
  destruct (Z.eqb_spec (n / 10) 0) as [E|E]; [simpl; lia|].
  destruct k as [|k]; [lia|]. rewrite Nat2Z.inj_succ, Z.pow_succ_r in Hn by lia.
  destruct (decide (k = O)) as [->|Hk0].
  - simpl in Hn. rewrite Z.div_small in E; lia.
  - specialize (IH (n / 10) (digit_char (n mod 10) :: acc) k ltac:(lia)). simpl in IH.
    assert (0 <= n / 10 < 10 ^ Z.of_nat k); [|lia].
    split; [apply Z.div_pos; lia|apply Z.div_lt_upper_bound; lia].
Qed.

#[global] Arguments print_digits : simpl never.

Lemma read_digits_stop a s : (match s with c :: _ => is_digit c = false | [] => True end) -> read_digits a s = a.
Proof. destruct s; simpl; [done|]. by intros ->. Qed.

(** A digit is neither a blank nor a sign. *)
Lemma digit_plain c : is_digit c = true -> is_space c = false /\ c <> "-"%char /\ c <> "+"%char /\ c <> NUL.
Proof.
  intros (d & Hd & ->)%digit_inv.
  pose proof (all_digits (fun d => negb (is_space (digit_char d)) &&
    bool_decide (digit_char d <> "-"%char /\ digit_char d <> "+"%char /\ digit_char d <> NUL)) eq_refl d Hd) as H.
  cbv beta in H. apply andb_prop in H as [H1 H2]. apply negb_true_iff in H1. apply bool_decide_eq_true_1 in H2.
  tauto.
Qed.

(** The sign [scan_int] looks for. *)
Lemma no_sign (c : ascii) (s : chars) :
  c <> "-"%char -> c <> "+"%char ->
  (match c :: s with "-"%char :: s' => (true, s') | "+"%char :: s' => (false, s')
   | _ => (false, c :: s) end) = (false, c :: s).
Proof. destruct c as [[] [] [] [] [] [] [] []]; done. Qed.

Lemma scan_digits ds n :
  digits ds -> ds <> [] -> read_digits 0 ds = n -> scan_int ds = Some n.
Proof.
  intros Hd Hne Hr. destruct ds as [|c ds]; [done|]. unfold scan_int. cbn [skip_space].
  pose proof (Forall_inv Hd) as Hc. destruct (digit_plain c Hc) as (-> & Hm & Hp & _).
  rewrite (no_sign c ds Hm Hp), Hc. by rewrite Hr.
Qed.

Lemma scan_neg_digits ds n :
  digits ds -> ds <> [] -> read_digits 0 ds = n -> scan_int ("-"%char :: ds) = Some (- n).
Proof.
  intros Hd Hne Hr. destruct ds as [|c ds]; [done|]. unfold scan_int. cbn [skip_space].
  change (is_space "-") with false. cbv iota. by rewrite (Forall_inv Hd), Hr.
Qed.

Definition numeral (s : chars) (n : Z) : Prop := digits s /\ s <> [] /\ read_digits 0 s = n.

Lemma print_numeral n : 0 <= n < 10 ^ 20 -> numeral (print_digits 20 n []) n.
Proof.
  intros Hn. destruct (print_digits_ok 20 n []) as (ds & E & Hne & Hd & Hr); [lia|done|].
  rewrite E, app_nil_r. split; [done|]. split; [done|]. rewrite <- (app_nil_r ds), Hr. simpl. lia.
Qed.

Lemma fmt_pad_numeral w n : 0 <= n < 10 ^ 20 -> numeral (fmt_pad w n) n.
Proof.
  intros Hn. destruct (print_numeral n Hn) as (Hd & Hne & Hr). unfold fmt_pad.
  rewrite (proj2 (Z.ltb_ge _ _)), Z.abs_eq by lia. simpl.
  assert (Hz : forall k s, read_digits 0 (replicate k "0"%char ++ s) = read_digits 0 s).
  { induction k as [|k IH]; intros s; simpl; [done|]. apply IH. }
  split; [apply Forall_app; split; [by apply Forall_replicate|done]|].
  split; [|by rewrite Hz]. intros E. apply app_eq_nil in E as [_ E]. done.
Qed.

Lemma fmt_pad_length w n k :
  (0 < k)%nat -> 0 <= n < 10 ^ Z.of_nat k -> (length (fmt_pad w n) <= Nat.max w k)%nat.
Proof.
  intros Hk Hn. unfold fmt_pad. rewrite (proj2 (Z.ltb_ge _ _)), Z.abs_eq by lia. simpl.
  pose proof (print_digits_length 20 n [] k Hk Hn). simpl in *.
  rewrite length_app, length_replicate. lia.
Qed.

Lemma scan_fmt_int n : - 10 ^ 20 < n < 10 ^ 20 -> scan_int (fmt_int n) = Some n.
Proof.
  intros Hn. unfold fmt_int. destruct (Z.ltb_spec n 0).
  - destruct (print_numeral (- n) ltac:(lia)) as (Hd & Hne & Hr).
    rewrite (scan_neg_digits _ _ Hd Hne Hr). f_equal. lia.
  - destruct (print_numeral n ltac:(lia)) as (Hd & Hne & Hr). by apply scan_digits.
Qed.

Lemma fmt_int_length n : - 10 ^ 20 < n < 10 ^ 20 -> (length (fmt_int n) <= 21)%nat.
Proof.
  intros Hn. unfold fmt_int. destruct (Z.ltb_spec n 0); cbn [length].
  - pose proof (print_digits_length 20 (- n) [] 20 ltac:(lia) ltac:(simpl; lia)). simpl in *. lia.
  - pose proof (print_digits_length 20 n [] 20 ltac:(lia) ltac:(simpl; lia)). simpl in *. lia.
Qed.

Lemma digits_nonul ds : digits ds -> NUL ∉ ds.
Proof.
  intros Hd Hn. unfold digits in Hd. rewrite Forall_forall in Hd. apply Hd in Hn. done.
Qed.

Lemma fmt_int_nonul n : - 10 ^ 20 < n < 10 ^ 20 -> NUL ∉ fmt_int n.
Proof.
  intros Hn. unfold fmt_int. destruct (Z.ltb_spec n 0).
  - destruct (print_numeral (- n) ltac:(lia)) as (Hd & _). apply digits_nonul in Hd. set_solver.
  - destruct (print_numeral n ltac:(lia)) as (Hd & _). by apply digits_nonul.
Qed.

(** A string shorter than the local array survives the copy. *)
Lemma copy100_ok s : NUL ∉ s -> (length s < 100)%nat -> c_str (copy100 s) 0 = Ok s.
Proof.
  intros Hn Hl. apply str_at_c_str; [done|]. split; [done|]. unfold copy100. simpl.
  rewrite take_app_ge by lia. rewrite take_ge by (rewrite length_replicate; lia).
  destruct (100 - length s)%nat as [|k] eqn:E; [lia|]. by exists (replicate k NUL).
Qed.

Lemma c_str_nul s post : NUL ∉ s -> c_str (s ++ NUL :: post) 0 = Ok s.
Proof. intros Hn. apply str_at_c_str; [done|]. split; [done|]. by exists post. Qed.

(** ** Times *)

Lemma get_time_digits ds s num dt t :
  digits ds -> get_time_loop (ds ++ s) num dt t = get_time_loop s (num ++ ds) dt t.
Proof.
  intros Hd. revert num. induction Hd as [|c ds Hc _ IH]; intros num; simpl; [by rewrite app_nil_r|].
  rewrite Hc, IH. by rewrite <- app_assoc.
Qed.

Lemma get_time_field ds v u k s dt t :
  numeral ds v -> is_digit u = false -> time_unit u = Some k ->
  0 <= v < 2 ^ 31 -> 0 <= k -> 0 <= dt -> dt + v * k < 2 ^ 63 ->
  get_time_loop (ds ++ u :: s) [] dt t = get_time_loop s [] (dt + v * k) (Some v).
Proof.
  intros (Hd & Hne & Hr) Hu Hk Hv Hk0 Hdt Hs. rewrite get_time_digits by done. simpl. rewrite Hu.
  unfold scan_t. rewrite (scan_digits ds v Hd Hne Hr). unfold chk32, int32_ok, chk64, int64_ok.
  rewrite (proj2 (Z.leb_le _ _)), (proj2 (Z.ltb_lt _ _)) by lia. simpl. rewrite Hk. simpl.
  assert (0 <= v * k) by nia.
  rewrite (proj2 (Z.leb_le _ _)), (proj2 (Z.ltb_lt _ _)) by lia. simpl.
  rewrite (proj2 (Z.leb_le _ _)), (proj2 (Z.ltb_lt _ _)) by lia. done.
Qed.

(** A printed time is a sequence of numbers, each with its unit. *)
Record time_field := TF { tf_text : chars; tf_val : Z; tf_unit : ascii; tf_scale : Z }.

Definition field_ok (f : time_field) : Prop :=
  numeral (tf_text f) (tf_val f) /\ is_digit (tf_unit f) = false /\ tf_unit f <> NUL /\
  time_unit (tf_unit f) = Some (tf_scale f) /\ 0 <= tf_val f < 2 ^ 31 /\ 0 <= tf_scale f.

Fixpoint render (fs : list time_field) : chars :=
  match fs with [] => [] | f :: fs => tf_text f ++ tf_unit f :: render fs end.

Definition total (fs : list time_field) : Z := zsum (fun f => tf_val f * tf_scale f) fs.

Lemma total_nonneg fs : Forall field_ok fs -> 0 <= total fs.
Proof.
  unfold total. induction 1 as [|f fs Hf _ IH]; simpl; [lia|].
  destruct Hf as (_ & _ & _ & _ & ? & ?). nia.
Qed.

Lemma get_time_render fs dt t :
  Forall field_ok fs -> 0 <= dt -> dt + total fs < 2 ^ 63 ->
  get_time_loop (render fs) [] dt t = Ok (dt + total fs).
Proof.
  intros Hfs. revert dt t. induction Hfs as [|f fs Hf Hfs IH]; intros dt t Hdt Hb.
  - unfold total. simpl. f_equal. lia.
  - pose proof (total_nonneg fs Hfs). unfold total in *. cbn [render zsum] in *.
    destruct Hf as (Hn & Hu & _ & Hk & Hv & Hs).
    rewrite (get_time_field _ _ _ _ _ _ _ Hn Hu Hk) by lia. rewrite IH by nia. f_equal. lia.
Qed.

Lemma render_nonul fs : Forall field_ok fs -> NUL ∉ render fs.
Proof.
  induction 1 as [|f fs Hf _ IH]; cbn [render]; [apply not_elem_of_nil|].
  destruct Hf as ([Hd _] & _ & Hu & _). apply digits_nonul in Hd.
  rewrite elem_of_app, elem_of_cons. intros [?|[?|?]]; [done|by apply Hu|done].
Qed.

Lemma get_time_fields fs :
  Forall field_ok fs -> total fs < 2 ^ 63 -> (length (render fs) < 100)%nat ->
  c_str (render fs ++ [NUL]) 0 = Ok (render fs) /\ tbx_stk_string_get_time (render fs) = Ok (total fs).
Proof.
  intros Hfs Hb Hl. pose proof (render_nonul fs Hfs) as Hn. split; [by apply c_str_nul|].
  unfold tbx_stk_string_get_time. rewrite copy100_ok by done. cbn [mbind res_bind].
  rewrite get_time_render by (done || lia). done.
Qed.

Lemma pad_field w n u k m :
  (0 < m)%nat -> 0 <= n < 10 ^ Z.of_nat m -> n < 2 ^ 31 ->
  is_digit u = false -> u <> NUL -> time_unit u = Some k -> 0 <= k ->
  field_ok (TF (fmt_pad w n) n u k) /\ (length (fmt_pad w n) <= Nat.max w m)%nat.
Proof.
  intros Hm Hn Hn2 Hu Hun Hk Hk0. split; [|by apply fmt_pad_length].
  split; [apply fmt_pad_numeral; simpl; lia|]. simpl. repeat split; (done || lia).
Qed.

Lemma int_field n u k :
  0 <= n < 2 ^ 31 -> is_digit u = false -> u <> NUL -> time_unit u = Some k -> 0 <= k ->
  field_ok (TF (fmt_int n) n u k) /\ (length (fmt_int n) <= 10)%nat.
Proof.
  intros Hn Hu Hun Hk Hk0. unfold fmt_int. rewrite (proj2 (Z.ltb_ge _ _)) by lia. split.
  - split; [apply print_numeral; simpl; lia|]. simpl. repeat split; (done || lia).
  - pose proof (print_digits_length 20 n [] 10) as Hl. simpl in Hl. lia.
Qed.

(** Hours, minutes, seconds and microseconds make up the time. *)
Lemma time_split dt :
  0 <= dt < 2 ^ 31 * 3600 * 1000000 ->
  let s := apr_time_sec dt in
  exists h m c u,
    to_signed 32 (Z.quot s 3600) = h /\ to_signed 32 (Z.rem (Z.quot s 60) 60) = m /\
    to_signed 32 (Z.rem s 60) = c /\ to_signed 32 (Z.rem dt (apr_time_from_sec 1)) = u /\
    0 <= h < 2 ^ 31 /\ 0 <= m < 60 /\ 0 <= c < 60 /\ 0 <= u < 1000000 /\
    dt = h * 3600000000 + m * 60000000 + c * 1000000 + u.
Proof.
  intros Hdt s. unfold apr_time_from_sec.
  assert (Hs : 0 <= s) by (unfold s, apr_time_sec; apply Z.quot_pos; lia).
  assert (Es : dt = 1000000 * s + dt mod 1000000).
  { unfold s, apr_time_sec. rewrite Z.quot_div_nonneg by lia. apply Z.div_mod. lia. }
  pose proof (Z.mod_pos_bound dt 1000000 ltac:(lia)).
  rewrite !Z.rem_mod_nonneg, !Z.quot_div_nonneg by (try apply Z.quot_pos; lia).
  change (1 * 1000000) with 1000000.
  pose proof (Z.div_mod s 60 ltac:(lia)). pose proof (Z.div_mod (s / 60) 60 ltac:(lia)).
  pose proof (Z.mod_pos_bound s 60 ltac:(lia)). pose proof (Z.mod_pos_bound (s / 60) 60 ltac:(lia)).
  assert (E3 : s / 3600 = s / 60 / 60) by by rewrite Z.div_div by lia.
  rewrite !to_signed_small by lia. rewrite E3. eexists _, _, _, _. do 4 (split; [reflexivity|]). lia.
Qed.

(** A time of less than [2^31] hours printed by
    [tbx_stk_pretty_print_time], with or without days, is read back exactly
    by [tbx_stk_string_get_time]. *)
Theorem time_roundtrip dt use_days :
  0 <= dt < 2 ^ 31 * 3600 * 1000000 ->
  exists s, c_str (tbx_stk_pretty_print_time dt use_days) 0 = Ok s /\
    tbx_stk_string_get_time s = Ok dt.
Proof.
  intros Hdt. unfold tbx_stk_pretty_print_time.
  destruct (time_split dt Hdt) as (h & m & c & u & -> & -> & -> & -> & Hh & Hm & Hc & Hu & ->).
  destruct (pad_field 2 m "m" 60000000 2) as [Fm Lm]; [lia|simpl; lia|lia|done|done|done|lia|].
  destruct (pad_field 2 c "s" 1000000 2) as [Fc Lc]; [lia|simpl; lia|lia|done|done|done|lia|].
  destruct (pad_field 6 u "u" 1 6) as [Fu Lu]; [lia|simpl; lia|lia|done|done|done|lia|].
  set (tl := [TF (fmt_pad 2 m) m "m" 60000000; TF (fmt_pad 2 c) c "s" 1000000; TF (fmt_pad 6 u) u "u" 1]).
  assert (Ftl : Forall field_ok tl) by (repeat (apply Forall_cons_2; [done|]); constructor).
  destruct use_days.
  - rewrite Z.quot_div_nonneg, Z.rem_mod_nonneg by lia.
    pose proof (Z.div_mod h 24 ltac:(lia)). pose proof (Z.mod_pos_bound h 24 ltac:(lia)).
    destruct (int_field (h / 24) "d" 86400000000) as [Fd Ld]; [lia|done|done|done|lia|].
    destruct (pad_field 2 (h mod 24) "h" 3600000000 2) as [Fh Lh]; [lia|simpl; lia|lia|done|done|done|lia|].
    destruct (get_time_fields (TF (fmt_int (h / 24)) (h / 24) "d" 86400000000 ::
      TF (fmt_pad 2 (h mod 24)) (h mod 24) "h" 3600000000 :: tl)) as [E1 E2].
    + repeat (apply Forall_cons_2; [done|]). done.
    + unfold total. simpl. lia.
    + simpl. repeat (rewrite length_app; simpl). simpl in *. lia.
    + eexists. split; [|rewrite E2; unfold total; simpl; f_equal; lia].
      rewrite <- E1. f_equal. simpl. by repeat (rewrite <- app_assoc; simpl).
  - destruct (int_field h "h" 3600000000) as [Fh Lh]; [lia|done|done|done|lia|].
    destruct (get_time_fields (TF (fmt_int h) h "h" 3600000000 :: tl)) as [E1 E2].
    + repeat (apply Forall_cons_2; [done|]). done.
    + unfold total. simpl. lia.
    + simpl. repeat (rewrite length_app; simpl). simpl in *. lia.
    + eexists. split; [|rewrite E2; unfold total; simpl; f_equal; lia].
      rewrite <- E1. f_equal. simpl. by repeat (rewrite <- app_assoc; simpl).
Qed.

Lemma time_roundtrip_witness :
  exists s, c_str (tbx_stk_pretty_print_time 93784000005 true) 0 = Ok s /\
    tbx_stk_string_get_time s = Ok 93784000005.
Proof. apply time_roundtrip. lia. Defined.

(** ** Integers with a scale *)

Lemma get_integer_split s n scale :
  NUL ∉ s -> (length s < 100)%nat -> split_token_into_number_and_scale s = (scale, fmt_int n) ->
  int64_ok n = true -> int64_ok (scale * n) = true ->
  tbx_stk_string_get_integer s = Ok (scale * n).
Proof.
  intros Hs Hl Hsp Hn Hsn. unfold tbx_stk_string_get_integer. rewrite copy100_ok by done.
  cbn [mbind res_bind]. rewrite Hsp. rewrite scan_fmt_int.
  - unfold chk64. rewrite Hn. cbn [mbind res_bind]. by rewrite Hsn.
  - unfold int64_ok in Hn. breflect. lia.
Qed.

Lemma cut_last (s : chars) c : take (length (s ++ [c]) - 1) (s ++ [c]) = s.
Proof. rewrite length_app. simpl. rewrite Nat.add_sub. by rewrite take_app_length. Qed.

(** The last character of a printed integer is a digit. *)
Lemma last_fmt_int n : - 10 ^ 20 < n < 10 ^ 20 -> exists c, last (fmt_int n) = Some c /\ is_digit c = true.
Proof.
  intros Hn. assert (Hl : forall ds : chars, digits ds -> ds <> [] -> exists c, last ds = Some c /\ is_digit c = true).
  { intros ds Hd Hne. destruct (last ds) as [c|] eqn:E; [|by apply last_None in E].
    exists c. split; [done|]. apply last_Some in E as [l ->]. apply Forall_app in Hd as [_ Hd].
    by inversion Hd. }
  unfold fmt_int. destruct (Z.ltb_spec n 0).
  - destruct (print_numeral (- n) ltac:(lia)) as (Hd & Hne & _).
    destruct (Hl _ Hd Hne) as (c & E & Hc). exists c. by rewrite last_cons, E.
  - destruct (print_numeral n ltac:(lia)) as (Hd & Hne & _). by apply Hl.
Qed.

Lemma digit_no_unit c : is_digit c = true -> in_set (lit "IibKkMmGgTt") c = false.
Proof.
  intros (d & Hd & ->)%digit_inv. apply negb_true_iff.
  by apply (all_digits (fun d => negb (in_set (lit "IibKkMmGgTt") (digit_char d))) eq_refl d Hd).
Qed.

Lemma in_set_sub set set' c : forallb (in_set set) set' = true -> in_set set c = false -> in_set set' c = false.
Proof.
  unfold in_set. intros Hs Hc%bool_decide_eq_false_1. apply bool_decide_eq_false_2. intros Hin. apply Hc.
  rewrite forallb_forall in Hs. apply list_elem_of_In, Hs in Hin. by apply bool_decide_eq_true_1 in Hin.
Qed.

Lemma split_plain n : - 10 ^ 20 < n < 10 ^ 20 -> split_token_into_number_and_scale (fmt_int n) = (1, fmt_int n).
Proof.
  intros Hn. destruct (last_fmt_int n Hn) as (c & E & Hc). apply digit_no_unit in Hc.
  unfold split_token_into_number_and_scale, scale_of. rewrite E.
  rewrite !(fun set' H => in_set_sub _ set' c H Hc) by reflexivity. done.
Qed.

(** The factor a unit letter stands for when it is read. *)
Definition unit_power (i : nat) (base : Z) : Z := base ^ Z.of_nat i.

Lemma split_unit base i n :
  (base = 1000 \/ base = 1024) -> (1 <= i <= 4)%nat ->
  exists u, scale_units !! i = Some u /\ u <> NUL /\
  split_token_into_number_and_scale (fmt_int n ++ [u] ++ (if base =? 1024 then ["i"%char] else [])) =
    (unit_power i base, fmt_int n).
Proof.
  intros Hb Hi. assert (Hs : forall u, split_token_into_number_and_scale (fmt_int n ++ [u] ++ (if base =? 1024 then ["i"%char] else []))
    = if base =? 1024 then scale_of 1024 (fmt_int n ++ [u]) else split_token_into_number_and_scale (fmt_int n ++ [u])).
  { intros u. destruct (base =? 1024); [|done]. unfold split_token_into_number_and_scale.
    rewrite app_assoc, last_snoc. change (in_set (lit "Ii") "i") with true. cbv iota. by rewrite cut_last. }
  assert (Hu : forall u, last (fmt_int n ++ [u]) = Some u) by (intros; apply last_snoc).
  destruct Hb as [-> | ->]; destruct i as [|[|[|[|[|i]]]]]; try lia; eexists; (split; [reflexivity|]);
    (split; [done|]); rewrite Hs; unfold split_token_into_number_and_scale, scale_of; simpl Z.eqb; cbv iota;
    rewrite ?Hu, cut_last; reflexivity.
Qed.

Lemma scale_loop_ok base k v i n i' :
  1 < base -> scale_loop k base v i = (n, i') ->
  (i <= i' <= i + k)%nat /\ v = n * base ^ Z.of_nat (i' - i) /\ ((i' < i + k)%nat -> Z.rem n base <> 0).
Proof.
  intros Hb. revert v i. induction k as [|k IH]; intros v i; simpl.
  - intros [= <- <-]. rewrite Nat.sub_diag. simpl. split; [lia|]. split; lia.
  - destruct (Z.eqb_spec (Z.rem (Z.abs v) base) 0) as [E|E].
    + intros Hl. apply IH in Hl as (H1 & H2 & H3). split; [lia|]. split; [|intros; apply H3; lia].
      assert (Ev : v = Z.quot v base * base).
      { pose proof (Z.quot_rem v base ltac:(lia)) as Hq.
        assert (Z.rem v base = 0); [|lia]. rewrite Z.rem_abs_l in E by lia. lia. }
      rewrite Ev, H2. rewrite <- Z.mul_assoc. f_equal.
      replace (Z.of_nat (i' - i)) with (Z.of_nat (i' - S i) + 1) by lia. rewrite Z.pow_add_r by lia. lia.
    + intros [= <- <-]. rewrite Nat.sub_diag. simpl. split; [lia|]. split; [lia|].
      intros _ Er. apply E. rewrite Z.rem_abs_l by lia. by rewrite Er.
Qed.

(** A blank at the end, which the configuration parser drops. *)
Definition drop_blank (s : chars) : chars :=
  match last s with Some " "%char => take (length s - 1) s | _ => s end.

Lemma int64_abs v : int64_ok v = true <-> - 2 ^ 63 <= v < 2 ^ 63.
Proof. unfold int64_ok. rewrite andb_true_iff, Z.leb_le, Z.ltb_lt. lia. Qed.

Lemma plain_roundtrip v :
  int64_ok v = true -> tbx_stk_string_get_integer (fmt_int v) = Ok v.
Proof.
  intros Hv. pose proof (proj1 (int64_abs v) Hv).
  replace (Ok v) with (Ok (1 * v)) by (f_equal; lia).
  apply get_integer_split; [apply fmt_int_nonul; lia| |apply split_plain; lia|done|by rewrite Z.mul_1_l].
  pose proof (fmt_int_length v ltac:(lia)). lia.
Qed.

Lemma drop_blank_snoc s : drop_blank (s ++ [" "%char]) = s.
Proof. unfold drop_blank. rewrite last_snoc. apply cut_last. Qed.

Lemma drop_blank_other s c : c <> " "%char -> drop_blank (s ++ [c]) = s ++ [c].
Proof.
  intros Hc. unfold drop_blank. rewrite last_snoc.
  destruct c as [[] [] [] [] [] [] [] []]; done.
Qed.

Lemma drop_blank_int n : - 10 ^ 20 < n < 10 ^ 20 -> drop_blank (fmt_int n) = fmt_int n.
Proof.
  intros Hn. destruct (last_fmt_int n Hn) as (c & E & Hc). apply last_Some in E as [l ->].
  apply drop_blank_other. intros ->. done.
Qed.

(** The mantissa and the unit of a value below [10^15]. *)
Lemma scale_small base v n i :
  (base = 1000 \/ base = 1024) -> v <> 0 -> Z.abs v < 10 ^ 15 -> Z.rem v base = 0 ->
  scale_loop 7 base v 0 = (n, i) ->
  (1 <= i <= 4)%nat /\ v = unit_power i base * n /\ Z.abs n < 10 ^ 15.
Proof.
  intros Hb Hv Ha Hr Hl. apply scale_loop_ok in Hl as (H1 & H2 & H3); [|lia].
  rewrite Nat.sub_0_r in H2. unfold unit_power.
  assert (Hn : n <> 0) by (intros ->; lia).
  assert (Hp : 1000 ^ Z.of_nat i <= base ^ Z.of_nat i) by (apply Z.pow_le_mono_l; lia).
  assert (Hp0 : 0 < 1000 ^ Z.of_nat i) by (apply Z.pow_pos_nonneg; lia).
  assert (Hle : base ^ Z.of_nat i <= Z.abs v) by (rewrite H2, Z.abs_mul, (Z.abs_eq (base ^ _)) by lia; nia).
  assert (Hi4 : (i <= 4)%nat).
  { destruct (decide (i <= 4)%nat); [done|].
    pose proof (Z.pow_le_mono_r 1000 5 (Z.of_nat i) ltac:(lia) ltac:(lia)). lia. }
  split; [|split; [lia|rewrite H2, Z.abs_mul in Ha; nia]].
  destruct i as [|i]; [|lia]. exfalso. apply H3; [lia|]. rewrite Z.mul_1_r in H2. by rewrite <- H2.
Qed.

(** An integer below [10^15] in magnitude that is printed with its
    largest unit is read back as the same integer, once the blank that the
    printer leaves after the unit is dropped. *)
Theorem scale_roundtrip v :
  Z.abs v < 10 ^ 15 ->
  exists s, c_str (tbx_stk_pretty_print_int_with_scale v) 0 = Ok s /\
    tbx_stk_string_get_integer (drop_blank s) = Ok v.
Proof.
  intros Hv. assert (H64 : forall x, Z.abs x < 10 ^ 15 -> int64_ok x = true /\ - 10 ^ 20 < x < 10 ^ 20).
  { intros x Hx. rewrite int64_abs. lia. }
  destruct (H64 v Hv) as [Hv64 Hv20].
  destruct (decide (v = 0)) as [->|Hne].
  { exists (lit "0"). by split. }
  unfold tbx_stk_pretty_print_int_with_scale.
  set (base := if Z.rem v 1000 =? 0 then 1000 else if Z.rem v 1024 =? 0 then 1024 else 1).
  destruct (Z.eqb_spec base 1) as [E1|E1].
  { exists (fmt_int v). split; [by apply c_str_nul, fmt_int_nonul|].
    rewrite drop_blank_int by done. by apply plain_roundtrip. }
  assert (Hb : (base = 1000 \/ base = 1024) /\ Z.rem v base = 0).
  { unfold base in *. destruct (Z.eqb_spec (Z.rem v 1000) 0); [by split; [left|]|].
    destruct (Z.eqb_spec (Z.rem v 1024) 0); [by split; [right|]|done]. }
  destruct Hb as [Hb Hr]. destruct (scale_loop 7 base v 0) as [n i] eqn:El.
  destruct (scale_small base v n i Hb Hne Hv Hr El) as (Hi & Hvn & Hn).
  destruct (H64 n Hn) as [Hn64 Hn20].
  destruct (split_unit base i n Hb Hi) as (u & Eu & Hu & Hsp). rewrite Eu.
  pose proof (fmt_int_nonul n Hn20). pose proof (fmt_int_length n Hn20).
  assert (Hgi : tbx_stk_string_get_integer (fmt_int n ++ [u] ++ (if base =? 1024 then ["i"%char] else [])) = Ok v).
  { rewrite Hvn. apply get_integer_split; [| |done|done|by rewrite <- Hvn].
    - destruct (base =? 1024); rewrite !elem_of_app, list_elem_of_singleton; [|set_solver].
      rewrite list_elem_of_singleton. intros [?|[?|?]]; [done|congruence|done].
    - rewrite !length_app. destruct (base =? 1024); simpl; lia. }
  cbn [default]. destruct (base =? 1024) eqn:Eb.
  - rewrite decide_False by lia. exists (fmt_int n ++ [u; "i"%char]). split.
    + rewrite <- (c_str_nul _ []); [by rewrite <- app_assoc|]. set_solver.
    + by rewrite (app_assoc _ [u] ["i"%char] : fmt_int n ++ [u; "i"%char] = _), drop_blank_other, <- app_assoc.
  - exists (fmt_int n ++ [u; " "%char]). split.
    + rewrite <- (c_str_nul _ []); [by rewrite <- app_assoc|]. set_solver.
    + by rewrite (app_assoc _ [u] [" "%char] : fmt_int n ++ [u; " "%char] = _), drop_blank_snoc.
Qed.

Lemma scale_roundtrip_witness :
  exists s, c_str (tbx_stk_pretty_print_int_with_scale 52428800) 0 = Ok s /\
    tbx_stk_string_get_integer (drop_blank s) = Ok 52428800.
Proof. apply scale_roundtrip. lia. Defined.

(** Units above tera are printed but not read: five times [10^15] prints
    as [5P] and is read back as 5. *)
Theorem scale_peta_lost :
  exists s, c_str (tbx_stk_pretty_print_int_with_scale 5000000000000000) 0 = Ok s /\
    drop_blank s = lit "5P" /\ tbx_stk_string_get_integer (drop_blank s) = Ok 5.
Proof. exists (lit "5P "). vm_compute. done. Qed.

(** An escape sequence followed by exactly one more character loses that
    character: the loop ends with its substitution flag set. *)
Theorem argv2format_drops s c e r :
  "\"%char ∉ s -> find_special e special_chars replace_chars = Some r ->
  tbx_stk_argv2format (s ++ ["\"%char; e; c]) = s ++ [r; NUL].
Proof.
  intros Hs He. unfold tbx_stk_argv2format. rewrite (app_assoc s [r] [NUL] : s ++ [r; NUL] = _). f_equal.
  induction s as [|a s IH]; cbn [app argv2format_loop].
  - rewrite decide_True by done. by rewrite He.
  - assert (Hne : a <> "\"%char) by set_solver. rewrite <- (IH ltac:(set_solver)).
    destruct (s ++ ["\"%char; e; c]) as [|b l] eqn:E; [by destruct s|].
    by rewrite decide_False.
Qed.

Lemma argv2format_drops_witness :
  tbx_stk_argv2format (lit "a" ++ ["\"%char; "n"%char; "b"%char]) = lit "a" ++ ["010"%char; NUL].
Proof.
  apply (argv2format_drops (lit "a") "b" "n" "010"); [|done].
  apply (bool_decide_unpack _). vm_compute. exact I.
Defined.

(** ** Trimming blanks *)

Lemma trim_front_ok fuel mem i k c :
  (k < fuel)%nat -> (forall j, (j < k)%nat -> mem_get mem (i + Z.of_nat j) = Ok " "%char) ->
  mem_get mem (i + Z.of_nat k) = Ok c -> c <> " "%char ->
  trim_front fuel mem i = Ok (i + Z.of_nat k).
Proof.
  revert i k. induction fuel as [|fuel IH]; intros i k Hf Hb Hc Hne; [lia|]. cbn [trim_front].
  destruct k as [|k].
  - rewrite Z.add_0_r in Hc |- *. rewrite Hc. cbn [mbind res_bind]. by rewrite decide_False.
  - pose proof (Hb O ltac:(lia)) as H0. rewrite Z.add_0_r in H0. rewrite H0. cbn [mbind res_bind].
    rewrite decide_True by done. rewrite (IH (i + 1) k); [f_equal; lia|lia| |by replace (i + 1 + Z.of_nat k) with (i + Z.of_nat (S k)) by lia|done].
    intros j Hj. replace (i + 1 + Z.of_nat j) with (i + Z.of_nat (S j)) by lia. apply Hb. lia.
Qed.

Lemma trim_back_ok fuel mem start i k c :
  (k < fuel)%nat -> (forall j, (j < k)%nat -> mem_get mem (start + (i - Z.of_nat j)) = Ok " "%char) ->
  mem_get mem (start + (i - Z.of_nat k)) = Ok c -> c <> " "%char ->
  trim_back fuel mem start i = Ok (i - Z.of_nat k).
Proof.
  revert i k. induction fuel as [|fuel IH]; intros i k Hf Hb Hc Hne; [lia|]. cbn [trim_back].
  destruct k as [|k].
  - rewrite Z.sub_0_r in Hc |- *. rewrite Hc. cbn [mbind res_bind]. by rewrite decide_False.
  - pose proof (Hb O ltac:(lia)) as H0. rewrite Z.sub_0_r in H0. rewrite H0. cbn [mbind res_bind].
    rewrite decide_True by done. rewrite (IH (i - 1) k); [f_equal; lia|lia| |by replace (i - 1 - Z.of_nat k) with (i - Z.of_nat (S k)) by lia|done].
    intros j Hj. replace (i - 1 - Z.of_nat j) with (i - Z.of_nat (S j)) by lia. apply Hb. lia.
Qed.

Abbreviation blanks k := (replicate k " "%char).

(** Trimming a text with something other than blanks in it returns the
    text without the blanks around it. *)
Theorem string_trim_ok mem p k1 core k2 a b :
  str_at mem p (blanks k1 ++ core ++ blanks k2) -> NUL ∉ core ->
  head core = Some a -> a <> " "%char -> last core = Some b -> b <> " "%char ->
  exists mem', tbx_stk_string_trim mem p = Ok (p + Z.of_nat k1, mem') /\
    c_str mem' (p + Z.of_nat k1) = Ok core.
Proof.
  intros Hs Hn Ha Hna Hb Hnb. set (s := blanks k1 ++ core ++ blanks k2) in *.
  pose proof (str_at_len _ _ _ Hs) as Hlen. unfold s in Hlen. rewrite !length_app, !length_replicate in Hlen.
  assert (Hc0 : core !! 0%nat = Some a) by by destruct core.
  assert (Hcl : core !! (length core - 1)%nat = Some b).
  { apply last_Some in Hb as [l ->]. rewrite length_app. simpl.
    by rewrite Nat.add_sub, lookup_app_r, Nat.sub_diag by lia. }
  pose proof (lookup_lt_Some _ _ _ Hcl).
  assert (Hget : forall i x, s !! i = Some x -> mem_get mem (p + Z.of_nat i) = Ok x)
    by (intros; by eapply str_at_get).
  unfold tbx_stk_string_trim. destruct Hs as [Hp [post Hd]].
  rewrite (trim_front_ok _ mem p k1 a); [|lia| | |done].
  2:{ intros j Hj. apply Hget. unfold s. by rewrite lookup_app_l, lookup_replicate_2 by (rewrite ?length_replicate; lia). }
  2:{ apply Hget. unfold s. rewrite lookup_app_r, length_replicate, Nat.sub_diag by (rewrite length_replicate; lia).
      by rewrite lookup_app_l by lia. }
  cbn [mbind res_bind].
  assert (Hs2 : str_at mem (p + Z.of_nat k1) (core ++ blanks k2)).
  { split; [lia|]. exists post. replace (Z.to_nat (p + Z.of_nat k1)) with (Z.to_nat p + k1)%nat by lia.
    rewrite <- drop_drop, Hd. unfold s. rewrite <- app_assoc.
    rewrite drop_app_length' by by rewrite length_replicate. done. }
  assert (Hget2 : forall i x, (core ++ blanks k2) !! i = Some x -> mem_get mem (p + Z.of_nat k1 + Z.of_nat i) = Ok x)
    by (intros; by eapply str_at_get).
  assert (Hnb2 : NUL ∉ core ++ blanks k2).
  { rewrite elem_of_app. intros [?|Hr]; [done|]. by apply elem_of_replicate in Hr as [? _]. }
  rewrite (str_at_strlen _ _ _ Hnb2 Hs2). cbn [mbind res_bind]. rewrite length_app, length_replicate.
  rewrite (trim_back_ok _ mem _ _ k2 b); [|lia| | |done].
  2:{ intros j Hj. replace (_ + (_ - _)) with (p + Z.of_nat k1 + Z.of_nat (length core + (k2 - 1 - j))) by lia.
      apply Hget2. rewrite lookup_app_r by lia. apply lookup_replicate_2. lia. }
  2:{ replace (_ + (_ - _)) with (p + Z.of_nat k1 + Z.of_nat (length core - 1)) by lia.
      apply Hget2. by rewrite lookup_app_l by lia. }
  cbn [mbind res_bind]. rewrite mem_set_ok by lia. cbn [mbind res_bind]. eexists. split; [done|].
  apply str_at_c_str; [done|]. split; [lia|]. destruct Hs2 as [_ [post2 Hd2]].
  replace (p + Z.of_nat k1 + _ + 1) with (p + Z.of_nat k1 + Z.of_nat (length core)) by lia.
  rewrite drop_insert_at, Hd2 by lia. rewrite <- app_assoc.
  destruct k2 as [|k2]; simpl; rewrite insert_after; by eexists.
Qed.

Lemma string_trim_ok_witness :
  exists mem', tbx_stk_string_trim (lit "  a b " ++ [NUL]) 0 = Ok (2, mem') /\ c_str mem' 2 = Ok (lit "a b").
Proof.
  apply (string_trim_ok (lit "  a b " ++ [NUL]) 0 2 (lit "a b") 1 "a" "b"); try done.
  - split; [done|]. by exists [].
  - apply (bool_decide_unpack _). vm_compute. exact I.
Defined.

(** Blanks all the way down to the start of the allocation. *)
Lemma trim_back_blank fuel mem start i :
  (0 < fuel)%nat -> start + i + 1 < Z.of_nat fuel -> (forall j, 0 <= j <= start + i -> mem_get mem j = Ok " "%char) ->
  trim_back fuel mem start i = Fault OutOfBounds.
Proof.
  revert i. induction fuel as [|fuel IH]; intros i H0 Hf Hb; [lia|].
  cbn [trim_back]. destruct (decide (0 <= start + i)) as [Hi|Hi].
  - rewrite Hb by lia. cbn [mbind res_bind]. rewrite decide_True by done.
    apply IH; [lia|lia|]. intros j Hj. apply Hb. lia.
  - unfold mem_get. by rewrite (proj2 (Z.ltb_lt _ _)) by lia.
Qed.

(** A text of blanks only, or none at all, at the start of an allocation
    makes the trimming loop run below the allocation. *)
Theorem string_trim_underrun k :
  tbx_stk_string_trim (blanks k ++ [NUL]) 0 = Fault OutOfBounds.
Proof.
  assert (Hs : str_at (blanks k ++ [NUL]) 0 (blanks k)) by (split; [done|]; by exists []).
  assert (Hget : forall j, (j < k)%nat -> mem_get (blanks k ++ [NUL]) (0 + Z.of_nat j) = Ok " "%char).
  { intros j Hj. eapply str_at_get; [done|]. by apply lookup_replicate_2. }
  assert (Hlen : length (blanks k ++ [NUL]) = S k) by (rewrite length_app, length_replicate; simpl; lia).
  unfold tbx_stk_string_trim. rewrite Hlen. rewrite (trim_front_ok _ _ 0 k NUL); [|lia|done| |done].
  2:{ unfold mem_get. rewrite (proj2 (Z.ltb_ge _ _)) by lia. replace (Z.to_nat (0 + Z.of_nat k)) with k by lia.
      rewrite lookup_app_r by (rewrite length_replicate; lia). by rewrite length_replicate, Nat.sub_diag. }
  cbn [mbind res_bind]. rewrite (str_at_strlen _ _ []); [|set_solver|].
  2:{ split; [lia|]. exists []. rewrite drop_app_length' by (rewrite length_replicate; lia). done. }
  cbn [mbind res_bind length]. rewrite trim_back_blank; [done|lia|lia|].
  intros j Hj. rewrite <- (Hget (Z.to_nat j)) by lia. f_equal. lia.
Qed.
