(* ===== verification/IntervalIndex.v ===== *)
(** * The interval index the segment drivers use

    The segment drivers keep their block and log tables in an interval skip
    list ([tbx_isl_t]).  This file states, as a type class, what they rely on:
    records with a range are inserted, removed and searched by overlap.  The
    laws cover tables whose ranges are pairwise disjoint, which is how the
    drivers use it, and a list in ascending order is given as the reference
    implementation. *)
From stdpp Require Import sorting.
From S2P Require Import Prelude.
Local Open Scope Z_scope.

(** Records that cover the offsets from [iv_lo] to [iv_hi]. *)
Class HasRange (R : Type) := {
  iv_lo : R -> Z;
  iv_hi : R -> Z }.

Section ranges.
Context {R : Type} `{HasRange R}.
Implicit Types (v w : R) (l : list R).

Definition overlaps (lo hi : Z) v : Prop := iv_lo v <= hi /\ lo <= iv_hi v.
Definition inside v (x : Z) : Prop := iv_lo v <= x <= iv_hi v.
Definition before v w : Prop := iv_hi v < iv_lo w.

#[export] Instance overlaps_dec lo hi v : Decision (overlaps lo hi v).
Proof. unfold overlaps. apply _. Defined.
#[export] Instance inside_dec v x : Decision (inside v x).
Proof. unfold inside. apply _. Defined.
#[export] Instance before_dec v w : Decision (before v w).
Proof. unfold before. apply _. Defined.

(** Ascending and pairwise disjoint. *)
Record ivs_ok l : Prop := IvsOk {
  ivs_sorted : StronglySorted before l;
  ivs_proper : Forall (fun v => iv_lo v <= iv_hi v) l }.

Lemma ivs_ok_nil : ivs_ok [].
Proof. split; constructor. Qed.

Lemma ivs_ok_cons v l :
  ivs_ok (v :: l) <-> iv_lo v <= iv_hi v /\ Forall (before v) l /\ ivs_ok l.
Proof.
  split.
  - intros [Hs Hp]. apply Forall_cons in Hp as [? ?]. apply StronglySorted_inv in Hs as [? ?]. by repeat split.
  - intros (? & ? & [? ?]). split; by constructor.
Qed.

Lemma ivs_proper_elem l v : ivs_ok l -> v ∈ l -> iv_lo v <= iv_hi v.
Proof. intros [_ Hp] Hv. rewrite Forall_forall in Hp. by apply Hp. Qed.

(** Two records of a table are the same or do not meet. *)
Lemma ivs_disjoint l v w x : ivs_ok l -> v ∈ l -> w ∈ l -> inside v x -> inside w x -> v = w.
Proof.
  induction l as [|u l IH]; intros Hok Hv Hw Hx Hy; [by apply not_elem_of_nil in Hv|].
  apply ivs_ok_cons in Hok as (_ & Hb & Hok). rewrite Forall_forall in Hb.
  apply elem_of_cons in Hv as [->|Hv], Hw as [->|Hw]; [done|..|by apply IH].
  - apply Hb in Hw. unfold before, inside in *. lia.
  - apply Hb in Hv. unfold before, inside in *. lia.
Qed.

(** A table is determined by its records. *)
Lemma ivs_ext l l' : ivs_ok l -> ivs_ok l' -> (forall v, v ∈ l <-> v ∈ l') -> l = l'.
Proof.
  revert l'. induction l as [|v l IH]; intros [|w l'] Hl Hl' He; [done|..].
  - exfalso. apply (not_elem_of_nil w), He. by left.
  - exfalso. apply (not_elem_of_nil v), He. by left.
  - apply ivs_ok_cons in Hl as (Hv & Hbv & Hl), Hl' as (Hw & Hbw & Hl').
    rewrite Forall_forall in Hbv, Hbw.
    assert (v = w) as ->.
    { pose proof (proj1 (He v) (list_elem_of_here _ _)) as [->|Hin]%elem_of_cons; [done|].
      pose proof (proj2 (He w) (list_elem_of_here _ _)) as [->|Hin2]%elem_of_cons; [done|].
      apply Hbw in Hin. apply Hbv in Hin2. unfold before in *. lia. }
    f_equal. apply IH; [done..|]. intros u. split; intros Hu.
    + pose proof (proj1 (He u) (list_elem_of_further _ _ _ Hu)) as [->|?]%elem_of_cons; [|done].
      apply Hbv in Hu. unfold before in Hu. lia.
    + pose proof (proj2 (He u) (list_elem_of_further _ _ _ Hu)) as [->|?]%elem_of_cons; [|done].
      apply Hbw in Hu. unfold before in Hu. lia.
Qed.

Lemma ivs_filter (P : R -> Prop) `{!forall v, Decision (P v)} l : ivs_ok l -> ivs_ok (filter P l).
Proof.
  induction l as [|v l IH]; [done|]. intros (Hv & Hb & Hok)%ivs_ok_cons. rewrite filter_cons.
  case_decide; [|by apply IH]. apply ivs_ok_cons. split; [done|]. split; [|by apply IH].
  rewrite Forall_forall in Hb |- *. intros w [_ Hw]%list_elem_of_filter. by apply Hb.
Qed.

(** The records of [l] cover the offsets from [p] to [hi] one after the other; the
    request starts at [lo]. *)
Fixpoint covering (lo hi p : Z) l : Prop :=
  match l with
  | [] => hi < p
  | v :: l => Z.max lo (iv_lo v) = p /\ p <= hi /\ p <= iv_hi v /\ covering lo hi (iv_hi v + 1) l
  end.

Lemma covering_intro lo hi p l :
  ivs_ok l -> lo <= p -> (p = lo -> lo <= hi) ->
  (forall v, v ∈ l -> iv_lo v <= hi /\ p <= iv_hi v /\ (p = lo \/ p <= iv_lo v)) ->
  (forall x, p <= x <= hi -> exists v, v ∈ l /\ inside v x) -> covering lo hi p l.
Proof.
  revert p. induction l as [|v l IH]; intros p Hok Hlo Hp Hb Hc; simpl.
  { apply Znot_ge_lt. intros ?. destruct (Hc p) as (v & Hin & _); [lia|]. by apply not_elem_of_nil in Hin. }
  apply ivs_ok_cons in Hok as (Hvv & Hbf & Hok). rewrite Forall_forall in Hbf.
  destruct (Hb v ltac:(by left)) as (? & ? & ?). destruct (Hc p ltac:(lia)) as (u & Hu & Hux).
  assert (u = v) as ->.
  { apply elem_of_cons in Hu as [->|Hu]; [done|]. apply Hbf in Hu. unfold before, inside in *. lia. }
  unfold inside in Hux. split_and!; [lia..|]. apply IH; [done|lia|lia|..].
  - intros w Hw. pose proof (Hbf w Hw) as Hvw. destruct (Hb w ltac:(by right)) as (? & ? & ?).
    apply ivs_proper_elem in Hw as Hp'; [|done]. unfold before in Hvw. lia.
  - intros x Hx. destruct (Hc x ltac:(lia)) as (w & [->|Hin]%elem_of_cons & Hx'); [unfold inside in Hx'; lia|]. by exists w.
Qed.

(** Searches that are answered by overlap: the bounds are in order, or
    everything lies before the lower one. *)
Definition searchable (lo hi : Z) l : Prop := lo <= hi + 1 \/ forall v, v ∈ l -> iv_hi v < lo.

Lemma searchable_incl lo hi l l' : (forall v, v ∈ l' -> v ∈ l) -> searchable lo hi l -> searchable lo hi l'.
Proof. intros Hin [?|Hl]; [by left|right]. intros v Hv. by apply Hl, Hin. Qed.

Lemma ivs_nodup l : ivs_ok l -> NoDup l.
Proof.
  induction l as [|v l IH]; [constructor|]. intros (Hv & Hb & Hl)%ivs_ok_cons. constructor; [|by apply IH].
  intros Hin. rewrite Forall_forall in Hb. apply Hb in Hin. unfold before in Hin. lia.
Qed.

(** Ordered insertion. *)
Fixpoint ivs_insert v l : list R :=
  match l with
  | [] => [v]
  | w :: l' => if decide (before v w) then v :: l else w :: ivs_insert v l'
  end.

Lemma ivs_insert_elem v l u : u ∈ ivs_insert v l <-> u = v \/ u ∈ l.
Proof. induction l as [|w l IH]; simpl; [set_solver|]. case_decide; set_solver. Qed.

Lemma ivs_insert_ok v l :
  ivs_ok l -> iv_lo v <= iv_hi v -> (forall w, w ∈ l -> ~ overlaps (iv_lo v) (iv_hi v) w) ->
  ivs_ok (ivs_insert v l).
Proof.
  intros Hok Hv. induction l as [|w l IH]; intros Hd; simpl.
  { apply ivs_ok_cons. split; [done|]. split; [done|apply ivs_ok_nil]. }
  apply ivs_ok_cons in Hok as (Hw & Hb & Hok). case_decide as Hvw.
  - apply ivs_ok_cons. split; [done|]. split; [|by apply ivs_ok_cons].
    constructor; [done|]. rewrite Forall_forall in Hb |- *. intros u Hu%Hb. unfold before in *. lia.
  - apply ivs_ok_cons. split; [done|]. split; [|apply IH; [done|set_solver]].
    rewrite Forall_forall in Hb |- *. intros u [->|Hu]%ivs_insert_elem; [|by apply Hb].
    specialize (Hd w ltac:(set_solver)). unfold overlaps, before in *. lia.
Qed.

(** A record of a table. *)
Lemma ivs_middle l1 v l2 :
  ivs_ok (l1 ++ v :: l2) -> (forall w, w ∈ l1 -> before w v) /\ (forall w, w ∈ l2 -> before v w) /\ ivs_ok (l1 ++ l2).
Proof.
  induction l1 as [|u l1 IH]; simpl; intros (Hu & Hb & Hok)%ivs_ok_cons; rewrite Forall_forall in Hb.
  - split; [by intros w ?%not_elem_of_nil|]. by split.
  - destruct (IH Hok) as (H1 & H2 & H3). split; [|split; [done|]].
    + intros w [->|Hw]%elem_of_cons; [apply Hb; set_solver|by apply H1].
    + apply ivs_ok_cons. split; [done|]. split; [|done]. apply Forall_forall. intros w Hw. apply Hb. set_solver.
Qed.

Lemma ivs_app_r l1 l2 : ivs_ok (l1 ++ l2) -> ivs_ok l2.
Proof. induction l1 as [|v l1 IH]; [done|]. intros (_ & _ & Hok)%ivs_ok_cons. by apply IH. Qed.

(** A position cuts the table between two intervals or inside one. *)
Lemma ivs_cut lo l :
  ivs_ok l -> exists l1 l2, (forall v, v ∈ l1 -> iv_hi v < lo) /\ (forall v, v ∈ l2 -> lo <= iv_lo v) /\
    (l = l1 ++ l2 \/ exists v, l = l1 ++ v :: l2 /\ iv_lo v < lo <= iv_hi v).
Proof.
  induction l as [|u l IH]; intros Hok; [exists [], []; by split; [|split; [|left]]; try by intros v ?%not_elem_of_nil|].
  pose proof Hok as (Hu & Hb & Hok')%ivs_ok_cons. rewrite Forall_forall in Hb. unfold before in Hb.
  destruct (Z.lt_ge_cases (iv_hi u) lo) as [Hlt|Hge].
  - destruct (IH Hok') as (l1 & l2 & H1 & H2 & Hc). exists (u :: l1), l2. split; [intros v [->|Hv]%elem_of_cons; [done|by apply H1]|]. split; [done|].
    destruct Hc as [->|(v & -> & Hv)]; [by left|]. right. by exists v.
  - assert (Hl : forall v, v ∈ l -> lo <= iv_lo v) by (intros v Hv; specialize (Hb v Hv); lia).
    destruct (Z.lt_ge_cases (iv_lo u) lo) as [Hin|Hout].
    + exists [], l. split; [by intros v ?%not_elem_of_nil|]. split; [done|]. right. by exists u.
    + exists [], (u :: l). split; [by intros v ?%not_elem_of_nil|]. split; [|by left]. intros v [->|Hv]%elem_of_cons; [lia|by apply Hl].
Qed.

Lemma ivs_filter_below lo hi l : (forall v, v ∈ l -> iv_hi v < lo) -> filter (overlaps lo hi) l = [].
Proof.
  induction l as [|v l IH]; intros Hl; [done|]. rewrite filter_cons_False.
  - apply IH. intros w Hw. apply Hl. by right.
  - specialize (Hl v ltac:(by left)). unfold overlaps. lia.
Qed.

Lemma ivs_filter_from lo hi l :
  ivs_ok l -> (forall v, v ∈ l -> lo <= iv_lo v) -> filter (overlaps lo hi) l = filter (fun v => iv_lo v <= hi) l.
Proof.
  induction l as [|v l IH]; intros Hok Hl; [done|]. pose proof Hok as (Hv & _ & Hok')%ivs_ok_cons.
  specialize (IH Hok' ltac:(intros w Hw; apply Hl; by right)). specialize (Hl v ltac:(by left)). destruct (decide (iv_lo v <= hi)) as [Hle|Hgt].
  - rewrite !filter_cons_True by (unfold overlaps; lia). by rewrite IH.
  - rewrite !filter_cons_False by (unfold overlaps; lia). done.
Qed.

Lemma ivs_filter_middle `{!EqDecision R} l1 v l2 : ivs_ok (l1 ++ v :: l2) -> filter (fun w => w <> v) (l1 ++ v :: l2) = l1 ++ l2.
Proof.
  intros Hok. pose proof (ivs_nodup _ Hok) as Hnd. apply NoDup_app in Hnd as (_ & Hd & Hv).
  apply NoDup_cons in Hv as [Hv _]. assert (Hall : forall l, v ∉ l -> filter (fun w => w <> v) l = l).
  { induction l as [|w l IHl]; [done|]. intros [Hne Hl]%not_elem_of_cons. rewrite filter_cons_True by done. by rewrite IHl. }
  rewrite filter_app, filter_cons_False by tauto. rewrite !Hall; [done|done|]. intros Hin. apply (Hd v Hin). by left.
Qed.

(** The place of a new record. *)
Lemma ivs_insert_split v l :
  ivs_ok l -> iv_lo v <= iv_hi v -> (forall w, w ∈ l -> ~ overlaps (iv_lo v) (iv_hi v) w) ->
  exists l1 l2, l = l1 ++ l2 /\ ivs_insert v l = l1 ++ v :: l2 /\ (forall w, w ∈ l1 -> before w v) /\ (forall w, w ∈ l2 -> before v w).
Proof.
  intros Hok Hv. induction l as [|w l IH]; intros Hd; simpl.
  { exists [], []. split; [done|]. split; [done|]. split; by intros u ?%not_elem_of_nil. }
  apply ivs_ok_cons in Hok as (Hw & Hb & Hok). rewrite Forall_forall in Hb. case_decide as Hvw.
  - exists [], (w :: l). split; [done|]. split; [done|]. split; [by intros u ?%not_elem_of_nil|].
    intros u [->|Hu]%elem_of_cons; [done|]. apply Hb in Hu. unfold before in *. lia.
  - destruct (IH Hok) as (l1 & l2 & -> & -> & H1 & H2); [intros u Hu; apply Hd; by right|].
    exists (w :: l1), l2. split; [done|]. split; [done|]. split; [|done].
    intros u [->|Hu]%elem_of_cons; [|by apply H1]. specialize (Hd w ltac:(by left)). unfold overlaps, before in *. lia.
Qed.

End ranges.

(** What the drivers call: [tbx_isl_insert], [tbx_isl_remove] and a complete
    run of [tbx_isl_iter_search] and [tbx_isl_next].  [ix_list] is the table
    the index stands for, [ix_ok] what keeps it together. *)
Class IntervalIndex (M R : Type) `{HasRange R} `{EqDecision R} := {
  ix_empty : M;
  ix_insert : R -> M -> M;
  ix_remove : R -> M -> M;
  ix_search : Z -> Z -> M -> list R;
  ix_list : M -> list R;
  ix_ok : M -> Prop }.

Class IntervalIndexLaws (M R : Type) `{IntervalIndex M R} := {
  ix_ok_ivs m : ix_ok m -> ivs_ok (ix_list m);
  ix_empty_ok : ix_ok ix_empty /\ ix_list ix_empty = [];
  ix_insert_ok v m :
    ix_ok m -> iv_lo v <= iv_hi v ->
    (forall w, w ∈ ix_list m -> ~ overlaps (iv_lo v) (iv_hi v) w) ->
    ix_ok (ix_insert v m) /\
    forall w, w ∈ ix_list (ix_insert v m) <-> w = v \/ w ∈ ix_list m;
  ix_remove_ok v m :
    ix_ok m -> v ∈ ix_list m ->
    ix_ok (ix_remove v m) /\
    forall w, w ∈ ix_list (ix_remove v m) <-> w <> v /\ w ∈ ix_list m;
  ix_search_ok lo hi m :
    ix_ok m -> searchable lo hi (ix_list m) -> ix_search lo hi m = filter (overlaps lo hi) (ix_list m) }.

Section index.
Context {M R : Type} `{HasRange R} `{EqDecision R} `{!IntervalIndex M R} `{!IntervalIndexLaws M R}.
Implicit Types (m : M) (v w : R) (l : list R).

Lemma ix_disjoint m v w x : ix_ok m -> v ∈ ix_list m -> w ∈ ix_list m -> inside v x -> inside w x -> v = w.
Proof. intros Hok%ix_ok_ivs. by apply ivs_disjoint. Qed.

Lemma ix_proper m v : ix_ok m -> v ∈ ix_list m -> iv_lo v <= iv_hi v.
Proof. intros Hok%ix_ok_ivs. by apply ivs_proper_elem. Qed.

Lemma ix_search_elem m lo hi v :
  ix_ok m -> searchable lo hi (ix_list m) -> v ∈ ix_search lo hi m <-> overlaps lo hi v /\ v ∈ ix_list m.
Proof. intros Hok Hlo. by rewrite ix_search_ok, list_elem_of_filter. Qed.

Lemma ix_search_ivs m lo hi : ix_ok m -> searchable lo hi (ix_list m) -> ivs_ok (ix_search lo hi m).
Proof. intros Hok Hlo. rewrite ix_search_ok by done. by apply ivs_filter, ix_ok_ivs. Qed.

(** Removing a list of records. *)
Lemma ix_remove_all_ok l m :
  ix_ok m -> NoDup l -> (forall w, w ∈ l -> w ∈ ix_list m) ->
  let m' := foldl (fun m v => ix_remove v m) m l in
  ix_ok m' /\ forall w, w ∈ ix_list m' <-> w ∉ l /\ w ∈ ix_list m.
Proof.
  revert m. induction l as [|v l IH]; intros m Hm Hnd Hin; simpl.
  { split; [done|]. intros w. set_solver. }
  apply NoDup_cons in Hnd as [Hv Hnd]. destruct (ix_remove_ok v m Hm (Hin v ltac:(by left))) as [Hm1 Hin1].
  destruct (IH (ix_remove v m) Hm1 Hnd) as [Hm2 Hin2].
  { intros w Hw. apply Hin1. split; [by intros ->|]. apply Hin. by right. }
  split; [done|]. intros w. rewrite Hin2, Hin1, not_elem_of_cons. tauto.
Qed.

(** The search of a range that is covered. *)
Lemma ix_search_covering m lo hi :
  ix_ok m -> lo <= hi -> (forall x, lo <= x <= hi -> exists v, v ∈ ix_list m /\ inside v x) -> covering lo hi lo (ix_search lo hi m).
Proof.
  intros Hm Hlo Hc. apply covering_intro; [apply ix_search_ivs; [done|left; lia]|lia|lia|..].
  - intros v [Ho Hv]%ix_search_elem; [|done|left; lia]. unfold overlaps in Ho. lia.
  - intros x Hx. destruct (Hc x Hx) as (v & Hv & Hx'). exists v. split; [|done].
    apply ix_search_elem; [done|left; lia|]. unfold overlaps, inside in *. split; [lia|done].
Qed.

(** Inserting records that meet nothing. *)
Lemma ix_insert_all_ok l m :
  ix_ok m -> ivs_ok l -> (forall v w, v ∈ l -> w ∈ ix_list m -> ~ overlaps (iv_lo v) (iv_hi v) w) ->
  let m' := foldl (fun m v => ix_insert v m) m l in
  ix_ok m' /\ forall w, w ∈ ix_list m' <-> w ∈ l \/ w ∈ ix_list m.
Proof.
  revert m. induction l as [|v l IH]; intros m Hm Hl Hd; simpl.
  { split; [done|]. intros w. set_solver. }
  apply ivs_ok_cons in Hl as (Hv & Hb & Hl). rewrite Forall_forall in Hb.
  destruct (ix_insert_ok v m Hm Hv) as [Hm1 Hin1]; [intros w Hw; by apply Hd; [left|]|].
  destruct (IH (ix_insert v m) Hm1 Hl) as [Hm2 Hin2].
  { intros u w Hu [->|Hw]%Hin1; [|apply Hd; [by right|done]]. apply Hb in Hu. unfold overlaps, before in *. lia. }
  split; [done|]. intros w. rewrite Hin2, Hin1, elem_of_cons. tauto.
Qed.

End index.

(** The reference implementation. *)
#[export] Instance list_index (R : Type) `{HasRange R} `{EqDecision R} : IntervalIndex (list R) R := {
  ix_empty := [];
  ix_insert := ivs_insert;
  ix_remove v l := filter (fun w => w <> v) l;
  ix_search lo hi l := filter (overlaps lo hi) l;
  ix_list l := l;
  ix_ok l := ivs_ok l }.

#[export] Instance list_index_laws (R : Type) `{HasRange R} `{EqDecision R} : IntervalIndexLaws (list R) R.
Proof.
  split; simpl; [done|split; [apply ivs_ok_nil|done]|..|done].
  - intros v l Hok Hv Hd. split; [by apply ivs_insert_ok|]. apply ivs_insert_elem.
  - intros v l Hok Hv. split; [by apply ivs_filter|]. intros w. by rewrite list_elem_of_filter.
Qed.
