(* ===== verification/ByteSegment.v ===== *)
(** * What a segment promises to the segments stacked on it

    Segment drivers are layered: a log segment keeps its table, its data and
    its base in three other segments and reaches them only through the
    segment interface ([segment_read], [segment_write],
    [lio_segment_truncate], [segment_size]).
    This file states that interface as a type class over the contents of a
    segment, gives the memory-backed instance used by the witnesses, and the
    little-endian layout of the 64-bit integers the drivers store. *)
From S2P Require Import Prelude.
Local Open Scope Z_scope.

Abbreviation bytes := (list Z).

(** The byte of [data], written at [off], that lands on offset [x]. *)
Definition span (off : Z) (data : bytes) (x : Z) : option Z :=
  if decide (off <= x) then data !! Z.to_nat (x - off) else None.

(** A file as the function from offsets to bytes; bytes never written are 0. *)
Definition overlay (off : Z) (data : bytes) (f : Z -> Z) (x : Z) : Z :=
  default (f x) (span off data x).

Definition slice (f : Z -> Z) (off len : Z) : bytes := f <$> seqZ off len.

(** A write reports success or failure and leaves the segment in some state;
    a read gives the bytes, or nothing when it fails. *)
Class Segment (S : Type) := {
  seg_write : Z -> bytes -> S -> bool * S;
  seg_read : Z -> Z -> S -> option bytes;
  seg_truncate : Z -> S -> bool * S;
  seg_size : S -> Z;
  seg_byte : S -> Z -> Z }.

Class SegmentLaws (S : Type) `{Segment S} := {
  seg_write_byte off data s s' x :
    0 <= off -> seg_write off data s = (true, s') -> seg_byte s' x = overlay off data (seg_byte s) x;
  seg_write_outside off data s ok s' x :
    seg_write off data s = (ok, s') -> ~ (off <= x < off + Z.of_nat (length data)) ->
    seg_byte s' x = seg_byte s x;
  seg_write_size off data s s' :
    0 <= off -> seg_write off data s = (true, s') -> data <> [] ->
    seg_size s' = Z.max (seg_size s) (off + Z.of_nat (length data));
  seg_truncate_byte n s s' x :
    0 <= n -> seg_truncate n s = (true, s') -> x < n -> seg_byte s' x = seg_byte s x;
  seg_truncate_size n s s' : 0 <= n -> seg_truncate n s = (true, s') -> seg_size s' = n;
  seg_read_slice off len s d :
    0 <= len -> seg_read off len s = Some d -> d = slice (seg_byte s) off len }.

Section span.
Implicit Types (f g : Z -> Z) (data d : bytes).

Lemma span_in off data x :
  off <= x < off + Z.of_nat (length data) -> exists b, span off data x = Some b.
Proof.
  intros Hx. unfold span. rewrite decide_True by lia. apply lookup_lt_is_Some. lia.
Qed.

Lemma span_out off data x :
  ~ (off <= x < off + Z.of_nat (length data)) -> span off data x = None.
Proof.
  intros Hx. unfold span. case_decide; [|done]. apply lookup_ge_None. lia.
Qed.

Lemma span_app off d1 d2 x :
  span off (d1 ++ d2) x =
    match span off d1 x with Some b => Some b | None => span (off + Z.of_nat (length d1)) d2 x end.
Proof.
  unfold span. destruct (decide (off <= x)) as [Hx|Hx].
  - destruct (decide (x < off + Z.of_nat (length d1))) as [Hl|Hl].
    + rewrite lookup_app_l by lia. destruct (lookup_lt_is_Some_2 d1 (Z.to_nat (x - off))) as [b Hb]; [lia|].
      by rewrite Hb.
    + rewrite lookup_app_r by lia. rewrite (lookup_ge_None_2 d1) by lia.
      rewrite decide_True by lia. f_equal. lia.
  - by rewrite decide_False by lia.
Qed.

Lemma overlay_out off data f x :
  ~ (off <= x < off + Z.of_nat (length data)) -> overlay off data f x = f x.
Proof. intros Hx. unfold overlay. by rewrite span_out. Qed.

Lemma overlay_app off d1 d2 f x :
  overlay off (d1 ++ d2) f x = overlay off d1 (overlay (off + Z.of_nat (length d1)) d2 f) x.
Proof. unfold overlay. rewrite span_app. by destruct (span off d1 x). Qed.

(** Two adjacent pieces in either order. *)
Lemma overlay_next off d1 d2 f x :
  overlay (off + Z.of_nat (length d1)) d2 (overlay off d1 f) x = overlay off (d1 ++ d2) f x.
Proof.
  unfold overlay. rewrite span_app. destruct (decide (x < off + Z.of_nat (length d1))).
  - rewrite (span_out _ d2) by lia. by destruct (span off d1 x).
  - by rewrite (span_out _ d1) by lia.
Qed.

Lemma slice_length f off len : length (slice f off len) = Z.to_nat len.
Proof. unfold slice. by rewrite length_fmap, length_seqZ. Qed.

Lemma slice_lookup f off len (i : nat) :
  Z.of_nat i < len -> slice f off len !! i = Some (f (off + Z.of_nat i)).
Proof. intros Hi. unfold slice. rewrite list_lookup_fmap, lookup_seqZ_lt by lia. done. Qed.

Lemma slice_ext f g off len :
  (forall x, off <= x < off + len -> f x = g x) -> slice f off len = slice g off len.
Proof.
  intros He. apply list_fmap_ext. intros i x Hx. apply lookup_seqZ in Hx. apply He. lia.
Qed.

Lemma slice_app f off n m : 0 <= n -> 0 <= m -> slice f off (n + m) = slice f off n ++ slice f (off + n) m.
Proof. intros. unfold slice. by rewrite seqZ_app, fmap_app by lia. Qed.

Lemma slice_shift f g off off' len :
  (forall i, 0 <= i < len -> f (off + i) = g (off' + i)) -> slice f off len = slice g off' len.
Proof.
  intros He. apply list_eq. intros i. destruct (decide (Z.of_nat i < len)).
  - rewrite !slice_lookup by lia. by rewrite He by lia.
  - by rewrite !(lookup_ge_None_2 (slice _ _ _)) by (rewrite slice_length; lia).
Qed.

(** Reading back what was laid down. *)
Lemma slice_overlay off data f :
  slice (overlay off data f) off (Z.of_nat (length data)) = data.
Proof.
  apply list_eq. intros i. destruct (decide (i < length data)%nat) as [Hi|Hi].
  - rewrite slice_lookup by lia. unfold overlay, span. rewrite decide_True by lia.
    replace (Z.to_nat (off + Z.of_nat i - off)) with i by lia.
    destruct (lookup_lt_is_Some_2 data i Hi) as [b ->]. done.
  - rewrite !lookup_ge_None_2; [done|lia|rewrite slice_length; lia].
Qed.

Lemma span_slice f off off' len x :
  off' <= x < off' + len -> span off' (slice f off len) x = Some (f (off + (x - off'))).
Proof.
  intros Hx. unfold span. rewrite decide_True by lia. rewrite slice_lookup by lia.
  do 2 f_equal. lia.
Qed.

End span.

(** ** A segment held in memory *)

Record memseg := MemSeg { ms_data : gmap Z Z; ms_size : Z; ms_broken : bool }.

Fixpoint mem_store (off : Z) (data : bytes) (m : gmap Z Z) : gmap Z Z :=
  match data with [] => m | b :: data => <[off := b]> (mem_store (off + 1) data m) end.

(** [ms_broken] stands for a device that refuses every operation. *)
#[export] Instance memseg_segment : Segment memseg := {
  seg_write off data s :=
    if ms_broken s then (false, s)
    else (true, MemSeg (mem_store off data (ms_data s))
      (match data with [] => ms_size s | _ => Z.max (ms_size s) (off + Z.of_nat (length data)) end) false);
  seg_read off len s :=
    if ms_broken s then None else Some (slice (fun x => default 0 (ms_data s !! x)) off len);
  seg_truncate n s :=
    if ms_broken s then (false, s)
    else (true, MemSeg (filter (fun kv => kv.1 < n) (ms_data s)) n false);
  seg_size := ms_size;
  seg_byte s x := default 0 (ms_data s !! x) }.

Lemma mem_store_lookup data off m x :
  mem_store off data m !! x = match span off data x with Some b => Some b | None => m !! x end.
Proof.
  revert off. induction data as [|b data IH]; intros off; simpl.
  { unfold span. case_decide; by rewrite ?lookup_nil. }
  rewrite (span_app off [b] data). simpl. destruct (decide (off = x)) as [->|Hne].
  - rewrite lookup_insert_eq. unfold span. rewrite decide_True by lia.
    replace (Z.to_nat (x - x)) with 0%nat by lia. done.
  - rewrite lookup_insert_ne by done. rewrite IH. rewrite (span_out off [b]) by (simpl; lia). done.
Qed.

#[export] Instance memseg_laws : SegmentLaws memseg.
Proof.
  split; simpl.
  - intros off data s s' x _. destruct (ms_broken s); [done|]. intros [= <-]. simpl.
    rewrite mem_store_lookup. unfold overlay. by destruct (span off data x).
  - intros off data s ok s' x Hw Hx. destruct (ms_broken s); injection Hw as <- <-; [done|]. simpl.
    by rewrite mem_store_lookup, span_out.
  - intros off data s s' _. destruct (ms_broken s); [done|]. intros [= <-] Hd. by destruct data.
  - intros n s s' x _. destruct (ms_broken s); [done|]. intros [= <-] Hx. simpl.
    rewrite map_lookup_filter. destruct (ms_data s !! x); simpl; [|done]. by rewrite option_guard_True.
  - intros n s s' _. destruct (ms_broken s); [done|]. by intros [= <-].
  - intros off len s d _. destruct (ms_broken s); [done|]. by intros [= <-].
Qed.

(** ** 64-bit integers in memory *)

(** [n] bytes of [x], least significant first. *)
Fixpoint le_bytes (n : nat) (x : Z) : bytes :=
  match n with O => [] | S n => x mod 256 :: le_bytes n (x / 256) end.

Fixpoint le_value (d : bytes) : Z :=
  match d with [] => 0 | b :: d => b + 256 * le_value d end.

Definition int64_bytes (x : Z) : bytes := le_bytes 8 x.
Definition bytes_int64 (d : bytes) : Z := to_signed 64 (le_value d).

Lemma le_bytes_length n x : length (le_bytes n x) = n.
Proof. revert x. induction n as [|n IH]; intros x; simpl; [done|]. by rewrite IH. Qed.

Lemma int64_bytes_length x : length (int64_bytes x) = 8%nat.
Proof. apply le_bytes_length. Qed.

Lemma le_value_bytes n x : le_value (le_bytes n x) = x mod 256 ^ Z.of_nat n.
Proof.
  revert x. induction n as [|n IH]; intros x; cbn [le_bytes le_value].
  - by rewrite Z.mod_1_r.
  - rewrite IH, Nat2Z.inj_succ, Z.pow_succ_r by lia.
    rewrite Z.rem_mul_r; lia.
Qed.

Lemma int64_bytes_roundtrip x : int64_ok x = true -> bytes_int64 (int64_bytes x) = x.
Proof.
  intros Hx. unfold bytes_int64, int64_bytes. rewrite le_value_bytes.
  change (256 ^ Z.of_nat 8) with (2 ^ 64). fold (to_unsigned 64 x).
  rewrite to_signed_unsigned by lia. unfold int64_ok in Hx. breflect. by apply to_signed_small.
Qed.
