(* ===== verification/SegLog.v ===== *)
(** * The log segment ([lio/segment/log.c])

    A log segment never overwrites its base: every write is appended to a
    data segment and recorded in a table segment, and an interval index maps
    file ranges to data offsets.  The index is any [IntervalIndex], the three
    child segments any [Segment]; offsets are unbounded integers.  A file is
    seen through the log as [slog_view].

    The task list of an operation is run to completion by one
    [opque_waitall]; the tasks of one operation touch different segments or
    different ranges, so they are performed in the order they are queued. *)
From S2P Require Import Prelude IntervalIndex ByteSegment.
Local Open Scope Z_scope.

(** [lio_slog_range_t]; in the table segment [sr_hi] is a length. *)
Record slog_range := SlogRange { sr_lo : Z; sr_hi : Z; sr_data_offset : Z }.

#[export] Instance slog_range_eq_dec : EqDecision slog_range.
Proof. solve_decision. Defined.

#[export] Instance slog_range_range : HasRange slog_range := { iv_lo := sr_lo; iv_hi := sr_hi }.

Definition sizeof_slog_range : Z := 24.

Definition slog_range_bytes (r : slog_range) : bytes :=
  int64_bytes (sr_lo r) ++ int64_bytes (sr_hi r) ++ int64_bytes (sr_data_offset r).

Definition bytes_slog_range (d : bytes) : slog_range :=
  SlogRange (bytes_int64 (take 8 d)) (bytes_int64 (take 8 (drop 8 d))) (bytes_int64 (take 8 (drop 16 d))).

(** [lio_seglog_priv_t]. *)
Record seglog_priv (M S : Type) := SegLog {
  mapping : M;
  file_size : Z;
  log_size : Z;
  data_size : Z;
  hard_errors : Z;
  table_seg : S;
  data_seg : S;
  base_seg : S }.
Arguments SegLog {M S}.
Arguments mapping {M S}.
Arguments file_size {M S}.
Arguments log_size {M S}.
Arguments data_size {M S}.
Arguments hard_errors {M S}.
Arguments table_seg {M S}.
Arguments data_seg {M S}.
Arguments base_seg {M S}.

Section seglog.
Context {M S : Type} `{!IntervalIndex M slog_range} `{!Segment S}.
Implicit Types (s : seglog_priv M S) (m : M) (r ir : slog_range).

Definition set_mapping m fsize s : seglog_priv M S :=
  SegLog m fsize (log_size s) (data_size s) (hard_errors s) (table_seg s) (data_seg s) (base_seg s).

Definition set_sizes lsize dsize s : seglog_priv M S :=
  SegLog (mapping s) (file_size s) lsize dsize (hard_errors s) (table_seg s) (data_seg s) (base_seg s).

Definition set_segs table data s : seglog_priv M S :=
  SegLog (mapping s) (file_size s) (log_size s) (data_size s) (hard_errors s) table data (base_seg s).

Definition add_hard_error s : seglog_priv M S :=
  SegLog (mapping s) (file_size s) (log_size s) (data_size s) (hard_errors s + 1)
    (table_seg s) (data_seg s) (base_seg s).

(** ** Updating the mapping *)

Definition drop_ranges (r_table : list slog_range) m : M :=
  foldl (fun m v => ix_remove v m) m r_table.

Definition bufmax : nat := 100.

(** The loop over the intervals past the new end; [it] is what the iterator
    has left and [r_table] what has been collected. *)
Fixpoint truncate_loop (fuel : nat) (lo hi : Z) (it r_table : list slog_range) m : res M :=
  match fuel with
  | O => Fault OutOfFuel
  | Datatypes.S fuel =>
    match it with
    | [] => Ok (drop_ranges r_table m)
    | v :: it =>
      let r_table := r_table ++ [v] in
      if decide (length r_table = bufmax) then
        let m := drop_ranges r_table m in
        truncate_loop fuel lo hi (ix_search lo hi m) [] m
      else truncate_loop fuel lo hi it r_table m
    end
  end.

Definition slog_truncate_range r s : res (seglog_priv M S) :=
  let lo := sr_hi r + 1 in
  let hi := file_size s in
  let m := mapping s in
  match ix_search lo hi m with
  | [] => Ok (set_mapping m (sr_hi r + 1) s)
  | ir :: it =>
    let fuel := Datatypes.S (Datatypes.S (length it)) in
    if sr_lo ir <=? sr_hi r then
      let ir' := SlogRange (sr_lo ir) (sr_hi r) (sr_data_offset ir) in
      let m := ix_insert ir' (ix_remove ir m) in
      m' ← truncate_loop fuel lo hi (tail (ix_search lo hi m)) [] m;
      mret (set_mapping m' (sr_hi r + 1) s)
    else
      m' ← truncate_loop fuel lo hi it [ir] m;
      mret (set_mapping m' (sr_hi r + 1) s)
  end.

(** One round of the loop of [_slog_insert_range]: the part of [ir] that
    [r] covers is cut away. *)
Definition slog_cut r ir m : M :=
  let m := ix_remove ir m in
  if sr_lo ir <? sr_lo r then
    if sr_hi ir >? sr_hi r then
      let lo2 := sr_hi r + 1 in
      let m := ix_insert (SlogRange lo2 (sr_hi ir) (sr_data_offset ir + (lo2 - sr_lo ir))) m in
      ix_insert (SlogRange (sr_lo ir) (sr_lo r - 1) (sr_data_offset ir)) m
    else ix_insert (SlogRange (sr_lo ir) (sr_lo r - 1) (sr_data_offset ir)) m
  else if sr_hi ir <=? sr_hi r then m
  else
    let lo2 := sr_hi r + 1 in
    ix_insert (SlogRange lo2 (sr_hi ir) (sr_data_offset ir + (lo2 - sr_lo ir))) m.

Fixpoint cut_loop (fuel : nat) r m : res M :=
  match ix_search (sr_lo r) (sr_hi r) m with
  | [] => Ok m
  | ir :: _ =>
    match fuel with
    | O => Fault OutOfFuel
    | Datatypes.S fuel => cut_loop fuel r (slog_cut r ir m)
    end
  end.

(** Joining the new range with the one that ends right before it. *)
Definition slog_combine r m : slog_range * M :=
  match ix_search (sr_lo r - 1) (sr_hi r) m with
  | [] => (r, m)
  | ir :: _ =>
    if sr_data_offset ir + sr_hi ir - sr_lo ir + 1 =? sr_data_offset r
    then (SlogRange (sr_lo ir) (sr_hi r) (sr_data_offset ir), ix_remove ir m)
    else (r, m)
  end.

Definition slog_insert_range r s : res (seglog_priv M S) :=
  if sr_lo r =? -1 then slog_truncate_range r s
  else
    m ← cut_loop (length (ix_search (sr_lo r) (sr_hi r) (mapping s))) r (mapping s);
    let '(r, m) := slog_combine r m in
    let m := ix_insert r m in
    mret (set_mapping m (if sr_hi r >=? file_size s then sr_hi r + 1 else file_size s) s).

(** ** Writing *)

(** The table entries of a write: offset, length and data offset. *)
Fixpoint write_ranges (iov : list (Z * Z)) (dsize nbytes : Z) : list slog_range * Z :=
  match iov with
  | [] => ([], nbytes)
  | (off, len) :: iov =>
    let '(rs, n) := write_ranges iov dsize (nbytes + len) in
    (SlogRange off len (dsize + nbytes) :: rs, n)
  end.

Record write_job := WriteJob {
  wj_ranges : list slog_range;
  wj_nbytes : Z;
  wj_table_offset : Z;
  wj_data_offset : Z }.

(** The space is reserved under the segment lock, *)
Definition write_reserve (iov : list (Z * Z)) s : write_job * seglog_priv M S :=
  let '(rs, nbytes) := write_ranges iov (data_size s) 0 in
  (WriteJob rs nbytes (log_size s) (data_size s),
   set_sizes (log_size s + Z.of_nat (length iov) * sizeof_slog_range) (data_size s + nbytes) s).

(** the data and the table entries are written without it, *)
Definition write_io (j : write_job) (buffer : Z -> Z) (boff : Z) s : bool * seglog_priv M S :=
  let '(ok1, data) := seg_write (wj_data_offset j) (slice buffer boff (wj_nbytes j)) (data_seg s) in
  let '(ok2, table) := seg_write (wj_table_offset j) (wj_ranges j ≫= slog_range_bytes) (table_seg s) in
  (ok1 && ok2, set_segs table data s).

(** the end of a range, from its length on disk, *)
Definition disk_range r : slog_range :=
  SlogRange (sr_lo r) (sr_lo r + sr_hi r - 1) (sr_data_offset r).

Fixpoint insert_ranges (rs : list slog_range) s : res (seglog_priv M S) :=
  match rs with
  | [] => Ok s
  | r :: rs => s ← slog_insert_range r s; insert_ranges rs s
  end.

(** and the mapping is updated under the lock again. *)
Definition write_commit (j : write_job) s : res (seglog_priv M S) :=
  insert_ranges (disk_range <$> wj_ranges j) s.

Definition seglog_write_func (iov : list (Z * Z)) (buffer : Z -> Z) (boff : Z) s
  : res (bool * seglog_priv M S) :=
  let '(j, s) := write_reserve iov s in
  match write_io j buffer boff s with
  | (true, s) => s ← write_commit j s; mret (true, s)
  | (false, s) => Ok (false, add_hard_error s)
  end.

(** ** Reading *)

Inductive source := FromBase | FromData.

(** One [segment_read] of the task list; [t_bpos] is its place in the buffer. *)
Record read_task := ReadTask { t_src : source; t_off : Z; t_len : Z; t_bpos : Z }.

Record read_cursor := ReadCursor { rc_pos : Z; rc_prev_end : Z; rc_bpos : Z; rc_tasks : list read_task }.

Definition add_task src off len prev_end (c : read_cursor) : read_cursor :=
  ReadCursor (rc_pos c + len) prev_end (rc_bpos c + len)
    (rc_tasks c ++ [ReadTask src off len (rc_bpos c)]).

(** One interval of the search. *)
Definition read_interval (lo hi : Z) (c : read_cursor) ir : read_cursor :=
  let prev_end :=
    if rc_prev_end c =? -1 then (if sr_lo ir >? lo then lo else sr_lo ir - 1) else rc_prev_end c in
  let c := if negb (prev_end =? sr_lo ir - 1)
           then add_task FromBase (rc_pos c) (sr_lo ir - rc_pos c) prev_end c else c in
  if sr_lo ir <? lo then
    add_task FromData (sr_data_offset ir + (lo - sr_lo ir))
      ((if sr_hi ir >? hi then hi else sr_hi ir) - rc_pos c + 1) (sr_hi ir) c
  else if sr_hi ir <=? hi then
    add_task FromData (sr_data_offset ir) (sr_hi ir - rc_pos c + 1) (sr_hi ir) c
  else
    add_task FromData (sr_data_offset ir) (hi - rc_pos c + 1) (sr_hi ir) c.

(** The tail of an iovec that no interval covers. *)
Definition read_rest (lo hi : Z) (c : read_cursor) : read_cursor :=
  if rc_prev_end c =? -1 then add_task FromBase lo (hi - lo + 1) (rc_prev_end c) c
  else if rc_prev_end c <? hi then
    add_task FromBase (rc_pos c) (hi - (rc_prev_end c + 1) + 1) (rc_prev_end c) c
  else c.

Definition read_iov m (c : read_cursor) (iov : Z * Z) : read_cursor :=
  let '(off, len) := iov in
  let lo := off in
  let hi := lo + len - 1 in
  read_rest lo hi
    (foldl (read_interval lo hi) (ReadCursor lo (-1) (rc_bpos c) (rc_tasks c)) (ix_search lo hi m)).

Definition read_tasks m (iov : list (Z * Z)) (boff : Z) : list read_task :=
  rc_tasks (foldl (read_iov m) (ReadCursor 0 (-1) boff []) iov).

(** The number of [ex_iov] slots allocated for the task list. *)
Definition read_slots m (iov : list (Z * Z)) : Z :=
  zsum (fun '(off, len) => 2 * Z.of_nat (length (ix_search off (off + len - 1) m)) + 1) iov + 10.

Fixpoint run_reads s (ts : list read_task) (buffer : Z -> Z) : bool * (Z -> Z) :=
  match ts with
  | [] => (true, buffer)
  | t :: ts =>
    let seg := match t_src t with FromBase => base_seg s | FromData => data_seg s end in
    match seg_read (t_off t) (t_len t) seg with
    | Some d => run_reads s ts (overlay (t_bpos t) d buffer)
    | None => (false, (run_reads s ts buffer).2)
    end
  end.

Definition seglog_read_func (iov : list (Z * Z)) (buffer : Z -> Z) (boff : Z) s
  : (bool * (Z -> Z)) * seglog_priv M S :=
  let ts := read_tasks (mapping s) iov boff in
  match run_reads s ts buffer with
  | (true, buffer) => ((true, buffer), s)
  | (false, buffer) => ((false, buffer), add_hard_error s)
  end.

(** ** Loading the table *)

(** Entries left blank by a write that failed. *)
Definition blank_range r : bool :=
  ((sr_lo r =? 0) && (sr_hi r =? 0) && (sr_data_offset r =? 0)) ||
  ((sr_hi r =? 0) && negb (sr_lo r =? -1)).

Fixpoint load_loop (fuel : nat) (i : Z) (last_bad : bool) (err_count : Z) s
  : res ((bool * Z) * seglog_priv M S) :=
  if i <? log_size s then
    match fuel with
    | O => Fault OutOfFuel
    | Datatypes.S fuel =>
      match seg_read i sizeof_slog_range (table_seg s) with
      | Some d =>
        let r := bytes_slog_range d in
        if blank_range r then load_loop fuel (i + sizeof_slog_range) true (err_count + 1) s
        else
          s ← slog_insert_range (disk_range r) s;
          load_loop fuel (i + sizeof_slog_range) false err_count s
      | None => load_loop fuel (i + sizeof_slog_range) true (err_count + 1) s
      end
    end
  else Ok ((last_bad, err_count), s).

(** The result is 0 when nothing was lost but possibly the last entry. *)
Definition slog_load s : res (Z * seglog_priv M S) :=
  let s := SegLog (mapping s) (seg_size (base_seg s)) (seg_size (table_seg s)) (seg_size (data_seg s))
             (hard_errors s) (table_seg s) (data_seg s) (base_seg s) in
  '((last_bad, err_count), s) ← load_loop (Z.to_nat (log_size s / sizeof_slog_range + 1)) 0 false 0 s;
  mret (if err_count >? 0 then (if (err_count =? 1) && last_bad then 0 else 1) else 0, s).

(** [slog_make]: an empty log on top of [base]. *)
Definition slog_make (table data base : S) : seglog_priv M S :=
  SegLog ix_empty (seg_size base) 0 0 0 table data base.

(** ** Truncating *)

Definition seglog_truncate_func (new_size : Z) s : res (bool * seglog_priv M S) :=
  if new_size <? file_size s then
    let r := SlogRange (-1) (new_size - 1) (-1) in
    let '(ok, table) := seg_write (log_size s) (slog_range_bytes r) (table_seg s) in
    let s := set_segs table (data_seg s) (set_sizes (log_size s + sizeof_slog_range) (data_size s) s) in
    if ok then
      let r := SlogRange (sr_lo r) (sr_lo r + sr_hi r - 1) (sr_data_offset r) in
      s ← slog_insert_range r s; mret (true, s)
    else Ok (false, add_hard_error s)
  else if new_size >? file_size s then
    let r := SlogRange (file_size s - 1) (new_size - file_size s) (data_size s) in
    let '(ok1, table) := seg_write (log_size s) (slog_range_bytes r) (table_seg s) in
    let '(ok2, data) := seg_write (data_size s + sr_hi r - 1) [0] (data_seg s) in
    let s := set_segs table data (set_sizes (log_size s + sizeof_slog_range)
               (data_size s + (new_size - file_size s)) s) in
    if ok1 && ok2 then s ← slog_insert_range r s; mret (true, s)
    else Ok (false, add_hard_error s)
  else Ok (true, s).

(** A negative size asks for space to be reserved and is ignored. *)
Definition seglog_truncate (new_size : Z) s : res (bool * seglog_priv M S) :=
  if new_size <? 0 then Ok (true, s) else seglog_truncate_func new_size s.

Definition seglog_size s : Z := file_size s.
Definition seglog_block_size s : Z := 1.

(** ** Merging the log into its base *)

(** A queued read from the data segment or write to the base: the segment
    offset, the length and the place in the buffer. *)
Record merge_task := MergeTask { mt_off : Z; mt_len : Z; mt_bpos : Z }.

Fixpoint merge_reads (q : list merge_task) (data : S) (buffer : Z -> Z) : bool * (Z -> Z) :=
  match q with
  | [] => (true, buffer)
  | t :: q =>
    match seg_read (mt_off t) (mt_len t) data with
    | Some d => merge_reads q data (overlay (mt_bpos t) d buffer)
    | None => (false, (merge_reads q data buffer).2)
    end
  end.

Fixpoint merge_writes (q : list merge_task) (buffer : Z -> Z) (base : S) : bool * S :=
  match q with
  | [] => (true, base)
  | t :: q =>
    let '(ok, base) := seg_write (mt_off t) (slice buffer (mt_bpos t) (mt_len t)) base in
    let '(oks, base) := merge_writes q buffer base in
    (ok && oks, base)
  end.

(** [mg_used] tells whether [qin] ever had an operation; [qout] is made anew
    when it has been waited for. *)
Record merge_state := MergeState {
  mg_qin : list merge_task;
  mg_used : bool;
  mg_qout : list merge_task;
  mg_pos : Z;
  mg_buffer : Z -> Z;
  mg_base : S }.

(** Both queues are emptied, the reads before the writes.  [opque_waitall]
    returns 0 for a queue that never had an operation, which is not
    [OP_STATE_SUCCESS]. *)
Definition merge_flush (data : S) (g : merge_state) : bool * merge_state :=
  if negb (mg_used g) then (false, g) else
  match merge_reads (mg_qin g) data (mg_buffer g) with
  | (false, buffer) => (false, MergeState [] true (mg_qout g) (mg_pos g) buffer (mg_base g))
  | (true, buffer) =>
    match mg_qout g with
    | [] => (false, MergeState [] true [] (mg_pos g) buffer (mg_base g))
    | _ =>
      let '(ok, base) := merge_writes (mg_qout g) buffer (mg_base g) in
      (ok, MergeState [] true [] 0 buffer base)
    end
  end.

(** A range longer than the buffer goes through it in pieces.  A piece that
    does not fit in the buffer runs past its end. *)
Fixpoint merge_chunks (fuel : nat) (bufsize len bpos in_off out_off : Z) (data : S) (g : merge_state)
  : res (bool * merge_state) :=
  if bpos <? len then
    match fuel with
    | O => Fault OutOfFuel
    | Datatypes.S fuel =>
      let blen := if bpos + bufsize >? len then len - bpos else len in
      if blen >? bufsize then Fault OutOfBounds
      else
        match merge_reads (mg_qin g ++ [MergeTask in_off blen 0]) data (mg_buffer g) with
        | (false, buffer) => Ok (false, MergeState [] true (mg_qout g) (mg_pos g) buffer (mg_base g))
        | (true, buffer) =>
          merge_chunks fuel bufsize len (bpos + bufsize) (in_off + blen) (out_off + blen) data
            (MergeState [] true (mg_qout g ++ [MergeTask out_off blen 0]) (mg_pos g) buffer (mg_base g))
        end
    end
  else Ok (true, MergeState (mg_qin g) (mg_used g) (mg_qout g) 0 (mg_buffer g) (mg_base g)).

Fixpoint merge_loop (rs : list slog_range) (bufsize : Z) (data : S) (g : merge_state)
  : res (bool * merge_state) :=
  match rs with
  | [] =>
    if (bufsize >? bufsize) || (mg_pos g + bufsize >? bufsize) then Ok (merge_flush data g) else Ok (true, g)
  | r :: rs =>
    let len := sr_hi r - sr_lo r + 1 in
    let '(ok, g) :=
      if (len >? bufsize) || (mg_pos g + len >? bufsize) then merge_flush data g else (true, g) in
    if negb ok then Ok (false, g)
    else if len >? bufsize then
      match merge_chunks (Z.to_nat len) bufsize len 0 (sr_data_offset r) (sr_lo r) data g with
      | Ok (true, g) => merge_loop rs bufsize data g
      | Ok (false, g) => Ok (false, g)
      | Fault f => Fault f
      end
    else
      merge_loop rs bufsize data
        (MergeState (mg_qin g ++ [MergeTask (sr_data_offset r) len (mg_pos g)]) true
           (mg_qout g ++ [MergeTask (sr_lo r) len (mg_pos g)]) (mg_pos g + len) (mg_buffer g) (mg_base g))
  end.

Definition seglog_merge_with_base_func (bufsize : Z) (buffer : Z -> Z) (truncate_old_log : bool) s
  : res (bool * seglog_priv M S) :=
  '(ok, g) ← merge_loop (ix_list (mapping s)) bufsize (data_seg s) (MergeState [] false [] 0 buffer (base_seg s));
  let s := SegLog (mapping s) (file_size s) (log_size s) (data_size s) (hard_errors s)
             (table_seg s) (data_seg s) (mg_base g) in
  if negb ok then Ok (false, s)
  else if truncate_old_log then
    s ← slog_truncate_range (SlogRange (-1) (0 - 1) (-1)) s;
    let '(ok1, table) := seg_truncate 0 (table_seg s) in
    let '(ok2, data) := seg_truncate 0 (data_seg s) in
    mret (ok1 && ok2, set_sizes 0 0 (set_segs table data s))
  else Ok (true, s).

(** ** Changes recorded in a stack of logs *)

(** A segment as [slog_changes] sees it: a log over a base, or anything else. *)
Inductive log_chain := PlainSeg | LogSeg (m : M) (base : log_chain).

(** [slog_changes_t]; the log is named by its depth in the chain. *)
Record slog_change := SlogChange { cl_seg : nat; cl_seg_offset : Z; cl_lo : Z; cl_hi : Z; cl_len : Z }.

Record changes_acc := ChangesAcc { ca_nbytes : Z; ca_prev_end : Z; ca_stack : list slog_change }.

(** The sum is [nbytes += nbytes + slog_changes(...)]. *)
Definition base_changes (rec : Z -> Z -> Z * list slog_change) lo hi (a : changes_acc) : changes_acc :=
  let '(n, st) := rec lo hi in
  ChangesAcc (ca_nbytes a + (ca_nbytes a + n)) (ca_prev_end a) (ca_stack a ++ st).

Definition clip_change (depth : nat) (lo hi : Z) ir : slog_change :=
  let '(off, clo, chi) :=
    if sr_lo ir <? lo then
      (sr_data_offset ir + lo - sr_lo ir, lo, if sr_hi ir >? hi then hi else sr_hi ir)
    else if sr_hi ir <=? hi then (sr_data_offset ir, sr_lo ir, sr_hi ir)
    else (sr_data_offset ir, sr_lo ir, hi) in
  SlogChange depth off clo chi (chi - clo + 1).

Definition changes_interval (rec : option (Z -> Z -> Z * list slog_change)) (depth : nat) (lo hi : Z)
    (a : changes_acc) ir : changes_acc :=
  let prev_end :=
    if ca_prev_end a =? -1 then (if sr_lo ir >? lo then lo else sr_lo ir - 1) else ca_prev_end a in
  let a := match rec with
           | Some rec => if negb (prev_end =? sr_lo ir - 1) then base_changes rec prev_end (sr_lo ir - 1) a else a
           | None => a
           end in
  let clog := clip_change depth lo hi ir in
  ChangesAcc (ca_nbytes a + cl_len clog) (sr_hi ir) (ca_stack a ++ [clog]).

Fixpoint slog_changes (depth : nat) (c : log_chain) (lo hi : Z) : Z * list slog_change :=
  match c with
  | PlainSeg => (0, [])
  | LogSeg m base =>
    let rec := match base with
               | PlainSeg => None
               | LogSeg _ _ => Some (slog_changes (Datatypes.S depth) base)
               end in
    let a := foldl (changes_interval rec depth lo hi) (ChangesAcc 0 (-1) []) (ix_search lo hi m) in
    let a := match rec with
             | Some rec =>
               if ca_prev_end a =? -1 then base_changes rec lo hi a
               else if ca_prev_end a <? hi then base_changes rec (ca_prev_end a) hi a
               else a
             | None => a
             end in
    (ca_nbytes a, ca_stack a)
  end.

(** ** What a mapping stands for *)

Context `{!IntervalIndexLaws M slog_range}.

Definition table_ok m : Prop := ix_ok m.

(** Offset [x] of the file is at offset [a] of the data segment. *)
Definition holds m (x a : Z) : Prop :=
  exists v, v ∈ ix_list m /\ inside v x /\ a = sr_data_offset v + (x - sr_lo v).

Lemma holds_fun m x a b : table_ok m -> holds m x a -> holds m x b -> a = b.
Proof.
  intros Hok (v & Hv & Hx & ->) (w & Hw & Hy & ->). by rewrite (ix_disjoint _ v w x Hok Hv Hw Hx Hy).
Qed.

Lemma search_elem m lo hi v : table_ok m -> searchable lo hi (ix_list m) -> v ∈ ix_search lo hi m <-> overlaps lo hi v /\ v ∈ ix_list m.
Proof. apply ix_search_elem. Qed.

Lemma search_ok m lo hi : table_ok m -> searchable lo hi (ix_list m) -> ivs_ok (ix_search lo hi m).
Proof. apply ix_search_ivs. Qed.

(** Unfolds the interval predicates for linear arithmetic. *)
Ltac iv_lia := unfold overlaps, inside, before in *; simpl in *; lia.
Ltac bounds := left; simpl in *; lia.

(** A part of a record is put back in place of it. *)
Lemma insert_part m ir v :
  table_ok m -> ir ∈ ix_list m -> sr_lo v <= sr_hi v ->
  (forall w, w ∈ ix_list m -> ~ overlaps (sr_lo v) (sr_hi v) w \/ w = ir) ->
  table_ok (ix_insert v (ix_remove ir m)) /\
  forall w, w ∈ ix_list (ix_insert v (ix_remove ir m)) <-> w = v \/ (w <> ir /\ w ∈ ix_list m).
Proof.
  intros Hok Hir Hv Hd. destruct (ix_remove_ok ir m Hok Hir) as [Hok1 Hin1].
  destruct (ix_insert_ok v (ix_remove ir m) Hok1 Hv) as [Hok2 Hin2].
  - intros w [Hne Hw]%Hin1. by destruct (Hd w Hw).
  - split; [done|]. intros w. by rewrite Hin2, Hin1.
Qed.

Lemma part_disjoint m ir a b c w :
  table_ok m -> ir ∈ ix_list m -> sr_lo ir <= a -> b <= sr_hi ir -> a <= b ->
  w ∈ ix_list m -> ~ overlaps (sr_lo (SlogRange a b c)) (sr_hi (SlogRange a b c)) w \/ w = ir.
Proof.
  intros Hok Hir Hl Hh Hv Hw. destruct (decide (w = ir)); [by right|]. left. intros Ho.
  pose proof (ix_proper _ _ Hok Hw) as Hp. apply n.
  apply (ix_disjoint _ w ir (Z.max a (sr_lo w)) Hok Hw Hir); iv_lia.
Qed.

Lemma keep_part m ir a b c :
  table_ok m -> ir ∈ ix_list m -> sr_lo ir <= a -> b <= sr_hi ir -> a <= b ->
  let m' := ix_insert (SlogRange a b c) (ix_remove ir m) in
  table_ok m' /\ forall w, w ∈ ix_list m' <-> w = SlogRange a b c \/ (w <> ir /\ w ∈ ix_list m).
Proof. intros. apply insert_part; [done..|]. intros. by eapply part_disjoint. Qed.

(** [v] holds the same data as [ir] where it covers it. *)
Definition part_of ir v : Prop :=
  sr_lo ir <= sr_lo v /\ sr_hi v <= sr_hi ir /\
  sr_data_offset v = sr_data_offset ir + (sr_lo v - sr_lo ir).

(** A cut leaves the parts of [ir] outside [r] and every other record. *)
Lemma slog_cut_ok r ir m :
  table_ok m -> ir ∈ ix_list m -> overlaps (sr_lo r) (sr_hi r) ir -> sr_lo r <= sr_hi r ->
  table_ok (slog_cut r ir m) /\
  (forall w, w ∈ ix_list (slog_cut r ir m) -> (w <> ir /\ w ∈ ix_list m) \/
     (part_of ir w /\ ~ overlaps (sr_lo r) (sr_hi r) w)) /\
  (forall w, w ∈ ix_list m -> w <> ir -> w ∈ ix_list (slog_cut r ir m)) /\
  (forall x, inside ir x -> ~ inside r x ->
     exists v, v ∈ ix_list (slog_cut r ir m) /\ part_of ir v /\ inside v x).
Proof.
  intros Hok Hir Ho Hr. unfold slog_cut, part_of.
  pose proof (ix_proper _ _ Hok Hir) as Hp.
  destruct (ix_remove_ok ir m Hok Hir) as [Hok1 Hin1].
  pose proof (keep_part m ir) as Hk. simpl in Hk.
  cases_lia.
  - destruct (Hk (sr_hi r + 1) (sr_hi ir) (sr_data_offset ir + (sr_hi r + 1 - sr_lo ir))) as [Hok2 Hin2]; [done..|iv_lia|done|iv_lia|].
    destruct (ix_insert_ok (SlogRange (sr_lo ir) (sr_lo r - 1) (sr_data_offset ir)) _ Hok2) as [Hok3 Hin3]; [simpl; lia| |].
    { intros w [->|[Hne Hw]]%Hin2; [iv_lia|]. by edestruct (part_disjoint m ir (sr_lo ir) (sr_lo r - 1)); try iv_lia; eauto. }
    split; [done|]. split_and!.
    + intros w [->|[->|?]%Hin2]%Hin3; [right|right|by left]; iv_lia.
    + intros w Hw Hne. apply Hin3. right. apply Hin2. by right.
    + intros x Hx Hnx. destruct (decide (x < sr_lo r)); eexists; rewrite Hin3.
      * split; [by left|]. iv_lia.
      * rewrite Hin2. split; [by right; left|]. iv_lia.
  - destruct (Hk (sr_lo ir) (sr_lo r - 1) (sr_data_offset ir)) as [Hok2 Hin2]; [done..|iv_lia|iv_lia|].
    split; [done|]. split_and!.
    + intros w [->|?]%Hin2; [right|by left]; iv_lia.
    + intros w Hw Hne. apply Hin2. by right.
    + intros x Hx Hnx. eexists. rewrite Hin2. split; [by left|]. iv_lia.
  - split; [done|]. split_and!.
    + intros w Hw%Hin1. by left.
    + intros w Hw Hne. by apply Hin1.
    + intros x Hx Hnx. iv_lia.
  - destruct (Hk (sr_hi r + 1) (sr_hi ir) (sr_data_offset ir + (sr_hi r + 1 - sr_lo ir))) as [Hok2 Hin2]; [done..|iv_lia|done|iv_lia|].
    split; [done|]. split_and!.
    + intros w [->|?]%Hin2; [right|by left]; iv_lia.
    + intros w Hw Hne. apply Hin2. by right.
    + intros x Hx Hnx. eexists. rewrite Hin2. split; [by left|]. iv_lia.
Qed.

Lemma part_holds ir v x :
  part_of ir v -> inside v x -> sr_data_offset v + (x - sr_lo v) = sr_data_offset ir + (x - sr_lo ir).
Proof. unfold part_of. iv_lia. Qed.

Lemma slog_cut_holds r ir m x a :
  table_ok m -> ir ∈ ix_list m -> overlaps (sr_lo r) (sr_hi r) ir -> sr_lo r <= sr_hi r -> ~ inside r x ->
  holds (slog_cut r ir m) x a <-> holds m x a.
Proof.
  intros Hok Hir Ho Hr Hx. destruct (slog_cut_ok r ir m Hok Hir Ho Hr) as (_ & Hsub & Hkeep & Hpart). split.
  - intros (v & [[_ Hv]|[Hp _]]%Hsub & Hin & ->); [by exists v|].
    exists ir. rewrite (part_holds ir v x Hp Hin). split_and!; [done| |done]. unfold part_of in Hp. iv_lia.
  - intros (v & Hv & Hin & ->). destruct (decide (v = ir)) as [->|Hne]; [|by exists v; auto].
    destruct (Hpart x Hin Hx) as (w & Hw & Hp & Hwx). exists w. by rewrite (part_holds ir w x Hp Hwx).
Qed.

(** The search after a cut finds what it had left to find. *)
Lemma slog_cut_search r ir l m :
  table_ok m -> sr_lo r <= sr_hi r -> ix_search (sr_lo r) (sr_hi r) m = ir :: l ->
  ix_search (sr_lo r) (sr_hi r) (slog_cut r ir m) = l.
Proof.
  intros Hok Hr Hs. assert (Hall := fun v => search_elem m (sr_lo r) (sr_hi r) v Hok ltac:(bounds)). rewrite Hs in Hall.
  destruct (proj1 (Hall ir)) as [Ho Hir]; [by left|].
  destruct (slog_cut_ok r ir m Hok Hir Ho Hr) as (Hok' & Hsub & Hkeep & _).
  pose proof (search_ok m (sr_lo r) (sr_hi r) Hok ltac:(bounds)) as Hl. rewrite Hs in Hl.
  pose proof Hl as (Hp & Hb & Hl')%ivs_ok_cons. apply ivs_ext; [apply search_ok; [done|bounds]|done|].
  intros v. rewrite search_elem by (done || bounds). split.
  - intros [Hov [[Hne Hv]|[_ Hno]]%Hsub]; [|done].
    by pose proof (proj2 (Hall v) (conj Hov Hv)) as [|]%elem_of_cons.
  - intros Hv. destruct (proj1 (Hall v)) as [Hov Hvm]; [by right|]. split; [done|]. apply Hkeep; [done|].
    intros ->. rewrite Forall_forall in Hb. apply Hb in Hv. iv_lia.
Qed.

(** Enough rounds remove everything [r] covers and nothing else. *)
Lemma cut_loop_ok r l m :
  table_ok m -> sr_lo r <= sr_hi r -> ix_search (sr_lo r) (sr_hi r) m = l ->
  exists m', cut_loop (length l) r m = Ok m' /\ table_ok m' /\
    (forall v, v ∈ ix_list m' -> ~ overlaps (sr_lo r) (sr_hi r) v /\ exists u, u ∈ ix_list m /\ part_of u v) /\
    forall x a, ~ inside r x -> holds m' x a <-> holds m x a.
Proof.
  intros Hok Hr. revert m Hok. induction l as [|ir l IH]; intros m Hok Hs.
  - exists m. simpl. rewrite Hs. split_and!; [done..| |done]. intros v Hv. split.
    + intros Ho. apply (not_elem_of_nil v). rewrite <- Hs. by apply search_elem; [|bounds|].
    + exists v. unfold part_of. split; [done|lia].
  - destruct (proj1 (search_elem m (sr_lo r) (sr_hi r) ir Hok ltac:(bounds))) as [Ho Hir]; [rewrite Hs; by left|].
    destruct (slog_cut_ok r ir m Hok Hir Ho Hr) as (Hok' & Hsub & _ & _).
    destruct (IH (slog_cut r ir m) Hok') as (m' & Hm' & Hokm & Hpm & Hhm); [by apply slog_cut_search|].
    exists m'. simpl. rewrite Hs. split_and!; [done..| |].
    + intros v Hv. destruct (Hpm v Hv) as (Hno & u & Hu & Hp). split; [done|].
      apply Hsub in Hu as [[_ Hu]|[Hpu _]]; [by exists u|]. exists ir. split; [done|]. unfold part_of in *. lia.
    + intros x a Hx. rewrite Hhm by done. by apply slog_cut_holds.
Qed.

(** A range that meets nothing is added. *)
Lemma insert_fresh r m :
  table_ok m -> sr_lo r <= sr_hi r -> (forall v, v ∈ ix_list m -> ~ overlaps (sr_lo r) (sr_hi r) v) ->
  table_ok (ix_insert r m) /\ (forall v, v ∈ ix_list (ix_insert r m) <-> v = r \/ v ∈ ix_list m) /\
  forall x a, holds (ix_insert r m) x a <->
    (inside r x /\ a = sr_data_offset r + (x - sr_lo r)) \/ (~ inside r x /\ holds m x a).
Proof.
  intros Hok Hr Hd. destruct (ix_insert_ok r m Hok Hr Hd) as [Hok' Hin]. split_and!; [done..|].
  intros x a. split.
  - intros (v & [->|Hv]%Hin & Hx & ->); [by left|]. right. split; [|by exists v].
    pose proof (Hd v Hv). iv_lia.
  - intros [[Hx ->]|[Hx (v & Hv & Hvx & ->)]]; [exists r|exists v]; rewrite Hin; auto.
Qed.

(** What a joined range adds to the mapping. *)
Definition joins m r r' : Prop :=
  sr_hi r' = sr_hi r /\
  (r' = r \/ exists u, u ∈ ix_list m /\ sr_lo r' = sr_lo u /\ sr_data_offset r' = sr_data_offset u /\
     sr_hi u = sr_lo r - 1 /\ sr_data_offset r = sr_data_offset u + (sr_lo r - sr_lo u)).

Lemma slog_combine_ok r m r' m' :
  table_ok m -> sr_lo r <= sr_hi r -> (forall v, v ∈ ix_list m -> ~ overlaps (sr_lo r) (sr_hi r) v) ->
  slog_combine r m = (r', m') ->
  table_ok (ix_insert r' m') /\ joins m r r' /\
  (forall v, v ∈ ix_list (ix_insert r' m') -> v = r' \/ v ∈ ix_list m) /\
  forall x a, holds (ix_insert r' m') x a <->
    (inside r x /\ a = sr_data_offset r + (x - sr_lo r)) \/ (~ inside r x /\ holds m x a).
Proof.
  intros Hok Hr Hd. unfold slog_combine, joins.
  destruct (insert_fresh r m Hok Hr Hd) as (Hok1 & Hin1 & Hh1).
  destruct (ix_search (sr_lo r - 1) (sr_hi r) m) as [|ir l] eqn:Hs.
  { intros [= <- <-]. split_and!; [done..|by left|apply Hin1|done]. }
  case_match eqn:Heq; breflect; [|intros [= <- <-]; split_and!; [done..|by left|apply Hin1|done]].
  intros [= <- <-]. destruct (proj1 (search_elem m (sr_lo r - 1) (sr_hi r) ir Hok ltac:(bounds))) as [Ho Hir]; [rewrite Hs; by left|].
  pose proof (Hd ir Hir) as Hno. pose proof (ix_proper _ _ Hok Hir) as Hp. simpl in Hp.
  destruct (ix_remove_ok ir m Hok Hir) as [Hok2 Hin2].
  destruct (insert_fresh (SlogRange (sr_lo ir) (sr_hi r) (sr_data_offset ir)) (ix_remove ir m)) as (Hok3 & Hin3 & Hh3).
  { done. } { iv_lia. }
  { intros v [Hne Hv]%Hin2 Hov. pose proof (Hd v Hv). pose proof (ix_proper _ _ Hok Hv) as Hpv. apply Hne.
    apply (ix_disjoint _ v ir (Z.max (sr_lo v) (sr_lo ir)) Hok Hv Hir); iv_lia. }
  split_and!; [done..| | |].
  - right. exists ir. split; [done|]. iv_lia.
  - intros v [->|[_ ?]%Hin2]%Hin3; [by left|by right].
  - intros x a. rewrite Hh3. destruct (decide (inside ir x)) as [Hx|Hx].
    + assert (Hm : holds m x a <-> a = sr_data_offset ir + (x - sr_lo ir)).
      { split; [|intros ->; by exists ir]. intros Ha. apply (holds_fun m x); [done..|]. by exists ir. }
      rewrite Hm. iv_lia.
    + assert (Hm : holds (ix_remove ir m) x a <-> holds m x a).
      { split; intros (v & Hv & Hvx & ->); exists v; [apply Hin2 in Hv as [_ ?]|rewrite Hin2]; split_and!; try done.
        by intros ->. }
      rewrite Hm. split; (intros [[? ?]|[? ?]]; [left; iv_lia|right; split; [iv_lia|done]]).
Qed.

(** ** Insertion *)

(** Every record lies in the file and its data in the reserved space. *)
Record slog_wf (s : seglog_priv M S) : Prop := SlogWf {
  wf_table : table_ok (mapping s);
  wf_file : forall v, v ∈ ix_list (mapping s) -> 0 <= sr_lo v /\ sr_hi v < file_size s;
  wf_data : forall v, v ∈ ix_list (mapping s) ->
    0 <= sr_data_offset v /\ sr_data_offset v + (sr_hi v - sr_lo v) < data_size s;
  wf_sizes : 0 <= file_size s /\ 0 <= log_size s /\ 0 <= data_size s }.

(** The latest range wins, and the file grows to hold it. *)
Lemma slog_insert_range_ok r s :
  slog_wf s -> 0 <= sr_lo r <= sr_hi r -> 0 <= sr_data_offset r ->
  sr_data_offset r + (sr_hi r - sr_lo r) < data_size s ->
  exists m', slog_insert_range r s = Ok (set_mapping m' (Z.max (file_size s) (sr_hi r + 1)) s) /\
    slog_wf (set_mapping m' (Z.max (file_size s) (sr_hi r + 1)) s) /\
    forall x a, holds m' x a <->
      (inside r x /\ a = sr_data_offset r + (x - sr_lo r)) \/ (~ inside r x /\ holds (mapping s) x a).
Proof.
  intros [Hok Hf Hdt Hsz] Hr Hd0 Hd1. unfold slog_insert_range. rewrite (proj2 (Z.eqb_neq _ _)) by lia.
  destruct (cut_loop_ok r (ix_search (sr_lo r) (sr_hi r) (mapping s)) (mapping s) Hok) as (m1 & Hm1 & Hok1 & Hp1 & Hh1); [lia|done|].
  rewrite Hm1. st_simpl. destruct (slog_combine r m1) as [r' m2] eqn:Hc.
  destruct (slog_combine_ok r m1 r' m2 Hok1) as (Hok2 & [Hhi Hj] & Hin2 & Hh2); [lia| |done|].
  { intros v Hv. by apply Hp1. }
  assert (Hbound : forall v, v ∈ ix_list m1 -> 0 <= sr_lo v /\ sr_hi v < file_size s /\ 0 <= sr_data_offset v /\
            sr_data_offset v + (sr_hi v - sr_lo v) < data_size s).
  { intros v (_ & u & Hu & Hpu)%Hp1. pose proof (Hf u Hu). pose proof (Hdt u Hu). unfold part_of in Hpu. lia. }
  exists (ix_insert r' m2). split_and!.
  - rewrite Hhi. do 2 f_equal. cases_lia.
  - split; simpl; [done|..|lia]; intros v [->|Hv]%Hin2; try (pose proof (Hbound v Hv); lia);
      destruct Hj as [->|(u & Hu & ? & ? & ? & ?)]; try lia; pose proof (Hbound u Hu); lia.
  - intros x a. rewrite Hh2. destruct (decide (inside r x)); [tauto|]. by rewrite (Hh1 x a).
Qed.

(** ** The file behind a log *)

Definition slog_addr m (x : Z) : option Z :=
  match ix_search x x m with
  | [] => None
  | v :: _ => Some (sr_data_offset v + (x - sr_lo v))
  end.

Lemma slog_addr_holds m x a : table_ok m -> slog_addr m x = Some a <-> holds m x a.
Proof.
  intros Hok. unfold slog_addr. assert (Hall := fun v => search_elem m x x v Hok ltac:(bounds)). split.
  - destruct (ix_search x x m) as [|v l]; [done|]. intros [= <-]. exists v.
    destruct (proj1 (Hall v)) as [Ho Hv]; [by left|]. split; [done|]. split; [iv_lia|done].
  - intros Ha. pose proof Ha as (v & Hv & Hx & ->).
    assert (Hin : v ∈ ix_search x x m) by (apply Hall; split; [iv_lia|done]).
    destruct (ix_search x x m) as [|w l]; [by apply not_elem_of_nil in Hin|].
    destruct (proj1 (Hall w)) as [Ho Hw]; [by left|]. f_equal. apply (holds_fun m x); [done| |done].
    exists w. split; [done|]. split; [iv_lia|done].
Qed.

Lemma slog_addr_none m x : table_ok m -> slog_addr m x = None <-> forall v, v ∈ ix_list m -> ~ inside v x.
Proof.
  intros Hok. split.
  - intros Hn v Hv Hx. assert (holds m x (sr_data_offset v + (x - sr_lo v))) as Ha by by exists v.
    apply slog_addr_holds in Ha; [congruence|done].
  - intros Hn. destruct (slog_addr m x) as [a|] eqn:Ha; [|done].
    apply slog_addr_holds in Ha as (v & Hv & Hx & _); [|done]. by destruct (Hn v).
Qed.

(** The byte at [x] seen through the log. *)
Definition slog_view s (x : Z) : Z :=
  match slog_addr (mapping s) x with
  | Some a => seg_byte (data_seg s) a
  | None => seg_byte (base_seg s) x
  end.

(** A plain file: the pieces of a write are laid down in order; [n] is how
    much of the buffer has been used. *)
Fixpoint file_write (iov : list (Z * Z)) (buffer : Z -> Z) (n : Z) (f : Z -> Z) : Z -> Z :=
  match iov with
  | [] => f
  | (off, len) :: iov => file_write iov buffer (n + len) (overlay off (slice buffer n len) f)
  end.

Fixpoint file_write_size (iov : list (Z * Z)) (size : Z) : Z :=
  match iov with [] => size | (off, len) :: iov => file_write_size iov (Z.max size (off + len)) end.

Definition iov_ok (iov : list (Z * Z)) : Prop := Forall (fun '(off, len) => 0 <= off /\ 0 < len) iov.

Definition iov_bytes (iov : list (Z * Z)) : Z := zsum snd iov.

Lemma iov_bytes_nonneg iov : iov_ok iov -> 0 <= iov_bytes iov.
Proof.
  unfold iov_bytes. induction 1 as [|[off len] iov ? ? IH]; simpl; [lia|]. lia.
Qed.

Lemma write_ranges_bytes iov dsize n : (write_ranges iov dsize n).2 = n + iov_bytes iov.
Proof.
  unfold iov_bytes. revert n. induction iov as [|[off len] iov IH]; intros n; simpl; [lia|].
  specialize (IH (n + len)). destruct (write_ranges iov dsize (n + len)). simpl in *. lia.
Qed.

Lemma file_write_ext iov b1 b2 n n' f g x :
  iov_ok iov -> (forall i, 0 <= i < iov_bytes iov -> b1 (n + i) = b2 (n' + i)) -> (forall y, f y = g y) ->
  file_write iov b1 n f x = file_write iov b2 n' g x.
Proof.
  intros Hok. revert n n' f g. induction Hok as [|[off len] iov Hol Hok IH]; intros n n' f g Hb Hfg; simpl; [done|].
  pose proof (iov_bytes_nonneg iov Hok) as Hnn. unfold iov_bytes in *. simpl in Hb.
  apply IH.
  - intros i Hi. rewrite <- !Z.add_assoc. apply Hb. lia.
  - intros y. unfold overlay. rewrite Hfg. f_equal. f_equal. apply slice_shift. intros i Hi. apply Hb. lia.
Qed.

(** Inserting the range of a piece lays the piece down in the file. *)
Lemma insert_piece off len d s :
  slog_wf s -> 0 <= off -> 0 < len -> 0 <= d -> d + len <= data_size s ->
  exists m', slog_insert_range (SlogRange off (off + len - 1) d) s =
      Ok (set_mapping m' (Z.max (file_size s) (off + len)) s) /\
    slog_wf (set_mapping m' (Z.max (file_size s) (off + len)) s) /\
    (forall x a, holds m' x a -> d <= a < d + len \/ holds (mapping s) x a) /\
    forall x, slog_view (set_mapping m' (Z.max (file_size s) (off + len)) s) x =
      overlay off (slice (seg_byte (data_seg s)) d len) (slog_view s) x.
Proof.
  intros Hwf Hoff Hlen Hd Hds.
  destruct (slog_insert_range_ok (SlogRange off (off + len - 1) d) s Hwf) as (m' & He & Hwf' & Hh); simpl in *; [lia..|].
  replace (off + len - 1 + 1) with (off + len) in * by lia. exists m'. split_and!; [done..| |].
  { intros x a [[? ->]|[_ ?]]%Hh; [left; iv_lia|by right]. }
  intros x. unfold slog_view. simpl. pose proof (wf_table _ Hwf') as Hok'. simpl in Hok'.
  unfold overlay. destruct (decide (off <= x < off + len)) as [Hx|Hx].
  - assert (Ha : slog_addr m' x = Some (d + (x - off))).
    { apply slog_addr_holds; [done|]. apply Hh. left. split; [iv_lia|done]. }
    by rewrite Ha, span_slice.
  - rewrite span_out by (rewrite slice_length; lia). simpl.
    destruct (slog_addr (mapping s) x) as [a|] eqn:Ha.
    + apply slog_addr_holds in Ha; [|apply Hwf]. assert (Ha' : slog_addr m' x = Some a).
      { apply slog_addr_holds; [done|]. apply Hh. right. split; [iv_lia|done]. } by rewrite Ha'.
    + destruct (slog_addr m' x) as [b|] eqn:Hb; [|done]. apply slog_addr_holds in Hb; [|done].
      apply Hh in Hb as [[? _]|[_ Hb]]; [iv_lia|]. apply slog_addr_holds in Hb; [congruence|apply Hwf].
Qed.

(** The ranges of a write, inserted in order. *)
Lemma insert_ranges_ok iov dsize n s :
  slog_wf s -> iov_ok iov -> 0 <= dsize + n -> dsize + n + iov_bytes iov <= data_size s ->
  exists m', let s' := set_mapping m' (file_write_size iov (file_size s)) s in
    insert_ranges (disk_range <$> (write_ranges iov dsize n).1) s = Ok s' /\ slog_wf s' /\
    (forall x a, holds m' x a -> dsize + n <= a < dsize + n + iov_bytes iov \/ holds (mapping s) x a) /\
    forall x, slog_view s' x = file_write iov (seg_byte (data_seg s)) (dsize + n) (slog_view s) x.
Proof.
  intros Hwf Hiov. revert n s Hwf. induction Hiov as [|[off len] iov Hol Hok IH]; intros n s Hwf H0 Hd; simpl in *.
  { exists (mapping s). destruct s. split_and!; [done..|by right|done]. }
  unfold iov_bytes in *. simpl in Hd. pose proof (iov_bytes_nonneg iov Hok) as Hnn. unfold iov_bytes in Hnn.
  specialize (IH (n + len)). destruct (write_ranges iov dsize (n + len)) as [rs nb] eqn:Hw. csimpl.
  change (disk_range (SlogRange off len (dsize + n))) with (SlogRange off (off + len - 1) (dsize + n)).
  destruct (insert_piece off len (dsize + n) s Hwf) as (m1 & -> & Hwf1 & Hh1 & Hv1); [lia..|]. st_simpl.
  destruct (IH _ Hwf1) as (m' & -> & Hwf' & Hh' & Hv'); simpl; [lia..|].
  exists m'. split_and!; [done..| |].
  { intros x a [?|[?|?]%Hh1]%Hh'; [left; lia|left; lia|by right]. }
  intros x. rewrite Z.add_assoc in Hv'. etrans; [apply (Hv' x)|]. simpl.
  apply file_write_ext; [done| |done]. by intros.
Qed.

(** ** Concurrent writers

    Only the reservation and the update of the mapping hold the segment
    lock; the data is stored in between, so writers overlap freely. *)
Context `{!SegmentLaws S}.

Record writer := Writer {
  w_iov : list (Z * Z);
  w_buffer : Z -> Z;
  w_boff : Z;
  w_job : write_job;
  w_stored : bool }.

Record log_sys := LogSys { sys_log : seglog_priv M S; sys_writers : gmap nat writer }.

(** A step is silent or makes one write visible. *)
Inductive log_step : log_sys -> option writer -> log_sys -> Prop :=
| step_reserve s p t iov buffer boff j s' :
    p !! t = None -> iov_ok iov -> write_reserve iov s = (j, s') ->
    log_step (LogSys s p) None (LogSys s' (<[t := Writer iov buffer boff j false]> p))
| step_store s p t iov buffer boff j s' :
    p !! t = Some (Writer iov buffer boff j false) -> write_io j buffer boff s = (true, s') ->
    log_step (LogSys s p) None (LogSys s' (<[t := Writer iov buffer boff j true]> p))
| step_store_fails s p t iov buffer boff j s' :
    p !! t = Some (Writer iov buffer boff j false) -> write_io j buffer boff s = (false, s') ->
    log_step (LogSys s p) None (LogSys (add_hard_error s') (delete t p))
| step_commit s p t w s' :
    p !! t = Some w -> w_stored w = true -> write_commit (w_job w) s = Ok s' ->
    log_step (LogSys s p) (Some w) (LogSys s' (delete t p)).

Inductive log_run : log_sys -> list writer -> log_sys -> Prop :=
| run_nil y : log_run y [] y
| run_snoc y ws y1 o y2 : log_run y ws y1 -> log_step y1 o y2 -> log_run y (ws ++ option_list o) y2.

(** The part of the data segment a writer has reserved. *)
Definition owns (w : writer) (a : Z) : Prop :=
  wj_data_offset (w_job w) <= a < wj_data_offset (w_job w) + wj_nbytes (w_job w).

Record writer_ok s (w : writer) : Prop := WriterOk {
  wo_iov : iov_ok (w_iov w);
  wo_ranges : write_ranges (w_iov w) (wj_data_offset (w_job w)) 0 = (wj_ranges (w_job w), wj_nbytes (w_job w));
  wo_offset : 0 <= wj_data_offset (w_job w);
  wo_space : wj_data_offset (w_job w) + wj_nbytes (w_job w) <= data_size s;
  wo_unmapped : forall x a, holds (mapping s) x a -> ~ owns w a;
  wo_stored : w_stored w = true -> forall i, 0 <= i < wj_nbytes (w_job w) ->
    seg_byte (data_seg s) (wj_data_offset (w_job w) + i) = w_buffer w (w_boff w + i) }.

Record sys_ok (y : log_sys) : Prop := SysOk {
  so_wf : slog_wf (sys_log y);
  so_writers : forall t w, sys_writers y !! t = Some w -> writer_ok (sys_log y) w;
  so_apart : forall t t' w w' a, sys_writers y !! t = Some w -> sys_writers y !! t' = Some w' ->
    owns w a -> owns w' a -> t = t' }.

Lemma writer_nbytes s w : writer_ok s w -> wj_nbytes (w_job w) = iov_bytes (w_iov w).
Proof. intros [_ Hr _ _ _ _]. by rewrite <- (Z.add_0_l (iov_bytes _)), <- write_ranges_bytes with (dsize := wj_data_offset (w_job w)), Hr. Qed.

Lemma sys_add s p t w :
  sys_ok (LogSys s p) -> writer_ok s w -> (forall t' w' a, p !! t' = Some w' -> owns w' a -> ~ owns w a) ->
  sys_ok (LogSys s (<[t := w]> p)).
Proof.
  intros [Hwf Hws Hap] Hw Hd. simpl in *. split; simpl; [done|..].
  - intros t' w' [[-> ->]|[_ ?]]%lookup_insert_Some; [done|by eapply Hws].
  - intros t1 t2 w1 w2 a [[<- <-]|[H1 H1']]%lookup_insert_Some [[<- <-]|[H2 H2']]%lookup_insert_Some Ho1 Ho2; [done|..].
    + by destruct (Hd t2 w2 a).
    + by destruct (Hd t1 w1 a).
    + by eapply Hap.
Qed.

Lemma sys_del s p t : sys_ok (LogSys s p) -> sys_ok (LogSys s (delete t p)).
Proof.
  intros [Hwf Hws Hap]. simpl in *. split; simpl; [done|..].
  - intros t' w' [_ ?]%lookup_delete_Some. by eapply Hws.
  - intros t1 t2 w1 w2 a [_ ?]%lookup_delete_Some [_ ?]%lookup_delete_Some. by eapply Hap.
Qed.

Lemma sys_reserve s p iov j s' :
  sys_ok (LogSys s p) -> iov_ok iov -> write_reserve iov s = (j, s') ->
  (forall x, slog_view s' x = slog_view s x) /\ file_size s' = file_size s /\ sys_ok (LogSys s' p) /\
  (forall buffer boff, writer_ok s' (Writer iov buffer boff j false)) /\
  forall t' w' buffer boff a, p !! t' = Some w' -> owns w' a -> ~ owns (Writer iov buffer boff j false) a.
Proof.
  intros [[Hok Hf Hdt Hsz] Hws Hap] Hiov Hr. simpl in *. unfold write_reserve in Hr.
  destruct (write_ranges iov (data_size s) 0) as [rs nb] eqn:Hw. injection Hr as <- <-.
  assert (nb = iov_bytes iov) as ->. { pose proof (write_ranges_bytes iov (data_size s) 0) as Hb. rewrite Hw in Hb. done. }
  pose proof (iov_bytes_nonneg iov Hiov). unfold sizeof_slog_range. split_and!; [done..| | |].
  - split; simpl; [split; simpl; [done|done| |lia]|..|done].
    + intros v Hv. specialize (Hdt v Hv). lia.
    + intros t w [? ? ? ? ? ?]%Hws. split; simpl; try done. lia.
  - intros. split; simpl; [done..|lia|lia| |done].
    intros x a (v & Hv & Hx & ->) Ho. specialize (Hdt v Hv). unfold owns in Ho. simpl in Ho. iv_lia.
  - intros t' w' buffer boff a [? ? ? ? ? ?]%Hws Ho Ho'. unfold owns in *. simpl in *. lia.
Qed.

(** Storing touches the reserved space only. *)
Lemma write_io_bytes s w ok s' :
  writer_ok s w -> write_io (w_job w) (w_buffer w) (w_boff w) s = (ok, s') ->
  s' = set_segs (table_seg s') (data_seg s') s /\
  (forall a, ~ owns w a -> seg_byte (data_seg s') a = seg_byte (data_seg s) a) /\
  (ok = true -> forall i, 0 <= i < wj_nbytes (w_job w) ->
     seg_byte (data_seg s') (wj_data_offset (w_job w) + i) = w_buffer w (w_boff w + i)).
Proof.
  intros Hw. unfold write_io. destruct (seg_write _ _ (data_seg s)) as [ok1 d] eqn:H1.
  destruct (seg_write _ _ (table_seg s)) as [ok2 tb]. intros [= <- <-]. simpl. split_and!; [done|..].
  - intros a Ha. eapply seg_write_outside; [done|]. rewrite slice_length. unfold owns in Ha. lia.
  - intros [-> _]%andb_prop i Hi. rewrite (seg_write_byte _ _ _ _ _ (wo_offset _ _ Hw) H1). unfold overlay.
    rewrite span_slice by lia. simpl. f_equal. lia.
Qed.

Lemma sys_store s p t w ok s' :
  sys_ok (LogSys s p) -> p !! t = Some w ->
  write_io (w_job w) (w_buffer w) (w_boff w) s = (ok, s') ->
  (forall x, slog_view s' x = slog_view s x) /\ file_size s' = file_size s /\ sys_ok (LogSys s' (delete t p)).
Proof.
  intros [Hwf Hws Hap] Hp Hio. simpl in *. pose proof (Hws t w Hp) as Hw.
  destruct (write_io_bytes s w ok s' Hw Hio) as (Hs' & Hout & _). rewrite Hs'. split_and!; [|done|].
  - intros x. unfold slog_view. simpl. destruct (slog_addr (mapping s) x) as [a|] eqn:Ha; [|done].
    apply slog_addr_holds in Ha; [|apply Hwf]. apply Hout. by apply (wo_unmapped _ _ Hw x).
  - split; simpl; [by destruct Hwf|..].
    + intros t' w' [Hne Hp']%lookup_delete_Some. destruct (Hws t' w' Hp') as [? ? ? ? ? Hst]. split; simpl; [done..|].
      intros Hs i Hi. rewrite Hout; [by apply Hst|]. intros Ho. apply Hne. apply (Hap t t' w w' _ Hp Hp' Ho). unfold owns. lia.
    + intros t1 t2 w1 w2 a [_ ?]%lookup_delete_Some [_ ?]%lookup_delete_Some. by eapply Hap.
Qed.

(** The commit of a writer that stored its data always succeeds. *)
Lemma sys_commit s p t w :
  sys_ok (LogSys s p) -> p !! t = Some w -> w_stored w = true ->
  exists s', write_commit (w_job w) s = Ok s' /\ sys_ok (LogSys s' (delete t p)) /\
    file_size s' = file_write_size (w_iov w) (file_size s) /\
    forall x, slog_view s' x = file_write (w_iov w) (w_buffer w) (w_boff w) (slog_view s) x.
Proof.
  intros [Hwf Hws Hap] Hp Hst. simpl in *. pose proof (Hws t w Hp) as Hw. pose proof (writer_nbytes s w Hw) as Hn.
  pose proof Hw as [Hiov Hr Hoff Hsp Hun Hdat].
  destruct (insert_ranges_ok (w_iov w) (wj_data_offset (w_job w)) 0 s Hwf Hiov) as (m' & Hins & Hwf' & Hh & Hv); [lia..|].
  rewrite Hr in Hins. simpl in Hins. eexists. split; [done|]. rewrite Z.add_0_r in *. split_and!; [|done|].
  - split; simpl; [done|..].
    + intros t' w' [Hne Hp']%lookup_delete_Some. destruct (Hws t' w' Hp') as [? ? ? ? Hun' ?]. split; simpl; try done.
      intros x a [?|Ha]%Hh Ho; [|by apply (Hun' x a)]. apply Hne. apply (Hap t t' w w' a Hp Hp'); [|done]. unfold owns. lia.
    + intros t1 t2 w1 w2 a [_ ?]%lookup_delete_Some [_ ?]%lookup_delete_Some. by eapply Hap.
  - intros x. etrans; [apply Hv|]. apply file_write_ext; [done| |done]. intros i Hi. apply Hdat; [done|lia].
Qed.

(** ** Invariant, simulation *)

(** What one write does to a plain file of contents [f] and size [n]. *)
Definition apply_write (fn : (Z -> Z) * Z) (w : writer) : (Z -> Z) * Z :=
  (file_write (w_iov w) (w_buffer w) (w_boff w) fn.1, file_write_size (w_iov w) fn.2).

Definition shows s (fn : (Z -> Z) * Z) : Prop := (forall x, slog_view s x = fn.1 x) /\ file_size s = fn.2.

Lemma log_step_sim y o y' fn :
  sys_ok y -> shows (sys_log y) fn -> log_step y o y' ->
  sys_ok y' /\ shows (sys_log y') (foldl apply_write fn (option_list o)).
Proof.
  intros Hok [Hv Hn] Hst. destruct Hst as [s p t iov buffer boff j s' Ht Hiov Hr|s p t iov buffer boff j s' Ht Hio
    |s p t iov buffer boff j s' Ht Hio|s p t w s' Ht Hs Hc]; simpl in *.
  - destruct (sys_reserve s p iov j s' Hok Hiov Hr) as (Hvs & Hfs & Hok' & Hw & Hd).
    split; [|split; simpl; [intros; by rewrite Hvs|by rewrite Hfs]]. apply sys_add; [done..|]. intros. by eapply Hd.
  - destruct (sys_store s p t _ true s' Hok Ht Hio) as (Hvs & Hfs & Hok').
    split; [|split; simpl; [intros; by rewrite Hvs|by rewrite Hfs]]. rewrite <- insert_delete_eq.
    destruct (so_writers _ Hok t _ Ht) as [? ? ? ? ? ?] eqn:Hw. clear Hw.
    destruct (write_io_bytes s _ true s' (so_writers _ Hok t _ Ht) Hio) as (Hs' & Hout & Hin).
    apply sys_add; [done|rewrite Hs' in *; split; simpl in *; auto|].
    intros t' w' a [Hne Hp']%lookup_delete_Some Ho Ho'. apply Hne. by apply (so_apart _ Hok t t' _ w' a Ht Hp').
  - destruct (sys_store s p t _ false s' Hok Ht Hio) as (Hvs & Hfs & [[] ? ?]).
    split; [|split; simpl; [intros x; by rewrite <- Hv, <- Hvs|by rewrite Hfs]].
    split; [by split|..]; simpl in *; [|done]. intros t' w' [] %so_writers0. by split.
  - destruct (sys_commit s p t w Hok Ht Hs) as (s2 & Hc2 & Hok2 & Hfs & Hvs).
    rewrite Hc2 in Hc. injection Hc as <-. split; [done|]. split; simpl; [|by rewrite Hfs, Hn].
    intros x. rewrite Hvs. apply file_write_ext; [apply (so_writers _ Hok t w Ht)|done|done].
Qed.

(** ** Reads *)

(** Where the byte at [x] is kept. *)
Definition origin m (x : Z) : source * Z :=
  match slog_addr m x with Some a => (FromData, a) | None => (FromBase, x) end.

Definition task_cells (t : read_task) : list (source * Z) := (fun a => (t_src t, a)) <$> seqZ (t_off t) (t_len t).

(** The tasks fill the buffer from [b] on without gaps. *)
Fixpoint tiled (b : Z) (ts : list read_task) : Prop :=
  match ts with [] => True | t :: ts => t_bpos t = b /\ 0 <= t_len t /\ tiled (b + t_len t) ts end.

(** [new] fetches the bytes [lo, lo+n) of the file into the buffer at [b]. *)
Definition fetches m (lo n b : Z) (new : list read_task) : Prop :=
  new ≫= task_cells = origin m <$> seqZ lo n /\ tiled b new.

Lemma tiled_snoc b ts t :
  tiled b ts -> 0 <= t_len t -> t_bpos t = b + zsum t_len ts -> tiled b (ts ++ [t]).
Proof.
  revert b. induction ts as [|u ts IH]; intros b; simpl.
  - intros _ Hl Ht. split_and!; [lia|lia|done].
  - intros (Hb & Hl & Hts) Ht He. split_and!; [done..|]. apply IH; [done..|]. lia.
Qed.

Lemma fetches_len m lo n b new : 0 <= n -> fetches m lo n b new -> zsum t_len new = n.
Proof.
  intros Hn [Hc Ht]. assert (Hl : Z.of_nat (length (new ≫= task_cells)) = zsum t_len new).
  { clear Hc. revert b Ht. induction new as [|t new IH]; intros b; [done|]. intros (_ & Hl & Ht).
    rewrite bind_cons, length_app, Nat2Z.inj_add, (IH _ Ht). unfold task_cells at 1.
    rewrite length_fmap, length_seqZ. simpl. lia. }
  rewrite <- Hl, Hc, length_fmap, length_seqZ. lia.
Qed.

Lemma fetches_snoc m lo n b new src off len :
  0 <= n -> 0 <= len -> fetches m lo n b new ->
  (forall i, 0 <= i < len -> origin m (lo + n + i) = (src, off + i)) ->
  fetches m lo (n + len) b (new ++ [ReadTask src off len (b + n)]).
Proof.
  intros Hn Hlen Hf Ho. pose proof (fetches_len m lo n b new Hn Hf) as Hz. destruct Hf as [Hc Ht]. split.
  - rewrite bind_app, Hc, seqZ_app, fmap_app by lia. f_equal. csimpl. rewrite app_nil_r. unfold task_cells. simpl.
    apply list_eq. intros i. rewrite !list_lookup_fmap. destruct (decide (Z.of_nat i < len)).
    + rewrite !lookup_seqZ_lt by lia. simpl. by rewrite Ho by lia.
    + by rewrite !lookup_seqZ_ge by lia.
  - apply tiled_snoc; simpl; [done|lia|lia].
Qed.

Section read_iov.
Context (m : M) (lo hi b0 : Z) (ts0 : list read_task).
Context (Hm : table_ok m) (Hlo : 0 <= lo <= hi).

(** The cursor has dealt with the bytes from [lo] to [rc_pos]. *)
Record cursor_ok (c : read_cursor) : Prop := CursorOk {
  co_tasks : exists new, rc_tasks c = ts0 ++ new /\ fetches m lo (rc_pos c - lo) b0 new;
  co_bpos : rc_bpos c = b0 + (rc_pos c - lo);
  co_pos : lo <= rc_pos c <= hi + 1 }.

Lemma cursor_add c src off len p :
  cursor_ok c -> 0 <= len -> rc_pos c + len <= hi + 1 ->
  (forall i, 0 <= i < len -> origin m (rc_pos c + i) = (src, off + i)) ->
  cursor_ok (add_task src off len p c).
Proof.
  intros [(new & Hnew & Hf) Hb Hp] Hlen Hpl Ho. split; simpl; [|lia..].
  exists (new ++ [ReadTask src off len (rc_bpos c)]). split; [by rewrite Hnew, app_assoc|].
  rewrite Hb. replace (rc_pos c + len - lo) with (rc_pos c - lo + len) by lia.
  apply fetches_snoc; [lia..|done|]. intros i Hi. rewrite <- Ho by lia. f_equal. lia.
Qed.

(** [l] is what is left of the search; nothing of it has been reached. *)
Record search_left (c : read_cursor) (l : list slog_range) : Prop := SearchLeft {
  sl_prev : (rc_prev_end c = -1 /\ rc_pos c = lo) \/
    (0 <= rc_prev_end c /\ rc_pos c = Z.min (rc_prev_end c) hi + 1);
  sl_all : forall v x, v ∈ ix_list m -> inside v x -> rc_pos c <= x <= hi -> v ∈ l;
  sl_ahead : forall v, v ∈ l -> v ∈ ix_list m /\ 0 <= sr_lo v /\ overlaps lo hi v /\
    (rc_prev_end c <> -1 -> rc_prev_end c < sr_lo v) }.

Lemma origin_data v x : v ∈ ix_list m -> inside v x -> origin m x = (FromData, sr_data_offset v + (x - sr_lo v)).
Proof.
  intros Hv Hx. unfold origin. rewrite (proj2 (slog_addr_holds m x (sr_data_offset v + (x - sr_lo v)) Hm)); [done|].
  by exists v.
Qed.

Lemma origin_hole c ir l x :
  ivs_ok (ir :: l) -> search_left c (ir :: l) -> rc_pos c <= x < sr_lo ir -> x <= hi -> origin m x = (FromBase, x).
Proof.
  intros Hl [_ Hall _] Hx Hxh. unfold origin. destruct (slog_addr m x) as [a|] eqn:Ha; [|done].
  apply slog_addr_holds in Ha as (v & Hv & Hin & _); [|done].
  apply ivs_ok_cons in Hl as (Hp & Hb & _). rewrite Forall_forall in Hb.
  pose proof (Hall v x Hv Hin ltac:(lia)) as [->|Hvl%Hb]%elem_of_cons; iv_lia.
Qed.

(** One interval, unless it starts one byte into the request. *)
Lemma read_interval_ok c ir l :
  ivs_ok (ir :: l) -> cursor_ok c -> search_left c (ir :: l) ->
  (rc_prev_end c = -1 -> sr_lo ir <> lo + 1) ->
  cursor_ok (read_interval lo hi c ir) /\ search_left (read_interval lo hi c ir) l /\
  rc_prev_end (read_interval lo hi c ir) <> -1.
Proof.
  intros Hl Hc Hs Hone. pose proof Hl as (Hp & Hb & Hl')%ivs_ok_cons.
  destruct (sl_ahead _ _ Hs ir ltac:(by left)) as (Hir & Hir0 & Hov & Hprev). pose proof (co_pos _ Hc) as Hpos.
  assert (Hhole : forall i, 0 <= i < sr_lo ir - rc_pos c -> origin m (rc_pos c + i) = (FromBase, rc_pos c + i)).
  { intros i Hi. apply (origin_hole c ir l); [done..|lia|iv_lia]. }
  pose proof (sl_prev _ _ Hs) as Hpr.
  (* after the hole the cursor stands on the first byte of [ir] in the request *)
  assert (Hmid : exists c', read_interval lo hi c ir =
      add_task FromData (sr_data_offset ir + (rc_pos c' - sr_lo ir)) (Z.min hi (sr_hi ir) - rc_pos c' + 1) (sr_hi ir) c' /\
      cursor_ok c' /\ rc_pos c' = Z.max lo (sr_lo ir)).
  { unfold read_interval. set (pe := if rc_prev_end c =? -1 then _ else _). destruct (pe =? sr_lo ir - 1) eqn:Hpe; breflect.
    - exists c. assert (rc_pos c = Z.max lo (sr_lo ir)) as Hpc by (subst pe; cases_lia; iv_lia).
      split; [|done]. simpl. cases_lia; f_equal; iv_lia.
    - eexists. split; [|split; [apply (cursor_add c FromBase (rc_pos c) (sr_lo ir - rc_pos c) pe); [done|..|exact Hhole]|]];
        subst pe; simpl; cases_lia; try iv_lia; f_equal; iv_lia. }
  destruct Hmid as (c' & -> & Hc' & Hpc). simpl in Hp. split_and!; simpl.
  - apply cursor_add; [done|iv_lia|lia|]. intros i Hi.
    rewrite (origin_data ir (rc_pos c' + i) Hir); [|iv_lia]. f_equal. lia.
  - split; simpl; [right; lia|..].
    + intros v x Hv Hx Hxh. pose proof (sl_all _ _ Hs v x Hv Hx ltac:(iv_lia)) as [->|]%elem_of_cons; [iv_lia|done].
    + intros v Hvl. destruct (sl_ahead _ _ Hs v ltac:(by right)) as (? & ? & ? & _). split_and!; [done..|].
      rewrite Forall_forall in Hb. apply Hb in Hvl. iv_lia.
  - iv_lia.
Qed.

Lemma read_intervals_ok l c :
  ivs_ok l -> cursor_ok c -> search_left c l ->
  (forall ir l', l = ir :: l' -> rc_prev_end c = -1 -> sr_lo ir <> lo + 1) ->
  cursor_ok (foldl (read_interval lo hi) c l) /\ search_left (foldl (read_interval lo hi) c l) [].
Proof.
  revert c. induction l as [|ir l IH]; intros c Hl Hc Hs Hone; simpl; [done|].
  destruct (read_interval_ok c ir l Hl Hc Hs) as (Hc' & Hs' & Hpe); [by apply (Hone ir l)|].
  apply IH; [by apply ivs_ok_cons in Hl as (_ & _ & ?)|done..].
Qed.

End read_iov.

(** No mapped range starts exactly one byte into a piece of the request
    whose first byte is not mapped. *)
Definition no_byte_hole m (iov : list (Z * Z)) : Prop :=
  Forall (fun '(off, len) => match ix_search off (off + len - 1) m with
                             | ir :: _ => sr_lo ir <> off + 1 | [] => True end) iov.

(** The task list of a request, and its end in the buffer. *)
Fixpoint fetches_all m (iov : list (Z * Z)) (b : Z) (ts : list read_task) : Prop :=
  match iov with
  | [] => ts = []
  | (off, len) :: iov => exists new ts', ts = new ++ ts' /\ fetches m off len b new /\ fetches_all m iov (b + len) ts'
  end.

Lemma read_iov_ok m off len c :
  table_ok m -> (forall v, v ∈ ix_list m -> 0 <= sr_lo v) -> 0 <= off -> 0 < len ->
  match ix_search off (off + len - 1) m with ir :: _ => sr_lo ir <> off + 1 | [] => True end ->
  exists new, rc_tasks (read_iov m c (off, len)) = rc_tasks c ++ new /\
    rc_bpos (read_iov m c (off, len)) = rc_bpos c + len /\ fetches m off len (rc_bpos c) new.
Proof.
  intros Hm Hpos Hoff Hlen Hone. unfold read_iov. set (c0 := ReadCursor off (-1) _ _). set (hi := off + len - 1) in *.
  assert (Hc0 : cursor_ok m off hi (rc_bpos c) (rc_tasks c) c0).
  { split; simpl; [exists []|lia|lia]. by rewrite app_nil_r, Z.sub_diag. }
  assert (Hs0 : search_left m off hi c0 (ix_search off hi m)).
  { split; simpl; [by left|..].
    - intros v x Hv Hx Hxh. apply search_elem; [done|bounds|]. split; [iv_lia|done].
    - intros v [Ho Hv]%search_elem; [|done|bounds]. split_and!; [done|by apply Hpos|done|done]. }
  destruct (read_intervals_ok m off hi (rc_bpos c) (rc_tasks c) Hm ltac:(lia) _ c0 (search_ok _ off hi Hm ltac:(bounds)) Hc0 Hs0) as [Hc Hs].
  { intros ir l' Heq _. by rewrite Heq in Hone. }
  generalize dependent (foldl (read_interval off hi) c0 (ix_search off hi m)). intros c1 Hc Hs.
  assert (Hbase : forall i, 0 <= i < hi + 1 - rc_pos c1 -> origin m (rc_pos c1 + i) = (FromBase, rc_pos c1 + i)).
  { intros i Hi. unfold origin. destruct (slog_addr m _) as [a|] eqn:Ha; [|done].
    apply slog_addr_holds in Ha as (v & Hv & Hin & _); [|done].
    pose proof (sl_all _ _ _ _ _ Hs v _ Hv Hin ltac:(lia)) as []%not_elem_of_nil. }
  assert (Hc2 : cursor_ok m off hi (rc_bpos c) (rc_tasks c) (read_rest off hi c1) /\ rc_pos (read_rest off hi c1) = hi + 1).
  { unfold read_rest. pose proof (sl_prev _ _ _ _ _ Hs) as Hp. pose proof (co_pos _ _ _ _ _ _ Hc).
    cases_lia; simpl; (split; [|lia]); try done;
      (apply cursor_add; [done|lia|lia|]; intros i Hi; rewrite Hbase by lia; f_equal; lia). }
  destruct Hc2 as [[(new & Hnew & Hf) Hb _] Hp]. rewrite Hp in *. exists new. subst hi.
  replace (off + len - 1 + 1 - off) with len in * by lia. done.
Qed.

(** A plain file: the pieces of a request go to the buffer one after the other. *)
Fixpoint file_read (iov : list (Z * Z)) (b : Z) (f buffer : Z -> Z) : Z -> Z :=
  match iov with
  | [] => buffer
  | (off, len) :: iov => file_read iov (b + len) f (overlay b (slice f off len) buffer)
  end.

Definition cell_byte s (c : source * Z) : Z :=
  match c.1 with FromBase => seg_byte (base_seg s) c.2 | FromData => seg_byte (data_seg s) c.2 end.

Lemma origin_byte s x : cell_byte s (origin (mapping s) x) = slog_view s x.
Proof. unfold origin, slog_view. by destruct (slog_addr (mapping s) x). Qed.

Lemma run_reads_tiled s ts b buffer buffer' x :
  tiled b ts -> run_reads s ts buffer = (true, buffer') ->
  buffer' x = overlay b (cell_byte s <$> (ts ≫= task_cells)) buffer x.
Proof.
  revert b buffer. induction ts as [|t ts IH]; intros b buffer; cbn [tiled run_reads].
  { intros _ [= <-]. unfold overlay. by rewrite span_out by (simpl; lia). }
  intros (Hb & Hl & Ht). destruct (seg_read _ _ _) as [d|] eqn:Hd; [|done]. intros Hr.
  apply seg_read_slice in Hd; [|done]. rewrite (IH (b + t_len t) _ Ht Hr). rewrite bind_cons, fmap_app.
  assert (Hc : cell_byte s <$> task_cells t = d).
  { rewrite Hd. unfold task_cells, slice. rewrite <- list_fmap_compose. apply list_fmap_ext.
    intros i a _. unfold cell_byte. simpl. by destruct (t_src t). }
  rewrite Hc, <- overlay_next, Hb. do 2 f_equal. rewrite Hd, slice_length. lia.
Qed.

Lemma run_reads_app s ts1 ts2 buffer buffer' :
  run_reads s (ts1 ++ ts2) buffer = (true, buffer') ->
  exists buffer1, run_reads s ts1 buffer = (true, buffer1) /\ run_reads s ts2 buffer1 = (true, buffer').
Proof.
  revert buffer. induction ts1 as [|t ts1 IH]; intros buffer; simpl; [by eauto|].
  destruct (seg_read _ _ _); [apply IH|done].
Qed.

Lemma read_tasks_ok m iov c :
  table_ok m -> (forall v, v ∈ ix_list m -> 0 <= sr_lo v) -> iov_ok iov -> no_byte_hole m iov ->
  exists ts, rc_tasks (foldl (read_iov m) c iov) = rc_tasks c ++ ts /\ fetches_all m iov (rc_bpos c) ts.
Proof.
  intros Hm Hpos Hiov. revert c. induction Hiov as [|[off len] iov Hol Hiov IH]; intros c Hone.
  { exists []. by rewrite app_nil_r. }
  apply Forall_cons in Hone as [Ho Hone]. cbn [foldl].
  destruct (read_iov_ok m off len c Hm Hpos) as (new & Ht & Hb & Hf); [lia..|done|].
  destruct (IH (read_iov m c (off, len)) Hone) as (ts & Hts & Hall).
  exists (new ++ ts). rewrite Hts, Ht, app_assoc. split; [done|]. exists new, ts. rewrite Hb in Hall. done.
Qed.

Lemma file_read_ext iov b f g1 g2 x : (forall y, g1 y = g2 y) -> file_read iov b f g1 x = file_read iov b f g2 x.
Proof.
  revert b g1 g2. induction iov as [|[off len] iov IH]; intros b g1 g2 Hg; simpl; [done|].
  apply IH. intros y. unfold overlay. by rewrite Hg.
Qed.

Lemma run_fetches s iov b ts buffer buffer' x :
  fetches_all (mapping s) iov b ts -> run_reads s ts buffer = (true, buffer') ->
  buffer' x = file_read iov b (slog_view s) buffer x.
Proof.
  revert b ts buffer. induction iov as [|[off len] iov IH]; intros b ts buffer; simpl.
  { intros ->. simpl. by intros [= <-]. }
  intros (new & ts' & -> & [Hc Ht] & Hall) (buffer1 & H1 & H2)%run_reads_app.
  rewrite (IH _ _ _ Hall H2). apply file_read_ext. intros y. rewrite (run_reads_tiled s new b buffer buffer1 y Ht H1).
  rewrite Hc. f_equal. unfold slice. rewrite <- list_fmap_compose. apply list_fmap_ext. intros i a _. apply origin_byte.
Qed.

(** The task list stays within the slots allocated for it. *)
Lemma read_intervals_count lo hi l c :
  Z.of_nat (length (rc_tasks (foldl (read_interval lo hi) c l))) <= Z.of_nat (length (rc_tasks c)) + 2 * Z.of_nat (length l).
Proof.
  revert c. induction l as [|ir l IH]; intros c; cbn [foldl]; [simpl; lia|].
  etrans; [apply IH|]. cbn [length]. unfold read_interval.
  repeat case_match; cbn [add_task rc_tasks]; rewrite ?length_app; cbn [length]; lia.
Qed.

Lemma read_iovs_count m iov c :
  Z.of_nat (length (rc_tasks (foldl (read_iov m) c iov))) <= Z.of_nat (length (rc_tasks c)) + (read_slots m iov - 10).
Proof.
  unfold read_slots. revert c. induction iov as [|[off len] iov IH]; intros c; cbn [foldl zsum]; [lia|].
  etrans; [apply IH|]. unfold read_iov.
  pose proof (read_intervals_count off (off + len - 1) (ix_search off (off + len - 1) m) (ReadCursor off (-1) (rc_bpos c) (rc_tasks c))) as Hc.
  unfold read_rest. repeat case_match; cbn [add_task rc_tasks] in *; rewrite ?length_app; cbn [length]; lia.
Qed.

(** ** Truncation *)

Lemma drop_ranges_ok tbl m :
  table_ok m -> NoDup tbl -> (forall w, w ∈ tbl -> w ∈ ix_list m) ->
  table_ok (drop_ranges tbl m) /\ forall w, w ∈ ix_list (drop_ranges tbl m) <-> w ∉ tbl /\ w ∈ ix_list m.
Proof.
  intros Hm Hnd Hin. by apply ix_remove_all_ok.
Qed.

(** [skipped] are the records the iterator was moved past. *)
Lemma truncate_loop_ok fuel lo hi it tbl skipped m :
  table_ok m -> searchable lo hi (ix_list m) -> NoDup (tbl ++ it) -> (forall w, w ∈ tbl ++ it -> w ∈ ix_search lo hi m) ->
  (forall w, w ∈ ix_search lo hi m -> w ∈ tbl ++ it \/ w ∈ skipped) ->
  (length it + length skipped < fuel)%nat ->
  exists m', truncate_loop fuel lo hi it tbl m = Ok m' /\ table_ok m' /\
    (forall w, w ∈ ix_list m' -> w ∈ ix_list m /\ (overlaps lo hi w -> w ∈ skipped)) /\
    forall w, w ∈ ix_list m -> ~ overlaps lo hi w -> w ∈ ix_list m'.
Proof.
  revert it tbl skipped m. induction fuel as [|fuel IH]; intros it tbl skipped m Hm Hse Hnd Hsub Hall Hf; [lia|].
  assert (Hsrch := fun w => search_elem m lo hi w Hm Hse). simpl. destruct it as [|v it].
  - rewrite app_nil_r in *. destruct (drop_ranges_ok tbl m Hm Hnd) as [Hm' Hin'].
    { intros w Hw%Hsub. by apply Hsrch. }
    exists (drop_ranges tbl m). split_and!; [done..| |].
    + intros w [Hw Hwm]%Hin'. split; [done|]. intros Ho. destruct (Hall w) as [|]; [by apply Hsrch|done|done].
    + intros w Hw Hno. apply Hin'. split; [|done]. intros Hwt%Hsub%Hsrch. tauto.
  - assert (tbl ++ v :: it = (tbl ++ [v]) ++ it) as Heq by by rewrite <- app_assoc.
    rewrite Heq in Hnd, Hsub, Hall. case_decide; [|apply IH; [done..|simpl in Hf; lia]].
    pose proof (proj1 (proj1 (NoDup_app _ _) Hnd)) as Hnd1.
    destruct (drop_ranges_ok (tbl ++ [v]) m Hm Hnd1) as [Hm' Hin'].
    { intros w Hw. apply Hsrch, Hsub. set_solver. }
    assert (Hse' : searchable lo hi (ix_list (drop_ranges (tbl ++ [v]) m))) by (eapply searchable_incl; [|exact Hse]; by intros w [_ ?]%Hin').
    assert (Hsrch' := fun w => search_elem (drop_ranges (tbl ++ [v]) m) lo hi w Hm' Hse').
    destruct (IH (ix_search lo hi (drop_ranges (tbl ++ [v]) m)) [] [] _ Hm' Hse') as (m2 & He & Hm2 & Hs2 & Hk2).
    + by apply ivs_nodup, search_ok.
    + done.
    + by left.
    + assert (length (ix_search lo hi (drop_ranges (tbl ++ [v]) m)) <= length (it ++ skipped))%nat as Hlen.
      { apply submseteq_length, NoDup_submseteq; [by apply ivs_nodup, search_ok|].
        intros w [Ho [Hnw Hw]%Hin']%Hsrch'. assert (w ∈ ix_search lo hi m) as Hws by by apply Hsrch.
        apply Hall in Hws. set_solver. }
      rewrite length_app in Hlen. simpl in *. lia.
    + exists m2. split_and!; [done..| |].
      * intros w Hw. destruct (Hs2 w Hw) as [[_ Hwm]%Hin' Hno]. split; [done|]. intros Ho. by apply Hno, not_elem_of_nil in Ho.
      * intros w Hw Hno. apply Hk2; [|done]. apply Hin'. split; [|done]. intros Hwt.
        assert (w ∈ ix_search lo hi m) as [Ho _]%Hsrch; [|done]. apply Hsub. set_solver.
Qed.

Lemma truncate_searchable s n : slog_wf s -> searchable n (file_size s) (ix_list (mapping s)).
Proof.
  intros [_ Hf _ _]. destruct (decide (n <= file_size s + 1)); [by left|right]. intros v Hv. specialize (Hf v Hv). simpl. lia.
Qed.

(** A search whose first record does not straddle the new end. *)
Lemma truncate_dropped r s ir it :
  slog_wf s -> ix_search (sr_hi r + 1) (file_size s) (mapping s) = ir :: it ->
  exists m', truncate_loop (2 + length it) (sr_hi r + 1) (file_size s) it [ir] (mapping s) = Ok m' /\ table_ok m' /\
    forall w, w ∈ ix_list m' <-> w ∈ ix_list (mapping s) /\ sr_hi w <= sr_hi r.
Proof.
  intros Hwf Hs. pose proof (truncate_searchable s (sr_hi r + 1) Hwf) as Hse. destruct Hwf as [Hm Hf _ _].
  pose proof (ivs_nodup _ (search_ok _ (sr_hi r + 1) (file_size s) Hm Hse)) as Hnd. rewrite Hs in Hnd.
  destruct (truncate_loop_ok (2 + length it) (sr_hi r + 1) (file_size s) it [ir] [] (mapping s) Hm Hse Hnd)
    as (m' & He & Hm' & Hin & Hkeep); [by rewrite Hs|rewrite Hs; by left|simpl; lia|].
  exists m'. split_and!; [done..|]. intros w. split.
  - intros Hw. destruct (Hin w Hw) as [Hwm Hno]. split; [done|]. pose proof (Hf w Hwm). pose proof (ix_proper _ _ Hm Hwm).
    destruct (decide (sr_hi w <= sr_hi r)); [done|]. exfalso. apply (not_elem_of_nil w). apply Hno. iv_lia.
  - intros [Hw Hle]. apply Hkeep; [done|iv_lia].
Qed.

(** A first record that does straddle it is cut, and the loop misses the next. *)
Lemma truncate_cut r s ir it :
  slog_wf s -> ix_search (sr_hi r + 1) (file_size s) (mapping s) = ir :: it -> sr_lo ir <= sr_hi r ->
  let m1 := ix_insert (SlogRange (sr_lo ir) (sr_hi r) (sr_data_offset ir)) (ix_remove ir (mapping s)) in
  exists m', truncate_loop (2 + length it) (sr_hi r + 1) (file_size s)
      (tail (ix_search (sr_hi r + 1) (file_size s) m1)) [] m1 = Ok m' /\ table_ok m' /\
    (forall w, w ∈ ix_list m' ->
       w = SlogRange (sr_lo ir) (sr_hi r) (sr_data_offset ir) \/ (w <> ir /\ w ∈ ix_list (mapping s))) /\
    forall w, w = SlogRange (sr_lo ir) (sr_hi r) (sr_data_offset ir) \/
      (w <> ir /\ w ∈ ix_list (mapping s) /\ sr_hi w <= sr_hi r) -> w ∈ ix_list m'.
Proof.
  intros Hwf Hs Hst m1. pose proof (truncate_searchable s (sr_hi r + 1) Hwf) as Hse. destruct Hwf as [Hm Hf _ _].
  assert (Hsrch := fun w => search_elem (mapping s) (sr_hi r + 1) (file_size s) w Hm Hse).
  rewrite Hs in Hsrch. destruct (proj1 (Hsrch ir)) as [Ho Hir]; [by left|]. pose proof (ix_proper _ _ Hm Hir) as Hp.
  destruct (keep_part (mapping s) ir (sr_lo ir) (sr_hi r) (sr_data_offset ir) Hm Hir) as [Hm1 Hin1]; [lia|iv_lia|lia|].
  fold m1 in Hm1, Hin1. pose proof (search_ok _ (sr_hi r + 1) (file_size s) Hm Hse) as Hok. rewrite Hs in Hok.
  apply ivs_ok_cons in Hok as (_ & Hb & Hok). rewrite Forall_forall in Hb.
  assert (Hse1 : searchable (sr_hi r + 1) (file_size s) (ix_list m1)).
  { destruct Hse as [?|Hse]; [by left|right]. intros w [->|[_ Hw]]%Hin1; [simpl; lia|by apply Hse]. }
  assert (Hs1 : ix_search (sr_hi r + 1) (file_size s) m1 = it).
  { apply ivs_ext; [by apply search_ok|done|]. intros w. rewrite search_elem by done. rewrite Hin1. split.
    - intros [Hw [->|[Hne Hwm]]]; [iv_lia|]. by pose proof (proj2 (Hsrch w) (conj Hw Hwm)) as [|]%elem_of_cons.
    - intros Hw. destruct (proj1 (Hsrch w)) as [? ?]; [by right|]. split; [done|]. right. split; [|done].
      intros ->. apply Hb in Hw. iv_lia. }
  rewrite Hs1. destruct (truncate_loop_ok (2 + length it) (sr_hi r + 1) (file_size s) (tail it) []
    (match it with [] => [] | v :: _ => [v] end) m1) as (m' & He & Hm' & Hsub & Hkeep); simpl; try done.
  - apply ivs_nodup in Hok. destruct it; [done|]. by apply NoDup_cons in Hok as [_ ?].
  - rewrite Hs1. destruct it; [done|]. by right.
  - rewrite Hs1. intros w Hw. destruct it; [by left|]. apply elem_of_cons in Hw as [->|?]; [right; by left|by left].
  - destruct it; simpl; lia.
  - exists m'. split_and!; [done..| |].
    + intros w Hw. apply Hin1. by apply Hsub.
    + intros w [->|(Hne & Hw & Hle)]; (apply Hkeep; [apply Hin1; auto|iv_lia]).
Qed.

(** The file below the new end is left as it was. *)
Lemma slog_truncate_range_ok r s :
  slog_wf s ->
  exists m', slog_truncate_range r s = Ok (set_mapping m' (sr_hi r + 1) s) /\ table_ok m' /\
    (forall x a, x <= sr_hi r -> holds m' x a <-> holds (mapping s) x a) /\
    ((forall v, v ∈ ix_list (mapping s) -> ~ (sr_lo v <= sr_hi r < sr_hi v)) ->
     forall w, w ∈ ix_list m' <-> w ∈ ix_list (mapping s) /\ sr_hi w <= sr_hi r).
Proof.
  intros Hwf. pose proof Hwf as [Hm Hf _ _]. unfold slog_truncate_range. pose proof (truncate_searchable s (sr_hi r + 1) Hwf) as Hse.
  assert (Hsrch := fun w => search_elem (mapping s) (sr_hi r + 1) (file_size s) w Hm Hse).
  destruct (ix_search (sr_hi r + 1) (file_size s) (mapping s)) as [|ir it] eqn:Hs.
  { exists (mapping s). split_and!; [done..|]. intros _ w. split; [|tauto]. intros Hw. split; [done|].
    pose proof (Hf w Hw). pose proof (ix_proper _ _ Hm Hw). destruct (decide (sr_hi w <= sr_hi r)); [done|].
    exfalso. apply (not_elem_of_nil w), Hsrch. split; [iv_lia|done]. }
  destruct (proj1 (Hsrch ir)) as [Ho Hir]; [by left|]. pose proof (ix_proper _ _ Hm Hir) as Hp.
  case_match eqn:Hst; breflect.
  - destruct (truncate_cut r s ir it Hwf Hs Hst) as (m' & He & Hm' & Hsub & Hkeep). cbn [Nat.add] in He. rewrite He.
    exists m'. split_and!; [done..| |].
    + intros x a Hx. split; intros (v & Hv & Hin & ->).
      * apply Hsub in Hv as [->|[_ Hv]]; [|by exists v]. exists ir. split; [done|]. iv_lia.
      * destruct (decide (v = ir)) as [->|Hne].
        { eexists. split; [by apply Hkeep; left|]. iv_lia. }
        exists v. split; [|done]. apply Hkeep. right. split_and!; [done..|].
        destruct (decide (sr_hi v <= sr_hi r)); [done|]. exfalso. apply Hne.
        apply (ix_disjoint _ v ir (sr_hi r + 1) Hm Hv Hir); iv_lia.
    + intros Hno. destruct (Hno ir Hir). iv_lia.
  - destruct (truncate_dropped r s ir it Hwf Hs) as (m' & He & Hm' & Hin). cbn [Nat.add] in He. rewrite He.
    exists m'. split_and!; [done..| |done].
    intros x a Hx. split; intros (v & Hv & Hix & ->); exists v; [apply Hin in Hv as [? _]; done|].
    split; [|done]. apply Hin. split; [done|]. destruct (decide (sr_hi v <= sr_hi r)); [done|]. exfalso.
    assert (v ∈ ir :: it) as [->|Hvt]%elem_of_cons; [apply Hsrch; pose proof (Hf v Hv); split; [iv_lia|done]|iv_lia|].
    pose proof (search_ok _ (sr_hi r + 1) (file_size s) Hm Hse) as Hok. rewrite Hs in Hok.
    apply ivs_ok_cons in Hok as (_ & Hb & _). rewrite Forall_forall in Hb. apply Hb in Hvt. iv_lia.
Qed.

(** ** The table as a journal *)

(** Inserting a range works on the mapping and the file size alone. *)
Lemma truncate_range_frame r s s' s2 :
  slog_truncate_range r s = Ok s' -> mapping s2 = mapping s -> file_size s2 = file_size s ->
  s' = set_mapping (mapping s') (file_size s') s /\
  slog_truncate_range r s2 = Ok (set_mapping (mapping s') (file_size s') s2).
Proof.
  unfold slog_truncate_range. intros Hs -> ->. destruct (ix_search _ _ _) as [|ir it]; [by injection Hs as <-|].
  case_match; (destruct (truncate_loop _ _ _ _ _ _) as [m'|] eqn:He; [|done]); st_simpl; by injection Hs as <-.
Qed.

Lemma insert_range_frame r s s' s2 :
  slog_insert_range r s = Ok s' -> mapping s2 = mapping s -> file_size s2 = file_size s ->
  s' = set_mapping (mapping s') (file_size s') s /\
  slog_insert_range r s2 = Ok (set_mapping (mapping s') (file_size s') s2).
Proof.
  unfold slog_insert_range. case_match; [by apply truncate_range_frame|]. intros Hs -> ->.
  destruct (cut_loop _ _ _) as [m'|]; [|done]. st_simpl. destruct (slog_combine r m'). by injection Hs as <-.
Qed.

Lemma insert_ranges_frame rs s s' s2 :
  insert_ranges rs s = Ok s' -> mapping s2 = mapping s -> file_size s2 = file_size s ->
  s' = set_mapping (mapping s') (file_size s') s /\
  insert_ranges rs s2 = Ok (set_mapping (mapping s') (file_size s') s2).
Proof.
  revert s s2. induction rs as [|r rs IH]; intros s s2; cbn [insert_ranges].
  - intros [= <-] Hm Hf. split; [by destruct s|]. rewrite <- Hm, <- Hf. by destruct s2.
  - unfold mbind, res_bind. destruct (slog_insert_range r s) as [s1|] eqn:H1; [|done]. intros Hs Hm Hf.
    destruct (insert_range_frame r s s1 s2 H1 Hm Hf) as [He ->].
    destruct (IH s1 (set_mapping (mapping s1) (file_size s1) s2) Hs) as [He2 ->]; [done..|].
    split; [|done]. rewrite He2 at 1. by rewrite He.
Qed.

Lemma insert_ranges_app rs1 rs2 s s1 s2 :
  insert_ranges rs1 s = Ok s1 -> insert_ranges rs2 s1 = Ok s2 -> insert_ranges (rs1 ++ rs2) s = Ok s2.
Proof.
  revert s. induction rs1 as [|r rs1 IH]; intros s; cbn [insert_ranges app]; [by intros [= ->]|].
  unfold mbind, res_bind. destruct (slog_insert_range r s); [apply IH|done].
Qed.

(** An entry that survives the trip through the table. *)
Definition entry_ok r : bool :=
  int64_ok (sr_lo r) && int64_ok (sr_hi r) && int64_ok (sr_data_offset r) && negb (blank_range r).

Lemma slog_range_bytes_length r : length (slog_range_bytes r) = 24%nat.
Proof. unfold slog_range_bytes. by rewrite !length_app, !int64_bytes_length. Qed.

Lemma slog_range_roundtrip r : entry_ok r = true -> bytes_slog_range (slog_range_bytes r) = r.
Proof.
  intros [[[H1 H2]%andb_prop H3]%andb_prop _]%andb_prop. unfold bytes_slog_range, slog_range_bytes.
  rewrite take_app_length' by by rewrite int64_bytes_length. rewrite drop_app_length' by by rewrite int64_bytes_length.
  rewrite take_app_length' by by rewrite int64_bytes_length. rewrite app_assoc.
  rewrite drop_app_length' by by rewrite length_app, !int64_bytes_length.
  rewrite take_ge by by rewrite int64_bytes_length. rewrite !int64_bytes_roundtrip by done. by destruct r.
Qed.

(** [rs] is the content of the table, and replaying it gives the mapping. *)
Record journal (rs : list slog_range) s : Prop := Journal {
  jn_log : log_size s = Z.of_nat (length rs) * sizeof_slog_range;
  jn_table : seg_size (table_seg s) = log_size s;
  jn_data : seg_size (data_seg s) = data_size s /\ 0 <= data_size s;
  jn_bytes : slice (seg_byte (table_seg s)) 0 (log_size s) = rs ≫= slog_range_bytes;
  jn_entries : Forall (fun r => entry_ok r = true) rs;
  jn_replay : insert_ranges (disk_range <$> rs) (set_mapping ix_empty (seg_size (base_seg s)) s) = Ok s }.

Lemma entries_length rs : length (rs ≫= slog_range_bytes) = (length rs * 24)%nat.
Proof.
  induction rs as [|r rs IH]; [done|]. rewrite bind_cons, length_app, slog_range_bytes_length, IH. simpl. lia.
Qed.

(** A load reads the entries back in order. *)
Lemma load_loop_ok rs fuel i ec s s' :
  log_size s = i + Z.of_nat (length rs) * sizeof_slog_range -> 0 <= i ->
  slice (seg_byte (table_seg s)) i (Z.of_nat (length rs) * sizeof_slog_range) = rs ≫= slog_range_bytes ->
  Forall (fun r => entry_ok r = true) rs ->
  (forall k, seg_read k sizeof_slog_range (table_seg s) <> None) ->
  insert_ranges (disk_range <$> rs) s = Ok s' -> (length rs <= fuel)%nat ->
  load_loop fuel i false ec s = Ok ((false, ec), s').
Proof.
  revert fuel i s. induction rs as [|r rs IH]; intros fuel i s Hl Hi Hb He Hrd Hins Hf.
  { injection Hins as <-. destruct fuel; simpl; (rewrite (proj2 (Z.ltb_ge _ _)); [done|simpl in Hl; lia]). }
  unfold sizeof_slog_range in *. destruct fuel as [|fuel]; [simpl in Hf; lia|]. cbn [load_loop].
  rewrite (proj2 (Z.ltb_lt _ _)) by (simpl in Hl; lia). unfold sizeof_slog_range.
  destruct (seg_read i 24 (table_seg s)) as [d|] eqn:Hd; [|by destruct (Hrd i)].
  apply seg_read_slice in Hd; [|lia]. apply Forall_cons in He as [Hr He].
  cbn [length] in *. replace (Z.of_nat (Datatypes.S (length rs)) * 24) with (24 + Z.of_nat (length rs) * 24) in * by lia.
  rewrite slice_app, bind_cons in Hb by lia. apply app_inj_1 in Hb as [Hb1 Hb2]; [|by rewrite slice_length, slog_range_bytes_length].
  rewrite Hd, Hb1, slog_range_roundtrip by done.
  assert (blank_range r = false) as -> by (apply andb_prop in Hr as [_ Hr]; by apply negb_true_iff in Hr).
  rewrite fmap_cons in Hins. cbn [insert_ranges] in Hins. unfold mbind, res_bind in *.
  destruct (slog_insert_range (disk_range r) s) as [s1|] eqn:H1; [|done].
  destruct (insert_range_frame _ s s1 s H1 eq_refl eq_refl) as [Hs1 _].
  apply IH; [rewrite Hs1; simpl; lia|lia|by rewrite Hs1|done|by rewrite Hs1|done|lia].
Qed.

(** Writes and truncations to a smaller size, as they reach the table. *)
Inductive log_op := OpWrite (iov : list (Z * Z)) (buffer : Z -> Z) (boff : Z) | OpShrink (n : Z).

Definition run_op (o : log_op) s : res (bool * seglog_priv M S) :=
  match o with
  | OpWrite iov buffer boff => seglog_write_func iov buffer boff s
  | OpShrink n => seglog_truncate n s
  end.

Definition op_entries (o : log_op) s : list slog_range :=
  match o with
  | OpWrite iov _ _ => (write_ranges iov (data_size s) 0).1
  | OpShrink n => [SlogRange (-1) (n - 1) (-1)]
  end.

Definition op_ok (o : log_op) s : Prop :=
  Forall (fun r => entry_ok r = true) (op_entries o s) /\
  match o with
  | OpWrite iov _ _ => iov_ok iov /\ iov <> []
  | OpShrink n => 0 <= n < file_size s
  end.

(** Operations that all succeed. *)
Inductive ops_run : seglog_priv M S -> list log_op -> seglog_priv M S -> Prop :=
| ops_nil s : ops_run s [] s
| ops_snoc s ops s1 o s2 :
    ops_run s ops s1 -> op_ok o s1 -> run_op o s1 = Ok (true, s2) -> ops_run s (ops ++ [o]) s2.

(** Adding entries at the end of the table. *)
Lemma journal_append rs new s s1 s2 table :
  journal rs s ->
  seg_write (log_size s) (new ≫= slog_range_bytes) (table_seg s) = (true, table) -> new <> [] ->
  Forall (fun r => entry_ok r = true) new ->
  s1 = SegLog (mapping s) (file_size s) (log_size s + Z.of_nat (length new) * sizeof_slog_range) (data_size s1)
         (hard_errors s) table (data_seg s1) (base_seg s) ->
  seg_size (data_seg s1) = data_size s1 /\ 0 <= data_size s1 ->
  insert_ranges (disk_range <$> new) s1 = Ok s2 -> journal (rs ++ new) s2.
Proof.
  intros [Hl Ht Hd Hb He Hr] Hw Hne Hen Hs1 Hd1 Hins. unfold sizeof_slog_range in *.
  destruct (insert_ranges_frame _ s1 s2 s1 Hins eq_refl eq_refl) as [Hs2 _].
  assert (Hlen : length (new ≫= slog_range_bytes) = (length new * 24)%nat) by apply entries_length.
  assert (Hl0 : 0 <= log_size s) by lia.
  assert (Hnn : (0 < length new)%nat) by (destruct new; [done|simpl; lia]).
  assert (Hn0 : new ≫= slog_range_bytes <> []). { intros Hz. rewrite Hz in Hlen. simpl in Hlen. lia. }
  split.
  - rewrite Hs2, Hs1. simpl. rewrite Hl, length_app. unfold sizeof_slog_range. lia.
  - rewrite Hs2, Hs1. simpl. rewrite (seg_write_size _ _ _ _ Hl0 Hw Hn0). lia.
  - rewrite Hs2. exact Hd1.
  - rewrite Hs2, Hs1. cbn [set_mapping table_seg log_size]. rewrite slice_app, bind_app by lia. f_equal.
    + rewrite <- Hb. apply slice_ext. intros x Hx. rewrite (seg_write_byte _ _ _ _ _ Hl0 Hw). apply overlay_out. lia.
    + rewrite Z.add_0_l. rewrite (slice_ext _ (overlay (log_size s) (new ≫= slog_range_bytes) (seg_byte (table_seg s)))).
      * replace (Z.of_nat (length new) * 24) with (Z.of_nat (length (new ≫= slog_range_bytes))) by lia. apply slice_overlay.
      * intros x _. apply (seg_write_byte _ _ _ _ _ Hl0 Hw).
  - by apply Forall_app.
  - rewrite fmap_app. eapply insert_ranges_app; [|exact Hins].
    assert (Hbase : base_seg s2 = base_seg s) by (rewrite Hs2, Hs1; done). rewrite Hbase.
    destruct (insert_ranges_frame _ _ s (set_mapping ix_empty (seg_size (base_seg s)) s2) Hr eq_refl eq_refl) as [_ ->].
    rewrite Hs2, Hs1. done.
Qed.

Lemma write_ranges_length iov dsize n : length (write_ranges iov dsize n).1 = length iov.
Proof.
  revert n. induction iov as [|[off len] iov IH]; intros n; simpl; [done|].
  specialize (IH (n + len)). destruct (write_ranges iov dsize (n + len)). simpl in *. lia.
Qed.

Lemma iov_bytes_pos iov : iov_ok iov -> iov <> [] -> 0 < iov_bytes iov.
Proof.
  intros [|[off len] iov' Hol Hiov] Hne; [done|]. pose proof (iov_bytes_nonneg iov' Hiov). unfold iov_bytes in *. simpl. lia.
Qed.

Lemma run_op_journal rs o s s2 :
  journal rs s -> op_ok o s -> run_op o s = Ok (true, s2) -> journal (rs ++ op_entries o s) s2.
Proof.
  intros Hj [He Ho] Hrun. pose proof (jn_data _ _ Hj) as [Hds Hd0]. destruct o as [iov buffer boff|n]; simpl in *.
  - unfold seglog_write_func, write_reserve, write_io, write_commit in Hrun. pose proof (iov_bytes_pos iov ltac:(tauto) ltac:(tauto)).
    pose proof (write_ranges_bytes iov (data_size s) 0) as Hnb. pose proof (write_ranges_length iov (data_size s) 0) as Hnl.
    destruct (write_ranges iov (data_size s) 0) as [new nb]. simpl in *. subst nb.
    destruct (seg_write _ _ (data_seg s)) as [ok1 data] eqn:H1.
    destruct (seg_write (log_size s) (new ≫= slog_range_bytes) (table_seg s)) as [ok2 table] eqn:H2.
    destruct ok1; [|done]. destruct ok2; [|done]. simpl in Hrun. unfold mbind, res_bind in Hrun.
    destruct (insert_ranges (disk_range <$> new) _) as [s3|] eqn:H3; [|done]. injection Hrun as ->.
    eapply journal_append; [done|done| |done| |split|exact H3]; simpl; try done.
    + intros ->. destruct iov; [tauto|done].
    + by rewrite Hnl.
    + rewrite (seg_write_size _ _ _ _ Hd0 H1).
      * rewrite slice_length. lia.
      * intros Hz%(f_equal length). rewrite slice_length in Hz. simpl in Hz. lia.
    + lia.
  - unfold seglog_truncate, seglog_truncate_func in Hrun. rewrite (proj2 (Z.ltb_ge n 0)), (proj2 (Z.ltb_lt n (file_size s))) in Hrun by lia.
    destruct (seg_write _ _ (table_seg s)) as [ok table] eqn:Hw. destruct ok; [|done]. unfold mbind, res_bind in Hrun.
    destruct (slog_insert_range _ _) as [s3|] eqn:H3; [|done]. injection Hrun as ->.
    eapply (journal_append rs [SlogRange (-1) (n - 1) (-1)] s
      (set_segs table (data_seg s) (set_sizes (log_size s + sizeof_slog_range) (data_size s) s)) s2 table); try done.
    cbn [fmap list_fmap insert_ranges]. unfold mbind, res_bind. simpl in H3. unfold disk_range. simpl. by rewrite H3.
Qed.

Lemma ops_run_journal s0 ops s : journal [] s0 -> ops_run s0 ops s -> exists rs, journal rs s.
Proof.
  intros Hj0 Hrun. induction Hrun as [s0|s0 ops s1 o s2 _ IH Ho Hrun]; [by exists []|]. destruct (IH Hj0) as [rs Hj].
  exists (rs ++ op_entries o s1). by apply run_op_journal.
Qed.

Lemma journal_load rs s m fs ls ds :
  journal rs s -> m = ix_empty -> (forall k, seg_read k sizeof_slog_range (table_seg s) <> None) ->
  slog_load (SegLog m fs ls ds (hard_errors s) (table_seg s) (data_seg s) (base_seg s)) = Ok (0, s).
Proof.
  intros [Hl Ht [Hd Hd0] Hb He Hr] -> Hrd. unfold slog_load.
  cbn [mapping hard_errors table_seg data_seg base_seg log_size]. unfold mbind, res_bind. unfold sizeof_slog_range in *.
  rewrite (load_loop_ok rs _ 0 0 _ s); simpl; unfold sizeof_slog_range; try (done || lia).
  - by rewrite <- Hl, Hb.
  - rewrite <- Hr. f_equal. unfold set_mapping. by rewrite Ht, Hd.
  - rewrite Ht, Hl, Z.div_mul by done. lia.
Qed.

(** ** Merging *)

Definition sr_len r : Z := sr_hi r - sr_lo r + 1.

(** The queue of a batch of ranges, packed into the buffer from [b] on. *)
Fixpoint batch_queue (off : slog_range -> Z) (b : Z) (batch : list slog_range) : list merge_task :=
  match batch with
  | [] => []
  | r :: batch => MergeTask (off r) (sr_len r) b :: batch_queue off (b + sr_len r) batch
  end.

Definition range_data (data : S) r : bytes := slice (seg_byte data) (sr_data_offset r) (sr_len r).

(** Contents [f] with the data of the ranges laid over it. *)
Definition merged (data : S) (rs : list slog_range) (f : Z -> Z) : Z -> Z :=
  foldl (fun f r => overlay (sr_lo r) (range_data data r) f) f rs.

Lemma batch_queue_snoc off b batch r :
  batch_queue off b (batch ++ [r]) = batch_queue off b batch ++ [MergeTask (off r) (sr_len r) (b + zsum sr_len batch)].
Proof.
  revert b. induction batch as [|v batch IH]; intros b; simpl; [by rewrite Z.add_0_r|]. rewrite IH, <- Z.add_assoc. done.
Qed.

Lemma merge_reads_batch data batch b buffer buffer' x :
  Forall (fun r => 0 <= sr_len r) batch ->
  merge_reads (batch_queue sr_data_offset b batch) data buffer = (true, buffer') ->
  buffer' x = overlay b (batch ≫= range_data data) buffer x.
Proof.
  intros Hp. revert b buffer. induction Hp as [|r batch Hr Hp IH]; intros b buffer; cbn [batch_queue merge_reads].
  { intros [= <-]. unfold overlay. by rewrite span_out by (simpl; lia). }
  cbn [mt_off mt_len mt_bpos]. destruct (seg_read _ _ _) as [d|] eqn:Hd; [|done].
  apply seg_read_slice in Hd; [|done]. intros Hm.
  rewrite (IH _ _ Hm), bind_cons, <- overlay_next.
  assert (range_data data r = d) as -> by by rewrite Hd. rewrite Hd at 2. rewrite slice_length, Z2Nat.id by done. done.
Qed.

Lemma merged_ext data rs f g x : (forall y, f y = g y) -> merged data rs f x = merged data rs g x.
Proof.
  unfold merged. revert f g. induction rs as [|r rs IH]; intros f g Hfg; simpl; [done|].
  apply IH. intros y. unfold overlay. by rewrite Hfg.
Qed.

Lemma merge_writes_batch data batch b buffer base base' x :
  Forall (fun r => 0 <= sr_len r /\ 0 <= sr_lo r) batch ->
  slice buffer b (zsum sr_len batch) = batch ≫= range_data data ->
  merge_writes (batch_queue sr_lo b batch) buffer base = (true, base') ->
  seg_byte base' x = merged data batch (seg_byte base) x.
Proof.
  intros Hp. revert b base. induction Hp as [|r batch [Hr Hl] Hp IH]; intros b base; cbn [batch_queue merge_writes zsum].
  { intros _ [= <-]. done. }
  intros Hb. cbn [mt_off mt_len mt_bpos]. assert (0 <= zsum sr_len batch).
  { clear -Hp. induction Hp; simpl; lia. }
  rewrite slice_app, bind_cons in Hb by lia.
  apply app_inj_1 in Hb as [Hb1 Hb2]; [|unfold range_data; by rewrite !slice_length].
  rewrite Hb1. destruct (seg_write _ _ base) as [ok1 base1] eqn:H1.
  destruct (merge_writes _ _ base1) as [ok2 base2] eqn:H2. intros [= [-> ->]%andb_prop ->].
  rewrite (IH _ _ Hb2 H2).
  change (merged data (r :: batch) (seg_byte base) x)
    with (merged data batch (overlay (sr_lo r) (range_data data r) (seg_byte base)) x). apply merged_ext. intros y. by rewrite (seg_write_byte _ _ _ _ y Hl H1).
Qed.

(** What is queued is the batch, and it fits the buffer. *)
Record merge_ok (bufsize : Z) (batch : list slog_range) (g : merge_state) : Prop := MergeOk {
  mo_in : mg_qin g = batch_queue sr_data_offset 0 batch;
  mo_out : mg_qout g = batch_queue sr_lo 0 batch;
  mo_pos : mg_pos g = zsum sr_len batch /\ zsum sr_len batch <= bufsize;
  mo_proper : Forall (fun r => 0 < sr_len r /\ 0 <= sr_lo r) batch }.

Lemma merge_flush_ok bufsize data batch g g' :
  0 <= bufsize -> merge_ok bufsize batch g -> merge_flush data g = (true, g') ->
  merge_ok bufsize [] g' /\ forall x, seg_byte (mg_base g') x = merged data batch (seg_byte (mg_base g)) x.
Proof.
  intros Hbs [Hi Ho Hpos Hp] Hf. unfold merge_flush in Hf. destruct (mg_used g); [|done]. cbn [negb] in Hf. rewrite Hi in Hf.
  assert (Hp1 : Forall (fun r => 0 <= sr_len r) batch) by (eapply Forall_impl; [exact Hp|]; intros; simpl in *; lia).
  assert (Hp2 : Forall (fun r => 0 <= sr_len r /\ 0 <= sr_lo r) batch) by (eapply Forall_impl; [exact Hp|]; intros; simpl in *; lia).
  destruct (merge_reads _ _ _) as [[] buffer] eqn:Hr; [|done]. destruct (mg_qout g) as [|t q]; [done|]. rewrite Ho in Hf.
  destruct (merge_writes _ _ _) as [ok base] eqn:Hw. injection Hf as -> <-. split; [by split; simpl|].
  intros x. simpl. eapply merge_writes_batch; [done| |done].
  rewrite (slice_ext _ (overlay 0 (batch ≫= range_data data) (mg_buffer g))).
  - assert (Z.of_nat (length (batch ≫= range_data data)) = zsum sr_len batch) as <-; [|apply slice_overlay].
    clear -Hp1. induction Hp1 as [|r batch Hr _ IH]; [done|]. rewrite bind_cons, length_app, Nat2Z.inj_add, IH.
    unfold range_data. rewrite slice_length. simpl. lia.
  - intros y _. by apply merge_reads_batch.
Qed.

Lemma merged_app data rs1 rs2 f x : merged data (rs1 ++ rs2) f x = merged data rs2 (merged data rs1 f) x.
Proof. unfold merged. by rewrite foldl_app. Qed.

Definition queue_range r (g : merge_state) : merge_state :=
  MergeState (mg_qin g ++ [MergeTask (sr_data_offset r) (sr_len r) (mg_pos g)]) true
    (mg_qout g ++ [MergeTask (sr_lo r) (sr_len r) (mg_pos g)]) (mg_pos g + sr_len r) (mg_buffer g) (mg_base g).

Lemma queue_range_ok bufsize batch r g :
  merge_ok bufsize batch g -> 0 < sr_len r -> 0 <= sr_lo r -> mg_pos g + sr_len r <= bufsize ->
  merge_ok bufsize (batch ++ [r]) (queue_range r g).
Proof.
  intros [Hi Ho [Hpos Hle] Hp] Hr Hl Hfit. split; simpl.
  - by rewrite batch_queue_snoc, Hi, Hpos.
  - by rewrite batch_queue_snoc, Ho, Hpos.
  - rewrite zsum_app. simpl. lia.
  - apply Forall_app. split; [done|]. by constructor.
Qed.

Lemma batch_pos bufsize batch g : merge_ok bufsize batch g -> mg_pos g <= 0 -> batch = [].
Proof.
  intros [_ _ [-> _] Hp] Hle. destruct Hp as [|v batch [Hv _] Hp]; [done|]. simpl in Hle.
  assert (0 <= zsum sr_len batch); [|lia]. clear -Hp. induction Hp; simpl; lia.
Qed.

Lemma merge_loop_ok bufsize data rs batch g g' x :
  0 <= bufsize -> Forall (fun r => 0 < sr_len r <= bufsize /\ 0 <= sr_lo r) rs ->
  merge_ok bufsize batch g -> merge_loop rs bufsize data g = Ok (true, g') ->
  seg_byte (mg_base g') x = merged data (batch ++ rs) (seg_byte (mg_base g)) x.
Proof.
  intros Hbs Hp. revert batch g. induction Hp as [|r rs [Hr Hl] Hp IH]; intros batch g Hg; cbn [merge_loop].
  - rewrite app_nil_r. destruct (_ || _) eqn:Hc; [intros [= Hf]; by eapply merge_flush_ok|].
    intros [= <-]. apply orb_false_iff in Hc as [_ Hc]. breflect. by rewrite (batch_pos bufsize batch g Hg) by lia.
  - fold (sr_len r).
    destruct (sr_len r >? bufsize) eqn:Hbig; breflect; [lia|]. cbn [orb]. destruct (mg_pos g + sr_len r >? bufsize) eqn:Hc; breflect.
    + destruct (merge_flush data g) as [ok g1] eqn:Hf. destruct ok; [|done]. cbn [negb].
      destruct (merge_flush_ok bufsize data batch g g1 Hbs Hg Hf) as [Hg1 Hb1]. intros Hrun.
      assert (mg_pos g1 = 0) as Hp1 by apply (mo_pos _ _ _ Hg1).
      rewrite (IH [r] (queue_range r g1)); [|apply (queue_range_ok bufsize [] r g1); [done|lia..]|done].
      rewrite (merged_app data batch (r :: rs)). by apply (merged_ext data (r :: rs)).
    + cbn [negb]. intros Hrun. rewrite (IH (batch ++ [r]) (queue_range r g)); [|apply queue_range_ok; [done|lia..]|done].
      by rewrite <- app_assoc.
Qed.

(** Laid over the base, the records of the mapping give the file. *)
Lemma merged_view s x : table_ok (mapping s) -> merged (data_seg s) (ix_list (mapping s)) (seg_byte (base_seg s)) x = slog_view s x.
Proof.
  intros Hm. unfold slog_view.
  assert (Hin : forall l f, ivs_ok l ->
    (forall v, v ∈ l -> inside v x -> merged (data_seg s) l f x = seg_byte (data_seg s) (sr_data_offset v + (x - sr_lo v))) /\
    ((forall v, v ∈ l -> ~ inside v x) -> merged (data_seg s) l f x = f x)).
  { induction l as [|u l IH]; intros f Hl; [split; [intros v []%not_elem_of_nil|done]|].
    apply ivs_ok_cons in Hl as (Hu & Hb & Hl). rewrite Forall_forall in Hb. destruct (IH (overlay (sr_lo u) (range_data (data_seg s) u) f) Hl) as [IH1 IH2].
    change (merged (data_seg s) (u :: l) f x) with (merged (data_seg s) l (overlay (sr_lo u) (range_data (data_seg s) u) f) x). split.
    - intros v [->|Hv]%elem_of_cons Hx; [|by apply IH1]. rewrite IH2.
      + unfold overlay, range_data. rewrite span_slice; [done|]. unfold sr_len. iv_lia.
      + intros w Hw%Hb Hwx. iv_lia.
    - intros Hno. rewrite IH2 by (intros; apply Hno; by right). apply overlay_out. unfold range_data. rewrite slice_length.
      specialize (Hno u ltac:(by left)). unfold sr_len. iv_lia. }
  destruct (Hin (ix_list (mapping s)) (seg_byte (base_seg s)) (ix_ok_ivs _ Hm)) as [Hin1 Hin2].
  destruct (slog_addr (mapping s) x) as [a|] eqn:Ha.
  - apply slog_addr_holds in Ha as (v & Hv & Hx & ->); [|done]. by apply Hin1.
  - apply Hin2. by apply slog_addr_none.
Qed.

Lemma merge_loop_total bufsize data rs g :
  Forall (fun r => 0 < sr_len r <= bufsize /\ 0 <= sr_lo r) rs -> exists ok g', merge_loop rs bufsize data g = Ok (ok, g').
Proof.
  intros Hp. revert g. induction Hp as [|r rs [Hr Hl] Hp IH]; intros g; cbn [merge_loop].
  - destruct (_ || _); [|by eauto]. destruct (merge_flush data g). by eauto.
  - fold (sr_len r). destruct (sr_len r >? bufsize) eqn:Hbig; breflect; [lia|].
    destruct (if _ || _ then _ else _) as [ok g1]. destruct ok; simpl; [apply IH|by eauto].
Qed.

(** A range longer than the buffer is never merged. *)
Lemma merge_loop_big bufsize data rs r g g' :
  r ∈ rs -> bufsize < sr_len r -> 0 < sr_len r -> merge_loop rs bufsize data g <> Ok (true, g').
Proof.
  intros Hin Hbig Hpos. revert g. induction rs as [|v rs IH]; intros g; [by apply not_elem_of_nil in Hin|].
  cbn [merge_loop]. fold (sr_len v). destruct (if (sr_len v >? bufsize) || _ then _ else _) as [ok g1].
  destruct ok; simpl; [|done]. apply elem_of_cons in Hin as [<-|Hin].
  - rewrite (proj2 (Z.gtb_lt _ _)) by lia. assert (exists n, Z.to_nat (sr_len r) = Datatypes.S n) as [n ->].
    { exists (Nat.pred (Z.to_nat (sr_len r))). lia. }
    cbn [merge_chunks]. rewrite (proj2 (Z.ltb_lt _ _)) by lia. rewrite Z.add_0_l.
    destruct (bufsize >? sr_len r) eqn:Hgt; breflect; [lia|]. by rewrite (proj2 (Z.gtb_lt _ _)) by lia.
  - destruct (sr_len v >? bufsize); [|by apply IH]. destruct (merge_chunks _ _ _ _ _ _ _ _) as [[[] g2]|]; [by apply IH|done|done].
Qed.

(** Emptying the mapping. *)
Lemma slog_empty s :
  slog_wf s -> exists m', slog_truncate_range (SlogRange (-1) (0 - 1) (-1)) s = Ok (set_mapping m' 0 s) /\ table_ok m' /\ ix_list m' = [].
Proof.
  intros Hwf. destruct (slog_truncate_range_ok (SlogRange (-1) (0 - 1) (-1)) s Hwf) as (m' & He & Hm' & _ & Hin).
  exists m'. split; [done|]. split; [done|]. destruct (ix_list m') as [|v l]; [done|]. exfalso. simpl in Hin.
  destruct (proj1 (Hin ltac:(intros w Hw; pose proof (wf_file _ Hwf w Hw); lia) v)) as [Hv Hhi]; [by left|].
  pose proof (wf_file _ Hwf v Hv). pose proof (ix_proper _ _ (wf_table _ Hwf) Hv). iv_lia.
Qed.

Lemma slog_view_empty s x : table_ok (mapping s) -> ix_list (mapping s) = [] -> slog_view s x = seg_byte (base_seg s) x.
Proof.
  intros Hm Hl. unfold slog_view. rewrite (proj2 (slog_addr_none (mapping s) x Hm)); [done|].
  intros v Hv. rewrite Hl in Hv. by apply not_elem_of_nil in Hv.
Qed.

(** C20: Merging a log whose ranges fit the buffer always returns, and when it
    reports success the base holds the file exactly as it was seen through
    the log, which still shows the same bytes; with the old log dropped the
    mapping is empty, and the recorded file size is 0 whatever it was.  A log
    with a range longer than the buffer is never merged successfully. *)
Theorem seglog_merge_ok bufsize buffer drop_old s :
  slog_wf s -> 0 <= bufsize ->
  ((forall r, r ∈ ix_list (mapping s) -> sr_len r <= bufsize) ->
   exists ok s', seglog_merge_with_base_func bufsize buffer drop_old s = Ok (ok, s') /\
     (ok = true ->
      (forall x, seg_byte (base_seg s') x = slog_view s x) /\ (forall x, slog_view s' x = slog_view s x) /\
      (if drop_old then ix_list (mapping s') = [] /\ file_size s' = 0
       else mapping s' = mapping s /\ file_size s' = file_size s))) /\
  ((exists r, r ∈ ix_list (mapping s) /\ bufsize < sr_len r) ->
   forall s', seglog_merge_with_base_func bufsize buffer drop_old s <> Ok (true, s')).
Proof.
  intros Hwf Hbs. pose proof Hwf as [Hm Hf Hd Hz]. unfold seglog_merge_with_base_func. split.
  - intros Hfit. assert (Hp : Forall (fun r => 0 < sr_len r <= bufsize /\ 0 <= sr_lo r) (ix_list (mapping s))).
    { apply Forall_forall. intros r Hr. pose proof (ix_proper _ _ Hm Hr). specialize (Hf r Hr). specialize (Hfit r Hr).
      unfold sr_len in *. iv_lia. }
    destruct (merge_loop_total bufsize (data_seg s) _ (MergeState [] false [] 0 buffer (base_seg s)) Hp) as (ok & g & Hg).
    rewrite Hg. unfold mbind, res_bind. destruct ok; cbn [negb]; [|by eexists _, _].
    assert (Hb : forall x, seg_byte (mg_base g) x = slog_view s x).
    { intros x. rewrite <- merged_view by done. 
      apply (merge_loop_ok bufsize _ _ [] (MergeState [] false [] 0 buffer (base_seg s)) g x Hbs Hp); [|done]. by split; simpl. }
    destruct drop_old.
    + edestruct slog_empty as (m' & -> & Hm' & Hl); [|simpl].
      { by split. }
      destruct (seg_truncate 0 (table_seg s)) as [ok1 tb], (seg_truncate 0 (data_seg s)) as [ok2 dt].
      eexists _, _. split; [done|]. intros _. simpl. split_and!; [done| |done|done].
      intros x. rewrite slog_view_empty by done. apply Hb.
    + eexists _, _. split; [done|]. intros _. simpl. split_and!; [done| |done|done].
      intros x. unfold slog_view at 1. simpl. destruct (slog_addr (mapping s) x) eqn:Ha; [|apply Hb]. unfold slog_view. by rewrite Ha.
  - intros (r & Hr & Hbig) s'. pose proof (ix_proper _ _ Hm Hr) as Hp. simpl in Hp.
    destruct (merge_loop _ _ _ _) as [[ok g]|] eqn:Hg; [|done]. destruct ok; [|done].
    by destruct (merge_loop_big bufsize (data_seg s) _ r _ g Hr Hbig ltac:(unfold sr_len; lia) Hg).
Qed.

(** After any run the log is consistent and shows what was committed. *)
Lemma log_run_shows s0 ws y :
  slog_wf s0 -> log_run (LogSys s0 ∅) ws y -> sys_ok y /\ shows (sys_log y) (foldl apply_write (slog_view s0, file_size s0) ws).
Proof.
  intros Hwf Hrun. remember (LogSys s0 ∅) as y0 eqn:Hy. induction Hrun as [y|y ws y1 o y2 _ IH Hst]; subst; [by split|].
  destruct (IH eq_refl) as [Hok Hsh]. rewrite foldl_app. by eapply log_step_sim.
Qed.

(** C1: Whatever the interleaving of concurrent writers, the file seen
    through the log is a plain file to which the writes were applied whole,
    one after the other, in the order in which they updated the mapping; and
    a writer that has stored its data can always finish. *)
Theorem seglog_writes_atomic s0 ws y :
  slog_wf s0 -> log_run (LogSys s0 ∅) ws y ->
  let fn := foldl apply_write (slog_view s0, file_size s0) ws in
  slog_wf (sys_log y) /\ (forall x, slog_view (sys_log y) x = fn.1 x) /\ file_size (sys_log y) = fn.2 /\
  forall t w, sys_writers y !! t = Some w -> w_stored w = true ->
    exists s', write_commit (w_job w) (sys_log y) = Ok s'.
Proof.
  intros Hwf Hrun.
  pose proof (log_run_shows s0 ws y Hwf Hrun) as Hinv.
  destruct Hinv as [Hok [Hv Hn]]. split_and!; [apply Hok|done|done|].
  intros t w Ht Hs. destruct y as [s p]. destruct (sys_commit s p t w Hok Ht Hs) as (s' & ? & _). by exists s'.
Qed.

(** C4: A read that succeeds fills the buffer with the bytes of the file, the
    pieces of the request one after the other, and touches nothing else,
    unless a mapped range starts one byte into a piece. *)
Theorem seglog_read_ok iov buffer boff s buffer' s' :
  slog_wf s -> iov_ok iov -> no_byte_hole (mapping s) iov ->
  seglog_read_func iov buffer boff s = ((true, buffer'), s') ->
  s' = s /\ forall x, buffer' x = file_read iov boff (slog_view s) buffer x.
Proof.
  intros [Hm Hf _ _] Hiov Hone. unfold seglog_read_func.
  destruct (run_reads s (read_tasks (mapping s) iov boff) buffer) as [[] b1] eqn:Hr; [|done]. intros [= <- <-]. split; [done|].
  intros x. destruct (read_tasks_ok (mapping s) iov (ReadCursor 0 (-1) boff []) Hm) as (ts & Hts & Hall); [|done..|].
  { intros v Hv. by apply Hf. }
  eapply run_fetches; [exact Hall|]. unfold read_tasks in Hr. by rewrite Hts in Hr.
Qed.

(** The task list of a read never outgrows the [ex_iov] array that is
    allocated for it before the list is built. *)
Theorem seglog_read_slots m iov boff : Z.of_nat (length (read_tasks m iov boff)) <= read_slots m iov - 10.
Proof. pose proof (read_iovs_count m iov (ReadCursor 0 (-1) boff [])) as Hc. simpl in Hc. exact Hc. Qed.

(** C2: Opening a log anew from its three segments gives back the mapping and
    the sizes that the writes and truncations which built it left in memory. *)
Theorem slog_reload table data base ops s :
  seg_size table = 0 -> seg_size data = 0 -> ops_run (slog_make table data base) ops s ->
  (forall k, seg_read k sizeof_slog_range (table_seg s) <> None) ->
  slog_load (SegLog ix_empty 0 0 0 (hard_errors s) (table_seg s) (data_seg s) (base_seg s)) = Ok (0, s).
Proof.
  intros Ht Hd Hrun Hrd. destruct (ops_run_journal (slog_make table data base) ops s) as [rs Hj]; [|done|].
  { by split. }
  by eapply journal_load.
Qed.

(** ** The change list of a single log *)

Lemma changes_fold depth lo hi l a :
  foldl (changes_interval None depth lo hi) a l =
  ChangesAcc (ca_nbytes a + zsum cl_len (clip_change depth lo hi <$> l))
    (from_option sr_hi (ca_prev_end a) (last l)) (ca_stack a ++ (clip_change depth lo hi <$> l)).
Proof.
  revert a. induction l as [|ir l IH]; intros a.
  - simpl. rewrite Z.add_0_r, app_nil_r. by destruct a.
  - cbn [foldl]. rewrite IH, fmap_cons, last_cons. cbn [zsum]. unfold changes_interval. cbn [ca_nbytes ca_prev_end ca_stack].
    f_equal; [lia|by destruct (last l)|by rewrite <- app_assoc].
Qed.

(** What a clipped range covers. *)
Lemma clip_change_ok depth lo hi ir :
  lo <= hi -> sr_lo ir <= sr_hi ir -> overlaps lo hi ir ->
  let c := clip_change depth lo hi ir in
  cl_lo c = Z.max lo (sr_lo ir) /\ cl_hi c = Z.min hi (sr_hi ir) /\ cl_len c = cl_hi c - cl_lo c + 1 /\ 0 < cl_len c /\
  cl_seg_offset c = sr_data_offset ir + (cl_lo c - sr_lo ir).
Proof. intros Hlo Hp Ho c. subst c. unfold clip_change. unfold overlaps in Ho. simpl in Ho. cases_lia; simplify_eq; simpl; lia. Qed.

(** The change list of a log over a base that is not one describes the
    mapping on the requested range exactly, every entry non-empty, and the
    byte count returned is the number of bytes listed. *)
Theorem slog_changes_ok depth m lo hi :
  table_ok m -> lo <= hi ->
  let '(nbytes, cs) := slog_changes depth (LogSeg m PlainSeg) lo hi in
  nbytes = zsum cl_len cs /\ Forall (fun c => 0 < cl_len c /\ cl_len c = cl_hi c - cl_lo c + 1 /\ cl_seg c = depth) cs /\
  forall x a, lo <= x <= hi ->
    holds m x a <-> exists c, c ∈ cs /\ cl_lo c <= x <= cl_hi c /\ a = cl_seg_offset c + (x - cl_lo c).
Proof.
  intros Hm Hlo. cbn [slog_changes]. rewrite changes_fold. cbn [ca_nbytes ca_stack]. rewrite Z.add_0_l, app_nil_l.
  assert (Hc : forall ir, ir ∈ ix_search lo hi m -> _) by
    (intros ir [Ho Hir]%search_elem; [|done|bounds]; exact (clip_change_ok depth lo hi ir Hlo (ix_proper _ _ Hm Hir) Ho)).
  split_and!; [done|..].
  - apply Forall_fmap, Forall_forall. intros ir Hir. destruct (Hc ir Hir) as (_ & _ & ? & ? & _). simpl.
    split_and!; [done..|]. unfold clip_change. by repeat case_match.
  - intros x a Hx. split.
    + intros (v & Hv & Hin & ->). assert (Hs : v ∈ ix_search lo hi m) by (apply search_elem; [done|bounds|]; split; [iv_lia|done]).
      destruct (Hc v Hs) as (Hl & Hh & _ & _ & Ho). exists (clip_change depth lo hi v). split; [by apply list_elem_of_fmap_2|].
      unfold inside in Hin. cbn [iv_lo iv_hi slog_range_range] in Hin. lia.
    + intros (c & (v & -> & Hs)%list_elem_of_fmap & Hin & ->). destruct (Hc v Hs) as (Hl & Hh & _ & _ & Ho).
      apply search_elem in Hs as [_ Hv]; [|done|bounds]. exists v. split; [done|].
      unfold inside. cbn [iv_lo iv_hi slog_range_range]. lia.
Qed.

Lemma wf_reserved s l d table data :
  slog_wf s -> 0 <= l -> data_size s <= d -> slog_wf (set_segs table data (set_sizes l d s)).
Proof.
  intros [Hm Hf Hd Hz] Hl Hds. split; simpl; [done..| |lia]. intros v Hv. specialize (Hd v Hv). lia.
Qed.

(** C38: A truncation to a smaller size [n] that succeeds leaves the size
    [n - 2] and keeps the bytes below it; an equal size changes nothing.  One to
    a larger size, at least [2 * size - 1], of a file of two bytes or more
    leaves a file of [n - size + 1] bytes, or of the old size where that is
    larger, and keeps the bytes but the last. *)
Theorem seglog_truncate_size n s s' :
  slog_wf s -> 0 <= n -> seglog_truncate n s = Ok (true, s') ->
  (n < file_size s -> seglog_size s' = n - 2 /\ forall x, x < n - 2 -> slog_view s' x = slog_view s x) /\
  (n = file_size s -> s' = s) /\
  (2 <= file_size s -> 2 * file_size s - 1 <= n -> file_size s < n ->
    seglog_size s' = Z.max (file_size s) (n - file_size s + 1) /\ forall x, x < file_size s - 1 -> slog_view s' x = slog_view s x).
Proof.
  intros Hwf Hn Ht. pose proof Hwf as [Hm Hf Hd Hz]. unfold seglog_truncate, seglog_truncate_func, seglog_size in *.
  rewrite (proj2 (Z.ltb_ge n 0)) in Ht by lia. split_and!.
  - intros Hlt. rewrite (proj2 (Z.ltb_lt _ _)) in Ht by done.
    destruct (seg_write _ _ (table_seg s)) as [ok table]. destruct ok; [|done]. unfold mbind, res_bind in Ht.
    set (s1 := set_segs _ _ _) in *. set (r := SlogRange _ _ _) in *.
    assert (Hwf1 : slog_wf s1) by (apply wf_reserved; unfold sizeof_slog_range; done || lia).
    destruct (slog_truncate_range_ok r s1 Hwf1) as (m' & He & Hm' & Hh & _).
    assert (Hins : slog_insert_range r s1 = slog_truncate_range r s1) by done.
    rewrite Hins, He in Ht. injection Ht as <-. split; [simpl; lia|].
    intros x Hx. unfold slog_view. simpl. specialize (Hh x). simpl in Hh.
    assert (slog_addr m' x = slog_addr (mapping s) x) as ->; [|done]. apply option_eq. intros a.
    rewrite !slog_addr_holds by done. apply Hh. lia.
  - intros ->. by rewrite Z.ltb_irrefl, Z.gtb_ltb, Z.ltb_irrefl in Ht; injection Ht as <-.
  - intros H1 H2 Hgt. rewrite (proj2 (Z.ltb_ge _ _)), (proj2 (Z.gtb_lt _ _)) in Ht by lia.
    destruct (seg_write _ _ (table_seg s)) as [ok1 table]. destruct (seg_write _ _ (data_seg s)) as [ok2 data] eqn:Ed. cbn [sr_hi] in Ed.
    destruct ok1; [|done]. destruct ok2; [|done]. cbn [andb] in Ht. unfold mbind, res_bind in Ht.
    set (s1 := set_segs _ _ _) in *.
    assert (Hwf1 : slog_wf s1) by (apply wf_reserved; unfold sizeof_slog_range; done || lia).
    edestruct (slog_insert_range_ok (SlogRange (file_size s - 1) (n - file_size s) (data_size s)) s1 Hwf1) as (m' & He & [Hm' _ _ _] & Hh); simpl; [lia..|].
    rewrite He in Ht. injection Ht as <-. split; [done|]. intros x Hx. unfold slog_view. simpl in Hm', Hh |- *.
    assert (slog_addr m' x = slog_addr (mapping s) x) as ->.
    { apply option_eq. intros a. rewrite !slog_addr_holds by done. rewrite Hh. unfold inside. cbn [iv_lo iv_hi slog_range_range sr_lo sr_hi]. naive_solver lia. }
    destruct (slog_addr (mapping s) x) as [a|] eqn:Ha; [|done]. apply slog_addr_holds in Ha as (v & Hv & Hin & ->); [|done]. specialize (Hd v Hv). unfold inside in Hin. cbn [iv_lo iv_hi slog_range_range] in Hin.
    apply (seg_write_outside _ _ _ _ _ _ Ed). simpl. lia.
Qed.

End seglog.

(** ** Concrete logs *)

Definition zero_buffer : Z -> Z := fun _ => 0.

(** A device that holds [d]. *)
Definition seg_of (d : bytes) : memseg := MemSeg (mem_store 0 d ∅) (Z.of_nat (length d)) false.

(** An empty log over ten bytes 10, 11, ..., 19. *)
Definition log_ten : seglog_priv (list slog_range) memseg :=
  slog_make (seg_of []) (seg_of []) (seg_of (seqZ 10 10)).

Definition ok_or {A} (d : A) (r : res (bool * A)) : A := match r with Ok (_, a) => a | Fault _ => d end.

(** Two writes of three bytes, at 2 and at 7, with the bytes 101.. and 201... *)
Definition log_two : seglog_priv (list slog_range) memseg :=
  ok_or log_ten (seglog_write_func [(7, 3)] (Z.add 201) 0
    (ok_or log_ten (seglog_write_func [(2, 3)] (Z.add 101) 0 log_ten))).

(** Closes a concrete [slog_wf] by evaluation. *)
Ltac check_wf :=
  split; [split; repeat constructor; vm_compute; (done || discriminate)
         |apply Forall_forall, (bool_decide_unpack _); by vm_compute
         |apply Forall_forall, (bool_decide_unpack _); by vm_compute
         |by vm_compute].

Lemma log_two_wf : slog_wf log_two.
Proof. check_wf. Qed.

Lemma seglog_merge_ok_witness :
  exists ok s', seglog_merge_with_base_func 4 zero_buffer true log_two = Ok (ok, s') /\
    (ok = true -> (forall x, seg_byte (base_seg s') x = slog_view log_two x) /\
       (forall x, slog_view s' x = slog_view log_two x) /\ ix_list (mapping s') = [] /\ file_size s' = 0).
Proof.
  apply (proj1 (seglog_merge_ok 4 zero_buffer true log_two log_two_wf ltac:(done))).
  apply Forall_forall, (bool_decide_unpack _). by vm_compute.
Defined.

(** A third writer, in its three stages. *)
Definition third_job : write_job := (write_reserve [(1, 2)] log_two).1.
Definition third_writer (stored : bool) : writer := Writer [(1, 2)] (Z.add 50) 0 third_job stored.
Definition log_reserved : seglog_priv (list slog_range) memseg := (write_reserve [(1, 2)] log_two).2.
Definition log_stored : seglog_priv (list slog_range) memseg := (write_io third_job (Z.add 50) 0 log_reserved).2.

Lemma third_run : exists s, log_run (LogSys log_two ∅) [third_writer true] (LogSys s ∅).
Proof.
  destruct (write_commit third_job log_stored) as [s|] eqn:Hc; [|by vm_compute in Hc]. exists s.
  apply (run_snoc (LogSys log_two ∅) [] (LogSys log_stored {[0%nat := third_writer true]}) (Some (third_writer true))).
  - apply (run_snoc (LogSys log_two ∅) [] (LogSys log_reserved {[0%nat := third_writer false]}) None).
    + apply (run_snoc (LogSys log_two ∅) [] (LogSys log_two ∅) None); [constructor|].
      apply (step_reserve log_two ∅ 0%nat); [done| |done]. repeat constructor; done.
    + pose proof (step_store log_reserved {[0%nat := third_writer false]} 0%nat [(1, 2)] (Z.add 50) 0 third_job log_stored) as Hst.
      rewrite insert_singleton_eq in Hst. apply Hst; [done|by vm_compute].
  - pose proof (step_commit log_stored {[0%nat := third_writer true]} 0%nat (third_writer true) s) as Hst.
    rewrite delete_singleton_eq in Hst. by apply Hst.
Qed.

Lemma seglog_writes_atomic_witness :
  exists y, log_run (LogSys log_two ∅) [third_writer true] y /\ file_size (sys_log y) = 10 /\
    forall x, slog_view (sys_log y) x = file_write [(1, 2)] (Z.add 50) 0 (slog_view log_two) x.
Proof.
  destruct third_run as [s Hrun]. exists (LogSys s ∅). split; [exact Hrun|].
  destruct (seglog_writes_atomic log_two _ _ log_two_wf Hrun) as (_ & Hv & Hn & _).
  split; [by rewrite Hn; vm_compute|]. intros x. apply Hv.
Defined.

Lemma seglog_read_ok_witness :
  exists buffer', seglog_read_func [(0, 6); (3, 7)] zero_buffer 100 log_two = ((true, buffer'), log_two) /\
    forall x, buffer' x = file_read [(0, 6); (3, 7)] 100 (slog_view log_two) zero_buffer x.
Proof.
  eexists. split; [reflexivity|]. eapply (proj2 (seglog_read_ok [(0, 6); (3, 7)] zero_buffer 100 log_two _ log_two log_two_wf _ _ _)).
  Unshelve. all: [> repeat constructor; done | repeat constructor; vm_compute; discriminate | reflexivity].
Defined.

Lemma log_two_built : ops_run log_ten [OpWrite [(2, 3)] (Z.add 101) 0; OpWrite [(7, 3)] (Z.add 201) 0] log_two.
Proof.
  apply (ops_snoc log_ten [_] (ok_or log_ten (seglog_write_func [(2, 3)] (Z.add 101) 0 log_ten))).
  - apply (ops_snoc log_ten [] log_ten); [constructor|by repeat constructor|by vm_compute].
  - split; [by repeat constructor|]. split; [repeat constructor; done|done].
  - by vm_compute.
Qed.

Lemma slog_reload_witness :
  slog_load (SegLog ix_empty 0 0 0 (hard_errors log_two) (table_seg log_two) (data_seg log_two) (base_seg log_two)) = Ok (0, log_two).
Proof.
  eapply (slog_reload (seg_of []) (seg_of []) (seg_of (seqZ 10 10))); [done|done|exact log_two_built|].
  intros k. by vm_compute.
Defined.

(** When the first range is longer than the buffer nothing is tried: the empty
    queues are waited for, and that is not a success. *)
Lemma merge_first_long : (fun r => r.1) <$> (match seglog_merge_with_base_func 2 zero_buffer true log_two with Ok r => Some r | Fault _ => None end) = Some false.
Proof. by vm_compute. Qed.

Lemma seglog_truncate_size_witness :
  exists s', seglog_truncate 6 log_two = Ok (true, s') /\ seglog_size s' = 4.
Proof.
  eexists. split; [by vm_compute|].
  refine (proj1 (proj1 (seglog_truncate_size 6 log_two _ log_two_wf _ _) _)); [done|by vm_compute|by vm_compute].
Defined.

Lemma slog_changes_ok_witness :
  slog_changes 0 (LogSeg (mapping log_two) PlainSeg) 3 8 = (4, [SlogChange 0 1 3 4 2; SlogChange 0 3 7 8 2]) /\
  forall x a, 3 <= x <= 8 ->
    holds (mapping log_two) x a <->
    exists c, c ∈ [SlogChange 0 1 3 4 2; SlogChange 0 3 7 8 2] /\ cl_lo c <= x <= cl_hi c /\ a = cl_seg_offset c + (x - cl_lo c).
Proof.
  assert (He : slog_changes 0 (LogSeg (mapping log_two) PlainSeg) 3 8 = (4, [SlogChange 0 1 3 4 2; SlogChange 0 3 7 8 2]))
    by by vm_compute.
  split; [done|]. pose proof (slog_changes_ok 0 (mapping log_two) 3 8 (wf_table _ log_two_wf) ltac:(done)) as Hc.
  rewrite He in Hc. apply Hc.
Defined.

(** A range that starts one byte into the request is read wrongly: byte 0
    of the file is 10, but the buffer gets the logged byte in its place, and
    at offset 1, where the file holds the logged 101, what follows it in the
    data segment. *)
Theorem seglog_read_byte_hole :
  let s := ok_or log_ten (seglog_write_func [(1, 1)] (Z.add 101) 0 log_ten) in
  let rd := (seglog_read_func [(0, 3)] zero_buffer 0 s).1 in
  slice (slog_view s) 0 3 = [10; 101; 12] /\ rd.1 = true /\ slice rd.2 0 3 = [101; 0; 12].
Proof. by vm_compute. Qed.

(** When the new end of the file falls inside a mapped range, the range
    after it stays in the mapping: the file is cut from 10 bytes to 3, its
    mapping still has the bytes 7 to 9, and they show again when a later
    write extends the file past them. *)
Theorem slog_truncate_stale :
  exists s, slog_truncate_range (SlogRange (-1) 2 (-1)) log_two = Ok s /\ file_size s = 3 /\
    mapping s = [SlogRange 2 2 0; SlogRange 7 9 3] /\
    let s' := ok_or s (seglog_write_func [(12, 1)] zero_buffer 0 s) in
    file_size s' = 13 /\ slice (slog_view s') 7 3 = [201; 202; 203].
Proof. eexists. split; [vm_compute; reflexivity|]. by vm_compute. Qed.
