(* ===== verification/ResourceList.v ===== *)
(** * The depot's resource table ([ibp-server/resource_list.c])

    The IBP depot keeps its resources in an array of slots, a hash table from
    resource ids to resources and a stack of ids whose resources are still
    being attached; new allocations ask it to pick a resource.  Every routine
    runs under the table's lock and is one atomic step.

    A resource is a pointer of type [R]; its id, its mode and its free space
    belong to the resource and are parameters.  The hash table, keyed by the
    text of the id, is a finite map, and the stack is any [CursorStack]. *)
From S2P Require Import Prelude Stack.
Local Open Scope Z_scope.

Section code.
Context {K R PM : Type} `{Countable K} `{EqDecision R} `{CursorStack PM K}.
Context (rid : R -> K) (mode : R -> Z) (allocable : R -> Z).

(** [rl_ele_t]; [NULL] is [None]. *)
Record rl_ele_t := RlEle { e_r : option R; e_crid : option K; e_used : bool }.

Inductive pick_policy := RL_PICK_RANDOM | RL_PICK_MOST_FREE | RL_PICK_ROUND_ROBIN.

(** [Resource_list_t]. *)
Record resource_list := ResourceList {
  rl_table : gmap K R;
  rl_res : list rl_ele_t;
  rl_pending : PM;
  rl_n : Z;
  rl_max_res : Z;
  rl_pick_index : Z;
  rl_pick : pick_policy }.

Abbreviation rlM := (ST resource_list).

Definition rl_set (table : gmap K R) (slots : list rl_ele_t) (n : Z) (rl : resource_list) : resource_list :=
  ResourceList table slots (rl_pending rl) n (rl_max_res rl) (rl_pick_index rl) (rl_pick rl).

(** [rl->res\[i\]] *)
Definition slot_at (slots : list rl_ele_t) (i : Z) : res rl_ele_t :=
  if i <? 0 then Fault OutOfBounds
  else match slots !! Z.to_nat i with Some e => Ok e | None => Fault OutOfBounds end.

Definition on_pending {A} (op : ST PM A) : rlM A := fun rl =>
  '(a, p) ← op (rl_pending rl);
  Ok (a, ResourceList (rl_table rl) (rl_res rl) p (rl_n rl) (rl_max_res rl) (rl_pick_index rl) (rl_pick rl)).

Definition resource_set_pick_policy (p : pick_policy) (rl : resource_list) : resource_list :=
  ResourceList (rl_table rl) (rl_res rl) (rl_pending rl) (rl_n rl) (rl_max_res rl) (rl_pick_index rl) p.

Definition create_resource_list (n : nat) : resource_list :=
  resource_set_pick_policy RL_PICK_ROUND_ROBIN
    (ResourceList ∅ (replicate n (RlEle None None false)) cs_new 0 (Z.of_nat n) 0 RL_PICK_RANDOM).

Definition resource_list_n_used (rl : resource_list) : Z := rl_n rl.

(** The iterator is an index; [None] is the [NULL] that ends the iteration. *)
Definition resource_list_iterator : Z := 0.

Fixpoint iterator_loop (fuel : nat) (rl : resource_list) (i : Z) : res (option R * Z) :=
  match fuel with
  | O => Ok (None, i)
  | S fuel =>
    e ← slot_at (rl_res rl) i;
    if e_used e then mret (e_r e, i + 1) else iterator_loop fuel rl (i + 1)
  end.

Definition resource_list_iterator_next (rl : resource_list) (it : Z) : res (option R * Z) :=
  '(r, i) ← iterator_loop (Z.to_nat (rl_max_res rl - it)) rl it;
  mret (r, match r with Some _ => i | None => it end).

(** The search for a free slot starts at [rl->n]. *)
Fixpoint free_slot_loop (fuel : nat) (rl : resource_list) (i n : Z) : res Z :=
  match fuel with
  | O => Ok n
  | S fuel =>
    let n := (rl_n rl + i) mod rl_max_res rl in
    e ← slot_at (rl_res rl) n;
    if e_used e then free_slot_loop fuel rl (i + 1) n else mret n
  end.

Definition rl_grow (rl : resource_list) : resource_list :=
  if rl_n rl =? rl_max_res rl then
    ResourceList (rl_table rl) (rl_res rl ++ [RlEle None None false]) (rl_pending rl) (rl_n rl)
      (rl_max_res rl + 1) (rl_pick_index rl) (rl_pick rl)
  else rl.

(** [_resource_list_insert]; [resource_list_insert] is the same under the lock. *)
Definition resource_list_insert (r : R) : rlM Z := fun rl =>
  let rl := rl_grow rl in
  n ← free_slot_loop (Z.to_nat (rl_max_res rl)) rl 0 0;
  _ ← slot_at (rl_res rl) n;
  Ok (n, rl_set (<[rid r := r]> (rl_table rl))
           (<[Z.to_nat n := RlEle (Some r) (Some (rid r)) true]> (rl_res rl)) (rl_n rl + 1) rl).

Fixpoint delete_loop (fuel : nat) (rl : resource_list) (r : R) (i : Z) : res (option (Z * K)) :=
  match fuel with
  | O => Ok None
  | S fuel =>
    e ← slot_at (rl_res rl) i;
    if e_used e && bool_decide (e_r e = Some r) then
      match e_crid e with Some k => mret (Some (i, k)) | None => Fault NullDeref end
    else delete_loop fuel rl r (i + 1)
  end.

(** The result is 1 when the resource was not found. *)
Definition resource_list_delete (r : R) : rlM Z := fun rl =>
  found ← delete_loop (Z.to_nat (rl_max_res rl)) rl r 0;
  match found with
  | Some (i, k) =>
    Ok (0, rl_set (delete k (rl_table rl)) (<[Z.to_nat i := RlEle None None false]> (rl_res rl)) (rl_n rl - 1) rl)
  | None => Ok (1, rl)
  end.

Definition resource_lookup (rl : resource_list) (k : K) : option R := rl_table rl !! k.

(** The walk down the pending stack; it stops on the entry that matches. *)
Fixpoint pending_loop (fuel : nat) (k : K) : ST PM bool :=
  match fuel with
  | O => st_fail OutOfFuel
  | S fuel =>
    prid ← cs_current;
    match prid with
    | None => mret false
    | Some p => if decide (p = k) then mret true else cs_down;; pending_loop fuel k
    end
  end.

Definition pending_find (k : K) : ST PM bool :=
  cs_to_top;; n ← cs_count; pending_loop (S (Z.to_nat n)) k.

Definition resource_list_pending_insert (k : K) : rlM Z :=
  found ← on_pending (pending_find k);
  if (found : bool) then mret 1 else on_pending (cs_push (Some k));; mret 0.

Definition resource_list_pending_activate (k : K) (r : R) : rlM Z :=
  found ← on_pending (pending_find k);
  if (found : bool) then on_pending (cs_delete false false);; resource_list_insert r else mret (-1).

(** ** Picking a resource *)

Definition RES_MODE_WRITE : Z := 1.

Definition writable (r : R) : bool := Z.land (mode r) RES_MODE_WRITE >? 0.

(** The probe from slot [k] on; the loop leaves the last slot it looked at. *)
Fixpoint probe_loop (fuel : nat) (rl : resource_list) (k i slot : Z) : res Z :=
  match fuel with
  | O => Ok slot
  | S fuel =>
    let slot := (k + i) mod rl_max_res rl in
    e ← slot_at (rl_res rl) slot;
    if e_used e then
      match e_r e with
      | Some r => if writable r then mret slot else probe_loop fuel rl k (i + 1) slot
      | None => Fault NullDeref
      end
    else probe_loop fuel rl k (i + 1) slot
  end.

(** [*rid = rl->res\[slot\].r->rid] and the resource itself. *)
Definition picked (rl : resource_list) (slot : Z) : res R :=
  e ← slot_at (rl_res rl) slot;
  match e_r e with Some r => mret r | None => Fault NullDeref end.

(** [ui] is the 32-bit random number; the product with [rl->n] is computed
    in double precision, which is exact here. *)
Definition resource_pick_random (ui : Z) : rlM R := fun rl =>
  let k := rl_n rl * ui / 2 ^ 32 in
  slot ← probe_loop (Z.to_nat (rl_max_res rl)) rl k 0 k;
  r ← picked rl slot;
  Ok (r, rl).

Definition resource_pick_round_robin : rlM R := fun rl =>
  if rl_max_res rl =? 0 then Fault DivByZero else
  let k := rl_pick_index rl mod rl_max_res rl in
  slot ← probe_loop (Z.to_nat (rl_max_res rl)) rl k 0 k;
  r ← picked rl slot;
  Ok (r, ResourceList (rl_table rl) (rl_res rl) (rl_pending rl) (rl_n rl) (rl_max_res rl)
           ((slot + 1) mod rl_max_res rl) (rl_pick rl)).

Fixpoint most_free_loop (fuel : nat) (rl : resource_list) (i free_space free_index : Z) : res Z :=
  match fuel with
  | O => Ok free_index
  | S fuel =>
    e ← slot_at (rl_res rl) i;
    if e_used e then
      match e_r e with
      | Some r =>
        if writable r && (allocable r >? free_space)
        then most_free_loop fuel rl (i + 1) (allocable r) i
        else most_free_loop fuel rl (i + 1) free_space free_index
      | None => Fault NullDeref
      end
    else most_free_loop fuel rl (i + 1) free_space free_index
  end.

Definition resource_pick_most_free : rlM R := fun rl =>
  free_index ← most_free_loop (Z.to_nat (rl_max_res rl)) rl 0 (-1) (-1);
  r ← picked rl free_index;
  Ok (r, rl).

(** An empty table has nothing to pick. *)
Definition resource_pick (ui : Z) : rlM (option R) := fun rl =>
  if rl_n rl >? 0 then
    '(r, rl) ← match rl_pick rl with
               | RL_PICK_RANDOM => resource_pick_random ui rl
               | RL_PICK_MOST_FREE => resource_pick_most_free rl
               | RL_PICK_ROUND_ROBIN => resource_pick_round_robin rl
               end;
    Ok (Some r, rl)
  else Ok (None, rl).

(** ** Cyclic search *)

(** The slots [k], [k+1], ... modulo [max], up to the first that satisfies [P]. *)
Fixpoint cyc_search (P : Z -> bool) (max : Z) (fuel : nat) (k i slot : Z) : Z :=
  match fuel with
  | O => slot
  | S fuel => let slot := (k + i) mod max in if P slot then slot else cyc_search P max fuel k (i + 1) slot
  end.

Lemma cyc_search_first P max fuel k i slot d :
  0 <= d -> (forall d', 0 <= d' < d -> P ((k + i + d') mod max) = false) -> P ((k + i + d) mod max) = true ->
  d < Z.of_nat fuel -> cyc_search P max fuel k i slot = (k + i + d) mod max.
Proof.
  revert i slot d. induction fuel as [|fuel IH]; intros i slot d Hd Hno HP Hf; [lia|]. cbn [cyc_search].
  destruct (decide (d = 0)) as [->|Hne].
  - rewrite Z.add_0_r in *. by rewrite HP.
  - assert (Hf0 : P ((k + i) mod max) = false). { rewrite <- (Z.add_0_r (k + i)). apply Hno. lia. }
    rewrite Hf0. rewrite (IH (i + 1) _ (d - 1)); [f_equal; lia|lia|..|lia].
    + intros d' Hd'. replace (k + (i + 1) + d') with (k + i + (d' + 1)) by lia. apply Hno. lia.
    + by replace (k + (i + 1) + (d - 1)) with (k + i + d) by lia.
Qed.

(** The search finds a slot whenever there is one, and none before it on the way. *)
Lemma cyc_search_ok P max k j :
  0 < max -> 0 <= j < max -> P j = true ->
  exists d, 0 <= d < max /\ P ((k + d) mod max) = true /\ (forall d', 0 <= d' < d -> P ((k + d') mod max) = false) /\
    forall slot, cyc_search P max (Z.to_nat max) k 0 slot = (k + d) mod max.
Proof.
  intros Hmax Hj HP.
  pose proof (Z.mod_pos_bound (j - k) max Hmax) as Hb.
  assert (HPn : P ((k + Z.of_nat (Z.to_nat ((j - k) mod max))) mod max) = true).
  { rewrite Z2Nat.id, Zplus_mod_idemp_r by lia. replace (k + (j - k)) with j by lia. by rewrite Z.mod_small. }
  destruct (least_true (fun n => P ((k + Z.of_nat n) mod max)) _ HPn) as (n & Hn & HP0 & Hno).
  assert (Hno' : forall d', 0 <= d' < Z.of_nat n -> P ((k + d') mod max) = false).
  { intros d' Hd'. specialize (Hno (Z.to_nat d') ltac:(lia)). by rewrite Z2Nat.id in Hno by lia. }
  exists (Z.of_nat n). split_and!; [lia|lia|done..|]. intros slot.
  rewrite (cyc_search_first P max _ k 0 slot (Z.of_nat n)); rewrite ?Z.add_0_r; [done|lia|done|done|lia].
Qed.

(** ** What the table stands for *)

Definition used_by (r : R) : rl_ele_t := RlEle (Some r) (Some (rid r)) true.

(** The slots in use hold exactly the resources of [m], each once, and the
    hash table is [m]. *)
Record rl_rep (rl : resource_list) (m : gmap K R) : Prop := RlRep {
  rr_table : rl_table rl = m;
  rr_max : rl_max_res rl = Z.of_nat (length (rl_res rl));
  rr_n : rl_n rl = zsum (fun e => Z.b2z (e_used e)) (rl_res rl);
  rr_used : forall i e, rl_res rl !! i = Some e -> e_used e = true -> exists r, e = used_by r /\ m !! rid r = Some r;
  rr_free : forall i e, rl_res rl !! i = Some e -> e_used e = false -> e_r e = None;
  rr_all : forall k r, m !! k = Some r -> rid r = k /\ exists i, rl_res rl !! i = Some (used_by r);
  rr_once : forall i j r, rl_res rl !! i = Some (used_by r) -> rl_res rl !! j = Some (used_by r) -> i = j }.

Lemma slot_at_lookup slots i e : slots !! i = Some e -> slot_at slots (Z.of_nat i) = Ok e.
Proof. intros Hi. unfold slot_at. rewrite (proj2 (Z.ltb_ge _ _)) by lia. by rewrite Nat2Z.id, Hi. Qed.

Lemma slot_at_in slots i :
  0 <= i < Z.of_nat (length slots) -> exists e, slots !! Z.to_nat i = Some e /\ slot_at slots i = Ok e.
Proof.
  intros Hi. destruct (lookup_lt_is_Some_2 slots (Z.to_nat i)) as [e He]; [lia|]. exists e. split; [done|].
  rewrite <- (slot_at_lookup slots (Z.to_nat i) e He). f_equal. lia.
Qed.

(** Whether slot [i] is free. *)
Definition slot_free (slots : list rl_ele_t) (i : Z) : bool :=
  match slots !! Z.to_nat i with Some e => negb (e_used e) | None => false end.

Lemma free_slot_loop_eq fuel rl i n :
  rl_max_res rl = Z.of_nat (length (rl_res rl)) -> 0 < rl_max_res rl ->
  free_slot_loop fuel rl i n = Ok (cyc_search (slot_free (rl_res rl)) (rl_max_res rl) fuel (rl_n rl) i n).
Proof.
  intros Hm Hpos. revert i n. induction fuel as [|fuel IH]; intros i n; cbn [free_slot_loop cyc_search]; [done|].
  pose proof (Z.mod_pos_bound (rl_n rl + i) (rl_max_res rl) Hpos) as Hb.
  destruct (slot_at_in (rl_res rl) ((rl_n rl + i) mod rl_max_res rl)) as (e & He & Hs); [lia|].
  rewrite Hs. unfold mbind, res_bind, slot_free at 1. rewrite He. destruct (e_used e); simpl; [apply IH|done].
Qed.

(** With fewer resources than slots there is a free slot. *)
Lemma free_slot_exists slots :
  zsum (fun e => Z.b2z (e_used e)) slots < Z.of_nat (length slots) ->
  exists j, 0 <= j < Z.of_nat (length slots) /\ slot_free slots j = true.
Proof.
  intros Hlt. assert (exists i e, slots !! i = Some e /\ e_used e = false) as (i & e & Hi & He).
  { induction slots as [|e slots IH]; simpl in *; [lia|]. destruct (e_used e) eqn:E; simpl in *.
    - destruct IH as (i & e' & ? & ?); [lia|]. by exists (S i), e'.
    - by exists 0%nat, e. }
  exists (Z.of_nat i). pose proof (lookup_lt_Some _ _ _ Hi). split; [lia|]. unfold slot_free. by rewrite Nat2Z.id, Hi, He.
Qed.

Lemma used_le_slots (slots : list rl_ele_t) : zsum (fun e => Z.b2z (e_used e)) slots <= Z.of_nat (length slots).
Proof. induction slots as [|e slots IH]; simpl; [lia|]. destruct (e_used e); simpl; lia. Qed.

Lemma rl_grow_rep rl m :
  rl_rep rl m -> rl_rep (rl_grow rl) m /\ rl_n (rl_grow rl) < rl_max_res (rl_grow rl) /\
  rl_pending (rl_grow rl) = rl_pending rl /\ rl_pick_index (rl_grow rl) = rl_pick_index rl.
Proof.
  intros Hr. pose proof Hr as [Ht Hm Hn Hu Hfr Ha Ho]. pose proof (used_le_slots (rl_res rl)).
  unfold rl_grow. destruct (rl_n rl =? rl_max_res rl) eqn:E; breflect; [|split_and!; [done|lia|done|done]].
  split_and!; simpl; [|lia|done|done]. split; simpl; [done|rewrite length_app; simpl; lia|..].
  - rewrite zsum_app. simpl. lia.
  - intros i e [Hi|[_ Hi]]%lookup_app_Some; [by apply (Hu i)|]. apply list_lookup_singleton_Some in Hi as [_ <-]. done.
  - intros i e [Hi|[_ Hi]]%lookup_app_Some; [by apply (Hfr i)|]. apply list_lookup_singleton_Some in Hi as [_ <-]. done.
  - intros k r (? & i & Hi)%Ha. split; [done|]. exists i. by apply lookup_app_l_Some.
  - intros i j r [Hi|[_ Hi]]%lookup_app_Some [Hj|[_ Hj]]%lookup_app_Some;
      [by apply (Ho i j r)|apply list_lookup_singleton_Some in Hj as [_ [=]]|apply list_lookup_singleton_Some in Hi as [_ [=]]..].
Qed.

Lemma insert_rep rl m r :
  rl_rep rl m -> m !! rid r = None ->
  exists slot rl', resource_list_insert r rl = Ok (slot, rl') /\ rl_rep rl' (<[rid r := r]> m) /\
    rl_pending rl' = rl_pending rl.
Proof.
  intros Hr0 Hnew. destruct (rl_grow_rep rl m Hr0) as (Hr & Hlt & Hp & _). unfold resource_list_insert.
  set (g := rl_grow rl) in *. clearbody g. pose proof Hr as [Ht Hm Hn Hu Hfr Ha Ho].
  assert (Hpos : 0 < rl_max_res g). { pose proof (zsum_nonneg (fun e => Z.b2z (e_used e)) (rl_res g)) as Hz. rewrite <- Hn in Hz.
    assert (0 <= rl_n g); [|lia]. apply Hz. intros e. destruct (e_used e); simpl; lia. }
  destruct (free_slot_exists (rl_res g)) as (j & Hj & HP); [lia|]. rewrite <- Hm in Hj.
  destruct (cyc_search_ok (slot_free (rl_res g)) (rl_max_res g) (rl_n g) j Hpos Hj HP) as (d & Hd & HPd & _ & Hs).
  rewrite free_slot_loop_eq, Hs by done. unfold mbind, res_bind. set (n := (rl_n g + d) mod rl_max_res g) in *.
  assert (Hnb : 0 <= n < rl_max_res g) by (apply Z.mod_pos_bound; lia). clearbody n. clear Hs.
  destruct (slot_at_in (rl_res g) n) as (e & He & ->); [lia|]. unfold slot_free in HPd. rewrite He in HPd.
  apply negb_true_iff in HPd. eexists _, _. split; [done|]. split; [|exact Hp]. fold (used_by r).
  pose proof (lookup_lt_Some _ _ _ He) as Hlen. split; simpl.
  - by rewrite Ht.
  - by rewrite length_insert.
  - rewrite (zsum_insert _ _ _ e) by done. rewrite HPd, Hn. simpl. lia.
  - intros i e' Hi Hu'. apply list_lookup_insert_Some in Hi as [(<- & <- & _)|[Hne Hi]].
    + exists r. by rewrite lookup_insert_eq.
    + destruct (Hu i e' Hi Hu') as (r' & -> & Hr'). exists r'. split; [done|].
      rewrite lookup_insert_ne; [done|]. intros E. rewrite E in Hnew. congruence.
  - intros i e' Hi Hu'. apply list_lookup_insert_Some in Hi as [(_ & <- & _)|[_ Hi]]; [done|by apply (Hfr i)].
  - intros k r' [[<- <-]|[Hne Hr']]%lookup_insert_Some.
    + split; [done|]. exists (Z.to_nat n). by apply list_lookup_insert_eq.
    + destruct (Ha k r' Hr') as (? & i & Hi). split; [done|]. exists i. rewrite list_lookup_insert_ne; [done|].
      intros E. rewrite E, Hi in He. injection He as <-. done.
  - assert (Hfresh : forall i, rl_res g !! i <> Some (used_by r)).
    { intros i Hi. destruct (Hu i _ Hi eq_refl) as (r' & [= ->] & Hr'). congruence. }
    intros i1 i2 r' [(<- & Hr1 & _)|[H1 Hi1]]%list_lookup_insert_Some [(<- & Hr2 & _)|[H2 Hi2]]%list_lookup_insert_Some; [done|..].
    + injection Hr1 as ->. by destruct (Hfresh i2).
    + injection Hr2 as ->. by destruct (Hfresh i1).
    + by apply (Ho i1 i2 r').
Qed.

(** The scan of the slots for a resource. *)
Lemma delete_loop_ok rl m r fuel i :
  rl_rep rl m -> 0 <= i -> Z.of_nat fuel + i = rl_max_res rl ->
  (exists j, i <= j /\ delete_loop fuel rl r i = Ok (Some (j, rid r)) /\ rl_res rl !! Z.to_nat j = Some (used_by r)) \/
  (delete_loop fuel rl r i = Ok None /\ forall j, i <= Z.of_nat j -> rl_res rl !! j <> Some (used_by r)).
Proof.
  intros Hr. pose proof Hr as [Ht Hm Hn Hu Hfr Ha Ho]. revert i. induction fuel as [|fuel IH]; intros i Hi Hf; cbn [delete_loop].
  - right. split; [done|]. intros j Hj Hl%lookup_lt_Some. lia.
  - destruct (slot_at_in (rl_res rl) i) as (e & He & ->); [lia|]. unfold mbind, res_bind.
    destruct (e_used e && bool_decide (e_r e = Some r)) eqn:E.
    + apply andb_prop in E as [Hue He'%bool_decide_eq_true]. destruct (Hu _ _ He Hue) as (r' & -> & _).
      injection He' as ->. left. exists i. split_and!; [lia|done|done].
    + destruct (IH (i + 1)) as [(j & Hj & -> & Hl)|[-> Hno]]; [lia|lia| |].
      * left. exists j. split_and!; [lia|done|done].
      * right. split; [done|]. intros j Hj Hl. destruct (decide (Z.of_nat j = i)) as [<-|Hne]; [|by apply (Hno j); [lia|]].
        rewrite Nat2Z.id, Hl in He. injection He as <-. simpl in E. by rewrite bool_decide_eq_true_2 in E.
Qed.

Lemma delete_rep rl m r :
  rl_rep rl m ->
  exists rl', rl_pending rl' = rl_pending rl /\
    if decide (m !! rid r = Some r)
    then resource_list_delete r rl = Ok (0, rl') /\ rl_rep rl' (delete (rid r) m)
    else resource_list_delete r rl = Ok (1, rl) /\ rl' = rl.
Proof.
  intros Hr. pose proof Hr as [Ht Hm Hn Hu Hfr Ha Ho]. unfold resource_list_delete.
  destruct (delete_loop_ok rl m r (Z.to_nat (rl_max_res rl)) 0 Hr) as [(j & Hj & -> & Hl)|[-> Hno]]; [lia|lia|..].
  - destruct (Hu _ _ Hl eq_refl) as (r' & [= <-] & Hr'). unfold mbind, res_bind.
    eexists. split; [|rewrite decide_True by done; split; [done|]]; [done|]. pose proof (lookup_lt_Some _ _ _ Hl). split; simpl.
    + by rewrite Ht.
    + by rewrite length_insert.
    + rewrite (zsum_insert _ _ _ _ _ Hl). simpl. lia.
    + intros i e Hi Hue. apply list_lookup_insert_Some in Hi as [(<- & <- & _)|[Hne Hi]]; [done|].
      destruct (Hu i e Hi Hue) as (r' & -> & Hr2). exists r'. split; [done|]. rewrite lookup_delete_ne; [done|].
      intros E. assert (r = r') as <- by congruence. apply Hne. by apply (Ho (Z.to_nat j) i r).
    + intros i e Hi Hue. apply list_lookup_insert_Some in Hi as [(_ & <- & _)|[_ Hi]]; [done|by apply (Hfr i)].
    + intros k r' [Hne Hk]%lookup_delete_Some. destruct (Ha k r' Hk) as (? & i & Hi). split; [done|]. exists i.
      rewrite list_lookup_insert_ne; [done|]. intros <-. rewrite Hi in Hl. injection Hl as ->. done.
    + intros i1 i2 r' [(_ & [=] & _)|[_ Hi1]]%list_lookup_insert_Some [(_ & [=] & _)|[_ Hi2]]%list_lookup_insert_Some. by apply (Ho i1 i2 r').
  - exists rl. split; [done|]. rewrite decide_False; [done|]. intros (_ & i & Hi)%Ha. by apply (Hno i); [lia|].
Qed.

(** ** Iterating *)

(** A client that goes through the whole table. *)
Fixpoint iterate (fuel : nat) (rl : resource_list) (it : Z) : res (list R) :=
  match fuel with
  | O => Fault OutOfFuel
  | S fuel =>
    '(r, it) ← resource_list_iterator_next rl it;
    match r with
    | None => mret []
    | Some r => l ← iterate fuel rl it; mret (r :: l)
    end
  end.

(** The resources of a run of slots. *)
Definition slots_res (slots : list rl_ele_t) : list R := omap (fun e => if e_used e then e_r e else None) slots.

Lemma slots_res_cons e slots :
  slots_res (e :: slots) =
    match (if e_used e then e_r e else None) with Some r => r :: slots_res slots | None => slots_res slots end.
Proof. done. Qed.

(** One step of the iterator, as a split of the slots. *)
Lemma iterator_next_ok rl m it :
  rl_rep rl m -> 0 <= it <= rl_max_res rl ->
  match slots_res (drop (Z.to_nat it) (rl_res rl)) with
  | [] => resource_list_iterator_next rl it = Ok (None, it)
  | r :: l => exists it', it < it' <= rl_max_res rl /\ resource_list_iterator_next rl it = Ok (Some r, it') /\
      slots_res (drop (Z.to_nat it') (rl_res rl)) = l
  end.
Proof.
  intros Hr Hit. pose proof Hr as [Ht Hm Hn Hu Hfr Ha Ho]. unfold resource_list_iterator_next.
  remember (Z.to_nat (rl_max_res rl - it)) as fuel eqn:Hf.
  assert (Hloop : forall i, 0 <= i -> Z.of_nat fuel + i = rl_max_res rl ->
    match slots_res (drop (Z.to_nat i) (rl_res rl)) with
    | [] => exists j, iterator_loop fuel rl i = Ok (None, j)
    | r :: l => exists it', i < it' <= rl_max_res rl /\ iterator_loop fuel rl i = Ok (Some r, it') /\
        slots_res (drop (Z.to_nat it') (rl_res rl)) = l
    end).
  { clear Hf Hit it. induction fuel as [|fuel IH]; intros i Hi Hfi; cbn [iterator_loop].
    - rewrite drop_ge by lia. by exists i.
    - destruct (slot_at_in (rl_res rl) i) as (e & He & ->); [lia|]. unfold mbind, res_bind.
      rewrite (drop_S _ e) by done. replace (S (Z.to_nat i)) with (Z.to_nat (i + 1)) by lia.
      rewrite slots_res_cons. destruct (e_used e) eqn:E.
      + destruct (Hu _ _ He E) as (r & -> & _). simpl. exists (i + 1). split_and!; [lia|lia|done|done].
      + specialize (IH (i + 1) ltac:(lia) ltac:(lia)). destruct (slots_res _); [done|]. destruct IH as (it' & ? & ? & ?). exists it'. split_and!; [lia|lia|done|done]. }
  specialize (Hloop it ltac:(lia) ltac:(lia)). destruct (slots_res _) as [|r l].
  - destruct Hloop as [j ->]. done.
  - destruct Hloop as (it' & ? & -> & ?). by exists it'.
Qed.

Lemma iterate_ok rl m fuel it :
  rl_rep rl m -> 0 <= it <= rl_max_res rl -> (length (slots_res (drop (Z.to_nat it) (rl_res rl))) < fuel)%nat ->
  iterate fuel rl it = Ok (slots_res (drop (Z.to_nat it) (rl_res rl))).
Proof.
  intros Hr. revert it. induction fuel as [|fuel IH]; intros it Hit Hf; [lia|]. cbn [iterate].
  pose proof (iterator_next_ok rl m it Hr Hit) as Hn. destruct (slots_res (drop (Z.to_nat it) _)) as [|r l]; [by rewrite Hn|].
  destruct Hn as (it' & Hit' & -> & Hl). unfold mbind, res_bind. simpl. rewrite IH, Hl; [done|lia|]. rewrite Hl. simpl in Hf. lia.
Qed.

Lemma slots_res_elem slots r : r ∈ slots_res slots <-> exists i e, slots !! i = Some e /\ e_used e = true /\ e_r e = Some r.
Proof.
  unfold slots_res. rewrite list_elem_of_omap. split.
  - intros (e & [i Hi]%list_elem_of_lookup & He). exists i, e. destruct (e_used e); done.
  - intros (i & e & Hi & Hu & He). exists e. rewrite Hu. split; [by apply list_elem_of_lookup_2 in Hi|done].
Qed.

Lemma slots_res_nodup rl m : rl_rep rl m -> NoDup (slots_res (rl_res rl)).
Proof.
  intros [_ _ _ Hu _ _ Ho]. revert Hu Ho. generalize (rl_res rl). intros slots.
  induction slots as [|e slots IH]; intros Hu Ho; [constructor|]. rewrite slots_res_cons.
  assert (Hd : NoDup (slots_res slots)).
  { apply IH; [intros i e'; apply (Hu (S i) e')|]. intros i j r Hi Hj. specialize (Ho (S i) (S j) r Hi Hj). lia. }
  destruct (e_used e) eqn:E; [|exact Hd]. destruct (Hu 0%nat e eq_refl E) as (r & -> & _). simpl. constructor; [|exact Hd].
  intros (i & e' & Hi & Hue & Her)%slots_res_elem. destruct (Hu (S i) e' Hi Hue) as (r' & -> & _). injection Her as ->.
  specialize (Ho 0%nat (S i) r eq_refl Hi). lia.
Qed.

Lemma slots_res_all rl m : rl_rep rl m -> slots_res (rl_res rl) ≡ₚ (map_to_list m).*2.
Proof.
  intros Hr. pose proof Hr as [_ _ _ Hu _ Ha _]. apply NoDup_Permutation; [by eapply slots_res_nodup|..].
  - apply NoDup_fmap_2_strong; [|apply NoDup_map_to_list]. intros [k1 r1] [k2 r2] H1%elem_of_map_to_list H2%elem_of_map_to_list E.
    simpl in E. subst. apply Ha in H1 as [<- _], H2 as [<- _]. done.
  - intros r. rewrite slots_res_elem, list_elem_of_fmap. split.
    + intros (i & e & Hi & Hue & He). destruct (Hu i e Hi Hue) as (r' & -> & Hr'). injection He as ->.
      exists (rid r, r). split; [done|]. by apply elem_of_map_to_list.
    + intros ([k r'] & -> & Hk%elem_of_map_to_list). destruct (Ha k r' Hk) as (_ & i & Hi). by exists i, (used_by r').
Qed.

(** ** Pending ids *)

Context `{!CursorStackLaws PM K}.

Lemma pending_loop_ok k l1 l2 fuel :
  (length l2 < fuel)%nat -> k ∉ l1 ->
  if decide (k ∈ l2)
  then exists l3 l4, l1 ++ l2 = l3 ++ k :: l4 /\ k ∉ l3 /\
         cs_does (pending_loop fuel k) (z_after (Some <$> l1) (Some <$> l2)) true (At (Some <$> l3) (Some k) (Some <$> l4))
  else cs_does (pending_loop fuel k) (z_after (Some <$> l1) (Some <$> l2)) false (Off (Some <$> (l1 ++ l2))).
Proof.
  revert l1 l2. induction fuel as [|fuel IH]; intros l1 l2 Hf Hk; [lia|]. destruct l2 as [|p l2].
  - destruct (decide _) as [Hin|_]; [by apply not_elem_of_nil in Hin|]. rewrite app_nil_r.
    eapply does_bind; [apply cs_current_ok|]. apply does_ret.
  - rewrite fmap_cons. destruct (decide (p = k)) as [->|Hne].
    + rewrite decide_True by by left. exists l1, l2. split_and!; [done..|].
      eapply does_bind; [apply cs_current_ok|]. simpl. rewrite decide_True by done. apply does_ret.
    + specialize (IH (l1 ++ [p]) l2 ltac:(simpl in Hf; lia) ltac:(set_solver)). rewrite fmap_app in IH. csimpl in IH.
      destruct (decide (k ∈ l2)) as [Hin|Hin].
      * rewrite decide_True by by right. destruct IH as (l3 & l4 & He & Hk3 & Hd). exists l3, l4.
        split_and!; [by rewrite <- He, <- app_assoc|done|]. eapply does_bind; [apply cs_current_ok|]. simpl.
        rewrite decide_False by done. eapply does_bind; [apply cs_down_ok|exact Hd].
      * rewrite decide_False by set_solver. rewrite <- app_assoc in IH. eapply does_bind; [apply cs_current_ok|]. simpl.
        rewrite decide_False by done. eapply does_bind; [apply cs_down_ok|exact IH].
Qed.

(** The table holds the resources [m] and the pending ids [l]. *)
Definition rl_holds (rl : resource_list) (m : gmap K R) (l : list K) : Prop :=
  rl_rep rl m /\ exists z, cs_rep (rl_pending rl) z /\ z_list z = Some <$> l.

Lemma pending_find_ok k l z :
  z_list z = Some <$> l ->
  if decide (k ∈ l)
  then exists l3 l4, l = l3 ++ k :: l4 /\ k ∉ l3 /\
         cs_does (pending_find k) z true (At (Some <$> l3) (Some k) (Some <$> l4))
  else cs_does (pending_find k) z false (Off (Some <$> l)).
Proof.
  intros Hz. pose proof (pending_loop_ok k [] l (S (length l)) ltac:(lia) ltac:(apply not_elem_of_nil)) as Hl.
  assert (Hc : forall b z', cs_does (pending_loop (S (length l)) k) (z_after [] (Some <$> l)) b z' -> cs_does (pending_find k) z b z').
  { intros b z' Hd. unfold pending_find. eapply does_bind; [apply cs_to_top_ok|]. eapply does_bind; [apply cs_count_ok|].
    unfold z_top. rewrite z_after_list, Hz. simpl. rewrite length_fmap, Nat2Z.id. exact Hd. }
  destruct (decide (k ∈ l)); [|by apply Hc]. destruct Hl as (l3 & l4 & ? & ? & ?). exists l3, l4. split_and!; [done..|by apply Hc].
Qed.

(** An operation on the stack alone. *)
Lemma on_pending_ok {A} (op : ST PM A) rl m l z b z' l' :
  rl_holds rl m l -> cs_rep (rl_pending rl) z -> cs_does op z b z' -> z_list z' = Some <$> l' ->
  exists rl', on_pending op rl = Ok (b, rl') /\ rl_holds rl' m l' /\ cs_rep (rl_pending rl') z'.
Proof.
  intros [[Ht Hm Hn Hu Hfr Ha Ho] _] Hz Hd Hl'. unfold on_pending. destruct (Hd _ Hz) as (p' & -> & Hp').
  unfold mbind, res_bind. eexists. split; [done|]. split; [|done]. split; [by split|]. by exists z'.
Qed.

Lemma pending_insert_ok rl m l k :
  rl_holds rl m l ->
  exists rl', resource_list_pending_insert k rl = Ok (if decide (k ∈ l) then 1 else 0, rl') /\
    rl_holds rl' m (if decide (k ∈ l) then l else k :: l).
Proof.
  intros Hh. pose proof Hh as (_ & z & Hz & Hl). unfold resource_list_pending_insert, mbind, st_bind.
  pose proof (pending_find_ok k l z Hl) as Hf. destruct (decide (k ∈ l)).
  - destruct Hf as (l3 & l4 & -> & _ & Hd). destruct (on_pending_ok _ rl m _ z _ _ (l3 ++ k :: l4) Hh Hz Hd) as (rl' & -> & Hh' & _).
    { by rewrite fmap_app. }
    by exists rl'.
  - destruct (on_pending_ok _ rl m _ z _ _ l Hh Hz Hf) as (rl1 & -> & Hh1 & Hz1); [done|].
    destruct (on_pending_ok (cs_push (Some k)) rl1 m l _ _ _ (k :: l) Hh1 Hz1 (cs_push_ok _ _)) as (rl2 & -> & Hh2 & _); [done|].
    by exists rl2.
Qed.

Lemma pending_activate_ok rl m l k r :
  rl_holds rl m l -> m !! rid r = None ->
  if decide (k ∈ l)
  then exists slot rl' l3 l4, l = l3 ++ k :: l4 /\ k ∉ l3 /\
         resource_list_pending_activate k r rl = Ok (slot, rl') /\ rl_holds rl' (<[rid r := r]> m) (l3 ++ l4)
  else exists rl', resource_list_pending_activate k r rl = Ok (-1, rl') /\ rl_holds rl' m l.
Proof.
  intros Hh Hnew. pose proof Hh as (_ & z & Hz & Hl). unfold resource_list_pending_activate, mbind, st_bind.
  pose proof (pending_find_ok k l z Hl) as Hf. destruct (decide (k ∈ l)).
  - destruct Hf as (l3 & l4 & -> & Hk & Hd).
    destruct (on_pending_ok _ rl m _ z _ _ (l3 ++ k :: l4) Hh Hz Hd) as (rl1 & -> & Hh1 & Hz1); [by rewrite fmap_app|].
    destruct (on_pending_ok (cs_delete false false) rl1 m _ _ _ _ (l3 ++ l4) Hh1 Hz1 (cs_delete_ok _ _ _)) as (rl2 & -> & Hh2 & _).
    { simpl. by rewrite z_after_list, fmap_app. }
    destruct Hh2 as [Hr2 Hp2]. destruct (insert_rep rl2 m r Hr2 Hnew) as (slot & rl3 & -> & Hr3 & Hpe).
    exists slot, rl3, l3, l4. split_and!; [done..|]. split; [done|]. by rewrite Hpe.
  - destruct (on_pending_ok _ rl m _ z _ _ l Hh Hz Hf) as (rl1 & -> & Hh1 & _); [done|]. by exists rl1.
Qed.

Lemma create_holds n : rl_holds (create_resource_list n) ∅ [].
Proof.
  split; [|exists (Off []); split; [apply cs_new_ok|done]]. split; simpl.
  - done.
  - by rewrite length_replicate.
  - induction n; simpl; lia.
  - intros i e [-> _]%lookup_replicate. done.
  - intros i e [-> _]%lookup_replicate. done.
  - intros k r Hk. by rewrite lookup_empty in Hk.
  - intros i j r [[=] _]%lookup_replicate.
Qed.

Lemma n_used_size rl m : rl_rep rl m -> rl_n rl = Z.of_nat (size m).
Proof.
  intros Hr. pose proof (slots_res_all rl m Hr) as Hp%Permutation_length. rewrite length_fmap, length_map_to_list in Hp.
  rewrite <- Hp, (rr_n _ _ Hr). pose proof (rr_used _ _ Hr) as Hu. revert Hu. generalize (rl_res rl).
  intros slots. induction slots as [|e slots IH]; intros Hu; [done|]. rewrite slots_res_cons. simpl.
  rewrite IH by (intros i e'; apply (Hu (S i))). destruct (e_used e) eqn:E; simpl; [|lia].
  destruct (Hu 0%nat e eq_refl E) as (r & -> & _). simpl. lia.
Qed.

(** C15: The resource table is the finite map from ids to resources and the
    list of pending ids it stands for.  It starts empty; lookup, the count
    and a complete iteration give exactly that map; insertion of a new
    resource, deletion, and the two pending operations return what they
    promise and change the map and the list accordingly. *)
Theorem resource_list_refines :
  (forall n, rl_holds (create_resource_list n) ∅ []) /\
  forall rl m l, rl_holds rl m l ->
  (forall k, resource_lookup rl k = m !! k) /\ resource_list_n_used rl = Z.of_nat (size m) /\
  (exists rs, iterate (S (size m)) rl resource_list_iterator = Ok rs /\ rs ≡ₚ (map_to_list m).*2) /\
  (forall r, m !! rid r = None ->
    exists slot rl', resource_list_insert r rl = Ok (slot, rl') /\ rl_holds rl' (<[rid r := r]> m) l) /\
  (forall r, exists rl',
    resource_list_delete r rl = Ok (if decide (m !! rid r = Some r) then 0 else 1, rl') /\
    rl_holds rl' (if decide (m !! rid r = Some r) then delete (rid r) m else m) l) /\
  (forall k, exists rl', resource_list_pending_insert k rl = Ok (if decide (k ∈ l) then 1 else 0, rl') /\
    rl_holds rl' m (if decide (k ∈ l) then l else k :: l)) /\
  forall k r, m !! rid r = None ->
    if decide (k ∈ l)
    then exists slot rl' l3 l4, l = l3 ++ k :: l4 /\ k ∉ l3 /\
           resource_list_pending_activate k r rl = Ok (slot, rl') /\ rl_holds rl' (<[rid r := r]> m) (l3 ++ l4)
    else exists rl', resource_list_pending_activate k r rl = Ok (-1, rl') /\ rl_holds rl' m l.
Proof.
  split; [apply create_holds|]. intros rl m l Hh. pose proof Hh as [Hr Hp]. split_and!.
  - intros k. unfold resource_lookup. by rewrite (rr_table _ _ Hr).
  - by apply n_used_size.
  - exists (slots_res (rl_res rl)). split; [|by apply slots_res_all]. pose proof (slots_res_all rl m Hr) as Hs%Permutation_length.
    rewrite length_fmap, length_map_to_list in Hs. rewrite (iterate_ok rl m); [done|done|..].
    + unfold resource_list_iterator. rewrite (rr_max _ _ Hr). lia.
    + simpl. rewrite drop_0. lia.
  - intros r Hnew. destruct (insert_rep rl m r Hr Hnew) as (slot & rl' & ? & ? & Hpe). exists slot, rl'.
    split; [done|]. split; [done|]. by rewrite Hpe.
  - intros r. destruct (delete_rep rl m r Hr) as (rl' & Hpe & Hd). exists rl'.
    destruct (decide (m !! rid r = Some r)); destruct Hd as [-> Hd]; [|by subst]. split; [done|]. split; [done|]. by rewrite Hpe.
  - intros k. by apply pending_insert_ok.
  - intros k r Hnew. by apply pending_activate_ok.
Qed.

(** ** Picking *)

(** Whether slot [i] holds a resource that can be written to. *)
Definition slot_writable (slots : list rl_ele_t) (i : Z) : bool :=
  match slots !! Z.to_nat i with
  | Some e => e_used e && match e_r e with Some r => writable r | None => false end
  | None => false
  end.

Lemma probe_loop_eq rl m fuel k i slot :
  rl_rep rl m -> 0 < rl_max_res rl ->
  probe_loop fuel rl k i slot = Ok (cyc_search (slot_writable (rl_res rl)) (rl_max_res rl) fuel k i slot).
Proof.
  intros [_ Hm _ Hu _ _ _] Hpos. revert i slot. induction fuel as [|fuel IH]; intros i slot; cbn [probe_loop cyc_search]; [done|].
  pose proof (Z.mod_pos_bound (k + i) (rl_max_res rl) Hpos) as Hb.
  destruct (slot_at_in (rl_res rl) ((k + i) mod rl_max_res rl)) as (e & He & Hs); [lia|].
  rewrite Hs. unfold mbind, res_bind, slot_writable at 1. rewrite He. destruct (e_used e) eqn:E; simpl; [|apply IH].
  destruct (Hu _ _ He E) as (r & -> & _). simpl. destruct (writable r); [done|apply IH].
Qed.

Lemma slot_writable_res rl m i :
  rl_rep rl m -> slot_writable (rl_res rl) i = true ->
  exists r, rl_res rl !! Z.to_nat i = Some (used_by r) /\ m !! rid r = Some r /\ writable r = true.
Proof.
  intros [_ _ _ Hu _ _ _] Hw. unfold slot_writable in Hw. destruct (rl_res rl !! Z.to_nat i) as [e|] eqn:He; [|done].
  apply andb_prop in Hw as [Hue Hwr]. destruct (Hu _ _ He Hue) as (r & -> & Hr). by exists r.
Qed.

Lemma writable_slot rl m r :
  rl_rep rl m -> m !! rid r = Some r -> writable r = true ->
  exists j, 0 <= j < rl_max_res rl /\ slot_writable (rl_res rl) j = true /\ rl_res rl !! Z.to_nat j = Some (used_by r).
Proof.
  intros Hr Hm Hw. destruct (rr_all _ _ Hr _ _ Hm) as (_ & i & Hi). exists (Z.of_nat i).
  pose proof (lookup_lt_Some _ _ _ Hi). rewrite (rr_max _ _ Hr). split; [lia|]. unfold slot_writable. by rewrite Nat2Z.id, Hi.
Qed.

Lemma picked_ok rl i r : rl_res rl !! Z.to_nat i = Some (used_by r) -> 0 <= i -> picked rl i = Ok r.
Proof.
  intros Hi Hge. unfold picked. rewrite <- (Z2Nat.id i) by done. rewrite (slot_at_lookup _ _ _ Hi). done.
Qed.

(** The scan for the most free space. *)
Lemma most_free_loop_ok rl m fuel i space index :
  rl_rep rl m -> 0 <= i -> Z.of_nat fuel + i = rl_max_res rl ->
  exists j, most_free_loop fuel rl i space index = Ok j /\
    let best := fun b => forall i' r, i <= Z.of_nat i' -> rl_res rl !! i' = Some (used_by r) -> writable r = true -> allocable r <= b in
    (j = index /\ best space) \/
    (exists r, i <= j /\ rl_res rl !! Z.to_nat j = Some (used_by r) /\ writable r = true /\ space < allocable r /\ best (allocable r)).
Proof.
  intros Hr. pose proof Hr as [_ Hm _ Hu _ _ _]. revert i space index. induction fuel as [|fuel IH]; intros i space index Hi Hf; cbn [most_free_loop].
  { exists index. split; [done|]. left. split; [done|]. intros i' r Hi' Hl%lookup_lt_Some. lia. }
  destruct (slot_at_in (rl_res rl) i) as (e & He & ->); [lia|]. unfold mbind, res_bind.
  assert (Hsplit : forall b, (e_used e = true -> forall r, e = used_by r -> writable r = true -> allocable r <= b) ->
    (forall i' r, i + 1 <= Z.of_nat i' -> rl_res rl !! i' = Some (used_by r) -> writable r = true -> allocable r <= b) ->
    forall i' r, i <= Z.of_nat i' -> rl_res rl !! i' = Some (used_by r) -> writable r = true -> allocable r <= b).
  { intros b Hb Hrest i' r Hi' Hl Hw. destruct (decide (Z.of_nat i' = i)) as [<-|Hne]; [|by apply (Hrest i'); [lia|..]].
    rewrite Nat2Z.id, Hl in He. injection He as <-. by apply Hb. }
  destruct (e_used e) eqn:E.
  - destruct (Hu _ _ He E) as (r & -> & _). simpl. destruct (writable r && (allocable r >? space)) eqn:Hc.
    + apply andb_prop in Hc as [Hw Hgt]. breflect. destruct (IH (i + 1) (allocable r) i) as (j & -> & Hj); [lia|lia|].
      exists j. split; [done|]. right. destruct Hj as [[-> Hb]|(r' & Hj & Hl & Hw' & Hsp & Hb)].
      * exists r. split_and!; [lia|done|done|done|]. apply Hsplit; [|done]. intros _ r' [= <-] _. lia.
      * exists r'. split_and!; [lia|done|done|lia|]. apply Hsplit; [|done]. intros _ r2 [= <-] _. lia.
    + destruct (IH (i + 1) space index) as (j & -> & Hj); [lia|lia|].
      assert (Hle : forall r', used_by r = used_by r' -> writable r' = true -> allocable r' <= space).
      { intros r' [= <-] Hw. rewrite Hw in Hc. simpl in Hc. breflect. lia. }
      exists j. split; [done|]. destruct Hj as [[-> Hb]|(r' & Hj & Hl & Hw' & Hsp & Hb)].
      * left. split; [done|]. apply Hsplit; [|done]. intros _. apply Hle.
      * right. exists r'. split_and!; [lia|done|done|lia|]. apply Hsplit; [|done]. intros _ r2 H2 Hw2. specialize (Hle r2 H2 Hw2). lia.
  - destruct (IH (i + 1) space index) as (j & -> & Hj); [lia|lia|]. exists j. split; [done|].
    destruct Hj as [[-> Hb]|(r' & Hj & Hl & Hw' & Hsp & Hb)]; [left|right].
    + split; [done|]. apply Hsplit; [|done]. by intros ?.
    + exists r'. split_and!; [lia|done|done|lia|]. apply Hsplit; [|done]. by intros ?.
Qed.

Lemma some_used rl m k r : rl_rep rl m -> m !! k = Some r -> 0 < rl_n rl /\ 0 < rl_max_res rl.
Proof.
  intros Hr Hk. pose proof (n_used_size rl m Hr) as Hn. pose proof (used_le_slots (rl_res rl)) as Hle.
  rewrite <- (rr_n _ _ Hr), <- (rr_max _ _ Hr) in Hle.
  assert (size m <> 0%nat). { intros Hz%map_size_empty_inv. rewrite Hz in Hk. by rewrite lookup_empty in Hk. }
  lia.
Qed.

(** C35: When some resource can be written to, every policy picks one that
    can, and the table stays what it was: the round robin takes the first
    such slot from its index on and moves the index past it, and the most
    free policy takes one that no other exceeds in free space. *)
Theorem resource_pick_ok ui rl m r0 :
  rl_rep rl m -> 0 <= ui -> m !! rid r0 = Some r0 -> writable r0 = true -> (forall r, 0 <= allocable r) ->
  exists r rl', resource_pick ui rl = Ok (Some r, rl') /\ rl_rep rl' m /\ m !! rid r = Some r /\ writable r = true /\
    match rl_pick rl with
    | RL_PICK_RANDOM => rl' = rl
    | RL_PICK_MOST_FREE => rl' = rl /\ forall r', m !! rid r' = Some r' -> writable r' = true -> allocable r' <= allocable r
    | RL_PICK_ROUND_ROBIN => exists d, 0 <= d < rl_max_res rl /\
        rl_res rl !! Z.to_nat ((rl_pick_index rl + d) mod rl_max_res rl) = Some (used_by r) /\
        (forall d', 0 <= d' < d -> slot_writable (rl_res rl) ((rl_pick_index rl + d') mod rl_max_res rl) = false) /\
        rl_pick_index rl' = (rl_pick_index rl + d + 1) mod rl_max_res rl
    end.
Proof.
  intros Hr Hui Hm Hw Hnn. destruct (some_used rl m _ _ Hr Hm) as [Hn Hmax].
  destruct (writable_slot rl m r0 Hr Hm Hw) as (j & Hj & HP & Hjr). unfold resource_pick.
  rewrite (proj2 (Z.gtb_lt _ _)) by done. destruct (rl_pick rl).
  - unfold resource_pick_random. rewrite (probe_loop_eq rl m) by done. unfold mbind, res_bind.
    destruct (cyc_search_ok _ _ (rl_n rl * ui / 2 ^ 32) j Hmax Hj HP) as (d & Hd & HPd & _ & ->).
    destruct (slot_writable_res rl m _ Hr HPd) as (r & Hl & Hmr & Hwr). rewrite (picked_ok rl _ r Hl) by (apply Z.mod_pos_bound; lia).
    exists r, rl. by split_and!.
  - unfold resource_pick_most_free.
    destruct (most_free_loop_ok rl m (Z.to_nat (rl_max_res rl)) 0 (-1) (-1) Hr) as (i & -> & Hi); [lia|lia|]. unfold mbind, res_bind.
    destruct Hi as [[-> Hb]|(r & Hi & Hl & Hwr & _ & Hb)].
    { specialize (Hb (Z.to_nat j) r0 ltac:(lia) Hjr Hw). specialize (Hnn r0). lia. }
    rewrite (picked_ok rl i r Hl Hi). destruct (rr_used _ _ Hr _ _ Hl eq_refl) as (r' & [= <-] & Hmr).
    exists r, rl. split_and!; [done..|]. intros r' Hm' Hw'. destruct (rr_all _ _ Hr _ _ Hm') as (_ & i' & Hi'). apply (Hb i'); [lia|done|done].
  - unfold resource_pick_round_robin. rewrite (proj2 (Z.eqb_neq _ _)) by lia. rewrite (probe_loop_eq rl m) by done. unfold mbind, res_bind.
    destruct (cyc_search_ok _ _ (rl_pick_index rl mod rl_max_res rl) j Hmax Hj HP) as (d & Hd & HPd & Hno & ->).
    rewrite Zplus_mod_idemp_l in *. destruct (slot_writable_res rl m _ Hr HPd) as (r & Hl & Hmr & Hwr).
    rewrite (picked_ok rl _ r Hl) by (apply Z.mod_pos_bound; lia). eexists r, _. split; [done|].
    split_and!; [by destruct Hr; split|done|done|]. exists d. split_and!; [lia|lia|done|..]; simpl.
    + intros d' Hd'. specialize (Hno d' Hd'). by rewrite Zplus_mod_idemp_l in Hno.
    + by rewrite Zplus_mod_idemp_l.
Qed.

(** When no resource can be written to the picker does not say so: the
    most free policy indexes the array with -1, and the others hand out a
    resource that cannot be written to or dereference an empty slot. *)
Theorem resource_pick_none_writable ui rl m :
  rl_rep rl m -> 0 < rl_n rl -> (forall r, m !! rid r = Some r -> writable r = false) ->
  match resource_pick ui rl with
  | Ok (Some r, _) => rl_pick rl <> RL_PICK_MOST_FREE /\ writable r = false
  | Ok (None, _) => False
  | Fault f => match rl_pick rl with RL_PICK_MOST_FREE => f = OutOfBounds | _ => f = NullDeref \/ f = OutOfBounds end
  end.
Proof.
  intros Hr Hn Hno. unfold resource_pick. rewrite (proj2 (Z.gtb_lt _ _)) by done.
  pose proof (used_le_slots (rl_res rl)) as Hle. rewrite <- (rr_n _ _ Hr), <- (rr_max _ _ Hr) in Hle.
  assert (Hpk : forall i, match picked rl i with Ok r => writable r = false | Fault f => f = NullDeref \/ f = OutOfBounds end).
  { intros i. unfold picked, slot_at. destruct (i <? 0); [by right|]. destruct (rl_res rl !! Z.to_nat i) as [e|] eqn:He; [|by right].
    simpl. destruct (e_r e) as [r|] eqn:Her; [|by left]. destruct (e_used e) eqn:E.
    - destruct (rr_used _ _ Hr _ _ He E) as (r' & -> & Hm). injection Her as ->. by apply Hno.
    - by rewrite (rr_free _ _ Hr _ _ He E) in Her. }
  destruct (rl_pick rl).
  - unfold resource_pick_random. rewrite (probe_loop_eq rl m) by (done || lia). unfold mbind, res_bind.
    specialize (Hpk (cyc_search (slot_writable (rl_res rl)) (rl_max_res rl) (Z.to_nat (rl_max_res rl)) (rl_n rl * ui / 2 ^ 32) 0 (rl_n rl * ui / 2 ^ 32))).
    by destruct (picked rl _).
  - unfold resource_pick_most_free.
    destruct (most_free_loop_ok rl m (Z.to_nat (rl_max_res rl)) 0 (-1) (-1) Hr) as (i & -> & Hi); [lia|lia|]. unfold mbind, res_bind.
    destruct Hi as [[-> _]|(r & _ & Hl & Hwr & _)]; [done|].
    destruct (rr_used _ _ Hr _ _ Hl eq_refl) as (r' & [= <-] & Hm). by rewrite Hno in Hwr.
  - unfold resource_pick_round_robin. rewrite (proj2 (Z.eqb_neq _ _)) by lia. rewrite (probe_loop_eq rl m) by (done || lia). unfold mbind, res_bind.
    specialize (Hpk (cyc_search (slot_writable (rl_res rl)) (rl_max_res rl) (Z.to_nat (rl_max_res rl))
      (rl_pick_index rl mod rl_max_res rl) 0 (rl_pick_index rl mod rl_max_res rl))).
    by destruct (picked rl _).
Qed.

End code.

(** ** A depot with three resources

    Resources are their ids; the second one is read-only. *)
Definition depot_mode (r : Z) : Z := if r =? 20 then 2 else 3.
Definition depot_space (r : Z) : Z := Z.abs (100 - r).

Definition depot : @resource_list Z Z (stack_mem Z) _ _ :=
  foldl (fun rl r => match resource_list_insert id r rl with Ok (_, rl) => rl | Fault _ => rl end)
    (create_resource_list 2) [10; 20; 30].

Lemma depot_rep : rl_rep id depot {[30 := 30; 20 := 20; 10 := 10]}.
Proof.
  pose proof (create_holds (R := Z) (PM := stack_mem Z) id 2) as [H0 _].
  destruct (insert_rep id _ _ 10 H0 eq_refl) as (s1 & d1 & E1 & H1 & _).
  destruct (insert_rep id _ _ 20 H1 eq_refl) as (s2 & d2 & E2 & H2 & _).
  destruct (insert_rep id _ _ 30 H2 eq_refl) as (s3 & d3 & E3 & H3 & _).
  unfold depot. cbn [foldl]. by rewrite E1, E2, E3.
Qed.

Lemma resource_list_refines_witness :
  rl_holds id (create_resource_list 4 : @resource_list Z Z (stack_mem Z) _ _) ∅ [] /\
  exists rl', resource_list_pending_insert 7 (create_resource_list 4 : @resource_list Z Z (stack_mem Z) _ _) = Ok (0, rl') /\
    rl_holds id rl' ∅ [7].
Proof.
  destruct (resource_list_refines (K := Z) (R := Z) (PM := stack_mem Z) id) as [Hc Hop]. split; [apply Hc|].
  destruct (Hop _ _ _ (Hc 4%nat)) as (_ & _ & _ & _ & _ & Hp & _). destruct (Hp 7) as (rl' & He & Hh).
  destruct (decide (7 ∈ [])) as [Hin|_]; [by apply not_elem_of_nil in Hin|]. by exists rl'.
Defined.

Lemma resource_pick_ok_witness :
  exists r rl', resource_pick depot_mode depot_space 5 depot = Ok (Some r, rl') /\ writable depot_mode r = true.
Proof.
  destruct (resource_pick_ok id depot_mode depot_space 5 depot _ 30 depot_rep) as (r & rl' & He & _ & _ & Hw & _);
    [done|by vm_compute|done|intros r; apply Z.abs_nonneg|]. exists r, rl'. exact (conj He Hw).
Defined.

(** With every resource read-only the round robin still hands one out. *)
Lemma resource_pick_none_writable_witness :
  exists r rl', resource_pick (fun _ => 2) depot_space 5 depot = Ok (Some r, rl') /\ writable (fun _ : Z => 2) r = false.
Proof.
  assert (He : exists r rl', resource_pick (fun _ => 2) depot_space 5 depot = Ok (Some r, rl')) by (eexists _, _; vm_compute; reflexivity).
  destruct He as (r & rl' & He). exists r, rl'. split; [done|].
  pose proof (resource_pick_none_writable id (fun _ => 2) depot_space 5 depot _ depot_rep) as Hp. rewrite He in Hp.
  apply Hp; [by vm_compute|done].
Defined.
