(* ===== verification/TransferBuffer.v ===== *)
(** * Transfer buffers ([toolbox/transfer_buffer.c])

    A transfer buffer is a sequence of memory pieces read and written as one
    run of bytes; [tbx_tbuf_next] hands out the pieces from a position on, and
    copying and clearing are built on it.  Memory is a function from addresses
    to bytes; the sizes are [size_t] and the two cached fields and the local
    index are [int], as in the code. *)
From S2P Require Import Prelude ByteSegment.
Local Open Scope Z_scope.

(** [struct iovec]; a base of [None] is [NULL]. *)
Record tbx_iovec_t := Iovec { iov_base : option Z; iov_len : Z }.

#[export] Instance tbx_iovec_eq_dec : EqDecision tbx_iovec_t.
Proof. solve_decision. Defined.

(** [tbx_tbuf_t] with its [tbx_tbuf_info_t]. *)
Record tbx_tbuf_t := Tbuf { tb_total : Z; tb_n : Z; tb_iov : list tbx_iovec_t }.

(** [tbx_tbuf_var_t].  [tv_buffer] is the array the buffer pointer leads to:
    the pieces from the current slot on, or the single piece kept in the
    state. *)
Record tbx_tbuf_var_t := TbufVar {
  tv_nbytes : Z;
  tv_buffer : list tbx_iovec_t;
  tv_n_iov : Z;
  tv_curr_slot : Z;
  tv_slot_total_pos : Z }.

Inductive tbx_tbuf_ret_t := TBUFFER_OK | TBUFFER_OUTOFSPACE.

Definition tbx_tbuf_var_init : tbx_tbuf_var_t := TbufVar 0 [] 0 0 0.

Definition tbx_tbuf_single (nbytes : Z) (buffer : option Z) : tbx_tbuf_t :=
  Tbuf nbytes 1 [Iovec buffer nbytes].

Definition tbx_tbuf_vec (total_bytes n_vec : Z) (iov : list tbx_iovec_t) : tbx_tbuf_t :=
  Tbuf total_bytes (to_signed 32 n_vec) iov.

Definition tbx_tbuf_size (tb : tbx_tbuf_t) : Z := tb_total tb.

Definition set_nbytes (n : Z) (tv : tbx_tbuf_var_t) : tbx_tbuf_var_t :=
  TbufVar n (tv_buffer tv) (tv_n_iov tv) (tv_curr_slot tv) (tv_slot_total_pos tv).

(** [v\[i\]] *)
Definition iov_at (v : list tbx_iovec_t) (i : Z) : res tbx_iovec_t :=
  if i <? 0 then Fault OutOfBounds
  else match v !! Z.to_nat i with Some e => Ok e | None => Fault OutOfBounds end.

Definition size_t (x : Z) : Z := to_unsigned 64 x.
Definition int_t (x : Z) : Z := to_signed 32 x.

(** The loop over the slots: the first one whose end is past [pos], or the
    one given; [sum] is the number of bytes before the slot reached, and
    [len] the bytes of the slots passed over. *)
Fixpoint slot_loop (fuel : nat) (tb : tbx_tbuf_t) (pos i sum len slot : Z) : res (Z * Z * Z) :=
  match fuel with
  | O => Ok (slot, sum, len)
  | S fuel =>
    if i <? tb_n tb then
      v ← iov_at (tb_iov tb) i;
      let ds := size_t (sum + iov_len v) in
      if ds >? pos then mret (i, sum, len)
      else slot_loop fuel tb pos (i + 1) ds (size_t (len + iov_len v)) slot
    else mret (slot, sum, len)
  end.

(** The pieces from slot [k] on. *)
Definition rest_of (tb : tbx_tbuf_t) (k : Z) : list tbx_iovec_t := drop (Z.to_nat k) (tb_iov tb).

(** [tb_next_block]. *)
Definition tbx_tbuf_next (tb : tbx_tbuf_t) (pos : Z) (tv : tbx_tbuf_var_t) : res (tbx_tbuf_ret_t * tbx_tbuf_var_t) :=
  if pos >=? tb_total tb then Ok (TBUFFER_OUTOFSPACE, tv)
  else
    let endpos := size_t (pos + tv_nbytes tv - 1) in
    let sum := size_t (tv_slot_total_pos tv) in
    let '(sum, curr) := if pos <? sum then (0, 0) else (sum, tv_curr_slot tv) in
    '(curr, sum, _) ← slot_loop (Z.to_nat (tb_n tb - curr)) tb pos curr sum 0 curr;
    let total_pos := int_t sum in
    let i := int_t (size_t (pos - sum)) in
    if i =? 0 then
      if size_t (pos + tv_nbytes tv) >=? tb_total tb then
        let nbytes :=
          if tv_nbytes tv >? tb_total tb then (if tb_total tb >? sum then tb_total tb - sum else 0)
          else tv_nbytes tv in
        Ok (TBUFFER_OK, TbufVar nbytes (rest_of tb curr) (tb_n tb - curr) curr total_pos)
      else
        '(slot, _, len) ← slot_loop (Z.to_nat (tb_n tb - curr)) tb endpos curr sum 0 curr;
        if slot =? curr then
          v ← iov_at (tb_iov tb) curr;
          Ok (TBUFFER_OK, TbufVar (tv_nbytes tv) [Iovec (iov_base v) (tv_nbytes tv)] 1 curr total_pos)
        else Ok (TBUFFER_OK, TbufVar len (rest_of tb curr) (slot - curr) curr total_pos)
    else
      v ← iov_at (tb_iov tb) curr;
      let base := match iov_base v with Some b => Some (b + i) | None => None end in
      let len := size_t (iov_len v - i) in
      let len := if len >? tv_nbytes tv then tv_nbytes tv else len in
      Ok (TBUFFER_OK, TbufVar len [Iovec base len] 1 curr total_pos).

(** ** Copying *)

Definition mem : Type := Z -> Z.

Definition memcpy (dst src len : Z) (m : mem) : mem := overlay dst (slice m src len) m.
Definition memset (dst c len : Z) (m : mem) : mem := overlay dst (slice (fun _ => c) 0 len) m.

(** The transfer of [len] bytes between two pieces. *)
Definition copy_piece (blank_missing : bool) (d s : tbx_iovec_t) (dp sp len nskipped : Z) (m : mem) : Z * mem :=
  match iov_base d, iov_base s with
  | Some db, Some sb => (nskipped, memcpy (db + dp) (sb + sp) len m)
  | Some db, None => (len, if blank_missing then memset (db + dp) 0 len m else m)
  | None, _ => (len, m)
  end.

(** The inner loop: [n] bytes are left of the two runs of pieces. *)
Fixpoint copy_inner (fuel : nat) (blank : bool) (sb db : list tbx_iovec_t)
    (si di sp dp slen dlen n spos dpos nleft nskipped : Z) (m : mem) : res (Z * Z * Z * Z * mem) :=
  if n >? 0 then
    match fuel with
    | O => Fault OutOfFuel
    | S fuel =>
      let len := if slen >? dlen then dlen else slen in
      d ← iov_at db di;
      s ← iov_at sb si;
      let '(nskipped, m) := copy_piece blank d s dp sp len nskipped m in
      let n := int_t (n - len) in
      let spos := size_t (spos + len) in
      let dpos := size_t (dpos + len) in
      let nleft := size_t (nleft - len) in
      if n >? 0 then
        let dlen := size_t (dlen - len) in
        let dp := size_t (dp + len) in
        '(di, dlen, dp) ← (if dlen <=? 0 then d ← iov_at db (di + 1); mret (di + 1, iov_len d, 0) else mret (di, dlen, dp));
        let slen := size_t (slen - len) in
        let sp := size_t (sp + len) in
        '(si, slen, sp) ← (if slen <=? 0 then s ← iov_at sb (si + 1); mret (si + 1, iov_len s, 0) else mret (si, slen, sp));
        copy_inner fuel blank sb db si di sp dp slen dlen n spos dpos nleft nskipped m
      else Ok (spos, dpos, nleft, nskipped, m)
    end
  else Ok (spos, dpos, nleft, nskipped, m).

(** The outer loop; [stv] and [dtv] keep the positions in the two buffers. *)
Fixpoint copy_outer (fuel : nat) (blank : bool) (tb_s tb_d : tbx_tbuf_t) (stv dtv : tbx_tbuf_var_t)
    (spos dpos nleft nskipped : Z) (m : mem) : res (Z * mem) :=
  if nleft >? 0 then
    match fuel with
    | O => Fault OutOfFuel
    | S fuel =>
      '(err, stv) ← tbx_tbuf_next tb_s spos (set_nbytes nleft stv);
      match err with
      | TBUFFER_OUTOFSPACE => Ok (nskipped, m)
      | TBUFFER_OK =>
        '(err, dtv) ← tbx_tbuf_next tb_d dpos (set_nbytes nleft dtv);
        match err with
        | TBUFFER_OUTOFSPACE => Ok (nskipped, m)
        | TBUFFER_OK =>
          let n := int_t (if tv_nbytes stv >? tv_nbytes dtv then tv_nbytes dtv else tv_nbytes stv) in
          s ← iov_at (tv_buffer stv) 0;
          d ← iov_at (tv_buffer dtv) 0;
          '(spos, dpos, nleft, nskipped, m) ←
            copy_inner (Z.to_nat n + length (tv_buffer stv) + length (tv_buffer dtv)) blank
              (tv_buffer stv) (tv_buffer dtv) 0 0 0 0 (iov_len s) (iov_len d) n spos dpos nleft nskipped m;
          copy_outer fuel blank tb_s tb_d stv dtv spos dpos nleft nskipped m
        end
      end
    end
  else Ok (nskipped, m).

Definition tbx_tbuf_copy (tb_s : tbx_tbuf_t) (off_s : Z) (tb_d : tbx_tbuf_t) (off_d nbytes : Z) (blank_missing : bool)
    (m : mem) : res (Z * mem) :=
  copy_outer (Z.to_nat nbytes) blank_missing tb_s tb_d tbx_tbuf_var_init tbx_tbuf_var_init off_s off_d nbytes 0 m.

(** ** Clearing *)

Fixpoint memset_inner (fuel : nat) (v : list tbx_iovec_t) (n_iov i c nleft pos : Z) (m : mem) : res (Z * Z * mem) :=
  match fuel with
  | O => Ok (nleft, pos, m)
  | S fuel =>
    if i <? n_iov then
      e ← iov_at v i;
      let dn := iov_len e in
      let m := match iov_base e with Some b => memset b c dn m | None => m end in
      let nleft := size_t (nleft - dn) in
      let pos := size_t (pos + dn) in
      if nleft <=? 0 then mret (nleft, pos, m) else memset_inner fuel v n_iov (i + 1) c nleft pos m
    else mret (nleft, pos, m)
  end.

Fixpoint memset_outer (fuel : nat) (tb : tbx_tbuf_t) (tv : tbx_tbuf_var_t) (c nleft pos : Z) (m : mem) : res mem :=
  if nleft >? 0 then
    match fuel with
    | O => Fault OutOfFuel
    | S fuel =>
      '(_, tv) ← tbx_tbuf_next tb pos (set_nbytes nleft tv);
      '(nleft, pos, m) ← memset_inner (Z.to_nat (tv_n_iov tv)) (tv_buffer tv) (tv_n_iov tv) 0 c nleft pos m;
      memset_outer fuel tb tv c nleft pos m
    end
  else Ok m.

(** The result is -1 when the buffer is too small. *)
Definition tbx_tbuf_memset (tb : tbx_tbuf_t) (off c nbytes : Z) (m : mem) : res (Z * mem) :=
  if size_t (tbx_tbuf_size tb - off) <? nbytes then Ok (-1, m)
  else m' ← memset_outer (Z.to_nat nbytes) tb tbx_tbuf_var_init c nbytes off m; mret (0, m').

(** ** What a buffer stands for *)

(** The addresses of the bytes of a piece, and of a run of pieces. *)
Definition cells (e : tbx_iovec_t) : list (option Z) :=
  match iov_base e with
  | Some b => Some <$> seqZ b (iov_len e)
  | None => replicate (Z.to_nat (iov_len e)) None
  end.

Definition flat (v : list tbx_iovec_t) : list (option Z) := v ≫= cells.

Definition iov_sum (v : list tbx_iovec_t) : Z := zsum iov_len v.

Definition iov_wf (v : list tbx_iovec_t) : Prop := Forall (fun e => 0 <= iov_len e) v.

Definition iov_small (v : list tbx_iovec_t) : Prop := Forall (fun e => 0 <= iov_len e < 2 ^ 31) v.

Record tbuf_ok (tb : tbx_tbuf_t) : Prop := TbufOk {
  tb_n_ok : tb_n tb = Z.of_nat (length (tb_iov tb));
  tb_total_ok : tb_total tb = iov_sum (tb_iov tb);
  tb_wf : iov_wf (tb_iov tb);
  tb_small : tb_total tb < 2 ^ 31 }.

(** The state remembers a slot and the number of bytes before it. *)
Record tv_ok (tb : tbx_tbuf_t) (tv : tbx_tbuf_var_t) : Prop := TvOk {
  tv_slot_ok : 0 <= tv_curr_slot tv <= tb_n tb;
  tv_pos_ok : tv_slot_total_pos tv = iov_sum (take (Z.to_nat (tv_curr_slot tv)) (tb_iov tb)) }.

Lemma size_t_small x : 0 <= x < 2 ^ 64 -> size_t x = x.
Proof. apply to_unsigned_small. Qed.

Lemma int_t_small x : 0 <= x < 2 ^ 31 -> int_t x = x.
Proof. intros. apply to_signed_small; lia. Qed.

Lemma cells_length e : length (cells e) = Z.to_nat (iov_len e).
Proof. unfold cells. destruct (iov_base e); by rewrite ?length_fmap, ?length_seqZ, ?length_replicate. Qed.

Lemma iov_sum_nonneg v : iov_wf v -> 0 <= iov_sum v.
Proof. unfold iov_sum. induction 1; simpl; lia. Qed.

Lemma flat_length v : iov_wf v -> length (flat v) = Z.to_nat (iov_sum v).
Proof.
  unfold flat. induction 1 as [|e v He Hv IH]; [done|]. rewrite bind_cons, length_app, cells_length, IH.
  pose proof (iov_sum_nonneg v Hv). unfold iov_sum in *. simpl. lia.
Qed.

Lemma iov_sum_app v w : iov_sum (v ++ w) = iov_sum v + iov_sum w.
Proof. apply zsum_app. Qed.

Lemma iov_sum_S v (i : nat) e : v !! i = Some e -> iov_sum (take (S i) v) = iov_sum (take i v) + iov_len e.
Proof. intros Hi. rewrite (take_S_r _ _ e) by done. rewrite iov_sum_app. unfold iov_sum. simpl. lia. Qed.

Lemma iov_sum_mono v (i j : nat) : iov_wf v -> (i <= j)%nat -> iov_sum (take i v) <= iov_sum (take j v).
Proof.
  intros Hv Hij. rewrite <- (take_drop i (take j v)), take_take, Nat.min_l by done. rewrite iov_sum_app.
  pose proof (iov_sum_nonneg (drop i (take j v)) ltac:(by apply Forall_drop, Forall_take)). lia.
Qed.

Lemma iov_sum_take_le v i : iov_wf v -> 0 <= iov_sum (take i v) <= iov_sum v.
Proof.
  intros Hv. split; [by apply iov_sum_nonneg, Forall_take|].
  rewrite <- (take_drop i v) at 2. rewrite iov_sum_app. pose proof (iov_sum_nonneg (drop i v) ltac:(by apply Forall_drop)). lia.
Qed.

Lemma flat_app v w : flat (v ++ w) = flat v ++ flat w.
Proof. apply bind_app. Qed.

(** The bytes from the start of slot [k] on. *)
Lemma flat_drop v k : iov_wf v -> drop (Z.to_nat (iov_sum (take k v))) (flat v) = flat (drop k v).
Proof.
  intros Hv. rewrite <- (take_drop k v) at 2. rewrite flat_app, drop_app_length'; [done|].
  by rewrite flat_length by by apply Forall_take.
Qed.

Lemma cells_take e n : n <= iov_len e -> cells (Iovec (iov_base e) n) = take (Z.to_nat n) (cells e).
Proof.
  intros Hn. unfold cells. simpl. destruct (iov_base e) as [b|].
  - rewrite <- fmap_take. f_equal. apply list_eq. intros i. destruct (decide (Z.of_nat i < n)).
    + rewrite lookup_take_lt by lia. by rewrite !lookup_seqZ_lt by lia.
    + rewrite lookup_take_ge by lia. by rewrite lookup_seqZ_ge by lia.
  - rewrite take_replicate. f_equal. lia.
Qed.

Lemma cells_drop e i :
  0 <= i <= iov_len e -> cells (Iovec (match iov_base e with Some b => Some (b + i) | None => None end) (iov_len e - i)) = drop (Z.to_nat i) (cells e).
Proof.
  intros Hi. unfold cells. simpl. destruct (iov_base e) as [b|].
  - rewrite <- fmap_drop. f_equal. apply list_eq. intros j. rewrite lookup_drop. destruct (decide (Z.of_nat j < iov_len e - i)).
    + rewrite !lookup_seqZ_lt by lia. f_equal. lia.
    + by rewrite !lookup_seqZ_ge by lia.
  - rewrite drop_replicate. f_equal. lia.
Qed.

Lemma iov_at_lookup v i e : v !! i = Some e -> iov_at v (Z.of_nat i) = Ok e.
Proof. intros Hi. unfold iov_at. rewrite (proj2 (Z.ltb_ge _ _)) by lia. by rewrite Nat2Z.id, Hi. Qed.

(** ** Finding the slot *)

Lemma slot_loop_ok tb pos (k : nat) slot0 :
  tbuf_ok tb -> (k <= length (tb_iov tb))%nat -> iov_sum (take k (tb_iov tb)) <= pos < tb_total tb ->
  exists j : nat, (k <= j < length (tb_iov tb))%nat /\
    slot_loop (Z.to_nat (tb_n tb - Z.of_nat k)) tb pos (Z.of_nat k) (iov_sum (take k (tb_iov tb))) 0 slot0 =
      Ok (Z.of_nat j, iov_sum (take j (tb_iov tb)), iov_sum (take j (tb_iov tb)) - iov_sum (take k (tb_iov tb))) /\
    iov_sum (take j (tb_iov tb)) <= pos < iov_sum (take (S j) (tb_iov tb)).
Proof.
  intros [Hn Ht Hw Hs] Hk Hpos. set (v := tb_iov tb) in *.
  assert (Hgen : forall fuel (i : nat), (k <= i <= length v)%nat -> (fuel = length v - i)%nat -> iov_sum (take i v) <= pos ->
    exists j : nat, (i <= j < length v)%nat /\
      slot_loop fuel tb pos (Z.of_nat i) (iov_sum (take i v)) (iov_sum (take i v) - iov_sum (take k v)) slot0 =
        Ok (Z.of_nat j, iov_sum (take j v), iov_sum (take j v) - iov_sum (take k v)) /\
      iov_sum (take j v) <= pos < iov_sum (take (S j) v)).
  { intros fuel. induction fuel as [|fuel IH]; intros i Hi Hf Hip.
    - assert (i = length v) as -> by lia. rewrite firstn_all in Hip. lia.
    - destruct (lookup_lt_is_Some_2 v i) as [e He]; [lia|]. cbn [slot_loop]. rewrite (proj2 (Z.ltb_lt _ _)) by lia.
      fold v. rewrite (iov_at_lookup v i e He). unfold mbind, res_bind. pose proof (iov_sum_S v i e He) as HS.
      pose proof (iov_sum_take_le v (S i) Hw). pose proof (iov_sum_take_le v i Hw). pose proof (iov_sum_take_le v k Hw).
      pose proof (iov_sum_mono v k i Hw ltac:(lia)).
      assert (0 <= iov_len e) by (by apply (Forall_lookup_1 _ _ _ _ Hw He)).
      rewrite size_t_small by lia. destruct (_ >? pos) eqn:E; breflect.
      + exists i. split; [lia|]. split; [done|]. lia.
      + rewrite <- HS. rewrite size_t_small by lia. replace (iov_sum (take i v) - iov_sum (take k v) + iov_len e) with
          (iov_sum (take (S i) v) - iov_sum (take k v)) by lia. replace (Z.of_nat i + 1) with (Z.of_nat (S i)) by lia.
        destruct (IH (S i)) as (j & Hj & He' & Hb); [lia|lia|lia|]. exists j. split; [lia|done]. }
  destruct (Hgen (Z.to_nat (tb_n tb - Z.of_nat k)) k) as (j & Hj & He & Hb); [lia|lia|lia|].
  rewrite Z.sub_diag in He. by exists j.
Qed.

(** ** The next block *)

(** [tv] presents the first [tv_nbytes] of the [n] bytes of [tb] from [pos] on. *)
Record presents (tb : tbx_tbuf_t) (pos n : Z) (tv : tbx_tbuf_var_t) : Prop := Presents {
  pr_state : tv_ok tb tv;
  pr_nbytes : 0 < tv_nbytes tv <= n;
  pr_n_iov : 0 < tv_n_iov tv <= Z.of_nat (length (tv_buffer tv));
  pr_small : iov_small (tv_buffer tv);
  pr_flat : flat (take (Z.to_nat (tv_n_iov tv)) (tv_buffer tv)) =
    take (Z.to_nat (tv_nbytes tv)) (drop (Z.to_nat pos) (flat (tb_iov tb))) }.

(** The slot a position falls into, from a state that may lie past it. *)
Lemma find_slot_ok tb tv pos :
  tbuf_ok tb -> tv_ok tb tv -> 0 <= pos < tb_total tb ->
  exists j : nat, (j < length (tb_iov tb))%nat /\ iov_sum (take j (tb_iov tb)) <= pos < iov_sum (take (S j) (tb_iov tb)) /\
    exists len, (let sum := size_t (tv_slot_total_pos tv) in
     let '(sum, curr) := if pos <? sum then (0, 0) else (sum, tv_curr_slot tv) in
     slot_loop (Z.to_nat (tb_n tb - curr)) tb pos curr sum 0 curr) = Ok (Z.of_nat j, iov_sum (take j (tb_iov tb)), len).
Proof.
  intros Htb [Hs Hp] Hpos. pose proof Htb as [Hn Ht Hw Hsm]. set (v := tb_iov tb) in *.
  pose proof (iov_sum_take_le v (Z.to_nat (tv_curr_slot tv)) Hw) as Hb. rewrite <- Hp in Hb.
  rewrite size_t_small by lia. cbv zeta. destruct (pos <? tv_slot_total_pos tv) eqn:E; breflect.
  - destruct (slot_loop_ok tb pos 0 0 Htb) as (j & Hj & He & Hjp); [lia|simpl; unfold iov_sum; simpl; lia|]. fold v in Hj, He, Hjp.
    exists j. split; [lia|]. split; [done|]. eexists. exact He.
  - destruct (slot_loop_ok tb pos (Z.to_nat (tv_curr_slot tv)) (tv_curr_slot tv) Htb) as (j & Hj & He & Hjp); [fold v; lia|fold v; lia|]. fold v in Hj, He, Hjp.
    exists j. split; [lia|]. split; [done|]. eexists. rewrite <- Hp, Z2Nat.id in He by lia. exact He.
Qed.

Lemma drop_flat_split v (j : nat) e pos :
  iov_wf v -> v !! j = Some e -> iov_sum (take j v) <= pos < iov_sum (take (S j) v) ->
  drop (Z.to_nat pos) (flat v) = drop (Z.to_nat (pos - iov_sum (take j v))) (cells e) ++ flat (drop (S j) v).
Proof.
  intros Hw He Hpos. pose proof (iov_sum_take_le v j Hw). pose proof (iov_sum_S v j e He).
  replace (Z.to_nat pos) with (Z.to_nat (iov_sum (take j v)) + Z.to_nat (pos - iov_sum (take j v)))%nat by lia.
  rewrite <- drop_drop, flat_drop by done. rewrite (drop_S _ e) by done. unfold flat. rewrite bind_cons.
  rewrite drop_app_le; [done|]. rewrite cells_length. lia.
Qed.

Lemma iov_sum_elem v e : iov_wf v -> e ∈ v -> iov_len e <= iov_sum v.
Proof.
  intros Hv [i Hi]%list_elem_of_lookup. pose proof (iov_sum_S v i e Hi). pose proof (iov_sum_take_le v i Hv).
  pose proof (iov_sum_take_le v (S i) Hv). lia.
Qed.

Lemma tbuf_iov_small tb : tbuf_ok tb -> iov_small (tb_iov tb).
Proof.
  intros [_ Ht Hw Hs]. apply Forall_forall. intros e He. pose proof (iov_sum_elem _ e Hw He).
  pose proof (proj1 (Forall_forall _ _) Hw e He). simpl in *. lia.
Qed.

Lemma tv_ok_slot tb (j : nat) n b k : tbuf_ok tb -> (j <= length (tb_iov tb))%nat ->
  tv_ok tb (TbufVar n b k (Z.of_nat j) (iov_sum (take j (tb_iov tb)))).
Proof. intros [Hn _ _ _] Hj. split; simpl; [lia|]. by rewrite Nat2Z.id. Qed.

(** A single piece cut out of slot [j]. *)
Lemma presents_single tb pos n (j : nat) e len :
  tbuf_ok tb -> tb_iov tb !! j = Some e -> iov_sum (take j (tb_iov tb)) <= pos < iov_sum (take (S j) (tb_iov tb)) ->
  0 < len <= n -> len <= iov_len e - (pos - iov_sum (take j (tb_iov tb))) ->
  presents tb pos n (TbufVar len
    [Iovec (match iov_base e with Some b => Some (b + (pos - iov_sum (take j (tb_iov tb)))) | None => None end) len] 1
    (Z.of_nat j) (iov_sum (take j (tb_iov tb)))).
Proof.
  intros Htb He Hpos Hlen Hfit. pose proof (lookup_lt_Some _ _ _ He). split; simpl; [apply tv_ok_slot; [done|lia]|lia|lia| |].
  { pose proof (Forall_lookup_1 _ _ _ _ (tbuf_iov_small _ Htb) He). repeat constructor; simpl in *; lia. }
  rewrite (drop_flat_split _ j e pos (tb_wf _ Htb) He Hpos). set (i := pos - iov_sum _) in *.
  rewrite take_app_le by (rewrite length_drop, cells_length; lia).
  rewrite <- cells_drop by lia. unfold flat. csimpl. rewrite app_nil_r.
  exact (cells_take (Iovec _ (iov_len e - i)) len ltac:(simpl; lia)).
Qed.

(** All the pieces from slot [j] up to slot [k]. *)
Lemma presents_run tb pos n (j k : nat) len :
  tbuf_ok tb -> (j < k <= length (tb_iov tb))%nat -> pos = iov_sum (take j (tb_iov tb)) ->
  len = iov_sum (take k (tb_iov tb)) - pos -> 0 < len <= n ->
  presents tb pos n (TbufVar len (rest_of tb (Z.of_nat j)) (Z.of_nat k - Z.of_nat j) (Z.of_nat j) (iov_sum (take j (tb_iov tb)))).
Proof.
  intros Htb Hjk Hpos Hlen Hn. pose proof (tb_wf _ Htb) as Hw. unfold rest_of. split; simpl; rewrite ?Nat2Z.id.
  - apply tv_ok_slot; [done|lia].
  - done.
  - rewrite length_drop. lia.
  - by apply Forall_drop, tbuf_iov_small.
  - rewrite Hpos, flat_drop by done. replace (Z.to_nat (Z.of_nat k - Z.of_nat j)) with (k - j)%nat by lia.
    rewrite <- (take_drop (k - j) (drop j (tb_iov tb))) at 2. rewrite flat_app, take_app_length'; [done|].
    rewrite flat_length by by apply Forall_take, Forall_drop. rewrite Hlen, Hpos. f_equal.
    replace k with (j + (k - j))%nat at 1 by lia. rewrite <- take_take_drop, iov_sum_app. lia.
Qed.

Lemma tbuf_next_ok tb tv pos :
  tbuf_ok tb -> tv_ok tb tv -> 0 <= pos -> 0 < tv_nbytes tv -> pos + tv_nbytes tv <= tb_total tb ->
  exists tv', tbx_tbuf_next tb pos tv = Ok (TBUFFER_OK, tv') /\ presents tb pos (tv_nbytes tv) tv'.
Proof.
  intros Htb Htv Hpos Hnb Hfit. pose proof Htb as [Hn Ht Hw Hsm]. unfold tbx_tbuf_next.
  destruct (pos >=? tb_total tb) eqn:E0; breflect; [lia|].
  destruct (find_slot_ok tb tv pos Htb Htv ltac:(lia)) as (j & Hj & Hjp & len0 & Hfind). set (n := tv_nbytes tv) in *.
  cbv zeta in Hfind. destruct (if pos <? size_t (tv_slot_total_pos tv) then _ else _) as [sum0 curr0]. rewrite Hfind.
  unfold mbind, res_bind. set (v := tb_iov tb) in *. destruct (lookup_lt_is_Some_2 v j Hj) as [e He].
  pose proof (iov_sum_S v j e He) as HS. pose proof (iov_sum_take_le v j Hw). pose proof (iov_sum_take_le v (S j) Hw).
  rewrite (int_t_small (iov_sum _)) by lia. rewrite (size_t_small (pos - _)) by lia. rewrite (int_t_small (pos - _)) by lia.
  destruct (pos - iov_sum (take j v) =? 0) eqn:Ei; breflect.
  - assert (Hp : pos = iov_sum (take j v)) by lia. rewrite (size_t_small (pos + n)) by lia.
    destruct (pos + n >=? tb_total tb) eqn:Er; breflect.
    + eexists. split; [done|]. destruct (n >? tb_total tb) eqn:En; breflect; [lia|]. rewrite Hn.
      apply presents_run; fold v; [done|lia|lia|rewrite firstn_all; lia|lia].
    + rewrite (size_t_small (pos + n - 1)) by lia.
      destruct (slot_loop_ok tb (pos + n - 1) j (Z.of_nat j) Htb) as (k & Hk & Hl & Hkp); [fold v; lia|fold v; lia|]. fold v in Hk, Hl, Hkp.
      rewrite Hl. destruct (Z.of_nat k =? Z.of_nat j) eqn:Ek; breflect.
      * assert (k = j) as -> by lia. fold v. rewrite (iov_at_lookup v j e He). eexists. split; [done|].
        pose proof (presents_single tb pos n j e n Htb He Hjp ltac:(lia) ltac:(fold v; lia)) as Hpr. fold v in Hpr.
        rewrite Ei in Hpr. destruct (iov_base e) as [b|]; [by rewrite Z.add_0_r in Hpr|done].
      * eexists. split; [done|]. pose proof (iov_sum_mono v (S j) k Hw ltac:(lia)).
        apply presents_run; fold v; [done|lia|done|lia|lia].
  - fold v. rewrite (iov_at_lookup v j e He). eexists. split; [done|]. rewrite (size_t_small (iov_len e - _)) by lia.
    assert (Hlen : (if iov_len e - (pos - iov_sum (take j v)) >? n then n else iov_len e - (pos - iov_sum (take j v))) =
                   Z.min n (iov_len e - (pos - iov_sum (take j v)))) by (destruct (_ >? _) eqn:?; breflect; lia).
    rewrite Hlen. apply presents_single; fold v; [done|done|done|lia|lia].
Qed.

(** ** Copying, byte by byte *)

Definition mem_upd (d x : Z) (m : mem) : mem := fun a => if decide (a = d) then x else m a.

Definition copy_cell (blank : bool) (m : mem) (p : option Z * option Z) : mem :=
  match p with
  | (Some d, Some s) => mem_upd d (m s) m
  | (Some d, None) => if blank then mem_upd d 0 m else m
  | (None, _) => m
  end.

Definition copy_cells (blank : bool) (ps : list (option Z * option Z)) (m : mem) : mem := foldl (copy_cell blank) m ps.

Lemma copy_cells_ext blank ps m m' a :
  (forall a, m a = m' a) -> copy_cells blank ps m a = copy_cells blank ps m' a.
Proof.
  unfold copy_cells. revert m m'. induction ps as [|[[d|] [s|]] ps IH]; intros m m' Hm; simpl; [done|..]; apply IH; try done.
  - intros b. unfold mem_upd. case_decide; auto.
  - intros b. destruct blank; [|done]. unfold mem_upd. case_decide; auto.
Qed.

Lemma copy_cells_app blank ps qs m a :
  copy_cells blank (ps ++ qs) m a = copy_cells blank qs (copy_cells blank ps m) a.
Proof. unfold copy_cells. by rewrite foldl_app. Qed.

Lemma copy_cells_cons blank p ps m a : copy_cells blank (p :: ps) m a = copy_cells blank ps (copy_cell blank m p) a.
Proof. done. Qed.

Lemma overlay_cons x b d m a : overlay x (b :: d) m a = overlay (x + 1) d (mem_upd x b m) a.
Proof.
  rewrite <- (overlay_next x [b] d). unfold overlay. simpl length. change (Z.of_nat 1) with 1. f_equal.
  unfold mem_upd, span. destruct (decide (a = x)) as [->|Hne].
  - rewrite decide_True by lia. by rewrite Z.sub_diag.
  - destruct (decide (x <= a)); [|done]. rewrite lookup_ge_None_2; [done|simpl; lia].
Qed.

Lemma slice_cons f y n : 0 <= n -> slice f y (n + 1) = f y :: slice f (y + 1) n.
Proof. intros. unfold slice. rewrite seqZ_cons by lia. csimpl. do 3 f_equal; lia. Qed.

(** A block copy between runs that do not meet. *)
Lemma memcpy_cells blank x y (n : nat) m a :
  (forall b, x <= b < x + Z.of_nat n -> ~ (y <= b < y + Z.of_nat n)) ->
  memcpy x y (Z.of_nat n) m a = copy_cells blank (zip (Some <$> seqZ x (Z.of_nat n)) (Some <$> seqZ y (Z.of_nat n))) m a.
Proof.
  revert x y m. induction n as [|n IH]; intros x y m Hd.
  { unfold memcpy, overlay. by rewrite span_out by (rewrite slice_length; lia). }
  rewrite !(seqZ_cons _ (Z.of_nat (S n))) by lia. replace (Z.pred (Z.of_nat (S n))) with (Z.of_nat n) by lia.
  unfold Z.succ. rewrite !fmap_cons. cbn [zip zip_with]. rewrite copy_cells_cons. cbn [copy_cell]. rewrite <- IH.
  - unfold memcpy. replace (Z.of_nat (S n)) with (Z.of_nat n + 1) by lia. rewrite slice_cons, overlay_cons by lia.
    unfold overlay. do 2 f_equal. apply slice_ext. intros b Hb. unfold mem_upd. rewrite decide_False; [done|].
    specialize (Hd x). lia.
  - intros b Hb. specialize (Hd b). lia.
Qed.

Lemma memset_cells x c (n : nat) m a :
  memset x c (Z.of_nat n) m a = foldl (fun m o => match o with Some d => mem_upd d c m | None => m end) m (Some <$> seqZ x (Z.of_nat n)) a.
Proof.
  revert x m. induction n as [|n IH]; intros x m.
  { unfold memset, overlay. by rewrite span_out by (rewrite slice_length; lia). }
  rewrite (seqZ_cons _ (Z.of_nat (S n))) by lia. csimpl. replace (Z.pred (Z.of_nat (S n))) with (Z.of_nat n) by lia.
  unfold Z.succ. rewrite <- IH. unfold memset. replace (Z.of_nat (S n)) with (Z.of_nat n + 1) by lia.
  rewrite slice_cons, overlay_cons by lia. unfold overlay. do 2 f_equal. by apply slice_shift.
Qed.

Lemma copy_none ds n m a :
  copy_cells true (zip ds (replicate n None)) m a =
    foldl (fun m o => match o with Some d => mem_upd d 0 m | None => m end) m (take n ds) a.
Proof.
  unfold copy_cells. revert n m. induction ds as [|d ds IH]; intros [|n] m; simpl; [done..|]. rewrite IH. by destruct d.
Qed.

Lemma copy_none_keep ds n m a : copy_cells false (zip ds (replicate n None)) m a = m a.
Proof.
  unfold copy_cells. revert n. induction ds as [|d ds IH]; intros [|n]; simpl; [done..|]. destruct d; apply IH.
Qed.

Lemma copy_to_none blank n ss m a : copy_cells blank (zip (replicate n None) ss) m a = m a.
Proof. unfold copy_cells. revert ss. induction n as [|n IH]; intros [|s ss]; simpl; [done..|]. apply IH. Qed.

(** The addresses of the part of a piece. *)
Lemma cells_part e p len :
  0 <= p -> 0 <= len -> p + len <= iov_len e ->
  take (Z.to_nat len) (drop (Z.to_nat p) (cells e)) =
  match iov_base e with Some b => Some <$> seqZ (b + p) len | None => replicate (Z.to_nat len) None end.
Proof.
  intros Hp Hl Hf. rewrite <- cells_drop by lia.
  etrans; [symmetry; apply (cells_take (Iovec _ (iov_len e - p)) len); simpl; lia|]. unfold cells. simpl. by destruct (iov_base e).
Qed.

(** One transfer of the inner loop. *)
Lemma copy_piece_ok blank d s dp sp len nsk m :
  0 <= dp -> 0 <= sp -> 0 <= len -> dp + len <= iov_len d -> sp + len <= iov_len s ->
  let ds := take (Z.to_nat len) (drop (Z.to_nat dp) (cells d)) in
  let ss := take (Z.to_nat len) (drop (Z.to_nat sp) (cells s)) in
  (forall a, Some a ∈ ds -> Some a ∉ ss) ->
  forall a, (copy_piece blank d s dp sp len nsk m).2 a = copy_cells blank (zip ds ss) m a.
Proof.
  intros Hdp Hsp Hl Hd Hs ds ss. subst ds ss. rewrite !cells_part by lia. unfold copy_piece. intros Hdis a.
  destruct (Z_of_nat_complete _ Hl) as [n ->]. rewrite ?Nat2Z.id in *.
  destruct (iov_base d) as [db|]; [|by rewrite copy_to_none]. destruct (iov_base s) as [sb|]; simpl.
  - apply memcpy_cells. intros b Hb Hb'. apply (Hdis b); (apply list_elem_of_fmap_2, elem_of_seqZ; lia).
  - destruct blank; [|by rewrite copy_none_keep]. rewrite copy_none, take_ge by (rewrite length_fmap, length_seqZ; lia).
    apply memset_cells.
Qed.

(** ** The inner loop *)

(** A cursor in a run of pieces: piece [i], of which [p] bytes are used and
    [len] are left. *)
Record side (b : list tbx_iovec_t) (i : nat) (e : tbx_iovec_t) (p len : Z) : Prop := Side {
  sd_piece : b !! i = Some e;
  sd_pos : 0 <= p;
  sd_len : 0 <= len /\ len = iov_len e - p;
  sd_small : iov_small b }.

(** The addresses ahead of the cursor. *)
Definition ahead (b : list tbx_iovec_t) (i : nat) (e : tbx_iovec_t) (p : Z) : list (option Z) :=
  drop (Z.to_nat p) (cells e) ++ flat (drop (S i) b).

(** The next [n] bytes end where a piece ends. *)
Definition ends_at (b : list tbx_iovec_t) (i : nat) (e : tbx_iovec_t) (p n : Z) : Prop :=
  exists c, Z.of_nat (length (drop (Z.to_nat p) (cells e) ++ flat (take c (drop (S i) b)))) = n.

Lemma ends_at_le b i e p len n : side b i e p len -> ends_at b i e p n -> len <= n.
Proof.
  intros [_ Hp Hl _] [c <-]. rewrite length_app, length_drop, cells_length. lia.
Qed.

(** Moving the cursor past [k] bytes of the current piece. *)
Definition advance (b : list tbx_iovec_t) (i p len k : Z) : res (Z * Z * Z) :=
  if size_t (len - k) <=? 0 then e ← iov_at b (i + 1); mret (i + 1, iov_len e, 0)
  else mret (i, size_t (len - k), size_t (p + k)).

Lemma advance_ok b i e p len k n :
  side b i e p len -> 0 <= k <= len -> k < n -> n <= Z.of_nat (length (ahead b i e p)) ->
  exists i' e' p' len', advance b (Z.of_nat i) p len k = Ok (Z.of_nat i', len', p') /\ side b i' e' p' len' /\
    ahead b i' e' p' = drop (Z.to_nat k) (ahead b i e p) /\ (i <= i')%nat /\ (k = len -> i' = S i) /\
    (ends_at b i e p n -> ends_at b i' e' p' (n - k)).
Proof.
  intros [He Hp Hl Hs] Hk Hn Hlen. pose proof (Forall_lookup_1 _ _ _ _ Hs He) as Hes. simpl in Hes. unfold advance.
  rewrite (size_t_small (len - k)) by lia. unfold ahead in Hlen. rewrite length_app, length_drop, cells_length in Hlen.
  destruct (len - k <=? 0) eqn:E; breflect.
  - assert (k = len) as -> by lia. destruct (drop (S i) b) as [|e' rest] eqn:Hd; [simpl in Hlen; lia|].
    assert (He' : b !! S i = Some e').
    { rewrite <- (Nat.add_0_r (S i)), <- lookup_drop, Hd. done. }
    replace (Z.of_nat i + 1) with (Z.of_nat (S i)) by lia. rewrite (iov_at_lookup b (S i) e' He'). unfold mbind, res_bind.
    pose proof (Forall_lookup_1 _ _ _ _ Hs He') as Hes'. simpl in Hes'.
    assert (Hd' : drop (S (S i)) b = rest). { replace (S (S i)) with (S i + 1)%nat by lia. by rewrite <- drop_drop, Hd. }
    assert (Hz : drop (Z.to_nat len) (drop (Z.to_nat p) (cells e)) = []).
    { apply drop_ge. rewrite length_drop, cells_length. lia. }
    exists (S i), e', 0, (iov_len e'). split_and!; [done|by split; try done; lia| |lia|done|].
    + unfold ahead. rewrite Hd, Hd'. rewrite drop_app_ge by (rewrite length_drop, cells_length; lia).
      rewrite length_drop, cells_length. replace (Z.to_nat len - (Z.to_nat (iov_len e) - Z.to_nat p))%nat with 0%nat by lia. done.
    + intros [c Hc]. unfold ends_at. rewrite Hd'. rewrite Hd in Hc. destruct c as [|c].
      * simpl in Hc. rewrite app_nil_r, length_drop, cells_length in Hc. lia.
      * exists c. simpl in Hc |- *. unfold flat in *. csimpl in Hc. rewrite !length_app, length_drop, !cells_length in *. simpl. lia.
  - rewrite (size_t_small (p + k)) by lia.
    assert (Hdd : drop (Z.to_nat (p + k)) (cells e) = drop (Z.to_nat k) (drop (Z.to_nat p) (cells e))).
    { rewrite drop_drop. f_equal. lia. }
    exists i, e, (p + k), (len - k). split_and!; [done|by split; try done; lia| |lia|lia|].
    + unfold ahead. rewrite Hdd, drop_app_le; [done|]. rewrite length_drop, cells_length. lia.
    + intros [c Hc]. exists c. rewrite Hdd, length_app, length_drop. rewrite length_app in Hc.
      rewrite !length_drop, cells_length in *. lia.
Qed.

Lemma copy_inner_step fuel blank sb db si di sp dp slen dlen n spos dpos nleft nsk m :
  copy_inner (S fuel) blank sb db si di sp dp slen dlen n spos dpos nleft nsk m =
  if n >? 0 then
    let len := if slen >? dlen then dlen else slen in
    d ← iov_at db di; s ← iov_at sb si;
    let '(nsk, m) := copy_piece blank d s dp sp len nsk m in
    if int_t (n - len) >? 0 then
      '(di, dlen, dp) ← advance db di dp dlen len;
      '(si, slen, sp) ← advance sb si sp slen len;
      copy_inner fuel blank sb db si di sp dp slen dlen (int_t (n - len)) (size_t (spos + len)) (size_t (dpos + len))
        (size_t (nleft - len)) nsk m
    else Ok (size_t (spos + len), size_t (dpos + len), size_t (nleft - len), nsk, m)
  else Ok (spos, dpos, nleft, nsk, m).
Proof. done. Qed.

Lemma take_zip {A B} k (l : list A) (l' : list B) : take k (zip l l') = zip (take k l) (take k l').
Proof. revert l l'. induction k as [|k IH]; intros [|a l] [|b l']; simpl; try done. by rewrite IH. Qed.

Lemma drop_zip {A B} k (l : list A) (l' : list B) : drop k (zip l l') = zip (drop k l) (drop k l').
Proof. revert l l'. induction k as [|k IH]; intros [|a l] [|b l']; simpl; try done. by destruct (drop k l). Qed.

Lemma elem_take_le {A} (l : list A) x (k n : nat) : (k <= n)%nat -> x ∈ take k l -> x ∈ take n l.
Proof. intros Hk (i & Hi & Hlt)%elem_of_take. apply elem_of_take. exists i. split; [done|lia]. Qed.

Lemma elem_take_drop {A} (l : list A) x (k n : nat) : (k <= n)%nat -> x ∈ take (n - k) (drop k l) -> x ∈ take n l.
Proof.
  intros Hk (i & Hi & Hlt)%elem_of_take. rewrite lookup_drop in Hi. apply elem_of_take. exists (k + i)%nat. split; [done|lia].
Qed.

(** The bytes a copy is about: [n] bytes ahead of both cursors that do not meet. *)
Definition apart (n : Z) (ds ss : list (option Z)) : Prop :=
  forall a, Some a ∈ take (Z.to_nat n) ds -> Some a ∉ take (Z.to_nat n) ss.

Lemma apart_le n k ds ss : k <= n -> apart n ds ss -> apart k ds ss.
Proof. intros Hk Ha a Hd Hs. apply (Ha a); (eapply elem_take_le; [|done]; lia). Qed.

Lemma apart_drop n k ds ss : 0 <= k <= n -> apart n ds ss -> apart (n - k) (drop (Z.to_nat k) ds) (drop (Z.to_nat k) ss).
Proof.
  intros Hk Ha a Hd Hs. rewrite Z2Nat.inj_sub in * by lia. apply (Ha a); (eapply elem_take_drop; [|done]; lia).
Qed.

(** One round of the loop on the memory. *)
Lemma copy_round blank sb db si di s d sp dp slen dlen len nsk m :
  side sb si s sp slen -> side db di d dp dlen -> 0 <= len <= Z.min slen dlen ->
  apart len (ahead db di d dp) (ahead sb si s sp) ->
  forall a, (copy_piece blank d s dp sp len nsk m).2 a =
    copy_cells blank (take (Z.to_nat len) (zip (ahead db di d dp) (ahead sb si s sp))) m a.
Proof.
  intros [Hs Hsp Hsl _] [Hd Hdp Hdl _] Hlen Hap a. unfold apart in Hap. rewrite take_zip. unfold ahead in *.
  rewrite !take_app_le in * by (rewrite length_drop, cells_length; lia). apply copy_piece_ok; [lia..|done].
Qed.

(** The inner loop moves [n] bytes when they end where a piece of one side ends. *)
Lemma copy_inner_ok blank sb db fuel si di s d sp dp slen dlen n spos dpos nleft nsk m :
  side sb si s sp slen -> side db di d dp dlen -> 0 <= n < 2 ^ 31 ->
  n <= Z.of_nat (length (ahead sb si s sp)) -> n <= Z.of_nat (length (ahead db di d dp)) ->
  ends_at sb si s sp n \/ ends_at db di d dp n ->
  (Z.to_nat n + (length sb - si) + (length db - di) <= fuel)%nat ->
  0 <= spos -> spos + n < 2 ^ 31 -> 0 <= dpos -> dpos + n < 2 ^ 31 -> n <= nleft < 2 ^ 31 ->
  apart n (ahead db di d dp) (ahead sb si s sp) ->
  exists nsk' m', copy_inner fuel blank sb db (Z.of_nat si) (Z.of_nat di) sp dp slen dlen n spos dpos nleft nsk m =
      Ok (spos + n, dpos + n, nleft - n, nsk', m') /\
    forall a, m' a = copy_cells blank (take (Z.to_nat n) (zip (ahead db di d dp) (ahead sb si s sp))) m a.
Proof.
  revert si di s d sp dp slen dlen n spos dpos nleft nsk m.
  induction fuel as [|fuel IH]; intros si di s d sp dp slen dlen n spos dpos nleft nsk m Hss Hsd Hn Hls Hld Hend Hf Hsp0 Hsp Hdp0 Hdp Hnl Hap.
  { pose proof (lookup_lt_Some _ _ _ (sd_piece _ _ _ _ _ Hss)). lia. }
  rewrite copy_inner_step. destruct (n >? 0) eqn:En; breflect.
  2:{ assert (n = 0) as -> by lia. exists nsk, m. rewrite !Z.add_0_r, Z.sub_0_r. done. }
  pose proof (lookup_lt_Some _ _ _ (sd_piece _ _ _ _ _ Hss)) as Hsi. pose proof (lookup_lt_Some _ _ _ (sd_piece _ _ _ _ _ Hsd)) as Hdi.
  assert (Hlen : (if slen >? dlen then dlen else slen) = Z.min slen dlen) by (destruct (slen >? dlen) eqn:?; breflect; lia).
  rewrite Hlen. clear Hlen. cbv zeta. remember (Z.min slen dlen) as len eqn:Hlen.
  pose proof (sd_len _ _ _ _ _ Hss) as Hsl. pose proof (sd_len _ _ _ _ _ Hsd) as Hdl.
  assert (Hle : 0 <= len <= n).
  { destruct Hend as [He|He]; [pose proof (ends_at_le _ _ _ _ _ _ Hss He)|pose proof (ends_at_le _ _ _ _ _ _ Hsd He)]; lia. }
  rewrite (iov_at_lookup _ _ _ (sd_piece _ _ _ _ _ Hsd)), (iov_at_lookup _ _ _ (sd_piece _ _ _ _ _ Hss)). unfold mbind, res_bind.
  pose proof (copy_round blank sb db si di s d sp dp slen dlen len nsk m Hss Hsd ltac:(lia) (apart_le n len _ _ ltac:(lia) Hap)) as Hm1.
  destruct (copy_piece blank d s dp sp len nsk m) as [nsk1 m1]. cbn [snd] in Hm1.
  rewrite (int_t_small (n - len)), (size_t_small (spos + len)), (size_t_small (dpos + len)), (size_t_small (nleft - len)) by lia.
  destruct (n - len >? 0) eqn:Er; breflect.
  2:{ assert (len = n) as El by lia. exists nsk1, m1. rewrite El in *. done. }
  destruct (advance_ok db di d dp dlen len n Hsd) as (di' & d' & dp' & dlen' & -> & Hsd' & Had & Hdi' & Hdx & Hde); [lia..|].
  destruct (advance_ok sb si s sp slen len n Hss) as (si' & s' & sp' & slen' & -> & Hss' & Has & Hsi' & Hsx & Hse); [lia..|].
  assert (Hfuel : (Z.to_nat (n - len) + (length sb - si') + (length db - di') <= fuel)%nat).
  { destruct (decide (0 < len)); [lia|]. destruct (decide (slen = 0)); [specialize (Hsx ltac:(lia)); lia|].
    specialize (Hdx ltac:(lia)). lia. }
  destruct (IH si' di' s' d' sp' dp' slen' dlen' (n - len) (spos + len) (dpos + len) (nleft - len) nsk1 m1 Hss' Hsd')
    as (nsk2 & m2 & He2 & Hm2); rewrite ?Has, ?Had, ?length_drop; try lia; [destruct Hend; auto|by apply apart_drop|].
  replace (spos + len + (n - len)) with (spos + n) in He2 by lia. replace (dpos + len + (n - len)) with (dpos + n) in He2 by lia.
  replace (nleft - len - (n - len)) with (nleft - n) in He2 by lia. exists nsk2, m2. split; [done|]. intros a. rewrite Hm2, Has, Had, <- drop_zip.
  rewrite (copy_cells_ext _ _ _ _ a Hm1), <- copy_cells_app. f_equal. rewrite take_take_drop. f_equal. lia.
Qed.

(** ** The whole copy *)

(** A presented block as a cursor at its start. *)
Lemma presents_side tb pos n tv :
  presents tb pos n tv -> 0 <= pos -> pos + n <= tb_total tb -> tbuf_ok tb ->
  exists e, iov_at (tv_buffer tv) 0 = Ok e /\ side (tv_buffer tv) 0 e 0 (iov_len e) /\
    ends_at (tv_buffer tv) 0 e 0 (tv_nbytes tv) /\ tv_nbytes tv <= Z.of_nat (length (ahead (tv_buffer tv) 0 e 0)) /\
    forall k, k <= tv_nbytes tv -> take (Z.to_nat k) (ahead (tv_buffer tv) 0 e 0) =
      take (Z.to_nat k) (drop (Z.to_nat pos) (flat (tb_iov tb))).
Proof.
  intros [_ Hnb Hni Hsm Hfl] Hpos Hfit Htb. destruct (tv_buffer tv) as [|e rest] eqn:Hb; [simpl in Hni; lia|].
  assert (Hlen : Z.of_nat (length (flat (take (Z.to_nat (tv_n_iov tv)) (e :: rest)))) = tv_nbytes tv).
  { rewrite Hfl, length_take, length_drop, (flat_length _ (tb_wf _ Htb)), <- (tb_total_ok _ Htb). lia. }
  assert (Hah : ahead (e :: rest) 0 e 0 = flat (e :: rest)) by done.
  assert (Hsp : flat (e :: rest) = flat (take (Z.to_nat (tv_n_iov tv)) (e :: rest)) ++ flat (drop (Z.to_nat (tv_n_iov tv)) (e :: rest)))
    by (by rewrite <- flat_app, take_drop).
  exists e. split_and!; [done| | | |].
  - pose proof Hsm as [He _]%Forall_cons. split; [done|lia|lia|done].
  - exists (Z.to_nat (tv_n_iov tv) - 1)%nat. rewrite <- Hlen. do 2 f_equal. replace (Z.to_nat (tv_n_iov tv)) with (S (Z.to_nat (tv_n_iov tv) - 1)) at 2 by lia. done.
  - rewrite Hah, Hsp, length_app. lia.
  - intros k Hk. rewrite Hah, Hsp, take_app_le by lia. rewrite Hfl, take_take. f_equal. lia.
Qed.

Lemma copy_outer_ok blank ts td fuel stv dtv spos dpos nleft nsk m :
  tbuf_ok ts -> tbuf_ok td -> tv_ok ts stv -> tv_ok td dtv -> 0 <= spos -> 0 <= dpos -> 0 <= nleft <= Z.of_nat fuel ->
  spos + nleft <= tb_total ts -> dpos + nleft <= tb_total td ->
  apart nleft (drop (Z.to_nat dpos) (flat (tb_iov td))) (drop (Z.to_nat spos) (flat (tb_iov ts))) ->
  exists nsk' m', copy_outer fuel blank ts td stv dtv spos dpos nleft nsk m = Ok (nsk', m') /\
    forall a, m' a = copy_cells blank (take (Z.to_nat nleft)
      (zip (drop (Z.to_nat dpos) (flat (tb_iov td))) (drop (Z.to_nat spos) (flat (tb_iov ts))))) m a.
Proof.
  intros Hts Htd. revert stv dtv spos dpos nleft nsk m.
  induction fuel as [|fuel IH]; intros stv dtv spos dpos nleft nsk m Hstv Hdtv Hsp Hdp Hnl Hfs Hfd Hap; cbn [copy_outer].
  { assert (nleft = 0) as -> by lia. by exists nsk, m. }
  destruct (nleft >? 0) eqn:En; breflect; [|assert (nleft = 0) as -> by lia; by exists nsk, m].
  pose proof (tb_small _ Hts). pose proof (tb_small _ Htd).
  assert (Hset : forall tb tv k, tv_ok tb tv -> tv_ok tb (set_nbytes k tv)) by (intros ??? []; by split).
  destruct (tbuf_next_ok ts (set_nbytes nleft stv) spos Hts (Hset _ _ _ Hstv)) as (stv' & -> & Hps); [lia|simpl; lia|simpl; lia|].
  destruct (tbuf_next_ok td (set_nbytes nleft dtv) dpos Htd (Hset _ _ _ Hdtv)) as (dtv' & -> & Hpd); [lia|simpl; lia|simpl; lia|].
  unfold mbind, res_bind. simpl in Hps, Hpd. pose proof (pr_nbytes _ _ _ _ Hps). pose proof (pr_nbytes _ _ _ _ Hpd).
  destruct (presents_side ts spos nleft stv' Hps Hsp Hfs Hts) as (s & -> & Hss & Hse & Hsl & Hst).
  destruct (presents_side td dpos nleft dtv' Hpd Hdp Hfd Htd) as (d & -> & Hds & Hde & Hdl & Hdt).
  assert (Hn : (if tv_nbytes stv' >? tv_nbytes dtv' then tv_nbytes dtv' else tv_nbytes stv') = Z.min (tv_nbytes stv') (tv_nbytes dtv'))
    by (destruct (_ >? _) eqn:?; breflect; lia).
  rewrite Hn, (int_t_small (Z.min _ _)) by lia. remember (Z.min (tv_nbytes stv') (tv_nbytes dtv')) as n eqn:Hn'. clear Hn.
  destruct (copy_inner_ok blank (tv_buffer stv') (tv_buffer dtv') (Z.to_nat n + length (tv_buffer stv') + length (tv_buffer dtv'))
    0 0 s d 0 0 (iov_len s) (iov_len d) n spos dpos nleft nsk m Hss Hds) as (nsk1 & m1 & He1 & Hm1); try lia.
  - destruct (decide (tv_nbytes stv' <= tv_nbytes dtv')); [left|right].
    + by replace n with (tv_nbytes stv') by lia.
    + by replace n with (tv_nbytes dtv') by lia.
  - pose proof (apart_le nleft n _ _ ltac:(lia) Hap) as Hap'. unfold apart in *. by rewrite Hst, Hdt by lia.
  - change (Z.of_nat 0) with 0 in He1. rewrite He1. destruct (IH stv' dtv' (spos + n) (dpos + n) (nleft - n) nsk1 m1) as (nsk2 & m2 & He2 & Hm2); try lia.
    + apply Hps.
    + apply Hpd.
    + rewrite !Z2Nat.inj_add, <- !drop_drop by lia. apply apart_drop; [lia|done].
    + exists nsk2, m2. split; [done|]. intros a. rewrite Hm2, (copy_cells_ext _ _ _ _ a Hm1), <- copy_cells_app. f_equal.
      rewrite take_zip, Hst, Hdt, <- take_zip by lia. rewrite !Z2Nat.inj_add, <- !drop_drop, <- drop_zip by lia.
      rewrite take_take_drop. f_equal. lia.
Qed.

(** ** Clearing *)

Definition fill_cells (c : Z) (cs : list (option Z)) (m : mem) : mem :=
  foldl (fun m o => match o with Some d => mem_upd d c m | None => m end) m cs.

Lemma fill_cells_ext c cs m m' a : (forall a, m a = m' a) -> fill_cells c cs m a = fill_cells c cs m' a.
Proof.
  unfold fill_cells. revert m m'. induction cs as [|[d|] cs IH]; intros m m' Hm; simpl; [done|..]; apply IH; [|done].
  intros b. unfold mem_upd. case_decide; auto.
Qed.

Lemma fill_cells_app c cs cs' m a : fill_cells c (cs ++ cs') m a = fill_cells c cs' (fill_cells c cs m) a.
Proof. unfold fill_cells. by rewrite foldl_app. Qed.

Lemma fill_cells_in c cs m a : fill_cells c cs m a = if bool_decide (Some a ∈ cs) then c else m a.
Proof.
  induction cs as [|o cs IH] using rev_ind; [done|]. rewrite fill_cells_app. unfold fill_cells at 1. simpl.
  destruct o as [d|].
  - unfold mem_upd. destruct (decide (a = d)) as [->|Hd].
    + rewrite bool_decide_eq_true_2; [done|]. set_solver.
    + rewrite IH. case_bool_decide; case_bool_decide; set_solver.
  - rewrite IH. case_bool_decide; case_bool_decide; set_solver.
Qed.

Lemma memset_piece c e m a :
  0 <= iov_len e -> (match iov_base e with Some b => memset b c (iov_len e) m | None => m end) a = fill_cells c (cells e) m a.
Proof.
  intros He. unfold cells. destruct (iov_base e) as [b|].
  - rewrite <- (Z2Nat.id (iov_len e)) by done. rewrite memset_cells. by rewrite Z2Nat.id.
  - rewrite fill_cells_in, bool_decide_eq_false_2; [done|]. by intros [[=] _]%elem_of_replicate.
Qed.

Lemma memset_inner_ok v (k : nat) c fuel (i : nat) nleft pos m :
  iov_small v -> (k <= length v)%nat -> (i <= k)%nat -> (fuel = k - i)%nat ->
  iov_sum (drop i (take k v)) <= nleft < 2 ^ 31 -> 0 <= pos -> pos + iov_sum (drop i (take k v)) < 2 ^ 31 ->
  exists m', memset_inner fuel v (Z.of_nat k) (Z.of_nat i) c nleft pos m =
      Ok (nleft - iov_sum (drop i (take k v)), pos + iov_sum (drop i (take k v)), m') /\
    forall a, m' a = fill_cells c (flat (drop i (take k v))) m a.
Proof.
  intros Hv Hk. revert i nleft pos m. induction fuel as [|fuel IH]; intros i nleft pos m Hi Hf Hnl Hpos Hps; cbn [memset_inner].
  { assert (drop i (take k v) = []) as -> by (apply drop_ge; rewrite length_take; lia). exists m.
    unfold iov_sum. simpl. by rewrite Z.sub_0_r, Z.add_0_r. }
  destruct (lookup_lt_is_Some_2 v i) as [e He]; [lia|]. rewrite (proj2 (Z.ltb_lt _ _)) by lia.
  rewrite (iov_at_lookup v i e He). unfold mbind, res_bind. pose proof (Forall_lookup_1 _ _ _ _ Hv He) as Hes. simpl in Hes.
  assert (Hd : drop i (take k v) = e :: drop (S i) (take k v)) by (apply drop_S; by rewrite lookup_take_lt by lia).
  assert (Hw : iov_wf (drop (S i) (take k v))).
  { apply Forall_drop, Forall_take. eapply Forall_impl; [exact Hv|]. intros; simpl in *; lia. }
  pose proof (iov_sum_nonneg _ Hw) as Hnn. rewrite Hd in *. unfold iov_sum in Hnl, Hps |- *. cbn [zsum] in *. fold (iov_sum (drop (S i) (take k v))) in *.
  rewrite !size_t_small by lia. set (m1 := match iov_base e with Some b => _ | None => _ end).
  assert (Hm1 : forall a, m1 a = fill_cells c (cells e) m a) by (intros; apply memset_piece; lia).
  assert (Hfl : forall a, fill_cells c (flat (e :: drop (S i) (take k v))) m a = fill_cells c (flat (drop (S i) (take k v))) m1 a).
  { intros a. unfold flat at 1. rewrite bind_cons, fill_cells_app. by apply fill_cells_ext. }
  destruct (nleft - iov_len e <=? 0) eqn:E; breflect.
  - exists m1. split; [by repeat f_equal; lia|]. intros a. rewrite Hfl, fill_cells_in, bool_decide_eq_false_2; [done|].
    assert (length (flat (drop (S i) (take k v))) = 0%nat) as ->%nil_length_inv by (rewrite flat_length by done; lia). apply not_elem_of_nil.
  - replace (Z.of_nat i + 1) with (Z.of_nat (S i)) by lia. destruct (IH (S i) (nleft - iov_len e) (pos + iov_len e) m1) as (m' & -> & Hm'); [lia..|].
    exists m'. split; [f_equal; f_equal; f_equal; lia|]. intros a. by rewrite Hm', Hfl.
Qed.

Lemma memset_outer_ok tb fuel tv c nleft pos m :
  tbuf_ok tb -> tv_ok tb tv -> 0 <= pos -> 0 <= nleft <= Z.of_nat fuel -> pos + nleft <= tb_total tb ->
  exists m', memset_outer fuel tb tv c nleft pos m = Ok m' /\
    forall a, m' a = fill_cells c (take (Z.to_nat nleft) (drop (Z.to_nat pos) (flat (tb_iov tb)))) m a.
Proof.
  intros Htb. revert tv nleft pos m. induction fuel as [|fuel IH]; intros tv nleft pos m Htv Hpos Hnl Hfit; cbn [memset_outer].
  { assert (nleft = 0) as -> by lia. by exists m. }
  destruct (nleft >? 0) eqn:En; breflect; [|assert (nleft = 0) as -> by lia; by exists m]. pose proof (tb_small _ Htb).
  destruct (tbuf_next_ok tb (set_nbytes nleft tv) pos Htb) as (tv' & -> & Hp); [by destruct Htv; split|lia|simpl; lia|simpl; lia|].
  simpl in Hp. unfold mbind, res_bind. pose proof Hp as [Hst Hnb Hni Hsm Hfl].
  assert (Hw : iov_wf (take (Z.to_nat (tv_n_iov tv')) (tv_buffer tv'))).
  { apply Forall_take. eapply Forall_impl; [exact Hsm|]. intros; simpl in *; lia. }
  assert (Hsum : iov_sum (take (Z.to_nat (tv_n_iov tv')) (tv_buffer tv')) = tv_nbytes tv').
  { pose proof (flat_length _ Hw) as Hl. rewrite Hfl, length_take, length_drop, (flat_length _ (tb_wf _ Htb)), <- (tb_total_ok _ Htb) in Hl.
    pose proof (iov_sum_nonneg _ Hw). lia. }
  destruct (memset_inner_ok (tv_buffer tv') (Z.to_nat (tv_n_iov tv')) c (Z.to_nat (tv_n_iov tv')) 0 nleft pos m Hsm)
    as (m1 & He1 & Hm1); rewrite ?drop_0, ?Hsum; try lia.
  rewrite drop_0, Hsum, Z2Nat.id in He1 by lia. change (Z.of_nat 0) with 0 in He1. rewrite He1. rewrite drop_0, Hfl in Hm1.
  destruct (IH tv' (nleft - tv_nbytes tv') (pos + tv_nbytes tv') m1) as (m2 & -> & Hm2); [done|lia..|].
  exists m2. split; [done|]. intros a. rewrite Hm2, (fill_cells_ext _ _ _ _ a Hm1), <- fill_cells_app. f_equal.
  rewrite Z2Nat.inj_add, <- drop_drop, take_take_drop by lia. f_equal. lia.
Qed.

Lemma tv_init_ok tb : tbuf_ok tb -> tv_ok tb tbx_tbuf_var_init.
Proof. intros [Hn _ _ _]. split; simpl; [lia|done]. Qed.

(** C23: A copy between buffers returns, and moves exactly the [nbytes] bytes
    at the source offset to those at the destination offset, however either
    buffer is cut into pieces: byte by byte, a missing source byte clears the
    destination or leaves it as [blank_missing] says, and nothing else in
    memory changes.  The two runs of bytes must lie inside the buffers and
    not meet, and the buffers have less than 2^31 bytes each. *)
Theorem tbuf_copy_ok ts off_s td off_d nbytes blank m :
  tbuf_ok ts -> tbuf_ok td -> 0 <= off_s -> 0 <= off_d -> 0 <= nbytes ->
  off_s + nbytes <= tb_total ts -> off_d + nbytes <= tb_total td ->
  apart nbytes (drop (Z.to_nat off_d) (flat (tb_iov td))) (drop (Z.to_nat off_s) (flat (tb_iov ts))) ->
  exists nskipped m', tbx_tbuf_copy ts off_s td off_d nbytes blank m = Ok (nskipped, m') /\
    forall a, m' a = copy_cells blank (take (Z.to_nat nbytes)
      (zip (drop (Z.to_nat off_d) (flat (tb_iov td))) (drop (Z.to_nat off_s) (flat (tb_iov ts))))) m a.
Proof.
  intros Hts Htd Hs Hd Hn Hfs Hfd Hap. unfold tbx_tbuf_copy. apply copy_outer_ok; try done; [by apply tv_init_ok..|lia].
Qed.

(** Clearing sets exactly the [nbytes] bytes from the offset on, in every
    piece, and is refused when the buffer ends before them. *)
Theorem tbuf_memset_ok tb off c nbytes m :
  tbuf_ok tb -> 0 <= off <= tb_total tb -> 0 <= nbytes ->
  if decide (off + nbytes <= tb_total tb)
  then exists m', tbx_tbuf_memset tb off c nbytes m = Ok (0, m') /\
    forall a, m' a = if bool_decide (Some a ∈ take (Z.to_nat nbytes) (drop (Z.to_nat off) (flat (tb_iov tb)))) then c else m a
  else tbx_tbuf_memset tb off c nbytes m = Ok (-1, m).
Proof.
  intros Htb Hoff Hn. pose proof (tb_small _ Htb). unfold tbx_tbuf_memset, tbx_tbuf_size. rewrite size_t_small by lia.
  case_decide as Hfit.
  - rewrite (proj2 (Z.ltb_ge _ _)) by lia.
    destruct (memset_outer_ok tb (Z.to_nat nbytes) tbx_tbuf_var_init c nbytes off m Htb) as (m' & -> & Hm'); [by apply tv_init_ok|lia..|].
    exists m'. split; [done|]. intros a. rewrite Hm'. apply fill_cells_in.
  - by rewrite (proj2 (Z.ltb_lt _ _)) by lia.
Qed.

(** Ten bytes at 100 in two pieces, and ten at 200 in three, one of them missing. *)
Definition tbuf_two : tbx_tbuf_t := tbx_tbuf_vec 10 2 [Iovec (Some 100) 4; Iovec (Some 104) 6].
Definition tbuf_three : tbx_tbuf_t := tbx_tbuf_vec 10 3 [Iovec (Some 200) 3; Iovec None 2; Iovec (Some 205) 5].

Lemma tbuf_two_ok : tbuf_ok tbuf_two.
Proof. split; [done|done|repeat constructor; done|done]. Qed.

Lemma tbuf_three_ok : tbuf_ok tbuf_three.
Proof. split; [done|done|repeat constructor; done|done]. Qed.

Lemma tbuf_copy_ok_witness :
  exists nskipped m', tbx_tbuf_copy tbuf_two 1 tbuf_three 2 7 true id = Ok (nskipped, m') /\
    m' 202 = 101 /\ m' 205 = 104 /\ m' 208 = 107 /\ m' 209 = 209.
Proof.
  destruct (tbuf_copy_ok tbuf_two 1 tbuf_three 2 7 true id tbuf_two_ok tbuf_three_ok) as (nsk & m' & He & Hm); [done..| |].
  - intros a. generalize (Some a). apply Forall_forall, (bool_decide_unpack _). by vm_compute.
  - exists nsk, m'. split; [exact He|]. rewrite (Hm 202), (Hm 205), (Hm 208), (Hm 209). split_and!; vm_compute; reflexivity.
Defined.

Lemma tbuf_memset_ok_witness :
  exists m', tbx_tbuf_memset tbuf_three 2 7 6 id = Ok (0, m') /\ m' 202 = 7 /\ m' 201 = 201.
Proof.
  pose proof (tbuf_memset_ok tbuf_three 2 7 6 id tbuf_three_ok) as Hm.
  rewrite decide_True in Hm by done. destruct Hm as (m' & He & Hm'); [done..|]. exists m'. split; [exact He|].
  rewrite (Hm' 202), (Hm' 201). split; vm_compute; reflexivity.
Defined.

(** Asked at the start of a piece for more than is left, but not for more
    than the whole buffer holds, the next block claims all the bytes asked
    for: eight bytes from offset 4 of ten, where six are left.  A copy that
    trusts it runs off the end of the array of pieces. *)
Theorem tbuf_next_overrun :
  exists tv, tbx_tbuf_next tbuf_two 4 (set_nbytes 8 tbx_tbuf_var_init) = Ok (TBUFFER_OK, tv) /\
    tv_nbytes tv = 8 /\ length (flat (tv_buffer tv)) = 6%nat /\
    tbx_tbuf_copy tbuf_two 4 (tbx_tbuf_single 20 (Some 300)) 0 8 true id = Fault OutOfBounds.
Proof. eexists. split; [vm_compute; reflexivity|]. by vm_compute. Qed.

(** The bytes to move at a time are counted in an [int].  From one piece of two
    gigabytes to another nothing is moved and the copy does not end, however
    many rounds it is given. *)
Theorem tbuf_copy_hangs fuel m :
  copy_outer fuel true (tbx_tbuf_single (2 ^ 31) (Some 0)) (tbx_tbuf_single (2 ^ 31) (Some (2 ^ 40))) tbx_tbuf_var_init tbx_tbuf_var_init 0 0 (2 ^ 31) 0 m = Fault OutOfFuel.
Proof.
  pose (tv := TbufVar (2 ^ 31) [Iovec (Some 0) (2 ^ 31)] 1 0 0). pose (td := TbufVar (2 ^ 31) [Iovec (Some (2 ^ 40)) (2 ^ 31)] 1 0 0).
  assert (Hs : forall v, v = tbx_tbuf_var_init \/ v = tv -> tbx_tbuf_next (tbx_tbuf_single (2 ^ 31) (Some 0)) 0 (set_nbytes (2 ^ 31) v) = Ok (TBUFFER_OK, tv)) by (intros v [->| ->]; vm_compute; reflexivity).
  assert (Hd : forall v, v = tbx_tbuf_var_init \/ v = td -> tbx_tbuf_next (tbx_tbuf_single (2 ^ 31) (Some (2 ^ 40))) 0 (set_nbytes (2 ^ 31) v) = Ok (TBUFFER_OK, td)) by (intros v [->| ->]; vm_compute; reflexivity).
  assert (Hl : forall k v w, v = tbx_tbuf_var_init \/ v = tv -> w = tbx_tbuf_var_init \/ w = td ->
    copy_outer k true (tbx_tbuf_single (2 ^ 31) (Some 0)) (tbx_tbuf_single (2 ^ 31) (Some (2 ^ 40))) v w 0 0 (2 ^ 31) 0 m = Fault OutOfFuel).
  { induction k as [|k IH]; intros v w Hv Hw; [done|]. cbn [copy_outer]. change (2 ^ 31 >? 0) with true. cbn beta iota. rewrite (Hs v Hv). cbn [mbind res_bind]. rewrite (Hd w Hw). cbn [mbind res_bind].
    change (int_t _) with (- 2 ^ 31). cbn [tv td iov_at tv_buffer]. change (copy_inner _ true _ _ _ _ _ _ _ _ _ _ _ _ _ m) with (Ok (A := Z * Z * Z * Z * mem) (0, 0, 2 ^ 31, 0, m)). cbn [mbind res_bind]. apply IH; by right. }
  apply Hl; by left.
Qed.
