(* ===== verification/SegLinear.v ===== *)
(** * The linear segment ([lio/segment/linear.c])

    A linear segment is a run of blocks, each kept in an allocation on some
    depot; an interval index maps ranges of the file to blocks.  The index is
    any [IntervalIndex].  The depots are a finite map from block numbers to
    contents; [up] says which allocations can be reached, and [rs_ok] whether
    the resource service grants a request for new ones.  Which resources it
    picks does not matter here.  Offsets are unbounded integers. *)
From S2P Require Import Prelude IntervalIndex ByteSegment.
Local Open Scope Z_scope.

(** [seglin_slot_t]; [sl_data] stands for the data block. *)
Record seglin_slot := Slot {
  sl_data : nat;
  sl_cap_offset : Z;
  sl_seg_offset : Z;
  sl_seg_end : Z;
  sl_len : Z }.

#[export] Instance seglin_slot_eq_dec : EqDecision seglin_slot.
Proof. solve_decision. Defined.

#[export] Instance seglin_slot_range : HasRange seglin_slot := { iv_lo := sl_seg_offset; iv_hi := sl_seg_end }.

(** [seglin_priv_t], with the contents of the allocations and the number of
    the next one. *)
Record seglin_priv (M : Type) := SegLin {
  isl : M;
  used_size : Z;
  total_size : Z;
  max_block_size : Z;
  excess_block_size : Z;
  lin_errors : Z;
  depot : gmap nat (Z -> Z);
  next_block : nat }.
Arguments SegLin {M}.
Arguments isl {M}.
Arguments used_size {M}.
Arguments total_size {M}.
Arguments max_block_size {M}.
Arguments excess_block_size {M}.
Arguments lin_errors {M}.
Arguments depot {M}.
Arguments next_block {M}.

Section seglin.
Context {M : Type} `{!IntervalIndex M seglin_slot}.
Context (up : nat -> bool).
Implicit Types (s : seglin_priv M) (b : seglin_slot).

Definition block_bytes (d : gmap nat (Z -> Z)) (i : nat) : Z -> Z := default (fun _ => 0) (d !! i).

(** [ds_write] on one allocation. *)
Definition ds_write (i : nat) (off : Z) (data : bytes) (d : gmap nat (Z -> Z)) : bool * gmap nat (Z -> Z) :=
  if up i then (true, <[i := overlay off data (block_bytes d i)]> d) else (false, d).

(** [ds_truncate]: what lies behind the new size is lost, and empty when the
    allocation grows again. *)
Definition ds_truncate (i : nat) (n : Z) (d : gmap nat (Z -> Z)) : bool * gmap nat (Z -> Z) :=
  if up i then (true, <[i := fun x => if x <? n then block_bytes d i x else 0]> d) else (false, d).

(** ** Growing *)

(** The last block is filled up first: its new length and end, and where
    the new blocks start. *)
Definition grow_last (new_size : Z) s : res (option (seglin_slot * Z * Z) * Z) :=
  if total_size s >? 0 then
    match ix_search (total_size s - 1) (total_size s) (isl s) with
    | [] => Fault NullDeref
    | b :: _ =>
      if sl_len b <? max_block_size s then
        let dsize := new_size - sl_seg_offset b in
        let dsize := if dsize >? max_block_size s then max_block_size s else dsize in
        let bex_end := sl_seg_offset b + dsize - 1 in
        Ok (Some (b, dsize, bex_end), bex_end + 1)
      else Ok (None, sl_seg_end b + 1)
    end
  else Ok (None, total_size s).

(** The slots of the new blocks; [room] is what is left of the arrays that
    describe them. *)
Fixpoint grow_blocks (room : nat) (id : nat) (off new_size max : Z) : res (list seglin_slot) :=
  if off <? new_size then
    match room with
    | O => Fault OutOfBounds
    | S room =>
      let len := if off + max >? new_size then new_size - off else max in
      bs ← grow_blocks room (S id) (off + max) new_size max;
      mret (Slot id 0 off (off + len - 1) len :: bs)
    end
  else Ok [].

(** The byte written at the end of every block; the result says whether all
    writes succeeded. *)
Fixpoint grow_touch (bs : list seglin_slot) (d : gmap nat (Z -> Z)) : bool * gmap nat (Z -> Z) :=
  match bs with
  | [] => (true, d)
  | b :: bs =>
    let '(ok, d) := ds_write (sl_data b) (sl_cap_offset b + sl_len b - 1) [0] d in
    let '(oks, d) := grow_touch bs d in
    (ok && oks, d)
  end.

(** The allocation of the block that is filled up gets the length of the block
    as its size, whatever its [cap_offset] is. *)
Definition grow_resize (e : option (seglin_slot * Z * Z)) (d : gmap nat (Z -> Z)) : bool * gmap nat (Z -> Z) :=
  match e with Some (b, len, _) => ds_truncate (sl_data b) len d | None => (true, d) end.

Definition grow_expanded (e : option (seglin_slot * Z * Z)) : list seglin_slot :=
  match e with
  | Some (b, len, bend) => [Slot (sl_data b) (sl_cap_offset b) (sl_seg_offset b) bend len]
  | None => []
  end.

(** [_sl_grow]; a negative size reserves space. *)
Definition sl_grow (new_size_arg : Z) (rs_ok : bool) s : res (bool * seglin_priv M) :=
  let new_size := if new_size_arg <? 0 then - new_size_arg else new_size_arg in
  if (new_size_arg <? 0) && (new_size <? total_size s) then Ok (true, s)
  else if max_block_size s =? 0 then Fault DivByZero
  else
    let n_blocks := (new_size - total_size s) ÷ max_block_size s + 1 in
    '(expand, lo) ← grow_last new_size s;
    bs ← grow_blocks (Z.to_nat n_blocks) (next_block s) lo new_size (max_block_size s);
    let '(ok1, d) := grow_resize expand (depot s) in
    let ok2 := match bs with [] => true | _ => rs_ok end in
    match expand, bs with
    | None, [] => Fault NullDeref
    | _, _ =>
      if ok1 && ok2 then
        let m := match expand with Some (b, _, _) => ix_remove b (isl s) | None => isl s end in
        let m := foldl (fun m b => ix_insert b m) m (grow_expanded expand ++ bs) in
        let d := foldl (fun d b => <[sl_data b := fun _ => 0]> d) d bs in
        let '(ok, d) := grow_touch (grow_expanded expand ++ bs) d in
        Ok (ok, SegLin m (used_size s) new_size (max_block_size s) (excess_block_size s) (lin_errors s) d
                  (next_block s + length bs)%nat)
      else Ok (false, SegLin (isl s) (used_size s) (total_size s) (max_block_size s) (excess_block_size s) (lin_errors s) d (next_block s))
    end.

(** ** Shrinking *)

(** [ds_remove] of a list of blocks. *)
Definition drop_blocks (bs : list seglin_slot) (d : gmap nat (Z -> Z)) : gmap nat (Z -> Z) :=
  foldl (fun d b => if up (sl_data b) then delete (sl_data b) d else d) d bs.

(** [_sl_shrink]; the blocks to drop are pushed on a stack and taken off it. *)
Definition sl_shrink (new_size : Z) s : res (bool * seglin_priv M) :=
  match ix_search new_size (total_size s) (isl s) with
  | [] => Fault NullDeref
  | b :: rest =>
    let dsize := new_size - sl_seg_offset b in
    let dropped := if dsize =? 0 then b :: rest else rest in
    let ok := forallb (fun b => up (sl_data b)) (b :: rest) in
    let m := foldl (fun m b => ix_remove b m) (isl s) (reverse dropped) in
    let m := if dsize =? 0 then m
             else ix_insert (Slot (sl_data b) (sl_cap_offset b) (sl_seg_offset b) (sl_seg_offset b + dsize - 1) dsize) (ix_remove b m) in
    let d := if dsize =? 0 then depot s else (ds_truncate (sl_data b) dsize (depot s)).2 in
    Ok (ok, SegLin m new_size new_size (max_block_size s) (excess_block_size s) (lin_errors s)
              (drop_blocks dropped d) (next_block s))
  end.

(** [_sl_truncate]. *)
Definition sl_truncate (new_size : Z) (rs_ok : bool) s : res (bool * seglin_priv M) :=
  if new_size <? 0 then sl_grow new_size rs_ok s
  else if total_size s >? new_size then sl_shrink new_size s
  else if total_size s <? new_size then sl_grow new_size rs_ok s
  else Ok (true, s).

(** ** Reading and writing *)

(** One operation on a block: the allocation, the offset in it, the length
    and the place in the buffer. *)
Record block_op := BlockOp { bo_data : nat; bo_off : Z; bo_len : Z; bo_bpos : Z }.

Definition block_op_of (lo hi bpos : Z) b : block_op :=
  let start := if lo <=? sl_seg_offset b then 0 else lo - sl_seg_offset b in
  let end_ := if hi >=? sl_seg_end b then sl_len b - 1 else hi - sl_seg_offset b in
  BlockOp (sl_data b) (start + sl_cap_offset b) (end_ - start + 1) bpos.

(** The operation held back and the queue, if it has been made. *)
Record op_list := OpList { ol_gop : option block_op; ol_q : option (list block_op); ol_bpos : Z }.

(** The blocks of one piece of the request: the queue is made when there is
    a block after the current one, and the operation is added if it exists. *)
Fixpoint block_ops (lo hi : Z) (bs : list seglin_slot) (l : op_list) : op_list :=
  match bs with
  | [] => l
  | b :: bs =>
    let op := block_op_of lo hi (ol_bpos l) b in
    let q := match ol_q l, bs with None, _ :: _ => Some [] | q, _ => q end in
    let q := match q with Some ops => Some (ops ++ [op]) | None => None end in
    block_ops lo hi bs (OpList (Some op) q (ol_bpos l + bo_len op))
  end.

Fixpoint iov_ops (m : M) (iov : list (Z * Z)) (l : op_list) : op_list :=
  match iov with
  | [] => l
  | (off, len) :: iov =>
    iov_ops m iov (block_ops off (off + len - 1) (ix_search off (off + len - 1) m) l)
  end.

(** What is executed: the queue, or the one operation held; [None] is the
    failure when there is nothing to do. *)
Definition ops_to_run (m : M) (iov : list (Z * Z)) (boff : Z) : option (list block_op) :=
  let l := iov_ops m iov (OpList None None boff) in
  match ol_q l with
  | Some ops => Some ops
  | None => match ol_gop l with Some op => Some [op] | None => None end
  end.

Fixpoint run_block_reads (d : gmap nat (Z -> Z)) (ops : list block_op) (buffer : Z -> Z) : bool * (Z -> Z) :=
  match ops with
  | [] => (true, buffer)
  | op :: ops =>
    if up (bo_data op)
    then run_block_reads d ops (overlay (bo_bpos op) (slice (block_bytes d (bo_data op)) (bo_off op) (bo_len op)) buffer)
    else (false, (run_block_reads d ops buffer).2)
  end.

(** [seglin_read_func]: the result is success whatever happened, and the
    error count goes up whatever happened, since the state a wait returns is
    never 0. *)
Definition seglin_read_func (iov : list (Z * Z)) (buffer : Z -> Z) (boff : Z) s : (bool * (Z -> Z)) * seglin_priv M :=
  let buffer := match ops_to_run (isl s) iov boff with
                | Some ops => (run_block_reads (depot s) ops buffer).2
                | None => buffer
                end in
  ((true, buffer),
   SegLin (isl s) (used_size s) (total_size s) (max_block_size s) (excess_block_size s) (lin_errors s + 1)
     (depot s) (next_block s)).

Fixpoint run_block_writes (ops : list block_op) (buffer : Z -> Z) (d : gmap nat (Z -> Z)) : bool * gmap nat (Z -> Z) :=
  match ops with
  | [] => (true, d)
  | op :: ops =>
    let '(ok, d) := ds_write (bo_data op) (bo_off op) (slice buffer (bo_bpos op) (bo_len op)) d in
    let '(oks, d) := run_block_writes ops buffer d in
    (ok && oks, d)
  end.

(** [seglin_write_op], run to its end. *)
Definition seglin_write_op (iov : list (Z * Z)) (buffer : Z -> Z) (boff : Z) s : bool * gmap nat (Z -> Z) :=
  match ops_to_run (isl s) iov boff with
  | Some ops => run_block_writes ops buffer (depot s)
  | None => (false, depot s)
  end.

Definition max_extent (iov : list (Z * Z)) : Z :=
  foldl (fun maxpos '(off, len) => let pos := off + len - 1 in if pos >? maxpos then pos else maxpos) 0 iov.

(** [seglin_write_func]; the status of the truncation is not looked at. *)
Definition seglin_write_func (iov : list (Z * Z)) (buffer : Z -> Z) (boff : Z) (rs_ok : bool) s
  : res (bool * seglin_priv M) :=
  let maxpos := max_extent iov in
  let new_size := maxpos + excess_block_size s in
  s ← (if (maxpos >=? total_size s) && (total_size s <? new_size)
       then '(_, s) ← sl_truncate new_size rs_ok s; mret s else mret s);
  let '(ok, d) := seglin_write_op iov buffer boff s in
  Ok (ok, SegLin (isl s) (if used_size s <=? maxpos then maxpos + 1 else used_size s) (total_size s) (max_block_size s)
            (excess_block_size s) (if ok then lin_errors s else lin_errors s + 1) d (next_block s)).

(** ** Well-formed segments *)

Definition slot_ok (max total : Z) b : Prop :=
  0 <= sl_seg_offset b /\ sl_seg_end b = sl_seg_offset b + sl_len b - 1 /\
  0 < sl_len b <= max /\ sl_seg_end b < total /\ 0 <= sl_cap_offset b.

(** The blocks tile the file, and no two of them share an allocation. *)
Record lin_wf s : Prop := LinWf {
  lw_index : ix_ok (isl s);
  lw_max : 0 < max_block_size s;
  lw_size : 0 <= total_size s;
  lw_slot b : b ∈ ix_list (isl s) -> slot_ok (max_block_size s) (total_size s) b;
  lw_cover x : 0 <= x < total_size s -> exists b, b ∈ ix_list (isl s) /\ inside b x;
  lw_next b : b ∈ ix_list (isl s) -> (sl_data b < next_block s)%nat;
  lw_data b b' : b ∈ ix_list (isl s) -> b' ∈ ix_list (isl s) -> sl_data b = sl_data b' -> b = b' }.

(** Blocks whose data starts where their allocation does, as those made by
    [_sl_grow]. *)
Definition lin_plain s : Prop := forall b, b ∈ ix_list (isl s) -> sl_cap_offset b = 0.

(** The file: the byte that the block covering an offset holds for it. *)
Definition lin_view s (x : Z) : Z :=
  match ix_search x x (isl s) with
  | b :: _ => block_bytes (depot s) (sl_data b) (sl_cap_offset b + (x - sl_seg_offset b))
  | [] => 0
  end.

Context `{!IntervalIndexLaws M seglin_slot}.

Lemma lin_view_at s b x :
  ix_ok (isl s) -> b ∈ ix_list (isl s) -> inside b x ->
  lin_view s x = block_bytes (depot s) (sl_data b) (sl_cap_offset b + (x - sl_seg_offset b)).
Proof.
  intros Hok Hb Hx. unfold lin_view.
  assert (Hin : b ∈ ix_search x x (isl s)) by (apply ix_search_elem; [done|left; lia|]; unfold overlaps, inside in *; split; [lia|done]).
  destruct (ix_search x x (isl s)) as [|b' l] eqn:E; [by apply not_elem_of_nil in Hin|].
  assert (Hin' : b' ∈ ix_search x x (isl s)) by (rewrite E; by left).
  apply ix_search_elem in Hin' as [Ho Hb']; [|done|left; lia].
  by rewrite (ix_disjoint _ b' b x Hok Hb' Hb) by (done || (unfold overlaps, inside in *; lia)).
Qed.

(** The new blocks cover the space asked for and fit the arrays. *)
Lemma grow_blocks_ok room id off new max :
  0 < max -> 0 <= off -> new - off <= Z.of_nat room * max ->
  exists bs, grow_blocks room id off new max = Ok bs /\ ivs_ok bs /\
    (forall b, b ∈ bs -> off <= sl_seg_offset b /\ slot_ok max new b /\ (id <= sl_data b < id + length bs)%nat) /\
    (forall x, off <= x < new -> exists b, b ∈ bs /\ inside b x) /\
    (forall b b', b ∈ bs -> b' ∈ bs -> sl_data b = sl_data b' -> b = b').
Proof.
  intros Hmax. revert id off. induction room as [|room IH]; intros id off Hoff Hroom.
  all: simpl; destruct (off <? new) eqn:E; breflect; [|exists []; split_and!; [done|apply ivs_ok_nil|set_solver|intros; lia|set_solver]].
  { lia. }
  destruct (IH (S id) (off + max)) as (bs & -> & Hok & Hbs & Hcov & Hinj); [lia..|].
  set (len := if off + max >? new then new - off else max).
  assert (Hlen : 0 < len <= max /\ off + len <= new /\ (off + len = new \/ len = max)) by (subst len; case_match; breflect; lia).
  clearbody len. cbn [mbind res_bind mret res_ret].
  exists (Slot id 0 off (off + len - 1) len :: bs). split_and!; [done|..].
  - apply ivs_ok_cons. split; [simpl; lia|]. split; [|done]. apply Forall_forall. intros b Hb.
    apply Hbs in Hb. unfold before. simpl. lia.
  - intros b [->|Hb]%elem_of_cons; [unfold slot_ok; simpl; lia|]. apply Hbs in Hb as (? & ? & ?). simpl. split_and!; (done || lia).
  - intros x Hx. destruct (decide (x < off + len)).
    + eexists. split; [by left|]. unfold inside. simpl. lia.
    + destruct (Hcov x) as (b & ? & ?); [lia|]. exists b. split; [by right|done].
  - intros b b' [->|Hb]%elem_of_cons [->|Hb']%elem_of_cons He; [done|..|by apply Hinj].
    + apply Hbs in Hb'. simpl in He. lia.
    + apply Hbs in Hb. simpl in He. lia.
Qed.

Lemma grow_blocks_plain room id off new max bs b : grow_blocks room id off new max = Ok bs -> b ∈ bs -> sl_cap_offset b = 0.
Proof.
  revert id off bs. induction room as [|room IH]; intros id off bs; simpl; (destruct (off <? new); [|intros [= <-] ?%not_elem_of_nil; done]); [done|].
  destruct (grow_blocks room _ _ _ _) as [bs'|] eqn:E; [|done]. cbn [mbind res_bind]. intros [= <-] [->|Hb]%elem_of_cons; [done|]. by eapply IH.
Qed.

(** The block to expand is the one that ends the file. *)
Definition last_ok s (new : Z) (e : option (seglin_slot * Z * Z)) (lo : Z) : Prop :=
  match e with
  | None => lo = total_size s
  | Some (b, len, bend) =>
    b ∈ ix_list (isl s) /\ sl_seg_end b + 1 = total_size s /\ sl_len b < len <= max_block_size s /\
    bend = sl_seg_offset b + len - 1 /\ lo = bend + 1 /\ lo <= new
  end.

Lemma grow_last_ok s new :
  lin_wf s -> total_size s < new -> exists e lo, grow_last new s = Ok (e, lo) /\ last_ok s new e lo.
Proof.
  intros W Hn. unfold grow_last. destruct (total_size s >? 0) eqn:E; breflect; [|by eexists _, _].
  assert (Hin : exists b, b ∈ ix_search (total_size s - 1) (total_size s) (isl s)).
  { destruct (lw_cover s W (total_size s - 1)) as (b & Hb & Hx); [lia|]. exists b.
    apply ix_search_elem; [apply W|left; lia|]. unfold overlaps, inside in *. split; [lia|done]. }
  destruct Hin as [b0 Hin]. destruct (ix_search _ _ _) as [|b l] eqn:Es; [by apply not_elem_of_nil in Hin|].
  assert (Hb : b ∈ ix_search (total_size s - 1) (total_size s) (isl s)) by (rewrite Es; by left).
  apply ix_search_elem in Hb as [Ho Hb]; [|apply W|left; lia]. pose proof (lw_slot s W b Hb) as (? & ? & ? & ? & ?).
  unfold overlaps in Ho. simpl in Ho. destruct (sl_len b <? max_block_size s) eqn:El; breflect.
  - eexists _, _. split; [done|]. simpl. split; [done|]. case_match; breflect; lia.
  - eexists _, _. split; [done|]. simpl. lia.
Qed.

(** ** Contents of the allocations *)

Lemma block_bytes_insert d i j f : block_bytes (<[i := f]> d) j = if decide (i = j) then f else block_bytes d j.
Proof.
  unfold block_bytes. destruct (decide (i = j)) as [->|Hij]; [by rewrite lookup_insert_eq|by rewrite lookup_insert_ne].
Qed.

Lemma ds_write_other i off data d j y :
  (j = i -> ~ (off <= y < off + Z.of_nat (length data))) ->
  block_bytes (ds_write i off data d).2 j y = block_bytes d j y.
Proof.
  intros Hy. unfold ds_write. destruct (up i); [|done]. simpl. rewrite block_bytes_insert.
  case_decide; [subst|done]. apply overlay_out. by apply Hy.
Qed.

Lemma ds_truncate_other i n d j y : (j = i -> y < n) -> block_bytes (ds_truncate i n d).2 j y = block_bytes d j y.
Proof.
  intros Hy. unfold ds_truncate. destruct (up i); [|done]. simpl. rewrite block_bytes_insert. case_decide; [subst|done].
  by rewrite (proj2 (Z.ltb_lt _ _)) by by apply Hy.
Qed.

Lemma grow_touch_other bs d i y :
  (forall b, b ∈ bs -> i = sl_data b -> y <> sl_cap_offset b + sl_len b - 1) ->
  block_bytes (grow_touch bs d).2 i y = block_bytes d i y.
Proof.
  revert d. induction bs as [|b bs IH]; intros d Hy; [done|]. simpl.
  pose proof (ds_write_other (sl_data b) (sl_cap_offset b + sl_len b - 1) [0] d i y) as Hw.
  destruct (ds_write _ _ _ _) as [ok d1] eqn:E. destruct (grow_touch bs d1) as [oks d2] eqn:E2. simpl in *.
  rewrite <- Hw; [|intros He; specialize (Hy b ltac:(by left) He); lia].
  specialize (IH d1). rewrite E2 in IH. apply IH. intros b' Hb'. apply Hy. by right.
Qed.

Lemma fresh_blocks_other bs d i :
  (forall b, b ∈ bs -> i <> sl_data b) ->
  block_bytes (foldl (fun d b => <[sl_data b := fun _ => 0]> d) d bs) i = block_bytes d i.
Proof.
  revert d. induction bs as [|b bs IH]; intros d Hi; [done|]. simpl.
  rewrite IH by (intros b' Hb'; apply Hi; by right). rewrite block_bytes_insert.
  rewrite decide_False; [done|]. intros He. by apply (Hi b); [left|].
Qed.

Lemma drop_blocks_other bs d i :
  (forall b, b ∈ bs -> i <> sl_data b) -> block_bytes (drop_blocks bs d) i = block_bytes d i.
Proof.
  unfold drop_blocks. revert d. induction bs as [|b bs IH]; intros d Hi; [done|]. simpl.
  rewrite IH by (intros b' Hb'; apply Hi; by right). case_match; [|done].
  unfold block_bytes. rewrite lookup_delete_ne; [done|]. intros He. by apply (Hi b); [left|].
Qed.

(** ** Growing *)

(** The table after the growth: what was kept of the old one, and the new slots. *)
Definition grow_kept s (e : option (seglin_slot * Z * Z)) b : Prop :=
  b ∈ ix_list (isl s) /\ match e with Some (b0, _, _) => b <> b0 | None => True end.

Lemma grow_kept_index s e new lo :
  lin_wf s -> last_ok s new e lo ->
  let m := match e with Some (b, _, _) => ix_remove b (isl s) | None => isl s end in
  ix_ok m /\ forall b, b ∈ ix_list m <-> grow_kept s e b.
Proof.
  intros W He. unfold grow_kept. destruct e as [[[b0 len] bend]|]; simpl.
  - destruct (ix_remove_ok b0 (isl s)) as [Hm Hin]; [apply W|apply He|]. split; [done|]. intros b. rewrite Hin. tauto.
  - split; [apply W|]. intros b. tauto.
Qed.

(** An expanded slot still starts where it did, and reaches further. *)
Lemma grow_expanded_elem s e new lo b :
  lin_wf s -> last_ok s new e lo -> b ∈ grow_expanded e ->
  exists b0 len bend, e = Some (b0, len, bend) /\ b = Slot (sl_data b0) (sl_cap_offset b0) (sl_seg_offset b0) bend len /\
    b0 ∈ ix_list (isl s) /\ sl_seg_end b0 + 1 = total_size s /\ sl_len b0 < sl_len b /\ sl_seg_end b < lo /\
    slot_ok (max_block_size s) new b.
Proof.
  intros W He Hb. destruct e as [[[b0 len] bend]|]; [|by apply not_elem_of_nil in Hb].
  apply list_elem_of_singleton in Hb as ->. destruct He as (Hb0 & ? & ? & -> & -> & ?).
  pose proof (lw_slot s W b0 Hb0) as (? & ? & ? & ? & ?). exists b0, len, (sl_seg_offset b0 + len - 1).
  unfold slot_ok. simpl. split_and!; (done || lia).
Qed.

Lemma grow_lo s new lo e : lin_wf s -> last_ok s new e lo -> total_size s <= lo.
Proof.
  intros W He. destruct e as [[[b len] bend]|]; simpl in He; [|lia]. destruct He as (Hb & ? & ? & -> & -> & ?).
  pose proof (lw_slot s W b Hb) as (? & ? & ? & ? & ?). lia.
Qed.

Lemma grow_resize_other e d i y : (forall b0 len bend, e = Some (b0, len, bend) -> i = sl_data b0 -> y < len) -> block_bytes (grow_resize e d).2 i y = block_bytes d i y.
Proof. intros Hr. destruct e as [[[b0 len] bend]|]; [|done]. apply ds_truncate_other. by apply (Hr b0 len bend). Qed.

Section grown.
Context (s : seglin_priv M) (new lo : Z) (e : option (seglin_slot * Z * Z)) (bs : list seglin_slot).
Hypothesis W : lin_wf s.
Hypothesis Hnew : total_size s < new.
Hypothesis He : last_ok s new e lo.
Hypothesis Hbs : ivs_ok bs.
Hypothesis Hslot : forall b, b ∈ bs ->
  lo <= sl_seg_offset b /\ slot_ok (max_block_size s) new b /\ (next_block s <= sl_data b < next_block s + length bs)%nat.
Hypothesis Hcover : forall x, lo <= x < new -> exists b, b ∈ bs /\ inside b x.
Hypothesis Hinj : forall b b', b ∈ bs -> b' ∈ bs -> sl_data b = sl_data b' -> b = b'.

Lemma grow_news_ivs : ivs_ok (grow_expanded e ++ bs).
Proof.
  destruct (grow_expanded e) as [|b0 l] eqn:E; [done|]. assert (l = []) as ->.
  { destruct e as [[[? ?] ?]|]; simpl in E; [by injection E|done]. }
  destruct (grow_expanded_elem s e new lo b0 W He) as (? & ? & ? & _ & _ & _ & _ & _ & Hlt & (? & ? & ? & ?)); [rewrite E; by left|].
  simpl. apply ivs_ok_cons. split; [simpl; lia|]. split; [|done]. apply Forall_forall. intros b Hb.
  apply Hslot in Hb as (? & _). unfold before. simpl. lia.
Qed.

Lemma grow_news_disjoint v w : v ∈ grow_expanded e ++ bs -> grow_kept s e w -> ~ overlaps (iv_lo v) (iv_hi v) w.
Proof.
  intros [Hv|Hv]%elem_of_app [Hw Hk] [Ho1 Ho2]; pose proof (lw_slot s W w Hw) as (? & ? & ? & ? & ?); simpl in *.
  - destruct (grow_expanded_elem s e new lo v W He Hv) as (b0 & len & bend & E & -> & Hb0 & ? & ? & ? & ?).
    rewrite E in Hk. apply Hk. apply (ix_disjoint _ _ _ (sl_seg_end w) (lw_index s W) Hw Hb0); unfold inside; simpl in *; lia.
  - apply Hslot in Hv as (? & _). pose proof (grow_lo s new lo e W He). lia.
Qed.

Lemma grow_cover y : 0 <= y < lo -> exists b, (b ∈ grow_expanded e \/ grow_kept s e b) /\ inside b y.
Proof.
  intros Hy. unfold grow_kept. destruct e as [[[b0 len] bend]|]; simpl in *.
  - destruct He as (Hb0 & ? & ? & ? & -> & ?). destruct (decide (sl_seg_offset b0 <= y)).
    + eexists. split; [left; by left|]. unfold inside. simpl. lia.
    + pose proof (lw_slot s W b0 Hb0) as (? & ? & ? & ? & ?).
      destruct (lw_cover s W y) as (b & Hb & Hx); [lia|]. exists b. split; [right; split; [done|]|done].
      intros ->. unfold inside in Hx. simpl in Hx. lia.
  - destruct (lw_cover s W y) as (b & Hb & Hx); [lia|]. exists b. split; [by right|done].
Qed.

(** The expanded slot and the kept ones are on allocations the segment had,
    and on different ones. *)
Lemma grow_old_data b : b ∈ grow_expanded e \/ grow_kept s e b -> (sl_data b < next_block s)%nat.
Proof.
  intros [Hb|[Hb _]]; [|by apply (lw_next s W)].
  destruct (grow_expanded_elem s e new lo b W He Hb) as (b0 & ? & ? & E & -> & Hb0 & _). exact (lw_next s W b0 Hb0).
Qed.

Lemma grow_expanded_data b b' : b ∈ grow_expanded e -> grow_kept s e b' -> sl_data b <> sl_data b'.
Proof.
  intros Hb [Hb' Hk] Hd. destruct (grow_expanded_elem s e new lo b W He Hb) as (b0 & ? & ? & E & -> & Hb0 & _).
  rewrite E in Hk. apply Hk. by apply (lw_data s W b' b0 Hb' Hb0).
Qed.

Lemma grow_data b b' :
  b ∈ grow_expanded e ++ bs \/ grow_kept s e b -> b' ∈ grow_expanded e ++ bs \/ grow_kept s e b' ->
  sl_data b = sl_data b' -> b = b'.
Proof.
  intros Hb Hb' Hd. rewrite elem_of_app in Hb, Hb'.
  pose proof (grow_old_data b) as Ho. pose proof (grow_old_data b') as Ho'.
  destruct Hb as [[Hb|Hb]|Hb], Hb' as [[Hb'|Hb']|Hb'];
    try (apply Hslot in Hb as (_ & _ & Hb); lia || (specialize (Ho' ltac:(tauto)); lia));
    try (apply Hslot in Hb' as (_ & _ & Hb'); specialize (Ho ltac:(tauto)); lia).
  - destruct e as [[[? ?] ?]|]; [|by apply not_elem_of_nil in Hb].
    apply list_elem_of_singleton in Hb as ->. by apply list_elem_of_singleton in Hb' as ->.
  - by destruct (grow_expanded_data b b' Hb Hb').
  - by apply Hinj.
  - by destruct (grow_expanded_data b' b Hb' Hb).
  - apply (lw_data s W); [apply Hb|apply Hb'|done].
Qed.

(** The table, the sizes and the allocations after the growth. *)
Lemma grow_wf m u x er d :
  ix_ok m -> (forall b, b ∈ ix_list m <-> b ∈ grow_expanded e ++ bs \/ grow_kept s e b) ->
  lin_wf (SegLin m u new (max_block_size s) x er d (next_block s + length bs)%nat).
Proof.
  intros Hm Hin. pose proof (grow_lo s new lo e W He) as Hlo. pose proof (lw_size s W).
  split; simpl; [done|apply W|lia|..].
  - intros b [[Hb|Hb]%elem_of_app|[Hb _]]%Hin.
    + by destruct (grow_expanded_elem s e new lo b W He Hb) as (? & ? & ? & _ & _ & _ & _ & _ & _ & ?).
    + by apply Hslot in Hb as (_ & ? & _).
    + destruct (lw_slot s W b Hb) as (? & ? & ? & ? & ?). unfold slot_ok. split_and!; lia.
  - intros y Hy. destruct (decide (lo <= y)).
    + destruct (Hcover y) as (b & Hb & ?); [lia|]. exists b. rewrite Hin, elem_of_app. split; [by left; right|done].
    + destruct (grow_cover y) as (b & Hb & ?); [lia|]. exists b. rewrite Hin, elem_of_app. split; [tauto|done].
  - intros b [[Hb|Hb]%elem_of_app|Hb]%Hin; [|apply Hslot in Hb; lia|].
    + pose proof (grow_old_data b (or_introl Hb)). lia.
    + pose proof (grow_old_data b (or_intror Hb)). lia.
  - intros b b' Hb%Hin Hb'%Hin. by apply grow_data.
Qed.

Lemma grow_depot i y :
  (i < next_block s)%nat -> (forall b, b ∈ grow_expanded e -> i = sl_data b -> y <> sl_cap_offset b + sl_len b - 1) ->
  (forall b0 len bend, e = Some (b0, len, bend) -> i = sl_data b0 -> y < len) ->
  block_bytes (grow_touch (grow_expanded e ++ bs) (foldl (fun d b => <[sl_data b := fun _ => 0]> d) (grow_resize e (depot s)).2 bs)).2 i y =
  block_bytes (depot s) i y.
Proof.
  intros Hi Hy Hr. rewrite grow_touch_other.
  - rewrite fresh_blocks_other; [by apply grow_resize_other|]. intros b Hb. apply Hslot in Hb as (_ & _ & Hb). lia.
  - intros b [Hb|Hb]%elem_of_app Hd; [by apply Hy|]. apply Hslot in Hb as (_ & _ & Hb). lia.
Qed.

(** Nothing below the old end changes, if its data starts where the allocation
    does: the byte written at the end of the
    expanded block is a new one. *)
Lemma grow_view m u t mx x er n d y :
  lin_plain s -> ix_ok m -> (forall b, b ∈ ix_list m <-> b ∈ grow_expanded e ++ bs \/ grow_kept s e b) ->
  d = (grow_touch (grow_expanded e ++ bs) (foldl (fun d b => <[sl_data b := fun _ => 0]> d) (grow_resize e (depot s)).2 bs)).2 ->
  0 <= y < total_size s -> lin_view (SegLin m u t mx x er d n) y = lin_view s y.
Proof.
  intros Hpl Hm Hin -> Hy. pose proof (grow_lo s new lo e W He) as Hlo. destruct (lw_cover s W y Hy) as (b & Hb & Hx).
  rewrite (lin_view_at s b) by (done || apply W). destruct (grow_cover y) as (b' & Hb' & Hx'); [lia|].
  rewrite (lin_view_at _ b'); [|done|apply Hin; rewrite elem_of_app; tauto|done]. simpl.
  rewrite grow_depot; [|by apply grow_old_data|..].
  - destruct Hb' as [Hb'|[Hb' _]]; [|by rewrite (ix_disjoint _ b' b y (lw_index s W))].
    destruct (grow_expanded_elem s e new lo b' W He Hb') as (b0 & ? & ? & _ & -> & Hb0 & Hend & _).
    pose proof (lw_slot s W b Hb) as (? & ? & ? & ? & ?).
    assert (b0 = b) as ->; [|done]. apply (ix_disjoint _ b0 b y (lw_index s W)); [done..|unfold inside in *; simpl in *; lia|done].
  - intros c Hc Hd. destruct (grow_expanded_elem s e new lo c W He Hc) as (b0 & ? & ? & _ & Ec & Hb0 & Hend & Hlen & _ & Hsc).
    assert (b' = c) as ->.
    { apply grow_data; [rewrite elem_of_app; tauto..|done]. }
    pose proof (lw_slot s W b0 Hb0) as (? & ? & ? & ? & ?). unfold inside in Hx'. subst c. simpl in *. lia.
  - intros b0 len bend E Hd. destruct (grow_expanded_elem s e new lo (Slot (sl_data b0) (sl_cap_offset b0) (sl_seg_offset b0) bend len) W He) as (b1 & ? & ? & E1 & Ec & Hb0 & Hend & Hlen & _ & Hsc); [rewrite E; by left|].
    rewrite E in E1. injection E1 as <- <- <-.
    assert (b' = Slot (sl_data b0) (sl_cap_offset b0) (sl_seg_offset b0) bend len) as ->.
    { apply grow_data; [rewrite elem_of_app; tauto|rewrite E; left; by left|done]. }
    pose proof (lw_slot s W b0 Hb0) as (? & ? & ? & ? & ?). unfold inside in Hx'. simpl in *. rewrite (Hpl b0 Hb0). lia.
Qed.

Lemma grow_plain m u t mx x er d n :
  lin_plain s -> Forall (fun b => sl_cap_offset b = 0) bs -> (forall b, b ∈ ix_list m <-> b ∈ grow_expanded e ++ bs \/ grow_kept s e b) -> lin_plain (SegLin m u t mx x er d n).
Proof.
  intros Hpl Hb Hin b [[Hb'|Hb']%elem_of_app|[Hb' _]]%Hin; [|by apply (proj1 (Forall_forall _ _) Hb)|by apply Hpl].
  destruct (grow_expanded_elem s e new lo b W He Hb') as (b0 & ? & ? & _ & -> & Hb0 & _). exact (Hpl b0 Hb0).
Qed.

End grown.

Lemma grow_some {B : Type} (e : option (seglin_slot * Z * Z)) (bs : list seglin_slot) (f g : B) :
  ~ (e = None /\ bs = []) -> match e, bs with None, [] => f | _, _ => g end = g.
Proof. intros Hne. destruct e, bs; try done. by destruct Hne. Qed.

(** A growth either does what it was asked for or leaves the blocks and the file
    alone. *)
Definition same_file s s' : Prop := isl s' = isl s /\ total_size s' = total_size s /\ used_size s' = used_size s.

Lemma grow_failed s new lo e :
  lin_wf s -> lin_plain s -> total_size s < new -> last_ok s new e lo ->
  let s' := SegLin (isl s) (used_size s) (total_size s) (max_block_size s) (excess_block_size s) (lin_errors s) (grow_resize e (depot s)).2 (next_block s) in
  lin_wf s' /\ lin_plain s' /\ forall y, 0 <= y < total_size s -> lin_view s' y = lin_view s y.
Proof.
  intros W Hpl Hn He s'. assert (W' : lin_wf s') by (destruct W; by split). split; [done|]. split; [done|].
  intros y Hy. destruct (lw_cover s W y Hy) as (b & Hb & Hx). rewrite (lin_view_at s b), (lin_view_at s' b) by (done || apply W). simpl.
  apply grow_resize_other. intros b0 len bend -> Hd. destruct He as (Hb0 & _ & ? & _). rewrite (lw_data s W b b0 Hb Hb0 Hd) in *.
  pose proof (lw_slot s W b0 Hb0) as (? & ? & ? & ? & ?). unfold inside in Hx. simpl in Hx. rewrite (Hpl b0 Hb0). lia.
Qed.

Lemma sl_grow_ok s new rs_ok :
  lin_wf s -> lin_plain s -> total_size s < new ->
  exists ok s', sl_grow new rs_ok s = Ok (ok, s') /\ lin_wf s' /\ lin_plain s' /\
    (total_size s' = new \/ ok = false /\ same_file s s') /\
    (rs_ok = true -> (forall i, up i = true) -> total_size s' = new) /\
    excess_block_size s' = excess_block_size s /\ used_size s' = used_size s /\
    forall y, 0 <= y < total_size s -> lin_view s' y = lin_view s y.
Proof.
  intros W Hpl Hn. pose proof (lw_size s W) as H0. pose proof (lw_max s W) as Hmax.
  destruct (grow_last_ok s new W Hn) as (e & lo & El & He). pose proof (grow_lo s new lo e W He) as Hlo.
  destruct (grow_blocks_ok (Z.to_nat ((new - total_size s) ÷ max_block_size s + 1)) (next_block s) lo new (max_block_size s))
    as (bs & Eb & Hbs & Hslot & Hcover & Hinj); [done|lia|..].
  { rewrite Z.quot_div_nonneg by lia. pose proof (Z.mul_succ_div_gt (new - total_size s) (max_block_size s) Hmax).
    rewrite Z2Nat.id by (pose proof (Z.div_pos (new - total_size s) (max_block_size s)); lia). lia. }
  assert (Hbp : Forall (fun b => sl_cap_offset b = 0) bs) by (apply Forall_forall; intros b Hb; by eapply grow_blocks_plain).
  destruct (grow_kept_index s e new lo W He) as [Hm Hk].
  destruct (ix_insert_all_ok (grow_expanded e ++ bs) _ Hm) as [Hm2 Hin2];
    [by eapply grow_news_ivs|intros v w Hv Hw%Hk; by eapply grow_news_disjoint|].
  unfold sl_grow. replace (new <? 0) with false by (symmetry; apply Z.ltb_ge; lia). cbn [andb].
  replace (max_block_size s =? 0) with false by (symmetry; apply Z.eqb_neq; lia).
  rewrite El. cbn [mbind res_bind]. rewrite Eb. cbn [mbind res_bind].
  assert (Hne : ~ (e = None /\ bs = [])).
  { intros [-> ->]. simpl in He. destruct (Hcover lo) as (b & Hb & _); [lia|]. by apply not_elem_of_nil in Hb. }
  pose proof (grow_failed s new lo e W Hpl Hn He) as Hfail.
  assert (Hup : rs_ok = true -> (forall i, up i = true) -> (grow_resize e (depot s)).1 && match bs with [] => true | _ => rs_ok end = true).
  { intros -> Hup. destruct e as [[[? ?] ?]|]; cbn [grow_resize]; unfold ds_truncate; rewrite ?Hup; by destruct bs. }
  pose proof (grow_view s new lo e bs W He Hslot Hcover Hinj) as Hview. destruct (grow_resize e (depot s)) as [ok1 d1] eqn:Er. cbn [fst snd] in *.
  rewrite grow_some by done. clear El Eb. destruct (_ && _) eqn:E.
  - destruct (grow_touch _ _) as [ok d] eqn:Et. eexists _, _. split; [done|].
    assert (Hin : forall b, b ∈ ix_list _ <-> b ∈ grow_expanded e ++ bs \/ grow_kept s e b) by (intros b; by rewrite Hin2, Hk).
    split; [by eapply grow_wf|]. split; [by eapply grow_plain|]. split_and!; [by left|done..|]. intros y Hy. by apply Hview.
  - eexists _, _. split; [done|]. destruct Hfail as (HW & HP & HV). split_and!; [done|done|by right|intros Hr Hu; by specialize (Hup Hr Hu)|done..].
Qed.

(** A reservation of more than there is is a growth. *)
Lemma sl_grow_reserve s new rs_ok : 0 <= total_size s < new -> sl_grow (- new) rs_ok s = sl_grow new rs_ok s.
Proof.
  intros Hn. unfold sl_grow. rewrite (proj2 (Z.ltb_lt (- new) 0)), (proj2 (Z.ltb_ge new 0)), Z.opp_involutive by lia. cbn [andb].
  by rewrite (proj2 (Z.ltb_ge new (total_size s))) by lia.
Qed.

(** ** Shrinking *)

(** The search finds the block that holds the new end first, and then those
    behind it. *)
Lemma shrink_search s n :
  lin_wf s -> 0 <= n < total_size s ->
  exists b rest, ix_search n (total_size s) (isl s) = b :: rest /\ b ∈ ix_list (isl s) /\ inside b n /\
    NoDup (b :: rest) /\ (forall w, w ∈ b :: rest <-> w ∈ ix_list (isl s) /\ n <= sl_seg_end w).
Proof.
  intros W Hn. destruct (lw_cover s W n Hn) as (c & Hc & Hx).
  assert (Hel : forall w, w ∈ ix_search n (total_size s) (isl s) <-> w ∈ ix_list (isl s) /\ n <= sl_seg_end w).
  { intros w. rewrite ix_search_elem by (apply W || (left; lia)). unfold overlaps. simpl. split; [tauto|].
    intros [Hw ?]. split; [|done]. pose proof (lw_slot s W w Hw) as (? & ? & ? & ? & ?). lia. }
  pose proof (ix_search_ivs (isl s) n (total_size s) (lw_index s W) ltac:(left; lia)) as Hiv.
  assert (Hcs : c ∈ ix_search n (total_size s) (isl s)) by (apply Hel; unfold inside in Hx; simpl in Hx; split; [done|lia]).
  destruct (ix_search _ _ _) as [|b rest]; [by apply not_elem_of_nil in Hcs|].
  pose proof (proj1 (Hel b) ltac:(by left)) as [Hb Hbn]. exists b, rest. split_and!; [done|done| |by apply ivs_nodup|done].
  apply ivs_ok_cons in Hiv as (? & Hbf & _). apply elem_of_cons in Hcs as [->|Hcs]; [done|].
  rewrite Forall_forall in Hbf. apply Hbf in Hcs. unfold before, inside in *. simpl in *. lia.
Qed.

Definition trimmed (n : Z) b : seglin_slot :=
  Slot (sl_data b) (sl_cap_offset b) (sl_seg_offset b) (sl_seg_offset b + (n - sl_seg_offset b) - 1) (n - sl_seg_offset b).

(** The table that is left: the blocks that end before the new size, and what
    remains of the one that holds it. *)
Lemma shrink_index s n b rest :
  lin_wf s -> 0 <= n < total_size s -> b ∈ ix_list (isl s) -> inside b n -> NoDup (b :: rest) ->
  (forall w, w ∈ b :: rest <-> w ∈ ix_list (isl s) /\ n <= sl_seg_end w) ->
  let dropped := if n - sl_seg_offset b =? 0 then b :: rest else rest in
  let m := foldl (fun m b => ix_remove b m) (isl s) (reverse dropped) in
  let m := if n - sl_seg_offset b =? 0 then m else ix_insert (trimmed n b) (ix_remove b m) in
  ix_ok m /\
  forall w, w ∈ ix_list m <-> (w ∈ ix_list (isl s) /\ sl_seg_end w < n) \/ (sl_seg_offset b < n /\ w = trimmed n b).
Proof.
  intros W Hn Hb Hx Hnd Hel dropped. unfold inside in Hx. simpl in Hx. apply NoDup_cons in Hnd as [Hbr Hnd].
  assert (NoDup dropped /\ forall w, w ∈ dropped -> w ∈ b :: rest) as [Hd1 Hd2].
  { subst dropped. case_match; [split; [by constructor|done]|split; [done|by right]]. }
  destruct (ix_remove_all_ok (reverse dropped) (isl s)) as [Hm Hin]; [apply W|by rewrite reverse_Permutation|..].
  { intros w. rewrite elem_of_reverse. intros Hw. by apply Hel, Hd2. }
  setoid_rewrite elem_of_reverse in Hin. cbv zeta. subst dropped. clear Hd1 Hd2.
  destruct (n - sl_seg_offset b =? 0) eqn:E; breflect.
  - split; [done|]. intros w. rewrite Hin, Hel.
    split; [intros [Hw Hw']; left; split; [done|]; apply Znot_ge_lt; intros ?; apply Hw; split; [done|lia]|].
    intros [[Hw ?]|[? _]]; [split; [intros [_ ?]; lia|done]|lia].
  - destruct (ix_remove_ok b _ Hm) as [Hm1 Hin1]; [by apply Hin|].
    assert (Hin1' : forall w, w ∈ ix_list (ix_remove b (foldl (fun m b => ix_remove b m) (isl s) (reverse rest))) <->
      w ∈ ix_list (isl s) /\ sl_seg_end w < n).
    { intros w. rewrite Hin1, Hin. specialize (Hel w). rewrite elem_of_cons in Hel. split.
      - intros (? & ? & ?). split; [done|]. apply Znot_ge_lt. intros ?.
        destruct (proj2 Hel) as [?|?]; [split; [done|lia]|done..].
      - intros [? ?]. split_and!; [|intros ?|done]; [intros ->; lia|]. destruct (proj1 Hel ltac:(by right)). lia. }
    destruct (ix_insert_ok (trimmed n b) _ Hm1) as [Hm2 Hin2].
    + simpl. lia.
    + intros w [Hw Hwn]%Hin1' [Ho1 Ho2]. simpl in *. pose proof (ix_proper _ w (lw_index s W) Hw) as Hp. simpl in Hp.
      assert (w = b) as -> by (apply (ix_disjoint _ _ _ (sl_seg_end w) (lw_index s W) Hw Hb); unfold inside; simpl; lia). lia.
    + split; [done|]. intros w. rewrite Hin2, Hin1'. split; [intros [->|?]; [right; split; [lia|done]|by left]|tauto].
Qed.

Lemma shrink_wf s n b m u x er d :
  lin_wf s -> 0 <= n < total_size s -> b ∈ ix_list (isl s) -> inside b n -> ix_ok m ->
  (forall w, w ∈ ix_list m <-> (w ∈ ix_list (isl s) /\ sl_seg_end w < n) \/ (sl_seg_offset b < n /\ w = trimmed n b)) ->
  lin_wf (SegLin m u n (max_block_size s) x er d (next_block s)).
Proof.
  intros W Hn Hb Hx Hm Hin. pose proof (lw_slot s W b Hb) as (? & ? & ? & ? & ?). unfold inside in Hx. simpl in Hx.
  split; simpl; [done|apply W|lia|..].
  - intros w [[Hw ?]|[? ->]]%Hin; [|unfold slot_ok; simpl; lia].
    pose proof (lw_slot s W w Hw) as (? & ? & ? & ? & ?). unfold slot_ok. lia.
  - intros y Hy. destruct (lw_cover s W y) as (w & Hw & Hwy); [lia|]. unfold inside in *. simpl in *.
    destruct (decide (sl_seg_end w < n)); [exists w; split; [apply Hin; by left|done]|].
    assert (w = b) as -> by (apply (ix_disjoint _ w b n (lw_index s W) Hw Hb); unfold inside; simpl; lia).
    exists (trimmed n b). split; [apply Hin; right; split; [lia|done]|simpl; lia].
  - intros w [[Hw ?]|[? ->]]%Hin; [by apply (lw_next s W)|exact (lw_next s W b Hb)].
  - intros w w' [[Hw ?]|[? ->]]%Hin [[Hw' ?]|[? ->]]%Hin Hd; [by apply (lw_data s W)|..|done]; simpl in Hd.
    + rewrite (lw_data s W w b Hw Hb Hd) in *. lia.
    + rewrite <- (lw_data s W b w' Hb Hw' Hd) in *. lia.
Qed.

Lemma shrink_view s n b m u x er d nx dropped y :
  lin_wf s -> lin_plain s -> 0 <= n < total_size s -> b ∈ ix_list (isl s) -> inside b n -> ix_ok m ->
  (forall w, w ∈ ix_list m <-> (w ∈ ix_list (isl s) /\ sl_seg_end w < n) \/ (sl_seg_offset b < n /\ w = trimmed n b)) ->
  (forall w, w ∈ dropped -> w ∈ ix_list (isl s) /\ n <= sl_seg_offset w) -> d = drop_blocks dropped (if n - sl_seg_offset b =? 0 then depot s else (ds_truncate (sl_data b) (n - sl_seg_offset b) (depot s)).2) ->
  0 <= y < n -> lin_view (SegLin m u n (max_block_size s) x er d nx) y = lin_view s y.
Proof.
  intros W Hpl Hn Hb Hx Hm Hin Hdr -> Hy. destruct (lw_cover s W y) as (w & Hw & Hwy); [lia|].
  rewrite (lin_view_at s w) by (done || apply W). unfold inside in *. simpl in *.
  assert (Hkeep : forall b', b' ∈ dropped -> sl_data w <> sl_data b').
  { intros b' [Hb' Hn']%Hdr Hd. rewrite (lw_data s W w b' Hw Hb' Hd) in *. lia. }
  assert (Hcut : forall z, z = sl_cap_offset w + (y - sl_seg_offset w) ->
    block_bytes (if n - sl_seg_offset b =? 0 then depot s else (ds_truncate (sl_data b) (n - sl_seg_offset b) (depot s)).2) (sl_data w) z = block_bytes (depot s) (sl_data w) z).
  { intros z ->. destruct (_ =? 0); [done|]. apply ds_truncate_other. intros Hd. rewrite (lw_data s W w b Hw Hb Hd), (Hpl b Hb). lia. }
  destruct (decide (sl_seg_end w < n)).
  - rewrite (lin_view_at _ w); [|done|apply Hin; by left|done]. simpl. rewrite drop_blocks_other by done. by apply Hcut.
  - assert (w = b) as -> by (apply (ix_disjoint _ w b n (lw_index s W) Hw Hb); unfold inside; simpl; lia).
    rewrite (lin_view_at _ (trimmed n b)); [|done|apply Hin; right; split; [lia|done]|unfold inside; simpl; lia].
    simpl. rewrite drop_blocks_other by done. by apply Hcut.
Qed.

(** A shrink always happens, whatever the depots answer. *)
Lemma sl_shrink_ok s n :
  lin_wf s -> lin_plain s -> 0 <= n < total_size s ->
  exists ok s', sl_shrink n s = Ok (ok, s') /\ lin_wf s' /\ lin_plain s' /\ total_size s' = n /\ used_size s' = n /\
    excess_block_size s' = excess_block_size s /\ forall y, 0 <= y < n -> lin_view s' y = lin_view s y.
Proof.
  intros W Hpl Hn. destruct (shrink_search s n W Hn) as (b & rest & Es & Hb & Hx & Hnd & Hel).
  destruct (shrink_index s n b rest W Hn Hb Hx Hnd Hel) as [Hm Hin]. unfold sl_shrink. rewrite Es.
  eexists _, _. split; [done|]. split; [by eapply shrink_wf|]. split; [intros w [[Hw _]|[_ ->]]%Hin; [by apply Hpl|exact (Hpl b Hb)]|]. split_and!; [done..|].
  intros y Hy. eapply shrink_view; [done..| |done|done].
  intros w Hw. assert (Hw' : w ∈ b :: rest) by (case_match; [done|by right]).
  destruct (proj1 (Hel w) Hw') as [Hwl Hwe]. split; [done|]. destruct (decide (n <= sl_seg_offset w)); [done|].
  assert (w = b) as -> by (apply (ix_disjoint _ w b n (lw_index s W) Hwl Hb); unfold inside in *; simpl in *; lia).
  apply NoDup_cons in Hnd as [Hbr _]. destruct (_ =? 0) eqn:E; breflect; [lia|done].
Qed.

(** C10: setting the size of a well-formed linear segment whose data starts at
    the start of the allocations, to [n] bytes or, for a negative [n], to space
    for at least [- n] bytes other than exactly what there is, runs to its end
    without overrunning the block arrays or following a null pointer, keeps the
    tiling, and keeps every byte below the old and the new end, whatever the
    depots and the resource service answer.  The segment gets the size asked
    for, or a growth fails and the blocks stay as they are; a failed shrink
    still shrinks. *)
Theorem seglin_truncate_ok s n rs_ok :
  lin_wf s -> lin_plain s -> 0 <= n \/ - n <> total_size s ->
  let new := if decide (0 <= n) then n else Z.max (- n) (total_size s) in
  exists ok s', sl_truncate n rs_ok s = Ok (ok, s') /\ lin_wf s' /\ lin_plain s' /\
    (total_size s' = new \/ ok = false /\ same_file s s' /\ total_size s < new) /\
    forall y, 0 <= y < Z.min new (total_size s) -> lin_view s' y = lin_view s y.
Proof.
  intros W Hpl Hn new. pose proof (lw_size s W) as H0. unfold sl_truncate. destruct (n <? 0) eqn:En; breflect.
  - subst new. rewrite decide_False by lia. destruct (decide (total_size s < - n)) as [Hg|Hg].
    + rewrite <- (Z.opp_involutive n), sl_grow_reserve by lia. destruct (sl_grow_ok s (- n) rs_ok W Hpl Hg) as (ok & s' & -> & W' & P' & Ht & _ & _ & _ & Hv).
      rewrite !Z.opp_involutive, Z.max_l by lia. exists ok, s'. split_and!; [done|done|done|tauto|]. intros y Hy. apply Hv. lia.
    + unfold sl_grow. rewrite (proj2 (Z.ltb_lt n 0)) by done. rewrite (proj2 (Z.ltb_lt (- n) _)) by lia. cbn [andb]. exists true, s. split_and!; [done..|left; lia|done].
  - subst new. rewrite decide_True by done. destruct (total_size s >? n) eqn:E; breflect; [|destruct (total_size s <? n) eqn:E2; breflect].
    + destruct (sl_shrink_ok s n W Hpl ltac:(lia)) as (ok & s' & -> & W' & P' & Ht & _ & _ & Hv).
      exists ok, s'. split_and!; [done|done|done|by left|]. intros y Hy. apply Hv. lia.
    + destruct (sl_grow_ok s n rs_ok W Hpl E2) as (ok & s' & -> & W' & P' & Ht & _ & _ & _ & Hv).
      exists ok, s'. split_and!; [done|done|done|tauto|]. intros y Hy. apply Hv. lia.
    + exists true, s. split_and!; [done|done|done|left; lia|done].
Qed.

(** ** Reading and writing one piece *)

(** The operations of the blocks of one piece. *)
Fixpoint piece_ops (lo hi bpos : Z) (bs : list seglin_slot) : list block_op :=
  match bs with
  | [] => []
  | b :: bs => let op := block_op_of lo hi bpos b in op :: piece_ops lo hi (bpos + bo_len op) bs
  end.

Lemma block_ops_queue lo hi bs g ops bpos :
  ol_q (block_ops lo hi bs (OpList g (Some ops) bpos)) = Some (ops ++ piece_ops lo hi bpos bs).
Proof.
  revert g ops bpos. induction bs as [|b bs IH]; intros g ops bpos; [by rewrite app_nil_r|].
  cbn [block_ops ol_q ol_bpos]. rewrite IH. by rewrite <- app_assoc.
Qed.

(** With one piece, whatever the number of blocks, all operations are run. *)
Lemma ops_to_run_piece m off len boff :
  ix_search off (off + len - 1) m <> [] ->
  ops_to_run m [(off, len)] boff = Some (piece_ops off (off + len - 1) boff (ix_search off (off + len - 1) m)).
Proof.
  intros Hne. unfold ops_to_run. cbn [iov_ops]. destruct (ix_search _ _ _) as [|b [|b' bs]]; [done|done|].
  cbn [block_ops ol_q ol_bpos]. rewrite block_ops_queue. done.
Qed.

(** The blocks [bs] cover the offsets from [p] to [hi] one after the other;
    the request starts at [lo]. *)
Fixpoint tiled (lo hi p : Z) (bs : list seglin_slot) : Prop :=
  match bs with
  | [] => hi < p
  | b :: bs =>
    Z.max lo (sl_seg_offset b) = p /\ p <= hi /\ p <= sl_seg_end b /\
    sl_seg_end b = sl_seg_offset b + sl_len b - 1 /\ tiled lo hi (sl_seg_end b + 1) bs
  end.

Lemma tiled_intro lo hi p bs :
  covering lo hi p bs -> (forall b, b ∈ bs -> sl_seg_end b = sl_seg_offset b + sl_len b - 1) -> tiled lo hi p bs.
Proof.
  revert p. induction bs as [|b bs IH]; intros p; simpl; [done|]. intros (? & ? & ? & Hc) Hb.
  split_and!; [done..|apply Hb; by left|]. apply IH; [done|]. intros b' Hb'. apply Hb. by right.
Qed.

(** The search of a request inside the file. *)
Lemma search_tiled s off len :
  lin_wf s -> 0 <= off -> 0 < len -> off + len <= total_size s ->
  tiled off (off + len - 1) off (ix_search off (off + len - 1) (isl s)).
Proof.
  intros W Hoff Hlen Ht. apply tiled_intro.
  - apply ix_search_covering; [apply W|lia|]. intros x Hx. apply W. lia.
  - intros b [_ Hb]%ix_search_elem; [|apply W|left; lia]. by destruct (lw_slot s W b Hb) as (? & ? & ?).
Qed.

(** One operation, for a block of a tiling. *)
Lemma block_op_tiled lo hi p b bs bpos :
  tiled lo hi p (b :: bs) ->
  block_op_of lo hi bpos b = BlockOp (sl_data b) (p - sl_seg_offset b + sl_cap_offset b) (Z.min hi (sl_seg_end b) - p + 1) bpos.
Proof.
  intros (Hp & ? & ? & ? & _). unfold block_op_of. f_equal; repeat case_match; breflect; lia.
Qed.

(** In a tiling only the last block reaches the end of the request. *)
Lemma tiled_end lo hi p b bs :
  tiled lo hi p (b :: bs) -> (bs = [] /\ hi <= sl_seg_end b) \/ (bs <> [] /\ sl_seg_end b + 1 <= hi).
Proof. intros (? & ? & ? & ? & Ht). destruct bs as [|b' bs]; simpl in Ht; [left|right]; (split; [done|lia]). Qed.

Lemma run_block_reads_ok d lo hi p bs bpos buffer (F : Z -> Z) y :
  (forall i, up i = true) -> tiled lo hi p bs ->
  (forall b x, b ∈ bs -> inside b x -> block_bytes d (sl_data b) (sl_cap_offset b + (x - sl_seg_offset b)) = F x) ->
  (run_block_reads d (piece_ops lo hi bpos bs) buffer).2 y =
  if decide (bpos <= y <= bpos + (hi - p)) then F (p + (y - bpos)) else buffer y.
Proof.
  intros Hup. revert p bpos buffer. induction bs as [|b bs IH]; intros p bpos buffer Ht HF.
  { simpl in *. by rewrite decide_False by lia. }
  pose proof (tiled_end _ _ _ _ _ Ht) as He. cbn [piece_ops]. rewrite (block_op_tiled _ _ _ _ _ _ Ht).
  cbn [run_block_reads bo_data bo_off bo_len bo_bpos]. rewrite Hup. destruct Ht as (Hp & ? & ? & ? & Ht).
  rewrite (IH (sl_seg_end b + 1)) by (done || (intros b' x Hb'; apply HF; by right)). clear IH.
  set (n := Z.min hi (sl_seg_end b) - p + 1) in *.
  destruct (decide (bpos <= y < bpos + n)) as [Hy|Hy].
  - rewrite decide_False by (destruct He as [[-> ?]|[? ?]]; lia). rewrite decide_True by lia.
    unfold overlay. rewrite span_slice by lia. simpl. rewrite <- (HF b); [f_equal; lia|by left|unfold inside; simpl; lia].
  - rewrite overlay_out by (rewrite slice_length; lia). destruct He as [[-> ?]|[? ?]].
    + rewrite !decide_False; [done|lia..].
    + destruct (decide (bpos <= y <= bpos + (hi - p))); [rewrite decide_True by lia; f_equal; lia|by rewrite decide_False by lia].
Qed.

Lemma run_block_writes_cons op ops buffer d :
  up (bo_data op) = true ->
  run_block_writes (op :: ops) buffer d =
  let d1 := <[bo_data op := overlay (bo_off op) (slice buffer (bo_bpos op) (bo_len op)) (block_bytes d (bo_data op))]> d in
  run_block_writes ops buffer d1.
Proof. intros Hup. simpl. unfold ds_write. rewrite Hup. by destruct (run_block_writes ops buffer _). Qed.

Lemma run_block_writes_true ops buffer d : (forall i, up i = true) -> (run_block_writes ops buffer d).1 = true.
Proof. intros Hup. revert d. induction ops as [|op ops IH]; intros d; [done|]. rewrite run_block_writes_cons by done. apply IH. Qed.

Lemma run_block_writes_other lo hi bs bpos buffer d i :
  (forall i, up i = true) -> (forall b, b ∈ bs -> sl_data b <> i) ->
  block_bytes (run_block_writes (piece_ops lo hi bpos bs) buffer d).2 i = block_bytes d i.
Proof.
  intros Hup. revert bpos d. induction bs as [|b bs IH]; intros bpos d Hi; [done|]. cbn [piece_ops].
  rewrite run_block_writes_cons by done. cbv zeta. rewrite IH by (intros b' Hb'; apply Hi; by right).
  rewrite block_bytes_insert. rewrite decide_False; [done|]. apply (Hi b). by left.
Qed.

Lemma run_block_writes_ok lo hi p bs bpos buffer d b x :
  (forall i, up i = true) -> tiled lo hi p bs -> ivs_ok bs ->
  (forall b b', b ∈ bs -> b' ∈ bs -> sl_data b = sl_data b' -> b = b') -> b ∈ bs -> inside b x ->
  block_bytes (run_block_writes (piece_ops lo hi bpos bs) buffer d).2 (sl_data b) (sl_cap_offset b + (x - sl_seg_offset b)) =
  if decide (p <= x <= hi) then buffer (bpos + (x - p))
  else block_bytes d (sl_data b) (sl_cap_offset b + (x - sl_seg_offset b)).
Proof.
  intros Hup. revert p bpos d. induction bs as [|b0 bs IH]; intros p bpos d Ht Hok Hinj Hb Hx; [by apply not_elem_of_nil in Hb|].
  pose proof (tiled_end _ _ _ _ _ Ht) as He. cbn [piece_ops]. rewrite (block_op_tiled _ _ _ _ _ _ Ht).
  rewrite run_block_writes_cons by done. cbn [bo_data bo_off bo_len bo_bpos]. destruct Ht as (Hp & ? & ? & ? & Ht).
  set (n := Z.min hi (sl_seg_end b0) - p + 1) in *. pose proof (ivs_nodup _ Hok) as [Hb0 _]%NoDup_cons.
  apply ivs_ok_cons in Hok as (_ & Hbf & Hok). rewrite Forall_forall in Hbf.
  assert (Hne : forall b', b' ∈ bs -> sl_data b' <> sl_data b0).
  { intros b' Hb' Hd. by rewrite (Hinj b' b0 ltac:(by right) ltac:(by left) Hd) in Hb'. }
  unfold inside in Hx. simpl in Hx. apply elem_of_cons in Hb as [->|Hb].
  - rewrite run_block_writes_other by done. rewrite block_bytes_insert, decide_True by done.
    destruct (decide (p <= x <= hi)).
    + unfold overlay. rewrite span_slice by lia. simpl. f_equal. lia.
    + rewrite overlay_out; [done|]. rewrite slice_length. lia.
  - rewrite (IH (sl_seg_end b0 + 1)); [|done|done|intros b1 b2 Hb1 Hb2; apply Hinj; by right|done|done].
    pose proof (Hbf b Hb) as Hb0b. unfold before in Hb0b. simpl in Hb0b.
    destruct He as [[-> _]|[_ ?]]; [by apply not_elem_of_nil in Hb|].
    rewrite block_bytes_insert, (decide_False (P := _ = _)) by (intros Hd; by apply (Hne b Hb)).
    destruct (decide (p <= x <= hi)); [rewrite decide_True by lia; f_equal; lia|by rewrite decide_False by lia].
Qed.

(** A piece inside the file reads as the file. *)
Lemma seglin_read_piece s off len buffer boff :
  (forall i, up i = true) -> lin_wf s -> 0 <= off -> 0 < len -> off + len <= total_size s ->
  forall y, (seglin_read_func [(off, len)] buffer boff s).1.2 y = overlay boff (slice (lin_view s) off len) buffer y.
Proof.
  intros Hup W Hoff Hlen Ht y. pose proof (search_tiled s off len W Hoff Hlen Ht) as Htl.
  unfold seglin_read_func. rewrite ops_to_run_piece by (intros E; rewrite E in Htl; simpl in Htl; lia). simpl.
  rewrite (run_block_reads_ok _ _ _ off _ _ _ (lin_view s)); [|done|done|].
  - case_decide.
    + unfold overlay. rewrite span_slice by lia. done.
    + rewrite overlay_out; [done|]. rewrite slice_length. lia.
  - intros b x [_ Hb]%ix_search_elem Hx; [|apply W|left; lia]. symmetry. apply lin_view_at; [apply W|done|done].
Qed.

(** A piece inside the file is laid over it. *)
Lemma seglin_write_piece s off len buffer boff :
  (forall i, up i = true) -> lin_wf s -> 0 <= off -> 0 < len -> off + len <= total_size s ->
  exists d, seglin_write_op [(off, len)] buffer boff s = (true, d) /\
    forall b x, b ∈ ix_list (isl s) -> inside b x ->
      block_bytes d (sl_data b) (sl_cap_offset b + (x - sl_seg_offset b)) =
      overlay off (slice buffer boff len) (lin_view s) x.
Proof.
  intros Hup W Hoff Hlen Ht. pose proof (search_tiled s off len W Hoff Hlen Ht) as Htl.
  unfold seglin_write_op. rewrite ops_to_run_piece by (intros E; rewrite E in Htl; simpl in Htl; lia).
  pose proof (run_block_writes_true (piece_ops off (off + len - 1) boff (ix_search off (off + len - 1) (isl s))) buffer (depot s) Hup) as Hok.
  eexists. split; [rewrite (surjective_pairing (run_block_writes _ _ _)); by rewrite Hok|].
  intros b x Hb Hx. destruct (decide (b ∈ ix_search off (off + len - 1) (isl s))) as [Hin|Hin].
  - rewrite (run_block_writes_ok _ _ off); [|done|done|apply ix_search_ivs; [apply W|left; lia]| |done|done].
    + case_decide.
      * unfold overlay. rewrite span_slice by lia. done.
      * rewrite overlay_out by (rewrite slice_length; lia). by rewrite (lin_view_at s b x (lw_index s W) Hb Hx).
    + intros b1 b2 [_ Hb1]%ix_search_elem [_ Hb2]%ix_search_elem; [|apply W || (left; lia)..]. by apply (lw_data s W).
  - rewrite run_block_writes_other; [|done|].
    + rewrite overlay_out; [by rewrite (lin_view_at s b x (lw_index s W) Hb Hx)|]. rewrite slice_length. intros Hxo.
      apply Hin, ix_search_elem; [apply W|left; lia|]. unfold overlaps, inside in *. split; [lia|done].
    + intros b' Hb' Hd. apply Hin. apply ix_search_elem in Hb' as Hb''; [|apply W|left; lia].
      by rewrite <- (lw_data s W b' b (proj2 Hb'') Hb Hd).
Qed.

(** A write past the end makes room for itself first. *)
Lemma write_extends s off len :
  (forall i, up i = true) -> lin_wf s -> lin_plain s -> 0 <= off -> 0 < len -> 0 < excess_block_size s ->
  exists s1,
    (if (off + len - 1 >=? total_size s) && (total_size s <? off + len - 1 + excess_block_size s)
     then '(_, s) ← sl_truncate (off + len - 1 + excess_block_size s) true s; mret s else mret s) = Ok s1 /\
    lin_wf s1 /\ lin_plain s1 /\ off + len <= total_size s1 /\ total_size s <= total_size s1 /\ used_size s1 = used_size s /\
    forall y, 0 <= y < total_size s -> lin_view s1 y = lin_view s y.
Proof.
  intros Hup W Hpl Hoff Hlen Hex. destruct (_ && _) eqn:E.
  - breflect. unfold sl_truncate. replace (_ <? 0) with false by (symmetry; apply Z.ltb_ge; lia).
    replace (total_size s >? _) with false by (symmetry; rewrite Z.gtb_ltb; apply Z.ltb_ge; lia).
    replace (total_size s <? _) with true by (symmetry; apply Z.ltb_lt; lia).
    destruct (sl_grow_ok s (off + len - 1 + excess_block_size s) true W Hpl ltac:(lia)) as (ok & s1 & -> & W1 & P1 & _ & Ht & _ & Hu & Hv).
    specialize (Ht eq_refl Hup). exists s1. split_and!; (done || lia).
  - exists s. apply andb_false_iff in E. split_and!; [done|done|done|destruct E; breflect; lia|done..].
Qed.

(** C16: a write of one piece to a well-formed linear segment whose data starts
    at the start of the allocations, with all depots reachable, a resource
    service that grants what is asked for and an excess block size that is not
    0, succeeds: the segment grows when the piece reaches past its end, stays a
    tiling, the bytes are laid over what the file held, every other byte is
    kept, the used size covers the piece, and reading the piece gives the
    bytes back. *)
Theorem seglin_write_ok s off len buffer boff :
  (forall i, up i = true) -> lin_wf s -> lin_plain s -> 0 <= off -> 0 < len -> 0 < excess_block_size s ->
  exists s', seglin_write_func [(off, len)] buffer boff true s = Ok (true, s') /\ lin_wf s' /\ lin_plain s' /\
    used_size s' = Z.max (used_size s) (off + len) /\ off + len <= total_size s' /\
    (forall x, 0 <= x < total_size s \/ off <= x < off + len ->
      lin_view s' x = overlay off (slice buffer boff len) (lin_view s) x) /\
    (forall buffer' y, (seglin_read_func [(off, len)] buffer' 0 s').1.2 y = overlay 0 (slice buffer boff len) buffer' y).
Proof.
  intros Hup W Hpl Hoff Hlen Hex.
  assert (Hmax : max_extent [(off, len)] = off + len - 1)
    by (unfold max_extent; cbn [foldl]; destruct (_ >? 0) eqn:E; breflect; lia).
  destruct (write_extends s off len Hup W Hpl Hoff Hlen Hex) as (s1 & Es & W1 & P1 & Ht & Hle & Hu & Hv). unfold seglin_write_func. rewrite Hmax, Es. cbn [mbind res_bind].
  destruct (seglin_write_piece s1 off len buffer boff Hup W1 Hoff Hlen Ht) as (d & -> & Hd).
  eexists. split; [done|].
  assert (W2 : forall u er, lin_wf (SegLin (isl s1) u (total_size s1) (max_block_size s1) (excess_block_size s1) er d (next_block s1)))
    by (intros; destruct W1; by split).
  assert (Hview : forall u er x, 0 <= x < total_size s1 ->
    lin_view (SegLin (isl s1) u (total_size s1) (max_block_size s1) (excess_block_size s1) er d (next_block s1)) x =
    overlay off (slice buffer boff len) (lin_view s1) x).
  { intros u er x Hx. destruct (lw_cover s1 W1 x Hx) as (b & Hb & Hbx).
    rewrite (lin_view_at _ b x (lw_index _ (W2 u er)) Hb Hbx). by apply Hd. }
  split; [apply W2|]. split; [exact P1|]. split; [cbn [used_size]; destruct (_ <=? _) eqn:E; breflect; lia|]. split; [done|]. split.
  - intros x Hx. rewrite Hview by lia. destruct (decide (off <= x < off + len)).
    + unfold overlay. by rewrite span_slice by lia.
    + rewrite !overlay_out by (rewrite slice_length; lia). apply Hv. lia.
  - intros buffer' y. rewrite seglin_read_piece by (done || apply W2). f_equal. apply slice_shift. intros i Hi.
    rewrite Hview by lia. unfold overlay. rewrite span_slice by lia. simpl. f_equal. lia.
Qed.

(** ** Requests the code gets wrong *)

Lemma block_op_inside off len b bpos :
  slot_ok (Z.max len (sl_len b)) (sl_seg_end b + 1) b -> sl_seg_offset b <= off -> off + len - 1 <= sl_seg_end b ->
  bo_len (block_op_of off (off + len - 1) bpos b) = len.
Proof. intros (? & ? & ? & ? & ?) ? ?. unfold block_op_of. simpl. repeat case_match; breflect; lia. Qed.

(** Two pieces, each inside one block: the operation of the first is
    overwritten by that of the second before anything queues it. *)
Lemma ops_to_run_second m o1 l1 o2 l2 boff b1 :
  ix_search o1 (o1 + l1 - 1) m = [b1] -> bo_len (block_op_of o1 (o1 + l1 - 1) boff b1) = l1 ->
  ix_search o2 (o2 + l2 - 1) m <> [] ->
  ops_to_run m [(o1, l1); (o2, l2)] boff = ops_to_run m [(o2, l2)] (boff + l1).
Proof.
  intros E1 Hl Hne. unfold ops_to_run. cbn [iov_ops]. rewrite E1. cbn [block_ops ol_q ol_bpos]. rewrite Hl.
  destruct (ix_search o2 _ m); done.
Qed.

(** A request that meets one block only finds that block. *)
Lemma search_single s lo hi b :
  lin_wf s -> lo <= hi -> b ∈ ix_list (isl s) -> overlaps lo hi b ->
  (forall w, w ∈ ix_list (isl s) -> overlaps lo hi w -> w = b) -> ix_search lo hi (isl s) = [b].
Proof.
  intros W Hle Hb Ho Hu. apply ivs_ext; [apply ix_search_ivs; [apply W|left; lia]|..].
  - apply ivs_ok_cons. split; [by apply (ix_proper _ b (lw_index s W))|]. split; [constructor|apply ivs_ok_nil].
  - intros w. rewrite ix_search_elem, list_elem_of_singleton by (apply W || (left; lia)). split; [intros [? ?]; by apply Hu|by intros ->].
Qed.

Lemma search_one s off len b :
  lin_wf s -> 0 < len -> b ∈ ix_list (isl s) -> sl_seg_offset b <= off -> off + len - 1 <= sl_seg_end b ->
  ix_search off (off + len - 1) (isl s) = [b].
Proof.
  intros W Hlen Hb Hlo Hhi. apply search_single; [done|lia|done|unfold overlaps; simpl; lia|].
  intros w Hw [? ?]. pose proof (ix_proper _ w (lw_index s W) Hw) as Hpw. simpl in *.
  apply (ix_disjoint _ w b (Z.max off (sl_seg_offset w)) (lw_index s W)); [done..| |]; unfold inside; simpl; lia.
Qed.

Lemma search_last s b :
  lin_wf s -> b ∈ ix_list (isl s) -> sl_seg_end b = total_size s - 1 ->
  ix_search (total_size s - 1) (total_size s) (isl s) = [b].
Proof.
  intros W Hb He. pose proof (ix_proper _ b (lw_index s W) Hb) as Hp. simpl in Hp.
  apply search_single; [done|lia|done|unfold overlaps; simpl; lia|]. intros w Hw [? ?].
  pose proof (lw_slot s W w Hw) as (? & ? & ? & ? & ?). simpl in *.
  apply (ix_disjoint _ w b (total_size s - 1) (lw_index s W)); [done..| |]; unfold inside; simpl; lia.
Qed.

Lemma grow_blocks_none room id off new max : new <= off -> grow_blocks room id off new max = Ok [].
Proof. intros ?. destruct room; simpl; replace (off <? new) with false by (symmetry; apply Z.ltb_ge; lia); done. Qed.

(** C40: a write of two pieces that each lie inside one block reports
    success, but only the second piece reaches the file: the bytes of the
    first keep their old values. *)
Theorem seglin_write_lost s b1 b2 o1 l1 o2 l2 buffer boff x :
  (forall i, up i = true) -> lin_wf s -> 0 < l1 -> 0 < l2 ->
  b1 ∈ ix_list (isl s) -> sl_seg_offset b1 <= o1 -> o1 + l1 - 1 <= sl_seg_end b1 ->
  b2 ∈ ix_list (isl s) -> sl_seg_offset b2 <= o2 -> o2 + l2 - 1 <= sl_seg_end b2 ->
  o1 <= x < o1 + l1 -> ~ (o2 <= x < o2 + l2) ->
  exists s', seglin_write_func [(o1, l1); (o2, l2)] buffer boff true s = Ok (true, s') /\
    lin_view s' x = lin_view s x.
Proof.
  intros Hup W Hl1 Hl2 Hb1 Ho1 He1 Hb2 Ho2 He2 Hx Hx2.
  pose proof (lw_slot s W b1 Hb1) as Hs1. pose proof (lw_slot s W b2 Hb2) as Hs2. unfold slot_ok in Hs1, Hs2.
  assert (Hmax : max_extent [(o1, l1); (o2, l2)] < total_size s).
  { unfold max_extent. cbn [foldl]. repeat case_match; breflect; lia. }
  unfold seglin_write_func. replace (_ >=? _) with false by (symmetry; rewrite Z.geb_leb; apply Z.leb_gt; lia).
  cbn [andb mbind res_bind mret res_ret]. unfold seglin_write_op.
  rewrite (ops_to_run_second _ _ _ _ _ _ b1);
    [|by apply search_one|apply block_op_inside; unfold slot_ok; lia|by rewrite (search_one s o2 l2 b2)].
  destruct (seglin_write_piece s o2 l2 buffer (boff + l1) Hup W) as (d & Ed & Hd); [lia..|].
  unfold seglin_write_op in Ed. rewrite Ed. eexists. split; [done|].
  rewrite (lin_view_at _ b1 x); [|apply W|done|unfold inside; simpl; lia]. simpl.
  rewrite Hd by (done || (unfold inside; simpl; lia)). apply overlay_out. rewrite slice_length. lia.
Qed.

(** Reserving exactly the space that a segment already has, when its
    last block is not full, succeeds and sets the last byte of the file to
    zero. *)
Theorem seglin_reserve_clobbers s b rs_ok :
  (forall i, up i = true) -> lin_wf s -> b ∈ ix_list (isl s) -> sl_seg_end b = total_size s - 1 ->
  sl_len b < max_block_size s ->
  exists s', sl_truncate (- total_size s) rs_ok s = Ok (true, s') /\ total_size s' = total_size s /\
    lin_view s' (total_size s - 1) = 0.
Proof.
  intros Hup W Hb He Hl. pose proof (lw_slot s W b Hb) as (? & ? & ? & ? & ?).
  pose proof (search_last s b W Hb He) as Es.
  assert (Eb : Slot (sl_data b) (sl_cap_offset b) (sl_seg_offset b) (total_size s - 1) (sl_len b) = b).
  { destruct b. simpl in *. by subst. }
  unfold sl_truncate. replace (- total_size s <? 0) with true by (symmetry; apply Z.ltb_lt; lia). unfold sl_grow.
  replace (- total_size s <? 0) with true by (symmetry; apply Z.ltb_lt; lia). cbn [andb].
  rewrite Z.opp_involutive, Z.ltb_irrefl.
  replace (max_block_size s =? 0) with false by (symmetry; apply Z.eqb_neq; lia). unfold grow_last.
  replace (total_size s >? 0) with true by (symmetry; rewrite Z.gtb_ltb; apply Z.ltb_lt; lia). rewrite Es.
  replace (sl_len b <? max_block_size s) with true by (symmetry; apply Z.ltb_lt; lia).
  replace (total_size s - sl_seg_offset b >? max_block_size s) with false by (symmetry; rewrite Z.gtb_ltb; apply Z.ltb_ge; lia).
  cbn [mbind res_bind]. rewrite grow_blocks_none by lia. cbn [mbind res_bind grow_resize]. unfold ds_truncate. rewrite Hup. cbn [andb grow_expanded app foldl].
  replace (sl_seg_offset b + (total_size s - sl_seg_offset b) - 1) with (total_size s - 1) by lia.
  replace (total_size s - sl_seg_offset b) with (sl_len b) by lia. rewrite Eb. cbn [grow_touch]. unfold ds_write. rewrite Hup.
  cbn [andb]. eexists. split; [done|]. split; [done|].
  destruct (ix_remove_ok b (isl s) (lw_index s W) Hb) as [Hm1 Hin1].
  destruct (ix_insert_ok b _ Hm1) as [Hm2 Hin2]; [simpl; lia|..].
  { intros w [Hne Hw]%Hin1 [? ?]. apply Hne. pose proof (ix_proper _ w (lw_index s W) Hw). simpl in *.
    apply (ix_disjoint _ w b (Z.max (sl_seg_offset b) (sl_seg_offset w)) (lw_index s W)); [done..| |]; unfold inside; simpl; lia. }
  rewrite (lin_view_at _ b); [|done|apply Hin2; by left|unfold inside; simpl; lia]. simpl. rewrite block_bytes_insert, decide_True by done.
  unfold overlay, span. rewrite decide_True by lia. replace (Z.to_nat _) with 0%nat by lia. done.
Qed.

End seglin.


(** ** Examples *)

(** Ten bytes in blocks of four; the last block is half full. *)
Definition lin_example : seglin_priv (list seglin_slot) :=
  SegLin [Slot 0 0 0 3 4; Slot 1 0 4 7 4; Slot 2 0 8 9 2] 10 10 4 5 0
    {[0%nat := fun x => x + 1; 1%nat := fun x => x + 5; 2%nat := fun x => x + 9]} 3.

Lemma lin_example_wf : lin_wf lin_example.
Proof.
  split; simpl; [|lia|lia|..].
  - repeat (apply ivs_ok_cons; split; [simpl; lia|split; [repeat constructor; unfold before; simpl; lia|]]). apply ivs_ok_nil.
  - intros b Hb. repeat (apply elem_of_cons in Hb as [->|Hb]; [unfold slot_ok; simpl; lia|]). by apply not_elem_of_nil in Hb.
  - intros x Hx. destruct (decide (x < 4)); [|destruct (decide (x < 8))].
    + exists (Slot 0 0 0 3 4). split; [by left|unfold inside; simpl; lia].
    + exists (Slot 1 0 4 7 4). split; [right; by left|unfold inside; simpl; lia].
    + exists (Slot 2 0 8 9 2). split; [right; right; by left|unfold inside; simpl; lia].
  - intros b Hb. repeat (apply elem_of_cons in Hb as [->|Hb]; [simpl; lia|]). by apply not_elem_of_nil in Hb.
  - intros b b' Hb Hb'. repeat (apply elem_of_cons in Hb as [->|Hb]; [repeat (apply elem_of_cons in Hb' as [->|Hb']; [done|]); by apply not_elem_of_nil in Hb'|]).
    by apply not_elem_of_nil in Hb.
Qed.

Lemma lin_example_plain : lin_plain lin_example.
Proof. intros b Hb. simpl in Hb. repeat (apply elem_of_cons in Hb as [->|Hb]; [done|]). by apply not_elem_of_nil in Hb. Qed.

Lemma seglin_truncate_ok_witness :
  exists ok s', sl_truncate (fun i => Nat.eqb i 2) 6 true lin_example = Ok (ok, s') /\ lin_wf s' /\ lin_plain s' /\
    (total_size s' = 6 \/ ok = false /\ same_file lin_example s' /\ total_size lin_example < 6) /\
    forall y, 0 <= y < Z.min 6 (total_size lin_example) -> lin_view s' y = lin_view lin_example y.
Proof. apply (seglin_truncate_ok (fun i => Nat.eqb i 2) lin_example 6 true lin_example_wf lin_example_plain). left. lia. Defined.

Lemma seglin_write_ok_witness :
  exists s', seglin_write_func (fun _ => true) [(7, 6)] (fun x => 100 + x) 0 true lin_example = Ok (true, s') /\ lin_wf s' /\ lin_plain s' /\
    used_size s' = Z.max (used_size lin_example) (7 + 6) /\ 7 + 6 <= total_size s' /\
    (forall x, 0 <= x < total_size lin_example \/ 7 <= x < 7 + 6 ->
      lin_view s' x = overlay 7 (slice (fun x => 100 + x) 0 6) (lin_view lin_example) x) /\
    (forall buffer' y, (seglin_read_func (fun _ => true) [(7, 6)] buffer' 0 s').1.2 y =
      overlay 0 (slice (fun x => 100 + x) 0 6) buffer' y).
Proof.
  apply (seglin_write_ok (fun _ => true) lin_example 7 6 (fun x => 100 + x) 0); [done|exact lin_example_wf|exact lin_example_plain|lia|lia|simpl; lia].
Defined.

Lemma seglin_write_lost_witness :
  exists s', seglin_write_func (fun _ => true) [(0, 2); (4, 3)] (fun x => 100 + x) 0 true lin_example = Ok (true, s') /\
    lin_view s' 1 = lin_view lin_example 1.
Proof.
  apply (seglin_write_lost (fun _ => true) lin_example (Slot 0 0 0 3 4) (Slot 1 0 4 7 4) 0 2 4 3 (fun x => 100 + x) 0 1);
    [done|exact lin_example_wf|lia|lia|by left|simpl; lia|simpl; lia|right; by left|simpl; lia|simpl; lia|lia|lia].
Defined.

Lemma seglin_reserve_clobbers_witness :
  lin_view lin_example 9 = 10 /\
  exists s', sl_truncate (fun _ => true) (- total_size lin_example) true lin_example = Ok (true, s') /\
    total_size s' = total_size lin_example /\ lin_view s' (total_size lin_example - 1) = 0.
Proof.
  split; [vm_compute; reflexivity|].
  apply (seglin_reserve_clobbers (fun _ => true) lin_example (Slot 2 0 8 9 2) true);
    [done|exact lin_example_wf|right; right; by left|done|simpl; lia].
Defined.

(** The size an allocation is truncated to does not count the offset at which
    its data starts: with four bytes from offset 3 on, shrinking the segment to
    two bytes loses these too, and growing it by one loses the last two. *)
Definition lin_offset : seglin_priv (list seglin_slot) := SegLin [Slot 0 3 0 3 4] 4 4 8 5 0 {[0%nat := fun x => x + 1]} 1.

Lemma seglin_cap_offset_lost :
  slice (lin_view lin_offset) 0 4 = [4; 5; 6; 7] /\
  (exists s', sl_truncate (fun _ => true) 2 true lin_offset = Ok (true, s') /\ slice (lin_view s') 0 2 = [0; 0]) /\
  (exists s', sl_truncate (fun _ => true) 5 true lin_offset = Ok (true, s') /\ slice (lin_view s') 0 4 = [4; 5; 0; 0]).
Proof. split; [by vm_compute|]. split; (eexists; split; [vm_compute; reflexivity|]; by vm_compute). Qed.
