(* ===== verification/OpQue.v ===== *)
(** * Operations and operation queues ([gop/gop.c], [gop/opque.c])

    An operation is handed to a portal, which completes it some time later on
    some thread.  A queue collects operations, starts them together, and lets
    its owners wait for one or for all of them.

    The queue's three stacks are the lists they stand for; [Stack] shows that
    the stack code implements them.  The locked parts of every routine are
    functions on the queue.  Threads are a step relation on top: clients call
    the interface, portals complete what was submitted, and the steps are the
    stretches of code between lock operations.  Tasks are plain operations,
    without callbacks of the user's own: a queue inside a queue, coalesced
    operations and destruction are not modelled. *)
From S2P Require Import Prelude.
Local Open Scope Z_scope.

Definition OP_STATE_SUCCESS : Z := 10.
Definition OP_STATE_FAILURE : Z := 20.
Definition OP_STATE_RETRY : Z := 30.
Definition OP_STATE_TIMEOUT : Z := 50.
Definition OP_FM_GET_END : Z := 22.

(** The parts of [gop_op_common_t] that change. *)
Record gop := Gop {
  g_status : Z;
  g_failure_mode : Z;
  g_state : bool;
  g_started : bool }.

(** [gop_que_data_t] with the common part of its own operation. *)
Record opque := OpQue {
  q_list : list nat;
  q_finished : list nat;
  q_failed : list nat;
  q_nleft : Z;
  q_nsubmitted : Z;
  q_finished_submission : bool;
  q_started : bool;
  q_retries : Z;
  q_failure_mode : Z;
  q_status : Z }.

(** [gop_op_generic_t]: an operation or a queue. *)
Inductive gop_op_generic :=
| GOp (g : gop)
| GQue (q : opque).

(** ** One operation or queue at a time *)

(** [gop_init] clears the operation, and so does [init_opque]. *)
Definition gop_init : gop := Gop 0 0 false false.

Definition init_opque : opque := OpQue [] [] [] 0 0 false false 0 0 0.

(** [_gop_completed_successfully]. *)
Definition gop_completed_successfully (x : gop_op_generic) : Z :=
  match x with
  | GQue q => match q_failed q with [] => q_status q | _ => OP_STATE_FAILURE end
  | GOp g => g_status g
  end.

(** A queue gives up the top of its stack; an operation gives itself once. *)
Definition gop_get_next_finished (self : nat) (x : gop_op_generic) : option nat * gop_op_generic :=
  match x with
  | GQue q =>
    match q_finished q with
    | [] => (None, x)
    | h :: t => (Some h, GQue (OpQue (q_list q) t (q_failed q) (q_nleft q) (q_nsubmitted q) (q_finished_submission q)
                           (q_started q) (q_retries q) (q_failure_mode q) (q_status q)))
    end
  | GOp g =>
    if g_failure_mode g =? OP_FM_GET_END then (None, x)
    else (Some self, GOp (Gop (g_status g) OP_FM_GET_END (g_state g) (g_started g)))
  end.

Definition gop_get_next_failed (self : nat) (x : gop_op_generic) : option nat * gop_op_generic :=
  match x with
  | GQue q =>
    match q_failed q with
    | [] => (None, x)
    | h :: t => (Some h, GQue (OpQue (q_list q) (q_finished q) t (q_nleft q) (q_nsubmitted q) (q_finished_submission q)
                           (q_started q) (q_retries q) (q_failure_mode q) (q_status q)))
    end
  | GOp g =>
    if g_failure_mode g =? OP_FM_GET_END then (None, x)
    else ((if g_status g =? OP_STATE_SUCCESS then None else Some self),
          GOp (Gop (g_status g) OP_FM_GET_END (g_state g) (g_started g)))
  end.

Definition gop_tasks_failed (x : gop_op_generic) : Z :=
  match x with
  | GQue q => Z.of_nat (length (q_failed q))
  | GOp g => if g_status g =? OP_STATE_SUCCESS then 0 else 1
  end.

Definition gop_tasks_finished (x : gop_op_generic) : Z :=
  match x with GQue q => Z.of_nat (length (q_finished q)) | GOp g => if g_state g then 1 else 0 end.

Definition gop_tasks_left (x : gop_op_generic) : Z :=
  match x with GQue q => q_nleft q | GOp g => if g_state g then 0 else 1 end.

Definition gop_will_block (x : gop_op_generic) : bool :=
  match x with
  | GQue q => (length (q_finished q) =? 0)%nat && (q_nleft q >? 0)
  | GOp g => negb (g_state g)
  end.

Definition opque_completion_status (q : opque) : Z :=
  match q_failed q with [] => q_status q | _ => OP_STATE_FAILURE end.

(** The second component says whether the condition is broadcast. *)
Definition gop_finished_submission (x : gop_op_generic) : gop_op_generic * bool :=
  match x with
  | GQue q =>
    (GQue (OpQue (q_list q) (q_finished q) (q_failed q) (q_nleft q) (q_nsubmitted q) true (q_started q) (q_retries q)
             (q_failure_mode q) (q_status q)), q_nleft q =? 0)
  | GOp g => (x, false)
  end.

(** [internal_gop_opque_add] up to the unlock. *)
Definition opque_add (g : nat) (q : opque) : opque :=
  OpQue (if q_started q then q_list q else q_list q ++ [g]) (q_finished q) (q_failed q) (q_nleft q + 1)
    (q_nsubmitted q + 1) (q_finished_submission q) (q_started q) (q_retries q) (q_failure_mode q) (q_status q).

(** [_opque_start_execution]: the operations to submit, in order. *)
Definition opque_start (q : opque) : list nat * opque :=
  if q_started q then ([], q)
  else (q_list q, OpQue [] (q_finished q) (q_failed q) (q_nleft q) (q_nsubmitted q) (q_finished_submission q) true
          (q_retries q) (q_failure_mode q) (q_status q)).

(** [_opque_cb]; no failure callback is set. *)
Definition opque_cb (g : nat) (status : Z) (q : opque) : opque :=
  let finished := q_finished q ++ [g] in
  let failed := if status =? OP_STATE_FAILURE then g :: q_failed q else q_failed q in
  let nleft := q_nleft q - 1 in
  if nleft <=? 0 then
    match failed with
    | [] => OpQue (q_list q) finished failed nleft (q_nsubmitted q) (q_finished_submission q) (q_started q) (q_retries q)
              (q_failure_mode q) OP_STATE_SUCCESS
    | _ =>
      if q_retries q =? 0
      then OpQue (q_list q) finished failed 0 (q_nsubmitted q) (q_finished_submission q) (q_started q) (q_retries q + 1) 0
             OP_STATE_FAILURE
      else OpQue (q_list q) finished failed nleft (q_nsubmitted q) (q_finished_submission q) (q_started q) (q_retries q)
             (q_failure_mode q) (q_status q)
    end
  else OpQue (q_list q) finished failed nleft (q_nsubmitted q) (q_finished_submission q) (q_started q) (q_retries q)
         (q_failure_mode q) (q_status q).

(** A queue with one operation that has not been started: [gop_waitany] and
    [gop_waitall] take it off the list and wait for it alone.  Only the
    former marks the queue as started. *)
Definition direct_exec (any : bool) (q : opque) : option (nat * opque) :=
  match q_list q, q_started q with
  | [g], false =>
    Some (g, OpQue [] (q_finished q) (q_failed q) (q_nleft q) (q_nsubmitted q) (q_finished_submission q) any
               (q_retries q) (q_failure_mode q) (q_status q))
  | _, _ => None
  end.

(** ** Threads *)

(** What a call returned. *)
Inductive ret := RStatus (st : Z) | RGop (g : option nat).

(** Where a client is.  [any] tells [gop_waitany] from [gop_waitall], [timed]
    the versions with a time limit; [slept] is their loop counter. *)
Inductive client :=
| Idle
| Adding (g : nat)
| Direct (any : bool) (g : nat)
| OneWait (any : bool) (g : nat) (asleep : bool)
| DirectPop
| QueWait (any timed slept asleep : bool)
| Returned (r : ret).

#[export] Instance ret_eq_dec : EqDecision ret.
Proof. solve_decision. Defined.
#[export] Instance client_eq_dec : EqDecision client.
Proof. solve_decision. Defined.

(** The queue, the operations, those the portals work on, those whose
    callback has run but which are not marked as completed yet.  The last
    three record the completions in order with their status, and what the
    clients were given of the finished and of the failed operations. *)
Record shared := Shared {
  s_q : opque;
  s_gops : gmap nat gop;
  s_portal : list nat;
  s_marking : list nat;
  s_log : list (nat * Z);
  s_taken : list nat;
  s_popped : list nat }.

Definition set_q (q : opque) (s : shared) : shared :=
  Shared q (s_gops s) (s_portal s) (s_marking s) (s_log s) (s_taken s) (s_popped s).

(** [gop_op_submit]. *)
Definition submit (g : nat) (s : shared) : shared :=
  Shared (s_q s) (alter (fun o => Gop (g_status o) (g_failure_mode o) (g_state o) true) g (s_gops s)) (s_portal s ++ [g])
    (s_marking s) (s_log s) (s_taken s) (s_popped s).

Definition start_execution (s : shared) : shared :=
  let '(gs, q) := opque_start (s_q s) in foldl (fun s g => submit g s) (set_q q s) gs.

(** [_gop_start_execution] of one operation. *)
Definition start_one (g : nat) (s : shared) : shared :=
  match s_gops s !! g with
  | Some o => if g_started o then s else submit g s
  | None => s
  end.

(** The client's share of [tbx_stack_pop] on the finished and failed stacks. *)
Definition pop_finished (s : shared) : option nat * shared :=
  match gop_get_next_finished 0 (GQue (s_q s)) with
  | (Some g, GQue q) =>
    (Some g, Shared q (s_gops s) (s_portal s) (s_marking s) (s_log s) (s_taken s ++ [g]) (s_popped s))
  | (o, _) => (o, s)
  end.

Definition pop_failed (s : shared) : option nat * shared :=
  match gop_get_next_failed 0 (GQue (s_q s)) with
  | (Some g, GQue q) =>
    (Some g, Shared q (s_gops s) (s_portal s) (s_marking s) (s_log s) (s_taken s) (g :: s_popped s))
  | (o, _) => (o, s)
  end.

(** One round of the loop of [gop_waitany] and [gop_waitany_timed] on a queue, *)
Definition waitany_check (timed slept : bool) (s : shared) : shared * client :=
  let again := (q_nleft (s_q s) >? 0) && negb (timed && slept) in
  match pop_finished s with
  | (Some g, s) => (s, Returned (RGop (Some g)))
  | (None, s) => (s, if again then QueWait true timed slept true else Returned (RGop None))
  end.

(** and of [gop_waitall] and [gop_timed_waitall]. *)
Definition waitall_check (timed slept : bool) (s : shared) : client :=
  let again := (q_nleft (s_q s) >? 0) && negb (timed && slept) in
  if again then QueWait false timed slept true
  else Returned (RStatus (if timed && (q_nleft (s_q s) >? 0) then OP_STATE_RETRY
                          else gop_completed_successfully (GQue (s_q s)))).

Definition que_check (any timed slept : bool) (s : shared) : shared * client :=
  if any then waitany_check timed slept s else (s, waitall_check timed slept s).

(** One round of the wait loops on an operation. *)
Definition one_check (any : bool) (g : nat) (s : shared) : client :=
  match s_gops s !! g with
  | Some o => if g_state o then (if any then DirectPop else Returned (RStatus (gop_completed_successfully (GOp o))))
              else OneWait any g true
  | None => OneWait any g true
  end.

Section threads.

(** Clients that add to a queue while another client starts it may submit an
    operation twice.  With [guarded] no client starts the queue while some
    client is between the two parts of an addition. *)
Context (guarded : bool).

Definition may_start (cs : list client) : Prop := guarded = true -> forall g, Adding g ∉ cs.

Inductive client_step (cs : list client) : shared -> client -> shared -> client -> Prop :=
| cs_add s g :
    s_gops s !! g = None ->
    client_step cs s Idle
      (Shared (opque_add g (s_q s)) (<[g := gop_init]> (s_gops s)) (s_portal s) (s_marking s) (s_log s) (s_taken s) (s_popped s))
      (Adding g)
| cs_added s g :
    client_step cs s (Adding g) (if q_started (s_q s) then submit g s else s) Idle
| cs_start s :
    may_start cs -> client_step cs s Idle (start_execution s) Idle
| cs_wait_direct any s g q :
    direct_exec any (s_q s) = Some (g, q) -> (any = true -> may_start cs) ->
    client_step cs s Idle (set_q q s) (Direct any g)
| cs_wait any s :
    direct_exec any (s_q s) = None -> may_start cs ->
    client_step cs s Idle (start_execution s) (QueWait any false false false)
| cs_wait_timed any s :
    may_start cs -> client_step cs s Idle (start_execution s) (QueWait any true false false)
| cs_direct any g s :
    client_step cs s (Direct any g) (start_one g s) (OneWait any g false)
| cs_one_check any g s :
    client_step cs s (OneWait any g false) s (one_check any g s)
| cs_one_wake any g s :
    client_step cs s (OneWait any g true) s (OneWait any g false)
| cs_direct_pop s :
    client_step cs s DirectPop (pop_finished s).2 (Returned (RGop (pop_finished s).1))
| cs_check any timed slept s :
    client_step cs s (QueWait any timed slept false) (que_check any timed slept s).1 (que_check any timed slept s).2
| cs_wake any timed slept s :
    client_step cs s (QueWait any timed slept true) s (QueWait any timed true false)
| cs_next_finished s :
    client_step cs s Idle (pop_finished s).2 (Returned (RGop (pop_finished s).1))
| cs_next_failed s :
    client_step cs s Idle (pop_failed s).2 (Returned (RGop (pop_failed s).1))
| cs_return r s :
    client_step cs s (Returned r) s Idle.

(** Broadcasts on the condition of the queue and of an operation. *)
Definition wake_q (c : client) : client :=
  match c with QueWait any timed slept true => QueWait any timed true false | _ => c end.
Definition wake_g (g : nat) (c : client) : client :=
  match c with OneWait any g' true => if decide (g' = g) then OneWait any g false else c | _ => c end.

Definition sys : Type := shared * list client.

(** [single_gop_mark_completed]: the status and the callback, *)
Definition complete (g : nat) (st : Z) (l1 l2 : list nat) (s : shared) : shared :=
  Shared (opque_cb g st (s_q s)) (alter (fun o => Gop st (g_failure_mode o) (g_state o) (g_started o)) g (s_gops s)) (l1 ++ l2)
    (s_marking s ++ [g]) (s_log s ++ [(g, st)]) (s_taken s) (s_popped s).

(** and then the state. *)
Definition mark (g : nat) (l1 l2 : list nat) (s : shared) : shared :=
  Shared (s_q s) (alter (fun o => Gop (g_status o) (g_failure_mode o) true (g_started o)) g (s_gops s)) (s_portal s) (l1 ++ l2)
    (s_log s) (s_taken s) (s_popped s).

Inductive step : sys -> sys -> Prop :=
| step_client s cs i c s' c' :
    cs !! i = Some c -> client_step cs s c s' c' -> step (s, cs) (s', <[i := c']> cs)
| step_complete s cs g st l1 l2 :
    s_portal s = l1 ++ g :: l2 -> step (s, cs) (complete g st l1 l2 s, wake_q <$> cs)
| step_mark s cs g l1 l2 :
    s_marking s = l1 ++ g :: l2 -> step (s, cs) (mark g l1 l2 s, wake_g g <$> cs)
| step_finished_submission s cs i q b :
    cs !! i = Some Idle -> gop_finished_submission (GQue (s_q s)) = (GQue q, b) ->
    step (s, cs) (set_q q s, if b then wake_q <$> cs else cs).

Definition init (n : nat) : sys := (Shared init_opque ∅ [] [] [] [] [], replicate n Idle).

Definition reach (n : nat) : sys -> Prop := rtc step (init n).

End threads.

(** ** The invariant *)

(** The operations a client is about to submit. *)
Definition pending (started : bool) (c : client) : list nat :=
  match c with
  | Adding g => if started then [g] else []
  | Direct _ g => [g]
  | _ => []
  end.

(** The state of the queue; [P] are the operations that clients are about to
    submit.  Every operation is in exactly one place. *)
Record core (s : shared) (P : list nat) : Prop := Core {
  c_nodup : NoDup (q_list (s_q s) ++ P ++ s_portal s ++ (s_log s).*1);
  c_nleft : q_nleft (s_q s) = Z.of_nat (length (q_list (s_q s) ++ P ++ s_portal s));
  c_nsub : q_nsubmitted (s_q s) = q_nleft (s_q s) + Z.of_nat (length (s_log s));
  c_log : (s_log s).*1 = s_taken s ++ q_finished (s_q s);
  c_failed : q_failed (s_q s) ++ s_popped s ≡ₚ (filter (fun e => e.2 = OP_STATE_FAILURE) (s_log s)).*1;
  c_status : q_nleft (s_q s) = 0 -> s_log s <> [] -> Forall (fun e => e.2 <> OP_STATE_FAILURE) (s_log s) ->
    q_status (s_q s) = OP_STATE_SUCCESS;
  c_status0 : s_log s = [] -> q_status (s_q s) = 0 /\ q_failed (s_q s) = [];
  c_started : q_started (s_q s) = true -> q_list (s_q s) = [];
  c_new g : g ∈ q_list (s_q s) ++ P -> s_gops s !! g = Some gop_init;
  c_portal g : g ∈ s_portal s -> exists o, s_gops s !! g = Some o /\ g_state o = false;
  c_done g st : (g, st) ∈ s_log s ->
    exists o, s_gops s !! g = Some o /\ g_status o = st /\ (g_state o = true \/ g ∈ s_marking s);
  c_dom g : is_Some (s_gops s !! g) -> g ∈ q_list (s_q s) ++ P ++ s_portal s ++ (s_log s).*1;
  c_marking g : g ∈ s_marking s -> g ∈ (s_log s).*1 }.

#[export] Instance core_proper s : Proper ((≡ₚ) ==> iff) (core s).
Proof.
  assert (Himp : forall P P', P ≡ₚ P' -> core s P -> core s P').
  { intros P P' HP [H1 H2 H3 H4 H5 H6 H7 H8 H9 H10 H11 H12 H13]. split; try done; [by rewrite <- HP|by rewrite <- HP|..].
    all: intros g; rewrite <- HP; auto. }
  intros P P' HP. split; by apply Himp.
Qed.

Section core.
Implicit Types (s : shared) (P : list nat) (g : nat).

Lemma lookup_alter_is_Some (f : gop -> gop) (m : gmap nat gop) g g' : is_Some (alter f g m !! g') <-> is_Some (m !! g').
Proof.
  destruct (decide (g = g')) as [->|Hn]; [by rewrite lookup_alter_eq, fmap_is_Some|by rewrite lookup_alter_ne].
Qed.

Lemma core_fresh s P g :
  core s P -> s_gops s !! g = None -> g ∉ q_list (s_q s) ++ P ++ s_portal s ++ (s_log s).*1.
Proof.
  intros C Hg Hin. rewrite app_assoc, elem_of_app in Hin. destruct Hin as [Hin|Hin].
  { by rewrite (c_new s P C g Hin) in Hg. }
  apply elem_of_app in Hin as [Hin|Hin].
  - destruct (c_portal s P C g Hin) as (o & Ho & _). congruence.
  - apply list_elem_of_fmap in Hin as ([g' st] & -> & Hin). destruct (c_done s P C _ _ Hin) as (o & Ho & _). simpl in Hg. congruence.
Qed.

Lemma core_add s P g :
  s_gops s !! g = None -> core s P ->
  core (Shared (opque_add g (s_q s)) (<[g := gop_init]> (s_gops s)) (s_portal s) (s_marking s) (s_log s) (s_taken s) (s_popped s))
    (if q_started (s_q s) then g :: P else P).
Proof.
  intros Hg C. pose proof (core_fresh s P g C Hg) as Hf.
  assert (Hall : q_list (opque_add g (s_q s)) ++ (if q_started (s_q s) then g :: P else P) ≡ₚ g :: q_list (s_q s) ++ P).
  { simpl. destruct (q_started (s_q s)); perm_solve. }
  assert (Hne : forall g', g' ∈ q_list (s_q s) ++ P ++ s_portal s ++ (s_log s).*1 -> <[g := gop_init]> (s_gops s) !! g' = s_gops s !! g').
  { intros g' Hg'. apply lookup_insert_ne. intros ->. done. }
  split; cbn [s_q s_gops s_portal s_marking s_log s_taken s_popped].
  - rewrite app_assoc, Hall. simpl. rewrite <- app_assoc. constructor; [done|apply C].
  - rewrite app_assoc, Hall. simpl. rewrite (c_nleft s P C), !length_app. simpl. lia.
  - simpl. rewrite (c_nsub s P C). lia.
  - apply C.
  - apply C.
  - simpl. pose proof (c_nleft s P C). lia.
  - apply C.
  - simpl. intros E. rewrite E. by apply C.
  - intros g'. rewrite Hall, elem_of_cons. intros [->|Hin]; [apply lookup_insert_eq|].
    rewrite Hne by set_solver. by apply (c_new s P C).
  - intros g' Hin. rewrite Hne by set_solver. by apply (c_portal s P C).
  - intros g' st Hin. rewrite Hne; [by apply (c_done s P C)|]. apply (list_elem_of_fmap_2 fst) in Hin. set_solver.
  - intros g'. rewrite app_assoc, Hall. destruct (decide (g = g')) as [->|Hn]; [set_solver|].
    rewrite lookup_insert_ne by done. intros Hd%(c_dom s P C). set_solver.
  - apply C.
Qed.

Lemma core_submit s P g : core s (g :: P) -> core (submit g s) P.
Proof.
  intros C. pose proof (c_nodup _ _ C) as Hnd.
  assert (Hall : q_list (s_q s) ++ P ++ (s_portal s ++ [g]) ++ (s_log s).*1 ≡ₚ q_list (s_q s) ++ (g :: P) ++ s_portal s ++ (s_log s).*1)
    by perm_solve.
  assert (Hg : g ∉ q_list (s_q s) ++ P ++ s_portal s ++ (s_log s).*1).
  { rewrite <- app_comm_cons, <- Permutation_middle in Hnd. by apply NoDup_cons in Hnd as [? _]. }
  split; cbn [submit s_q s_gops s_portal s_marking s_log s_taken s_popped].
  - by rewrite Hall.
  - rewrite (c_nleft _ _ C). f_equal. apply Permutation_length. perm_solve.
  - apply C.
  - apply C.
  - apply C.
  - apply C.
  - apply C.
  - apply C.
  - intros g' Hin. rewrite lookup_alter_ne by (intros ->; set_solver). apply (c_new _ _ C). set_solver.
  - intros g' [Hin|Hin]%elem_of_app; [|apply list_elem_of_singleton in Hin as ->].
    + rewrite lookup_alter_ne by (intros ->; set_solver). by apply (c_portal _ _ C).
    + rewrite lookup_alter_eq, (c_new _ _ C) by set_solver. by eexists.
  - intros g' st Hin. rewrite lookup_alter_ne; [by apply (c_done _ _ C)|].
    intros ->. apply (list_elem_of_fmap_2 fst) in Hin. simpl in Hin. set_solver.
  - intros g' Hd. rewrite Hall. apply (c_dom _ _ C). by rewrite lookup_alter_is_Some in Hd.
  - apply C.
Qed.

Lemma core_submits gs s P : core s (gs ++ P) -> core (foldl (fun s g => submit g s) s gs) P.
Proof. revert s. induction gs as [|g gs IH]; intros s C; [done|]. simpl. by apply IH, core_submit. Qed.

(** A change of the queue alone that moves the list to the pending ones. *)
Lemma core_take s P q :
  core s P -> q_list q = [] -> q_finished q = q_finished (s_q s) -> q_failed q = q_failed (s_q s) ->
  q_nleft q = q_nleft (s_q s) -> q_nsubmitted q = q_nsubmitted (s_q s) -> q_status q = q_status (s_q s) ->
  core (set_q q s) (q_list (s_q s) ++ P).
Proof.
  intros C Hl Hfi Hfa Hn Hs Hst. destruct C as [H1 H2 H3 H4 H5 H6 H7 H8 H9 H10 H11 H12 H13].
  split; cbn [set_q s_q s_gops s_portal s_marking s_log s_taken s_popped];
    rewrite ?Hl, ?Hfi, ?Hfa, ?Hn, ?Hs, ?Hst, <- ?app_assoc; done.
Qed.

Lemma core_start s P : core s P -> core (start_execution s) P.
Proof.
  intros C. unfold start_execution, opque_start. destruct (q_started (s_q s)) eqn:E; [by destruct s|].
  apply core_submits. by apply core_take.
Qed.

Lemma core_direct s P any g q : direct_exec any (s_q s) = Some (g, q) -> core s P -> core (set_q q s) (g :: P).
Proof.
  intros Hd C. unfold direct_exec in Hd. destruct (q_list (s_q s)) as [|g0 [|]] eqn:El, (q_started (s_q s)) eqn:Es; try done.
  injection Hd as -> <-. pose proof (core_take s P (OpQue [] (q_finished (s_q s)) (q_failed (s_q s)) (q_nleft (s_q s))
    (q_nsubmitted (s_q s)) (q_finished_submission (s_q s)) any (q_retries (s_q s)) (q_failure_mode (s_q s)) (q_status (s_q s))) C) as H.
  rewrite El in H. by apply H.
Qed.

Lemma core_start_one s P g : core s (g :: P) -> core (start_one g s) P.
Proof.
  intros C. unfold start_one. rewrite (c_new _ _ C g) by set_solver. simpl. by apply core_submit.
Qed.

Lemma core_pop_finished s P : core s P -> core (pop_finished s).2 P.
Proof.
  intros C. unfold pop_finished. simpl. destruct (q_finished (s_q s)) as [|g l] eqn:E; [done|].
  destruct C as [H1 H2 H3 H4 H5 H6 H7 H8 H9 H10 H11 H12 H13]. split; simpl; try done.
  by rewrite <- app_assoc, H4, E.
Qed.

Lemma core_pop_failed s P : core s P -> core (pop_failed s).2 P.
Proof.
  intros C. unfold pop_failed. simpl. destruct (q_failed (s_q s)) as [|g l] eqn:E; [done|].
  destruct C as [H1 H2 H3 H4 H5 H6 H7 H8 H9 H10 H11 H12 H13]. split; simpl; try done.
  - rewrite <- H5, E. perm_solve.
  - intros Hl. destruct (H7 Hl). congruence.
Qed.

Lemma core_finished_submission s P q b :
  gop_finished_submission (GQue (s_q s)) = (GQue q, b) -> core s P -> core (set_q q s) P.
Proof. intros Hq C. injection Hq as <- <-. destruct C. by split. Qed.

Lemma core_mark s P g l1 l2 : s_marking s = l1 ++ g :: l2 -> core s P -> core (mark g l1 l2 s) P.
Proof.
  intros Hm C. assert (Hg : g ∈ (s_log s).*1) by (apply (c_marking _ _ C); rewrite Hm; set_solver). pose proof (c_nodup _ _ C) as Hnd.
  assert (Hne : forall g', g' ∈ q_list (s_q s) ++ P ++ s_portal s -> g' <> g).
  { intros g' Hin ->. rewrite !app_assoc, NoDup_app in Hnd. destruct Hnd as (_ & Hnd & _). apply (Hnd g); [|done]. set_solver. }
  destruct C as [H1 H2 H3 H4 H5 H6 H7 H8 H9 H10 H11 H12 H13].
  split; cbn [mark s_q s_gops s_portal s_marking s_log s_taken s_popped]; try done.
  - intros g' Hin. rewrite lookup_alter_ne; [by apply H9|]. intros ->. apply (Hne g'); [set_solver|done].
  - intros g' Hin. rewrite lookup_alter_ne; [by apply H10|]. intros ->. apply (Hne g'); [set_solver|done].
  - intros g' st Hin. destruct (H11 g' st Hin) as (o & Ho & Hst & Hd). destruct (decide (g = g')) as [->|Hn].
    + rewrite lookup_alter_eq, Ho. eexists. split; [done|]. split; [done|by left].
    + rewrite lookup_alter_ne by done. exists o. split_and!; [done..|]. destruct Hd as [?|Hin']; [by left|right].
      rewrite Hm in Hin'. set_solver.
  - intros g' Hd. apply H12. by rewrite lookup_alter_is_Some in Hd.
  - intros g' Hin. apply H13. rewrite Hm. set_solver.
Qed.

(** What the callback does to the parts of the queue the invariant speaks of. *)
Lemma opque_cb_fields g st q :
  1 <= q_nleft q ->
  let q' := opque_cb g st q in
  q_list q' = q_list q /\ q_finished q' = q_finished q ++ [g] /\
  q_failed q' = (if decide (st = OP_STATE_FAILURE) then [g] else []) ++ q_failed q /\
  q_nleft q' = q_nleft q - 1 /\ q_nsubmitted q' = q_nsubmitted q /\ q_started q' = q_started q /\
  (q_nleft q' = 0 -> q_failed q' = [] -> q_status q' = OP_STATE_SUCCESS).
Proof.
  intros Hn. unfold opque_cb. destruct (st =? OP_STATE_FAILURE) eqn:E; breflect.
  - rewrite decide_True by done. destruct (_ <=? 0) eqn:E2, (q_retries q =? 0) eqn:E3; breflect; simpl; split_and!; done || lia.
  - rewrite decide_False by done. destruct (_ <=? 0) eqn:E2, (q_retries q =? 0) eqn:E3, (q_failed q) eqn:E4; breflect; simpl;
      rewrite ?E4; split_and!; done || lia.
Qed.

Lemma no_failures (log : list (nat * Z)) :
  Forall (fun e => e.2 <> OP_STATE_FAILURE) log <-> filter (fun e => e.2 = OP_STATE_FAILURE) log = [].
Proof.
  induction log as [|e log IH]; [done|]. rewrite Forall_cons, filter_cons, IH. case_decide; naive_solver.
Qed.

Lemma core_no_failures s P : core s P -> Forall (fun e => e.2 <> OP_STATE_FAILURE) (s_log s) -> q_failed (s_q s) = [].
Proof.
  intros C Hf%no_failures. pose proof (c_failed _ _ C) as Hp. rewrite Hf in Hp. simpl in Hp.
  symmetry in Hp. apply Permutation_nil in Hp. by apply app_eq_nil in Hp as [-> _].
Qed.

Lemma core_complete s P g st l1 l2 : s_portal s = l1 ++ g :: l2 -> core s P -> core (complete g st l1 l2 s) P.
Proof.
  intros Hp C. pose proof (c_nodup _ _ C) as Hnd. pose proof (c_nleft _ _ C) as Hl.
  assert (Hall : q_list (s_q s) ++ P ++ (l1 ++ l2) ++ (s_log s).*1 ++ [g] ≡ₚ q_list (s_q s) ++ P ++ s_portal s ++ (s_log s).*1)
    by (rewrite Hp; perm_solve).
  assert (Hg : g ∉ q_list (s_q s) ++ P ++ (l1 ++ l2) ++ (s_log s).*1).
  { rewrite <- Hall in Hnd. rewrite !app_assoc in Hnd. rewrite <- Permutation_cons_append in Hnd. apply NoDup_cons in Hnd as [? _]. by rewrite !app_assoc. }
  destruct (opque_cb_fields g st (s_q s)) as (Ql & Qfi & Qfa & Qn & Qs & Qst & Qok).
  { rewrite Hl, Hp, !length_app. simpl. lia. }
  split; cbn [complete s_q s_gops s_portal s_marking s_log s_taken s_popped]; rewrite ?Ql, ?Qfi, ?Qn, ?Qs, ?Qst, ?fmap_app.
  - by rewrite Hall.
  - rewrite Hl, Hp, !length_app. simpl. lia.
  - rewrite (c_nsub _ _ C), length_app. simpl. lia.
  - rewrite (c_log _ _ C), <- app_assoc. done.
  - rewrite filter_app, fmap_app, <- (c_failed _ _ C), Qfa.
    rewrite filter_cons. simpl. destruct (decide (st = OP_STATE_FAILURE)); simpl; [perm_solve|by rewrite app_nil_r].
  - intros Hn0 _ Hall'. rewrite Forall_app in Hall'. destruct Hall' as [Hf1 Hf2]. apply Qok; [lia|].
    rewrite Forall_singleton in Hf2. rewrite Qfa. destruct (decide (st = OP_STATE_FAILURE)); [done|]. simpl.
    apply (core_no_failures _ _ C Hf1).
  - by intros []%app_nil.
  - apply C.
  - intros g' Hin. rewrite lookup_alter_ne by (intros ->; set_solver). by apply (c_new _ _ C).
  - intros g' Hin. rewrite lookup_alter_ne by (intros ->; set_solver). apply (c_portal _ _ C). rewrite Hp. set_solver.
  - intros g' st' [Hin|Hin]%elem_of_app.
    + rewrite lookup_alter_ne; [|intros ->; apply (list_elem_of_fmap_2 fst) in Hin; simpl in Hin; set_solver].
      destruct (c_done _ _ C _ _ Hin) as (o & ? & ? & Hd). exists o. split_and!; [done..|]. set_solver.
    + apply list_elem_of_singleton in Hin as [= -> ->]. destruct (c_portal _ _ C g) as (o & Ho & _); [rewrite Hp; set_solver|].
      rewrite lookup_alter_eq, Ho. eexists. split; [done|]. split; [done|]. set_solver.
  - intros g' Hd. simpl. rewrite Hall. apply (c_dom _ _ C). by rewrite lookup_alter_is_Some in Hd.
  - intros g' [Hin|Hin]%elem_of_app; [|set_solver]. apply elem_of_app. left. by apply (c_marking _ _ C).
Qed.

End core.

(** ** Clients *)

Definition pend (s : shared) (cs : list client) : list nat := cs ≫= pending (q_started (s_q s)).

Lemma pend_middle s l1 c l2 : pend s (l1 ++ c :: l2) ≡ₚ pending (q_started (s_q s)) c ++ pend s (l1 ++ l2).
Proof. unfold pend. rewrite !bind_app, bind_cons. perm_solve. Qed.

Lemma pend_calm s s' cs : (forall g, Adding g ∉ cs) -> pend s cs = pend s' cs.
Proof.
  unfold pend. induction cs as [|c cs IH]; intros Hc; [done|]. rewrite !bind_cons.
  rewrite IH by (intros g Hg; apply (Hc g); by right). f_equal. destruct c; try done. destruct (Hc g). by left.
Qed.

Lemma pend_started s s' cs : q_started (s_q s') = q_started (s_q s) -> pend s' cs = pend s cs.
Proof. unfold pend. by intros ->. Qed.

(** What a waiting client relies on. *)
Definition client_ok (s : shared) (c : client) : Prop :=
  match c with
  | QueWait any _ _ asleep =>
    q_started (s_q s) = true /\
    (asleep = true -> 0 < q_nleft (s_q s) /\ (any = true -> q_finished (s_q s) = []))
  | OneWait _ g asleep =>
    (g ∈ s_portal s \/ g ∈ (s_log s).*1) /\ (asleep = true -> g ∈ s_portal s \/ g ∈ s_marking s)
  | _ => True
  end.

(** Steps of other clients keep it. *)
Record keeps (s s' : shared) : Prop := Keeps {
  k_started : q_started (s_q s) = true -> q_started (s_q s') = true;
  k_nleft : q_nleft (s_q s) <= q_nleft (s_q s');
  k_finished : q_finished (s_q s) = [] -> q_finished (s_q s') = [];
  k_portal g : g ∈ s_portal s -> g ∈ s_portal s';
  k_log : s_log s' = s_log s;
  k_marking : s_marking s' = s_marking s }.

#[export] Instance keeps_preorder : PreOrder keeps.
Proof.
  split; [by split|]. intros s1 s2 s3 [] []. split; [auto|lia|auto|auto|congruence|congruence].
Qed.

Lemma client_ok_keeps s s' c : keeps s s' -> client_ok s c -> client_ok s' c.
Proof.
  intros K. destruct c; try done; simpl; rewrite ?(k_log _ _ K), ?(k_marking _ _ K).
  - intros [Hg Ha]. split; [destruct Hg; [left; by apply (k_portal _ _ K)|by right]|].
    intros E. destruct (Ha E); [left; by apply (k_portal _ _ K)|by right].
  - intros [Hs Ha]. split; [by apply (k_started _ _ K)|]. intros E. destruct (Ha E) as [? Hf].
    split; [pose proof (k_nleft _ _ K); lia|]. intros Ea. apply (k_finished _ _ K). by apply Hf.
Qed.

Lemma keeps_submit g s : keeps s (submit g s).
Proof. split; try done. simpl. set_solver. Qed.

Lemma keeps_submits gs s : keeps s (foldl (fun s g => submit g s) s gs).
Proof. revert s. induction gs as [|g gs IH]; intros s; simpl; [done|]. etransitivity; [apply (keeps_submit g)|apply IH]. Qed.

Lemma keeps_start s : keeps s (start_execution s).
Proof.
  unfold start_execution, opque_start. destruct (q_started (s_q s)) eqn:E; [by destruct s|].
  etransitivity; [|apply keeps_submits]. by split.
Qed.

Lemma keeps_pop_finished s : keeps s (pop_finished s).2.
Proof. unfold pop_finished. simpl. destruct (q_finished (s_q s)) eqn:E; [done|]. split; try done. simpl. by rewrite E. Qed.

Lemma keeps_pop_failed s : keeps s (pop_failed s).2.
Proof. unfold pop_failed. simpl. destruct (q_failed (s_q s)) eqn:E; [done|]. by split. Qed.

Lemma submits_started gs s : q_started (s_q (foldl (fun s g => submit g s) s gs)) = q_started (s_q s).
Proof. revert s. induction gs as [|g gs IH]; intros s; simpl; [done|]. by rewrite IH. Qed.

Lemma start_started s : q_started (s_q (start_execution s)) = true.
Proof.
  unfold start_execution, opque_start. destruct (q_started (s_q s)) eqn:E; [by destruct s|].
  by rewrite submits_started.
Qed.

Lemma pop_finished_started s : q_started (s_q (pop_finished s).2) = q_started (s_q s).
Proof. unfold pop_finished. simpl. by destruct (q_finished (s_q s)). Qed.

Lemma pop_failed_started s : q_started (s_q (pop_failed s).2) = q_started (s_q s).
Proof. unfold pop_failed. simpl. by destruct (q_failed (s_q s)). Qed.

Lemma que_check_shared any timed slept s : (que_check any timed slept s).1 = if any then (pop_finished s).2 else s.
Proof. unfold que_check, waitany_check. destruct any; [|done]. by destruct (pop_finished s) as [[g|] s']. Qed.

Lemma que_check_pending any timed slept s b : pending b (que_check any timed slept s).2 = [].
Proof.
  unfold que_check, waitany_check, waitall_check. destruct any; [destruct (pop_finished s) as [[g|] s']|]; simpl; by try case_match.
Qed.

Lemma one_check_pending any g s b : pending b (one_check any g s) = [].
Proof. unfold one_check. repeat case_match; done. Qed.

Section guarded.
Implicit Types (s : shared) (c : client) (cs : list client).

Lemma client_step_keeps b cs s c s' c' : client_step b cs s c s' c' -> keeps s s'.
Proof.
  destruct 1 as [s g Hg|s g|s|any s g q Hd ?|any s Hd ?|any s|any g s|any g s|any g s|s|any timed slept s|any timed slept s|s|s|r s];
    try done; try apply keeps_start; try apply keeps_pop_finished; try apply keeps_pop_failed.
  - split; try done. simpl. lia.
  - destruct (q_started (s_q s)); [apply keeps_submit|done].
  - unfold direct_exec in Hd. destruct (q_list (s_q s)) as [|g0 [|]], (q_started (s_q s)) eqn:E; try done.
    injection Hd as -> <-. split; try done. simpl. congruence.
  - unfold start_one. repeat case_match; try done. apply keeps_submit.
  - rewrite que_check_shared. destruct any; [apply keeps_pop_finished|done].
Qed.

(** The operations a step leaves behind to be submitted. *)
Lemma client_step_core l1 l2 s c s' c' :
  client_step true (l1 ++ c :: l2) s c s' c' -> core s (pend s (l1 ++ c :: l2)) -> core s' (pend s' (l1 ++ c' :: l2)).
Proof.
  intros Hstep. rewrite !pend_middle.
  assert (Hcalm : may_start true (l1 ++ c :: l2) -> forall g, Adding g ∉ l1 ++ l2) by (intros Hm g Hg; apply (Hm eq_refl g); set_solver).
  destruct Hstep as [s g Hg|s g|s Hm|any s g q Hd Hm|any s Hd Hm|any s Hm|any g s|any g s|any g s|s|any timed slept s|any timed slept s|s|s|r s]; simpl.
  - intros C. rewrite (pend_started s) by done. apply (core_add s _ g Hg) in C. simpl. by destruct (q_started (s_q s)).
  - intros C. rewrite (pend_started s) by (destruct (q_started (s_q s)) eqn:E; exact E). destruct (q_started (s_q s)); [by apply core_submit|done].
  - intros C. rewrite (pend_calm _ s) by exact (Hcalm Hm). by apply core_start.
  - intros C. apply (core_direct s _ any g q Hd) in C. destruct any.
    + rewrite (pend_calm _ s) by exact (Hcalm (Hm eq_refl)). done.
    + rewrite (pend_started s); [done|]. unfold direct_exec in Hd.
      destruct (q_list (s_q s)) as [|g0 [|]], (q_started (s_q s)) eqn:E; try done. by injection Hd as -> <-.
  - intros C. rewrite (pend_calm _ s) by exact (Hcalm Hm). by apply core_start.
  - intros C. rewrite (pend_calm _ s) by exact (Hcalm Hm). by apply core_start.
  - intros C. rewrite (pend_started s) by (unfold start_one; repeat case_match; done). by apply core_start_one.
  - by rewrite one_check_pending.
  - done.
  - intros C. rewrite (pend_started s) by apply pop_finished_started. by apply core_pop_finished.
  - intros C. rewrite que_check_pending. rewrite (pend_started s) by (rewrite que_check_shared; destruct any; [apply pop_finished_started|done]).
    rewrite que_check_shared. destruct any; [by apply core_pop_finished|done].
  - done.
  - intros C. rewrite (pend_started s) by apply pop_finished_started. by apply core_pop_finished.
  - intros C. rewrite (pend_started s) by apply pop_failed_started. by apply core_pop_failed.
  - done.
Qed.

Lemma client_step_ok cs s c s' c' P :
  client_step true cs s c s' c' -> core s (pending (q_started (s_q s)) c ++ P) -> client_ok s c -> client_ok s' c'.
Proof.
  destruct 1 as [s g Hg|s g|s Hm|any s g q Hd Hm|any s Hd Hm|any s Hm|any g s|any g s|any g s|s|any timed slept s|any timed slept s|s|s|r s];
    try done; intros C Hc.
  - split; [apply start_started|done].
  - split; [apply start_started|done].
  - simpl in C. unfold start_one. rewrite (c_new _ _ C g) by set_solver. simpl. split; [left; set_solver|done].
  - destruct Hc as [Hin _]. unfold one_check. destruct Hin as [Hin|Hin].
    + destruct (c_portal _ _ C g Hin) as (o & -> & ->). simpl. by split; [left|left].
    + apply list_elem_of_fmap in Hin as ([g' st] & -> & Hin). destruct (c_done _ _ C _ _ Hin) as (o & Ho & _ & Hd). simpl in *. rewrite Ho.
      apply (list_elem_of_fmap_2 fst) in Hin. destruct (g_state o); [by destruct any|]. destruct Hd as [?|Hd]; [done|]. by split; [right|right].
  - destruct Hc as [Hin _]. by split.
  - destruct Hc as [Hs _]. unfold que_check, waitany_check, waitall_check, pop_finished. destruct any; cbn [gop_get_next_finished snd].
    + destruct (q_finished (s_q s)) eqn:E; [|done]. destruct (_ && _) eqn:Ea; [|done]. breflect. simpl. split; [done|]. intros _. split; [lia|done].
    + destruct (_ && _) eqn:Ea; [|done]. breflect. simpl. split; [done|]. intros _. split; [lia|done].
  - destruct Hc as [Hs _]. by split.
Qed.

Definition inv (x : sys) : Prop := core x.1 (pend x.1 x.2) /\ forall c, c ∈ x.2 -> client_ok x.1 c.

(** Broadcasts keep the invariant when each client is fine after waking up. *)
Lemma opinv_wake f s s' cs :
  (forall b c, pending b (f c) = pending b c) -> (forall c, client_ok s c -> client_ok s' (f c)) ->
  q_started (s_q s') = q_started (s_q s) -> (core s (pend s cs) -> core s' (pend s cs)) ->
  inv (s, cs) -> inv (s', f <$> cs).
Proof.
  intros Hp Hok Hs Hcore [C Hc]. split; simpl in *.
  - assert (Hpend : pend s' (f <$> cs) = pend s cs).
    { unfold pend. rewrite Hs. clear -Hp. induction cs as [|c cs IH]; [done|]. by rewrite fmap_cons, !bind_cons, Hp, IH. }
    rewrite Hpend. by apply Hcore.
  - intros c (c0 & -> & Hin)%list_elem_of_fmap. by apply Hok, Hc.
Qed.

Lemma opinv_step x y : step true x y -> inv x -> inv y.
Proof.
  destruct 1 as [s cs i c s' c' Hi Hs|s cs g st l1 l2 Hp|s cs g l1 l2 Hm|s cs i q b Hi Hq]; intros Hinv.
  - destruct Hinv as [C Hc]. simpl in *. pose proof (client_step_keeps _ _ _ _ _ _ Hs) as K.
    rewrite insert_take_drop by by apply lookup_lt_Some in Hi. pose proof (take_drop_middle cs i c Hi) as E.
    rewrite <- E in C, Hs, Hc. split; simpl; [by apply (client_step_core _ _ s c)|].
    intros d Hd. rewrite elem_of_app, elem_of_cons in Hd.
    destruct Hd as [Hd|[->|Hd]]; [apply (client_ok_keeps s); [done|apply Hc; set_solver]| |apply (client_ok_keeps s); [done|apply Hc; set_solver]].
    rewrite pend_middle in C. eapply client_step_ok; [done|done|]. apply Hc. set_solver.
  - pose proof Hinv as [C _]. simpl in C. destruct (opque_cb_fields g st (s_q s)) as (Ql & Qfi & Qfa & Qn & Qs & Qst & _).
    { rewrite (c_nleft _ _ C), Hp, !length_app. simpl. lia. }
    revert Hinv. apply opinv_wake; [| |exact Qst|by apply core_complete].
    + by intros b [| | | | |? ? ? []|].
    + intros [| | |any g' asleep| |any timed slept asleep|] Hc; try done; simpl in *.
      * rewrite Hp in Hc. rewrite fmap_app. simpl. set_solver.
      * destruct Hc as [Hc _]. destruct asleep; simpl; rewrite Qst; (split; [done|done]).
  - revert Hinv. apply opinv_wake; [| |done|by apply core_mark].
    + intros b [| | |any g' []| | |]; try done. simpl. by case_decide.
    + intros [| | |any g' asleep| | |] Hc; try done. simpl in *. rewrite Hm in Hc. destruct asleep; [|set_solver].
      case_decide; simpl; set_solver.
  - injection Hq as <- <-. pose proof Hinv as [C Hc]. simpl in *.
    assert (Hok : forall c, client_ok s c -> client_ok (set_q (OpQue (q_list (s_q s)) (q_finished (s_q s)) (q_failed (s_q s))
      (q_nleft (s_q s)) (q_nsubmitted (s_q s)) true (q_started (s_q s)) (q_retries (s_q s)) (q_failure_mode (s_q s)) (q_status (s_q s))) s) c)
      by by intros [].
    destruct (_ =? 0).
    + revert Hinv. apply opinv_wake; [by intros b [| | | | |? ? ? []|]| |done|by apply (core_finished_submission s _ _ (q_nleft (s_q s) =? 0))].
      intros c Hcc. apply Hok in Hcc. destruct c as [| | | | |any timed slept []|]; try done. by destruct Hcc as [? _].
    + split; [|by intros c Hin; apply Hok, Hc]. rewrite (pend_started s) by done. by apply (core_finished_submission s _ _ (q_nleft (s_q s) =? 0)).
Qed.

Lemma inv_init n : inv (init n).
Proof.
  assert (Hr : forall s, pend s (replicate n Idle) = []).
  { intros s. unfold pend. induction n as [|n IH]; [done|]. simpl replicate. by rewrite bind_cons, IH. }
  split; simpl.
  { rewrite Hr. split; simpl; try done; [constructor|..]; try by (intros; exfalso; eapply not_elem_of_nil).
    intros g [o Ho]. by rewrite lookup_empty in Ho. }
  intros c Hc. apply elem_of_replicate in Hc as [-> _]. done.
Qed.

Lemma opinv_reach n x : reach true n x -> inv x.
Proof.
  intros Hr. unfold reach in Hr. remember (init n) as x0 eqn:E. assert (Hi : inv x0) by (subst; apply inv_init). clear E.
  induction Hr as [|x1 x2 x3 Hs _ IH]; [done|]. apply IH. by eapply opinv_step.
Qed.

End guarded.

(** ** What the clients can rely on *)

(** The operations added are those in one of the places. *)
Lemma core_added s P : core s P -> size (s_gops s) = length (q_list (s_q s) ++ P ++ s_portal s ++ (s_log s).*1).
Proof.
  intros C. rewrite <- size_dom, <- (size_list_to_set (C := gset nat)) by apply C. f_equal.
  apply set_eq. intros g. rewrite elem_of_dom, elem_of_list_to_set. split; [apply C|].
  intros Hin. destruct (s_gops s !! g) eqn:E; [done|]. by apply (core_fresh s P g C) in E.
Qed.

(** C11: as long as no client starts a queue in the middle of an addition, in
    every interleaving of clients and portals each operation is submitted and
    completed at most once; the clients are given the completed operations
    once each, in the order in which they completed; and the counters of the
    queue are the number of operations added and the number of those that
    have not completed. *)
Theorem opque_exactly_once n s cs :
  reach true n (s, cs) ->
  NoDup (s_portal s ++ (s_log s).*1) /\ (s_log s).*1 = s_taken s ++ q_finished (s_q s) /\
  q_nsubmitted (s_q s) = Z.of_nat (size (s_gops s)) /\
  q_nleft (s_q s) = Z.of_nat (size (s_gops s)) - Z.of_nat (length (s_log s)).
Proof.
  intros [C _]%opinv_reach. simpl in C. pose proof (core_added _ _ C) as Hs. pose proof (c_nleft _ _ C) as Hl.
  rewrite !length_app, length_fmap in Hs. rewrite !length_app in Hl. split_and!.
  - pose proof (c_nodup _ _ C) as Hnd. by apply NoDup_app in Hnd as (_ & _ & (_ & _ & ?)%NoDup_app).
  - apply C.
  - rewrite (c_nsub _ _ C). lia.
  - lia.
Qed.

(** The status a queue reports for a history of completions. *)
Definition expected_status (log : list (nat * Z)) : Z :=
  if decide (log = []) then 0
  else if decide (Forall (fun e => e.2 <> OP_STATE_FAILURE) log) then OP_STATE_SUCCESS else OP_STATE_FAILURE.

(** What [gop_waitall] is about to return when it goes the normal way, and when
    it has taken the only operation off a queue that was not started. *)
Definition waitall_result (c : client) (s : shared) : option Z :=
  match c with
  | QueWait false false slept false => match waitall_check false slept s with Returned (RStatus r) => Some r | _ => None end
  | OneWait false g false => match one_check false g s with Returned (RStatus r) => Some r | _ => None end
  | _ => None
  end.

Lemma core_finished s P g o : core s P -> s_gops s !! g = Some o -> g_state o = true -> (g, g_status o) ∈ s_log s.
Proof.
  intros C Ho Hst. pose proof (c_dom _ _ C g (ex_intro _ _ Ho)) as Hd. rewrite app_assoc, elem_of_app in Hd. destruct Hd as [Hd|Hd].
  { rewrite (c_new _ _ C g Hd) in Ho. by injection Ho as <-. }
  apply elem_of_app in Hd as [Hd|Hd]; [destruct (c_portal _ _ C g Hd) as (o' & Ho' & Hs'); congruence|].
  apply list_elem_of_fmap in Hd as ([g' st] & -> & Hd). destruct (c_done _ _ C _ _ Hd) as (o' & Ho' & <- & _). simpl in Ho. rewrite Ho in Ho'. by injection Ho' as ->.
Qed.

Lemma core_all_done s cs : core s (pend s cs) -> q_nleft (s_q s) <= 0 ->
  (forall g, is_Some (s_gops s !! g) -> g ∈ (s_log s).*1) /\ (s_popped s = [] -> gop_completed_successfully (GQue (s_q s)) = expected_status (s_log s)).
Proof.
  intros C E. pose proof (c_nleft _ _ C) as Hl.
  assert (Hnil : q_list (s_q s) ++ pend s cs ++ s_portal s = []) by (apply length_zero_iff_nil; lia).
  split.
  - intros g Hg%(c_dom _ _ C). by rewrite !app_assoc, <- (app_assoc (q_list _)), Hnil in Hg.
  - intros Hp. unfold expected_status. destruct (decide (s_log s = [])) as [E0|E0].
    { destruct (c_status0 _ _ C E0) as [Hs0 Hf0]. simpl. by rewrite Hf0. }
    destruct (decide _) as [Hf|Hf]; simpl.
    + rewrite (core_no_failures _ _ C Hf). apply (c_status _ _ C); [lia|done|done].
    + destruct (q_failed (s_q s)) eqn:Ef; [|done]. destruct Hf. apply no_failures.
      pose proof (c_failed _ _ C) as Hfp. rewrite Ef, Hp in Hfp. apply Permutation_nil in Hfp. by apply fmap_nil_inv in Hfp.
Qed.

(** C17: what [gop_waitall] on a queue returns, if no client starts the queue in
    the middle of an addition.  Going the normal way it returns only when every
    operation added has completed, and, unless a client has collected failures
    before, it reports failure exactly when some operation completed with
    [OP_STATE_FAILURE]; an operation that timed out or ended in an error does
    not count, and an empty queue reports 0.  When it has taken the only
    operation off a queue that was not started, it returns when that operation
    has completed, with its status. *)
Theorem opque_waitall_result n s cs c r :
  reach true n (s, cs) -> c ∈ cs -> waitall_result c s = Some r ->
  match c with
  | OneWait _ g _ => (g, r) ∈ s_log s
  | _ => (forall g, is_Some (s_gops s !! g) -> g ∈ (s_log s).*1) /\ (s_popped s = [] -> r = expected_status (s_log s))
  end.
Proof.
  intros [C Hc]%opinv_reach Hin Hr. simpl in *. destruct c as [| | |[] g []| |[] [] slept []|]; try done; cbn [waitall_result] in Hr.
  - unfold one_check in Hr. destruct (s_gops s !! g) as [o|] eqn:Ho; [|done]. destruct (g_state o) eqn:Hs; [|done]. injection Hr as <-. by eapply core_finished.
  - unfold waitall_check in Hr. cbn [andb negb] in Hr. rewrite andb_true_r in Hr. destruct (q_nleft (s_q s) >? 0) eqn:E; [done|]. injection Hr as <-. breflect.
    destruct (core_all_done s cs C) as [Hd Hp]; [lia|]. split; [done|]. intros Hn. by apply Hp.
Qed.

(** A client that sleeps, for ever or until its time is up. *)
Definition sleeps (c : client) : Prop :=
  match c with QueWait _ _ _ true | OneWait _ _ true => True | _ => False end.

(** C26: no wake-up is lost, if no client starts the queue in the middle of an
    addition: whenever a client sleeps in [gop_waitall] or [gop_waitany], with
    or without a time limit, a portal still has an operation, or an operation
    is just being marked as completed, or another client is about to submit
    one. *)
Theorem opque_wait_live n s cs c :
  reach true n (s, cs) -> c ∈ cs -> sleeps c ->
  s_portal s <> [] \/ s_marking s <> [] \/ exists c' g, c' ∈ cs /\ pending true c' = [g].
Proof.
  intros [C Hok]%opinv_reach Hin Hsl. simpl in *. apply Hok in Hin.
  destruct c as [| | |any g []| |any timed slept []|]; try done; simpl in *.
  - destruct Hin as [_ [Hg|Hg]]; [done|left|right; left]; intros E; rewrite E in Hg; by apply not_elem_of_nil in Hg.
  - destruct Hin as [Hst Hn]. destruct (Hn eq_refl) as [Hpos _]. rewrite (c_nleft _ _ C), (c_started _ _ C Hst) in Hpos. simpl in Hpos.
    destruct (s_portal s); [|by left]. right; right. rewrite app_nil_r in Hpos.
    destruct (pend s cs) as [|g P] eqn:E; [done|].
    assert (Hg : g ∈ pend s cs) by (rewrite E; by left). unfold pend in Hg. apply list_elem_of_bind in Hg as (c' & Hg & Hc').
    exists c', g. split; [done|]. rewrite Hst in Hg.
    destruct c'; simpl in *; try by apply not_elem_of_nil in Hg.
    all: by apply list_elem_of_singleton in Hg as ->.
Qed.

(** ** Starting a queue while something is added to it *)

Tactic Notation "client_move" constr(i) "with" uconstr(rule) :=
  eapply rtc_l; [eapply (step_client _ _ _ i); [reflexivity|eapply rule; try reflexivity; try (intros; discriminate)]|simpl].

(** C39: without that discipline the queue breaks: one client has put an
    operation on the list, another starts the queue, and the first then finds
    the queue started and submits the operation again.  It completes twice,
    the count of operations left is one too low, and a later [gop_waitall]
    reports success while its operation is still running. *)
Theorem opque_add_race :
  exists s, reach false 2 (s, [Returned (RStatus OP_STATE_SUCCESS); Idle]) /\
    s_log s = [(1%nat, OP_STATE_SUCCESS); (1%nat, OP_STATE_SUCCESS)] /\ s_portal s = [2%nat].
Proof.
  eexists. split; [|split].
  - unfold reach, init. simpl.
    client_move 0%nat with (cs_add _ _ _ 1%nat).
    client_move 1%nat with (cs_start false).
    client_move 0%nat with (cs_added false).
    eapply rtc_l; [eapply (step_complete _ _ _ 1%nat OP_STATE_SUCCESS []); reflexivity|simpl].
    eapply rtc_l; [eapply (step_complete _ _ _ 1%nat OP_STATE_SUCCESS []); reflexivity|simpl].
    client_move 0%nat with (cs_add _ _ _ 2%nat).
    client_move 0%nat with (cs_added false).
    client_move 0%nat with (cs_wait false _ false).
    client_move 0%nat with (cs_check false).
    apply rtc_refl.
  - reflexivity.
  - reflexivity.
Qed.

(** ** Examples *)

(** One client adds two operations and waits for both; *)
Definition opque_sleeping : shared :=
  Shared (OpQue [] [] [] 2 2 false true 0 0 0) {[1%nat := Gop 0 0 false true; 2%nat := Gop 0 0 false true]}
    [1%nat; 2%nat] [] [] [] [].

Lemma opque_sleeping_reach : reach true 1 (opque_sleeping, [QueWait false false false true]).
Proof.
  unfold reach, init. simpl.
  client_move 0%nat with (cs_add _ _ _ 1%nat). client_move 0%nat with (cs_added _).
  client_move 0%nat with (cs_add _ _ _ 2%nat). client_move 0%nat with (cs_added _).
  client_move 0%nat with (cs_wait _ _ false); [intros _ g Hg; set_solver|].
  client_move 0%nat with (cs_check _). apply rtc_refl.
Qed.

(** they complete, one of them with a time-out, and the client wakes up. *)
Definition opque_done : shared :=
  Shared (OpQue [] [2%nat; 1%nat] [] 0 2 false true 0 0 OP_STATE_SUCCESS)
    {[1%nat := Gop OP_STATE_TIMEOUT 0 false true; 2%nat := Gop OP_STATE_SUCCESS 0 false true]}
    [] [2%nat; 1%nat] [(2%nat, OP_STATE_SUCCESS); (1%nat, OP_STATE_TIMEOUT)] [] [].

Lemma opque_done_reach : reach true 1 (opque_done, [QueWait false false true false]).
Proof.
  unfold reach. etransitivity; [exact opque_sleeping_reach|].
  eapply rtc_l; [eapply (step_complete _ _ _ 2%nat OP_STATE_SUCCESS [1%nat]); reflexivity|].
  eapply rtc_l; [eapply (step_complete _ _ _ 1%nat OP_STATE_TIMEOUT []); reflexivity|].
  apply rtc_refl.
Qed.

Lemma opque_exactly_once_witness :
  NoDup (s_portal opque_done ++ (s_log opque_done).*1) /\ (s_log opque_done).*1 = s_taken opque_done ++ q_finished (s_q opque_done) /\
  q_nsubmitted (s_q opque_done) = Z.of_nat (size (s_gops opque_done)) /\
  q_nleft (s_q opque_done) = Z.of_nat (size (s_gops opque_done)) - Z.of_nat (length (s_log opque_done)).
Proof. exact (opque_exactly_once 1 opque_done _ opque_done_reach). Defined.

Lemma opque_waitall_result_witness :
  (forall g, is_Some (s_gops opque_done !! g) -> g ∈ (s_log opque_done).*1) /\
  (s_popped opque_done = [] -> OP_STATE_SUCCESS = expected_status (s_log opque_done)).
Proof.
  apply (opque_waitall_result 1 opque_done [QueWait false false true false] (QueWait false false true false) OP_STATE_SUCCESS opque_done_reach);
    [by left|reflexivity].
Defined.

Lemma opque_wait_live_witness :
  s_portal opque_sleeping <> [] \/ s_marking opque_sleeping <> [] \/
  exists c' g, c' ∈ [QueWait false false false true] /\ pending true c' = [g].
Proof. apply (opque_wait_live 1 opque_sleeping _ (QueWait false false false true) opque_sleeping_reach); [by left|done]. Defined.
