(* ===== verification/RsQuery.v ===== *)
(** * Resource queries ([lio/rs/query_base.c])

    A query is a singly linked list of elements with a pointer to its last
    one; the elements live on a heap.  A query is printed as text and parsed
    back with the escaping and the tokenizer of [StringToken], on the same
    kind of memory. *)
From Stdlib Require Import Ascii String.
From S2P Require Import Prelude StringToken.
Local Open Scope Z_scope.

Definition RSQ_BASE_OP_MAX_VAL : Z := 4.
Definition RSQ_BASE_KV_MAX_VAL : Z := 3.
Definition RSQ_BASE_KV_OP_BITMASK : Z := 7.
Definition RSQ_BASE_KV_UNIQUE : Z := 64.
Definition RSQ_BASE_KV_PICKONE : Z := 128.

(** What an element says; a missing key or value is [None]. *)
Record rsq := Rsq {
  rq_op : Z;
  rq_key : option chars;
  rq_val : option chars;
  rq_key_op : Z;
  rq_val_op : Z }.

#[export] Instance rsq_eq_dec : EqDecision rsq.
Proof. solve_decision. Defined.

(** [lio_rsq_base_ele_t] and [lio_rsq_base_t]. *)
Record rsq_ele := Ele { el_rsq : rsq; el_next : option loc }.

Record rsq_base := Query { q_head : option loc; q_tail : option loc }.

Abbreviation heap := (gmap loc rsq_ele).

Definition ele_alloc (x : rsq) (h : heap) : loc * heap :=
  let n := fresh (dom h) in (n, <[n := Ele x None]> h).

Definition ele_load (p : option loc) (h : heap) : res rsq_ele :=
  match p with
  | None => Fault NullDeref
  | Some l => match h !! l with Some e => Ok e | None => Fault BadPointer end
  end.

(** [p->next = n]. *)
Definition ele_set_next (p : option loc) (n : option loc) (h : heap) : res heap :=
  match p with
  | None => Fault NullDeref
  | Some l => match h !! l with Some e => Ok (<[l := Ele (el_rsq e) n]> h) | None => Fault BadPointer end
  end.

Definition has_flag (flag x : Z) : bool := negb (Z.land x flag =? 0).

(** ** Building queries *)

Definition rs_query_base_new : rsq_base := Query None None.

(** The counts of elements, of unique and of pick-one elements. *)
Fixpoint query_count_loop (fuel : nat) (h : heap) (q : option loc) (n u p : Z) : res (Z * Z * Z) :=
  match q with
  | None => Ok (n, u, p)
  | Some _ =>
    match fuel with
    | O => Fault OutOfFuel
    | S fuel =>
      e ← ele_load q h;
      let x := el_rsq e in
      query_count_loop fuel h (el_next e) (n + 1)
        (if has_flag RSQ_BASE_KV_UNIQUE (rq_key_op x) || has_flag RSQ_BASE_KV_UNIQUE (rq_val_op x) then u + 1 else u)
        (if has_flag RSQ_BASE_KV_PICKONE (rq_key_op x) || has_flag RSQ_BASE_KV_PICKONE (rq_val_op x) then p + 1 else p)
    end
  end.

Definition rs_query_count (h : heap) (q : rsq_base) : res (Z * Z * Z) :=
  query_count_loop (size h) h (q_head q) 0 0 0.

Fixpoint query_destroy_loop (fuel : nat) (q : option loc) (h : heap) : res heap :=
  match q with
  | None => Ok h
  | Some l =>
    match fuel with
    | O => Fault OutOfFuel
    | S fuel => e ← ele_load q h; query_destroy_loop fuel (el_next e) (delete l h)
    end
  end.

Definition rs_query_base_destroy (q : rsq_base) (h : heap) : res heap := query_destroy_loop (size h) (q_head q) h.

(** The query is [None] when the caller has none yet.  The value's operation
    is set from the key's. *)
Definition rs_query_base_add (query : option rsq_base) (op : Z) (key : option chars) (key_op : Z) (val : option chars)
    (val_op : Z) (h : heap) : res (Z * option rsq_base * heap) :=
  if op >? RSQ_BASE_OP_MAX_VAL then Ok (1, query, h)
  else if key_op >? RSQ_BASE_KV_MAX_VAL then Ok (2, query, h)
  else if val_op >? RSQ_BASE_KV_MAX_VAL then Ok (3, query, h)
  else if has_flag RSQ_BASE_KV_UNIQUE key_op && has_flag RSQ_BASE_KV_UNIQUE key_op then Ok (4, query, h)
  else if has_flag RSQ_BASE_KV_UNIQUE val_op && has_flag RSQ_BASE_KV_UNIQUE val_op then Ok (5, query, h)
  else
    let '(n, h) := ele_alloc (Rsq op key val key_op key_op) h in
    match query with
    | None => Ok (0, Some (Query (Some n) (Some n)), h)
    | Some q =>
      match q_head q with
      | None => Ok (0, Some (Query (Some n) (Some n)), h)
      | Some _ => h ← ele_set_next (q_tail q) (Some n) h; Ok (0, Some (Query (q_head q) (Some n)), h)
      end
    end.

(** The copying loop shared by [rs_query_base_dup] and
    [rs_query_base_append]: [head], [prev] and the last copy made. *)
Fixpoint query_copy_loop (fuel : nat) (q : option loc) (head prev qn : option loc) (h : heap)
  : res (option loc * option loc * heap) :=
  match q with
  | None => Ok (head, qn, h)
  | Some _ =>
    match fuel with
    | O => Fault OutOfFuel
    | S fuel =>
      let '(n, h) := ele_alloc (Rsq 0 None None 0 0) h in
      let head := match head with None => Some n | Some _ => head end in
      h ← (match prev with None => Ok h | Some _ => ele_set_next prev (Some n) h end);
      e ← ele_load q h;
      query_copy_loop fuel (el_next e) head (Some n) (Some n) (<[n := Ele (el_rsq e) None]> h)
    end
  end.

Definition rs_query_base_dup (query : option rsq_base) (h : heap) : res (option rsq_base * heap) :=
  match query with
  | None => Ok (None, h)
  | Some q =>
    '(head, tail, h) ← query_copy_loop (size h) (q_head q) None None None h;
    Ok (Some (Query head tail), h)
  end.

Definition rs_query_base_append (q : rsq_base) (append : option rsq_base) (h : heap) : res (rsq_base * heap) :=
  match append with
  | None => Ok (q, h)
  | Some a =>
    '(head, tail, h) ← query_copy_loop (size h) (q_head a) (q_head q) (q_tail q) None h;
    Ok (Query head tail, h)
  end.

(** ** Text *)

(** [tbx_append_printf]: what is in the buffer of [nbytes] and [*used]. *)
Definition append_printf (nbytes : Z) (text : chars) (b : chars * Z) : chars * Z :=
  let '(buffer, used) := b in
  let nleft := nbytes - used in
  if nleft <=? 0 then b
  else (buffer ++ take (Z.to_nat (nleft - 1)) text, used + Z.of_nat (length text)).

Definition query_bufsize : Z := 10 * 1024.

(** The text of the element as [%d:%s:%d:%s:%d] prints it. *)
Definition print_ele (x : rsq) : res chars :=
  ekey ← tbx_stk_escape_text [":"%char] "\"%char (default [] (rq_key x));
  eval ← tbx_stk_escape_text [":"%char] "\"%char (default [] (rq_val x));
  k ← c_str ekey 0; v ← c_str eval 0;
  Ok (fmt_int (rq_op x) ++ ":"%char :: k ++ ":"%char :: fmt_int (rq_key_op x) ++ ":"%char :: v ++ ":"%char :: fmt_int (rq_val_op x)).

Fixpoint query_print_loop (fuel : nat) (h : heap) (q : option loc) (b : chars * Z) : res (chars * Z) :=
  match q with
  | None => Ok b
  | Some _ =>
    match fuel with
    | O => Fault OutOfFuel
    | S fuel =>
      e ← ele_load q h;
      text ← print_ele (el_rsq e);
      let b := append_printf query_bufsize text b in
      let b := match el_next e with None => b | Some _ => append_printf query_bufsize [";"%char] b end in
      query_print_loop fuel h (el_next e) b
    end
  end.

(** [rs_type] is the type of the resource service. *)
Definition rs_query_base_print (rs_type : chars) (query : option rsq_base) (h : heap) : res (option chars) :=
  match query with
  | None => Ok None
  | Some q =>
    '(buffer, _) ← query_print_loop (size h) h (q_head q) (append_printf query_bufsize (rs_type ++ [":"%char]) ([], 0));
    Ok (Some buffer)
  end.

Definition atoi (s : chars) : Z := default 0 (scan_int s).

(** The string of a token; [None] is the empty string. *)
Definition token_str (mem : chars) (t : option Z) : res chars :=
  match t with None => Ok [] | Some p => c_str mem p end.

(** One field: the next token up to a colon. *)
Definition next_field (mem : chars) (tstate : option Z) : res (chars * chars * option Z) :=
  '(t, mem, tstate, _) ← tbx_stk_escape_string_token mem None [":"%char] "\"%char false tstate;
  s ← token_str mem t;
  Ok (s, mem, tstate).

(** The C string that unescaping leaves. *)
Definition unescaped (s : chars) : chars := default [] (until_nul (tbx_stk_unescape_text "\"%char s)).

Definition parse_ele (mem : chars) (tstate : option Z) : res (rsq * chars * option Z) :=
  '(op, mem, tstate) ← next_field mem tstate;
  '(key, mem, tstate) ← next_field mem tstate;
  '(key_op, mem, tstate) ← next_field mem tstate;
  '(val, mem, tstate) ← next_field mem tstate;
  '(val_op, mem, tstate) ← next_field mem tstate;
  Ok (Rsq (atoi op) (Some (unescaped key)) (Some (unescaped val)) (atoi key_op) (atoi val_op), mem, tstate).

Fixpoint query_parse_loop (fuel : nat) (mem : chars) (bstate tstate : option Z) (root tail : option loc) (h : heap)
  : res (option loc * option loc * heap) :=
  match fuel with
  | O => Fault OutOfFuel
  | S fuel =>
    '(x, mem, _) ← parse_ele mem tstate;
    let '(n, h) := ele_alloc x h in
    let root := match root with None => Some n | Some _ => root end in
    h ← (match tail with None => Ok h | Some _ => ele_set_next tail (Some n) h end);
    '(token, mem, bstate, _) ← tbx_stk_escape_string_token mem None [";"%char] "\"%char false bstate;
    s ← token_str mem token;
    match s with
    | [] => Ok (root, Some n, h)
    | _ => query_parse_loop fuel mem bstate token root (Some n) h
    end
  end.

Definition rs_query_base_parse (qstring : chars) (h : heap) : res (rsq_base * heap) :=
  let mem := qstring ++ [NUL] in
  '(token, mem, bstate, _) ← tbx_stk_escape_string_token mem (Some 0) [";"%char] "\"%char false None;
  '(_, mem, tstate, _) ← tbx_stk_escape_string_token mem token [":"%char] "\"%char false None;
  '(root, tail, h) ← query_parse_loop (length mem) mem bstate tstate None None h;
  Ok (Query root tail, h).

(** ** Queries as lists *)

(** The elements [xs] at the cells [ls], from the pointer [p] on. *)
Fixpoint chain (h : heap) (p : option loc) (ls : list loc) (xs : list rsq) : Prop :=
  match ls, xs with
  | [], [] => p = None
  | l :: ls, x :: xs => p = Some l /\ exists n, h !! l = Some (Ele x n) /\ chain h n ls xs
  | _, _ => False
  end.

Record is_query (h : heap) (q : rsq_base) (ls : list loc) (xs : list rsq) : Prop := IsQuery {
  iq_chain : chain h (q_head q) ls xs;
  iq_nodup : NoDup ls;
  iq_tail : q_tail q = last ls }.

Section chain.
Implicit Types (h : heap) (ls : list loc) (xs : list rsq).

Lemma chain_head h p ls xs : chain h p ls xs -> p = head ls.
Proof. destruct ls, xs; simpl; try done. by intros [? _]. Qed.

Lemma chain_length h p ls xs : chain h p ls xs -> length ls = length xs.
Proof.
  revert p xs. induction ls as [|l ls IH]; intros p [|x xs]; simpl; try done. intros (_ & n & _ & Hc). by rewrite (IH n xs).
Qed.

Lemma chain_frame h h' p ls xs : (forall l, l ∈ ls -> h' !! l = h !! l) -> chain h p ls xs -> chain h' p ls xs.
Proof.
  revert p xs. induction ls as [|l ls IH]; intros p [|x xs]; simpl; try done.
  intros Hf (-> & n & Hl & Hc). split; [done|]. exists n. rewrite Hf by by left. split; [done|].
  apply IH; [|done]. intros l' Hl'. apply Hf. by right.
Qed.

Lemma chain_dom h p ls xs l : chain h p ls xs -> l ∈ ls -> is_Some (h !! l).
Proof.
  revert p xs. induction ls as [|l' ls IH]; intros p [|x xs]; simpl; try done; [by intros _ ?%not_elem_of_nil|].
  intros (-> & n & Hl & Hc) [->|Hin]%elem_of_cons; [by rewrite Hl|by eapply IH].
Qed.

Lemma chain_last h p ls xs t :
  chain h p ls xs -> NoDup ls -> last ls = Some t -> exists x, h !! t = Some (Ele x None).
Proof.
  revert p xs. induction ls as [|l ls IH]; intros p [|x xs]; simpl; try done.
  intros (-> & n & Hl & Hc) [_ Hnd]%NoDup_cons Ht. destruct ls as [|l' ls].
  - injection Ht as ->. destruct xs; [|done]. simpl in Hc. subst. by eexists.
  - by apply (IH n xs).
Qed.

(** Linking a new cell behind the last one. *)
Lemma chain_snoc h p ls xs t n x :
  chain h p ls xs -> NoDup ls -> last ls = Some t -> n ∉ ls -> h !! n = Some (Ele x None) ->
  exists h', ele_set_next (Some t) (Some n) h = Ok h' /\ chain h' p (ls ++ [n]) (xs ++ [x]) /\
    forall l, l <> t -> h' !! l = h !! l.
Proof.
  intros Hc Hnd Ht Hn Hx. destruct (chain_last _ _ _ _ _ Hc Hnd Ht) as [y Hy]. simpl. rewrite Hy.
  eexists. split; [done|]. split; [|intros l Hl; by apply lookup_insert_ne].
  revert p xs Hc Hnd Ht Hn. induction ls as [|l ls IH]; intros p [|z zs]; simpl; try done.
  intros (-> & m & Hl & Hc) [Hlls Hnd]%NoDup_cons Ht [Hnl Hn]%not_elem_of_cons. split; [done|]. destruct ls as [|l' ls].
  - injection Ht as ->. destruct zs; [|done]. rewrite Hl in Hy. injection Hy as -> ->. exists (Some n). rewrite lookup_insert_eq. split; [done|].
    simpl. split; [done|]. exists None. rewrite lookup_insert_ne by done. done.
  - exists m. assert (Hlt : l <> t).
    { intros ->. apply Hlls. by apply last_Some_elem_of. }
    rewrite lookup_insert_ne by done. split; [done|]. by apply IH.
Qed.

Lemma chain_update_last h p ls xs n x y :
  chain h p (ls ++ [n]) (xs ++ [x]) -> NoDup (ls ++ [n]) -> length ls = length xs ->
  chain (<[n := Ele y None]> h) p (ls ++ [n]) (xs ++ [y]).
Proof.
  revert p xs. induction ls as [|l ls IH]; intros p [|z zs]; simpl; try done.
  - intros (-> & m & Hn & ->) _ _. split; [done|]. exists None. by rewrite lookup_insert_eq.
  - intros (-> & m & Hl & Hc) [Hnl Hnd]%NoDup_cons Hlen. split; [done|]. exists m.
    rewrite lookup_insert_ne by set_solver. split; [done|]. apply IH; [done|done|lia].
Qed.

(** What every loop that builds a query does with a new cell. *)
Lemma link_new h hd ls xs n x :
  chain h hd ls xs -> NoDup ls -> n ∉ ls -> h !! n = Some (Ele x None) ->
  exists h', match last ls with None => Ok h | Some _ => ele_set_next (last ls) (Some n) h end = Ok h' /\
    chain h' (match hd with None => Some n | Some _ => hd end) (ls ++ [n]) (xs ++ [x]) /\ NoDup (ls ++ [n]) /\
    (forall l, l ∉ ls -> h' !! l = h !! l).
Proof.
  intros Hc Hnd Hn Hx. assert (Hnd' : NoDup (ls ++ [n])).
  { apply NoDup_app. split; [done|]. split; [set_solver|apply NoDup_singleton]. }
  pose proof (chain_head _ _ _ _ Hc) as Hhd. destruct (last ls) as [t|] eqn:Et.
  - destruct (chain_snoc h hd ls xs t n x Hc Hnd Et Hn Hx) as (h' & -> & Hc' & Hf).
    exists h'. split_and!; [done| |done|].
    + destruct ls; [done|]. simpl in Hhd. by subst.
    + intros l Hl. apply Hf. intros ->. apply Hl. by apply last_Some_elem_of.
  - apply last_None in Et as ->. destruct xs; [|done]. simpl in *. subst. exists h. split; [done|].
    split; [split; [done|]; by exists None|]. by split.
Qed.

Lemma ele_alloc_fresh x h : h !! (ele_alloc x h).1 = None.
Proof. apply not_elem_of_dom. apply is_fresh. Qed.

(** Copies of the elements at [ms] are linked behind those at [ls]. *)
Lemma query_copy_loop_ok fuel q ms ys hd ls xs qn h :
  chain h q ms ys -> (length ms <= fuel)%nat -> chain h hd ls xs -> NoDup ls -> (forall l, l ∈ ms -> l ∉ ls) ->
  exists ns h', query_copy_loop fuel q hd (last ls) qn h =
      Ok (head (ls ++ ns), match ns with [] => qn | _ => last ns end, h') /\
    length ns = length ys /\ chain h' (head (ls ++ ns)) (ls ++ ns) (xs ++ ys) /\ NoDup (ls ++ ns) /\
    (forall l, l ∈ ns -> h !! l = None) /\ (forall l, is_Some (h !! l) -> l ∉ ls -> h' !! l = h !! l).
Proof.
  revert q ys hd ls xs qn h fuel. induction ms as [|m ms IH]; intros q [|y ys] hd ls xs qn h fuel Hm Hfu Hc Hnd Hdis; try done.
  { simpl in Hm. subst. exists [], h. rewrite !app_nil_r. pose proof (chain_head _ _ _ _ Hc) as ->.
    split_and!; [by destruct fuel, ls|done|done|done|by intros l ?%not_elem_of_nil|done]. }
  destruct Hm as (-> & q' & Hq & Hm). destruct fuel as [|fuel]; [simpl in Hfu; lia|]. cbn [query_copy_loop].
  pose proof (ele_alloc_fresh (Rsq 0 None None 0 0) h) as Hfr. unfold ele_alloc in *. cbn [fst] in Hfr.
  set (n := fresh (dom h)) in *. set (h1 := <[n := Ele (Rsq 0 None None 0 0) None]> h).
  assert (Hold : forall l, is_Some (h !! l) -> l <> n) by (intros l [? Hl] ->; congruence).
  assert (Hh1 : forall l, is_Some (h !! l) -> h1 !! l = h !! l) by (intros l Hl; apply lookup_insert_ne; intros ->; by eapply Hold).
  assert (Hnls : n ∉ ls) by (intros Hin; eapply Hold; [by eapply (chain_dom h hd ls xs)|done]).
  destruct (link_new h1 hd ls xs n (Rsq 0 None None 0 0)) as (h2 & -> & Hc2 & Hnd2 & Hf2); [|done|done|apply lookup_insert_eq|].
  { eapply chain_frame; [|exact Hc]. intros l Hl. apply Hh1. by apply (chain_dom h hd ls xs). }
  cbn [mbind res_bind]. assert (Hq2 : h2 !! m = Some (Ele y q')).
  { rewrite Hf2 by (apply Hdis; by left). by rewrite Hh1 by by rewrite Hq. }
  simpl. rewrite Hq2. cbn [mbind res_bind el_next el_rsq].
  apply (chain_update_last _ _ _ _ _ _ y) in Hc2; [|done|by eapply chain_length].
  set (h3 := <[n := Ele y None]> h2) in *.
  assert (Hh3 : forall l, is_Some (h !! l) -> l ∉ ls -> h3 !! l = h !! l).
  { intros l Hl Hnl. unfold h3. rewrite lookup_insert_ne by (intros ->; by eapply Hold). by rewrite Hf2, Hh1. }
  replace (Some n) with (last (ls ++ [n])) at 2 by apply last_snoc.
  destruct (IH q' ys (match hd with None => Some n | Some _ => hd end) (ls ++ [n]) (xs ++ [y]) (Some n) h3 fuel) as (ns & h' & E & Hlen & Hc' & Hnd' & Hns & Hf'); [|simpl in Hfu; lia|exact Hc2|done| |].
  { eapply chain_frame; [|exact Hm]. intros l Hl. apply Hh3; [by apply (chain_dom h q' ms ys)|]. apply Hdis. by right. }
  { intros l Hl. rewrite not_elem_of_app, not_elem_of_cons. split_and!; [apply Hdis; by right| |apply not_elem_of_nil].
    apply Hold. by apply (chain_dom h q' ms ys). }
  exists (n :: ns), h'. rewrite <- !app_assoc in *. cbn [app] in *. rewrite last_snoc in *. rewrite E.
  split_and!; [by destruct ns as [|n' ns] |simpl; lia|done|done| |].
  - intros l [->|Hl]%elem_of_cons; [done|]. pose proof (Hns l Hl) as Hn. destruct (h !! l) eqn:El; [|done].
    destruct (decide (l ∈ ls)) as [Hin|Hin].
    + apply NoDup_app in Hnd' as (_ & Hd & _). destruct (Hd l Hin). by right.
    + rewrite Hh3 in Hn by (done || by rewrite El). congruence.
  - intros l Hl Hnl. rewrite Hf'; [by apply Hh3|by rewrite Hh3|]. rewrite not_elem_of_app, not_elem_of_cons.
    split_and!; [done|by apply Hold|apply not_elem_of_nil].
Qed.

Lemma chain_size h p ls xs : chain h p ls xs -> NoDup ls -> (length ls <= size h)%nat.
Proof.
  intros Hc Hnd. rewrite <- size_dom, <- (size_list_to_set (C := gset loc)) by done. apply subseteq_size.
  intros l Hl%elem_of_list_to_set. apply elem_of_dom. by apply (chain_dom h p ls xs).
Qed.

End chain.

(** Appending a query that has elements copies them behind those of the
    other one, in order and on cells of their own; both queries stay intact,
    and a further element can be added. *)
Theorem query_append_ok h q ls xs a ms ys :
  is_query h q ls xs -> is_query h a ms ys -> (forall l, l ∈ ms -> l ∉ ls) -> ys <> [] ->
  exists q' h' ns, rs_query_base_append q (Some a) h = Ok (q', h') /\
    is_query h' q' (ls ++ ns) (xs ++ ys) /\ is_query h' a ms ys /\ (forall l, l ∈ ms -> l ∉ ls ++ ns).
Proof.
  intros [Hc Hnd Ht] [Ha Hnda Hta] Hdis Hne. pose proof (chain_size _ _ _ _ Ha Hnda) as Hsz.
  destruct (query_copy_loop_ok (size h) (q_head a) ms ys (q_head q) ls xs None h Ha Hsz Hc Hnd Hdis)
    as (ns & h' & E & Hlen & Hc' & Hnd' & Hns & Hf).
  unfold rs_query_base_append. rewrite Ht, E. cbn [mbind res_bind].
  assert (Hlast : match ns with [] => None | _ :: _ => last ns end = last ns) by by destruct ns. rewrite Hlast.
  assert (Hnn : ns <> []) by (intros ->; destruct ys; done).
  eexists _, h', ns. split; [done|]. split; [|split].
  - split; [done|done|]. simpl. rewrite last_app. destruct ns; [done|]. by destruct (last (_ :: ns)) eqn:El; [|apply last_None in El].
  - split; [|done|done]. eapply chain_frame; [|exact Ha]. intros l Hl. apply Hf; [by apply (chain_dom h (q_head a) ms ys)|by apply Hdis].
  - intros l Hl [?|Hin]%elem_of_app; [by apply (Hdis l)|]. apply Hns in Hin.
    destruct (chain_dom h (q_head a) ms ys l Ha Hl). congruence.
Qed.

(** Appending a query without elements to one that has some clears the
    pointer to its last element, and the next element added to it follows the
    null pointer. *)
Theorem query_append_crash h q ls xs a op key val key_op val_op :
  is_query h q ls xs -> xs <> [] -> is_query h a [] [] ->
  0 <= op <= RSQ_BASE_OP_MAX_VAL -> 0 <= key_op <= RSQ_BASE_KV_MAX_VAL -> 0 <= val_op <= RSQ_BASE_KV_MAX_VAL ->
  exists q', rs_query_base_append q (Some a) h = Ok (q', h) /\
    rs_query_base_add (Some q') op key key_op val val_op h = Fault NullDeref.
Proof.
  intros [Hc Hnd Ht] Hne [Ha _ _] Hop Hk Hv. simpl in Ha. unfold rs_query_base_append. rewrite Ha.
  exists (Query (q_head q) None). split; [by destruct (size h)|].
  unfold rs_query_base_add, RSQ_BASE_OP_MAX_VAL, RSQ_BASE_KV_MAX_VAL in *.
  destruct (op >? 4) eqn:E1; breflect; [lia|]. destruct (key_op >? 3) eqn:E2; breflect; [lia|].
  destruct (val_op >? 3) eqn:E3; breflect; [lia|].
  assert (Hf : forall x, 0 <= x <= 3 -> has_flag RSQ_BASE_KV_UNIQUE x = false).
  { intros x Hx. assert (Hx' : x = 0 \/ x = 1 \/ x = 2 \/ x = 3) by lia. by destruct Hx' as [-> | [-> | [-> | ->]]]. }
  rewrite !Hf by done. simpl. destruct ls as [|l ls]; [by destruct xs|]. destruct xs; [done|]. destruct Hc as [-> _]. done.
Qed.

(** ** Printing *)

Definition ele_fields (x : rsq) : list chars :=
  [fmt_int (rq_op x); default [] (rq_key x); fmt_int (rq_key_op x); default [] (rq_val x); fmt_int (rq_val_op x)].

Definition ele_text (x : rsq) : chars := joined ":"%char (esc_list [":"%char] "\"%char <$> ele_fields x).

(** Texts that survive: C strings without the character that separates
    elements, and numbers of the size of an [int]. *)
Definition text_ok (s : chars) : Prop := NUL ∉ s /\ ";"%char ∉ s.

Definition rsq_ok (x : rsq) : Prop :=
  text_ok (default [] (rq_key x)) /\ text_ok (default [] (rq_val x)) /\
  int32_ok (rq_op x) = true /\ int32_ok (rq_key_op x) = true /\ int32_ok (rq_val_op x) = true.

Definition no_special (s : chars) : Prop := forall c, c ∈ s -> c <> NUL /\ c <> ":"%char /\ c <> "\"%char /\ c <> ";"%char.

Lemma int32_range n : int32_ok n = true -> - 10 ^ 20 < n < 10 ^ 20.
Proof. unfold int32_ok. intros H. breflect. lia. Qed.

Lemma fmt_int_no_special n : int32_ok n = true -> no_special (fmt_int n).
Proof.
  intros Hn%int32_range c Hc. unfold fmt_int in Hc.
  assert (Hd : forall m, 0 <= m < 10 ^ 20 -> c ∈ print_digits 20 m [] -> c <> NUL /\ c <> ":"%char /\ c <> "\"%char /\ c <> ";"%char).
  { intros m Hm Hin. destruct (print_numeral m Hm) as (Hds & _). unfold digits in Hds. rewrite Forall_forall in Hds. apply Hds in Hin.
    split_and!; intros ->; vm_compute in Hin; done. }
  destruct (n <? 0) eqn:E; breflect; [|by apply (Hd n); [lia|]].
  apply elem_of_cons in Hc as [->|Hc]; [done|]. by apply (Hd (- n)); [lia|].
Qed.

Lemma esc_list_plain s : no_special s -> esc_list [":"%char] "\"%char s = s.
Proof.
  induction s as [|c s IH]; intros Hs; [done|]. cbn [esc_list].
  destruct (Hs c) as (? & ? & ? & ?); [by left|].
  replace (needs_escape [":"%char] "\"%char c) with false.
  - f_equal. apply IH. intros c' Hc'. apply Hs. by right.
  - symmetry. unfold needs_escape, in_set. rewrite !bool_decide_false; [done|set_solver|done].
Qed.

Lemma esc_text_ok s : text_ok s -> text_ok (esc_list [":"%char] "\"%char s).
Proof.
  intros [Hn Hs]. split; [by apply esc_list_nonul|].
  induction s as [|c s IH]; [done|]. cbn [esc_list]. apply not_elem_of_cons in Hs as [Hc Hs]. apply not_elem_of_cons in Hn as [Hc' Hn].
  specialize (IH Hn Hs). case_match; set_solver.
Qed.

Lemma print_ele_ok x : rsq_ok x -> print_ele x = Ok (ele_text x).
Proof.
  intros (Hk & Hv & H1 & H2 & H3). unfold print_ele.
  rewrite !escape_text_ok. cbn [mbind res_bind].
  rewrite !c_str_nul by (apply esc_text_ok; done). cbn [mbind res_bind].
  unfold ele_text, ele_fields. csimpl.
  by rewrite !(esc_list_plain (fmt_int _)) by by apply fmt_int_no_special.
Qed.

(** The whole text of a query. *)
Definition query_text (rs_type : chars) (xs : list rsq) : chars := rs_type ++ ":"%char :: joined ";"%char (ele_text <$> xs).

Lemma append_printf_fits text s :
  Z.of_nat (length s + length text) < query_bufsize ->
  append_printf query_bufsize text (s, Z.of_nat (length s)) = (s ++ text, Z.of_nat (length (s ++ text))).
Proof.
  intros Hs. unfold append_printf. destruct (_ <=? 0) eqn:E; breflect; [lia|].
  rewrite take_ge by lia. rewrite length_app. f_equal. lia.
Qed.

Lemma query_print_loop_ok fuel h p ls xs s :
  chain h p ls xs -> (length ls <= fuel)%nat -> Forall rsq_ok xs ->
  Z.of_nat (length (s ++ joined ";"%char (ele_text <$> xs))) < query_bufsize ->
  query_print_loop fuel h p (s, Z.of_nat (length s)) =
    Ok (s ++ joined ";"%char (ele_text <$> xs), Z.of_nat (length (s ++ joined ";"%char (ele_text <$> xs)))).
Proof.
  intros Hc Hf Hok. revert fuel p ls s Hc Hf. induction Hok as [|x xs Hx Hok IH]; intros fuel p [|l ls] s Hc Hf Hs; try done.
  { simpl in Hc. subst. rewrite app_nil_r. by destruct fuel. }
  destruct Hc as (-> & n & Hl & Hc). destruct fuel as [|fuel]; [simpl in Hf; lia|]. cbn [query_print_loop ele_load].
  rewrite Hl. cbn [mbind res_bind el_rsq el_next]. rewrite print_ele_ok by done. cbn [mbind res_bind].
  destruct xs as [|x' xs].
  - destruct ls; [|done]. simpl in Hc. subst. change (joined ";" (ele_text <$> [x])) with (ele_text x) in *.
    rewrite length_app in Hs. rewrite append_printf_fits by lia. by destruct fuel.
  - destruct ls as [|l' ls]; [done|]. destruct Hc as (-> & Hc). rewrite fmap_cons in Hs |- *.
    change (joined ";" (ele_text x :: (ele_text <$> x' :: xs))) with (ele_text x ++ ";"%char :: joined ";" (ele_text <$> x' :: xs)) in Hs |- *.
    rewrite !length_app in Hs. cbn [length] in Hs.
    rewrite append_printf_fits by lia. rewrite append_printf_fits by (rewrite length_app; simpl; lia).
    rewrite (IH fuel (Some l') (l' :: ls)); [by rewrite <- !app_assoc|by split|simpl in *; lia|].
    rewrite !length_app. cbn [length]. lia.
Qed.

Lemma query_print_ok rs_type h q ls xs :
  is_query h q ls xs -> Forall rsq_ok xs -> Z.of_nat (length (query_text rs_type xs)) < query_bufsize ->
  rs_query_base_print rs_type (Some q) h = Ok (Some (query_text rs_type xs)).
Proof.
  intros [Hc Hnd _] Hok Hlen. unfold rs_query_base_print, query_text in *.
  assert (E : rs_type ++ ":"%char :: joined ";"%char (ele_text <$> xs) = (rs_type ++ [":"%char]) ++ joined ";"%char (ele_text <$> xs))
    by by rewrite <- app_assoc.
  rewrite E in Hlen |- *.
  assert (E0 : append_printf query_bufsize (rs_type ++ [":"%char]) ([], 0) = (rs_type ++ [":"%char], Z.of_nat (length (rs_type ++ [":"%char])))).
  { apply (append_printf_fits _ []). rewrite length_app in Hlen. simpl. lia. }
  rewrite E0, (query_print_loop_ok _ _ _ ls xs); [done|done|by apply (chain_size h (q_head q) ls xs)|done|done].
Qed.

(** ** Parsing *)

(** Text that the tokenizer passes over as a whole. *)
Definition passes (delims : chars) (esc : ascii) (s : chars) : Prop :=
  forall rest, scan_list delims esc (s ++ rest) = (length s + scan_list delims esc rest)%nat.

Lemma passes_app delims esc s1 s2 : passes delims esc s1 -> passes delims esc s2 -> passes delims esc (s1 ++ s2).
Proof. intros H1 H2 rest. rewrite <- app_assoc, H1, H2, length_app. lia. Qed.

Lemma passes_char delims esc c : c ∉ delims -> c <> esc -> passes delims esc [c].
Proof. intros Hc He rest. simpl. unfold in_set. rewrite bool_decide_false by done. by rewrite decide_False. Qed.

Lemma passes_cons delims esc c s : c ∉ delims -> c <> esc -> passes delims esc s -> passes delims esc (c :: s).
Proof. intros Hc He Hs. apply (passes_app _ _ [c]); [by apply passes_char|done]. Qed.

Lemma passes_plain delims esc s : (forall c, c ∈ s -> c ∉ delims /\ c <> esc) -> passes delims esc s.
Proof.
  induction s as [|c s IH]; intros Hs; [done|]. destruct (Hs c) as [? ?]; [by left|].
  apply passes_cons; [done|done|]. apply IH. intros c' Hc'. apply Hs. by right.
Qed.

(** Escaped text without the delimiters in it. *)
Lemma passes_esc special delims esc t :
  esc ∉ delims -> (forall c, c ∈ t -> c ∈ delims -> c ∈ special) -> passes delims esc (esc_list special esc t).
Proof.
  intros Hesc. induction t as [|c t IH]; intros Ht; [done|]. cbn [esc_list].
  specialize (IH (fun c' Hc' => Ht c' (list_elem_of_further _ _ _ Hc'))).
  destruct (needs_escape special esc c) eqn:E.
  - intros rest. simpl. unfold in_set at 1. rewrite bool_decide_false by done. rewrite decide_True by done. by rewrite IH.
  - unfold needs_escape, in_set in E. apply orb_false_iff in E as [E1%bool_decide_eq_false_1 E2%bool_decide_eq_false_1].
    apply passes_cons; [|done|done]. intros Hin. apply E2, Ht; [by left|done].
Qed.

Lemma passes_stop d esc s rest : passes [d] esc s -> scan_list [d] esc (s ++ d :: rest) = length s.
Proof. intros Hs. rewrite Hs. simpl. unfold in_set. rewrite bool_decide_true by by left. lia. Qed.

Lemma passes_end delims esc s : passes delims esc s -> scan_list delims esc s = length s.
Proof. intros Hs. specialize (Hs []). by rewrite app_nil_r, Nat.add_0_r in Hs. Qed.

Lemma str_at_insert mem i c q s : 0 <= i < q -> str_at mem q s -> str_at (<[Z.to_nat i := c]> mem) q s.
Proof. intros Hi [Hq [post Hd]]. split; [done|]. exists post. by rewrite drop_insert_lt by lia. Qed.

(** Strings behind [k] are the same in both memories. *)
Definition same_after (k : Z) (mem mem' : chars) : Prop := forall q s, k < q -> str_at mem q s -> str_at mem' q s.

Lemma next_field_mid mem p e rest :
  str_at mem p (e ++ ":"%char :: rest) -> NUL ∉ e -> NUL ∉ rest -> rest <> [] -> passes [":"%char] "\"%char e ->
  exists mem', next_field mem (Some p) = Ok (e, mem', Some (p + Z.of_nat (length e) + 1)) /\
    str_at mem' (p + Z.of_nat (length e) + 1) rest /\ same_after (p + Z.of_nat (length e)) mem mem'.
Proof.
  intros Hs He Hr Hne Hp. pose proof Hs as [Hp0 _].
  destruct (token_call mem p None (Some p) e ":"%char rest eq_refl "\"%char) as (mem' & E & Hs1 & Hs2 & Hm);
    [done|done|done|done|by apply passes_stop|done|].
  exists mem'. unfold next_field. rewrite E. cbn [mbind res_bind]. unfold token_str. rewrite (str_at_c_str _ _ _ He Hs1).
  split; [done|]. split; [done|]. intros q s Hq. rewrite Hm. apply str_at_insert. lia.
Qed.

Lemma next_field_last mem p e :
  str_at mem p e -> NUL ∉ e -> passes [":"%char] "\"%char e ->
  exists mem', next_field mem (Some p) = Ok (e, mem', None) /\ same_after (p + Z.of_nat (length e)) mem mem'.
Proof.
  intros Hs He Hp. pose proof Hs as [Hp0 _].
  destruct (token_call_last mem p None (Some p) e ":"%char eq_refl "\"%char) as (mem' & E & Hs1 & Hm);
    [done|by apply passes_end|done|].
  exists mem'. unfold next_field. rewrite E. cbn [mbind res_bind]. unfold token_str. rewrite (str_at_c_str _ _ _ He Hs1).
  split; [done|]. intros q s Hq. rewrite Hm. apply str_at_insert. lia.
Qed.

(** What comes back: a missing key or value is read as an empty one. *)
Definition rsq_norm (x : rsq) : rsq :=
  Rsq (rq_op x) (Some (default [] (rq_key x))) (Some (default [] (rq_val x))) (rq_key_op x) (rq_val_op x).

Lemma atoi_fmt n : int32_ok n = true -> atoi (fmt_int n) = n.
Proof. intros Hn%int32_range. unfold atoi. by rewrite scan_fmt_int. Qed.

Lemma unescaped_esc s : NUL ∉ s -> unescaped (esc_list [":"%char] "\"%char s) = s.
Proof. intros Hs. unfold unescaped, tbx_stk_unescape_text. rewrite unescape_esc_list. by rewrite until_nul_app. Qed.

Lemma fmt_int_field n : int32_ok n = true -> NUL ∉ fmt_int n /\ passes [":"%char] "\"%char (fmt_int n) /\ fmt_int n <> [].
Proof.
  intros Hn. pose proof (fmt_int_no_special n Hn) as Hs. split_and!.
  - intros Hin%Hs. tauto.
  - apply passes_plain. intros c Hc%Hs. rewrite list_elem_of_singleton. tauto.
  - apply int32_range in Hn. destruct (last_fmt_int n Hn) as (c & Hc & _). by intros E; rewrite E in Hc.
Qed.

Lemma key_field s : text_ok s -> NUL ∉ esc_list [":"%char] "\"%char s /\ passes [":"%char] "\"%char (esc_list [":"%char] "\"%char s).
Proof. intros [Hn _]. split; [by apply esc_list_nonul|]. apply passes_esc; [by rewrite list_elem_of_singleton|done]. Qed.

Lemma ele_text_eq x :
  rsq_ok x ->
  ele_text x = fmt_int (rq_op x) ++ ":"%char :: esc_list [":"%char] "\"%char (default [] (rq_key x)) ++ ":"%char ::
    fmt_int (rq_key_op x) ++ ":"%char :: esc_list [":"%char] "\"%char (default [] (rq_val x)) ++ ":"%char :: fmt_int (rq_val_op x).
Proof.
  intros (Hk & Hv & H1 & H2 & H3). unfold ele_text, ele_fields. csimpl.
  by rewrite !(esc_list_plain (fmt_int _)) by by apply fmt_int_no_special.
Qed.

#[local] Opaque fmt_int esc_list.

Lemma nonul_sep s1 s2 : NUL ∉ s1 -> NUL ∉ s2 -> NUL ∉ s1 ++ ":"%char :: s2.
Proof. intros H1 H2. rewrite not_elem_of_app, not_elem_of_cons. by split_and!. Qed.

Lemma sep_nonempty s1 s2 : s1 ++ ":"%char :: s2 <> [].
Proof. by destruct s1. Qed.

Lemma ele_text_facts x : rsq_ok x -> NUL ∉ ele_text x /\ ele_text x <> [] /\ passes [";"%char] "\"%char (ele_text x).
Proof.
  intros Hx. rewrite ele_text_eq by done. destruct Hx as (Hk & Hv & H1 & H2 & H3).
  pose proof (key_field _ Hk) as [Hk1 _]. pose proof (key_field _ Hv) as [Hv1 _].
  destruct (fmt_int_field _ H1) as (Hn1 & _ & Hne). destruct (fmt_int_field _ H2) as (Hn2 & _ & _). destruct (fmt_int_field _ H3) as (Hn3 & _ & _).
  assert (Hnum : forall n, int32_ok n = true -> passes [";"%char] "\"%char (fmt_int n)).
  { intros n Hn. apply passes_plain. intros c Hc. destruct (fmt_int_no_special n Hn c Hc) as (_ & _ & ? & ?).
    split; [by rewrite list_elem_of_singleton|done]. }
  assert (Htxt : forall s, text_ok s -> passes [";"%char] "\"%char (esc_list [":"%char] "\"%char s)).
  { intros s [_ Hs]. apply passes_esc; [by rewrite list_elem_of_singleton|]. intros c Hc ->%list_elem_of_singleton. done. }
  split; [|split; [apply sep_nonempty|]].
  - do 4 (apply nonul_sep; [assumption|]). assumption.
  - do 4 (apply passes_app; [by auto|]; apply passes_cons; [by rewrite list_elem_of_singleton|done|]). by auto.
Qed.

Lemma parse_ele_ok mem p x :
  rsq_ok x -> str_at mem p (ele_text x) ->
  exists mem', parse_ele mem (Some p) = Ok (rsq_norm x, mem', None) /\ same_after (p + Z.of_nat (length (ele_text x))) mem mem'.
Proof.
  intros Hx. rewrite ele_text_eq by done. destruct Hx as (Hk & Hv & H1 & H2 & H3). intros Hs.
  destruct (key_field _ Hk) as [Hk1 Hk2], (key_field _ Hv) as [Hv1 Hv2].
  destruct (fmt_int_field _ H1) as (Hn1 & Hp1 & _), (fmt_int_field _ H2) as (Hn2 & Hp2 & _), (fmt_int_field _ H3) as (Hn3 & Hp3 & Hne3).
  unfold parse_ele, rsq_norm. set (k := default [] (rq_key x)) in *. set (v := default [] (rq_val x)) in *.
  set (ek := esc_list _ _ k) in *. set (ev := esc_list _ _ v) in *.
  destruct (next_field_mid mem p _ _ Hs) as (m1 & -> & S1 & F1); [assumption|do 3 (apply nonul_sep; [assumption|]); assumption|apply sep_nonempty|assumption|]. cbn [mbind res_bind].
  destruct (next_field_mid m1 _ _ _ S1) as (m2 & -> & S2 & F2); [assumption|do 2 (apply nonul_sep; [assumption|]); assumption|apply sep_nonempty|assumption|]. cbn [mbind res_bind].
  destruct (next_field_mid m2 _ _ _ S2) as (m3 & -> & S3 & F3); [assumption|do 1 (apply nonul_sep; [assumption|]); assumption|apply sep_nonempty|assumption|]. cbn [mbind res_bind].
  destruct (next_field_mid m3 _ _ _ S3) as (m4 & -> & S4 & F4); [assumption..|]. cbn [mbind res_bind].
  destruct (next_field_last m4 _ _ S4) as (m5 & -> & F5); [assumption..|]. cbn [mbind res_bind].
  exists m5. split.
  - rewrite !atoi_fmt by done. unfold ek, ev. by rewrite !unescaped_esc by (apply Hk || apply Hv).
  - intros q s Hq Hsq. repeat (rewrite length_app in Hq; cbn [length] in Hq). apply F5; [lia|]. apply F4; [lia|]. apply F3; [lia|]. apply F2; [lia|]. apply F1; [lia|done].
Qed.

(** The text of several elements, taken apart at the first semicolon. *)
Lemma first_token mem p str lst x xs pre :
  Forall rsq_ok (x :: xs) -> (match str with None => lst | Some _ => str end) = Some p ->
  NUL ∉ pre -> passes [";"%char] "\"%char pre -> str_at mem p (pre ++ joined ";"%char (ele_text <$> x :: xs)) ->
  exists mem' bstate fin,
    tbx_stk_escape_string_token mem str [";"%char] "\"%char false lst = Ok (Some p, mem', bstate, fin) /\
    str_at mem' p (pre ++ ele_text x) /\
    match xs with
    | [] => bstate = None
    | _ => exists p', bstate = Some p' /\ p + Z.of_nat (length (pre ++ ele_text x)) < p' /\ str_at mem' p' (joined ";"%char (ele_text <$> xs))
    end.
Proof.
  intros Hok Hptr Hpre Hpass Hs. apply Forall_cons in Hok as [Hx Hok].
  destruct (ele_text_facts x Hx) as (Hn & Hne & Hp). assert (Hpp : passes [";"%char] "\"%char (pre ++ ele_text x)) by by apply passes_app.
  assert (Hnn : NUL ∉ pre ++ ele_text x) by (rewrite not_elem_of_app; by split). destruct xs as [|x' xs].
  - destruct (token_call_last mem p str lst (pre ++ ele_text x) ";"%char Hptr "\"%char) as (mem' & E & Hs1 & _);
      [assumption|by apply passes_end|exact Hs|].
    by exists mem', None, 1.
  - rewrite fmap_cons in Hs.
    change (joined ";" (ele_text x :: (ele_text <$> x' :: xs))) with (ele_text x ++ ";"%char :: joined ";" (ele_text <$> x' :: xs)) in Hs.
    rewrite app_assoc in Hs. apply Forall_cons in Hok as [Hx' Hok'].
    destruct (ele_text_facts x' Hx') as (Hn' & Hne' & _).
    destruct (token_call mem p str lst (pre ++ ele_text x) ";"%char (joined ";"%char (ele_text <$> x' :: xs)) Hptr "\"%char)
      as (mem' & E & Hs1 & Hs2 & _); [assumption| |done| |by apply passes_stop|exact Hs|].
    + clear -Hx' Hok' Hn'. revert x' Hx' Hn'. induction Hok' as [|y xs Hy Hok IH]; intros x' Hx' Hn'; [done|].
      rewrite fmap_cons. change (joined ";" (ele_text x' :: (ele_text <$> y :: xs))) with (ele_text x' ++ ";"%char :: joined ";" (ele_text <$> y :: xs)).
      rewrite not_elem_of_app, not_elem_of_cons. split_and!; [assumption|done|]. apply IH; [done|]. by apply ele_text_facts.
    + destruct xs; csimpl; [done|]. intros [? _]%app_nil. done.
    + exists mem', (Some (p + Z.of_nat (length (pre ++ ele_text x)) + 1)), 0. split; [done|]. split; [done|].
      eexists. split; [done|]. split; [lia|done].
Qed.

Lemma query_parse_loop_ok fuel mem bstate p x xs root ls ys h :
  Forall rsq_ok (x :: xs) -> (length (x :: xs) <= fuel)%nat -> str_at mem p (ele_text x) ->
  match xs with
  | [] => bstate = None
  | _ => exists p', bstate = Some p' /\ p + Z.of_nat (length (ele_text x)) < p' /\ str_at mem p' (joined ";"%char (ele_text <$> xs))
  end ->
  chain h root ls ys -> NoDup ls ->
  exists ns h', query_parse_loop fuel mem bstate (Some p) root (last ls) h = Ok (head (ls ++ ns), last (ls ++ ns), h') /\
    chain h' (head (ls ++ ns)) (ls ++ ns) (ys ++ (rsq_norm <$> x :: xs)) /\ NoDup (ls ++ ns) /\ (forall l, l ∈ ns -> h !! l = None).
Proof.
  revert fuel mem bstate p x root ls ys h. induction xs as [|x' xs IH]; intros fuel mem bstate p x root ls ys h Hok Hf Hs Hb Hc Hnd.
  all: pose proof Hok as [Hx Hok']%Forall_cons; destruct fuel as [|fuel]; [simpl in Hf; lia|]; cbn [query_parse_loop].
  all: destruct (parse_ele_ok mem p x Hx Hs) as (mem1 & -> & Hsame); cbn [mbind res_bind].
  all: pose proof (ele_alloc_fresh (rsq_norm x) h) as Hfr; unfold ele_alloc in *; cbn [fst] in Hfr.
  all: set (n := fresh (dom h)) in *; set (h1 := <[n := Ele (rsq_norm x) None]> h).
  all: assert (Hnls : n ∉ ls) by (intros Hin; destruct (chain_dom h root ls ys n Hc Hin); congruence).
  all: destruct (link_new h1 root ls ys n (rsq_norm x)) as (h2 & -> & Hc2 & Hnd2 & Hf2);
    [eapply chain_frame; [|exact Hc]; intros l Hl; apply lookup_insert_ne; by intros ->|done|done|apply lookup_insert_eq|].
  all: cbn [mbind res_bind].
  - subst bstate. simpl. exists [n], h2. rewrite last_snoc. pose proof (chain_head _ _ _ _ Hc2) as Hh. rewrite <- Hh.
    split_and!; [done|done|done|]. by intros l ->%list_elem_of_singleton.
  - destruct Hb as (p' & -> & Hlt & Hs'). apply Hsame in Hs'; [|done].
    destruct (first_token mem1 p' None (Some p') x' xs [] Hok' eq_refl) as (mem2 & bstate & fin & -> & Hs2 & Hb2);
      [apply not_elem_of_nil|done|done|]. cbn [mbind res_bind app] in *.
    pose proof Hok' as [Hx' _]%Forall_cons. destruct (ele_text_facts x' Hx') as (Hn' & Hne' & _).
    unfold token_str. rewrite (str_at_c_str _ _ _ Hn' Hs2). cbn [mbind res_bind]. destruct (ele_text x') as [|c txt] eqn:Ex; [done|]. rewrite <- Ex in *.
    destruct (IH fuel mem2 bstate p' x' (match root with None => Some n | Some _ => root end) (ls ++ [n]) (ys ++ [rsq_norm x]) h2)
      as (ns & h' & E & Hc' & Hnd' & Hns); [done|simpl in *; lia|done|done|done|done|].
    rewrite last_snoc in E. rewrite E.
    exists (n :: ns), h'. rewrite <- !app_assoc in *. cbn [app] in *. split_and!; [done|done|done|].
    intros l [->|Hl]%elem_of_cons; [done|]. pose proof (Hns l Hl) as Hn2. rewrite Hf2 in Hn2.
    + apply lookup_insert_None in Hn2. tauto.
    + intros Hin. apply NoDup_app in Hnd' as (_ & Hd & _). apply (Hd l Hin). by right.
Qed.

Lemma joined_length (ts : list chars) d : Forall (fun t => t <> []) ts -> (length ts <= length (joined d ts))%nat.
Proof.
  induction 1 as [|t ts Ht Hts IH]; [done|]. destruct ts as [|t' ts].
  - simpl. destruct t; [done|simpl; lia].
  - change (joined d (t :: t' :: ts)) with (t ++ d :: joined d (t' :: ts)). rewrite length_app. simpl in *. lia.
Qed.

(** C30: a query with elements whose keys and values have no semicolon, and
    whose text fits the buffer, is printed and parsed back to the same list
    of elements, with missing keys and values as empty ones, whatever other
    special characters they contain, if the name of the resource service has
    none. *)
Theorem query_roundtrip rs_type h q ls xs :
  is_query h q ls xs -> xs <> [] -> Forall rsq_ok xs -> no_special rs_type ->
  Z.of_nat (length (query_text rs_type xs)) < query_bufsize ->
  exists text q' h' ls', rs_query_base_print rs_type (Some q) h = Ok (Some text) /\
    rs_query_base_parse text h = Ok (q', h') /\ is_query h' q' ls' (rsq_norm <$> xs).
Proof.
  intros Hq Hne Hok Hty Hlen. exists (query_text rs_type xs).
  destruct xs as [|x xs]; [done|]. set (text := query_text rs_type (x :: xs)) in *.
  assert (Htext : text = (rs_type ++ [":"%char]) ++ joined ";"%char (ele_text <$> x :: xs)) by (unfold text, query_text; by rewrite <- app_assoc).
  assert (Hs : str_at (text ++ [NUL]) 0 ((rs_type ++ [":"%char]) ++ joined ";"%char (ele_text <$> x :: xs))).
  { rewrite <- Htext. split; [done|]. by exists []. }
  assert (Hn0 : NUL ∉ rs_type) by (intros Hin%Hty; tauto).
  assert (Hp0 : forall d, d = ":"%char \/ d = ";"%char -> passes [d] "\"%char rs_type).
  { intros d Hd. apply passes_plain. intros c Hc%Hty. rewrite list_elem_of_singleton. destruct Hd as [-> | ->]; tauto. }
  destruct (first_token (text ++ [NUL]) 0 (Some 0) None x xs (rs_type ++ [":"%char]) Hok eq_refl) as (m1 & bstate & fin & E1 & Hs1 & Hb1).
  { rewrite not_elem_of_app, list_elem_of_singleton. by split. }
  { apply passes_app; [by apply Hp0; right|]. apply passes_char; [by rewrite list_elem_of_singleton|done]. }
  { done. }
  pose proof Hok as [Hx Hok']%Forall_cons. destruct (ele_text_facts x Hx) as (Hn & Hnx & _). rewrite <- app_assoc in Hs1.
  destruct (token_call m1 0 (Some 0) None rs_type ":"%char (ele_text x) eq_refl "\"%char) as (m2 & E2 & _ & Hs2 & Hm2);
    [done|done|done|done|apply passes_stop; by apply Hp0; left|done|].
  destruct (query_parse_loop_ok (length m2) m2 bstate (0 + Z.of_nat (length rs_type) + 1) x xs None [] [] h)
    as (ns & h' & E3 & Hc & Hnd & _); [done| |done| |done|constructor|].
  { rewrite Hm2, length_insert. pose proof (str_at_len _ _ _ Hs1) as Hl1.
    rewrite !length_app in Hl1. destruct (ele_text x) as [|c0 t0]; [done|]. simpl length in *. destruct xs as [|x' xs]; [simpl; lia|].
    destruct Hb1 as (p' & _ & Hlt & Hs'). pose proof (str_at_len _ _ _ Hs') as Hl2.
    assert (Hj : (length (ele_text <$> x' :: xs) <= length (joined ";"%char (ele_text <$> x' :: xs)))%nat).
    { apply joined_length. apply Forall_fmap. eapply Forall_impl; [exact Hok'|]. intros y Hy. by apply ele_text_facts. }
    rewrite length_fmap in Hj. rewrite length_app in Hlt. lia. }
  { destruct xs as [|x' xs]; [done|]. destruct Hb1 as (p' & -> & Hlt & Hs'). exists p'. rewrite !length_app in Hlt. simpl in Hlt.
    split_and!; [done|lia|]. rewrite Hm2. apply str_at_insert; [lia|done]. }
  exists (Query (head ns) (last ns)), h', ns. split; [by apply (query_print_ok _ _ _ ls)|]. split.
  - unfold rs_query_base_parse. rewrite E1. cbn [mbind res_bind]. rewrite E2. cbn [mbind res_bind].
    change (last []) with (@None loc) in E3. rewrite E3. done.
  - split; [exact Hc|exact Hnd|done].
Qed.

(** ** Examples *)

Definition query_xs : list rsq :=
  [Rsq 1 (Some (lit "rid:key")) (Some (lit "a\b")) 1 1; Rsq 2 None None 0 0].
Definition query_heap : heap := {[1%positive := Ele (Rsq 1 (Some (lit "rid:key")) (Some (lit "a\b")) 1 1) (Some 2%positive);
                                  2%positive := Ele (Rsq 2 None None 0 0) None; 3%positive := Ele (Rsq 3 None None 0 0) None]}.
Definition query_a : rsq_base := Query (Some 1%positive) (Some 2%positive).
Definition query_b : rsq_base := Query (Some 3%positive) (Some 3%positive).

Lemma query_a_ok : is_query query_heap query_a [1%positive; 2%positive] query_xs.
Proof.
  split; [|repeat constructor; set_solver|done]. split; [done|]. eexists. split; [done|]. split; [done|]. eexists. split; done.
Qed.

Lemma query_b_ok : is_query query_heap query_b [3%positive] [Rsq 3 None None 0 0].
Proof. split; [|apply NoDup_singleton|done]. split; [done|]. eexists. split; done. Qed.

Lemma query_append_ok_witness :
  exists q' h' ns, rs_query_base_append query_a (Some query_b) query_heap = Ok (q', h') /\
    is_query h' q' ([1%positive; 2%positive] ++ ns) (query_xs ++ [Rsq 3 None None 0 0]) /\
    is_query h' query_b [3%positive] [Rsq 3 None None 0 0] /\ (forall l, l ∈ [3%positive] -> l ∉ [1%positive; 2%positive] ++ ns).
Proof. apply (query_append_ok query_heap query_a _ query_xs query_b _ _ query_a_ok query_b_ok); [set_solver|done]. Defined.

Lemma query_append_crash_witness :
  exists q', rs_query_base_append query_a (Some rs_query_base_new) query_heap = Ok (q', query_heap) /\
    rs_query_base_add (Some q') 3 None 0 None 0 query_heap = Fault NullDeref.
Proof.
  apply (query_append_crash query_heap query_a _ query_xs rs_query_base_new 3 None None 0 0 query_a_ok);
    [done|by split; [|constructor|]|unfold RSQ_BASE_OP_MAX_VAL; lia|unfold RSQ_BASE_KV_MAX_VAL; lia|unfold RSQ_BASE_KV_MAX_VAL; lia].
Defined.

Lemma query_roundtrip_witness :
  exists text q' h' ls', rs_query_base_print (lit "simple") (Some query_a) query_heap = Ok (Some text) /\
    rs_query_base_parse text query_heap = Ok (q', h') /\ is_query h' q' ls' (rsq_norm <$> query_xs).
Proof.
  apply (query_roundtrip (lit "simple") query_heap query_a _ query_xs query_a_ok); [done| | |vm_compute; reflexivity].
  - repeat constructor; apply (bool_decide_unpack _); vm_compute; exact I.
  - intros c Hc. repeat (apply elem_of_cons in Hc as [->|Hc]; [done|]). by apply not_elem_of_nil in Hc.
Defined.

(** A query without elements is read back with one. *)
Lemma query_empty_text :
  exists q h, rs_query_base_parse (query_text (lit "simple") []) ∅ = Ok (q, h) /\
    is_query h q [1%positive] [Rsq 0 (Some []) (Some []) 0 0].
Proof.
  eexists _, _. split; [vm_compute; reflexivity|]. split; [|apply NoDup_singleton|done]. split; [done|]. eexists. split; done.
Qed.
