(* ===== verification/SkipList.v ===== *)
(** * Skip lists ([toolbox/skiplist.c])

    Nodes with a random number of [next] pointers live on a heap; a search
    walks the top level and steps down.  The numbers drawn for the levels are
    a parameter.  The file shows that, whatever they are, the list is an
    ordered association list: the pointers of every level are determined by
    the sequence of the nodes ([layout]), a search ends at the predecessors on
    all levels, and linking or unlinking a node level by level goes from one
    layout to the next.

    Keys are held by value: a key must not change while it is in a list.  The
    first data element is part of its node, further elements of the same key
    follow in a list. *)
From stdpp Require Import sorting.
From S2P Require Import Prelude.
Local Open Scope Z_scope.

Definition SKIPLIST_MAX_LEVEL : nat := 32.

(** What [compare->fn] promises: a total order, with 0 for equal keys. *)
Class CompareOk {K} (fn : K -> K -> Z) : Prop := {
  cmp_zero a b : fn a b = 0 <-> a = b;
  cmp_flip a b : fn a b < 0 <-> 0 < fn b a;
  cmp_trans a b c : fn a b < 0 -> fn b c < 0 -> fn a c < 0 }.

(** [skiplist_compare_fn_ex_off]; the same function compares ids and, with a
    scale of 1, the [int]s. *)
Definition skiplist_compare_fn_ex_off (a b : Z) : Z :=
  if a <? b then -1 else if a =? b then 0 else 1.

#[export] Instance ex_off_compare : CompareOk skiplist_compare_fn_ex_off.
Proof.
  split; unfold skiplist_compare_fn_ex_off; intros; repeat case_match; breflect; naive_solver lia.
Qed.

Section code.
Context {K D : Type} `{EqDecision D}.

(** ** Data *)

(** [tbx_sl_node_t]: [next] has [level + 1] pointers (the code allocates one
    more and never uses it); [NULL] as key marks the head.  [sn_data] is
    [ele.data] and [sn_more] the data of the elements after [ele.next]. *)
Record sl_node := SNode {
  sn_level : nat;
  sn_key : option K;
  sn_data : option D;
  sn_more : list (option D);
  sn_next : list (option loc) }.

(** [tbx_sl_t] with the memory it uses, the count of numbers drawn so far and
    the arguments of the calls of [data_free]. *)
Record sl := SL {
  max_levels : nat;
  current_max : nat;
  allow_dups : bool;
  n_keys : Z;
  n_ele : Z;
  sl_head : loc;
  sl_nodes : gmap loc sl_node;
  draws : nat;
  freed : list (option D) }.

Abbreviation slM := (ST sl).

Definition set_nodes (h : gmap loc sl_node) (s : sl) : sl :=
  SL (max_levels s) (current_max s) (allow_dups s) (n_keys s) (n_ele s) (sl_head s) h (draws s) (freed s).
Definition set_current_max (c : nat) (s : sl) : sl :=
  SL (max_levels s) c (allow_dups s) (n_keys s) (n_ele s) (sl_head s) (sl_nodes s) (draws s) (freed s).
Definition set_counts (k e : Z) (s : sl) : sl :=
  SL (max_levels s) (current_max s) (allow_dups s) k e (sl_head s) (sl_nodes s) (draws s) (freed s).
Definition set_draws (d : nat) (s : sl) : sl :=
  SL (max_levels s) (current_max s) (allow_dups s) (n_keys s) (n_ele s) (sl_head s) (sl_nodes s) d (freed s).
Definition set_freed (f : list (option D)) (s : sl) : sl :=
  SL (max_levels s) (current_max s) (allow_dups s) (n_keys s) (n_ele s) (sl_head s) (sl_nodes s) (draws s) f.

Definition st_modify (f : sl -> sl) : slM unit := fun s => Ok (tt, f s).

(** [sl->data_free(d)]. *)
Definition data_free (d : option D) : slM unit := st_modify (fun s => set_freed (freed s ++ [d]) s).

Definition node_at (h : gmap loc sl_node) (p : option loc) : res sl_node :=
  match p with
  | None => Fault NullDeref
  | Some l => match h !! l with Some n => Ok n | None => Fault BadPointer end
  end.

(** [p->next[i]]. *)
Definition next_at (h : gmap loc sl_node) (p : option loc) (i : nat) : res (option loc) :=
  n ← node_at h p;
  match sn_next n !! i with Some q => Ok q | None => Fault OutOfBounds end.

Definition load (p : option loc) : slM sl_node := fun s => n ← node_at (sl_nodes s) p; Ok (n, s).
Definition get_next (p : option loc) (i : nat) : slM (option loc) := fun s => q ← next_at (sl_nodes s) p i; Ok (q, s).

(** A change of the node [p] points to. *)
Definition update (p : option loc) (f : sl_node -> sl_node) : slM unit := fun s =>
  match p with
  | None => Fault NullDeref
  | Some l =>
    match sl_nodes s !! l with
    | None => Fault BadPointer
    | Some n => Ok (tt, set_nodes (<[l := f n]> (sl_nodes s)) s)
    end
  end.

Definition with_next (i : nat) (q : option loc) (n : sl_node) : sl_node :=
  SNode (sn_level n) (sn_key n) (sn_data n) (sn_more n) (<[i := q]> (sn_next n)).
Definition with_ele (d : option D) (m : list (option D)) (n : sl_node) : sl_node :=
  SNode (sn_level n) (sn_key n) d m (sn_next n).
Definition with_key (k : option K) (d : option D) (n : sl_node) : sl_node :=
  SNode (sn_level n) k d (sn_more n) (sn_next n).

Definition set_next (p : option loc) (i : nat) (q : option loc) : slM unit :=
  _ ← get_next p i; update p (with_next i q).

(** [ptr[i]] and [ptr[i] = p] for an array on the C stack. *)
Definition ptr_get (ptr : list (option loc)) (i : nat) : res (option loc) :=
  match ptr !! i with Some p => Ok p | None => Fault OutOfBounds end.
Definition ptr_set (ptr : list (option loc)) (i : nat) (p : option loc) : res (list (option loc)) :=
  if decide (i < length ptr)%nat then Ok (<[i := p]> ptr) else Fault OutOfBounds.

Definition ptr_zero : list (option loc) := replicate SKIPLIST_MAX_LEVEL None.

Definition lift {A} (r : res A) : slM A := fun s => a ← r; Ok (a, s).

(** ** Creation and destruction *)

Definition new_node (level : nat) : sl_node := SNode level None None [] (replicate (S level) None).

Definition create_skiplist_node (level : nat) : slM loc := fun s =>
  let l := fresh (dom (sl_nodes s)) in Ok (l, set_nodes (<[l := new_node level]> (sl_nodes s)) s).

Fixpoint free_all (m : list (option D)) : slM unit :=
  match m with [] => mret tt | d :: m => _ ← data_free d; free_all m end.

Definition destroy_skiplist_node (sn : option loc) : slM unit :=
  n ← load sn;
  _ ← (match sn_data n with Some d => data_free (Some d) | None => mret tt end);
  _ ← free_all (sn_more n);
  st_modify (fun s => set_nodes (match sn with Some l => delete l (sl_nodes s) | None => sl_nodes s end) s).

Definition tbx_sl_init_full (maxlevels : nat) (dups : bool) : res sl :=
  match maxlevels with
  | O => Fault Aborted
  | S level => Ok (SL maxlevels 0 dups 0 0 1%positive {[1%positive := new_node level]} 0 [])
  end.

(** Nothing but the lack of memory makes the initialisation fail. *)
Definition tbx_sl_new_full (maxlevels : nat) (dups : bool) : res sl := tbx_sl_init_full maxlevels dups.

Fixpoint empty_loop (fuel : nat) (sn : option loc) : slM unit :=
  match sn with
  | None => mret tt
  | Some _ =>
    match fuel with
    | O => st_fail OutOfFuel
    | S fuel => q ← get_next sn 0; _ ← destroy_skiplist_node sn; empty_loop fuel q
    end
  end.

(** [memset(sn->next, 0, max_levels)] on the head. *)
Definition clear_next (n : sl_node) : sl_node :=
  SNode (sn_level n) (sn_key n) (sn_data n) (sn_more n) (replicate (length (sn_next n)) None).

Definition tbx_sl_empty : slM unit :=
  _ ← st_modify (fun s => set_current_max 0 (set_counts 0 0 s));
  s ← st_get;
  sn2 ← get_next (Some (sl_head s)) 0;
  _ ← update (Some (sl_head s)) clear_next;
  empty_loop (size (sl_nodes s)) sn2.

Definition tbx_sl_fini : slM unit :=
  _ ← tbx_sl_empty;
  s ← st_get;
  destroy_skiplist_node (Some (sl_head s)).

Definition tbx_sl_del : slM unit := tbx_sl_fini.

(** The initialisation returns 0 when it succeeds. *)
Definition tbx_sl_init : res (Z * sl) := s ← tbx_sl_init_full 20 false; Ok (0, s).

(** [if (!tbx_sl_init(sl))]: the list is deleted again. *)
Definition tbx_sl_new : res (option sl) :=
  '(err, s) ← tbx_sl_init;
  if err =? 0 then '(_, _) ← tbx_sl_del s; Ok None else Ok (Some s).

(** ** Searching *)

(** One level: [while ((cmp < 0) && (sn->next[i] != NULL))].  [c] compares a
    node's key with what is looked for. *)
Fixpoint find_walk (fuel : nat) (h : gmap loc sl_node) (c : option K -> res Z) (i : nat) (cmp : Z) (sn : option loc)
  : res (Z * option loc) :=
  if negb (cmp <? 0) then Ok (cmp, sn) else
  q ← next_at h sn i;
  match q with
  | None => Ok (cmp, sn)
  | Some _ =>
    match fuel with
    | O => Fault OutOfFuel
    | S fuel =>
      n ← node_at h q;
      cmp ← c (sn_key n);
      find_walk fuel h c i cmp (if cmp <? 0 then q else sn)
    end
  end.

(** The levels from [i] down to 0. *)
Fixpoint find_levels (h : gmap loc sl_node) (c : option K -> res Z) (i : nat) (sn : option loc) (ptr : list (option loc))
  : res (Z * list (option loc)) :=
  '(cmp, sn) ← find_walk (size h) h c i (-1) sn;
  ptr ← ptr_set ptr i sn;
  match i with
  | O => Ok (cmp, ptr)
  | S i => find_levels h c i sn ptr
  end.

(** [(key == NULL) ? fixed_cmp : compare->fn(compare->arg, k, key)]; the
    comparison functions follow both pointers. *)
Definition key_compare (fn : K -> K -> Z) (key : option K) (fixed_cmp : Z) (k : option K) : res Z :=
  match key with
  | None => Ok fixed_cmp
  | Some key => match k with Some k => Ok (fn k key) | None => Fault NullDeref end
  end.

Definition find_key_compare (s : sl) (ptr : list (option loc)) (key : option K) (fn : K -> K -> Z) (fixed_cmp : Z)
  : res (Z * list (option loc)) :=
  find_levels (sl_nodes s) (key_compare fn key fixed_cmp) (current_max s) (Some (sl_head s)) ptr.

(** [sl->compare], and whether the n-th number drawn is below [sl->p]. *)
Context (compare : K -> K -> Z) (below_p : nat -> bool).

Definition find_key (ptr : list (option loc)) (key : option K) (fixed_cmp : Z) : slM (Z * list (option loc)) :=
  fun s => r ← find_key_compare s ptr key compare fixed_cmp; Ok (r, s).

Definition tbx_sl_first_key : slM (option K) :=
  s ← st_get;
  if n_keys s <=? 0 then mret None else
  '(_, ptr) ← find_key ptr_zero None 1;
  p ← lift (ptr_get ptr 0);
  q ← get_next p 0;
  n ← load q;
  mret (sn_key n).

Definition tbx_sl_key_last : slM (option K) :=
  s ← st_get;
  if n_keys s <=? 0 then mret None else
  '(_, ptr) ← find_key ptr_zero None (-1);
  p ← lift (ptr_get ptr 0);
  n ← load p;
  mret (sn_key n).

(** ** Insertion *)

(** The drawing loop: [room] more levels are allowed. *)
Fixpoint draw_level (room level c : nat) : nat * nat :=
  if below_p c then
    match room with O => (level, S c) | S room => draw_level room (S level) (S c) end
  else (level, S c).

Definition get_random_level : slM nat := fun s =>
  let '(level, c) := draw_level (pred (max_levels s)) 0 (draws s) in
  Ok (if (current_max s <? level)%nat then S (current_max s) else level, set_draws c s).

(** [for (i = from; n steps; i++) ptr[i] = p]. *)
Fixpoint ptr_fill (n from : nat) (p : option loc) (ptr : list (option loc)) : res (list (option loc)) :=
  match n with O => Ok ptr | S n => ptr ← ptr_set ptr from p; ptr_fill n (S from) p ptr end.

(** [for (i = from; n steps; i++)]: the new node is linked at level [i]. *)
Fixpoint link_levels (n from : nat) (sn2 : option loc) (ptr : list (option loc)) : slM unit :=
  match n with
  | O => mret tt
  | S n =>
    p ← lift (ptr_get ptr from);
    q ← get_next p from;
    _ ← set_next sn2 from q;
    _ ← set_next p from sn2;
    link_levels n (S from) sn2 ptr
  end.

(** Returns the node and the array, which has gained the upper levels. *)
Definition pos_tbx_sl_insert (ptr : list (option loc)) (key : K) (data : option D) : slM (option loc * list (option loc)) :=
  level ← get_random_level;
  sn2 ← create_skiplist_node level;
  s ← st_get;
  ptr ← (if (current_max s <? level)%nat then
           ptr ← lift (ptr_fill (level - current_max s) (S (current_max s)) (Some (sl_head s)) ptr);
           _ ← st_modify (set_current_max level);
           mret ptr
         else mret ptr);
  _ ← link_levels (S level) 0 (Some sn2) ptr;
  _ ← update (Some sn2) (with_key (Some key) data);
  mret (Some sn2, ptr).

Definition tbx_sl_insert (key : K) (data : option D) : slM Z :=
  '(cmp, ptr) ← find_key ptr_zero (Some key) 0;
  if cmp =? 0 then
    p ← lift (ptr_get ptr 0);
    sn ← get_next p 0;
    n ← load sn;
    s ← st_get;
    if negb (allow_dups s) then
      _ ← data_free (sn_data n);
      _ ← update sn (with_ele data (sn_more n));
      mret 0
    else
      _ ← update sn (with_ele (sn_data n) (data :: sn_more n));
      _ ← st_modify (fun s => set_counts (n_keys s) (n_ele s + 1) s);
      mret 0
  else
    _ ← st_modify (fun s => set_counts (n_keys s + 1) (n_ele s + 1) s);
    _ ← pos_tbx_sl_insert ptr key data;
    mret 0.

(** ** Removal *)

(** The scan of the further elements for [data]: whether it was found, and
    the elements left. *)
Fixpoint remove_ele (data : option D) (m : list (option D)) : bool * list (option D) :=
  match m with
  | [] => (false, [])
  | d :: m => if decide (d = data) then (true, m) else let '(f, m) := remove_ele data m in (f, d :: m)
  end.

(** [for (i = from; n steps; i++) ptr[i]->next[i] = sn2->next[i]]. *)
Fixpoint unlink_levels (n from : nat) (sn2 : option loc) (ptr : list (option loc)) : slM unit :=
  match n with
  | O => mret tt
  | S n =>
    q ← get_next sn2 from;
    p ← lift (ptr_get ptr from);
    _ ← set_next p from q;
    unlink_levels n (S from) sn2 ptr
  end.

(** [while ((i > 0) && (sl->head->next[i] == NULL)) i--]. *)
Fixpoint lower_max (h : gmap loc sl_node) (head : option loc) (i : nat) : res nat :=
  match i with
  | O => Ok O
  | S i' => q ← next_at h head i; match q with None => lower_max h head i' | Some _ => Ok i end
  end.

(** What is done when a node has lost its last element. *)
Definition remove_node (ptr : list (option loc)) : slM unit :=
  p ← lift (ptr_get ptr 0);
  sn2 ← get_next p 0;
  n ← load sn2;
  _ ← unlink_levels (S (sn_level n)) 0 sn2 ptr;
  s ← st_get;
  _ ← (if (sn_level n =? current_max s)%nat then
         i ← lift (lower_max (sl_nodes s) (Some (sl_head s)) (current_max s));
         st_modify (set_current_max i)
       else mret tt);
  _ ← st_modify (fun s => set_counts (n_keys s - 1) (n_ele s) s);
  destroy_skiplist_node sn2.

(** Without data all elements of the key are removed, otherwise the first one
    with that data.  The result is 0 when something was removed. *)
Definition tbx_sl_remove (key : K) (data : option D) : slM Z :=
  '(cmp, ptr) ← find_key ptr_zero (Some key) 0;
  if negb (cmp =? 0) then mret 1 else
  p ← lift (ptr_get ptr 0);
  sn ← get_next p 0;
  n ← load sn;
  match data with
  | None =>
    _ ← (match sn_data n with Some d => data_free (Some d) | None => mret tt end);
    _ ← update sn (with_ele None []);
    _ ← free_all (sn_more n);
    _ ← st_modify (fun s => set_counts (n_keys s) (n_ele s - 1 - Z.of_nat (length (sn_more n))) s);
    _ ← remove_node ptr;
    mret 0
  | Some _ =>
    if decide (sn_data n = data) then
      _ ← st_modify (fun s => set_counts (n_keys s) (n_ele s - 1) s);
      _ ← data_free data;
      match sn_more n with
      | d :: m => _ ← update sn (with_ele d m); mret 0
      | [] => _ ← update sn (with_ele None []); _ ← remove_node ptr; mret 0
      end
    else
      let '(found, m) := remove_ele data (sn_more n) in
      if found then
        _ ← st_modify (fun s => set_counts (n_keys s) (n_ele s - 1) s);
        _ ← data_free data;
        _ ← update sn (with_ele (sn_data n) m);
        mret 0
      else mret 1
  end.

(** ** Iteration and lookup *)

(** [tbx_sl_iter_t]; a pointer to an element is its node and its position. *)
Record sl_iter := Iter {
  it_ele : option (loc * nat);
  it_curr : option (loc * nat);
  it_prev : option (loc * nat);
  it_sn : option loc;
  it_ptr : list (option loc) }.

Definition tbx_sl_iter_search_compare (key : option K) (fn : K -> K -> Z) (round_mode : Z) : slM sl_iter := fun s =>
  '(cmp, ptr) ← find_key_compare s ptr_zero key fn 0;
  p ← ptr_get ptr 0;
  q ← next_at (sl_nodes s) p 0;
  let start sn := Iter (match sn with Some l => Some (l, O) | None => None end) None None sn ptr in
  if (round_mode <? -1) || ((round_mode <? 0) && negb (cmp =? 0)) then
    match p with
    | Some _ => Ok (start p, s)
    | None => Ok (start q, s)
    end
  else Ok (start q, s).

Definition tbx_sl_search_compare (key : K) (fn : K -> K -> Z) : slM (option D) :=
  it ← tbx_sl_iter_search_compare (Some key) fn 0;
  match it_sn it with
  | None => mret None
  | Some _ =>
    n ← load (it_sn it);
    cmp ← lift (key_compare fn (Some key) 0 (sn_key n));
    mret (if cmp =? 0 then sn_data n else None)
  end.

(** [for (i=0; i<=level; i++) ptr[i] = next[i]]. *)
Fixpoint ptr_copy (from : nat) (next : list (option loc)) (ptr : list (option loc)) : res (list (option loc)) :=
  match next with [] => Ok ptr | q :: next => ptr ← ptr_set ptr from q; ptr_copy (S from) next ptr end.

(** The data of an element, and its [next] pointer. *)
Definition ele_data (n : sl_node) (j : nat) : res (option D) :=
  match (sn_data n :: sn_more n) !! j with Some d => Ok d | None => Fault BadPointer end.
Definition ele_next (n : sl_node) (p : loc) (j : nat) : option (loc * nat) :=
  if decide (j < length (sn_more n))%nat then Some (p, S j) else None.

(** Returns the code, [*nkey] and [*ndata]. *)
Definition tbx_sl_next (it : sl_iter) : slM (Z * option K * option D * sl_iter) := fun s =>
  let done it := Ok ((1, None, None, it), s) in
  let take it := match it_ele it with
    | None => Fault NullDeref
    | Some (p, j) =>
      n ← node_at (sl_nodes s) (it_sn it);
      en ← node_at (sl_nodes s) (Some p);
      d ← ele_data en j;
      Ok ((0, sn_key n, d, Iter (ele_next en p j) (Some (p, j)) (it_curr it) (it_sn it) (it_ptr it)), s)
    end in
  match it_ele it with
  | Some _ => take it
  | None =>
    match it_sn it with
    | None => done (Iter None None (it_prev it) None (it_ptr it))
    | Some l =>
      n ← node_at (sl_nodes s) (Some l);
      q ← next_at (sl_nodes s) (Some l) 0;
      match q with
      | Some m => ptr ← ptr_copy 0 (sn_next n) (it_ptr it); take (Iter (Some (m, O)) (it_curr it) (it_prev it) (Some m) ptr)
      | None => done (Iter None None (it_prev it) None (it_ptr it))
      end
    end
  end.

(** The loop the callers write: all pairs from an iterator on. *)
Fixpoint sl_scan (fuel : nat) (it : sl_iter) : slM (list (option K * option D)) :=
  match fuel with
  | O => st_fail OutOfFuel
  | S fuel =>
    '(err, key, data, it) ← tbx_sl_next it;
    if err =? 0 then rest ← sl_scan fuel it; mret ((key, data) :: rest) else mret []
  end.

End code.

Arguments sl_node : clear implicits.
Arguments sl : clear implicits.

(** ** The shape of a list

    A list is described by its nodes in order, the head first.  [vis e i]
    says that [e] is linked at level [i]; it is a parameter because nodes are
    linked and unlinked one level at a time. *)
Section shape.
Context {K D : Type} `{EqDecision D}.

Record ent := Ent {
  e_loc : loc;
  e_level : nat;
  e_key : option K;
  e_data : option D;
  e_more : list (option D) }.

Implicit Types (e x y : ent) (l : list ent) (vis : ent -> nat -> bool).

Definition nxt vis (i : nat) l : option loc := e_loc <$> head (filter (fun e => vis e i = true) l).

(** The node of [e] when [l] comes after it. *)
Definition cell vis e l : sl_node K D :=
  SNode (e_level e) (e_key e) (e_data e) (e_more e) ((fun i => nxt vis i l) <$> seq 0 (S (e_level e))).

Fixpoint layout vis l : gmap loc (sl_node K D) :=
  match l with [] => ∅ | e :: l => <[e_loc e := cell vis e l]> (layout vis l) end.

Definition full e (i : nat) : bool := (i <=? e_level e)%nat.

Definition locs l : list loc := e_loc <$> l.

Lemma locs_app_nodup l1 l2 :
  NoDup (locs (l1 ++ l2)) <-> NoDup (locs l1) /\ (forall x y, x ∈ l1 -> y ∈ l2 -> e_loc x <> e_loc y) /\ NoDup (locs l2).
Proof.
  unfold locs. rewrite fmap_app, NoDup_app. setoid_rewrite list_elem_of_fmap. naive_solver.
Qed.

Lemma nxt_cons vis i e l : nxt vis i (e :: l) = if vis e i then Some (e_loc e) else nxt vis i l.
Proof. unfold nxt. rewrite filter_cons. destruct (vis e i) eqn:E; case_decide; congruence || done. Qed.

Lemma nxt_app_skip vis i l1 l2 : (forall x, x ∈ l1 -> vis x i = false) -> nxt vis i (l1 ++ l2) = nxt vis i l2.
Proof.
  induction l1 as [|x l1 IH]; intros Hx; [done|]. simpl. rewrite nxt_cons, (Hx x) by by left.
  apply IH. intros y Hy. apply Hx. by right.
Qed.

Lemma nxt_ext vis vis' i l : (forall x, x ∈ l -> vis x i = vis' x i) -> nxt vis i l = nxt vis' i l.
Proof.
  induction l as [|x l IH]; intros Hx; [done|]. rewrite !nxt_cons, (Hx x) by by left.
  destruct (vis' x i); [done|]. apply IH. intros y Hy. apply Hx. by right.
Qed.

(** The change of one node's visibility is seen up to the next visible node. *)
Lemma nxt_hidden vis vis' i l1 x l2 :
  vis x i = true -> vis' x i = true -> (forall y, y ∈ l1 -> vis y i = vis' y i) ->
  nxt vis i (l1 ++ x :: l2) = nxt vis' i (l1 ++ x :: l2).
Proof.
  intros Hx Hx'. induction l1 as [|y l1 IH]; intros Hy; simpl; rewrite !nxt_cons.
  { by rewrite Hx, Hx'. }
  rewrite (Hy y) by by left. destruct (vis' y i); [done|]. apply IH. intros z Hz. apply Hy. by right.
Qed.

Lemma nxt_none vis i l : nxt vis i l = None <-> forall x, x ∈ l -> vis x i = false.
Proof.
  induction l as [|y l IH]; [unfold nxt; simpl; split; [by intros _ x ?%not_elem_of_nil|done]|].
  rewrite nxt_cons. destruct (vis y i) eqn:E.
  - split; [done|]. intros Hx. by rewrite (Hx y) in E by by left.
  - rewrite IH. setoid_rewrite elem_of_cons. naive_solver.
Qed.

Lemma cell_next vis e l i : (i <= e_level e)%nat -> sn_next (cell vis e l) !! i = Some (nxt vis i l).
Proof. intros Hi. unfold cell. cbn [sn_next]. by rewrite list_lookup_fmap, lookup_seq_lt by lia. Qed.

Lemma cell_next_ge vis e l i : (e_level e < i)%nat -> sn_next (cell vis e l) !! i = None.
Proof. intros Hi. apply lookup_ge_None_2. unfold cell. simpl. rewrite length_fmap, length_seq. lia. Qed.

Lemma nexts_nil vis n : (fun i => nxt vis i []) <$> seq 0 n = replicate n None.
Proof.
  apply list_eq. intros i. rewrite list_lookup_fmap. destruct (decide (i < n)%nat).
  - by rewrite lookup_seq_lt, lookup_replicate_2 by lia.
  - rewrite lookup_seq_ge by lia. symmetry. apply lookup_replicate_None. lia.
Qed.

Lemma layout_dom vis l : dom (layout vis l) = list_to_set (locs l).
Proof. induction l as [|e l IH]; simpl; [apply dom_empty_L|]. by rewrite dom_insert_L, IH. Qed.

Lemma layout_lookup_none vis l p : p ∉ locs l -> layout vis l !! p = None.
Proof. intros Hp. apply not_elem_of_dom. rewrite layout_dom. by rewrite elem_of_list_to_set. Qed.

Lemma layout_lookup vis l1 e l2 :
  NoDup (locs (l1 ++ e :: l2)) -> layout vis (l1 ++ e :: l2) !! e_loc e = Some (cell vis e l2).
Proof.
  induction l1 as [|y l1 IH]; simpl; intros Hnd; [by rewrite lookup_insert_eq|].
  apply NoDup_cons in Hnd as [Hy Hnd]. rewrite lookup_insert_ne; [by apply IH|].
  intros E. apply Hy. rewrite E. unfold locs. rewrite fmap_app. set_solver.
Qed.

Lemma layout_size vis l : NoDup (locs l) -> size (layout vis l) = length l.
Proof.
  induction l as [|e l IH]; simpl; [intros _; apply map_size_empty|]. intros [He Hnd]%NoDup_cons.
  rewrite map_size_insert_None by by apply layout_lookup_none. f_equal. by apply IH.
Qed.

Lemma next_at_cell (h : gmap loc (sl_node K D)) vis e l p i :
  h !! p = Some (cell vis e l) -> (i <= e_level e)%nat -> next_at h (Some p) i = Ok (nxt vis i l).
Proof. intros Hp Hi. unfold next_at, node_at. rewrite Hp. cbn [mbind res_bind]. by rewrite cell_next. Qed.

(** Nodes whose visible levels are the same look the same. *)
Lemma cell_ext vis vis' e l :
  (forall i, (i <= e_level e)%nat -> nxt vis i l = nxt vis' i l) -> cell vis e l = cell vis' e l.
Proof.
  intros Hi. unfold cell. f_equal. apply list_fmap_ext. intros j i Hj.
  apply lookup_seq in Hj as [-> ?]. apply Hi. lia.
Qed.

Lemma layout_ext vis vis' l : (forall x i, x ∈ l -> vis x i = vis' x i) -> layout vis l = layout vis' l.
Proof.
  induction l as [|e l IH]; intros Hx; [done|]. simpl.
  rewrite IH by (intros x i Hin; apply Hx; by right). f_equal. apply cell_ext. intros i _. apply nxt_ext.
  intros x Hin. apply Hx. by right.
Qed.

(** The visibility of [e] at level [k] changes. *)
Definition differ_at (vis vis' : ent -> nat -> bool) (e : ent) (k : nat) l : Prop :=
  forall x i, x ∈ l -> (e_loc x <> e_loc e \/ i <> k) -> vis x i = vis' x i.

Lemma differ_at_incl vis vis' e k l l' : (forall x, x ∈ l' -> x ∈ l) -> differ_at vis vis' e k l -> differ_at vis vis' e k l'.
Proof. intros Hin Hd x i Hx. apply Hd. by apply Hin. Qed.

Lemma differ_low vis vis' e k l2 l3 :
  NoDup (locs (l2 ++ e :: l3)) -> differ_at vis vis' e k (l2 ++ e :: l3) -> (forall x, x ∈ l2 -> (e_level x < k)%nat) ->
  layout vis (l2 ++ e :: l3) = layout vis' (l2 ++ e :: l3).
Proof.
  induction l2 as [|y l2 IH]; simpl; intros [Hy Hnd]%NoDup_cons Hd Hlow.
  - assert (Hl3 : forall x i, x ∈ l3 -> vis x i = vis' x i).
    { intros x i Hx. apply Hd; [by right|]. left. intros E. apply Hy. rewrite <- E. by apply list_elem_of_fmap_2. }
    rewrite (layout_ext _ _ _ Hl3). f_equal. apply cell_ext. intros i _. apply nxt_ext. intros x Hx. by apply Hl3.
  - rewrite IH; [|done|eapply differ_at_incl; [|exact Hd]; intros x Hx; by right|intros x Hx; apply Hlow; by right].
    f_equal. apply cell_ext. intros i Hi. apply nxt_ext. intros x Hx. apply Hd; [by right|]. right.
    specialize (Hlow y ltac:(by left)). lia.
Qed.

(** Linking or unlinking at one level writes one pointer, in the last node
    before [e] that has the level. *)
Lemma layout_step vis vis' l1 p l2 e l3 k :
  NoDup (locs (l1 ++ p :: l2 ++ e :: l3)) -> differ_at vis vis' e k (l1 ++ p :: l2 ++ e :: l3) ->
  (k <= e_level p)%nat -> vis p k = true -> (forall x, x ∈ l2 -> (e_level x < k)%nat) ->
  (forall x, x ∈ l2 -> vis' x k = false) ->
  layout vis' (l1 ++ p :: l2 ++ e :: l3) =
  <[e_loc p := with_next k (nxt vis' k (e :: l3)) (cell vis p (l2 ++ e :: l3))]> (layout vis (l1 ++ p :: l2 ++ e :: l3)).
Proof.
  intros Hnd Hd Hk Hp Hlow Hl2. induction l1 as [|y l1 IH]; simpl in *.
  - apply NoDup_cons in Hnd as [Hpl Hnd]. rewrite insert_insert_eq.
    assert (Hd2 : differ_at vis vis' e k (l2 ++ e :: l3)) by (eapply differ_at_incl; [|exact Hd]; intros x Hx; by right).
    rewrite <- (differ_low vis vis' e k l2 l3 Hnd Hd2 Hlow). f_equal.
    unfold cell, with_next. simpl. f_equal. apply list_eq. intros i.
    assert (Hlen : forall v, length ((fun i => nxt v i (l2 ++ e :: l3)) <$> seq 0 (S (e_level p))) = S (e_level p))
      by (intros v; by rewrite length_fmap, length_seq).
    destruct (decide (i = k)) as [->|Hik].
    + etransitivity; [apply (cell_next vis' p (l2 ++ e :: l3)); lia|]. etransitivity; [|symmetry; apply list_lookup_insert_eq; pose proof (Hlen vis); simpl in *; lia].
      f_equal. by apply nxt_app_skip.
    + etransitivity; [|symmetry; apply list_lookup_insert_ne; done].
      destruct (decide (i <= e_level p)%nat).
      * etransitivity; [by apply (cell_next vis' p (l2 ++ e :: l3))|]. etransitivity; [|symmetry; by apply (cell_next vis p (l2 ++ e :: l3))].
        f_equal. apply nxt_ext. intros x Hx. symmetry. apply Hd2; [done|by right].
      * etransitivity; [apply (cell_next_ge vis' p (l2 ++ e :: l3)); lia|]. symmetry. apply (cell_next_ge vis p (l2 ++ e :: l3)). lia.
  - apply NoDup_cons in Hnd as [Hy Hnd]. rewrite IH; [|done|eapply differ_at_incl; [|exact Hd]; intros x Hx; by right].
    rewrite insert_insert_ne.
    2:{ intros E. apply Hy. rewrite E. unfold locs. rewrite fmap_app. set_solver. }
    do 2 f_equal. symmetry. apply cell_ext. intros i _. destruct (decide (i = k)) as [->|Hik].
    + assert (Hnot : forall x, x ∈ l1 ++ [p] -> e_loc x <> e_loc e).
      { intros x Hx. rewrite (cons_middle p), (assoc_L (++)) in Hnd. apply locs_app_nodup in Hnd as (_ & Hdis & _).
        apply Hdis; set_solver. }
      apply nxt_hidden; [done| |].
      * rewrite <- (Hd p k); [done|set_solver|]. left. apply Hnot. set_solver.
      * intros x Hx. apply Hd; [set_solver|]. left. apply Hnot. set_solver.
    + apply nxt_ext. intros x Hx. apply Hd; [by right|by right].
Qed.

(** ** Searching *)

(** The last node of [l] that has level [i]. *)
Definition is_pred (i : nat) l p : Prop :=
  exists l1 l2, l = l1 ++ p :: l2 /\ (i <= e_level p)%nat /\ forall x, x ∈ l2 -> (e_level x < i)%nat.

(** The entries of [ptr] up to level [n]. *)
Definition preds (n : nat) l (ptr : list (option loc)) : Prop :=
  forall i, (i <= n)%nat -> exists p, is_pred i l p /\ ptr !! i = Some (Some (e_loc p)).

Lemma first_visible vis i l :
  (forall x, x ∈ l -> vis x i = false) \/
  exists l1 q l2, l = l1 ++ q :: l2 /\ vis q i = true /\ forall x, x ∈ l1 -> vis x i = false.
Proof.
  induction l as [|y l IH]; [left; by intros x ?%not_elem_of_nil|]. destruct (vis y i) eqn:E.
  { right. exists [], y, l. split; [done|]. split; [done|]. by intros x ?%not_elem_of_nil. }
  destruct IH as [Hn|(l1 & q & l2 & -> & Hq & Hn)].
  - left. intros x [->|?]%elem_of_cons; [done|by apply Hn].
  - right. exists (y :: l1), q, l2. split; [done|]. split; [done|]. intros x [->|?]%elem_of_cons; [done|by apply Hn].
Qed.

Lemma filter_hidden vis i l : (forall x, x ∈ l -> vis x i = false) -> filter (fun e => vis e i = true) l = [].
Proof.
  induction l as [|y l IH]; intros Hx; [done|]. rewrite filter_cons_False by by rewrite Hx by left.
  apply IH. intros x Hin. apply Hx. by right.
Qed.

Lemma full_false x i : full x i = false <-> (e_level x < i)%nat.
Proof. unfold full. apply Nat.leb_gt. Qed.
Lemma full_true x i : full x i = true <-> (i <= e_level x)%nat.
Proof. unfold full. apply Nat.leb_le. Qed.

Section search.
Context (c : option K -> res Z) (L B : list ent).
Context (Hnd : NoDup (locs (L ++ B))).
Context (Hbelow : forall x, x ∈ tail L -> exists z, c (e_key x) = Ok z /\ z < 0).
Context (Habove : forall x, x ∈ B -> exists z, c (e_key x) = Ok z /\ 0 <= z).

(** What the search compares with last at level [i]. *)
Definition last_cmp (i : nat) (cmp : Z) : Prop :=
  match head (filter (fun e => full e i = true) B) with
  | None => cmp < 0
  | Some b => c (e_key b) = Ok cmp /\ 0 <= cmp
  end.

Lemma find_walk_ok i fuel l1 p l2 cmp :
  L = l1 ++ p :: l2 -> (i <= e_level p)%nat -> (length l2 < fuel)%nat -> cmp < 0 ->
  exists p' cmp', find_walk fuel (layout full (L ++ B)) c i cmp (Some (e_loc p)) = Ok (cmp', Some (e_loc p')) /\
    is_pred i L p' /\ last_cmp i cmp'.
Proof.
  revert l1 p l2 cmp. induction fuel as [|fuel IH]; intros l1 p l2 cmp HL Hi Hf Hc; [lia|].
  assert (Hcell : forall m1 y m2, L ++ B = m1 ++ y :: m2 -> layout full (L ++ B) !! e_loc y = Some (cell full y m2)).
  { intros m1 y m2 E. rewrite E. apply layout_lookup. by rewrite <- E. }
  assert (HLB : L ++ B = l1 ++ p :: l2 ++ B) by (rewrite HL, <- (assoc_L (++)); done).
  cbn [find_walk]. rewrite (proj2 (Z.ltb_lt cmp 0)) by done. cbn [negb].
  rewrite (next_at_cell _ _ _ _ _ _ (Hcell _ _ _ HLB) Hi). cbn [mbind res_bind].
  destruct (first_visible full i l2) as [Hnone|(m1 & q & m2 & E2 & Hq & Hm1)].
  - assert (Hpred : is_pred i L p) by (exists l1, l2; split; [done|]; split; [done|]; intros x Hx; by apply full_false, Hnone).
    rewrite nxt_app_skip by done. unfold last_cmp, nxt.
    destruct (first_visible full i B) as [HnB|(b1 & b & b2 & EB & Hb & Hb1)].
    + rewrite filter_hidden by done. by exists p, cmp.
    + assert (E : head (filter (fun e => full e i = true) B) = Some b).
      { rewrite EB, filter_app, filter_hidden by done. simpl. by rewrite filter_cons_True. }
      rewrite E. simpl. destruct (Habove b) as (z & Hz & Hz0); [rewrite EB; set_solver|].
      rewrite (Hcell (L ++ b1) b b2) by (rewrite EB; by rewrite (assoc_L (++))). cbn [mbind res_bind]. simpl.
      rewrite Hz. cbn [mbind res_bind]. assert (Hlt : (z <? 0) = false) by (apply Z.ltb_ge; lia). rewrite Hlt.
      exists p, z. destruct fuel; cbn [find_walk]; rewrite Hlt; done.
  - rewrite E2 in *. assert (En : nxt full i ((m1 ++ q :: m2) ++ B) = Some (e_loc q)).
    { rewrite <- (assoc_L (++)), nxt_app_skip by done. simpl. by rewrite nxt_cons, Hq. }
    rewrite En. cbn [mbind res_bind node_at].
    assert (HL2 : L = (l1 ++ p :: m1) ++ q :: m2) by (rewrite HL, <- (assoc_L (++)); done).
    rewrite (Hcell (l1 ++ p :: m1) q (m2 ++ B)) by (rewrite HL2, <- !(assoc_L (++)); done). cbn [mbind res_bind]. simpl.
    destruct (Hbelow q) as (z & Hz & Hz0); [rewrite HL; destruct l1; simpl; set_solver|].
    rewrite Hz. cbn [mbind res_bind]. rewrite (proj2 (Z.ltb_lt z 0)) by done.
    apply (IH (l1 ++ p :: m1) q m2 z HL2); [by apply full_true| |done]. rewrite length_app in Hf. simpl in Hf. lia.
Qed.

Lemma find_levels_ok i p ptr :
  p ∈ L -> (i <= e_level p)%nat -> (i < length ptr)%nat ->
  exists cmp ptr', find_levels (layout full (L ++ B)) c i (Some (e_loc p)) ptr = Ok (cmp, ptr') /\
    length ptr' = length ptr /\ preds i L ptr' /\ (forall j, (i < j)%nat -> ptr' !! j = ptr !! j) /\ last_cmp 0 cmp.
Proof.
  revert p ptr. induction i as [|i IH]; intros p ptr Hp Hi Hlen; apply list_elem_of_split in Hp as (l1 & l2 & HL);
    cbn [find_levels].
  - destruct (find_walk_ok 0 (size (layout full (L ++ B))) l1 p l2 (-1) HL Hi) as (p' & cmp & E & Hp' & Hc); [|done|].
    { rewrite layout_size by done. rewrite HL, !length_app. simpl. lia. }
    rewrite E. cbn [mbind res_bind]. unfold ptr_set. rewrite decide_True by done. cbn [mbind res_bind].
    exists cmp, (<[0%nat := Some (e_loc p')]> ptr). split; [done|]. rewrite length_insert. split; [done|]. split; [|split; [|done]].
    + intros j Hj. replace j with 0%nat by lia. exists p'. split; [done|]. by apply list_lookup_insert_eq.
    + intros j Hj. apply list_lookup_insert_ne. lia.
  - destruct (find_walk_ok (S i) (size (layout full (L ++ B))) l1 p l2 (-1) HL Hi) as (p' & cmp & E & Hp' & Hc); [|done|].
    { rewrite layout_size by done. rewrite HL, !length_app. simpl. lia. }
    rewrite E. cbn [mbind res_bind]. unfold ptr_set. rewrite decide_True by done. cbn [mbind res_bind].
    destruct Hp' as (m1 & m2 & HLm & Hlv & Hm2).
    destruct (IH p' (<[S i := Some (e_loc p')]> ptr)) as (cmp' & ptr' & E' & Hl' & Hpr & Hkeep & Hc');
      [rewrite HLm; set_solver|lia|rewrite length_insert; lia|].
    exists cmp', ptr'. split; [exact E'|]. rewrite length_insert in Hl'. split; [done|]. split; [|split; [|done]].
    + intros j Hj. destruct (decide (j = S i)) as [->|Hne]; [|apply Hpr; lia].
      exists p'. split; [by exists m1, m2|]. rewrite Hkeep by lia. by apply list_lookup_insert_eq.
    + intros j Hj. rewrite Hkeep by lia. apply list_lookup_insert_ne. lia.
Qed.

End search.

End shape.

Arguments ent : clear implicits.

(** ** Well-formed lists *)

Section wf.
Context {K D : Type} `{EqDecision D}.
Implicit Types (s : sl K D) (x y e : ent K D) (l : list (ent K D)).

Definition head_ent s : ent K D := Ent (sl_head s) (pred (max_levels s)) None None [].

(** The nodes [l] behind the head. *)
Record sl_shape s l : Prop := SlShape {
  sh_nodes : sl_nodes s = layout full (head_ent s :: l);
  sh_nodup : NoDup (locs (head_ent s :: l));
  sh_room : (0 < max_levels s <= SKIPLIST_MAX_LEVEL)%nat;
  sh_current : (current_max s < max_levels s)%nat;
  sh_levels : forall x, x ∈ l -> (e_level x <= current_max s)%nat }.

Lemma shape_lookup s l l1 e l2 :
  sl_shape s l -> head_ent s :: l = l1 ++ e :: l2 -> sl_nodes s !! e_loc e = Some (cell full e l2).
Proof. intros [Hn Hnd _ _ _] E. rewrite Hn, E. apply layout_lookup. by rewrite <- E. Qed.

(** The first pointer of a node leads to the next one. *)
Lemma shape_next s l1 e l2 :
  forall l, sl_shape s l -> head_ent s :: l = l1 ++ e :: l2 -> next_at (sl_nodes s) (Some (e_loc e)) 0 = Ok (e_loc <$> head l2).
Proof.
  intros l Hs E. rewrite (next_at_cell _ _ _ _ _ 0 (shape_lookup _ _ _ _ _ Hs E)) by lia.
  f_equal. unfold nxt. by destruct l2 as [|y l2]; [|rewrite filter_cons_True].
Qed.

(** A search for a point between [A] and [B]. *)
Lemma find_levels_shape s A B (c : option K -> res Z) :
  sl_shape s (A ++ B) ->
  (forall x, x ∈ A -> exists z, c (e_key x) = Ok z /\ z < 0) ->
  (forall x, x ∈ B -> exists z, c (e_key x) = Ok z /\ 0 <= z) ->
  exists cmp ptr, find_levels (sl_nodes s) c (current_max s) (Some (sl_head s)) ptr_zero = Ok (cmp, ptr) /\
    length ptr = SKIPLIST_MAX_LEVEL /\ preds (current_max s) (head_ent s :: A) ptr /\
    match B with [] => cmp < 0 | b :: _ => c (e_key b) = Ok cmp /\ 0 <= cmp end.
Proof.
  intros [Hn Hnd Hroom Hcur Hlev] HA HB. rewrite Hn. change (Some (sl_head s)) with (Some (e_loc (head_ent s))).
  destruct (find_levels_ok c (head_ent s :: A) B Hnd HA HB (current_max s) (head_ent s) ptr_zero)
    as (cmp & ptr & E & Hlen & Hp & _ & Hc).
  - by left.
  - simpl. lia.
  - unfold ptr_zero. rewrite length_replicate. lia.
  - exists cmp, ptr. split; [exact E|]. split; [by rewrite Hlen|]. split; [done|].
    unfold last_cmp in Hc. destruct B as [|b B]; [done|]. by rewrite filter_cons_True in Hc.
Qed.

(** [ptr[0]] is the last node of [A], and its successor the first of [B]. *)
Lemma preds_last l ptr n : preds n l ptr -> exists l1 p, l = l1 ++ [p] /\ ptr !! 0%nat = Some (Some (e_loc p)).
Proof.
  intros Hp. destruct (Hp 0%nat ltac:(lia)) as (p & (l1 & l2 & -> & _ & Hl2) & E). exists l1, p.
  destruct l2 as [|y l2]; [done|]. specialize (Hl2 y ltac:(by left)). lia.
Qed.

Lemma preds_next s A B ptr n :
  sl_shape s (A ++ B) -> preds n (head_ent s :: A) ptr ->
  exists p, ptr_get ptr 0 = Ok (Some p) /\ next_at (sl_nodes s) (Some p) 0 = Ok (e_loc <$> head B) /\
    (exists x, x ∈ head_ent s :: A /\ e_loc x = p /\ last (head_ent s :: A) = Some x).
Proof.
  intros Hs Hp. destruct (preds_last _ _ _ Hp) as (l1 & p & E & Ep). exists (e_loc p). split; [|split].
  - unfold ptr_get. by rewrite Ep.
  - apply (shape_next s l1 p B _ Hs). change (head_ent s :: A ++ B) with ((head_ent s :: A) ++ B). by rewrite E, <- (assoc_L (++)).
  - exists p. split; [rewrite E; set_solver|]. split; [done|]. by rewrite E, last_snoc.
Qed.

End wf.

(** ** Linking and unlinking a node *)

Section linking.
Context {K D : Type} `{EqDecision D}.
Implicit Types (s : sl K D) (x y e p : ent K D) (l A B : list (ent K D)) (vis : ent K D -> nat -> bool).

(** [e] is linked below level [k], or from level [k] on. *)
Definition vis_in e (k : nat) x (i : nat) : bool :=
  if decide (e_loc x = e_loc e) then (i <? k)%nat && full x i else full x i.
Definition vis_out e (k : nat) x (i : nat) : bool :=
  if decide (e_loc x = e_loc e) then (k <=? i)%nat && full x i else full x i.

Lemma vis_in_other e k x i : e_loc x <> e_loc e -> vis_in e k x i = full x i.
Proof. intros Hx. unfold vis_in. by rewrite decide_False. Qed.
Lemma vis_out_other e k x i : e_loc x <> e_loc e -> vis_out e k x i = full x i.
Proof. intros Hx. unfold vis_out. by rewrite decide_False. Qed.

Lemma vis_in_same e k i : vis_in e k e i = ((i <? k)%nat && full e i).
Proof. unfold vis_in. by rewrite decide_True. Qed.
Lemma vis_out_same e k i : vis_out e k e i = ((k <=? i)%nat && full e i).
Proof. unfold vis_out. by rewrite decide_True. Qed.

Lemma vis_in_differ e k l : differ_at (vis_in e k) (vis_in e (S k)) e k l.
Proof.
  intros x i _ [Hx|Hi]; [by rewrite !vis_in_other|]. unfold vis_in. case_decide; [|done]. f_equal.
  destruct (i <? k)%nat eqn:E1, (i <? S k)%nat eqn:E2; try done; exfalso;
    rewrite ?Nat.ltb_lt, ?Nat.ltb_ge in *; lia.
Qed.

Lemma vis_out_differ e k l : differ_at (vis_out e k) (vis_out e (S k)) e k l.
Proof.
  intros x i _ [Hx|Hi]; [by rewrite !vis_out_other|]. unfold vis_out. case_decide; [|done]. f_equal.
  destruct (k <=? i)%nat eqn:E1, (S k <=? i)%nat eqn:E2; try done; exfalso;
    rewrite ?Nat.leb_le, ?Nat.leb_gt in *; lia.
Qed.

Lemma locs_mid y l1 e l2 :
  NoDup (locs ((y :: l1) ++ e :: l2)) -> e_loc e <> e_loc y /\ NoDup (locs (l1 ++ e :: l2)).
Proof.
  intros [Hy Hnd]%NoDup_cons. split; [|done]. intros E. apply Hy. rewrite <- E.
  apply (list_elem_of_fmap_2 e_loc). set_solver.
Qed.

Lemma locs_others l1 e l2 : NoDup (locs (l1 ++ e :: l2)) -> forall x, x ∈ l1 ++ l2 -> e_loc x <> e_loc e.
Proof.
  intros Hnd x Hx E. rewrite (cons_middle e), (assoc_L (++)) in Hnd. apply locs_app_nodup in Hnd as (H1 & H2 & _).
  apply locs_app_nodup in H1 as (_ & H1 & _). apply elem_of_app in Hx as [Hx|Hx].
  - apply (H1 x e); set_solver.
  - symmetry in E. revert E. apply H2; set_solver.
Qed.

Lemma locs_insert l1 e l2 : NoDup (locs (l1 ++ l2)) -> e_loc e ∉ locs (l1 ++ l2) -> NoDup (locs (l1 ++ e :: l2)).
Proof.
  intros Hnd He. assert (Hp : locs (l1 ++ e :: l2) ≡ₚ e_loc e :: locs (l1 ++ l2)).
  { unfold locs. by rewrite <- Permutation_middle. }
  rewrite Hp. by apply NoDup_cons.
Qed.

Lemma nxt_drop vis i l1 e l2 : vis e i = false -> nxt vis i (l1 ++ e :: l2) = nxt vis i (l1 ++ l2).
Proof.
  intros He. induction l1 as [|y l1 IH]; simpl; rewrite !nxt_cons; [by rewrite He|]. by rewrite IH.
Qed.

(** A node that is linked nowhere does not matter to the others. *)
Lemma layout_drop vis l1 e l2 c :
  NoDup (locs (l1 ++ e :: l2)) -> (forall i, vis e i = false) ->
  <[e_loc e := c]> (layout vis (l1 ++ e :: l2)) = <[e_loc e := c]> (layout vis (l1 ++ l2)).
Proof.
  intros Hnd He. induction l1 as [|y l1 IH]; simpl; [by rewrite insert_insert_eq|].
  apply locs_mid in Hnd as [Hne Hnd].
  rewrite !(insert_insert_ne _ (e_loc e)) by done. rewrite IH by done. f_equal.
  unfold cell. f_equal. apply list_fmap_ext. intros j i _. by apply nxt_drop.
Qed.

Lemma layout_delete vis l1 e l2 :
  NoDup (locs (l1 ++ e :: l2)) -> (forall i, vis e i = false) ->
  delete (e_loc e) (layout vis (l1 ++ e :: l2)) = layout vis (l1 ++ l2).
Proof.
  intros Hnd He. pose proof (layout_drop vis l1 e l2 (cell vis e l2) Hnd He) as E.
  apply (f_equal (delete (e_loc e))) in E. rewrite !delete_insert_eq in E. rewrite E.
  apply delete_id, layout_lookup_none. intros (x & Ex & Hx)%list_elem_of_fmap.
  by apply (locs_others l1 e l2 Hnd x).
Qed.

(** Changing the data of a node. *)
Definition with_data (d : option D) (m : list (option D)) e : ent K D := Ent (e_loc e) (e_level e) (e_key e) d m.

Lemma layout_with_data l1 e l2 d m :
  NoDup (locs (l1 ++ e :: l2)) ->
  layout full (l1 ++ with_data d m e :: l2) = <[e_loc e := with_ele d m (cell full e l2)]> (layout full (l1 ++ e :: l2)).
Proof.
  intros Hnd. induction l1 as [|y l1 IH]; simpl; [by rewrite insert_insert_eq|]. apply locs_mid in Hnd as [Hy Hnd].
  rewrite (insert_insert_ne _ (e_loc e)) by done.
  rewrite IH by done. f_equal. unfold cell. f_equal. apply list_fmap_ext. intros j i _. clear IH Hy Hnd.
  induction l1 as [|z l1 IH]; simpl; rewrite !nxt_cons; [done|]. by rewrite IH.
Qed.

(** ** The loops *)

Lemma update_ok s (p : loc) f n :
  sl_nodes s !! p = Some n -> update (Some p) f s = Ok (tt, set_nodes (<[p := f n]> (sl_nodes s)) s).
Proof. intros E. unfold update. by rewrite E. Qed.

Lemma set_next_raw s (p : loc) n k q :
  sl_nodes s !! p = Some n -> is_Some (sn_next n !! k) ->
  set_next (Some p) k q s = Ok (tt, set_nodes (<[p := with_next k q n]> (sl_nodes s)) s).
Proof.
  intros Hp [q0 Hk]. unfold set_next. erewrite st_bind_ok.
  - unfold update. by rewrite Hp.
  - unfold get_next, next_at, node_at. rewrite Hp. cbn [mbind res_bind]. by rewrite Hk.
Qed.

Lemma set_next_ok s (p : loc) vis e l k q :
  sl_nodes s !! p = Some (cell vis e l) -> (k <= e_level e)%nat ->
  set_next (Some p) k q s = Ok (tt, set_nodes (<[p := with_next k q (cell vis e l)]> (sl_nodes s)) s).
Proof. intros Hp Hk. apply set_next_raw; [done|]. rewrite cell_next by done. by eexists. Qed.

(** One round of unlinking. *)
Lemma unlink_levels_ok n k s A e B ptr l :
  l = A ++ e :: B -> NoDup (locs l) -> sl_nodes s = layout (vis_out e k) l -> (k + n = S (e_level e))%nat ->
  (forall i, (k <= i <= e_level e)%nat -> exists p, is_pred i A p /\ ptr !! i = Some (Some (e_loc p))) ->
  unlink_levels n k (Some (e_loc e)) ptr s = Ok (tt, set_nodes (layout (vis_out e (S (e_level e))) l) s).
Proof.
  intros -> Hnd. revert k s. induction n as [|n IH]; intros k s Hs Hk Hp.
  - replace (S (e_level e)) with k by lia. rewrite <- Hs. by destruct s.
  - destruct (Hp k ltac:(lia)) as (p & (l1 & l2 & EA & Hpl & Hl2) & Eptr).
    assert (Hother : forall x, x ∈ A ++ B -> e_loc x <> e_loc e).
    { by apply locs_others. }
    assert (HpA : p ∈ A) by (rewrite EA; set_solver).
    assert (Hpe : e_loc p <> e_loc e) by (apply Hother; set_solver).
    assert (EL : A ++ e :: B = l1 ++ p :: l2 ++ e :: B) by (by rewrite EA, <- (assoc_L (++))).
    cbn [unlink_levels].
    assert (Hce : sl_nodes s !! e_loc e = Some (cell (vis_out e k) e B)) by (rewrite Hs; by apply layout_lookup).
    assert (Hcp : sl_nodes s !! e_loc p = Some (cell (vis_out e k) p (l2 ++ e :: B))).
    { rewrite Hs, EL. apply layout_lookup. by rewrite <- EL. }
    erewrite st_bind_ok; [|unfold get_next; by rewrite (next_at_cell _ _ _ _ _ k Hce ltac:(lia))].
    erewrite st_bind_ok; [|unfold lift, ptr_get; by rewrite Eptr].
    erewrite st_bind_ok; [|by apply (set_next_ok _ _ _ _ _ _ _ Hcp)].
    assert (Estep : <[e_loc p := with_next k (nxt (vis_out e k) k B) (cell (vis_out e k) p (l2 ++ e :: B))]> (sl_nodes s) =
      layout (vis_out e (S k)) (A ++ e :: B)).
    { rewrite Hs, EL. rewrite (layout_step (vis_out e k) (vis_out e (S k)) l1 p l2 e B k);
        [|by rewrite <- EL|apply vis_out_differ|done| | |].
      - do 2 f_equal. rewrite nxt_cons, vis_out_same. replace (S k <=? k)%nat with false by (symmetry; apply Nat.leb_gt; lia).
        simpl. apply nxt_ext. intros x Hx. rewrite !vis_out_other; [done|apply Hother; set_solver..].
      - rewrite vis_out_other by done. by apply full_true.
      - done.
      - intros x Hx. rewrite vis_out_other by (apply Hother; rewrite EA; set_solver). apply full_false. by apply Hl2. }
    rewrite Estep. rewrite (IH (S k)); [by destruct s|done|lia|]. intros i Hi. apply Hp. lia.
Qed.

(** The new node while it is being linked. *)
Definition nexts e B : list (option loc) := (fun i => nxt full i B) <$> seq 0 (S (e_level e)).
Definition fresh_cell e B (k : nat) : sl_node K D :=
  SNode (e_level e) None None [] (take k (nexts e B) ++ replicate (S (e_level e) - k) None).

Lemma nexts_lookup e B k : (k <= e_level e)%nat -> nexts e B !! k = Some (nxt full k B).
Proof. intros Hk. unfold nexts. by rewrite list_lookup_fmap, lookup_seq_lt by lia. Qed.

Lemma fresh_cell_step e B k :
  (k <= e_level e)%nat ->
  is_Some (sn_next (fresh_cell e B k) !! k) /\ with_next k (nxt full k B) (fresh_cell e B k) = fresh_cell e B (S k).
Proof.
  intros Hk. pose proof (nexts_lookup e B k Hk) as Hl. pose proof (lookup_lt_Some _ _ _ Hl) as Hlen.
  assert (Ht : length (take k (nexts e B)) = k) by (rewrite length_take; lia). unfold fresh_cell, with_next. cbn [sn_next sn_level sn_key sn_data sn_more].
  replace (S (e_level e) - k)%nat with (S (e_level e - k)) by lia. split.
  - rewrite lookup_app_r by lia. rewrite Ht, Nat.sub_diag. by eexists.
  - f_equal. rewrite (take_S_r _ _ _ Hl), insert_app_r_alt by lia. rewrite Ht, Nat.sub_diag, <- (assoc_L (++)). done.
Qed.

Lemma layout_step_in A e B l1 p l2 k :
  A = l1 ++ p :: l2 -> NoDup (locs (A ++ e :: B)) -> (k <= e_level p)%nat -> (k <= e_level e)%nat ->
  (forall x, x ∈ l2 -> (e_level x < k)%nat) ->
  layout (vis_in e (S k)) (A ++ e :: B) =
  <[e_loc p := with_next k (Some (e_loc e)) (cell (vis_in e k) p (l2 ++ e :: B))]> (layout (vis_in e k) (A ++ e :: B)).
Proof.
  intros -> Hnd Hp He Hl2. pose proof (locs_others _ _ _ Hnd) as Hother. rewrite <- !(assoc_L (++)) in *. simpl in *.
  rewrite (layout_step (vis_in e k) (vis_in e (S k)) l1 p l2 e B k); [|done|apply vis_in_differ|done| |done|].
  - do 2 f_equal. rewrite nxt_cons, vis_in_same. unfold full. rewrite (proj2 (Nat.ltb_lt _ _)), (proj2 (Nat.leb_le _ _)) by lia. done.
  - rewrite vis_in_other by (apply Hother; set_solver). by apply full_true.
  - intros x Hx. rewrite vis_in_other by (apply Hother; set_solver). by apply full_false, Hl2.
Qed.

Lemma link_levels_ok n k s A e B ptr l :
  l = A ++ e :: B -> NoDup (locs l) -> sl_nodes s = <[e_loc e := fresh_cell e B k]> (layout (vis_in e k) l) ->
  (k + n = S (e_level e))%nat ->
  (forall i, (k <= i <= e_level e)%nat -> exists p, is_pred i A p /\ ptr !! i = Some (Some (e_loc p))) ->
  link_levels n k (Some (e_loc e)) ptr s =
    Ok (tt, set_nodes (<[e_loc e := fresh_cell e B (S (e_level e))]> (layout (vis_in e (S (e_level e))) l)) s).
Proof.
  intros -> Hnd. revert k s. induction n as [|n IH]; intros k s Hs Hk Hp.
  { replace (S (e_level e)) with k by lia. rewrite <- Hs. by destruct s. }
  destruct (Hp k ltac:(lia)) as (p & (l1 & l2 & EA & Hpl & Hl2) & Eptr).
  pose proof (locs_others _ _ _ Hnd) as Hother.
  assert (Hpe : e_loc p <> e_loc e) by (apply Hother; rewrite EA; set_solver).
  assert (EL : A ++ e :: B = l1 ++ p :: l2 ++ e :: B) by (by rewrite EA, <- (assoc_L (++))).
  assert (Hcp : layout (vis_in e k) (A ++ e :: B) !! e_loc p = Some (cell (vis_in e k) p (l2 ++ e :: B))).
  { rewrite EL. apply layout_lookup. by rewrite <- EL. }
  assert (Hq : nxt (vis_in e k) k (l2 ++ e :: B) = nxt full k B).
  { rewrite nxt_app_skip, nxt_cons, vis_in_same, Nat.ltb_irrefl. simpl.
    - apply nxt_ext. intros x Hx. apply vis_in_other, Hother. set_solver.
    - intros x Hx. rewrite vis_in_other by (apply Hother; rewrite EA; set_solver). by apply full_false, Hl2. }
  destruct (fresh_cell_step e B k ltac:(lia)) as [Hslot Hfresh].
  cbn [link_levels]. erewrite st_bind_ok; [|unfold lift, ptr_get; by rewrite Eptr].
  erewrite st_bind_ok; [|unfold get_next; rewrite Hs, (next_at_cell _ (vis_in e k) p (l2 ++ e :: B)), Hq; [done|by rewrite lookup_insert_ne by done|done]].
  erewrite st_bind_ok; [|apply set_next_raw; [by rewrite Hs, lookup_insert_eq|done]]. rewrite Hfresh, Hs, insert_insert_eq.
  erewrite st_bind_ok; [|apply set_next_ok; [simpl; rewrite lookup_insert_ne by done; exact Hcp|done]].
  cbn [sl_nodes set_nodes]. rewrite insert_insert_ne by done.
  rewrite <- (layout_step_in A e B l1 p l2 k) by (done || lia).
  rewrite (IH (S k)); [by destruct s|done|lia|]. intros i Hi. apply Hp. lia.
Qed.

End linking.

(** ** Inserting and removing a node *)

(** What these leave alone. *)
Definition sl_rest {K D} (s : sl K D) : nat * bool * loc * Z * Z * list (option D) :=
  (max_levels s, allow_dups s, sl_head s, n_keys s, n_ele s, freed s).

Lemma draw_level_bound below_p room level c : (fst (draw_level below_p room level c) <= level + room)%nat.
Proof.
  revert level c. induction room as [|room IH]; intros level c; simpl; destruct (below_p c); simpl; try lia.
  specialize (IH (S level) (S c)). lia.
Qed.

Lemma ptr_fill_ok n from p ptr :
  (from + n <= length ptr)%nat ->
  exists ptr', ptr_fill n from p ptr = Ok ptr' /\ length ptr' = length ptr /\
    (forall i, (i < from)%nat -> ptr' !! i = ptr !! i) /\ (forall i, (from <= i < from + n)%nat -> ptr' !! i = Some p).
Proof.
  revert from ptr. induction n as [|n IH]; intros from ptr Hlen.
  { exists ptr. split; [done|]. split; [done|]. split; [done|]. intros i Hi. lia. }
  cbn [ptr_fill]. unfold ptr_set. rewrite decide_True by lia. cbn [mbind res_bind].
  destruct (IH (S from) (<[from := p]> ptr)) as (ptr' & E & Hl & Hlow & Hin); [rewrite length_insert; lia|].
  rewrite length_insert in Hl. exists ptr'. split; [done|]. split; [done|]. split.
  - intros i Hi. rewrite Hlow by lia. apply list_lookup_insert_ne. lia.
  - intros i Hi. destruct (decide (i = from)) as [->|Hne]; [|apply Hin; lia].
    rewrite Hlow by lia. apply list_lookup_insert_eq. lia.
Qed.

Section nodes.
Context {K D : Type} `{EqDecision D}.
Implicit Types (s : sl K D) (x y e p : ent K D) (l A B : list (ent K D)).

Lemma random_level_ok (below_p : nat -> bool) s :
  (current_max s < max_levels s)%nat ->
  exists level c, get_random_level below_p s = Ok (level, set_draws c s) /\
    (level < max_levels s)%nat /\ (level <= S (current_max s))%nat.
Proof.
  intros Hc. unfold get_random_level. pose proof (draw_level_bound below_p (pred (max_levels s)) 0 (draws s)) as Hb.
  destruct (draw_level _ _ _ _) as [level c]. simpl in Hb. eexists _, c. split; [done|].
  destruct (current_max s <? level)%nat eqn:E; [apply Nat.ltb_lt in E|apply Nat.ltb_ge in E]; lia.
Qed.

(** The upper levels of the array lead to the head. *)
Lemma preds_upper s A ptr level :
  preds (current_max s) (head_ent s :: A) ptr -> length ptr = SKIPLIST_MAX_LEVEL ->
  (current_max s < level)%nat -> (level < max_levels s <= SKIPLIST_MAX_LEVEL)%nat ->
  (forall x, x ∈ A -> (e_level x <= current_max s)%nat) ->
  exists ptr', ptr_fill (level - current_max s) (S (current_max s)) (Some (sl_head s)) ptr = Ok ptr' /\
    length ptr' = SKIPLIST_MAX_LEVEL /\ preds level (head_ent s :: A) ptr'.
Proof.
  intros Hp Hlen Hlt Hmax HA.
  destruct (ptr_fill_ok (level - current_max s) (S (current_max s)) (Some (sl_head s)) ptr) as (ptr' & E & Hl & Hlow & Hin); [lia|].
  exists ptr'. split; [done|]. split; [lia|]. intros i Hi. destruct (decide (i <= current_max s)%nat).
  - destruct (Hp i ltac:(lia)) as (p & Hpr & Ep). exists p. split; [done|]. by rewrite Hlow by lia.
  - exists (head_ent s). split; [|apply Hin; lia]. exists [], A. split; [done|]. split; [simpl; lia|].
    intros x Hx%HA. lia.
Qed.

Lemma fresh_cell_full key data e B :
  e_key e = Some key -> e_data e = data -> e_more e = [] ->
  with_key (Some key) data (fresh_cell e B (S (e_level e))) = cell full e B.
Proof.
  intros Hk Hd Hm. unfold with_key, fresh_cell, cell, nexts. simpl. rewrite Hk, Hd, Hm. f_equal.
  rewrite Nat.sub_diag, app_nil_r. f_equal. apply take_ge. by rewrite length_fmap, length_seq.
Qed.

Lemma pos_insert_ok (below_p : nat -> bool) s A B ptr key data :
  sl_shape s (A ++ B) -> preds (current_max s) (head_ent s :: A) ptr -> length ptr = SKIPLIST_MAX_LEVEL ->
  exists e ptr' s', pos_tbx_sl_insert below_p ptr key data s = Ok ((Some (e_loc e), ptr'), s') /\
    e_key e = Some key /\ e_data e = data /\ e_more e = [] /\ sl_shape s' (A ++ e :: B) /\ sl_rest s' = sl_rest s /\
    preds (current_max s') (head_ent s' :: A) ptr' /\ length ptr' = SKIPLIST_MAX_LEVEL.
Proof.
  intros [Hn Hnd Hroom Hcur Hlev] Hp Hlen.
  destruct (random_level_ok below_p s Hcur) as (level & c & Elev & Hl1 & Hl2).
  unfold pos_tbx_sl_insert. rewrite (st_bind_ok _ _ _ _ _ Elev).
  set (a := fresh (dom (sl_nodes s))). assert (Ha : a ∉ locs (head_ent s :: A ++ B)).
  { rewrite <- (elem_of_list_to_set (C := gset loc)), <- (layout_dom full), <- Hn. apply is_fresh. }
  set (e := Ent a level (Some key) data []).
  erewrite st_bind_ok; [|done]. fold a. erewrite st_bind_ok; [|done]. cbn [current_max set_nodes set_draws sl_head sl_nodes].
  assert (Hptr : exists ptr' m, (if (current_max s <? level)%nat then
       ptr' ← lift (ptr_fill (level - current_max s) (S (current_max s)) (Some (sl_head s)) ptr);
       _ ← st_modify (set_current_max level); mret ptr' else mret ptr)
       (set_nodes (<[a := new_node level]> (sl_nodes s)) (set_draws c s)) =
     Ok (ptr', set_nodes (<[a := new_node level]> (sl_nodes s)) (set_current_max m (set_draws c s))) /\
     preds m (head_ent s :: A) ptr' /\ length ptr' = SKIPLIST_MAX_LEVEL /\ (level <= m < max_levels s)%nat /\ (current_max s <= m)%nat).
  { destruct (current_max s <? level)%nat eqn:Ec; [apply Nat.ltb_lt in Ec|apply Nat.ltb_ge in Ec].
    - destruct (preds_upper s A ptr level Hp Hlen Ec) as (ptr' & Ef & Hl' & Hp'); [lia|intros x Hx; apply Hlev; set_solver|].
      exists ptr', level. erewrite st_bind_ok; [|unfold lift; by rewrite Ef]. split; [done|]. split; [done|]. split; [done|]. lia.
    - exists ptr, (current_max s). split; [by destruct s|]. split; [done|]. split; [done|]. lia. }
  destruct Hptr as (ptr' & m & Ep & Hp' & Hlen' & Hm & Hcm). rewrite (st_bind_ok _ _ _ _ _ Ep).
  assert (Hnd' : NoDup (locs ((head_ent s :: A) ++ e :: B))).
  { by apply locs_insert. }
  pose proof (locs_others _ _ _ Hnd') as Hother.
  erewrite st_bind_ok.
  2:{ apply (link_levels_ok (S level) 0 _ (head_ent s :: A) e B ptr' _ eq_refl Hnd').
      - cbn [sl_nodes set_nodes]. rewrite layout_drop; [|done|intros i; rewrite vis_in_same; done]. f_equal.
        rewrite Hn. apply layout_ext. intros x i Hx. symmetry. apply vis_in_other. by apply Hother.
      - done.
      - intros i Hi. apply Hp'. simpl in Hi. lia. }
  assert (Efin : <[a := cell full e B]> (layout (vis_in e (S (e_level e))) ((head_ent s :: A) ++ e :: B)) = layout full ((head_ent s :: A) ++ e :: B)).
  { rewrite (layout_ext (vis_in e (S (e_level e))) full).
    - apply insert_id. by apply (layout_lookup full (head_ent s :: A) e B).
    - intros x i Hx. destruct (decide (e_loc x = e_loc e)) as [E|E]; [|by apply vis_in_other].
      assert (x = e) as ->.
      { apply elem_of_app in Hx as [Hx|[->|Hx]%elem_of_cons]; [|done|]; exfalso; apply (Hother x); set_solver. }
      rewrite vis_in_same. destruct (full e i) eqn:F; [|by rewrite andb_false_r]. rewrite andb_true_r.
      apply Nat.ltb_lt. apply full_true in F. lia. }
  erewrite st_bind_ok; [|apply update_ok; cbn [sl_nodes set_nodes]; apply lookup_insert_eq].
  rewrite (fresh_cell_full key data e B) by done. cbn [sl_nodes set_nodes]. rewrite insert_insert_eq.
  change (e_loc e) with a. rewrite Efin.
  eexists e, ptr', _. split; [done|]. do 3 (split; [done|]). split; [|done]. split; [done|done|done|simpl; lia|].
  simpl. intros x Hx. apply elem_of_app in Hx as [Hx|[->|Hx]%elem_of_cons]; [|simpl; lia|]; etransitivity; [apply Hlev; set_solver|lia|apply Hlev; set_solver|lia].
Qed.

Lemma lower_max_ok (h : gmap loc (sl_node K D)) vis e l (p : loc) i :
  h !! p = Some (cell vis e l) -> (i <= e_level e)%nat ->
  exists i', lower_max h (Some p) i = Ok i' /\ (i' <= i)%nat /\ forall k, (i' < k <= i)%nat -> nxt vis k l = None.
Proof.
  intros Hp. induction i as [|i IH]; intros Hi.
  { exists 0%nat. split; [done|]. split; [done|]. intros k Hk. lia. }
  cbn [lower_max]. rewrite (next_at_cell _ _ _ _ _ _ Hp Hi). cbn [mbind res_bind].
  destruct (nxt vis (S i) l) eqn:E; [exists (S i); split; [done|]; split; [done|]; intros k Hk; lia|].
  destruct (IH ltac:(lia)) as (i' & E' & Hle & Hk). exists i'. split; [done|]. split; [lia|]. intros k Hk'.
  destruct (decide (k = S i)) as [->|]; [done|]. apply Hk. lia.
Qed.

Lemma vis_out_all e x i : x = e \/ e_loc x <> e_loc e -> vis_out e (S (e_level e)) x i = if decide (e_loc x = e_loc e) then false else full x i.
Proof.
  intros [->|Hx]; [|by rewrite decide_False, vis_out_other]. rewrite decide_True, vis_out_same by done.
  destruct (full e i) eqn:F; [|by rewrite andb_false_r]. rewrite andb_true_r. apply full_true in F. apply Nat.leb_gt. lia.
Qed.

Lemma remove_node_ok s A e B ptr :
  sl_shape s (A ++ e :: B) -> preds (current_max s) (head_ent s :: A) ptr -> e_data e = None -> e_more e = [] ->
  exists s', remove_node ptr s = Ok (tt, s') /\ sl_shape s' (A ++ B) /\
    sl_rest s' = (max_levels s, allow_dups s, sl_head s, n_keys s - 1, n_ele s, freed s).
Proof.
  intros Hs Hp Hd Hm. pose proof Hs as [Hn Hnd Hroom Hcur Hlev].
  change (head_ent s :: A ++ e :: B) with ((head_ent s :: A) ++ e :: B) in Hn, Hnd.
  pose proof (locs_others _ _ _ Hnd) as Hother.
  destruct (preds_next s A (e :: B) ptr _ Hs Hp) as (p & Ep & Enx & _). simpl in Enx.
  pose proof (shape_lookup s _ (head_ent s :: A) e B Hs eq_refl) as He.
  assert (Hle : (e_level e <= current_max s)%nat) by (apply Hlev; set_solver).
  unfold remove_node. erewrite st_bind_ok; [|unfold lift; by rewrite Ep]. erewrite st_bind_ok; [|unfold get_next; by rewrite Enx].
  erewrite st_bind_ok; [|unfold load, node_at; by rewrite He]. cbn [sn_level cell].
  erewrite st_bind_ok.
  2:{ apply (unlink_levels_ok (S (e_level e)) 0 s (head_ent s :: A) e B ptr _ eq_refl Hnd).
      - rewrite Hn. apply layout_ext. intros x i _. unfold vis_out. by case_decide.
      - done.
      - intros i Hi. apply Hp. lia. }
  set (vis := vis_out e (S (e_level e))). set (l := (head_ent s :: A) ++ e :: B).
  assert (Hvis : forall x i, x ∈ (head_ent s :: A) ++ B -> vis x i = full x i).
  { intros x i Hx. apply vis_out_other. by apply Hother. }
  assert (Hve : forall i, vis e i = false) by (intros i; unfold vis; rewrite vis_out_all by (by left); by rewrite decide_True).
  erewrite st_bind_ok; [|done]. cbn [current_max set_nodes sl_nodes sl_head].
  assert (Hmax : exists m, (if (e_level e =? current_max s)%nat then
      i ← lift (lower_max (layout vis l) (Some (sl_head s)) (current_max s)); st_modify (set_current_max i) else mret tt)
      (set_nodes (layout vis l) s) = Ok (tt, set_current_max m (set_nodes (layout vis l) s)) /\
      (m <= current_max s)%nat /\ forall x, x ∈ A ++ B -> (e_level x <= m)%nat).
  { destruct (e_level e =? current_max s)%nat.
    - destruct (lower_max_ok (layout vis l) vis (head_ent s) (A ++ e :: B) (sl_head s) (current_max s)) as (m & Em & Hmle & Hk).
      + apply (layout_lookup vis [] (head_ent s) (A ++ e :: B)). done.
      + simpl. lia.
      + exists m. erewrite st_bind_ok; [|unfold lift; by rewrite Em]. split; [done|]. split; [done|]. intros x Hx.
        destruct (decide (e_level x <= m)%nat); [done|]. exfalso.
        assert (Hx2 : x ∈ A ++ e :: B) by set_solver. specialize (Hk (e_level x)). rewrite nxt_none in Hk.
        specialize (Hk ltac:(specialize (Hlev x Hx2); lia) x Hx2). rewrite Hvis, full_false in Hk by set_solver. lia.
    - exists (current_max s). split; [by destruct s|]. split; [done|]. intros x Hx. apply Hlev. set_solver. }
  destruct Hmax as (m & Em & Hmle & Hmlev). rewrite (st_bind_ok _ _ _ _ _ Em). erewrite st_bind_ok; [|done].
  unfold destroy_skiplist_node. erewrite st_bind_ok.
  2:{ unfold load, node_at. cbn [sl_nodes set_counts set_current_max set_nodes]. unfold l. by rewrite (layout_lookup vis (head_ent s :: A) e B). }
  cbn [sn_data sn_more cell]. rewrite Hd, Hm. cbn [free_all]. do 2 (erewrite st_bind_ok; [|done]).
  eexists. split; [done|]. cbn [sl_nodes set_counts set_current_max set_nodes]. split; [|done]. split; try done; [|simpl|simpl; lia].
  - cbn [sl_nodes set_nodes]. unfold l. rewrite layout_delete by done. apply layout_ext. intros x i Hx. by apply Hvis.
  - unfold locs in Hnd. change (NoDup (locs ((head_ent s :: A) ++ B))). apply locs_app_nodup in Hnd as (H1 & H2 & H3).
    apply locs_app_nodup. split; [done|]. split; [set_solver|]. by apply NoDup_cons in H3 as [_ H3].
Qed.

(** [t] is [s] with other elements in the node of [e]. *)
Record node_set s t e B (d : option D) (m : list (option D)) : Prop := NodeSet {
  ns_nodes : sl_nodes t = <[e_loc e := with_ele d m (cell full e B)]> (sl_nodes s);
  ns_rest : (max_levels t, allow_dups t, sl_head t, current_max t) = (max_levels s, allow_dups s, sl_head s, current_max s) }.

Lemma shape_set s t A e B d m :
  sl_shape s (A ++ e :: B) -> node_set s t e B d m -> sl_shape t (A ++ with_data d m e :: B).
Proof.
  intros [Hn Hnd Hr Hcu Hlv] [Ht [= Em _ Eh Ec]].
  assert (Eh' : head_ent t = head_ent s) by (unfold head_ent; by rewrite Em, Eh).
  split; rewrite ?Em, ?Ec, ?Eh'; [|..|done|done|].
  - rewrite Ht, Hn. symmetry. apply (layout_with_data (head_ent s :: A)). exact Hnd.
  - assert (El : locs (head_ent s :: A ++ with_data d m e :: B) = locs (head_ent s :: A ++ e :: B)) by (unfold locs; csimpl; by rewrite !fmap_app).
    by rewrite El.
  - intros y Hy. apply elem_of_app in Hy as [Hy|[->|Hy]%elem_of_cons]; [apply Hlv; set_solver|apply (Hlv e); set_solver|apply Hlv; set_solver].
Qed.

(** A node is emptied and goes away. *)
Lemma drop_node_ok s t A e B ptr :
  sl_shape s (A ++ e :: B) -> node_set s t e B None [] -> preds (current_max s) (head_ent s :: A) ptr ->
  exists s', remove_node ptr t = Ok (tt, s') /\ sl_shape s' (A ++ B) /\
    sl_rest s' = (max_levels s, allow_dups s, sl_head s, n_keys t - 1, n_ele t, freed t).
Proof.
  intros Hs Ht Hp. pose proof (shape_set s t A e B None [] Hs Ht) as Hs'. destruct Ht as [_ [= Em Ea Eh Ec]].
  destruct (remove_node_ok t A (with_data None [] e) B ptr Hs') as (s' & E & Hs2 & Hr); [|done|done|].
  { unfold head_ent. by rewrite Ec, Em, Eh. }
  exists s'. split; [done|]. split; [done|]. by rewrite Hr, Em, Ea, Eh.
Qed.

End nodes.

(** ** The reference: an ordered association list

    A key comes with the data of its elements in the order they are kept.  The
    reference also says what is passed to [data_free]. *)
Section reference.
Context {K D : Type} `{EqDecision D} (compare : K -> K -> Z).
Implicit Types (a : list (K * list (option D))) (k : K) (d : option D) (ds : list (option D)).

(** A further element goes behind the first one, or replaces it. *)
Definition put_ele (dups : bool) d ds : list (option D) :=
  match ds with [] => [d] | x :: m => if dups then x :: d :: m else d :: m end.

Fixpoint al_insert (dups : bool) k d a : list (K * list (option D)) :=
  match a with
  | [] => [(k, [d])]
  | (k', ds) :: a' =>
    if compare k' k <? 0 then (k', ds) :: al_insert dups k d a'
    else if compare k' k =? 0 then (k', put_ele dups d ds) :: a'
    else (k, [d]) :: a
  end.

Fixpoint al_lookup k a : option (list (option D)) :=
  match a with
  | [] => None
  | (k', ds) :: a' => if compare k' k =? 0 then Some ds else al_lookup k a'
  end.

(** The elements of [k] become [ds]; none of them is left when [ds] is empty. *)
Fixpoint al_replace k ds a : list (K * list (option D)) :=
  match a with
  | [] => []
  | (k', ds') :: a' =>
    if compare k' k =? 0 then (match ds with [] => a' | _ => (k', ds) :: a' end) else (k', ds') :: al_replace k ds a'
  end.

Definition insert_frees (dups : bool) k a : list (option D) :=
  match al_lookup k a with Some (x :: _) => if dups then [] else [x] | _ => [] end.

(** What removing all elements frees: a first one without data is skipped. *)
Definition ele_frees ds : list (option D) := match ds with None :: m => m | _ => ds end.

(** What is left of the elements [ds], what is freed, and the code. *)
Definition drop_ele (data : option D) ds : list (option D) * list (option D) * Z :=
  match data with
  | None => ([], ele_frees ds, 0)
  | Some _ => let '(f, m) := remove_ele data ds in if f then (m, [data], 0) else (ds, [], 1)
  end.

Definition al_remove k (data : option D) a : Z * list (option D) * list (K * list (option D)) :=
  match al_lookup k a with
  | None => (1, [], a)
  | Some ds => let '(m, f, c) := drop_ele data ds in (c, f, al_replace k m a)
  end.

Definition al_pairs a : list (option K * option D) := a ≫= fun '(k, ds) => (fun d => (Some k, d)) <$> ds.

Definition al_from k a : list (K * list (option D)) := filter (fun '(k', _) => 0 <= compare k' k) a.

Definition al_count a : Z := zsum (fun '(_, ds) => Z.of_nat (length ds)) a.

(** ** Ordered lists *)

Context `{!CompareOk compare}.

Definition al_sorted a : Prop := StronglySorted (fun x y => compare x.1 y.1 < 0) a.

Lemma cmp_eq k k' : compare k k' = 0 -> k = k'.
Proof. apply cmp_zero. Qed.

Lemma cmp_refl k : compare k k = 0.
Proof. by apply cmp_zero. Qed.

(** The place of a key. *)
Lemma al_split k a :
  al_sorted a -> exists a1 a2, a = a1 ++ a2 /\ (forall x, x ∈ a1 -> compare x.1 k < 0) /\ (forall x, x ∈ a2 -> 0 <= compare x.1 k) /\
    (forall k' ds a', a2 = (k', ds) :: a' -> forall x, x ∈ a' -> 0 < compare x.1 k).
Proof.
  induction a as [|x a IH]; intros Hs.
  { exists [], []. split; [done|]. split; [|split]; [by intros x ?%not_elem_of_nil..|done]. }
  apply StronglySorted_inv in Hs as [Hs Hx]. rewrite Forall_forall in Hx.
  destruct (decide (compare x.1 k < 0)) as [Hlt|Hge].
  - destruct (IH Hs) as (a1 & a2 & -> & H1 & H2 & H3). exists (x :: a1), a2. split; [done|]. split; [|done].
    intros y [->|Hy]%elem_of_cons; [done|by apply H1].
  - assert (Hgt : forall y, y ∈ a -> 0 < compare y.1 k).
    { intros y Hy%Hx. destruct (decide (compare x.1 k = 0)) as [E%cmp_eq|Hne]; [subst k; by apply cmp_flip|].
      apply cmp_flip. eapply cmp_trans; [|exact Hy]. apply cmp_flip. lia. }
    exists [], (x :: a). split; [done|]. split; [by intros y ?%not_elem_of_nil|]. split.
    + intros y [->|Hy]%elem_of_cons; [lia|]. apply Hgt in Hy. lia.
    + intros k' ds a' [= -> ->] y Hy. by apply Hgt.
Qed.

Lemma al_insert_app dups k d a1 a2 :
  (forall x, x ∈ a1 -> compare x.1 k < 0) -> al_insert dups k d (a1 ++ a2) = a1 ++ al_insert dups k d a2.
Proof.
  induction a1 as [|[k' ds] a1 IH]; intros Hx; [done|]. simpl.
  rewrite (proj2 (Z.ltb_lt _ _)) by (apply (Hx (k', ds)); by left). rewrite IH; [done|]. intros x Hin. apply Hx. by right.
Qed.

Lemma al_lookup_app k a1 a2 : (forall x, x ∈ a1 -> compare x.1 k < 0) -> al_lookup k (a1 ++ a2) = al_lookup k a2.
Proof.
  induction a1 as [|[k' ds] a1 IH]; intros Hx; [done|]. simpl. specialize (Hx (k', ds) ltac:(by left)) as Hlt. simpl in Hlt.
  rewrite (proj2 (Z.eqb_neq _ _)) by lia. apply IH. intros x Hin. apply Hx. by right.
Qed.

Lemma al_replace_app k ds a1 a2 : (forall x, x ∈ a1 -> compare x.1 k < 0) -> al_replace k ds (a1 ++ a2) = a1 ++ al_replace k ds a2.
Proof.
  induction a1 as [|[k' ds'] a1 IH]; intros Hx; [done|]. simpl. specialize (Hx (k', ds') ltac:(by left)) as Hlt. simpl in Hlt.
  rewrite (proj2 (Z.eqb_neq _ _)) by lia. rewrite IH; [done|]. intros x Hin. apply Hx. by right.
Qed.

Lemma al_lookup_above k a : (forall x, x ∈ a -> 0 < compare x.1 k) -> al_lookup k a = None.
Proof.
  induction a as [|[k' ds] a IH]; intros Hx; [done|]. simpl. specialize (Hx (k', ds) ltac:(by left)) as Hlt. simpl in Hlt.
  rewrite (proj2 (Z.eqb_neq _ _)) by lia. apply IH. intros x Hin. apply Hx. by right.
Qed.

Lemma al_sorted_app a1 a2 :
  al_sorted (a1 ++ a2) <-> al_sorted a1 /\ al_sorted a2 /\ forall x y, x ∈ a1 -> y ∈ a2 -> compare x.1 y.1 < 0.
Proof.
  unfold al_sorted. rewrite StronglySorted_app. tauto.
Qed.

End reference.

(** ** The operations implement the reference *)

Section operations.
Context {K D : Type} `{EqDecision D} (compare : K -> K -> Z) `{!CompareOk compare} (below_p : nat -> bool).
Implicit Types (s : sl K D) (e : ent K D) (l A B : list (ent K D)) (a : list (K * list (option D))) (k : K).

Definition ent_is e (x : K * list (option D)) : Prop := e_key e = Some x.1 /\ e_data e :: e_more e = x.2.

(** The nodes [l] hold [a]. *)
Record holds s l a : Prop := Holds {
  ho_shape : sl_shape s l;
  ho_ents : Forall2 ent_is l a;
  ho_sorted : al_sorted compare a }.

Definition counted s a : Prop := n_keys s = Z.of_nat (length a) /\ n_ele s = al_count a.

(** A search with a function that is negative exactly before [a2]. *)
Lemma find_compare_holds s l a a1 a2 key fn fixed :
  holds s l a -> a = a1 ++ a2 ->
  (forall x, x ∈ a1 -> exists z, key_compare fn key fixed (Some x.1) = Ok z /\ z < 0) ->
  (forall x, x ∈ a2 -> exists z, key_compare fn key fixed (Some x.1) = Ok z /\ 0 <= z) ->
  exists A B cmp ptr, l = A ++ B /\ Forall2 ent_is A a1 /\ Forall2 ent_is B a2 /\
    find_key_compare s ptr_zero key fn fixed = Ok (cmp, ptr) /\
    preds (current_max s) (head_ent s :: A) ptr /\ length ptr = SKIPLIST_MAX_LEVEL /\
    match a2 with [] => cmp < 0 | x :: _ => key_compare fn key fixed (Some x.1) = Ok cmp end.
Proof.
  intros [Hs He _] -> H1 H2. apply Forall2_app_inv_r in He as (A & B & HA & HB & ->).
  destruct (find_levels_shape s A B (key_compare fn key fixed) Hs) as (cmp & ptr & E & Hl & Hp & Hc).
  - intros e Hin. apply list_elem_of_lookup in Hin as [i Hi].
    destruct (Forall2_lookup_l _ _ _ _ _ HA Hi) as (x & Hx & Hk & _). rewrite Hk. apply H1. by eapply list_elem_of_lookup_2.
  - intros e Hin. apply list_elem_of_lookup in Hin as [i Hi].
    destruct (Forall2_lookup_l _ _ _ _ _ HB Hi) as (x & Hx & Hk & _). rewrite Hk. apply H2. by eapply list_elem_of_lookup_2.
  - exists A, B, cmp, ptr. do 6 (split; [done|]). destruct HB as [|b x B a2 [Hk _] HB]; [done|]. rewrite <- Hk. apply Hc.
Qed.

(** A search for a key of the list's own order. *)
Lemma find_key_holds s l a k :
  holds s l a ->
  exists A B a1 a2 cmp ptr, l = A ++ B /\ a = a1 ++ a2 /\ Forall2 ent_is A a1 /\ Forall2 ent_is B a2 /\
    find_key compare ptr_zero (Some k) 0 s = Ok ((cmp, ptr), s) /\
    preds (current_max s) (head_ent s :: A) ptr /\ length ptr = SKIPLIST_MAX_LEVEL /\
    (forall x, x ∈ a1 -> compare x.1 k < 0) /\
    ((cmp = 0 /\ exists ds a', a2 = (k, ds) :: a' /\ forall x, x ∈ a' -> 0 < compare x.1 k) \/
     (cmp <> 0 /\ forall x, x ∈ a2 -> 0 < compare x.1 k)).
Proof.
  intros Hh. destruct (al_split compare k a (ho_sorted _ _ _ Hh)) as (a1 & a2 & Ea & H1 & H2 & H3).
  destruct (find_compare_holds s l a a1 a2 (Some k) compare 0 Hh Ea) as (A & B & cmp & ptr & El & HA & HB & E & Hp & Hl & Hc).
  - intros x Hx. eexists. split; [done|]. by apply H1.
  - intros x Hx. eexists. split; [done|]. by apply H2.
  - exists A, B, a1, a2, cmp, ptr. do 4 (split; [done|]). split; [unfold find_key; by rewrite E|]. do 3 (split; [done|]).
    destruct a2 as [|[k' ds] a']; [right; split; [lia|]; by intros x ?%not_elem_of_nil|].
    injection Hc as Hc. simpl in Hc. specialize (H3 k' ds a' eq_refl). destruct (decide (cmp = 0)) as [->|Hne].
    + left. split; [done|]. apply (cmp_eq compare) in Hc as ->. eauto.
    + right. split; [done|]. intros x [->|Hx]%elem_of_cons; [|by apply H3]. specialize (H2 (k', ds) ltac:(by left)). simpl in *. lia.
Qed.

Lemma holds_insert s s' A B a1 a2 e k d :
  holds s (A ++ B) (a1 ++ a2) -> Forall2 ent_is A a1 -> Forall2 ent_is B a2 ->
  (forall x, x ∈ a1 -> compare x.1 k < 0) -> (forall x, x ∈ a2 -> 0 < compare x.1 k) ->
  sl_shape s' (A ++ e :: B) -> ent_is e (k, [d]) -> holds s' (A ++ e :: B) (a1 ++ (k, [d]) :: a2).
Proof.
  intros [_ _ Hs] HA HB H1 H2 Hsh He. split; [done| |].
  - apply Forall2_app; [done|]. by constructor.
  - apply al_sorted_app in Hs as (Hs1 & Hs2 & Hs3). apply al_sorted_app. split; [done|]. split.
    + constructor; [done|]. apply Forall_forall. intros x Hx. simpl. by apply cmp_flip, H2.
    + intros x y Hx [->|Hy]%elem_of_cons; [by apply H1|by apply Hs3].
Qed.

Lemma holds_set s t A e B a1 k ds a2 d m :
  holds s (A ++ e :: B) (a1 ++ (k, ds) :: a2) -> Forall2 ent_is A a1 -> node_set s t e B d m ->
  holds t (A ++ with_data d m e :: B) (a1 ++ (k, d :: m) :: a2).
Proof.
  intros [Hs He Hso] HA Ht. apply Forall2_app_inv_l in He as (b1 & b2 & HA' & HB & E).
  assert (length b1 = length a1) by (by rewrite <- (Forall2_length _ _ _ HA), <- (Forall2_length _ _ _ HA')).
  apply app_inj_1 in E as [-> <-]; [|done]. apply Forall2_cons_inv_l in HB as (x & b2 & [Hk _] & HB & [= <- <-]).
  split; [by apply (shape_set s)|..].
  - apply Forall2_app; [done|]. by constructor.
  - apply al_sorted_app in Hso as (S1 & S2 & S3). apply al_sorted_app. split; [done|].
    apply StronglySorted_inv in S2 as [S2 S4]. split; [by constructor|].
    intros y z Hy [->|Hz]%elem_of_cons; [by apply (S3 y (k, ds)); [|left]|apply S3; [done|by right]].
Qed.

(** What an operation that turns [a] into [a'] and frees [f] does to the list. *)
Record becomes s s' a a' (f : list (option D)) : Prop := Becomes {
  be_holds : exists l, holds s' l a';
  be_counts : counted s a -> counted s' a';
  be_freed : freed s' = freed s ++ f;
  be_fixed : allow_dups s' = allow_dups s /\ max_levels s' = max_levels s /\ sl_head s' = sl_head s }.

Lemma al_count_app a1 a2 : al_count (a1 ++ a2) = al_count a1 + al_count a2.
Proof. apply zsum_app. Qed.

(** The node a successful search leads to. *)
Lemma found_node s A B a2 k ds a' ptr n :
  sl_shape s (A ++ B) -> preds n (head_ent s :: A) ptr -> Forall2 ent_is B a2 -> a2 = (k, ds) :: a' ->
  exists p e B', ptr_get ptr 0 = Ok p /\ B = e :: B' /\ ent_is e (k, ds) /\ Forall2 ent_is B' a' /\
    next_at (sl_nodes s) p 0 = Ok (Some (e_loc e)) /\ sl_nodes s !! e_loc e = Some (cell full e B').
Proof.
  intros Hs Hp HB ->. apply Forall2_cons_inv_r in HB as (e & B' & He & HB & ->).
  destruct (preds_next s A (e :: B') ptr n Hs Hp) as (p & Ep & En & _). exists (Some p), e, B'. do 5 (split; [done|]).
  by apply (shape_lookup s _ (head_ent s :: A) e B' Hs).
Qed.

Lemma becomes_set s t A e B a1 k ds a2 d m f :
  holds s (A ++ e :: B) (a1 ++ (k, ds) :: a2) -> Forall2 ent_is A a1 -> node_set s t e B d m ->
  n_keys t = n_keys s -> n_ele t = n_ele s + Z.of_nat (S (length m)) - Z.of_nat (length ds) -> freed t = freed s ++ f ->
  becomes s t (a1 ++ (k, ds) :: a2) (a1 ++ (k, d :: m) :: a2) f.
Proof.
  intros Hh HA Ht Ek Ee Ef. split; [eexists; by eapply holds_set| |done|].
  - intros [C1 C2]. split; [rewrite Ek, C1, !length_app; done|]. rewrite Ee, C2, !al_count_app. unfold al_count. simpl. lia.
  - destruct Ht as [_ [= Em Ea Eh _]]. done.
Qed.

Lemma sl_insert_ok s l a k d :
  holds s l a ->
  exists s', tbx_sl_insert compare below_p k d s = Ok (0, s') /\
    becomes s s' a (al_insert compare (allow_dups s) k d a) (insert_frees compare (allow_dups s) k a).
Proof.
  intros Hh. pose proof (ho_shape _ _ _ Hh) as Hs.
  destruct (find_key_holds s l a k Hh) as (A & B & a1 & a2 & cmp & ptr & -> & -> & HA & HB & Ef & Hp & Hlen & H1 & Hc).
  unfold tbx_sl_insert. rewrite (st_bind_ok _ _ _ _ _ Ef). cbn beta iota. unfold insert_frees.
  rewrite al_insert_app, al_lookup_app by done. destruct Hc as [(-> & ds & a' & Ea2 & Ha')|(Hne & H2)].
  - destruct (found_node s A B a2 k ds a' ptr _ Hs Hp HB Ea2) as (p & e & B' & Ep & -> & He & HB' & En & Eload).
    rewrite Ea2 in *. cbn [al_insert al_lookup Z.eqb]. rewrite (cmp_refl compare). cbn [Z.ltb Z.eqb Z.compare].
    erewrite st_bind_ok; [|unfold lift; by rewrite Ep]. erewrite st_bind_ok; [|unfold get_next; by rewrite En].
    erewrite st_bind_ok; [|unfold load, node_at; by rewrite Eload]. erewrite st_bind_ok; [|done]. cbn [sn_data sn_more cell].
    destruct He as [Hk Hds]. simpl in Hds. rewrite <- Hds. unfold put_ele. destruct (allow_dups s) eqn:Ed; cbn [negb].
    + erewrite st_bind_ok; [|by apply update_ok]. eexists. split; [done|].
      apply becomes_set with A e B'; [by rewrite Hds|done|done|done|simpl; lia|by rewrite app_nil_r].
    + erewrite st_bind_ok; [|done]. erewrite st_bind_ok; [|by apply update_ok]. eexists. split; [done|].
      apply becomes_set with A e B'; [by rewrite Hds|done|done|done|simpl; lia|done].
  - rewrite (proj2 (Z.eqb_neq _ _)) by done. erewrite st_bind_ok; [|done].
    rewrite al_lookup_above by done.
    destruct (pos_insert_ok below_p (set_counts (n_keys s + 1) (n_ele s + 1) s) A B ptr k d) as (e & ptr' & s' & Ei & Hk & Hd & Hm & Hs' & Hr & _);
      [by destruct Hs; split|done|done|].
    rewrite (st_bind_ok _ _ _ _ _ Ei). exists s'. split; [done|].
    assert (Ea : al_insert compare (allow_dups s) k d a2 = (k, [d]) :: a2).
    { destruct a2 as [|[k' ds] a2]; [done|]. simpl. specialize (H2 (k', ds) ltac:(by left)). simpl in H2.
      rewrite (proj2 (Z.ltb_ge _ _)), (proj2 (Z.eqb_neq _ _)) by lia. done. }
    rewrite Ea. injection Hr as Em Ead Eh Ek Ee Ef'. split.
    + eexists. eapply holds_insert; [exact Hh|done..|]. split; [done|]. by rewrite Hd, Hm.
    + intros [C1 C2]. split; [rewrite Ek, C1, !length_app; simpl; lia|]. rewrite Ee, C2, !al_count_app. unfold al_count. simpl. lia.
    + by rewrite Ef', app_nil_r.
    + done.
Qed.

Lemma free_all_ok (m : list (option D)) s : free_all m s = Ok (tt, set_freed (freed s ++ m) s).
Proof.
  revert s. induction m as [|d m IH]; intros s; cbn [free_all]; [rewrite app_nil_r; by destruct s|].
  erewrite st_bind_ok; [|done]. rewrite IH. cbn [freed set_freed]. by rewrite <- (assoc_L (++)).
Qed.

(** A key goes away. *)
Lemma becomes_drop s s' A e B a1 k ds a2 f :
  holds s (A ++ e :: B) (a1 ++ (k, ds) :: a2) -> Forall2 ent_is A a1 -> Forall2 ent_is B a2 -> sl_shape s' (A ++ B) ->
  sl_rest s' = (max_levels s, allow_dups s, sl_head s, n_keys s - 1, n_ele s - Z.of_nat (length ds), freed s ++ f) ->
  becomes s s' (a1 ++ (k, ds) :: a2) (a1 ++ a2) f.
Proof.
  intros [_ _ Hso] HA HB Hs' [= E1 E2 E3 E4 E5 E6]. split; [eexists; split; [exact Hs'|by apply Forall2_app|]| |done|done].
  - apply al_sorted_app in Hso as (S1 & S2 & S3). apply StronglySorted_inv in S2 as [S2 _].
    apply al_sorted_app. split; [done|]. split; [done|]. intros x y Hx Hy. apply S3; [done|by right].
  - intros [C1 C2]. rewrite length_app in C1. simpl in C1. rewrite al_count_app in C2. unfold al_count in C2. simpl in C2.
    split; [rewrite E4, length_app; lia|]. rewrite E5, al_count_app. unfold al_count. lia.
Qed.

Lemma becomes_refl s l a : holds s l a -> becomes s s a a [].
Proof. intros Hh. split; [by eexists|done|by rewrite app_nil_r|done]. Qed.

Lemma al_replace_here k ds ds' a : al_replace compare k ds ((k, ds') :: a) = match ds with [] => a | _ => (k, ds) :: a end.
Proof. simpl. by rewrite (cmp_refl compare). Qed.

Lemma remove_ele_length (data : option D) m m' : remove_ele data m = (true, m') -> length m = S (length m').
Proof.
  revert m'. induction m as [|d m IH]; intros m' E; [done|]. simpl in E. case_decide; [by injection E as ->|].
  destruct (remove_ele data m) as [[] m2]; [|done]. injection E as <-. simpl. by rewrite (IH m2).
Qed.

Lemma remove_all_ok s A e B k ptr :
  sl_shape s (A ++ e :: B) -> find_key compare ptr_zero (Some k) 0 s = Ok ((0, ptr), s) ->
  preds (current_max s) (head_ent s :: A) ptr ->
  exists s', tbx_sl_remove compare k None s = Ok (0, s') /\ sl_shape s' (A ++ B) /\
    sl_rest s' = (max_levels s, allow_dups s, sl_head s, n_keys s - 1, n_ele s - Z.of_nat (S (length (e_more e))),
                  freed s ++ ele_frees (e_data e :: e_more e)).
Proof.
  intros Hs Ef Hp. destruct (preds_next s A (e :: B) ptr _ Hs Hp) as (p & Ep & En & _).
  pose proof (shape_lookup s _ (head_ent s :: A) e B Hs eq_refl) as He.
  unfold tbx_sl_remove. rewrite (st_bind_ok _ _ _ _ _ Ef). cbn beta iota. cbn [Z.eqb negb].
  erewrite st_bind_ok; [|unfold lift; by rewrite Ep]. erewrite st_bind_ok; [|unfold get_next; by rewrite En].
  erewrite st_bind_ok; [|cbn [head fmap option_fmap option_map]; unfold load, node_at; by rewrite He]. cbn [sn_data sn_more cell].
  assert (Efree : forall t : sl K D, (match e_data e with Some d => data_free (Some d) | None => mret tt end) t =
    Ok (tt, set_freed (freed t ++ match e_data e with Some d => [Some d] | None => [] end) t)).
  { intros t. destruct (e_data e); [done|]. rewrite app_nil_r. by destruct t. }
  rewrite (st_bind_ok _ _ _ _ _ (Efree s)). erewrite st_bind_ok; [|by apply update_ok].
  erewrite st_bind_ok; [|apply free_all_ok]. erewrite st_bind_ok; [|done].
  match goal with |- context [mbind _ (remove_node ptr) ?t] =>
    destruct (drop_node_ok s t A e B ptr Hs) as (s' & E & Hs' & Hr); [done|done|] end.
  exists s'. rewrite (st_bind_ok _ _ _ _ _ E). split; [done|]. split; [done|]. rewrite Hr. simpl. f_equal; [f_equal; lia|].
  rewrite <- (assoc_L (++)). f_equal. by destruct (e_data e).
Qed.

Lemma remove_one_ok s A e B a1 k ds a2 dd ptr :
  holds s (A ++ e :: B) (a1 ++ (k, ds) :: a2) -> Forall2 ent_is A a1 -> ent_is e (k, ds) -> Forall2 ent_is B a2 ->
  find_key compare ptr_zero (Some k) 0 s = Ok ((0, ptr), s) -> preds (current_max s) (head_ent s :: A) ptr ->
  exists s', let '(m, f, c) := drop_ele (Some dd) ds in
    tbx_sl_remove compare k (Some dd) s = Ok (c, s') /\
    becomes s s' (a1 ++ (k, ds) :: a2) (a1 ++ match m with [] => a2 | _ => (k, m) :: a2 end) f.
Proof.
  intros Hh HA [Hk Hds] HB Ef Hp. pose proof (ho_shape _ _ _ Hh) as Hs.
  destruct (preds_next s A (e :: B) ptr _ Hs Hp) as (p & Ep & En & _).
  pose proof (shape_lookup s _ (head_ent s :: A) e B Hs eq_refl) as He.
  unfold tbx_sl_remove. rewrite (st_bind_ok _ _ _ _ _ Ef). cbn beta iota. cbn [Z.eqb negb].
  erewrite st_bind_ok; [|unfold lift; by rewrite Ep]. erewrite st_bind_ok; [|unfold get_next; by rewrite En].
  erewrite st_bind_ok; [|cbn [head fmap option_fmap option_map]; unfold load, node_at; by rewrite He]. cbn [sn_data sn_more cell drop_ele].
  cbn [snd] in Hds. subst ds. cbn [remove_ele]. destruct (decide (e_data e = Some dd)) as [Ed|Ed].
  - erewrite st_bind_ok; [|done]. erewrite st_bind_ok; [|done]. destruct (e_more e) as [|d m] eqn:Em.
    + erewrite st_bind_ok; [|by apply update_ok].
      match goal with |- context [mbind _ (remove_node ptr) ?t] =>
    destruct (drop_node_ok s t A e B ptr Hs) as (s' & E & Hs' & Hr); [done|done|] end.
      exists s'. rewrite (st_bind_ok _ _ _ _ _ E). split; [done|]. by apply (becomes_drop s s' A e B).
    + erewrite st_bind_ok; [|by apply update_ok]. eexists. split; [done|].
      apply becomes_set with A e B; [done|done|done|done|simpl; lia|done].
  - destruct (remove_ele (Some dd) (e_more e)) as [[] m] eqn:Er.
    + erewrite st_bind_ok; [|done]. erewrite st_bind_ok; [|done]. erewrite st_bind_ok; [|by apply update_ok].
      eexists. split; [done|]. apply becomes_set with A e B; [done|done|done|done| |done].
      simpl. rewrite (remove_ele_length _ _ _ Er). lia.
    + exists s. split; [done|]. by eapply becomes_refl.
Qed.

Lemma sl_remove_ok s l a k data :
  holds s l a ->
  exists s', let '(c, f, a') := al_remove compare k data a in
    tbx_sl_remove compare k data s = Ok (c, s') /\ becomes s s' a a' f.
Proof.
  intros Hh. pose proof (ho_shape _ _ _ Hh) as Hs.
  destruct (find_key_holds s l a k Hh) as (A & B & a1 & a2 & cmp & ptr & -> & -> & HA & HB & Ef & Hp & Hlen & H1 & Hc).
  unfold al_remove. rewrite al_lookup_app by done. destruct Hc as [(-> & ds & a' & -> & Ha')|(Hne & H2)].
  2:{ rewrite al_lookup_above by done. exists s. split; [|by eapply becomes_refl].
      unfold tbx_sl_remove. rewrite (st_bind_ok _ _ _ _ _ Ef). cbn beta iota. by rewrite (proj2 (Z.eqb_neq _ _)). }
  apply Forall2_cons_inv_r in HB as (e & B' & He & HB & ->). cbn [al_lookup]. rewrite (cmp_refl compare). cbn [Z.eqb].
  destruct data as [dd|].
  - destruct (remove_one_ok s A e B' a1 k ds a' dd ptr Hh HA He HB Ef Hp) as (s' & Hr). exists s'.
    destruct (drop_ele (Some dd) ds) as [[m f] c]. by rewrite al_replace_app, al_replace_here.
  - destruct (remove_all_ok s A e B' k ptr Hs Ef Hp) as (s' & E & Hs' & Hr). exists s'. cbn [drop_ele]. rewrite al_replace_app, al_replace_here by done. split; [done|].
    destruct He as [_ Hds]. cbn [snd] in Hds. subst ds. by apply (becomes_drop s s' A e B').
Qed.

Definition ent_pairs e : list (option K * option D) := (fun d => (e_key e, d)) <$> (e_data e :: e_more e).

Lemma ptr_copy_ok from (next ptr : list (option loc)) :
  (from + length next <= length ptr)%nat -> exists ptr', ptr_copy from next ptr = Ok ptr' /\ length ptr' = length ptr.
Proof.
  revert from ptr. induction next as [|q next IH]; intros from ptr Hlen; [by exists ptr|]. simpl in Hlen. cbn [ptr_copy].
  unfold ptr_set. rewrite decide_True by lia. cbn [mbind res_bind].
  destruct (IH (S from) (<[from := q]> ptr)) as (ptr' & E & Hl); [rewrite length_insert; lia|].
  exists ptr'. by rewrite length_insert in Hl.
Qed.

(** One element of the current node. *)
Lemma sl_next_ele s l l1 e l2 j d it :
  sl_shape s l -> head_ent s :: l = l1 ++ e :: l2 -> it_sn it = Some (e_loc e) -> it_ele it = Some (e_loc e, j) ->
  (e_data e :: e_more e) !! j = Some d ->
  tbx_sl_next it s = Ok ((0, e_key e, d, Iter (if decide (j < length (e_more e))%nat then Some (e_loc e, S j) else None)
    (Some (e_loc e, j)) (it_curr it) (it_sn it) (it_ptr it)), s).
Proof.
  intros Hs El Esn Eele Hd. pose proof (shape_lookup s l l1 e l2 Hs El) as Hl.
  unfold tbx_sl_next. rewrite Eele, Esn. unfold node_at. rewrite Hl. cbn [mbind res_bind]. unfold ele_data.
  cbn [sn_data sn_more cell]. by rewrite Hd.
Qed.

(** The step to the next node. *)
Lemma sl_next_node s l l1 e e' l2 it :
  sl_shape s l -> head_ent s :: l = l1 ++ e :: e' :: l2 -> it_sn it = Some (e_loc e) -> it_ele it = None ->
  length (it_ptr it) = SKIPLIST_MAX_LEVEL ->
  exists ptr, length ptr = SKIPLIST_MAX_LEVEL /\
    tbx_sl_next it s = tbx_sl_next (Iter (Some (e_loc e', O)) (it_curr it) (it_prev it) (Some (e_loc e')) ptr) s.
Proof.
  intros Hs El Esn Eele Hlen. pose proof (shape_lookup s l l1 e (e' :: l2) Hs El) as Hl.
  assert (Hlev : (e_level e < SKIPLIST_MAX_LEVEL)%nat).
  { destruct Hs as [_ _ Hr Hc Hlv]. assert (Hin : e ∈ head_ent s :: l) by (rewrite El; set_solver).
    apply elem_of_cons in Hin as [->|Hin]; [simpl; lia|]. apply Hlv in Hin. lia. }
  destruct (ptr_copy_ok 0 (sn_next (cell full e (e' :: l2))) (it_ptr it)) as (ptr & Ep & Hlp).
  { unfold cell. cbn [sn_next]. rewrite length_fmap, length_seq. lia. }
  exists ptr. split; [by rewrite Hlp|]. unfold tbx_sl_next at 1. rewrite Eele, Esn, (shape_next s l1 e (e' :: l2) l Hs El).
  assert (Hna : node_at (sl_nodes s) (Some (e_loc e)) = Ok (cell full e (e' :: l2))) by (unfold node_at; by rewrite Hl).
  rewrite Hna. cbn [mbind res_bind head fmap option_fmap option_map]. by rewrite Ep.
Qed.

Lemma sl_scan_ok s l fuel l1 e l2 j it :
  sl_shape s l -> head_ent s :: l = l1 ++ e :: l2 -> it_sn it = Some (e_loc e) -> length (it_ptr it) = SKIPLIST_MAX_LEVEL ->
  (j <= S (length (e_more e)))%nat ->
  it_ele it = (if decide (j <= length (e_more e))%nat then Some (e_loc e, j) else None) ->
  (length (drop j (ent_pairs e)) + length (l2 ≫= ent_pairs) < fuel)%nat ->
  sl_scan fuel it s = Ok (drop j (ent_pairs e) ++ (l2 ≫= ent_pairs), s).
Proof.
  intros Hs. revert l1 e l2 j it. induction fuel as [|fuel IH]; intros l1 e l2 j it El Esn Hptr Hj Eele Hfuel; [lia|].
  cbn [sl_scan]. case_decide as Hle.
  - destruct (lookup_lt_is_Some_2 (e_data e :: e_more e) j) as [d Hd]; [simpl; lia|].
    assert (Hdrop : drop j (ent_pairs e) = (e_key e, d) :: drop (S j) (ent_pairs e)).
    { apply drop_S. unfold ent_pairs. by rewrite list_lookup_fmap, Hd. }
    rewrite (st_bind_ok _ _ _ _ _ (sl_next_ele s l l1 e l2 j d it Hs El Esn Eele Hd)). cbn [Z.eqb].
    rewrite Hdrop in Hfuel |- *. cbn [length] in Hfuel.
    erewrite st_bind_ok; [done|]. apply (IH l1 e l2 (S j)); [done|done|done|lia|cbn [it_ele]; repeat case_decide; done || lia|lia].
  - assert (Hnil : drop j (ent_pairs e) = []) by (apply drop_ge; unfold ent_pairs; rewrite length_fmap; simpl; lia).
    rewrite Hnil in Hfuel |- *. destruct l2 as [|e' l2].
    + erewrite st_bind_ok.
      2:{ unfold tbx_sl_next. rewrite Eele, Esn, (shape_next s l1 e [] l Hs El). unfold node_at. by rewrite (shape_lookup s l l1 e [] Hs El). }
      done.
    + destruct (sl_next_node s l l1 e e' l2 it Hs El Esn Eele Hptr) as (ptr & Hlp & En).
      assert (El2 : head_ent s :: l = (l1 ++ [e]) ++ e' :: l2) by (by rewrite <- (assoc_L (++))).
      erewrite st_bind_ok; [|rewrite En; by apply (sl_next_ele s l (l1 ++ [e]) e' l2 0 (e_data e'))].
      cbn [Z.eqb]. rewrite bind_cons, length_app in Hfuel. cbn [length] in Hfuel.
      assert (Hl1 : length (ent_pairs e') = S (length (drop 1 (ent_pairs e')))) by done.
      erewrite st_bind_ok; [|apply (IH (l1 ++ [e]) e' l2 1%nat); [done|done|done|lia|cbn [it_ele]; repeat case_decide; done || lia|]].
      * done.
      * lia.
Qed.

Lemma pairs_ents l a : Forall2 ent_is l a -> l ≫= ent_pairs = al_pairs a.
Proof.
  induction 1 as [|e [k ds] l a [Hk Hd] _ IH]; [done|]. unfold al_pairs in *. rewrite !bind_cons, <- IH. f_equal.
  unfold ent_pairs. simpl in Hk, Hd. by rewrite Hk, Hd.
Qed.

(** Iteration from the first key for which the comparison is not negative. *)
Lemma sl_iter_ok s l a a1 a2 key fn fuel :
  holds s l a -> a = a1 ++ a2 ->
  (forall x, x ∈ a1 -> exists z, key_compare fn key 0 (Some x.1) = Ok z /\ z < 0) ->
  (forall x, x ∈ a2 -> exists z, key_compare fn key 0 (Some x.1) = Ok z /\ 0 <= z) ->
  (length (al_pairs a2) < fuel)%nat ->
  exists it, tbx_sl_iter_search_compare key fn 0 s = Ok (it, s) /\ sl_scan fuel it s = Ok (al_pairs a2, s) /\
    match a2 with
    | [] => it_sn it = None
    | x :: _ => exists p n, it_sn it = Some p /\ sl_nodes s !! p = Some n /\ sn_key n = Some x.1 /\ sn_data n :: sn_more n = x.2
    end.
Proof.
  intros Hh Ea H1 H2 Hfuel. pose proof (ho_shape _ _ _ Hh) as Hs.
  destruct (find_compare_holds s l a a1 a2 key fn 0 Hh Ea H1 H2) as (A & B & cmp & ptr & -> & HA & HB & E & Hp & Hlen & _).
  destruct (preds_next s A B ptr _ Hs Hp) as (p & Ep & En & _).
  unfold tbx_sl_iter_search_compare. rewrite E. cbn [mbind res_bind]. rewrite Ep. cbn [mbind res_bind]. rewrite En. cbn [mbind res_bind Z.ltb orb andb Z.compare].
  rewrite <- (pairs_ents _ _ HB) in Hfuel |- *. destruct HB as [|e [k ds] B a2 [Hk Hd] HB].
  - eexists. split; [done|]. split; [|done]. destruct fuel; [lia|]. done.
  - eexists. split; [done|]. split.
    + rewrite bind_cons. rewrite (sl_scan_ok s (A ++ e :: B) fuel (head_ent s :: A) e B 0); try done; [lia|].
      rewrite bind_cons, length_app in Hfuel. exact Hfuel.
    + eexists _, _. split; [done|]. split; [by apply (shape_lookup s _ (head_ent s :: A) e B Hs)|]. done.
Qed.

Lemma sl_search_ok s l a k :
  holds s l a ->
  tbx_sl_search_compare k compare s = Ok (match al_lookup compare k a with Some (d :: _) => d | _ => None end, s).
Proof.
  intros Hh. destruct (al_split compare k a (ho_sorted _ _ _ Hh)) as (a1 & a2 & Ea & H1 & H2 & H3).
  destruct (sl_iter_ok s l a a1 a2 (Some k) compare (S (length (al_pairs a2))) Hh Ea) as (it & Ei & _ & Hit); [..|lia|].
  - intros x Hx. eexists. split; [done|]. by apply H1.
  - intros x Hx. eexists. split; [done|]. by apply H2.
  - unfold tbx_sl_search_compare. rewrite (st_bind_ok _ _ _ _ _ Ei), Ea, al_lookup_app by done.
    destruct a2 as [|[k' ds] a2]; [by rewrite Hit|]. destruct Hit as (p & n & Ep & En & Hk & Hd). rewrite Ep.
    erewrite st_bind_ok; [|unfold load, node_at; by rewrite En]. rewrite Hk. erewrite st_bind_ok; [|done]. simpl. simpl in Hd.
    destruct (compare k' k =? 0) eqn:Ec; [by rewrite <- Hd|]. by rewrite al_lookup_above by by apply (H3 k' ds).
Qed.

Lemma sl_first_ok s l a : holds s l a -> counted s a -> tbx_sl_first_key compare s = Ok (fst <$> head a, s).
Proof.
  intros Hh [Hc _]. pose proof (ho_shape _ _ _ Hh) as Hs. unfold tbx_sl_first_key. erewrite st_bind_ok; [|done].
  destruct a as [|[k ds] a]; [by rewrite Hc|]. rewrite (proj2 (Z.leb_gt _ _)) by (rewrite Hc; simpl; lia).
  destruct (find_compare_holds s l _ [] ((k, ds) :: a) None compare 1 Hh eq_refl) as (A & B & cmp & ptr & -> & HA & HB & E & Hp & Hlen & _).
  { by intros x ?%not_elem_of_nil. }
  { intros x _. by eexists. }
  apply Forall2_nil_inv_r in HA as ->. apply Forall2_cons_inv_r in HB as (e & B' & [Hk _] & _ & ->).
  destruct (preds_next s [] (e :: B') ptr _ Hs Hp) as (p & Ep & En & _).
  erewrite st_bind_ok; [|unfold find_key; by rewrite E]. cbn beta iota. erewrite st_bind_ok; [|unfold lift; by rewrite Ep].
  erewrite st_bind_ok; [|unfold get_next; by rewrite En].
  erewrite st_bind_ok; [|unfold load, node_at; cbn [head fmap option_fmap option_map]; by rewrite (shape_lookup s _ [head_ent s] e B' Hs)].
  cbn [sn_key cell]. by rewrite Hk.
Qed.

Lemma sl_last_ok s l a : holds s l a -> counted s a -> tbx_sl_key_last compare s = Ok (fst <$> last a, s).
Proof.
  intros Hh [Hc _]. pose proof (ho_shape _ _ _ Hh) as Hs. unfold tbx_sl_key_last. erewrite st_bind_ok; [|done].
  destruct (decide (a = [])) as [->|Hne]; [by rewrite Hc|].
  rewrite (proj2 (Z.leb_gt _ _)) by (rewrite Hc; destruct a; [done|simpl; lia]).
  destruct (find_compare_holds s l a a [] None compare (-1) Hh) as (A & B & cmp & ptr & -> & HA & HB & E & Hp & Hlen & _).
  { by rewrite app_nil_r. }
  { intros x _. by eexists. }
  { by intros x ?%not_elem_of_nil. }
  apply Forall2_nil_inv_r in HB as ->. destruct (preds_next s A [] ptr _ Hs Hp) as (p & Ep & _ & (x & Hx & <- & Hlast)).
  erewrite st_bind_ok; [|unfold find_key; by rewrite E]. cbn beta iota. erewrite st_bind_ok; [|unfold lift; by rewrite Ep].
  destruct a as [|y a _] using rev_ind; [done|]. rewrite last_snoc.
  apply Forall2_app_inv_r in HA as (A1 & A2 & HA1 & HA2 & ->). apply Forall2_cons_inv_r in HA2 as (e & A3 & [Hk _] & HA3 & ->).
  apply Forall2_nil_inv_r in HA3 as ->. rewrite app_comm_cons, last_snoc in Hlast. injection Hlast as <-.
  erewrite st_bind_ok; [|unfold load, node_at; by rewrite (shape_lookup s _ (head_ent s :: A1) e [] Hs) by (by rewrite app_nil_r)].
  cbn [sn_key cell]. by rewrite Hk.
Qed.

(** What emptying a list frees. *)
Definition al_frees a : list (option D) := a ≫= fun '(_, ds) => ele_frees ds.

Lemma destroy_ok s e B :
  sl_nodes s !! e_loc e = Some (cell full e B) ->
  destroy_skiplist_node (Some (e_loc e)) s =
    Ok (tt, set_freed (freed s ++ ele_frees (e_data e :: e_more e)) (set_nodes (delete (e_loc e) (sl_nodes s)) s)).
Proof.
  intros He. unfold destroy_skiplist_node. erewrite st_bind_ok; [|unfold load, node_at; by rewrite He]. cbn [sn_data sn_more cell].
  destruct (e_data e) as [d|].
  - erewrite st_bind_ok; [|done]. erewrite st_bind_ok; [|apply free_all_ok]. unfold st_modify, set_nodes, set_freed. simpl.
    by rewrite <- (assoc_L (++)).
  - erewrite st_bind_ok; [|done]. erewrite st_bind_ok; [|apply free_all_ok]. done.
Qed.

Lemma empty_loop_ok fuel s l c :
  sl_nodes s = <[sl_head s := c]> (layout full l) -> NoDup (sl_head s :: locs l) -> (length l <= fuel)%nat ->
  empty_loop fuel (e_loc <$> head l) s =
    Ok (tt, set_freed (freed s ++ (l ≫= fun e => ele_frees (e_data e :: e_more e))) (set_nodes {[sl_head s := c]} s)).
Proof.
  revert s l. induction fuel as [|fuel IH]; intros s [|e l] Hn Hnd Hf; [|simpl in Hf; lia|..].
  1-2: simpl; rewrite app_nil_r; destruct s; simpl in *; by rewrite Hn.
  apply NoDup_cons in Hnd as [Hh Hnd]. apply not_elem_of_cons in Hh as [Hne Hh]. apply NoDup_cons in Hnd as [He Hnd].
  assert (El : sl_nodes s !! e_loc e = Some (cell full e l)).
  { rewrite Hn, lookup_insert_ne by done. simpl. apply lookup_insert_eq. }
  cbn [empty_loop head fmap option_fmap option_map]. erewrite st_bind_ok; [|unfold get_next; by rewrite (next_at_cell _ _ _ _ _ 0 El ltac:(lia))].
  erewrite st_bind_ok; [|by apply (destroy_ok s e l)].
  assert (Enx : nxt full 0 l = e_loc <$> head l) by (unfold nxt; by destruct l; [|rewrite filter_cons_True]). rewrite Enx.
  rewrite IH with (l := l); [|..|simpl in Hf; lia].
  - rewrite bind_cons. unfold set_freed, set_nodes. simpl. by rewrite <- (assoc_L (++)).
  - cbn [sl_nodes sl_head set_nodes set_freed]. rewrite Hn. simpl. rewrite delete_insert_ne by done.
    rewrite delete_insert_id; [done|]. by apply layout_lookup_none.
  - cbn [sl_head set_nodes set_freed]. by constructor.
Qed.

Lemma sl_empty_ok s l a :
  holds s l a -> exists s', tbx_sl_empty s = Ok (tt, s') /\ becomes s s' a [] (al_frees a).
Proof.
  intros [[Hn Hnd Hr Hc Hlv] He _].
  set (s1 := set_current_max 0 (set_counts 0 0 s)).
  assert (Hh : sl_nodes s1 !! sl_head s = Some (cell full (head_ent s) l)).
  { change (sl_nodes s1) with (sl_nodes s). rewrite Hn. apply (layout_lookup full [] (head_ent s) l). exact Hnd. }
  unfold tbx_sl_empty. erewrite st_bind_ok; [|done]. erewrite st_bind_ok; [|done]. fold s1. change (sl_head s1) with (sl_head s).
  erewrite st_bind_ok; [|unfold get_next; by rewrite (next_at_cell _ _ _ _ _ 0 Hh ltac:(lia))].
  erewrite st_bind_ok; [|by apply update_ok].
  assert (Enx : nxt full 0 l = e_loc <$> head l) by (unfold nxt; by destruct l; [|rewrite filter_cons_True]). rewrite Enx.
  assert (Ecl : clear_next (cell full (head_ent s) l) = cell full (head_ent s) []).
  { unfold clear_next, cell. f_equal. cbn [sn_next]. by rewrite length_fmap, length_seq, nexts_nil. }
  rewrite Ecl. erewrite empty_loop_ok with (l := l) (c := cell full (head_ent s) []).
  - eexists. split; [done|]. split; [|done| |done].
    + exists []. split; [split|constructor|constructor]; cbn; try done.
      * repeat constructor. by apply not_elem_of_nil.
      * lia.
      * by intros x ?%not_elem_of_nil.
    + cbn [freed set_freed set_nodes]. f_equal. unfold al_frees. clear -He.
      induction He as [|e [k ds] l a [_ Hd] _ IH]; [done|]. rewrite !bind_cons, IH. simpl in Hd. by rewrite Hd.
  - cbn [sl_nodes set_nodes sl_head set_counts set_current_max s1]. rewrite Hn. simpl. by rewrite insert_insert_eq.
  - exact Hnd.
  - change (sl_nodes s1) with (sl_nodes s). rewrite Hn, layout_size by done. simpl. lia.
Qed.

End operations.

(** ** Sequences of calls *)

Section sequences.
Context {K D : Type} `{EqDecision D} (compare : K -> K -> Z) `{!CompareOk compare} (below_p : nat -> bool).

Inductive sl_op :=
| SlInsert (k : K) (d : option D)
| SlRemove (k : K) (data : option D)
| SlSearch (k : K)
| SlFirst
| SlLast
| SlScan (k : option K)
| SlEmpty.

Inductive sl_out :=
| OutCode (c : Z)
| OutData (d : option D)
| OutKey (k : option K)
| OutPairs (l : list (option K * option D)).

Definition sl_exec (op : sl_op) : ST (sl K D) sl_out :=
  match op with
  | SlInsert k d => c ← tbx_sl_insert compare below_p k d; mret (OutCode c)
  | SlRemove k data => c ← tbx_sl_remove compare k data; mret (OutCode c)
  | SlSearch k => d ← tbx_sl_search_compare k compare; mret (OutData d)
  | SlFirst => k ← tbx_sl_first_key compare; mret (OutKey k)
  | SlLast => k ← tbx_sl_key_last compare; mret (OutKey k)
  | SlScan k =>
    s ← st_get;
    it ← tbx_sl_iter_search_compare k compare 0;
    l ← sl_scan (S (Z.to_nat (n_ele s))) it;
    mret (OutPairs l)
  | SlEmpty => _ ← tbx_sl_empty; mret (OutCode 0)
  end.

Fixpoint sl_run (ops : list sl_op) : ST (sl K D) (list sl_out) :=
  match ops with
  | [] => mret []
  | op :: ops => o ← sl_exec op; os ← sl_run ops; mret (o :: os)
  end.

(** The reference: the result, what is freed and the new association list. *)
Definition al_exec (dups : bool) (op : sl_op) (a : list (K * list (option D)))
  : sl_out * list (option D) * list (K * list (option D)) :=
  match op with
  | SlInsert k d => (OutCode 0, insert_frees compare dups k a, al_insert compare dups k d a)
  | SlRemove k data => let '(c, f, a') := al_remove compare k data a in (OutCode c, f, a')
  | SlSearch k => (OutData (match al_lookup compare k a with Some (d :: _) => d | _ => None end), [], a)
  | SlFirst => (OutKey (fst <$> head a), [], a)
  | SlLast => (OutKey (fst <$> last a), [], a)
  | SlScan k => (OutPairs (al_pairs (match k with None => a | Some k => al_from compare k a end)), [], a)
  | SlEmpty => (OutCode 0, al_frees a, [])
  end.

Fixpoint al_run (dups : bool) (ops : list sl_op) (a : list (K * list (option D)))
  : list sl_out * list (option D) * list (K * list (option D)) :=
  match ops with
  | [] => ([], [], a)
  | op :: ops =>
    let '(o, f, a) := al_exec dups op a in
    let '(os, fs, a) := al_run dups ops a in (o :: os, f ++ fs, a)
  end.

Lemma al_from_split k a1 a2 :
  (forall x, x ∈ a1 -> compare x.1 k < 0) -> (forall x, x ∈ a2 -> 0 <= compare x.1 k) ->
  al_from (D := D) compare k (a1 ++ a2) = a2.
Proof.
  intros H1 H2. unfold al_from. rewrite filter_app. replace (filter _ a1) with (@nil (K * list (option D))).
  - simpl. clear H1. induction a2 as [|[k' ds] a2 IH]; [done|]. rewrite filter_cons_True by (apply (H2 (k', ds)); by left).
    f_equal. apply IH. intros x Hx. apply H2. by right.
  - clear H2. induction a1 as [|[k' ds] a1 IH]; [done|]. rewrite filter_cons_False; [apply IH; intros x Hx; apply H1; by right|].
    specialize (H1 (k', ds) ltac:(by left)). simpl in H1. lia.
Qed.

Lemma al_pairs_length (a : list (K * list (option D))) : Z.of_nat (length (al_pairs a)) = al_count a.
Proof.
  induction a as [|[k ds] a IH]; [done|]. unfold al_pairs in *. rewrite bind_cons, length_app, length_fmap.
  unfold al_count in *. simpl. lia.
Qed.

Lemma al_pairs_app (a1 a2 : list (K * list (option D))) : al_pairs (a1 ++ a2) = al_pairs a1 ++ al_pairs a2.
Proof. unfold al_pairs. apply bind_app. Qed.

Lemma sl_scan_exec s l a k :
  holds compare s l a -> counted s a ->
  sl_exec (SlScan k) s = Ok (OutPairs (al_pairs (match k with None => a | Some k => al_from compare k a end)), s).
Proof.
  intros Hh [_ Hc]. cbn [sl_exec]. erewrite st_bind_ok; [|done]. rewrite Hc.
  assert (Hsplit : exists a1 a2, a = a1 ++ a2 /\ a2 = (match k with None => a | Some k => al_from compare k a end) /\
    (forall x, x ∈ a1 -> exists z, key_compare compare k 0 (Some x.1) = Ok z /\ z < 0) /\
    (forall x, x ∈ a2 -> exists z, key_compare compare k 0 (Some x.1) = Ok z /\ 0 <= z)).
  { destruct k as [k|].
    - destruct (al_split compare k a (ho_sorted _ _ _ _ Hh)) as (a1 & a2 & -> & H1 & H2 & _). exists a1, a2.
      split; [done|]. rewrite al_from_split by done. split; [done|]. split; intros x Hx; eexists; (split; [done|]); eauto.
    - exists [], a. split; [done|]. split; [done|]. split; [by intros x ?%not_elem_of_nil|]. intros x _. eexists. by split. }
  destruct Hsplit as (a1 & a2 & Ea & <- & H1 & H2).
  destruct (sl_iter_ok compare s l a a1 a2 k compare (S (Z.to_nat (al_count a))) Hh Ea H1 H2) as (it & Ei & Es & _).
  { rewrite Ea, <- al_pairs_length, al_pairs_app, length_app. lia. }
  rewrite (st_bind_ok _ _ _ _ _ Ei). by rewrite (st_bind_ok _ _ _ _ _ Es).
Qed.

Lemma sl_exec_ok s l a op :
  holds compare s l a -> counted s a ->
  exists s', let '(o, f, a') := al_exec (allow_dups s) op a in sl_exec op s = Ok (o, s') /\ becomes compare s s' a a' f.
Proof.
  intros Hh Hc. pose proof (becomes_refl compare s l a Hh) as Hr. destruct op as [k d|k data|k| | |k|]; cbn [al_exec sl_exec].
  - destruct (sl_insert_ok compare below_p s l a k d Hh) as (s' & E & Hb). exists s'. by rewrite (st_bind_ok _ _ _ _ _ E).
  - destruct (sl_remove_ok compare s l a k data Hh) as (s' & Hb). destruct (al_remove compare k data a) as [[c f] a'].
    destruct Hb as [E Hb]. exists s'. by rewrite (st_bind_ok _ _ _ _ _ E).
  - exists s. split; [|done]. by rewrite (st_bind_ok _ _ _ _ _ (sl_search_ok compare s l a k Hh)).
  - exists s. split; [|done]. by rewrite (st_bind_ok _ _ _ _ _ (sl_first_ok compare s l a Hh Hc)).
  - exists s. split; [|done]. by rewrite (st_bind_ok _ _ _ _ _ (sl_last_ok compare s l a Hh Hc)).
  - exists s. split; [|done]. by apply (sl_scan_exec s l a k).
  - destruct (sl_empty_ok compare s l a Hh) as (s' & E & Hb). exists s'. by rewrite (st_bind_ok _ _ _ _ _ E).
Qed.

Lemma sl_run_ok ops s l a :
  holds compare s l a -> counted s a ->
  exists s', let '(os, f, a') := al_run (allow_dups s) ops a in sl_run ops s = Ok (os, s') /\ becomes compare s s' a a' f.
Proof.
  revert s l a. induction ops as [|op ops IH]; intros s l a Hh Hc; cbn [al_run sl_run].
  { exists s. split; [done|]. by eapply becomes_refl. }
  destruct (sl_exec_ok s l a op Hh Hc) as (s1 & H1). destruct (al_exec (allow_dups s) op a) as [[o f] a1].
  destruct H1 as [E1 [[l1 Hh1] Hc1 Hf1 (Hd1 & Hm1 & He1)]]. destruct (IH s1 l1 a1 Hh1 (Hc1 Hc)) as (s2 & H2). rewrite Hd1 in H2.
  destruct (al_run (allow_dups s) ops a1) as [[os fs] a2]. destruct H2 as [E2 [Hh2 Hc2 Hf2 (Hd2 & Hm2 & He2)]].
  exists s2. rewrite (st_bind_ok _ _ _ _ _ E1), (st_bind_ok _ _ _ _ _ E2). split; [done|]. split; [done|auto|by rewrite Hf2, Hf1, <- (assoc_L (++))|].
  by rewrite Hd2, Hm2, He2.
Qed.

Lemma sl_new_holds maxlevels dups (s : sl K D) :
  (0 < maxlevels <= SKIPLIST_MAX_LEVEL)%nat -> tbx_sl_new_full maxlevels dups = Ok s ->
  holds compare s [] [] /\ counted s [] /\ freed s = [] /\ allow_dups s = dups.
Proof.
  intros Hm E. destruct maxlevels as [|level]; [lia|]. injection E as <-. split; [|done]. split; [split|constructor|constructor].
  - simpl layout. unfold cell. by rewrite nexts_nil.
  - repeat constructor. by apply not_elem_of_nil.
  - done.
  - simpl. lia.
  - by intros x ?%not_elem_of_nil.
Qed.

(** C12: whatever numbers are drawn for the levels, any sequence of calls on a
    new skip list runs without a fault and returns what the same sequence
    returns on an ordered association list; the data freed and the counts of
    keys and elements are the reference's, with and without duplicates. *)
Theorem sl_refines maxlevels dups ops :
  (0 < maxlevels <= SKIPLIST_MAX_LEVEL)%nat ->
  exists s0 s, tbx_sl_new_full maxlevels dups = Ok s0 /\
    let '(os, f, a) := al_run dups ops [] in
    sl_run ops s0 = Ok (os, s) /\ freed s = f /\ n_keys s = Z.of_nat (length a) /\ n_ele s = al_count a.
Proof.
  intros Hm. destruct (tbx_sl_new_full (K := K) (D := D) maxlevels dups) as [s0|] eqn:E; [|destruct maxlevels; [lia|done]].
  destruct (sl_new_holds maxlevels dups s0 Hm E) as (Hh & Hc & Hf & Hd).
  destruct (sl_run_ok ops s0 [] [] Hh Hc) as (s & Hrun). rewrite Hd in Hrun. exists s0, s. split; [done|].
  destruct (al_run dups ops []) as [[os f] a]. destruct Hrun as [Er [_ Hc' Hf' _]]. rewrite Hf in Hf'.
  destruct (Hc' Hc) as [C1 C2]. done.
Qed.

End sequences.

Definition sl_example_ops : list (sl_op (K := Z) (D := Z)) :=
  [SlInsert 5 (Some 50); SlInsert 3 (Some 30); SlInsert 5 (Some 51); SlSearch 3; SlRemove 5 (Some 50); SlScan (Some 4); SlRemove 3 None; SlLast].

Lemma sl_refines_witness :
  (0 < 4 <= SKIPLIST_MAX_LEVEL)%nat /\
  exists s0 s, tbx_sl_new_full 4 true = Ok s0 /\
    let '(os, f, a) := al_run skiplist_compare_fn_ex_off true sl_example_ops [] in
    sl_run skiplist_compare_fn_ex_off (fun n => (n mod 3 =? 0)%nat) sl_example_ops s0 = Ok (os, s) /\
    freed s = f /\ n_keys s = Z.of_nat (length a) /\ n_ele s = al_count a.
Proof.
  assert (H : (0 < 4 <= SKIPLIST_MAX_LEVEL)%nat) by (unfold SKIPLIST_MAX_LEVEL; lia).
  split; [exact H|]. exact (sl_refines skiplist_compare_fn_ex_off (fun n => (n mod 3 =? 0)%nat) 4 true sl_example_ops H).
Defined.

(** What the example returns. *)
Lemma sl_example :
  al_run skiplist_compare_fn_ex_off true sl_example_ops [] =
    ([OutCode 0; OutCode 0; OutCode 0; OutData (Some 30); OutCode 0; OutPairs [(Some 5, Some 51)]; OutCode 0; OutKey (Some 5)],
     [Some 50; Some 30], [(5, [Some 51])]).
Proof. vm_compute. reflexivity. Qed.

(** [tbx_sl_new] takes the success of the initialisation for a failure. *)
Lemma sl_new_null : @tbx_sl_new Z Z = Ok None.
Proof. vm_compute. reflexivity. Qed.
