(* ===== verification/IntervalSkipList.v ===== *)
(** * Interval skip lists ([toolbox/interval_skiplist.c])

    A skip list whose keys are the ends of intervals.  The node of a key holds
    the intervals that start there, the points, and for every level the
    intervals that cover the edge to the next node of that level.  The file
    shows that, for intervals that do not meet, the structure implements the
    [IntervalIndex] the segment drivers are proved against.

    A node's [ele.data] is the only pointer to its interval data, so the data
    is kept in the node; the chains of [tbx_isl_data_t] are lists, and a
    pointer into a chain is the rest of the list. *)
From S2P Require Import Prelude IntervalIndex SkipList.
Local Open Scope Z_scope.

Section code.
Context {K R : Type} `{EqDecision R}.

(** ** Data *)

(** [tbx_isl_node_t]; [edge] is empty until the node's level is known. *)
Record isl_node := IslNode {
  in_edge : list (list R);
  in_point : list R;
  in_start : list R;
  in_n_end : Z }.

#[export] Instance isl_node_eq_dec : EqDecision isl_node.
Proof. solve_decision. Defined.

(** [tbx_isl_t], with the arguments of the calls of [data_free]. *)
Record isl := Isl {
  isl_sl : sl K isl_node;
  n_intervals : Z;
  isl_freed : list R }.

Abbreviation islM := (ST isl).

Definition on_sl {A} (m : ST (sl K isl_node) A) : islM A := fun s =>
  '(a, t) ← m (isl_sl s); Ok (a, Isl t (n_intervals s) (isl_freed s)).

Definition add_intervals (n : Z) : islM unit := fun s => Ok (tt, Isl (isl_sl s) (n_intervals s + n) (isl_freed s)).
Definition isl_data_free (v : R) : islM unit := fun s => Ok (tt, Isl (isl_sl s) (n_intervals s) (isl_freed s ++ [v])).

(** ** The lists of a node *)

Definition append_isl_data (l : list R) (v : R) : list R := v :: l.

Definition copy_isl_data (src dest : list R) : list R := foldl append_isl_data dest src.

(** The code, and the list without the first occurrence. *)
Fixpoint remove_isl_data (l : list R) (v : R) : Z * list R :=
  match l with
  | [] => (1, [])
  | w :: l => if decide (w = v) then (0, l) else let '(c, l) := remove_isl_data l v in (c, w :: l)
  end.

Definition isl_node_is_empty (n : isl_node) : bool :=
  match in_point n, in_start n with [], [] => negb (in_n_end n >? 0) | _, _ => false end.

Definition create_isl_node : isl_node := IslNode [] [] [] 0.

Definition add_isl_node_level (n : isl_node) (level : nat) : isl_node :=
  IslNode (replicate (S level) []) (in_point n) (in_start n) (in_n_end n).

Definition set_edge (i : nat) (l : list R) (n : isl_node) : isl_node :=
  IslNode (<[i := l]> (in_edge n)) (in_point n) (in_start n) (in_n_end n).
Definition set_point (l : list R) (n : isl_node) : isl_node := IslNode (in_edge n) l (in_start n) (in_n_end n).
Definition set_start (l : list R) (n : isl_node) : isl_node := IslNode (in_edge n) (in_point n) l (in_n_end n).
Definition add_end (k : Z) (n : isl_node) : isl_node := IslNode (in_edge n) (in_point n) (in_start n) (in_n_end n + k).

(** ** Access to the nodes *)

(** The interval data of a node. *)
Definition isln_at (p : option loc) : islM isl_node :=
  n ← on_sl (load p);
  match sn_data n with Some d => mret d | None => st_fail NullDeref end.

Definition isln_update (p : option loc) (f : isl_node -> isl_node) : islM unit :=
  n ← on_sl (load p);
  match sn_data n with
  | Some d => on_sl (update p (with_ele (Some (f d)) (sn_more n)))
  | None => st_fail NullDeref
  end.

(** [isln->edge[i]]. *)
Definition edge_at (n : isl_node) (i : nat) : islM (list R) :=
  match in_edge n !! i with Some l => mret l | None => st_fail OutOfBounds end.

Context (compare : K -> K -> Z) (below_p : nat -> bool).

(** [compare->fn(compare->arg, p->key, k)]. *)
Definition node_compare (n : sl_node K isl_node) (k : K) : islM Z :=
  match sn_key n with Some k' => mret (compare k' k) | None => st_fail NullDeref end.

(** ** Insertion *)

(** [for (i = from; n steps; i++)]: the edges the new node cuts. *)
Fixpoint copy_edges (n from : nat) (sn : option loc) (ptr : list (option loc)) : islM unit :=
  match n with
  | O => mret tt
  | S n =>
    p ← on_sl (lift (ptr_get ptr from));
    s ← st_get;
    _ ← (match p with
         | None => mret tt
         | Some l =>
           if decide (l = sl_head (isl_sl s)) then mret tt else
           src ← isln_at p;
           d ← isln_at sn;
           es ← edge_at src from;
           ed ← edge_at d from;
           isln_update sn (set_edge from (copy_isl_data es ed))
         end);
    copy_edges n (S from) sn ptr
  end.

(** The node of an end that is not in the list yet. *)
Definition new_end (ptr : list (option loc)) (k : K) : islM (option loc) :=
  '(sn, ptr) ← on_sl (pos_tbx_sl_insert below_p ptr k (Some create_isl_node));
  n ← on_sl (load sn);
  _ ← isln_update sn (fun d => add_isl_node_level d (sn_level n));
  _ ← copy_edges (S (sn_level n)) 0 sn ptr;
  mret sn.

(** The highest edge from level [i] down that does not pass [hi] is tagged;
    returns where it leads. *)
Fixpoint tag_edge (i : nat) (sn : option loc) (hi : K) (data : R) : islM (option loc) :=
  sn2 ← on_sl (get_next sn i);
  let lower := match i with O => mret sn2 | S i' => tag_edge i' sn hi data end in
  match sn2 with
  | None => lower
  | Some _ =>
    n2 ← on_sl (load sn2);
    cmp ← node_compare n2 hi;
    if cmp <? 1 then
      d ← isln_at sn;
      e ← edge_at d i;
      _ ← isln_update sn (set_edge i (append_isl_data e data));
      mret sn2
    else lower
  end.

Fixpoint tag_walk (fuel : nat) (sn sn_hi : option loc) (hi : K) (data : R) : islM unit :=
  match sn with
  | None => mret tt
  | Some _ =>
    if decide (sn = sn_hi) then mret tt else
    match fuel with
    | O => st_fail OutOfFuel
    | S fuel =>
      n ← on_sl (load sn);
      sn ← tag_edge (sn_level n) sn hi data;
      tag_walk fuel sn sn_hi hi data
    end
  end.

Definition tbx_isl_insert (lo hi : K) (data : R) : islM Z :=
  _ ← add_intervals 1;
  '(cmp, ptr) ← on_sl (find_key compare ptr_zero (Some hi) 0);
  sn_hi ← (if negb (cmp =? 0) then new_end ptr hi
           else p ← on_sl (lift (ptr_get ptr 0)); on_sl (get_next p 0));
  '(cmp, ptr) ← on_sl (find_key compare ptr_zero (Some lo) 0);
  p ← on_sl (lift (ptr_get ptr 0));
  sn ← on_sl (get_next p 0);
  sn ← (if negb (cmp =? 0) then new_end ptr lo else mret sn);
  d ← isln_at sn;
  if compare lo hi =? 0 then
    _ ← isln_update sn (set_point (append_isl_data (in_point d) data));
    mret 0
  else
    _ ← isln_update sn (set_start (append_isl_data (in_start d) data));
    _ ← isln_update sn_hi (add_end 1);
    s ← st_get;
    _ ← tag_walk (size (sl_nodes (isl_sl s))) sn sn_hi hi data;
    mret 0.

(** ** Removal *)

(** The edge of level [i] loses the interval if it does not pass [hi]. *)
Definition untag_edge (i : nat) (sn : option loc) (hi : K) (data : R) : islM unit :=
  sn2 ← on_sl (get_next sn i);
  match sn2 with
  | None => mret tt
  | Some _ =>
    n2 ← on_sl (load sn2);
    cmp ← node_compare n2 hi;
    if cmp <? 1 then
      d ← isln_at sn;
      e ← edge_at d i;
      isln_update sn (set_edge i (snd (remove_isl_data e data)))
    else mret tt
  end.

(** The levels from [i] down; the code never sets [found], so it visits all
    of them. *)
Fixpoint untag_edges (i : nat) (sn : option loc) (hi : K) (data : R) : islM unit :=
  _ ← untag_edge i sn hi data;
  match i with O => mret tt | S i' => untag_edges i' sn hi data end.

(** The walk ends with [i] at 0; returns the node it stops at. *)
Fixpoint untag_walk (fuel : nat) (sn : option loc) (hi : K) (data : R) : islM (option loc) :=
  n ← on_sl (load sn);
  cmp ← node_compare n hi;
  if negb (cmp <? 0) then mret sn else
  match fuel with
  | O => st_fail OutOfFuel
  | S fuel =>
    _ ← untag_edges (sn_level n) sn hi data;
    q ← on_sl (get_next sn 0);
    match q with
    | None => mret sn
    | Some _ => untag_walk fuel q hi data
    end
  end.

(** A node without data leaves the list. *)
Definition drop_if_empty (sn : option loc) (k : K) : islM unit :=
  d ← isln_at sn;
  if isl_node_is_empty d then _ ← on_sl (tbx_sl_remove compare k None); mret tt else mret tt.

Definition tbx_isl_remove (lo hi : K) (data : R) : islM Z :=
  '(cmp, ptr) ← on_sl (find_key compare ptr_zero (Some lo) 0);
  p ← on_sl (lift (ptr_get ptr 0));
  sn_lo ← on_sl (get_next p 0);
  if negb (cmp =? 0) then mret 1 else
  _ ← add_intervals (-1);
  d ← isln_at sn_lo;
  if compare lo hi =? 0 then
    let '(err, l) := remove_isl_data (in_point d) data in
    _ ← isln_update sn_lo (set_point l);
    _ ← drop_if_empty sn_lo lo;
    _ ← isl_data_free data;
    mret err
  else
    let '(err, l) := remove_isl_data (in_start d) data in
    _ ← isln_update sn_lo (set_start l);
    s ← st_get;
    sn ← untag_walk (size (sl_nodes (isl_sl s))) sn_lo hi data;
    _ ← isln_update sn (add_end (-1));
    _ ← drop_if_empty sn hi;
    _ ← (if decide (sn = sn_lo) then mret tt else drop_if_empty sn_lo lo);
    _ ← isl_data_free data;
    mret err.

(** ** Search *)

(** [tbx_isl_iter_t]; [ii_ele] is the rest of the chain being returned. *)
Record isl_iter := IslIter {
  ii_hi : option K;
  ii_sn : option loc;
  ii_ele : list R;
  ii_ptr : list (option loc);
  ii_mode : Z;
  ii_ptr_level : Z;
  ii_finished : Z }.

(** [find_key] always fills [ptr[0]], so the search starts behind it. *)
Definition tbx_isl_iter_search (lo hi : option K) : islM isl_iter :=
  s ← st_get;
  '(_, ptr) ← on_sl (find_key compare ptr_zero lo 1);
  p ← on_sl (lift (ptr_get ptr 0));
  let level := Z.of_nat (current_max (isl_sl s)) in
  match p with
  | None => mret (IslIter hi None [] ptr 0 level 1)
  | Some _ => q ← on_sl (get_next p 0); mret (IslIter hi q [] ptr 0 level (-1))
  end.

(** [for (i = ptr_level; i > -1; i--)]: the first non-empty edge list and
    the level below it. *)
Fixpoint scan_ptr (n : nat) (ptr : list (option loc)) : islM (option (list R * Z)) :=
  match n with
  | O => mret None
  | S i =>
    p ← on_sl (lift (ptr_get ptr i));
    match p with
    | None => scan_ptr i ptr
    | Some _ =>
      n ← on_sl (load p);
      match sn_data n with
      | None => scan_ptr i ptr
      | Some d =>
        e ← edge_at d i;
        match e with [] => scan_ptr i ptr | _ => mret (Some (e, Z.of_nat i - 1)) end
      end
    end
  end.

(** The lists of a node from [mode] on: [point] for 0, [start] for 1. *)
Definition scan_lists (d : isl_node) (mode : Z) : option (list R * Z) :=
  match (if mode <=? 0 then in_point d else []) with
  | (_ :: _) as l => Some (l, 1)
  | [] => match (if mode <=? 1 then in_start d else []) with (_ :: _) as l => Some (l, 2) | [] => None end
  end.

(** The nodes before [hi]: either a list, the mode to go on with and its
    node, or the comparison and the node the loop ended with. *)
Fixpoint scan_nodes (fuel : nat) (hi : option K) (sn : option loc) (mode cmp : Z)
  : islM ((list R * Z * option loc) + (Z * option loc * Z)) :=
  match sn with
  | None => mret (inr (cmp, None, mode))
  | Some _ =>
    match fuel with
    | O => st_fail OutOfFuel
    | S fuel =>
      n ← on_sl (load sn);
      cmp ← (match hi with None => mret (-1) | Some hi => node_compare n hi end);
      if cmp >? -1 then mret (inr (cmp, sn, -2)) else
      d ← isln_at sn;
      match scan_lists d mode with
      | Some (l, m) => mret (inl (l, m, sn))
      | None => q ← on_sl (get_next sn 0); scan_nodes fuel hi q 0 cmp
      end
    end
  end.

(** At the node of [hi]: points in mode -2, then starts in mode -3. *)
Definition scan_end (d : isl_node) (mode : Z) : list R * Z :=
  let '(l, mode) := if mode =? -2 then (in_point d, -3) else ([], mode) in
  match l with
  | _ :: _ => (l, mode)
  | [] => if mode =? -3 then (in_start d, -4) else ([], mode)
  end.

(** The first element of a list is returned and the rest remembered. *)
Definition first_of (l : list R) : option R * list R :=
  match l with [] => (None, []) | v :: l => (Some v, l) end.

Definition tbx_isl_next (it : isl_iter) : islM (option R * isl_iter) :=
  if ii_finished it =? 1 then mret (None, it) else
  match ii_ele it with
  | v :: l => mret (Some v, IslIter (ii_hi it) (ii_sn it) l (ii_ptr it) (ii_mode it) (ii_ptr_level it) (ii_finished it))
  | [] =>
    r ← (if ii_ptr_level it >? -1 then scan_ptr (Z.to_nat (ii_ptr_level it + 1)) (ii_ptr it) else mret None);
    match r with
    | Some (l, level) =>
      let '(v, l) := first_of l in
      mret (v, IslIter (ii_hi it) (ii_sn it) l (ii_ptr it) (ii_mode it) level (ii_finished it))
    | None =>
      let mode := if ii_ptr_level it >? -1 then 0 else ii_mode it in
      s ← st_get;
      r ← (if mode >=? 0 then scan_nodes (size (sl_nodes (isl_sl s))) (ii_hi it) (ii_sn it) mode (-100)
           else mret (inr (-100, None, mode)));
      match r with
      | inl (l, mode, sn) =>
        let '(v, l) := first_of l in
        mret (v, IslIter (ii_hi it) sn l (ii_ptr it) mode (-1) (ii_finished it))
      | inr (cmp, sn, mode) =>
        '(l, mode) ← (if cmp =? 0 then d ← isln_at sn; mret (scan_end d mode) else mret ([], mode));
        match l with
        | v :: l => mret (Some v, IslIter (ii_hi it) (ii_sn it) l (ii_ptr it) mode (-1) (ii_finished it))
        | [] => mret (None, IslIter (ii_hi it) (ii_sn it) [] (ii_ptr it) mode (-1) 1)
        end
      end
    end
  end.

(** All intervals an iterator returns. *)
Fixpoint isl_collect (fuel : nat) (it : isl_iter) : islM (list R) :=
  match fuel with
  | O => st_fail OutOfFuel
  | S fuel =>
    '(v, it) ← tbx_isl_next it;
    match v with None => mret [] | Some v => l ← isl_collect fuel it; mret (v :: l) end
  end.

Definition tbx_isl_range_count (fuel : nat) (lo hi : option K) : islM Z :=
  it ← tbx_isl_iter_search lo hi;
  l ← isl_collect fuel it;
  mret (Z.of_nat (length l)).

Definition tbx_isl_new_full (maxlevels : nat) : res isl :=
  s ← tbx_sl_new_full maxlevels true; Ok (Isl s 0 []).

Definition tbx_isl_new : res isl := tbx_isl_new_full 16.

(** [remove_isl_node] follows the node and gives its lists back. *)
Fixpoint del_walk (fuel : nat) (sn : option loc) : islM unit :=
  match sn with
  | None => mret tt
  | Some _ =>
    match fuel with
    | O => st_fail OutOfFuel
    | S fuel => _ ← isln_at sn; q ← on_sl (get_next sn 0); del_walk fuel q
    end
  end.

Definition tbx_isl_del : islM unit :=
  s ← st_get;
  sn ← on_sl (get_next (Some (sl_head (isl_sl s))) 0);
  _ ← del_walk (size (sl_nodes (isl_sl s))) sn;
  on_sl tbx_sl_del.

Definition tbx_isl_key_first : islM (option K) := on_sl (tbx_sl_first_key compare).
Definition tbx_isl_key_last : islM (option K) := on_sl (tbx_sl_key_last compare).

End code.

Arguments isl_node : clear implicits.
Arguments isl : clear implicits.

(** ** The nodes of a table

    Only tables whose intervals do not meet are considered, as the drivers
    keep them.  Then no node lies inside an interval, and an interval is
    tagged on one edge, at the lower of the levels of its ends. *)
Section nodes.
Context {R : Type} `{HasRange R} `{EqDecision R}.
Abbreviation node := (ent Z (isl_node R)).
Implicit Types (s : isl Z R) (e p : node) (l A B : list node) (v w : R) (t : list R).

Abbreviation cmpZ := skiplist_compare_fn_ex_off.

Definition blank (level : nat) : list (list R) := replicate (S level) [].

Definition has_data (k : Z) (d : isl_node R) e : Prop := e_key e = Some k /\ e_data e = Some d /\ e_more e = [].

Definition tag_level e e' : nat := Nat.min (e_level e) (e_level e').

Definition point_node v e : Prop := has_data (iv_lo v) (IslNode (blank (e_level e)) [v] [] 0) e.
Definition lo_node v e e' : Prop := has_data (iv_lo v) (IslNode (<[tag_level e e' := [v]]> (blank (e_level e))) [] [v] 0) e.
Definition hi_node v e : Prop := has_data (iv_hi v) (IslNode (blank (e_level e)) [] [] 1) e.

Inductive isl_rep : list R -> list node -> Prop :=
| rep_nil : isl_rep [] []
| rep_point v e t l : iv_lo v = iv_hi v -> point_node v e -> isl_rep t l -> isl_rep (v :: t) (e :: l)
| rep_range v e e' t l : iv_lo v < iv_hi v -> lo_node v e e' -> hi_node v e' -> isl_rep t l -> isl_rep (v :: t) (e :: e' :: l).

(** The structure holds the table [t]. *)
Record isl_holds s l t : Prop := IslHolds {
  ih_shape : sl_shape (isl_sl s) l;
  ih_rep : isl_rep t l;
  ih_ivs : ivs_ok t;
  ih_count : n_intervals s = Z.of_nat (length t) }.

Lemma rep_app t1 l1 t2 l2 : isl_rep t1 l1 -> isl_rep t2 l2 -> isl_rep (t1 ++ t2) (l1 ++ l2).
Proof. induction 1; intros; simpl; [done|apply rep_point; auto|apply rep_range; auto]. Qed.

Lemma rep_app_inv t1 t2 l : isl_rep (t1 ++ t2) l -> exists l1 l2, l = l1 ++ l2 /\ isl_rep t1 l1 /\ isl_rep t2 l2.
Proof.
  revert l. induction t1 as [|v t1 IH]; intros l Hr; simpl in Hr; [exists [], l; by repeat constructor|].
  inversion Hr as [|v' e t l' ? ? Hl|v' e e' t l' ? ? ? Hl]; subst; destruct (IH _ Hl) as (l1 & l2 & -> & Hl1 & Hl2).
  - exists (e :: l1), l2. split; [done|]. by split; [constructor|].
  - exists (e :: e' :: l1), l2. split; [done|]. by split; [apply rep_range|].
Qed.

(** The keys of the nodes are the ends of the intervals. *)
Lemma rep_key t l e : isl_rep t l -> e ∈ l -> exists v k, v ∈ t /\ e_key e = Some k /\ (k = iv_lo v \/ k = iv_hi v).
Proof.
  induction 1 as [|v e0 t l Hp [Hk _] _ IH|v e0 e1 t l Hlt [Hk _] [Hk' _] _ IH]; intros Hin; [by apply not_elem_of_nil in Hin|..].
  - apply elem_of_cons in Hin as [->|Hin]; [exists v, (iv_lo v); set_solver|]. destruct (IH Hin) as (w & k & ? & ?). exists w, k. set_solver.
  - apply elem_of_cons in Hin as [->|[->|Hin]%elem_of_cons]; [exists v, (iv_lo v); set_solver|exists v, (iv_hi v); set_solver|].
    destruct (IH Hin) as (w & k & ? & ?). exists w, k. set_solver.
Qed.

Definition keys_below l (k : Z) : Prop := forall e, e ∈ l -> exists k', e_key e = Some k' /\ k' < k.
Definition keys_from l (k : Z) : Prop := forall e, e ∈ l -> exists k', e_key e = Some k' /\ k <= k'.

Lemma rep_below t l k : isl_rep t l -> (forall v, v ∈ t -> iv_lo v <= iv_hi v < k) -> keys_below l k.
Proof. intros Hr Hv e He. destruct (rep_key t l e Hr He) as (v & k' & Hin & Hk & Hc). exists k'. split; [done|]. specialize (Hv v Hin). lia. Qed.

Lemma rep_from t l k : isl_rep t l -> (forall v, v ∈ t -> k <= iv_lo v <= iv_hi v) -> keys_from l k.
Proof. intros Hr Hv e He. destruct (rep_key t l e Hr He) as (v & k' & Hin & Hk & Hc). exists k'. split; [done|]. specialize (Hv v Hin). lia. Qed.

Lemma keys_from_weaken l k k' : keys_from l k -> k' <= k -> keys_from l k'.
Proof. intros Hl Hk e He. destruct (Hl e He) as (k0 & ? & ?). exists k0. split; [done|]. lia. Qed.
Lemma keys_below_weaken l k k' : keys_below l k -> k <= k' -> keys_below l k'.
Proof. intros Hl Hk e He. destruct (Hl e He) as (k0 & ? & ?). exists k0. split; [done|]. lia. Qed.

Lemma blank_lookup level i : (i <= level)%nat -> blank level !! i = Some [].
Proof. intros Hi. apply lookup_replicate_2. lia. Qed.

Lemma blank_insert level i : <[i := []]> (blank level) = blank level.
Proof.
  destruct (decide (i <= level)%nat); [by apply list_insert_id, blank_lookup|].
  apply list_insert_ge. unfold blank. rewrite length_replicate. lia.
Qed.

(** The last node of a level before a gap between intervals has nothing on
    its edge of that level. *)
Lemma rep_pred_edge t l i e :
  isl_rep t l -> is_pred i l e -> exists d, e_data e = Some d /\ in_edge d !! i = Some [].
Proof.
  induction 1 as [|v e0 t l Hp He _ IH|v e0 e1 t l Hlt He He1 _ IH]; intros (l1 & l2 & E & Hi & Hl2).
  - by destruct l1.
  - destruct l1 as [|x l1]; injection E as -> ->.
    + destruct He as (_ & Hd & _). eexists. split; [exact Hd|]. by apply blank_lookup.
    + apply IH. by exists l1, l2.
  - destruct l1 as [|x l1]; injection E as -> E.
    + destruct He as (_ & Hd & _). eexists. split; [exact Hd|]. subst l2. specialize (Hl2 e1 ltac:(by left)).
      cbn [in_edge]. rewrite list_lookup_insert_ne; [by apply blank_lookup|]. unfold tag_level. lia.
    + destruct l1 as [|x1 l1]; injection E as -> ->.
      * destruct He1 as (_ & Hd & _). eexists. split; [exact Hd|]. by apply blank_lookup.
      * apply IH. by exists l1, l2.
Qed.

(** ** Steps *)

Definition isl_rest s : Z * list R := (n_intervals s, isl_freed s).

(** What changing the data of a node leaves alone. *)
Definition same_list s s' : Prop :=
  isl_rest s' = isl_rest s /\ current_max (isl_sl s') = current_max (isl_sl s) /\ head_ent (isl_sl s') = head_ent (isl_sl s).

Lemma same_list_trans s1 s2 s3 : same_list s1 s2 -> same_list s2 s3 -> same_list s1 s3.
Proof. intros (? & ? & ?) (? & ? & ?). by repeat split; etransitivity. Qed.

Lemma on_sl_ok {C} (m : ST (sl Z (isl_node R)) C) s a u :
  m (isl_sl s) = Ok (a, u) -> on_sl m s = Ok (a, Isl u (n_intervals s) (isl_freed s)).
Proof. intros E. unfold on_sl. by rewrite E. Qed.

Lemma on_sl_read {C} (m : ST (sl Z (isl_node R)) C) s a : m (isl_sl s) = Ok (a, isl_sl s) -> on_sl m s = Ok (a, s).
Proof. intros E. rewrite (on_sl_ok _ _ _ _ E). by destruct s. Qed.

Lemma load_ok s A e B :
  sl_shape (isl_sl s) (A ++ e :: B) -> on_sl (load (Some (e_loc e))) s = Ok (cell full e B, s).
Proof.
  intros Hs. apply on_sl_read. unfold load, node_at. by rewrite (shape_lookup _ _ (head_ent (isl_sl s) :: A) e B Hs).
Qed.

Lemma next_ok s A e B i :
  sl_shape (isl_sl s) (A ++ e :: B) -> (i <= e_level e)%nat ->
  on_sl (get_next (Some (e_loc e)) i) s = Ok (nxt full i B, s).
Proof.
  intros Hs Hi. apply on_sl_read. unfold get_next.
  by rewrite (next_at_cell _ _ _ _ _ _ (shape_lookup _ _ (head_ent (isl_sl s) :: A) e B Hs eq_refl) Hi).
Qed.

Lemma isln_at_ok s A e B d :
  sl_shape (isl_sl s) (A ++ e :: B) -> e_data e = Some d -> isln_at (Some (e_loc e)) s = Ok (d, s).
Proof. intros Hs Hd. unfold isln_at. rewrite (st_bind_ok _ _ _ _ _ (load_ok s A e B Hs)). cbn [sn_data cell]. by rewrite Hd. Qed.

Lemma isln_update_ok s A e B d f :
  sl_shape (isl_sl s) (A ++ e :: B) -> e_data e = Some d ->
  exists s', isln_update (Some (e_loc e)) f s = Ok (tt, s') /\
    sl_shape (isl_sl s') (A ++ with_data (Some (f d)) (e_more e) e :: B) /\ same_list s s'.
Proof.
  intros Hs Hd. pose proof (shape_lookup _ _ (head_ent (isl_sl s) :: A) e B Hs eq_refl) as Hl.
  unfold isln_update. rewrite (st_bind_ok _ _ _ _ _ (load_ok s A e B Hs)). cbn [sn_data sn_more cell]. rewrite Hd.
  eexists. split; [apply on_sl_ok; by apply update_ok|]. split; [|done]. by apply (shape_set (isl_sl s)).
Qed.

(** The search for a key between [A] and [B]. *)
Lemma isl_find_ok s A B k :
  sl_shape (isl_sl s) (A ++ B) -> keys_below A k -> keys_from B k ->
  exists cmp ptr, on_sl (find_key cmpZ ptr_zero (Some k) 0) s = Ok ((cmp, ptr), s) /\
    preds (current_max (isl_sl s)) (head_ent (isl_sl s) :: A) ptr /\ length ptr = SKIPLIST_MAX_LEVEL /\
    (cmp = 0 <-> exists e B', B = e :: B' /\ e_key e = Some k).
Proof.
  intros Hs HA HB.
  destruct (find_levels_shape (isl_sl s) A B (key_compare cmpZ (Some k) 0) Hs) as (cmp & ptr & E & Hl & Hp & Hc).
  - intros e (k' & Hk & Hlt)%HA. exists (cmpZ k' k). rewrite Hk. split; [done|]. unfold cmpZ. by rewrite (proj2 (Z.ltb_lt _ _)).
  - intros e (k' & Hk & Hge)%HB. exists (cmpZ k' k). rewrite Hk. split; [done|]. unfold cmpZ. rewrite (proj2 (Z.ltb_ge _ _)) by lia. by case_match.
  - exists cmp, ptr. split; [apply on_sl_read; unfold find_key, find_key_compare; by rewrite E|]. split; [done|]. split; [done|].
    destruct B as [|e B]; [split; [lia|by intros (e & B' & ? & _)]|]. destruct Hc as [Hc Hc0].
    destruct (HB e ltac:(by left)) as (k' & Hk & Hge). rewrite Hk in Hc. injection Hc as Hc. split.
    + intros ->. exists e, B. split; [done|]. rewrite Hk. f_equal. by apply (cmp_eq cmpZ).
    + intros (e' & B' & [= <- <-] & Hk'). rewrite Hk in Hk'. injection Hk' as ->. rewrite <- Hc. apply (cmp_refl cmpZ).
Qed.

(** Where the array leads at level 0. *)
Lemma isl_first_ok s A B ptr n :
  sl_shape (isl_sl s) (A ++ B) -> preds n (head_ent (isl_sl s) :: A) ptr ->
  exists p : loc, on_sl (lift (ptr_get ptr 0)) s = Ok (Some p, s) /\ on_sl (get_next (Some p) 0) s = Ok (e_loc <$> head B, s).
Proof.
  intros Hs Hp. destruct (preds_next (isl_sl s) A B ptr n Hs Hp) as (p & Ep & En & _). exists p. split.
  - apply on_sl_read. unfold lift. by rewrite Ep.
  - apply on_sl_read. unfold get_next. by rewrite En.
Qed.

(** No edge is cut when a node is put between two intervals. *)
Lemma copy_edges_ok n from s A e B ptr t :
  sl_shape (isl_sl s) (A ++ e :: B) -> isl_rep t A -> e_more e = [] ->
  (exists d, e_data e = Some d /\ in_edge d = blank (e_level e)) ->
  preds (current_max (isl_sl s)) (head_ent (isl_sl s) :: A) ptr -> (from + n = S (e_level e))%nat ->
  copy_edges n from (Some (e_loc e)) ptr s = Ok (tt, s).
Proof.
  intros Hs Hr Hm (d & Hd & Hedge) Hp. revert from. induction n as [|n IH]; intros from Hn; [done|].
  pose proof (shape_lookup _ _ (head_ent (isl_sl s) :: A) e B Hs eq_refl) as Hl.
  assert (Hlev : (e_level e <= current_max (isl_sl s))%nat) by (apply (sh_levels _ _ Hs); set_solver).
  destruct (Hp from ltac:(lia)) as (p & Hpred & Eptr). cbn [copy_edges].
  erewrite st_bind_ok; [|apply on_sl_read; unfold lift, ptr_get; by rewrite Eptr]. erewrite st_bind_ok; [|done].
  case_decide as Eh; [erewrite st_bind_ok; [|done]; apply IH; lia|].
  destruct Hpred as ([|x l1] & l2 & EA & Hlp & Hl2); [injection EA as <- _; done|]. injection EA as _ EA.
  destruct (rep_pred_edge t A from p Hr) as (dp & Hdp & Hep); [by exists l1, l2|].
  erewrite st_bind_ok; [apply IH; lia|]. subst A. rewrite <- (assoc_L (++)) in Hs.
  rewrite (st_bind_ok _ _ _ _ _ (isln_at_ok s l1 p (l2 ++ e :: B) dp Hs Hdp)).
  rewrite <- app_comm_cons in Hs. 
  assert (Hs2 : sl_shape (isl_sl s) ((l1 ++ p :: l2) ++ e :: B)) by (by rewrite <- (assoc_L (++))).
  rewrite (st_bind_ok _ _ _ _ _ (isln_at_ok s (l1 ++ p :: l2) e B d Hs2 Hd)).
  erewrite st_bind_ok; [|unfold edge_at; by rewrite Hep]. erewrite st_bind_ok; [|unfold edge_at; by rewrite Hedge, blank_lookup by lia].
  unfold isln_update. rewrite (st_bind_ok _ _ _ _ _ (load_ok s (l1 ++ p :: l2) e B Hs2)). cbn [sn_data sn_more cell]. rewrite Hd.
  apply on_sl_read. unfold update. rewrite Hl. f_equal. f_equal.
  assert (Eset : set_edge from (copy_isl_data [] []) d = d).
  { unfold set_edge. change (copy_isl_data [] []) with (@nil R). rewrite Hedge, blank_insert, <- Hedge. by destruct d. }
  rewrite Eset. unfold set_nodes. rewrite insert_id; [by destruct (isl_sl s)|].
  rewrite Hl. f_equal. unfold with_ele, cell. simpl. by rewrite Hd.
Qed.

Definition fresh_data (level : nat) : isl_node R := IslNode (blank level) [] [] 0.

Lemma new_end_ok below_p s A B k ptr t :
  sl_shape (isl_sl s) (A ++ B) -> isl_rep t A -> preds (current_max (isl_sl s)) (head_ent (isl_sl s) :: A) ptr ->
  length ptr = SKIPLIST_MAX_LEVEL ->
  exists e s', new_end below_p ptr k s = Ok (Some (e_loc e), s') /\ sl_shape (isl_sl s') (A ++ e :: B) /\
    has_data k (fresh_data (e_level e)) e /\ isl_rest s' = isl_rest s.
Proof.
  intros Hs Hr Hp Hlen.
  destruct (pos_insert_ok below_p (isl_sl s) A B ptr k (Some create_isl_node) Hs Hp Hlen) as (e & ptr' & u & E & Hk & Hd & Hm & Hsu & Hru & Hpu & _).
  unfold new_end. rewrite (st_bind_ok _ _ _ _ _ (on_sl_ok _ _ _ _ E)). cbn beta iota.
  set (s1 := Isl u (n_intervals s) (isl_freed s)). assert (Hs1 : sl_shape (isl_sl s1) (A ++ e :: B)) by done.
  rewrite (st_bind_ok _ _ _ _ _ (load_ok s1 A e B Hs1)). cbn [sn_level cell].
  destruct (isln_update_ok s1 A e B create_isl_node (fun d => add_isl_node_level d (e_level e)) Hs1 Hd) as (s2 & E2 & Hs2 & Hr2).
  rewrite (st_bind_ok _ _ _ _ _ E2).
  set (e2 := with_data _ _ e) in Hs2. change (e_loc e) with (e_loc e2). 
  destruct Hr2 as (Hr2 & Hcm & Hhe).
  rewrite (st_bind_ok _ _ _ _ _ (copy_edges_ok (S (e_level e)) 0 s2 A e2 B ptr' t Hs2 Hr Hm ltac:(by eexists) ltac:(by rewrite Hcm, Hhe) eq_refl)).
  exists e2, s2. split; [done|]. split; [done|]. split; [|by rewrite Hr2]. split; [done|]. split; [done|]. exact Hm.
Qed.

(** The node a level leads to is the next one or lies behind it. *)
Lemma next_cases s A e e' B i :
  sl_shape (isl_sl s) (A ++ e :: e' :: B) -> (i <= e_level e)%nat ->
  ((i <= e_level e')%nat /\ on_sl (get_next (Some (e_loc e)) i) s = Ok (Some (e_loc e'), s)) \/
  ((e_level e' < i)%nat /\ (on_sl (get_next (Some (e_loc e)) i) s = Ok (None, s) \/
    exists q B2, q ∈ B /\ on_sl (get_next (Some (e_loc e)) i) s = Ok (Some (e_loc q), s) /\
      on_sl (load (Some (e_loc q))) s = Ok (cell full q B2, s))).
Proof.
  intros Hs Hi. rewrite (next_ok s A e (e' :: B) i Hs Hi), nxt_cons. destruct (full e' i) eqn:F; [left; by apply full_true in F|right].
  apply full_false in F. split; [done|]. destruct (first_visible full i B) as [Hn|(B1 & q & B2 & -> & Hq & Hn)].
  - left. by rewrite (proj2 (nxt_none full i B)).
  - right. exists q, B2. split; [set_solver|]. split.
    + by rewrite nxt_app_skip, nxt_cons, Hq.
    + apply (load_ok s (A ++ e :: e' :: B1) q B2). by rewrite <- (assoc_L (++)).
Qed.

Lemma compare_behind s q B2 B hi :
  q ∈ B -> keys_from B (hi + 1) -> node_compare cmpZ (cell full q B2) hi s = Ok (1, s).
Proof.
  intros Hq HB. destruct (HB q Hq) as (k & Hk & Hlt). unfold node_compare. cbn [sn_key cell]. rewrite Hk.
  unfold cmpZ. rewrite (proj2 (Z.ltb_ge _ _)), (proj2 (Z.eqb_neq _ _)) by lia. done.
Qed.

Lemma compare_at s e B hi : e_key e = Some hi -> node_compare cmpZ (cell full e B) hi s = Ok (0, s).
Proof. intros Hk. unfold node_compare. cbn [sn_key cell]. rewrite Hk. by rewrite (cmp_refl cmpZ). Qed.

Lemma tag_edge_ok i s A e e' B d hi v :
  sl_shape (isl_sl s) (A ++ e :: e' :: B) -> e_data e = Some d -> in_edge d = blank (e_level e) ->
  e_key e' = Some hi -> keys_from B (hi + 1) -> (tag_level e e' <= i <= e_level e)%nat ->
  exists s', tag_edge cmpZ i (Some (e_loc e)) hi v s = Ok (Some (e_loc e'), s') /\
    sl_shape (isl_sl s') (A ++ with_data (Some (set_edge (tag_level e e') [v] d)) (e_more e) e :: e' :: B) /\ same_list s s'.
Proof.
  intros Hs Hd Hedge Hk HB. induction i as [i IH] using (well_founded_induction lt_wf). intros Hi.
  assert (Hhit : (i <= e_level e')%nat -> on_sl (get_next (Some (e_loc e)) i) s = Ok (Some (e_loc e'), s) ->
    exists s', tag_edge cmpZ i (Some (e_loc e)) hi v s = Ok (Some (e_loc e'), s') /\
      sl_shape (isl_sl s') (A ++ with_data (Some (set_edge (tag_level e e') [v] d)) (e_more e) e :: e' :: B) /\ same_list s s').
  { intros Hle En. assert (Ei : i = tag_level e e') by (unfold tag_level in *; lia).
    destruct (isln_update_ok s A e (e' :: B) d (set_edge i [v]) Hs Hd) as (s' & E & Hs' & Hsame). exists s'. rewrite <- Ei. split; [|done].
    assert (Hs2 : sl_shape (isl_sl s) ((A ++ [e]) ++ e' :: B)) by (by rewrite <- (assoc_L (++))).
    destruct i; cbn [tag_edge]; rewrite (st_bind_ok _ _ _ _ _ En), (st_bind_ok _ _ _ _ _ (load_ok s _ e' B Hs2)),
      (st_bind_ok _ _ _ _ _ (compare_at s e' B hi Hk)); cbn [Z.ltb Z.compare];
      rewrite (st_bind_ok _ _ _ _ _ (isln_at_ok s A e (e' :: B) d Hs Hd));
      (erewrite st_bind_ok; [|unfold edge_at; by rewrite Hedge, blank_lookup by lia]); by rewrite (st_bind_ok _ _ _ _ _ E). }
  destruct (next_cases s A e e' B i Hs ltac:(lia)) as [[Hle En]|[Hgt Hcase]]; [by apply Hhit|].
  destruct i as [|i]; [lia|]. destruct (IH i ltac:(lia) ltac:(unfold tag_level in *; lia)) as (s' & E & Hs'). exists s'. split; [|done].
  cbn [tag_edge]. destruct Hcase as [En|(q & B2 & Hq & En & El)]; rewrite (st_bind_ok _ _ _ _ _ En); [done|].
  rewrite (st_bind_ok _ _ _ _ _ El), (st_bind_ok _ _ _ _ _ (compare_behind s q B2 B hi Hq HB)). done.
Qed.

(** The two ends of an interval are linked by a tag. *)
Lemma tag_walk_ok s A e e' B d hi v :
  sl_shape (isl_sl s) (A ++ e :: e' :: B) -> e_data e = Some d -> in_edge d = blank (e_level e) ->
  e_key e' = Some hi -> keys_from B (hi + 1) ->
  exists s', tag_walk cmpZ (size (sl_nodes (isl_sl s))) (Some (e_loc e)) (Some (e_loc e')) hi v s = Ok (tt, s') /\
    sl_shape (isl_sl s') (A ++ with_data (Some (set_edge (tag_level e e') [v] d)) (e_more e) e :: e' :: B) /\ same_list s s'.
Proof.
  intros Hs Hd Hedge Hk HB. destruct (tag_edge_ok (e_level e) s A e e' B d hi v Hs Hd Hedge Hk HB) as (s' & E & Hs' & Hsame); [unfold tag_level; lia|].
  exists s'. split; [|done]. destruct (sh_nodes _ _ Hs). pose proof (sh_nodup _ _ Hs) as Hnd.
  assert (Hsz : exists n, size (sl_nodes (isl_sl s)) = S n).
  { rewrite (sh_nodes _ _ Hs), layout_size by done. simpl. by eexists. }
  destruct Hsz as [n ->]. cbn [tag_walk]. rewrite decide_False.
  - rewrite (st_bind_ok _ _ _ _ _ (load_ok s A e (e' :: B) Hs)). cbn [sn_level cell]. rewrite (st_bind_ok _ _ _ _ _ E).
    destruct n; cbn [tag_walk]; by rewrite decide_True.
  - intros [= Ee]. pose proof (locs_others (head_ent (isl_sl s) :: A) e (e' :: B) Hnd e') as Ho. apply Ho; [set_solver|done].
Qed.

(** The part of the insertion after the two ends have been found or made. *)
Lemma insert_tail s A e e' B v :
  sl_shape (isl_sl s) (A ++ e :: e' :: B) -> has_data (iv_lo v) (fresh_data (e_level e)) e ->
  has_data (iv_hi v) (fresh_data (e_level e')) e' -> keys_from B (iv_hi v + 1) ->
  exists s' e1 e2, (_ ← isln_update (Some (e_loc e)) (set_start [v]);
      _ ← isln_update (Some (e_loc e')) (add_end 1);
      s ← st_get;
      _ ← tag_walk cmpZ (size (sl_nodes (isl_sl s))) (Some (e_loc e)) (Some (e_loc e')) (iv_hi v) v;
      mret 0) s = Ok (0, s') /\
    sl_shape (isl_sl s') (A ++ e1 :: e2 :: B) /\ lo_node v e1 e2 /\ hi_node v e2 /\ isl_rest s' = isl_rest s.
Proof.
  intros Hs (Hk & Hd & Hm) (Hk' & Hd' & Hm') HB.
  destruct (isln_update_ok s A e (e' :: B) _ (set_start [v]) Hs Hd) as (s1 & E1 & Hs1 & Hr1 & _). rewrite (st_bind_ok _ _ _ _ _ E1).
  set (e1 := with_data _ _ e) in Hs1. rewrite (cons_middle e1), (assoc_L (++)) in Hs1.
  destruct (isln_update_ok s1 (A ++ [e1]) e' B _ (add_end 1) Hs1 Hd') as (s2 & E2 & Hs2 & Hr2 & _). rewrite (st_bind_ok _ _ _ _ _ E2).
  set (e2 := with_data _ _ e') in Hs2. rewrite <- (assoc_L (++)) in Hs2. simpl in Hs2. erewrite st_bind_ok; [|done].
  destruct (tag_walk_ok s2 A e1 e2 B _ (iv_hi v) v Hs2 eq_refl) as (s3 & E3 & Hs3 & Hr3 & _); [done|done|done|].
  change (e_loc e) with (e_loc e1). change (e_loc e') with (e_loc e2). rewrite (st_bind_ok _ _ _ _ _ E3).
  eexists s3, _, e2. split; [done|]. split; [exact Hs3|]. split; [|split; [by repeat split|by rewrite Hr3, Hr2, Hr1]].
  by repeat split.
Qed.

(** The keys around an interval. *)
Lemma rep_bounds t1 l1 t2 l2 v :
  isl_rep t1 l1 -> isl_rep t2 l2 -> ivs_ok (t1 ++ t2) -> (forall w, w ∈ t1 -> before w v) -> (forall w, w ∈ t2 -> before v w) ->
  keys_below l1 (iv_lo v) /\ keys_from l2 (iv_hi v + 1).
Proof.
  intros Hr1 Hr2 Hi H1 H2.
  assert (Hprop : forall w, w ∈ t1 ++ t2 -> iv_lo w <= iv_hi w) by (intros w Hw; by apply (ivs_proper_elem (t1 ++ t2))).
  split; [apply (rep_below t1)|apply (rep_from t2)]; try done; intros w Hw; specialize (Hprop w ltac:(set_solver)).
  - specialize (H1 w Hw). unfold before in H1. lia.
  - specialize (H2 w Hw). unfold before in H2. lia.
Qed.

(** The node of the upper end. *)
Lemma insert_hi below_p s A B t lo hi :
  sl_shape (isl_sl s) (A ++ B) -> isl_rep t A -> lo <= hi -> keys_below A lo -> keys_from B (hi + 1) ->
  exists cmp ptr e' s', on_sl (find_key cmpZ ptr_zero (Some hi) 0) s = Ok ((cmp, ptr), s) /\ cmp <> 0 /\
    new_end below_p ptr hi s = Ok (Some (e_loc e'), s') /\ sl_shape (isl_sl s') (A ++ e' :: B) /\
    has_data hi (fresh_data (e_level e')) e' /\ isl_rest s' = isl_rest s.
Proof.
  intros Hs Hr Hle HA HB. destruct (isl_find_ok s A B hi Hs) as (cmp & ptr & E & Hp & Hlen & Hc);
    [by apply (keys_below_weaken _ lo)|apply (keys_from_weaken _ (hi + 1)); [done|lia]|].
  destruct (new_end_ok below_p s A B hi ptr t Hs Hr Hp Hlen) as (e' & s' & E' & Hs' & He' & Hrest).
  exists cmp, ptr, e', s'. split; [done|]. split; [|done].
  intros (e & B' & -> & Hk)%Hc. destruct (HB e ltac:(by left)) as (k & Hk2 & Hlt). rewrite Hk in Hk2. injection Hk2 as <-. lia.
Qed.

(** The rest of the insertion, once the upper end is there. *)
Lemma insert_lo below_p s A e' B t v :
  sl_shape (isl_sl s) (A ++ e' :: B) -> isl_rep t A -> iv_lo v <= iv_hi v -> keys_below A (iv_lo v) ->
  keys_from B (iv_hi v + 1) -> has_data (iv_hi v) (fresh_data (e_level e')) e' ->
  exists s' m, ('(cmp, ptr) ← on_sl (find_key cmpZ ptr_zero (Some (iv_lo v)) 0);
      p ← on_sl (lift (ptr_get ptr 0));
      sn ← on_sl (get_next p 0);
      sn ← (if negb (cmp =? 0) then new_end below_p ptr (iv_lo v) else mret sn);
      d ← isln_at sn;
      if cmpZ (iv_lo v) (iv_hi v) =? 0 then
        _ ← isln_update sn (set_point (append_isl_data (in_point d) v)); mret 0
      else
        _ ← isln_update sn (set_start (append_isl_data (in_start d) v));
        _ ← isln_update (Some (e_loc e')) (add_end 1);
        s ← st_get;
        _ ← tag_walk cmpZ (size (sl_nodes (isl_sl s))) sn (Some (e_loc e')) (iv_hi v) v; mret 0) s = Ok (0, s') /\
    sl_shape (isl_sl s') (A ++ m ++ B) /\ isl_rep [v] m /\ isl_rest s' = isl_rest s.
Proof.
  intros Hs Hr Hv HA HB He'. destruct (isl_find_ok s A (e' :: B) (iv_lo v) Hs HA) as (cmp & ptr & E & Hp & Hlen & Hc).
  { intros e [->|He]%elem_of_cons; [exists (iv_hi v); split; [apply He'|done]|]. apply (keys_from_weaken _ _ (iv_lo v) HB); [lia|done]. }
  rewrite (st_bind_ok _ _ _ _ _ E). cbn beta iota. destruct (isl_first_ok s A (e' :: B) ptr _ Hs Hp) as (p & Ep & En).
  rewrite (st_bind_ok _ _ _ _ _ Ep), (st_bind_ok _ _ _ _ _ En). cbn [head fmap option_fmap option_map].
  destruct (decide (iv_lo v = iv_hi v)) as [Heq|Hne].
  - rewrite (proj2 Hc) by (exists e', B; split; [done|]; rewrite Heq; apply He'). cbn [Z.eqb negb]. erewrite st_bind_ok; [|done].
    destruct He' as (Hk' & Hd' & Hm'). rewrite (st_bind_ok _ _ _ _ _ (isln_at_ok s A e' B _ Hs Hd')).
    rewrite (proj2 (Z.eqb_eq (cmpZ (iv_lo v) (iv_hi v)) 0)) by (rewrite Heq; apply (cmp_refl cmpZ)).
    destruct (isln_update_ok s A e' B _ (set_point (append_isl_data [] v)) Hs Hd') as (s' & E' & Hs' & Hr' & _).
    cbn [in_point fresh_data]. rewrite (st_bind_ok _ _ _ _ _ E'). eexists s', [_]. split; [done|]. split; [exact Hs'|]. split; [|done].
    apply rep_point; [done| |constructor]. split; [by rewrite Heq|]. split; [done|]. exact Hm'.
  - rewrite (proj2 (Z.eqb_neq cmp 0)).
    2:{ intros (e & B' & [= <- <-] & Hk)%Hc. destruct He' as (Hk' & _). rewrite Hk in Hk'. congruence. }
    cbn [negb]. destruct (new_end_ok below_p s A (e' :: B) (iv_lo v) ptr t Hs Hr Hp Hlen) as (e & s2 & E2 & Hs2 & He & Hrest2).
    rewrite (st_bind_ok _ _ _ _ _ E2). pose proof He as (_ & Hde & _). rewrite (st_bind_ok _ _ _ _ _ (isln_at_ok s2 A e (e' :: B) _ Hs2 Hde)).
    rewrite (proj2 (Z.eqb_neq (cmpZ _ _) 0)) by (intros Hz%(cmp_eq cmpZ); done). cbn [in_start fresh_data].
    destruct (insert_tail s2 A e e' B v Hs2 He He' HB) as (s3 & e1 & e2 & E3 & Hs3 & Hlo & Hhi & Hrest3).
    unfold append_isl_data. rewrite E3. exists s3, [e1; e2]. split; [done|]. split; [done|]. split; [|by rewrite Hrest3].
    apply rep_range; [lia|done|done|constructor].
Qed.

Lemma isl_insert_ok below_p s l t v :
  isl_holds s l t -> iv_lo v <= iv_hi v -> (forall w, w ∈ t -> ~ overlaps (iv_lo v) (iv_hi v) w) ->
  exists s' l', tbx_isl_insert cmpZ below_p (iv_lo v) (iv_hi v) v s = Ok (0, s') /\
    isl_holds s' l' (ivs_insert v t) /\ isl_freed s' = isl_freed s.
Proof.
  intros [Hs Hr Hi Hc] Hv Hd. pose proof (ivs_insert_ok v t Hi Hv Hd) as Hok.
  destruct (ivs_insert_split v t Hi Hv Hd) as (t1 & t2 & -> & Ei & H1 & H2). rewrite Ei in *.
  destruct (rep_app_inv t1 t2 l Hr) as (l1 & l2 & -> & Hr1 & Hr2). destruct (rep_bounds t1 l1 t2 l2 v Hr1 Hr2 Hi H1 H2) as [HA HB].
  unfold tbx_isl_insert. erewrite st_bind_ok; [|done]. set (s1 := Isl _ _ _). assert (Hs1 : sl_shape (isl_sl s1) (l1 ++ l2)) by done.
  destruct (insert_hi below_p s1 l1 l2 t1 (iv_lo v) (iv_hi v) Hs1 Hr1 Hv HA HB) as (cmp & ptr & e' & s2 & E1 & Hne & E2 & Hs2 & He' & Hrest2).
  rewrite (st_bind_ok _ _ _ _ _ E1). cbn beta iota. rewrite (proj2 (Z.eqb_neq cmp 0)) by done. cbn [negb]. rewrite (st_bind_ok _ _ _ _ _ E2).
  destruct (insert_lo below_p s2 l1 e' l2 t1 v Hs2 Hr1 Hv HA HB He') as (s3 & m & E3 & Hs3 & Hm & Hrest3). rewrite E3.
  rewrite Hrest2 in Hrest3. injection Hrest3 as Hn Hf. exists s3, (l1 ++ m ++ l2). split; [done|]. split; [|done]. split; [done| |done|].
  - apply rep_app; [done|]. by apply (rep_app [v] m).
  - rewrite Hn, Hc, !length_app. simpl. lia.
Qed.

(** ** Removal *)

Lemma drop_if_empty_ok s A e B k d :
  sl_shape (isl_sl s) (A ++ e :: B) -> e_data e = Some d -> isl_node_is_empty d = true ->
  keys_below A k -> keys_from B k -> e_key e = Some k ->
  exists s', drop_if_empty cmpZ (Some (e_loc e)) k s = Ok (tt, s') /\ sl_shape (isl_sl s') (A ++ B) /\ isl_rest s' = isl_rest s.
Proof.
  intros Hs Hd Hemp HA HB Hk. unfold drop_if_empty. rewrite (st_bind_ok _ _ _ _ _ (isln_at_ok s A e B d Hs Hd)), Hemp.
  destruct (isl_find_ok s A (e :: B) k Hs HA) as (cmp & ptr & E & Hp & Hlen & Hc).
  { intros x [->|Hx]%elem_of_cons; [by exists k|by apply HB]. }
  assert (cmp = 0) as -> by (apply Hc; by exists e, B). unfold on_sl in E.
  destruct (find_key cmpZ ptr_zero (Some k) 0 (isl_sl s)) as [[[c2 ptr2] u]|] eqn:Ef; [|done]. injection E as -> -> Eu.
  assert (u = isl_sl s) as -> by (by rewrite <- Eu).
  destruct (remove_all_ok cmpZ (isl_sl s) A e B k ptr Hs Ef Hp) as (u & Er & Hsu & _).
  rewrite (st_bind_ok _ _ _ _ _ (on_sl_ok _ _ _ _ Er)). eexists. split; [done|]. by split.
Qed.

(** What is on the edges before level [i] is visited. *)
Definition tagged (level m i : nat) v : list (list R) := <[m := if decide (m <= i)%nat then [v] else []]> (blank level).

Lemma tagged_lookup level m i j v :
  (j <= level)%nat -> (m <= level)%nat -> tagged level m i v !! j = Some (if decide (j = m /\ (m <= i)%nat) then [v] else []).
Proof.
  intros Hj Hm. unfold tagged. destruct (decide (j = m)) as [->|Hne].
  - rewrite list_lookup_insert_eq by (unfold blank; rewrite length_replicate; lia). repeat case_decide; tauto || done.
  - rewrite list_lookup_insert_ne, blank_lookup by done. by rewrite decide_False by tauto.
Qed.

(** A visit takes the tag of its level away. *)
Lemma tagged_visit level m i v :
  (i <= level)%nat -> (m <= level)%nat ->
  <[i := snd (remove_isl_data (if decide (i = m /\ (m <= i)%nat) then [v] else []) v)]> (tagged level m i v) =
  match i with O => blank level | S i' => tagged level m i' v end.
Proof.
  intros Hi Hm. assert (Hsame : forall i', (m <> S i')%nat -> tagged level m (S i') v = tagged level m i' v).
  { intros i' Hne. unfold tagged. f_equal. repeat case_decide; done || lia. }
  destruct (decide (i = m)) as [->|Hne].
  - rewrite decide_True by lia. simpl. rewrite decide_True by done. simpl. unfold tagged at 1. rewrite list_insert_insert_eq, blank_insert.
    destruct m as [|m']; [done|]. unfold tagged. by rewrite decide_False, blank_insert by lia.
  - rewrite decide_False by tauto. simpl. rewrite list_insert_id by (rewrite tagged_lookup by done; by rewrite decide_False by tauto).
    destruct i as [|i']; [|by apply Hsame]. unfold tagged. rewrite decide_False by lia. apply blank_insert.
Qed.

Definition with_edges (es : list (list R)) (d : isl_node R) e : node :=
  with_data (Some (IslNode es (in_point d) (in_start d) (in_n_end d))) (e_more e) e.

Lemma with_edges_same d e : e_data e = Some d -> with_edges (in_edge d) d e = e.
Proof. intros Hd. unfold with_edges, with_data. destruct d, e. simpl in *. by subst. Qed.

(** The tags left when level [i] has been visited. *)
Definition tagged_below (level m i : nat) v : list (list R) :=
  match i with O => blank level | S i' => tagged level m i' v end.

Lemma untag_edge_ok i s A e e' B d hi v :
  sl_shape (isl_sl s) (A ++ e :: e' :: B) -> e_data e = Some d -> in_edge d = tagged (e_level e) (tag_level e e') i v ->
  e_key e' = Some hi -> keys_from B (hi + 1) -> (i <= e_level e)%nat ->
  exists s', untag_edge cmpZ i (Some (e_loc e)) hi v s = Ok (tt, s') /\
    sl_shape (isl_sl s') (A ++ with_edges (tagged_below (e_level e) (tag_level e e') i v) d e :: e' :: B) /\ same_list s s'.
Proof.
  intros Hs Hd Hedge Hk HB Hi. set (m := tag_level e e') in *. assert (Hm : (m <= e_level e)%nat) by (unfold m, tag_level; lia).
  pose proof (tagged_visit (e_level e) m i v Hi Hm) as Hvis. unfold untag_edge.
  destruct (next_cases s A e e' B i Hs Hi) as [[Hle En]|[Hgt Hcase]].
  - rewrite (st_bind_ok _ _ _ _ _ En). assert (Hs2 : sl_shape (isl_sl s) ((A ++ [e]) ++ e' :: B)) by (by rewrite <- (assoc_L (++))).
    rewrite (st_bind_ok _ _ _ _ _ (load_ok s _ e' B Hs2)), (st_bind_ok _ _ _ _ _ (compare_at s e' B hi Hk)). cbn [Z.ltb Z.compare].
    rewrite (st_bind_ok _ _ _ _ _ (isln_at_ok s A e (e' :: B) d Hs Hd)).
    erewrite st_bind_ok; [|unfold edge_at; by rewrite Hedge, tagged_lookup by done].
    edestruct (isln_update_ok s A e (e' :: B) d) as (s' & E & Hs' & Hsame); [done|done|]. exists s'. split; [exact E|]. split; [|done].
    unfold set_edge in Hs'. rewrite Hedge, Hvis in Hs'. exact Hs'.
  - exists s. assert (Esame : tagged_below (e_level e) m i v = in_edge d).
    { rewrite Hedge. destruct i as [|i]; [lia|]. unfold tagged_below, tagged. f_equal. unfold m, tag_level in *. repeat case_decide; done || lia. }
    rewrite Esame, with_edges_same by done. split; [|done].
    destruct Hcase as [En|(q & B2 & Hq & En & El)]; rewrite (st_bind_ok _ _ _ _ _ En); [done|].
    by rewrite (st_bind_ok _ _ _ _ _ El), (st_bind_ok _ _ _ _ _ (compare_behind s q B2 B hi Hq HB)).
Qed.

Lemma untag_edges_ok i s A e e' B d hi v :
  sl_shape (isl_sl s) (A ++ e :: e' :: B) -> e_data e = Some d -> in_edge d = tagged (e_level e) (tag_level e e') i v ->
  e_key e' = Some hi -> keys_from B (hi + 1) -> (i <= e_level e)%nat ->
  exists s', untag_edges cmpZ i (Some (e_loc e)) hi v s = Ok (tt, s') /\
    sl_shape (isl_sl s') (A ++ with_edges (blank (e_level e)) d e :: e' :: B) /\ same_list s s'.
Proof.
  intros Hs Hd Hedge Hk HB Hi. revert s e d Hs Hd Hedge Hi. induction i as [|i IH]; intros s e d Hs Hd Hedge Hi; cbn [untag_edges];
    destruct (untag_edge_ok _ s A e e' B d hi v Hs Hd Hedge Hk HB Hi) as (s1 & E1 & Hs1 & Hsame1); rewrite (st_bind_ok _ _ _ _ _ E1).
  - by exists s1.
  - destruct (IH s1 _ _ Hs1 eq_refl) as (s2 & E2 & Hs2 & Hsame2); [done|cbn; lia|]. exists s2. split; [exact E2|]. split; [exact Hs2|].
    by eapply same_list_trans.
Qed.

Lemma untag_walk_ok s A e e' B d lo hi v :
  sl_shape (isl_sl s) (A ++ e :: e' :: B) -> e_data e = Some d ->
  in_edge d = <[tag_level e e' := [v]]> (blank (e_level e)) -> e_key e = Some lo -> lo < hi ->
  e_key e' = Some hi -> keys_from B (hi + 1) ->
  exists s', untag_walk cmpZ (size (sl_nodes (isl_sl s))) (Some (e_loc e)) hi v s = Ok (Some (e_loc e'), s') /\
    sl_shape (isl_sl s') (A ++ with_edges (blank (e_level e)) d e :: e' :: B) /\ same_list s s'.
Proof.
  intros Hs Hd Hedge Hke Hlt Hk HB.
  destruct (untag_edges_ok (e_level e) s A e e' B d hi v Hs Hd) as (s' & E & Hs' & Hsame); [|done|done|done|].
  { rewrite Hedge. unfold tagged. rewrite decide_True; [done|]. unfold tag_level. lia. }
  assert (Hsz : exists n, size (sl_nodes (isl_sl s)) = S n).
  { rewrite (sh_nodes _ _ Hs), layout_size by apply (sh_nodup _ _ Hs). simpl. by eexists. }
  destruct Hsz as [n ->]. exists s'. split; [|done]. cbn [untag_walk].
  rewrite (st_bind_ok _ _ _ _ _ (load_ok s A e (e' :: B) Hs)). erewrite st_bind_ok; [|unfold node_compare; cbn [sn_key cell]; by rewrite Hke].
  unfold cmpZ at 1. rewrite (proj2 (Z.ltb_lt lo hi)) by done. cbn [Z.ltb Z.compare negb sn_level cell]. rewrite (st_bind_ok _ _ _ _ _ E).
  assert (En : on_sl (get_next (Some (e_loc e)) 0) s' = Ok (Some (e_loc e'), s')).
  { change (e_loc e) with (e_loc (with_edges (blank (e_level e)) d e)). rewrite (next_ok s' A _ (e' :: B) 0 Hs') by lia. by rewrite nxt_cons. }
  rewrite (st_bind_ok _ _ _ _ _ En). set (e1 := with_edges _ _ _) in Hs'. rewrite (cons_middle e1), (assoc_L (++)) in Hs'.
  destruct n; cbn [untag_walk]; by rewrite (st_bind_ok _ _ _ _ _ (load_ok s' _ e' B Hs')), (st_bind_ok _ _ _ _ _ (compare_at s' e' B hi Hk)).
Qed.

(** The two ends of an interval go away. *)
Lemma remove_range s A e e' B v :
  sl_shape (isl_sl s) (A ++ e :: e' :: B) -> iv_lo v < iv_hi v -> lo_node v e e' -> hi_node v e' ->
  keys_below A (iv_lo v) -> keys_from B (iv_hi v + 1) ->
  exists s', (_ ← isln_update (Some (e_loc e)) (set_start []);
      s ← st_get;
      sn ← untag_walk cmpZ (size (sl_nodes (isl_sl s))) (Some (e_loc e)) (iv_hi v) v;
      _ ← isln_update sn (add_end (-1));
      _ ← drop_if_empty cmpZ sn (iv_hi v);
      _ ← (if decide (sn = Some (e_loc e)) then mret tt else drop_if_empty cmpZ (Some (e_loc e)) (iv_lo v));
      _ ← isl_data_free v; mret 0) s = Ok (0, s') /\
    sl_shape (isl_sl s') (A ++ B) /\ isl_rest s' = (n_intervals s, isl_freed s ++ [v]).
Proof.
  intros Hs Hlt (Hk & Hd & Hm) (Hk' & Hd' & Hm') HA HB.
  destruct (isln_update_ok s A e (e' :: B) _ (set_start []) Hs Hd) as (s1 & E1 & Hs1 & Hr1 & _). rewrite (st_bind_ok _ _ _ _ _ E1).
  set (e1 := with_data _ _ e) in Hs1. erewrite st_bind_ok; [|done].
  destruct (untag_walk_ok s1 A e1 e' B _ (iv_lo v) (iv_hi v) v Hs1 eq_refl) as (s2 & E2 & Hs2 & Hr2 & _); [done..|].
  change (e_loc e) with (e_loc e1). rewrite (st_bind_ok _ _ _ _ _ E2). set (e2 := with_edges _ _ e1) in Hs2. change (e_loc e1) with (e_loc e2).
  rewrite (cons_middle e2), (assoc_L (++)) in Hs2.
  destruct (isln_update_ok s2 (A ++ [e2]) e' B _ (add_end (-1)) Hs2 Hd') as (s3 & E3 & Hs3 & Hr3 & _). rewrite (st_bind_ok _ _ _ _ _ E3).
  set (e3 := with_data _ _ e') in Hs3. change (e_loc e') with (e_loc e3).
  assert (Hne : e_loc e3 <> e_loc e2).
  { pose proof (sh_nodup _ _ Hs3) as Hnd. intros E. apply (locs_others (head_ent (isl_sl s3) :: A ++ [e2]) e3 B Hnd e2); [set_solver|done]. }
  destruct (drop_if_empty_ok s3 (A ++ [e2]) e3 B (iv_hi v) _ Hs3 eq_refl) as (s4 & E4 & Hs4 & Hr4); [done| | |done|].
  { intros x [Hx| ->%list_elem_of_singleton]%elem_of_app; [|by exists (iv_lo v)].
    apply (keys_below_weaken A (iv_lo v)); [done|lia|done]. }
  { apply (keys_from_weaken B (iv_hi v + 1)); [done|lia]. }
  rewrite (st_bind_ok _ _ _ _ _ E4). rewrite decide_False by congruence. rewrite <- (assoc_L (++)) in Hs4. simpl in Hs4.
  destruct (drop_if_empty_ok s4 A e2 B (iv_lo v) _ Hs4 eq_refl) as (s5 & E5 & Hs5 & Hr5); [done|done| |done|].
  { apply (keys_from_weaken B (iv_hi v + 1)); [done|lia]. }
  rewrite (st_bind_ok _ _ _ _ _ E5). erewrite st_bind_ok; [|done]. eexists. split; [done|]. split; [done|].
  assert (Hrest : isl_rest s5 = isl_rest s) by (by rewrite Hr5, Hr4, Hr3, Hr2, Hr1). injection Hrest as Hn Hf.
  unfold isl_rest. cbn. by rewrite Hn, Hf.
Qed.

(** The removal once the node of the lower end is found. *)
Lemma remove_start s A e B d lo hi v :
  sl_shape (isl_sl s) (A ++ e :: B) -> e_data e = Some d -> e_key e = Some lo -> keys_below A lo -> keys_from B lo ->
  tbx_isl_remove cmpZ lo hi v s =
    (if cmpZ lo hi =? 0 then
       let '(err, l) := remove_isl_data (in_point d) v in
       _ ← isln_update (Some (e_loc e)) (set_point l);
       _ ← drop_if_empty cmpZ (Some (e_loc e)) lo;
       _ ← isl_data_free v;
       mret err
     else
       let '(err, l) := remove_isl_data (in_start d) v in
       _ ← isln_update (Some (e_loc e)) (set_start l);
       s ← st_get;
       sn ← untag_walk cmpZ (size (sl_nodes (isl_sl s))) (Some (e_loc e)) hi v;
       _ ← isln_update sn (add_end (-1));
       _ ← drop_if_empty cmpZ sn hi;
       _ ← (if decide (sn = Some (e_loc e)) then mret tt else drop_if_empty cmpZ (Some (e_loc e)) lo);
       _ ← isl_data_free v;
       mret err) (Isl (isl_sl s) (n_intervals s + -1) (isl_freed s)).
Proof.
  intros Hs Hd Hk HA HB. destruct (isl_find_ok s A (e :: B) lo Hs HA) as (cmp & ptr & E & Hp & _ & Hcmp).
  { intros x [->|Hx]%elem_of_cons; [by exists lo|by apply HB]. }
  unfold tbx_isl_remove. rewrite (st_bind_ok _ _ _ _ _ E). cbn beta iota. destruct (isl_first_ok s A (e :: B) ptr _ Hs Hp) as (p & Ep & En).
  rewrite (st_bind_ok _ _ _ _ _ Ep), (st_bind_ok _ _ _ _ _ En), (proj2 Hcmp) by (by exists e, B).
  cbn [Z.eqb negb head fmap option_fmap option_map]. erewrite st_bind_ok; [|done].
  by rewrite (st_bind_ok _ _ _ _ _ (isln_at_ok (Isl (isl_sl s) _ _) A e B d Hs Hd)).
Qed.

Lemma isl_remove_ok s l t v :
  isl_holds s l t -> v ∈ t ->
  exists s' l', tbx_isl_remove cmpZ (iv_lo v) (iv_hi v) v s = Ok (0, s') /\
    isl_holds s' l' (filter (fun w => w <> v) t) /\ isl_freed s' = isl_freed s ++ [v].
Proof.
  intros [Hs Hr Hi Hc] Hv. apply list_elem_of_split in Hv as (t1 & t2 & ->). rewrite (ivs_filter_middle t1 v t2 Hi).
  destruct (ivs_middle t1 v t2 Hi) as (H1 & H2 & Hi').
  destruct (rep_app_inv t1 (v :: t2) l Hr) as (l1 & lr & -> & Hr1 & Hr').
  destruct (rep_app_inv [v] t2 lr Hr') as (m & l2 & -> & Hm & Hr2).
  destruct (rep_bounds t1 l1 t2 l2 v Hr1 Hr2 Hi' H1 H2) as [HA HB]. rewrite length_app in Hc. simpl in Hc.
  assert (Hfin : forall s', sl_shape (isl_sl s') (l1 ++ l2) -> isl_rest s' = (n_intervals s + -1, isl_freed s ++ [v]) ->
    isl_holds s' (l1 ++ l2) (t1 ++ t2) /\ isl_freed s' = isl_freed s ++ [v]).
  { intros s' Hs' [= Hn Hf]. split; [|done]. split; [done|by apply rep_app|done|]. rewrite Hn, length_app. lia. }
  inversion Hm as [|v' e t0 l0 Heq He Hnil|v' e e' t0 l0 Hlt He He' Hnil]; subst; inversion Hnil; subst; simpl in Hs.
  - destruct He as (Hk & Hd & Hmore). assert (HB2 : keys_from l2 (iv_lo v)) by (apply (keys_from_weaken l2 (iv_hi v + 1)); [done|lia]).
    rewrite (remove_start s l1 e l2 _ (iv_lo v) (iv_hi v) v Hs Hd Hk HA HB2), (proj2 (Z.eqb_eq _ 0)) by (rewrite Heq; apply (cmp_refl cmpZ)).
    cbn [in_point remove_isl_data]. rewrite decide_True by done. set (s1 := Isl _ _ _).
    destruct (isln_update_ok s1 l1 e l2 _ (set_point []) Hs Hd) as (s2 & E2 & Hs2 & [= Hn2 Hf2] & _). rewrite (st_bind_ok _ _ _ _ _ E2).
    set (e2 := with_data _ _ e) in Hs2. change (e_loc e) with (e_loc e2).
    destruct (drop_if_empty_ok s2 l1 e2 l2 (iv_lo v) _ Hs2 eq_refl) as (s3 & E3 & Hs3 & [= Hn3 Hf3]); [done..|].
    rewrite (st_bind_ok _ _ _ _ _ E3). erewrite st_bind_ok; [|done]. eexists _, _. split; [done|]. apply Hfin; [exact Hs3|].
    unfold isl_rest. cbn. by rewrite Hn3, Hf3, Hn2, Hf2.
  - pose proof He as (Hk & Hd & _). rewrite (remove_start s l1 e (e' :: l2) _ (iv_lo v) (iv_hi v) v Hs Hd Hk HA).
    2:{ intros x [->|Hx]%elem_of_cons; [exists (iv_hi v); split; [apply He'|lia]|]. apply (keys_from_weaken l2 (iv_hi v + 1)); [done|lia|done]. }
    rewrite (proj2 (Z.eqb_neq (cmpZ _ _) 0)) by (intros Hz%(cmp_eq cmpZ); lia). cbn [in_start remove_isl_data]. rewrite decide_True by done.
    destruct (remove_range (Isl (isl_sl s) (n_intervals s + -1) (isl_freed s)) l1 e e' l2 v Hs Hlt He He' HA HB) as (s2 & E2 & Hs2 & Hr2').
    rewrite E2. eexists _, _. split; [done|]. by apply Hfin.
Qed.

(** ** Search *)

Section search.
Context (s : isl Z R) (hi : Z).

Abbreviation scan := (scan_nodes cmpZ).

Lemma scan_step A e B d k fuel mode cmp :
  sl_shape (isl_sl s) (A ++ e :: B) -> has_data k d e ->
  scan (S fuel) (Some hi) (Some (e_loc e)) mode cmp s =
    if cmpZ k hi >? -1 then Ok (inr (cmpZ k hi, Some (e_loc e), -2), s)
    else match scan_lists d mode with
         | Some (l, m) => Ok (inl (l, m, Some (e_loc e)), s)
         | None => scan fuel (Some hi) (e_loc <$> head B) 0 (cmpZ k hi) s
         end.
Proof.
  intros Hs (Hk & Hd & _). cbn [scan_nodes]. rewrite (st_bind_ok _ _ _ _ _ (load_ok s A e B Hs)).
  erewrite st_bind_ok; [|unfold node_compare; cbn [sn_key cell]; by rewrite Hk]. destruct (cmpZ k hi >? -1); [done|].
  rewrite (st_bind_ok _ _ _ _ _ (isln_at_ok s A e B d Hs Hd)). destruct (scan_lists d mode) as [[l m]|]; [done|].
  rewrite (st_bind_ok _ _ _ _ _ (next_ok s A e B 0 Hs ltac:(lia))). f_equal. unfold nxt. by destruct B; [|rewrite filter_cons_True].
Qed.

(** The iterator has nothing left of the current list and goes on with the
    nodes [B]. *)
Definition ready (it : isl_iter (K := Z) (R := R)) B : Prop :=
  ii_finished it = -1 /\ ii_ele it = [] /\ ii_ptr_level it = -1 /\ ii_hi it = Some hi /\ 0 <= ii_mode it /\
  exists fuel cmp, (length B <= fuel)%nat /\ cmp < 0 /\
    scan (size (sl_nodes (isl_sl s))) (Some hi) (ii_sn it) (ii_mode it) (-100) s = scan fuel (Some hi) (e_loc <$> head B) 0 cmp s.

(** The iterator returns nothing more. *)
Lemma collect_end fuel it cmp sn mode :
  ii_finished it = -1 -> ii_ele it = [] -> ii_ptr_level it = -1 -> ii_hi it = Some hi -> 0 <= ii_mode it ->
  scan (size (sl_nodes (isl_sl s))) (Some hi) (ii_sn it) (ii_mode it) (-100) s = Ok (inr (cmp, sn, mode), s) ->
  (cmp = 0 -> exists d, isln_at sn s = Ok (d, s) /\ fst (scan_end d mode) = []) ->
  isl_collect cmpZ (S fuel) it s = Ok ([], s).
Proof.
  intros Hf He Hp Hh Hm Hscan Hend.
  assert (En : exists it', tbx_isl_next cmpZ it s = Ok ((None, it'), s)); [|destruct En as [it' En]; cbn [isl_collect]; by rewrite (st_bind_ok _ _ _ _ _ En)].
  unfold tbx_isl_next. rewrite Hf, He, Hp. cbn [Z.eqb Z.gtb Z.compare]. erewrite st_bind_ok; [|done]. cbn beta iota zeta. erewrite st_bind_ok; [|done].
  rewrite (proj2 (Z.geb_le _ _)) by done. rewrite Hh. rewrite (st_bind_ok _ _ _ _ _ Hscan).
  destruct (Z.eqb_spec cmp 0) as [->|Hne].
  - destruct (Hend eq_refl) as (d & Ed & El). erewrite st_bind_ok; [|by rewrite (st_bind_ok _ _ _ _ _ Ed)].
    destruct (scan_end d mode) as [l m]. simpl in El. subst l. by eexists.
  - erewrite st_bind_ok; [|done]. by eexists.
Qed.

(** A list of one interval, before the end of the search. *)
Lemma collect_one fuel it v mode sn :
  ii_finished it = -1 -> ii_ele it = [] -> ii_ptr_level it = -1 -> ii_hi it = Some hi -> 0 <= ii_mode it ->
  scan (size (sl_nodes (isl_sl s))) (Some hi) (ii_sn it) (ii_mode it) (-100) s = Ok (inl ([v], mode, sn), s) ->
  isl_collect cmpZ (S fuel) it s =
    (l ← isl_collect cmpZ fuel (IslIter (Some hi) sn [] (ii_ptr it) mode (-1) (-1)); mret (v :: l)) s.
Proof.
  intros Hf He Hp Hh Hm Hscan.
  assert (En : tbx_isl_next cmpZ it s = Ok ((Some v, IslIter (Some hi) sn [] (ii_ptr it) mode (-1) (-1)), s));
    [|cbn [isl_collect]; by rewrite (st_bind_ok _ _ _ _ _ En)].
  unfold tbx_isl_next. rewrite Hf, He, Hp. cbn [Z.eqb Z.gtb Z.compare]. erewrite st_bind_ok; [|done]. cbn beta iota zeta. erewrite st_bind_ok; [|done].
  rewrite (proj2 (Z.geb_le _ _)) by done. rewrite Hh. by rewrite (st_bind_ok _ _ _ _ _ Hscan).
Qed.

(** The interval that starts at the upper bound is the last one. *)
Lemma collect_last fuel it v d sn :
  ii_finished it = -1 -> ii_ele it = [] -> ii_ptr_level it = -1 -> ii_hi it = Some hi -> 0 <= ii_mode it ->
  scan (size (sl_nodes (isl_sl s))) (Some hi) (ii_sn it) (ii_mode it) (-100) s = Ok (inr (0, sn, -2), s) ->
  isln_at sn s = Ok (d, s) -> fst (scan_end d (-2)) = [v] ->
  isl_collect cmpZ (S (S fuel)) it s = Ok ([v], s).
Proof.
  intros Hf He Hp Hh Hm Hscan Ed El. assert (Hmode : snd (scan_end d (-2)) < 0).
  { unfold scan_end. simpl. by destruct (in_point d). }
  destruct (scan_end d (-2)) as [l m] eqn:Esc. simpl in El, Hmode. subst l.
  assert (E1 : tbx_isl_next cmpZ it s = Ok ((Some v, IslIter (Some hi) (ii_sn it) [] (ii_ptr it) m (-1) (-1)), s)).
  { unfold tbx_isl_next. rewrite Hf, He, Hp. cbn [Z.eqb Z.gtb Z.compare]. erewrite st_bind_ok; [|done]. cbn beta iota zeta. erewrite st_bind_ok; [|done].
    rewrite (proj2 (Z.geb_le _ _)) by done. rewrite Hh. rewrite (st_bind_ok _ _ _ _ _ Hscan). cbn [Z.eqb].
    erewrite st_bind_ok; [|by rewrite (st_bind_ok _ _ _ _ _ Ed)]. by rewrite Esc. }
  assert (E2 : exists it', tbx_isl_next cmpZ (IslIter (Some hi) (ii_sn it) [] (ii_ptr it) m (-1) (-1)) s = Ok ((None, it'), s)).
  2:{ destruct E2 as [it' E2]. cbn [isl_collect]. rewrite (st_bind_ok _ _ _ _ _ E1). cbn beta iota.
      erewrite st_bind_ok; [reflexivity|]. by rewrite (st_bind_ok _ _ _ _ _ E2). }
  destruct m as [|m|m]; [lia|lia|]. unfold tbx_isl_next. simpl. by eexists.
Qed.

Lemma cmp_lt a b : a < b -> cmpZ a b = -1.
Proof. intros. unfold cmpZ. by rewrite (proj2 (Z.ltb_lt _ _)). Qed.
Lemma cmp_gt a b : b < a -> cmpZ a b = 1.
Proof. intros. unfold cmpZ. by rewrite (proj2 (Z.ltb_ge _ _)), (proj2 (Z.eqb_neq _ _)) by lia. Qed.

(** After a list of the node of [e] the iterator is at the nodes behind it. *)
Lemma ready_behind A e B d k mode ptr :
  sl_shape (isl_sl s) (A ++ e :: B) -> has_data k d e -> k < hi -> 0 <= mode -> scan_lists d mode = None ->
  ready (IslIter (Some hi) (Some (e_loc e)) [] ptr mode (-1) (-1)) B.
Proof.
  intros Hs He Hk Hm Hsl. do 4 (split; [done|]). split; [done|]. cbn [ii_sn ii_mode].
  assert (Hsz : size (sl_nodes (isl_sl s)) = S (length A + S (length B))).
  { rewrite (sh_nodes _ _ Hs), layout_size by apply (sh_nodup _ _ Hs). simpl. by rewrite length_app. }
  exists (length A + S (length B))%nat, (-1). split; [lia|]. split; [done|].
  rewrite Hsz, (scan_step A e B d k _ mode (-100) Hs He), (cmp_lt k hi) by done. cbn [Z.gtb Z.compare Pos.compare Pos.compare_cont CompOpp]. by rewrite Hsl.
Qed.

(** Going over a node that has no lists for the current mode. *)
Lemma ready_skip it A e B d k :
  sl_shape (isl_sl s) (A ++ e :: B) -> has_data k d e -> k < hi -> scan_lists d 0 = None -> ready it (e :: B) -> ready it B.
Proof.
  intros Hs He Hk Hsl (H1 & H2 & H3 & H4 & H5 & fuel & cmp & Hf & Hc & E). do 5 (split; [done|]).
  simpl in Hf. destruct fuel as [|fuel]; [lia|]. exists fuel, (-1). split; [lia|]. split; [done|]. rewrite E. cbn [head fmap option_fmap option_map].
  rewrite (scan_step A e B d k fuel 0 cmp Hs He), (cmp_lt k hi) by done. cbn [Z.gtb Z.compare Pos.compare Pos.compare_cont CompOpp]. by rewrite Hsl.
Qed.

(** The search ends at a node that has reached the upper bound. *)
Lemma collect_stop fuel it A e B d k :
  sl_shape (isl_sl s) (A ++ e :: B) -> has_data k d e -> hi <= k -> (k = hi -> fst (scan_end d (-2)) = []) -> ready it (e :: B) ->
  isl_collect cmpZ (S fuel) it s = Ok ([], s).
Proof.
  intros Hs He Hk Hend (H1 & H2 & H3 & H4 & H5 & n & cmp & Hf & Hc & E). simpl in Hf. destruct n as [|n]; [lia|].
  cbn [head fmap option_fmap option_map] in E. rewrite (scan_step A e B d k n 0 cmp Hs He) in E.
  assert (Hge : (cmpZ k hi >? -1) = true) by (unfold cmpZ; rewrite (proj2 (Z.ltb_ge _ _)) by lia; by destruct (k =? hi)).
  rewrite Hge in E. apply (collect_end fuel it _ _ _ H1 H2 H3 H4 H5 E). intros Hz%(cmp_eq cmpZ). exists d. split; [|by apply Hend].
  apply (isln_at_ok s A e B d Hs). apply He.
Qed.

(** Behind the upper end of [v]. *)
Lemma filter_behind t v : ivs_ok (v :: t) -> hi <= iv_hi v -> filter (fun w => iv_lo w <= hi) t = [].
Proof.
  intros (_ & Hb & _)%ivs_ok_cons Hhi. rewrite Forall_forall in Hb. induction t as [|w t IH]; [done|]. rewrite filter_cons_False.
  - apply IH. intros u Hu. apply Hb. by right.
  - specialize (Hb w ltac:(by left)). unfold before in Hb. lia.
Qed.

(** The node where [v] starts. *)
Lemma collect_node fuel it A e B d v m t :
  sl_shape (isl_sl s) (A ++ e :: B) -> has_data (iv_lo v) d e ->
  scan_lists d 0 = Some ([v], m) -> 0 <= m -> scan_lists d m = None -> fst (scan_end d (-2)) = [v] ->
  ivs_ok (v :: t) -> ready it (e :: B) -> (0 < fuel)%nat ->
  (iv_lo v < hi -> forall it, ready it B -> isl_collect cmpZ fuel it s = Ok (filter (fun v => iv_lo v <= hi) t, s)) ->
  isl_collect cmpZ (S fuel) it s = Ok (filter (fun v => iv_lo v <= hi) (v :: t), s).
Proof.
  intros Hs He Hl Hm Hl' Hend Hok Hready Hfuel IH. assert (Hlohi : iv_lo v <= iv_hi v) by (by apply ivs_ok_cons in Hok as (? & _)).
  destruct (Z.lt_trichotomy (iv_lo v) hi) as [Hlt|[Heq|Hgt]].
  - rewrite filter_cons_True by lia. pose proof Hready as (H1 & H2 & H3 & H4 & H5 & n & cmp & Hf & Hc & E). simpl in Hf. destruct n as [|n]; [lia|].
    cbn [head fmap option_fmap option_map] in E. rewrite (scan_step A e B d _ n 0 cmp Hs He), (cmp_lt _ hi), Hl in E by done.
    rewrite (collect_one fuel it v m _ H1 H2 H3 H4 H5 E).
    by rewrite (st_bind_ok _ _ _ _ _ (IH Hlt _ (ready_behind A e B d _ m _ Hs He Hlt Hm Hl'))).
  - rewrite filter_cons_True, (filter_behind t v) by (done || lia). destruct Hready as (H1 & H2 & H3 & H4 & H5 & n & cmp & Hf & Hc & E). simpl in Hf. destruct n as [|n]; [lia|].
    cbn [head fmap option_fmap option_map] in E. rewrite (scan_step A e B d _ n 0 cmp Hs He), Heq in E.
    rewrite (cmp_refl cmpZ hi) in E. destruct fuel as [|fuel]; [lia|].
    eapply (collect_last fuel it v d _ H1 H2 H3 H4 H5 E); [|done]. apply (isln_at_ok s A e B d Hs). apply He.
  - rewrite filter_cons_False, (filter_behind t v) by (done || lia). by eapply (collect_stop fuel it A e B d (iv_lo v)); eauto; lia.
Qed.

Lemma collect_rep t B :
  isl_rep t B -> forall A it fuel, ivs_ok t -> sl_shape (isl_sl s) (A ++ B) -> ready it B -> (length t < fuel)%nat ->
  isl_collect cmpZ fuel it s = Ok (filter (fun v => iv_lo v <= hi) t, s).
Proof.
  induction 1 as [|v e t B Heq He Hr IH|v e e' t B Hlt He He' Hr IH]; intros A it fuel Hok Hs Hready Hfuel; (destruct fuel as [|fuel]; [simpl in Hfuel; lia|]);
    simpl in Hfuel; try pose proof (proj2 (proj2 (proj1 (ivs_ok_cons _ _) Hok))) as Hok'.
  - destruct Hready as (H1 & H2 & H3 & H4 & H5 & n & cmp & _ & Hc & E). eapply (collect_end fuel it cmp None 0 H1 H2 H3 H4 H5).
    + rewrite E. by destruct n.
    + lia.
  - eapply (collect_node fuel it A e B _ v 1 t Hs He); [done || lia..|]. intros Hhi it' Hready'.
    apply (IH (A ++ [e])); [done| |done|lia]. by rewrite <-app_assoc.
  - eapply (collect_node fuel it A e (e' :: B) _ v 2 t Hs He); [done || lia..|]. intros Hhi it' Hready'.
    assert (Hs' : sl_shape (isl_sl s) ((A ++ [e]) ++ e' :: B)) by (by rewrite <-app_assoc).
    destruct (Z.lt_ge_cases (iv_hi v) hi) as [Hb|Hb].
    + apply (IH ((A ++ [e]) ++ [e'])); [done| | |lia]; [by rewrite <-app_assoc|].
      by apply (ready_skip _ (A ++ [e]) e' B _ (iv_hi v) Hs' He').
    + rewrite (filter_behind t v) by done. destruct fuel as [|fuel]; [lia|]. by eapply (collect_stop fuel it' _ e' B _ _ Hs' He').
Qed.

(** ** The intervals that cross the lower bound *)

(** The last node of a level among the head and [A], as the array has it. *)
Lemma scan_ptr_at A B p i ptr :
  sl_shape (isl_sl s) (A ++ B) -> is_pred i (head_ent (isl_sl s) :: A) p -> ptr !! i = Some (Some (e_loc p)) ->
  scan_ptr (S i) ptr s =
    match e_data p with
    | None => scan_ptr i ptr
    | Some d => e ← edge_at d i; match e with [] => scan_ptr i ptr | _ => mret (Some (e, Z.of_nat i - 1)) end
    end s.
Proof.
  intros Hs (l1 & l2 & E & _) Hptr. cbn [scan_ptr].
  erewrite st_bind_ok; [|apply on_sl_read; unfold lift, ptr_get; by rewrite Hptr]. cbn beta iota.
  erewrite st_bind_ok; [|apply on_sl_read; unfold load, node_at; rewrite (shape_lookup _ _ l1 p (l2 ++ B) Hs); [done|]].
  - by destruct p.
  - change (head_ent (isl_sl s) :: A ++ B) with ((head_ent (isl_sl s) :: A) ++ B). by rewrite E, <- (assoc_L (++)).
Qed.

Lemma scan_ptr_rep A B t p i ptr :
  sl_shape (isl_sl s) (A ++ B) -> isl_rep t A -> is_pred i (head_ent (isl_sl s) :: A) p -> ptr !! i = Some (Some (e_loc p)) ->
  scan_ptr (S i) ptr s = scan_ptr i ptr s.
Proof.
  intros Hs Hr Hp Hptr. rewrite (scan_ptr_at A B p i ptr Hs Hp Hptr). destruct Hp as ([|x l1] & l2 & E & Hi & Hl2); injection E as <- E; [done|].
  destruct (rep_pred_edge t A i p Hr) as (d & -> & He); [by exists l1, l2|]. erewrite st_bind_ok; [|unfold edge_at; by rewrite He]. done.
Qed.

(** Between two intervals the array finds nothing. *)
Lemma scan_ptr_gap A B t ptr n :
  sl_shape (isl_sl s) (A ++ B) -> isl_rep t A -> preds (current_max (isl_sl s)) (head_ent (isl_sl s) :: A) ptr ->
  (n <= S (current_max (isl_sl s)))%nat -> scan_ptr n ptr s = Ok (None, s).
Proof.
  intros Hs Hr Hp. induction n as [|n IH]; intros Hn; [done|]. destruct (Hp n ltac:(lia)) as (p & Hpred & Hptr).
  rewrite (scan_ptr_rep A B t p n ptr Hs Hr Hpred Hptr). apply IH. lia.
Qed.

(** The last node is the one of its levels. *)
Lemma pred_last i A e p :
  is_pred i (A ++ [e]) p -> if decide (i <= e_level e)%nat then p = e else is_pred i A p.
Proof.
  intros (l1 & l2 & E & Hi & Hl2). destruct l2 as [|x l3 _] using rev_ind.
  - apply app_inj_tail in E as [-> ->]. by rewrite decide_True.
  - rewrite app_comm_cons, app_assoc in E. apply app_inj_tail in E as [-> ->]. pose proof (Hl2 x ltac:(set_solver)).
    rewrite decide_False by lia. exists l1, l3. split; [done|]. split; [done|]. intros y Hy. apply Hl2. set_solver.
Qed.

(** Inside [v] it finds [v], at the level of its tag. *)
Lemma scan_ptr_in A e e' B t v ptr n :
  sl_shape (isl_sl s) ((A ++ [e]) ++ e' :: B) -> isl_rep t A -> lo_node v e e' ->
  preds (current_max (isl_sl s)) (head_ent (isl_sl s) :: A ++ [e]) ptr -> (n <= S (current_max (isl_sl s)))%nat ->
  scan_ptr n ptr s = Ok (if decide (tag_level e e' < n)%nat then Some ([v], Z.of_nat (tag_level e e') - 1) else None, s).
Proof.
  intros Hs Hr He Hp. assert (Hlev : (tag_level e e' <= e_level e)%nat) by (unfold tag_level; lia).
  induction n as [|n IH]; intros Hn; [by rewrite decide_False by lia|]. destruct (Hp n ltac:(lia)) as (p & Hpred & Hptr).
  pose proof (pred_last n (head_ent (isl_sl s) :: A) e p Hpred) as Hcase. case_decide as Hne.
  - subst p. destruct He as (_ & Hd & _). rewrite (scan_ptr_at _ _ e n ptr Hs Hpred Hptr), Hd.
    destruct (decide (n = tag_level e e')) as [->|Hnt].
    + erewrite st_bind_ok; [|unfold edge_at; cbn [in_edge]; by rewrite list_lookup_insert_eq by (unfold blank; rewrite length_replicate; lia)].
      by rewrite decide_True by lia.
    + erewrite st_bind_ok; [|unfold edge_at; cbn [in_edge]; by rewrite list_lookup_insert_ne, blank_lookup by (done || lia)].
      cbn beta iota. rewrite IH by lia. by repeat case_decide; (lia || done).
  - rewrite <- (assoc_L (++)) in Hs. rewrite (scan_ptr_rep A _ t p n ptr Hs Hr Hcase Hptr), IH by lia. by repeat case_decide; (lia || done).
Qed.

(** Once the array has nothing more the iterator goes on with the nodes. *)
Lemma collect_ptr_none fuel it :
  ii_finished it = -1 -> ii_ele it = [] -> ii_mode it = 0 ->
  (ii_ptr_level it > -1 -> scan_ptr (Z.to_nat (ii_ptr_level it + 1)) (ii_ptr it) s = Ok (None, s)) ->
  isl_collect cmpZ fuel it s = isl_collect cmpZ fuel (IslIter (ii_hi it) (ii_sn it) [] (ii_ptr it) 0 (-1) (-1)) s.
Proof.
  destruct it as [h sn ele ptr mode level fin]. cbn [ii_finished ii_ele ii_mode ii_ptr_level ii_ptr ii_hi ii_sn]. intros -> -> -> Hp.
  destruct fuel as [|fuel]; [done|]. cbn [isl_collect].
  assert (E : tbx_isl_next cmpZ (IslIter h sn [] ptr 0 level (-1)) s = tbx_isl_next cmpZ (IslIter h sn [] ptr 0 (-1) (-1)) s); [|unfold mbind, st_bind; by rewrite E].
  unfold tbx_isl_next. cbn [ii_finished ii_ele ii_mode ii_ptr_level ii_ptr ii_hi ii_sn Z.eqb Z.gtb Z.compare].
  destruct (level >? -1) eqn:El; [|done]. erewrite st_bind_ok; [|apply Hp; by apply Zgt_is_gt_bool in El]. done.
Qed.

End search.

Lemma isl_search_start s A B lo hi :
  sl_shape (isl_sl s) (A ++ B) -> keys_below A lo -> keys_from B lo ->
  exists ptr, tbx_isl_iter_search cmpZ (Some lo) (Some hi) s =
      Ok (IslIter (Some hi) (e_loc <$> head B) [] ptr 0 (Z.of_nat (current_max (isl_sl s))) (-1), s) /\
    preds (current_max (isl_sl s)) (head_ent (isl_sl s) :: A) ptr /\
    ready s hi (IslIter (Some hi) (e_loc <$> head B) [] ptr 0 (-1) (-1)) B.
Proof.
  intros Hs HA HB. destruct (isl_find_ok s A B lo Hs HA HB) as (cmp & ptr & E & Hp & _). exists ptr.
  destruct (isl_first_ok s A B ptr _ Hs Hp) as (p & Ep & Eq). split.
  - unfold tbx_isl_iter_search. erewrite st_bind_ok; [|done]. rewrite (st_bind_ok _ _ _ _ _ E). cbn beta iota.
    rewrite (st_bind_ok _ _ _ _ _ Ep). cbn beta iota zeta. by rewrite (st_bind_ok _ _ _ _ _ Eq).
  - split; [done|]. do 4 (split; [done|]). split; [done|]. cbn [ii_sn ii_mode].
    exists (size (sl_nodes (isl_sl s))), (-100). split; [|split; [done|done]].
    rewrite (sh_nodes _ _ Hs), layout_size by apply (sh_nodup _ _ Hs). simpl. rewrite length_app. lia.
Qed.


(** What comes after [v] when its upper end is the next node. *)
Lemma collect_rest s hi A e' B v t it fuel :
  sl_shape (isl_sl s) (A ++ e' :: B) -> hi_node v e' -> isl_rep t B -> ivs_ok (v :: t) -> ready s hi it (e' :: B) -> (length t < fuel)%nat ->
  isl_collect cmpZ fuel it s = Ok (filter (fun w => iv_lo w <= hi) t, s).
Proof.
  intros Hs He Hr Hok Hready Hfuel. pose proof Hok as (_ & _ & Hok')%ivs_ok_cons. destruct (Z.lt_ge_cases (iv_hi v) hi) as [Hlt|Hge].
  - apply (collect_rep s hi t B Hr (A ++ [e'])); [done| | |done]; [by rewrite <- (assoc_L (++))|].
    by apply (ready_skip s hi it A e' B _ (iv_hi v) Hs He).
  - destruct fuel as [|fuel]; [lia|]. rewrite (filter_behind hi t v Hok Hge). by eapply (collect_stop s hi fuel it A e' B _ _ Hs He).
Qed.

(** The nodes before and from a position inside [v]. *)
Lemma rep_inside A l2 t1 t2 v lo :
  isl_rep t1 A -> isl_rep (v :: t2) l2 -> ivs_ok (t1 ++ v :: t2) -> (forall w, w ∈ t1 -> iv_hi w < lo) -> iv_lo v < lo <= iv_hi v ->
  exists e e' B, l2 = e :: e' :: B /\ lo_node v e e' /\ hi_node v e' /\ isl_rep t2 B /\ keys_below (A ++ [e]) lo /\ keys_from (e' :: B) lo.
Proof.
  intros Hr1 Hr2 Hi H1 Hv. pose proof (ivs_middle _ _ _ Hi) as (_ & H2 & _).
  assert (Hp : forall w, w ∈ t1 ++ v :: t2 -> iv_lo w <= iv_hi w) by (intros w; by apply ivs_proper_elem).
  inversion Hr2 as [|? e ? ? Heq|? e e' ? B Hlt He He' Hr]; subst; [lia|]. exists e, e', B. do 4 (split; [done|]). split.
  - intros x [Hx|Hx%list_elem_of_singleton]%elem_of_app; [|subst x; destruct He as (Hk & _); exists (iv_lo v); split; [done|lia]].
    apply (rep_below t1 A); [done| |done]. intros w Hw. split; [apply Hp; apply elem_of_app; by left|by apply H1].
  - intros x [->|Hx]%elem_of_cons; [destruct He' as (Hk & _); exists (iv_hi v); split; [done|lia]|]. revert x Hx. apply (rep_from t2); [done|].
    intros w Hw. specialize (H2 w Hw). unfold before in H2. split; [lia|apply Hp; set_solver].
Qed.

(** The nodes before and from a position between intervals. *)
Lemma rep_between A B t1 t2 lo :
  isl_rep t1 A -> isl_rep t2 B -> ivs_ok (t1 ++ t2) -> (forall w, w ∈ t1 -> iv_hi w < lo) -> (forall w, w ∈ t2 -> lo <= iv_lo w) ->
  keys_below A lo /\ keys_from B lo.
Proof.
  intros Hr1 Hr2 Hi H1 H2. assert (Hp : forall v, v ∈ t1 ++ t2 -> iv_lo v <= iv_hi v) by (intros v; by apply ivs_proper_elem). split.
  - apply (rep_below t1); [done|]. intros v Hv. split; [apply Hp; set_solver|by apply H1].
  - apply (rep_from t2); [done|]. intros v Hv. split; [by apply H2|apply Hp; set_solver].
Qed.

(** A search that starts inside [v]. *)
Lemma isl_search_in s A l2 t1 t2 v lo hi :
  sl_shape (isl_sl s) (A ++ l2) -> isl_rep t1 A -> isl_rep (v :: t2) l2 -> ivs_ok (t1 ++ v :: t2) ->
  (forall w, w ∈ t1 -> iv_hi w < lo) -> iv_lo v < lo <= iv_hi v ->
  exists it, tbx_isl_iter_search cmpZ (Some lo) (Some hi) s = Ok (it, s) /\
    forall fuel, (S (length t2) < fuel)%nat -> isl_collect cmpZ fuel it s = Ok (v :: filter (fun w => iv_lo w <= hi) t2, s).
Proof.
  intros Hs Hr1 Hr2 Hi H1 Hv. pose proof (ivs_app_r _ _ Hi) as Hi2.
  destruct (rep_inside A l2 t1 t2 v lo Hr1 Hr2 Hi H1 Hv) as (e & e' & B & -> & He & He' & Hr & HA & HB).
  replace (A ++ e :: e' :: B) with ((A ++ [e]) ++ e' :: B) in Hs by (by rewrite <- (assoc_L (++))).
  destruct (isl_search_start s (A ++ [e]) (e' :: B) lo hi Hs HA HB) as (ptr & E & Hptr & Hready).
  assert (Hlev : (tag_level e e' <= current_max (isl_sl s))%nat) by (unfold tag_level; specialize (sh_levels _ _ Hs e ltac:(set_solver)); lia).
  eexists. split; [exact E|]. intros [|fuel] Hf; [lia|]. cbn [isl_collect].
  erewrite st_bind_ok; [|unfold tbx_isl_next; cbn [ii_finished ii_ele ii_mode ii_ptr_level ii_ptr ii_hi ii_sn Z.eqb];
    rewrite (proj2 (Z.gtb_lt _ _)) by lia; erewrite st_bind_ok; [|apply (scan_ptr_in s A e e' B t1 v ptr); [done..|lia]]; rewrite decide_True by lia; done].
  cbn beta iota. erewrite st_bind_ok; [done|]. rewrite collect_ptr_none; [|done..|]; cbn [ii_ptr_level ii_ptr ii_hi ii_sn].
  - apply (collect_rest s hi (A ++ [e]) e' B v); [done..|lia].
  - intros _. rewrite (scan_ptr_in s A e e' B t1 v ptr), decide_False by (done || lia). done.
Qed.

Lemma isl_search_ok s l t lo hi :
  isl_holds s l t -> searchable lo hi t ->
  exists it, tbx_isl_iter_search cmpZ (Some lo) (Some hi) s = Ok (it, s) /\
    forall fuel, (length t < fuel)%nat -> isl_collect cmpZ fuel it s = Ok (filter (overlaps lo hi) t, s).
Proof.
  intros [Hs Hr Hi _] Hse. destruct (ivs_cut lo t Hi) as (t1 & t2 & H1 & H2 & [->|(v & -> & Hv)]); apply rep_app_inv in Hr as (A & l2 & -> & Hr1 & Hr2).
  - destruct (rep_between A l2 t1 t2 lo Hr1 Hr2 Hi H1 H2) as [HA HB].
    destruct (isl_search_start s A l2 lo hi Hs HA HB) as (ptr & E & Hptr & Hready).
    eexists. split; [exact E|]. intros fuel Hf. rewrite length_app in Hf.
    rewrite collect_ptr_none; [|done..|]; cbn [ii_ptr_level ii_ptr ii_hi ii_sn]; [|intros _; apply (scan_ptr_gap s A l2 t1); [done..|lia]].
    rewrite filter_app, ivs_filter_below by done. assert (Hi2 : ivs_ok t2) by (by apply ivs_app_r in Hi). rewrite ivs_filter_from by done.
    apply (collect_rep s hi t2 l2 Hr2 A); [done..|lia].
  - apply ivs_app_r in Hi as Hi2. destruct (isl_search_in s A l2 t1 t2 v lo hi Hs Hr1 Hr2 Hi H1 Hv) as (it & E & Hcol).
    exists it. split; [done|]. intros fuel Hf. rewrite length_app in Hf. simpl in Hf. rewrite Hcol by lia.
    assert (iv_lo v <= hi) by (destruct Hse as [?|Hall]; [lia|specialize (Hall v ltac:(set_solver)); lia]).
    rewrite filter_app, ivs_filter_below, filter_cons_True by (done || unfold overlaps; lia). rewrite ivs_filter_from; [done| |done].
    by apply ivs_ok_cons in Hi2 as (_ & _ & Hi3).
Qed.

Lemma rep_cut t l k : isl_rep t l -> ivs_ok t -> exists A B, l = A ++ B /\ keys_below A k /\ keys_from B k.
Proof.
  intros Hr Hi. destruct (ivs_cut k t Hi) as (t1 & t2 & H1 & H2 & [->|(v & -> & Hv)]); apply rep_app_inv in Hr as (A & l2 & -> & Hr1 & Hr2).
  - exists A, l2. split; [done|]. by apply (rep_between A l2 t1 t2).
  - destruct (rep_inside A l2 t1 t2 v k Hr1 Hr2 Hi H1 Hv) as (e & e' & B & -> & _ & _ & _ & HA & HB). exists (A ++ [e]), (e' :: B). by rewrite <- (assoc_L (++)).
Qed.

(** Nothing ends at the lower end of [v]: the removal is refused. *)
Lemma isl_remove_missing s l t v :
  isl_holds s l t -> (forall w, w ∈ t -> iv_lo w <> iv_lo v /\ iv_hi w <> iv_lo v) ->
  tbx_isl_remove cmpZ (iv_lo v) (iv_hi v) v s = Ok (1, s).
Proof.
  intros [Hs Hr Hi _] Hno. destruct (rep_cut t l (iv_lo v) Hr Hi) as (A & B & -> & HA & HB).
  destruct (isl_find_ok s A B (iv_lo v) Hs HA HB) as (cmp & ptr & E & Hp & _ & Hc). destruct (isl_first_ok s A B ptr _ Hs Hp) as (p & Ep & Eq).
  unfold tbx_isl_remove. rewrite (st_bind_ok _ _ _ _ _ E). cbn beta iota. rewrite (st_bind_ok _ _ _ _ _ Ep), (st_bind_ok _ _ _ _ _ Eq).
  rewrite (proj2 (Z.eqb_neq cmp 0)); [done|]. intros (e & B' & -> & Hk)%Hc. destruct (rep_key t _ e Hr ltac:(set_solver)) as (w & k & Hw & Hk' & Hor).
  specialize (Hno w Hw). rewrite Hk in Hk'. injection Hk' as Hk'. lia.
Qed.

(** ** The table of a structure *)

(** The intervals along the nodes, in order. *)
Fixpoint chain_table (fuel : nat) (h : gmap loc (sl_node Z (isl_node R))) (sn : option loc) : list R :=
  match fuel, sn with
  | S fuel, Some a =>
    match h !! a with
    | Some n =>
      match sn_data n with Some d => in_point d ++ in_start d | None => [] end ++
      chain_table fuel h (default None (head (sn_next n)))
    | None => []
    end
  | _, _ => []
  end.

Definition isl_table s : list R := chain_table (size (sl_nodes (isl_sl s))) (sl_nodes (isl_sl s)) (Some (sl_head (isl_sl s))).

Lemma nexts_head l : nxt full 0 l = e_loc <$> head l.
Proof. unfold nxt. by destruct l; [|rewrite filter_cons_True]. Qed.

Lemma chain_rep s t B : isl_rep t B -> forall A fuel,
  sl_shape (isl_sl s) (A ++ B) -> (length B <= fuel)%nat -> chain_table fuel (sl_nodes (isl_sl s)) (e_loc <$> head B) = t.
Proof.
  assert (Hstep : forall A e B d k n, sl_shape (isl_sl s) (A ++ e :: B) -> has_data k d e ->
    chain_table (S n) (sl_nodes (isl_sl s)) (Some (e_loc e)) = in_point d ++ in_start d ++ chain_table n (sl_nodes (isl_sl s)) (e_loc <$> head B)).
  { intros A e C d k n Hs (_ & Hd & _). cbn [chain_table]. rewrite (shape_lookup _ _ (head_ent (isl_sl s) :: A) e C Hs eq_refl). cbn [sn_data sn_next cell]. rewrite Hd, (assoc_L (++)). f_equal.
    simpl. by rewrite nexts_head. }
  induction 1 as [|v e t B Heq He Hr IH|v e e' t B Hlt He He' Hr IH]; intros A fuel Hs Hf; simpl in Hf.
  - by destruct fuel.
  - destruct fuel as [|fuel]; [lia|]. cbn [head fmap option_fmap option_map]. rewrite (Hstep A e B _ _ fuel Hs He). simpl. f_equal.
    apply (IH (A ++ [e])); [|lia]. by rewrite <- (assoc_L (++)).
  - assert (Hs' : sl_shape (isl_sl s) ((A ++ [e]) ++ e' :: B)) by (by rewrite <- (assoc_L (++))).
    destruct fuel as [|[|fuel]]; [lia|lia|]. cbn [head fmap option_fmap option_map]. rewrite (Hstep A e _ _ _ (S fuel) Hs He). cbn [in_point in_start app]. f_equal.
    cbn [head fmap option_fmap option_map]. rewrite (Hstep _ e' B _ _ fuel Hs' He'). simpl.
    apply (IH ((A ++ [e]) ++ [e'])); [|lia]. by rewrite <- (assoc_L (++)).
Qed.

Lemma isl_table_ok s l t : isl_holds s l t -> isl_table s = t.
Proof.
  intros [Hs Hr _ _]. unfold isl_table. rewrite (sh_nodes _ _ Hs) at 1. rewrite layout_size by apply (sh_nodup _ _ Hs). cbn [length chain_table].
  pose proof (shape_lookup _ _ [] (head_ent (isl_sl s)) l Hs eq_refl) as E. cbn [head_ent e_loc] in E. rewrite E.
  simpl. rewrite nexts_head. by apply (chain_rep s t l Hr []).
Qed.

Lemma isl_new_holds : exists s : isl Z R, tbx_isl_new = Ok s /\ isl_holds s [] [] /\ isl_freed s = [].
Proof.
  eexists. split; [done|]. split; [|done]. split; [split|constructor|apply ivs_ok_nil|done].
  - simpl layout. unfold cell. by rewrite nexts_nil.
  - repeat constructor. by apply not_elem_of_nil.
  - unfold SKIPLIST_MAX_LEVEL. simpl. lia.
  - simpl. lia.
  - by intros x ?%not_elem_of_nil.
Qed.

Lemma isl_count_ok s l t lo hi fuel :
  isl_holds s l t -> searchable lo hi t -> (length t < fuel)%nat ->
  tbx_isl_range_count cmpZ fuel (Some lo) (Some hi) s = Ok (Z.of_nat (length (filter (overlaps lo hi) t)), s).
Proof.
  intros Hh Hse Hf. destruct (isl_search_ok s l t lo hi Hh Hse) as (it & E & Hc). unfold tbx_isl_range_count.
  rewrite (st_bind_ok _ _ _ _ _ E). by rewrite (st_bind_ok _ _ _ _ _ (Hc fuel Hf)).
Qed.

End nodes.

(** ** The interface of the segment drivers

    What the drivers ask of their mapping is what the structure gives: the
    drivers' theorems hold for the interval skip list. *)
Section index.
Context {R : Type} `{HasRange R} `{EqDecision R} (below_p : nat -> bool).
Abbreviation cmpZ := skiplist_compare_fn_ex_off.
Implicit Types (m : isl Z R) (v : R).

(** What is left after a call. *)
Definition after {C} (r : res (C * isl Z R)) m : isl Z R := match r with Ok (_, m') => m' | Fault _ => m end.

Definition isl_search (lo hi : Z) m : list R :=
  match (it ← tbx_isl_iter_search cmpZ (Some lo) (Some hi); isl_collect cmpZ (S (length (isl_table m))) it) m with
  | Ok (l, _) => l
  | Fault _ => []
  end.

#[export] Instance isl_index : IntervalIndex (isl Z R) R := {|
  ix_empty := match tbx_isl_new with Ok m => m | Fault _ => Isl (SL 0 0 false 0 0 1%positive ∅ 0 []) 0 [] end;
  ix_insert v m := after (tbx_isl_insert cmpZ below_p (iv_lo v) (iv_hi v) v m) m;
  ix_remove v m := after (tbx_isl_remove cmpZ (iv_lo v) (iv_hi v) v m) m;
  ix_search := isl_search;
  ix_list := isl_table;
  ix_ok m := exists l t, isl_holds m l t |}.

#[export] Instance isl_index_laws : IntervalIndexLaws (isl Z R) R.
Proof.
  split.
  - intros m (l & t & Hh). cbn [ix_list isl_index]. rewrite (isl_table_ok m l t Hh). apply (ih_ivs _ _ _ Hh).
  - destruct (isl_new_holds (R := R)) as (m & E & Hh & _). cbn [ix_empty ix_list ix_ok isl_index]. rewrite E. split; [by exists [], []|]. by apply (isl_table_ok m []).
  - intros v m (l & t & Hh) Hv Hd. cbn [ix_list ix_insert ix_ok isl_index] in *. rewrite (isl_table_ok m l t Hh) in *.
    destruct (isl_insert_ok below_p m l t v Hh Hv Hd) as (m' & l' & E & Hh' & _). rewrite E. cbn [after]. split; [by exists l', (ivs_insert v t)|].
    intros w. rewrite (isl_table_ok m' l' _ Hh'). apply ivs_insert_elem.
  - intros v m (l & t & Hh) Hv. cbn [ix_list ix_remove ix_ok isl_index] in *. rewrite (isl_table_ok m l t Hh) in *.
    destruct (isl_remove_ok m l t v Hh Hv) as (m' & l' & E & Hh' & _). rewrite E. cbn [after]. split; [by eexists l', _|].
    intros w. rewrite (isl_table_ok m' l' _ Hh'). by rewrite list_elem_of_filter.
  - intros lo hi m (l & t & Hh) Hse. cbn [ix_list ix_search isl_index] in *. unfold isl_search. rewrite (isl_table_ok m l t Hh) in *.
    destruct (isl_search_ok m l t lo hi Hh Hse) as (it & E & Hc). rewrite (st_bind_ok _ _ _ _ _ E). by rewrite (Hc (S (length t)) ltac:(lia)).
Qed.

End index.

(** ** Sequences of calls *)
Section sequences.
Context {R : Type} `{HasRange R} `{EqDecision R} (below_p : nat -> bool).
Abbreviation cmpZ := skiplist_compare_fn_ex_off.

Inductive isl_op :=
| IslInsert (v : R)
| IslRemove (v : R)
| IslSearch (lo hi : Z)
| IslCount (lo hi : Z).

Inductive isl_out :=
| IslCode (c : Z)
| IslFound (l : list R).

Definition isl_exec (op : isl_op) : ST (isl Z R) isl_out :=
  s ← st_get;
  let fuel := S (Z.to_nat (n_intervals s)) in
  match op with
  | IslInsert v => c ← tbx_isl_insert cmpZ below_p (iv_lo v) (iv_hi v) v; mret (IslCode c)
  | IslRemove v => c ← tbx_isl_remove cmpZ (iv_lo v) (iv_hi v) v; mret (IslCode c)
  | IslSearch lo hi => it ← tbx_isl_iter_search cmpZ (Some lo) (Some hi); l ← isl_collect cmpZ fuel it; mret (IslFound l)
  | IslCount lo hi => n ← tbx_isl_range_count cmpZ fuel (Some lo) (Some hi); mret (IslCode n)
  end.

Fixpoint isl_run (ops : list isl_op) : ST (isl Z R) (list isl_out) :=
  match ops with
  | [] => mret []
  | op :: ops => o ← isl_exec op; os ← isl_run ops; mret (o :: os)
  end.

(** The calls the drivers make on a table: they insert what meets nothing
    that is there, and remove what is there or what has no node. *)
Definition iv_legal (op : isl_op) (t : list R) : Prop :=
  match op with
  | IslInsert v => iv_lo v <= iv_hi v /\ Forall (fun w => ~ overlaps (iv_lo v) (iv_hi v) w) t
  | IslRemove v => v ∈ t \/ Forall (fun w => iv_lo w <> iv_lo v /\ iv_hi w <> iv_lo v) t
  | IslSearch lo hi | IslCount lo hi => lo <= hi + 1 \/ Forall (fun w => iv_hi w < lo) t
  end.

#[export] Instance iv_legal_dec op t : Decision (iv_legal op t).
Proof. destruct op; simpl; apply _. Defined.

(** The reference: the result, what is freed and the new table. *)
Definition iv_exec (op : isl_op) (t : list R) : isl_out * list R * list R :=
  match op with
  | IslInsert v => (IslCode 0, [], ivs_insert v t)
  | IslRemove v => if decide (v ∈ t) then (IslCode 0, [v], filter (fun w => w <> v) t) else (IslCode 1, [], t)
  | IslSearch lo hi => (IslFound (filter (overlaps lo hi) t), [], t)
  | IslCount lo hi => (IslCode (Z.of_nat (length (filter (overlaps lo hi) t))), [], t)
  end.

Fixpoint iv_run (ops : list isl_op) (t : list R) : option (list isl_out * list R * list R) :=
  match ops with
  | [] => Some ([], [], t)
  | op :: ops =>
    if decide (iv_legal op t) then
      let '(o, f, t) := iv_exec op t in
      '(os, f', t) ← iv_run ops t; Some (o :: os, f ++ f', t)
    else None
  end.

Lemma isl_exec_ok op s l t :
  isl_holds s l t -> iv_legal op t ->
  let '(o, f, t') := iv_exec op t in
  exists s' l', isl_exec op s = Ok (o, s') /\ isl_holds s' l' t' /\ isl_freed s' = isl_freed s ++ f.
Proof.
  intros Hh Hleg. pose proof (ih_count _ _ _ Hh) as Hn.
  assert (Hf : (length t < S (Z.to_nat (n_intervals s)))%nat) by lia. unfold isl_exec. erewrite st_bind_ok; [|done]. cbn beta zeta.
  destruct op as [v|v|lo hi|lo hi]; cbn [iv_exec iv_legal] in *; [destruct Hleg as [Hv Hd]| |..]; rewrite ?Forall_forall in *.
  - destruct (isl_insert_ok below_p s l t v Hh Hv Hd) as (s' & l' & E & Hh' & Hfr). exists s', l'. rewrite (st_bind_ok _ _ _ _ _ E), app_nil_r. by split.
  - case_decide as Hin.
    + destruct (isl_remove_ok s l t v Hh Hin) as (s' & l' & E & Hh' & Hfr). exists s', l'. by rewrite (st_bind_ok _ _ _ _ _ E).
    + destruct Hleg as [?|Hno]; [done|]. exists s, l. rewrite app_nil_r.
      by rewrite (st_bind_ok _ _ _ _ _ (isl_remove_missing s l t v Hh Hno)).
  - destruct (isl_search_ok s l t lo hi Hh Hleg) as (it & E & Hc). exists s, l. rewrite (st_bind_ok _ _ _ _ _ E), app_nil_r.
    by rewrite (st_bind_ok _ _ _ _ _ (Hc _ Hf)).
  - exists s, l. by rewrite (st_bind_ok _ _ _ _ _ (isl_count_ok s l t lo hi _ Hh Hleg Hf)), app_nil_r.
Qed.

Lemma isl_run_ok ops s l t os f t' :
  isl_holds s l t -> iv_run ops t = Some (os, f, t') ->
  exists s' l', isl_run ops s = Ok (os, s') /\ isl_holds s' l' t' /\ isl_freed s' = isl_freed s ++ f.
Proof.
  revert s l t os f. induction ops as [|op ops IH]; intros s l t os f Hh E; simpl in E.
  - injection E as <- <- <-. exists s, l. by rewrite app_nil_r.
  - case_decide as Hleg; [|done]. pose proof (isl_exec_ok op s l t Hh Hleg) as Hex. destruct (iv_exec op t) as [[o f1] t1].
    destruct Hex as (s1 & l1 & E1 & Hh1 & Hf1). destruct (iv_run ops t1) as [[[os2 f2] t2]|] eqn:E2; [|done]. injection E as <- <- <-.
    destruct (IH s1 l1 t1 os2 f2 Hh1 E2) as (s2 & l2 & Er & Hh2 & Hf2). exists s2, l2. simpl. rewrite (st_bind_ok _ _ _ _ _ E1), (st_bind_ok _ _ _ _ _ Er).
    split; [done|]. split; [done|]. by rewrite Hf2, Hf1, (assoc_L (++)).
Qed.

(** C18: whatever numbers are drawn for the levels, any legal sequence of
    calls on a new interval skip list runs without a fault and returns what
    the reference returns on the ordered table of its intervals: insertions
    and removals their codes, searches the intervals that meet the range, in
    order, and counts their number.  The data freed and the number of
    intervals are the reference's.  Legal are insertions of intervals that meet
    none in the list, removals of intervals that are in it or whose lower end
    is no end of one in it, and searches and counts for ranges whose ends are
    in order or which start after all intervals. *)
Theorem isl_refines ops os f t :
  iv_run ops [] = Some (os, f, t) ->
  exists s0 s, tbx_isl_new = Ok s0 /\ isl_run ops s0 = Ok (os, s) /\
    isl_table s = t /\ isl_freed s = f /\ n_intervals s = Z.of_nat (length t).
Proof.
  intros E. destruct (isl_new_holds (R := R)) as (s0 & E0 & Hh0 & Hf0). destruct (isl_run_ok ops s0 [] [] os f t Hh0 E) as (s & l & Er & Hh & Hf).
  exists s0, s. split; [done|]. split; [done|]. split; [by apply (isl_table_ok s l)|]. rewrite Hf0 in Hf. split; [done|apply (ih_count _ _ _ Hh)].
Qed.

End sequences.

(** Intervals that are nothing but their ends. *)
Definition ends : Type := Z * Z.
#[export] Instance ends_range : HasRange ends := { iv_lo := fst; iv_hi := snd }.
#[export] Instance ends_eq_dec : EqDecision ends.
Proof. unfold ends. apply _. Defined.

Definition isl_example_ops : list (isl_op (R := ends)) :=
  [IslInsert (10, 19); IslInsert (30, 39); IslInsert (5, 5); IslSearch 15 30; IslRemove (10, 19); IslRemove (7, 8); IslInsert (6, 29); IslCount 5 6; IslSearch 7 7].

Lemma isl_refines_witness :
  exists s0 s, tbx_isl_new = Ok s0 /\
    isl_run (fun n => (n mod 3 =? 0)%nat) isl_example_ops s0 =
      Ok ([IslCode 0; IslCode 0; IslCode 0; IslFound [(10, 19); (30, 39)]; IslCode 0; IslCode 1; IslCode 0; IslCode 2; IslFound [(6, 29)]], s) /\
    isl_table s = [(5, 5); (6, 29); (30, 39)] /\ isl_freed s = [(10, 19)] /\ n_intervals s = 3.
Proof.
  exact (isl_refines (fun n => (n mod 3 =? 0)%nat) isl_example_ops
    [IslCode 0; IslCode 0; IslCode 0; IslFound [(10, 19); (30, 39)]; IslCode 0; IslCode 1; IslCode 0; IslCode 2; IslFound [(6, 29)]]
    [(10, 19)] [(5, 5); (6, 29); (30, 39)] eq_refl).
Defined.

(** Calls outside the legal ones.  Removing an interval that is not there but
    starts at the end of one that is returns 1 like any other failure, after it
    has lowered the count and freed the data it was given; *)
Lemma isl_remove_absent :
  exists s0 s, tbx_isl_new = Ok s0 /\ isl_run (fun n => (n mod 3 =? 0)%nat) [IslInsert (10, 19); IslRemove (10, 15)] s0 = Ok ([IslCode 0; IslCode 1], s) /\
    isl_table s = [(10, 19)] /\ isl_freed s = [(10, 15)] /\ n_intervals s = 0.
Proof. eexists _, _. split; [reflexivity|]. split; [vm_compute; reflexivity|]. by vm_compute. Qed.

(** and a search for a range that ends before it starts can give an interval. *)
Lemma isl_search_reversed :
  exists s0 s, tbx_isl_new = Ok s0 /\ isl_run (fun n => (n mod 3 =? 0)%nat) [IslInsert (10, 19); IslInsert (30, 39); IslInsert (50, 59); IslSearch 35 5] s0 =
    Ok ([IslCode 0; IslCode 0; IslCode 0; IslFound [(30, 39)]], s).
Proof. eexists _, _. split; [reflexivity|]. vm_compute; reflexivity. Qed.
