(* ===== verification/LogIndex.v ===== *)
(** * The log segment over the interval skip list

    [lio/segment/log.c] creates its [mapping] with [tbx_isl_new] and the
    comparison [skiplist_compare_ex_off].  The theorems of [SegLog] hold for
    every [IntervalIndex]; here the index is the one of [IntervalSkipList],
    so that what concurrent writers leave behind is looked up by the code of
    [tbx_isl_iter_search] and [tbx_isl_next]. *)
From S2P Require Import Prelude IntervalIndex ByteSegment SegLog SkipList IntervalSkipList.
Local Open Scope Z_scope.

Section log.
Context {S : Type} `{!Segment S} `{!SegmentLaws S} (below_p : nat -> bool).

#[local] Instance mapping_index : IntervalIndex (isl Z slog_range) slog_range := isl_index below_p.
#[local] Instance mapping_laws : IntervalIndexLaws (isl Z slog_range) slog_range := isl_index_laws below_p.

Implicit Types (s : seglog_priv (isl Z slog_range) S).

(** All the ranges the mapping has for the bytes from [lo] to [hi]. *)
Definition mapped (fuel : nat) (lo hi : Z) : ST (isl Z slog_range) (list slog_range) :=
  it ← tbx_isl_iter_search skiplist_compare_fn_ex_off (Some lo) (Some hi);
  isl_collect skiplist_compare_fn_ex_off fuel it.

Lemma mapped_ok s lo hi fuel :
  slog_wf s -> lo <= hi + 1 -> (Z.to_nat (n_intervals (mapping s)) < fuel)%nat ->
  mapped fuel lo hi (mapping s) = Ok (ix_search lo hi (mapping s), mapping s).
Proof.
  intros [(l & t & Hh) _ _ _] Hlo Hf. pose proof (ih_count _ _ _ Hh) as Hn.
  assert (Hse : searchable lo hi t) by (by left). destruct (isl_search_ok _ l t lo hi Hh Hse) as (it & E & Hc).
  unfold mapped. rewrite (st_bind_ok _ _ _ _ _ E), (Hc fuel) by lia. do 2 f_equal. cbn [ix_search mapping_index isl_index].
  unfold isl_search. rewrite (st_bind_ok _ _ _ _ _ E), (isl_table_ok _ l t Hh). by rewrite (Hc (Datatypes.S (length t))) by lia.
Qed.

Lemma made_wf table data base : 0 <= seg_size base -> slog_wf (slog_make table data base).
Proof.
  intros Hb. destruct (ix_empty_ok (M := isl Z slog_range)) as [Hok Hl].
  assert (Hno : forall v : slog_range, v ∈ ix_list ix_empty -> False) by (intros v; rewrite Hl; apply not_elem_of_nil).
  split; [exact Hok|by intros v ?%Hno|by intros v ?%Hno|]. simpl. lia.
Qed.

Lemma made_view table data base : slog_view (slog_make table data base) = seg_byte base.
Proof. reflexivity. Qed.

(** A byte is in one range at most. *)
Lemma one_range s x :
  slog_wf s -> match ix_search x x (mapping s) with [] => True | [r] => sr_lo r <= x <= sr_hi r | _ => False end.
Proof.
  intros [Hok _ _ _]. assert (Hse : searchable x x (ix_list (mapping s))) by (left; lia).
  pose proof (ix_search_ivs _ x x Hok Hse) as Hivs. assert (Hin : forall r, r ∈ ix_search x x (mapping s) -> sr_lo r <= x <= sr_hi r).
  { intros r [Ho _]%(ix_search_elem _ x x r Hok Hse). unfold overlaps in Ho. simpl in Ho. lia. }
  destruct (ix_search x x (mapping s)) as [|r [|r' l]]; [done|apply Hin; by left|].
  apply ivs_ok_cons in Hivs as (_ & Hb & _). apply Forall_cons in Hb as [Hb _]. unfold before in Hb. simpl in Hb.
  pose proof (Hin r ltac:(by left)). pose proof (Hin r' ltac:(right; by left)). lia.
Qed.

(** C24: From a new log on, whatever the interleaving of concurrent writers
    and the levels drawn in the skip list, the search for a byte returns and
    finds at most one range; the byte there in the data segment, or the one
    of the base when there is no range, is the byte of a plain file to which
    the writes were applied whole, one after the other. *)
Theorem log_lookup table data base ws y :
  0 <= seg_size base -> log_run (LogSys (slog_make table data base) ∅) ws y ->
  let s := sys_log y in
  let fn := foldl apply_write (seg_byte base, seg_size base) ws in
  file_size s = fn.2 /\
  forall x fuel, (Z.to_nat (n_intervals (mapping s)) < fuel)%nat ->
    exists l, mapped fuel x x (mapping s) = Ok (l, mapping s) /\
      match l with
      | [] => fn.1 x = seg_byte (base_seg s) x
      | [r] => sr_lo r <= x <= sr_hi r /\ fn.1 x = seg_byte (data_seg s) (sr_data_offset r + (x - sr_lo r))
      | _ => False
      end.
Proof.
  intros Hb Hrun. destruct (log_run_shows _ ws y (made_wf table data base Hb) Hrun) as [Hok Hsh]. rewrite made_view in Hsh.
  destruct Hsh as [Hv Hn]. split; [exact Hn|]. intros x fuel Hf. pose proof (so_wf _ Hok) as Hwf.
  exists (ix_search x x (mapping (sys_log y))). split; [apply mapped_ok; [done|lia|done]|].
  pose proof (one_range _ x Hwf) as Hone. rewrite <- Hv. unfold slog_view, slog_addr.
  destruct (ix_search x x (mapping (sys_log y))) as [|r [|r' l]]; [done|by split|done].
Qed.

End log.

(** ** A concrete run *)
Section example.
Definition draws (n : nat) : bool := (n mod 3 =? 0)%nat.
#[local] Instance example_index : IntervalIndex (isl Z slog_range) slog_range := mapping_index draws.

Definition isl_log : seglog_priv (isl Z slog_range) memseg := slog_make (seg_of []) (seg_of []) (seg_of (seqZ 10 10)).

(** One writer of the bytes 2 to 4, in its three stages. *)
Definition first_job : write_job := (write_reserve [(2, 3)] isl_log).1.
Definition first_writer (stored : bool) : writer := Writer [(2, 3)] (Z.add 101) 0 first_job stored.
Definition isl_log_reserved : seglog_priv (isl Z slog_range) memseg := (write_reserve [(2, 3)] isl_log).2.
Definition isl_log_stored : seglog_priv (isl Z slog_range) memseg := (write_io first_job (Z.add 101) 0 isl_log_reserved).2.

Lemma first_run : exists s, log_run (LogSys isl_log ∅) [first_writer true] (LogSys s ∅) /\ n_intervals (mapping s) = 1.
Proof.
  destruct (write_commit first_job isl_log_stored) as [s|] eqn:Hc; [|by vm_compute in Hc]. exists s. split; [|vm_compute in Hc; by injection Hc as <-].
  apply (run_snoc (LogSys isl_log ∅) [] (LogSys isl_log_stored {[0%nat := first_writer true]}) (Some (first_writer true))).
  - apply (run_snoc (LogSys isl_log ∅) [] (LogSys isl_log_reserved {[0%nat := first_writer false]}) None).
    + apply (run_snoc (LogSys isl_log ∅) [] (LogSys isl_log ∅) None); [constructor|].
      apply (step_reserve isl_log ∅ 0%nat); [done| |done]. repeat constructor; done.
    + pose proof (step_store isl_log_reserved {[0%nat := first_writer false]} 0%nat [(2, 3)] (Z.add 101) 0 first_job isl_log_stored) as Hst.
      rewrite insert_singleton_eq in Hst. apply Hst; [done|by vm_compute].
  - pose proof (step_commit isl_log_stored {[0%nat := first_writer true]} 0%nat (first_writer true) s) as Hst.
    rewrite delete_singleton_eq in Hst. by apply Hst.
Qed.

Lemma log_lookup_witness :
  exists s, log_run (LogSys isl_log ∅) [first_writer true] (LogSys s ∅) /\
    exists l, mapped 2 3 3 (mapping s) = Ok (l, mapping s) /\
      match l with
      | [] => file_write [(2, 3)] (Z.add 101) 0 (seg_byte (seg_of (seqZ 10 10))) 3 = seg_byte (base_seg s) 3
      | [r] => sr_lo r <= 3 <= sr_hi r /\
          file_write [(2, 3)] (Z.add 101) 0 (seg_byte (seg_of (seqZ 10 10))) 3 = seg_byte (data_seg s) (sr_data_offset r + (3 - sr_lo r))
      | _ => False
      end.
Proof.
  destruct first_run as (s & Hrun & Hn). exists s. split; [exact Hrun|].
  refine (proj2 (log_lookup draws (seg_of []) (seg_of []) (seg_of (seqZ 10 10)) [first_writer true] (LogSys s ∅) _ Hrun) 3 2%nat _).
  - by vm_compute.
  - cbn [sys_log]. rewrite Hn. simpl. lia.
Defined.

End example.
