(* ===== verification/Raid4.v ===== *)
(** * Parity over blocks ([lio/raid4.c])

    The routines work on blocks of bytes that the caller points to.  A block
    is a list of bytes at an address, and an access outside of one is a fault;
    the pointers of the caller are a list of addresses, which may repeat. *)
From S2P Require Import Prelude ByteSegment.
Local Open Scope Z_scope.

Abbreviation blocks := (gmap loc bytes).
Abbreviation blM := (ST blocks).

(** ** Access to blocks *)

Definition block_at (p : loc) : blM bytes := fun m =>
  match m !! p with Some b => Ok (b, m) | None => Fault BadPointer end.
Definition block_put (p : loc) (b : bytes) : blM unit := fun m => Ok (tt, <[p := b]> m).

(** [p[i]] and [p[i] = x]. *)
Definition byte_get (p : loc) (i : nat) : blM Z :=
  b ← block_at p;
  match b !! i with Some x => mret x | None => st_fail OutOfBounds end.
Definition byte_set (p : loc) (i : nat) (x : Z) : blM unit :=
  b ← block_at p;
  if decide (i < length b)%nat then block_put p (<[i := x]> b) else st_fail OutOfBounds.

(** [memcpy(dst, src, n)]; a negative size is one beyond any block. *)
Definition block_copy (dst src : loc) (n : Z) : blM unit :=
  s ← block_at src;
  d ← block_at dst;
  if decide (0 <= n <= Z.of_nat (length s) /\ n <= Z.of_nat (length d))
  then block_put dst (take (Z.to_nat n) s ++ drop (Z.to_nat n) d)
  else st_fail OutOfBounds.

(** [ptr[i]]. *)
Definition ptr_at (ptr : list loc) (i : Z) : blM loc :=
  if i <? 0 then st_fail OutOfBounds else
  match ptr !! Z.to_nat i with Some p => mret p | None => st_fail OutOfBounds end.

(** ** The code *)

(** [n] more bytes from [i] on. *)
Fixpoint xor_loop (n i : nat) (data parity : loc) : blM unit :=
  match n with
  | O => mret tt
  | S n =>
    x ← byte_get parity i;
    y ← byte_get data i;
    _ ← byte_set parity i (Z.lxor x y);
    xor_loop n (S i) data parity
  end.

Definition xor_block (data parity : loc) (nbytes : Z) : blM unit := xor_loop (Z.to_nat nbytes) 0 data parity.

(** [for (i = from; n steps; i++) xor_block(data[i], p, size)]. *)
Fixpoint encode_loop (n : nat) (from : Z) (data : list loc) (p : loc) (block_size : Z) : blM unit :=
  match n with
  | O => mret tt
  | S n =>
    d ← ptr_at data from;
    _ ← xor_block d p block_size;
    encode_loop n (from + 1) data p block_size
  end.

Definition raid4_encode (data_strips : Z) (data parity : list loc) (block_size : Z) : blM unit :=
  p ← ptr_at parity 0;
  d ← ptr_at data 0;
  _ ← block_copy p d block_size;
  encode_loop (Z.to_nat (data_strips - 1)) 1 data p block_size.

(** The blocks other than [k] are added to block [k]. *)
Fixpoint decode_loop (n : nat) (from k : Z) (data : list loc) (p : loc) (block_size : Z) : blM unit :=
  match n with
  | O => mret tt
  | S n =>
    _ ← (if from =? k then mret tt else d ← ptr_at data from; xor_block d p block_size);
    decode_loop n (from + 1) k data p block_size
  end.

(** [erasures] is the array as far as it has been written. *)
Definition erasure_at (erasures : list Z) (i : nat) : blM Z :=
  match erasures !! i with Some e => mret e | None => st_fail Uninitialised end.

Definition raid4_decode (data_strips : Z) (erasures : list Z) (data parity : list loc) (block_size : Z) : blM Z :=
  e1 ← erasure_at erasures 1;
  if negb (e1 =? -1) then mret (-1) else
  k ← erasure_at erasures 0;
  if k >=? data_strips then mret 0 else
  dk ← ptr_at data k;
  p ← ptr_at parity 0;
  _ ← block_copy dk p block_size;
  _ ← decode_loop (Z.to_nat data_strips) 0 k data dk block_size;
  mret 0.

(** ** Sums of blocks *)

Definition xorb : bytes -> bytes -> bytes := zip_with Z.lxor.

(** The sum of blocks of [n] bytes. *)
Definition xsum (n : nat) (bs : list bytes) : bytes := foldr xorb (replicate n 0) bs.

Section sums.
Implicit Types (a b c : bytes) (bs : list bytes) (n : nat).

Lemma xorb_comm a b : xorb a b = xorb b a.
Proof. unfold xorb. revert b. induction a as [|x a IH]; intros [|y b]; simpl; try done. by rewrite Z.lxor_comm, IH. Qed.

Lemma xorb_assoc a b c : xorb a (xorb b c) = xorb (xorb a b) c.
Proof.
  unfold xorb. revert b c. induction a as [|x a IH]; intros [|y b] [|z c]; simpl; try done. by rewrite Z.lxor_assoc, IH.
Qed.

Lemma xorb_length n a b : length a = n -> length b = n -> length (xorb a b) = n.
Proof. intros. unfold xorb. rewrite length_zip_with. lia. Qed.

Lemma xorb_zero n a : length a = n -> xorb a (replicate n 0) = a.
Proof. intros <-. unfold xorb. induction a as [|x a IH]; simpl; [done|]. by rewrite Z.lxor_0_r, IH. Qed.

Lemma xorb_self n a : length a = n -> xorb a a = replicate n 0.
Proof. intros <-. unfold xorb. induction a as [|x a IH]; simpl; [done|]. by rewrite Z.lxor_nilpotent, IH. Qed.

(** A block added twice is gone. *)
Lemma xorb_cancel n a b : length a = n -> length b = n -> xorb (xorb a b) b = a.
Proof. intros. rewrite <- xorb_assoc, (xorb_self n), xorb_zero; done. Qed.

Lemma xsum_length n bs : Forall (fun b => length b = n) bs -> length (xsum n bs) = n.
Proof. induction 1; simpl; [apply length_replicate|by apply xorb_length]. Qed.

Lemma xsum_perm n bs bs' : bs ≡ₚ bs' -> xsum n bs = xsum n bs'.
Proof.
  induction 1 as [|b bs bs' _ IH|b b' bs|bs bs' bs'' _ IH1 _ IH2]; simpl; [done|by rewrite IH| |congruence].
  by rewrite !xorb_assoc, (xorb_comm b b').
Qed.

Lemma foldl_xorb n a bs :
  length a = n -> Forall (fun b => length b = n) bs -> foldl xorb a bs = xorb a (xsum n bs).
Proof.
  intros Ha Hbs. revert a Ha. induction Hbs as [|b bs Hb Hbs IH]; intros a Ha; simpl; [by rewrite xorb_zero|].
  rewrite IH by by apply xorb_length. by rewrite <- xorb_assoc.
Qed.

(** The sum of all blocks and all but one is the one. *)
Lemma xsum_recover n bs1 b bs2 :
  length b = n -> Forall (fun b => length b = n) (bs1 ++ bs2) -> xorb (xsum n (bs1 ++ b :: bs2)) (xsum n (bs1 ++ bs2)) = b.
Proof.
  intros Hb Hbs. rewrite (xsum_perm n (bs1 ++ b :: bs2) (b :: bs1 ++ bs2)) by (symmetry; apply Permutation_middle).
  simpl. by apply (xorb_cancel n), xsum_length.
Qed.

End sums.

(** ** What the routines do *)

(** The pointers [ptr] lead to the blocks [bs]. *)
Definition at_blocks (m : blocks) (ptr : list loc) (bs : list bytes) : Prop := Forall2 (fun p b => m !! p = Some b) ptr bs.

Section behaviour.
Implicit Types (m : blocks) (p d : loc) (ptr : list loc) (b : bytes) (bs : list bytes) (n : nat).

Lemma block_at_ok m p b : m !! p = Some b -> block_at p m = Ok (b, m).
Proof. intros E. unfold block_at. by rewrite E. Qed.

Lemma ptr_at_ok ptr (i : nat) p m : ptr !! i = Some p -> ptr_at ptr (Z.of_nat i) m = Ok (p, m).
Proof. intros E. unfold ptr_at. rewrite (proj2 (Z.ltb_ge _ _)), Nat2Z.id, E by lia. done. Qed.

Lemma block_copy_ok dst src n b b' m :
  m !! src = Some b -> m !! dst = Some b' -> (n <= length b)%nat -> (n <= length b')%nat ->
  block_copy dst src (Z.of_nat n) m = Ok (tt, <[dst := take n b ++ drop n b']> m).
Proof.
  intros Hs Hd H1 H2. unfold block_copy. rewrite (st_bind_ok _ _ _ _ _ (block_at_ok m src b Hs)), (st_bind_ok _ _ _ _ _ (block_at_ok m dst b' Hd)).
  rewrite decide_True by lia. by rewrite Nat2Z.id.
Qed.

Lemma xor_loop_ok n i d p b b' m :
  d <> p -> m !! d = Some b -> m !! p = Some b' -> (i + n <= length b)%nat -> (i + n <= length b')%nat ->
  xor_loop n i d p m = Ok (tt, <[p := take i b' ++ xorb (take n (drop i b')) (take n (drop i b)) ++ drop (i + n) b']> m).
Proof.
  revert i b' m. induction n as [|n IH]; intros i b' m Hne Hd Hp Hl Hl'.
  - rewrite Nat.add_0_r, !take_0. cbn [xorb zip_with app]. by rewrite take_drop, insert_id.
  - destruct (lookup_lt_is_Some_2 b i ltac:(lia)) as [y Hy]. destruct (lookup_lt_is_Some_2 b' i ltac:(lia)) as [x Hx].
    cbn [xor_loop].
    erewrite st_bind_ok; [|unfold byte_get; rewrite (st_bind_ok _ _ _ _ _ (block_at_ok m p b' Hp)), Hx; done].
    erewrite st_bind_ok; [|unfold byte_get; rewrite (st_bind_ok _ _ _ _ _ (block_at_ok m d b Hd)), Hy; done].
    erewrite st_bind_ok; [|unfold byte_set; rewrite (st_bind_ok _ _ _ _ _ (block_at_ok m p b' Hp)), decide_True by lia; done].
    rewrite (IH _ (<[i := Z.lxor x y]> b')); [|done|by rewrite lookup_insert_ne|by rewrite lookup_insert_eq|lia|rewrite length_insert; lia].
    rewrite insert_insert_eq. do 3 f_equal. rewrite (drop_S b' x i Hx), (drop_S b y i Hy). simpl.
    rewrite (take_S_r _ i (Z.lxor x y)) by (by rewrite list_lookup_insert_eq by lia).
    rewrite take_insert_ge, !drop_insert_lt by lia. rewrite <- (assoc_L (++)). simpl. by replace (i + S n)%nat with (S (i + n)) by lia.
Qed.

Lemma xor_block_ok n d p b b' m :
  d <> p -> m !! d = Some b -> m !! p = Some b' -> (n <= length b)%nat -> (n <= length b')%nat ->
  xor_block d p (Z.of_nat n) m = Ok (tt, <[p := xorb (take n b') (take n b) ++ drop n b']> m).
Proof. intros. unfold xor_block. rewrite Nat2Z.id. by rewrite (xor_loop_ok n 0 d p b b'). Qed.

Lemma at_blocks_insert m ptr bs p b : at_blocks m ptr bs -> p ∉ ptr -> at_blocks (<[p := b]> m) ptr bs.
Proof.
  induction 1 as [|q b' ptr bs Hq _ IH]; intros Hp; [constructor|]. apply not_elem_of_cons in Hp as [Hne Hp].
  constructor; [by rewrite lookup_insert_ne|by apply IH].
Qed.

Definition long (n : nat) bs : Prop := Forall (fun b => (n <= length b)%nat) bs.

Lemma encode_loop_decode r from data p size m : 0 <= from -> encode_loop r from data p size m = decode_loop r from (-1) data p size m.
Proof.
  revert from m. induction r as [|r IH]; intros from m Hf; [done|]. cbn [encode_loop decode_loop]. rewrite (proj2 (Z.eqb_neq from (-1))) by lia.
  unfold mbind, st_bind. destruct (ptr_at data from m) as [[d m1]|]; [|done]. destruct (xor_block d p size m1) as [[? m2]|]; [|done]. apply IH. lia.
Qed.

(** The loop over a part of the blocks that does not have block [k]. *)
Lemma decode_part r pre l post k p bp lb n m :
  at_blocks m l lb -> p ∉ l -> m !! p = Some bp -> long n lb -> (n <= length bp)%nat ->
  ~ (Z.of_nat (length pre) <= k < Z.of_nat (length pre + length l)) ->
  decode_loop (length l + r) (Z.of_nat (length pre)) k (pre ++ l ++ post) p (Z.of_nat n) m =
  decode_loop r (Z.of_nat (length pre + length l)) k (pre ++ l ++ post) p (Z.of_nat n)
    (<[p := foldl xorb (take n bp) (take n <$> lb) ++ drop n bp]> m).
Proof.
  revert pre bp lb m. induction l as [|d l IH]; intros pre bp lb m Hl Hp Hbp Hlong Hn Hk.
  - inversion Hl; subst. cbn [foldl fmap list_fmap length Nat.add]. by rewrite take_drop, insert_id, Nat.add_0_r.
  - inversion Hl as [|? b ? lb' Hd Hl']; subst. apply not_elem_of_cons in Hp as [Hne Hp]. apply Forall_cons in Hlong as [Hb Hlong].
    cbn [length Nat.add decode_loop] in *. rewrite (proj2 (Z.eqb_neq _ k)) by lia.
    assert (Hptr : (pre ++ (d :: l) ++ post) !! length pre = Some d) by (by rewrite lookup_app_r, Nat.sub_diag by lia).
    erewrite st_bind_ok; [|rewrite (st_bind_ok _ _ _ _ _ (ptr_at_ok _ _ d m Hptr)); by apply (xor_block_ok n d p b bp)].
    assert (Hlx : length (xorb (take n bp) (take n b)) = n) by (apply xorb_length; rewrite length_take; lia).
    replace (Z.of_nat (length pre) + 1) with (Z.of_nat (length (pre ++ [d]))) by (rewrite length_app; simpl; lia).
    replace (pre ++ (d :: l) ++ post) with ((pre ++ [d]) ++ l ++ post) by (by rewrite <- (assoc_L (++))).
    rewrite (IH (pre ++ [d]) (xorb (take n bp) (take n b) ++ drop n bp) lb'); [|by apply at_blocks_insert|done|by rewrite lookup_insert_eq|done|..].
    + rewrite insert_insert_eq. rewrite take_app_length', drop_app_length' by done. rewrite fmap_cons. cbn [foldl].
      do 2 f_equal. rewrite length_app. simpl. lia.
    + rewrite length_app. lia.
    + rewrite length_app. simpl. lia.
Qed.

Lemma long_take n bs : long n bs -> Forall (fun b => length b = n) (take n <$> bs).
Proof. intros Hl. apply Forall_fmap. eapply Forall_impl; [exact Hl|]. intros b Hb. unfold compose. cbn beta in *. rewrite length_take. lia. Qed.

(** Encoding leaves the sum of the data in the parity block; pointers behind
    those of the data are not looked at. *)
Lemma raid4_encode_ok n data more p ps bs bp m :
  data <> [] -> at_blocks m data bs -> p ∉ data -> m !! p = Some bp -> long n bs -> (n <= length bp)%nat ->
  raid4_encode (Z.of_nat (length data)) (data ++ more) (p :: ps) (Z.of_nat n) m = Ok (tt, <[p := xsum n (take n <$> bs) ++ drop n bp]> m).
Proof.
  intros Hne Hat Hp Hbp Hlong Hn. destruct data as [|d data]; [done|]. inversion Hat as [|? b ? bs' Hd Hat']; subst.
  apply not_elem_of_cons in Hp as [Hpd Hp]. apply Forall_cons in Hlong as [Hb Hlong].
  unfold raid4_encode. rewrite (st_bind_ok _ _ _ _ _ (ptr_at_ok (p :: ps) 0 p m eq_refl)), (st_bind_ok _ _ _ _ _ (ptr_at_ok ((d :: data) ++ more) 0 d m eq_refl)).
  rewrite (st_bind_ok _ _ _ _ _ (block_copy_ok p d n b bp m Hd Hbp Hb Hn)). rewrite encode_loop_decode by lia.
  assert (Hlt : length (take n b) = n) by (rewrite length_take; lia).
  pose proof (decode_part 0 [d] data more (-1) p (take n b ++ drop n bp) bs' n (<[p := take n b ++ drop n bp]> m)) as Hdp.
  rewrite Nat.add_0_r in Hdp. cbn [app] in Hdp |- *. change (Z.of_nat (length [d])) with 1 in Hdp. replace (Z.to_nat (Z.of_nat (length (d :: data)) - 1)) with (length data) by (simpl; lia).
  rewrite Hdp; [|by apply at_blocks_insert|done|by rewrite lookup_insert_eq|done|rewrite length_app; lia|simpl; lia].
  cbn [decode_loop]. rewrite insert_insert_eq, take_app_length', drop_app_length' by done.
  rewrite (foldl_xorb n) by (done || by apply long_take). by rewrite fmap_cons.
Qed.

(** Decoding rebuilds a lost data block from the others and the parity. *)
Lemma raid4_decode_ok n (d1 : list loc) d (d2 more : list loc) p ps es bs1 b bs2 bp m :
  at_blocks m d1 bs1 -> at_blocks m d2 bs2 -> m !! d = Some b -> m !! p = Some bp -> NoDup (d1 ++ d :: d2) ->
  long n (bs1 ++ bs2) -> (n <= length b)%nat -> (n <= length bp)%nat ->
  raid4_decode (Z.of_nat (length (d1 ++ d :: d2))) (Z.of_nat (length d1) :: -1 :: es) (d1 ++ d :: d2 ++ more) (p :: ps) (Z.of_nat n) m =
    Ok (0, <[d := xorb (take n bp) (xsum n (take n <$> bs1 ++ bs2)) ++ drop n b]> m).
Proof.
  intros Hat1 Hat2 Hd Hp Hnd Hlong Hb Hbp. apply NoDup_app in Hnd as (_ & Hnd1 & Hnd). apply NoDup_cons in Hnd as [Hnd2 _].
  assert (Hdn : d ∉ d1) by (intros Hin; apply (Hnd1 d Hin); by left). apply Forall_app in Hlong as [Hl1 Hl2].
  unfold raid4_decode. erewrite st_bind_ok; [|done]. cbn [Z.eqb negb Pos.eqb]. erewrite st_bind_ok; [|done].
  rewrite Z.geb_leb, (proj2 (Z.leb_gt _ _)) by (rewrite length_app; simpl; lia).
  assert (Hptr : (d1 ++ d :: d2 ++ more) !! length d1 = Some d) by (by rewrite lookup_app_r, Nat.sub_diag by lia).
  rewrite (st_bind_ok _ _ _ _ _ (ptr_at_ok _ _ d m Hptr)).
  rewrite (st_bind_ok _ _ _ _ _ (ptr_at_ok (p :: ps) 0 p m eq_refl)), (st_bind_ok _ _ _ _ _ (block_copy_ok d p n bp b m Hp Hd Hbp Hb)).
  assert (Hlt : length (take n bp) = n) by (rewrite length_take; lia).
  erewrite st_bind_ok; [reflexivity|]. rewrite Nat2Z.id, length_app.
  pose proof (decode_part (S (length d2)) [] d1 (d :: d2 ++ more) (Z.of_nat (length d1)) d (take n bp ++ drop n b) bs1 n (<[d := take n bp ++ drop n b]> m)) as E1.
  cbn [length app Nat.add] in E1. change (Z.of_nat 0) with 0 in E1. cbn [length]. rewrite E1; [|by apply at_blocks_insert|done|by rewrite lookup_insert_eq|done|rewrite length_app; lia|lia].
  rewrite insert_insert_eq, take_app_length', drop_app_length' by done. set (x1 := foldl xorb (take n bp) (take n <$> bs1)).
  assert (Hx1 : length x1 = n) by (unfold x1; rewrite (foldl_xorb n) by (done || by apply long_take); apply xorb_length; [done|by apply xsum_length, long_take]).
  cbn [decode_loop]. rewrite Z.eqb_refl. erewrite st_bind_ok; [|done].
  pose proof (decode_part 0 (d1 ++ [d]) d2 more (Z.of_nat (length d1)) d (x1 ++ drop n b) bs2 n (<[d := x1 ++ drop n b]> m)) as E2.
  rewrite Nat.add_0_r, <- (assoc_L (++)), !length_app in E2. cbn [app length] in E2.
  replace (Z.of_nat (length d1) + 1) with (Z.of_nat (length d1 + 1)) by lia.
  rewrite E2; [|by apply at_blocks_insert|done|by rewrite lookup_insert_eq|done|lia|lia].
  cbn [decode_loop]. rewrite insert_insert_eq, take_app_length', drop_app_length' by done. unfold x1.
  rewrite <- foldl_app, <- fmap_app, (foldl_xorb n) by (done || apply long_take, Forall_app; done). done.
Qed.

(** One lost data block is rebuilt: after the parity of any number of
    blocks was stored, whatever then happens to one data block, decoding with
    that block as the only erasure returns 0 and leaves every block as it was
    after the encoding. *)
Theorem raid4_recovers n (d1 : list loc) d (d2 more : list loc) p ps es bs1 b bs2 bp lost m :
  at_blocks m (d1 ++ d :: d2) (bs1 ++ b :: bs2) -> length d1 = length bs1 -> m !! p = Some bp -> NoDup (p :: d1 ++ d :: d2) ->
  long n (bs1 ++ b :: bs2) -> (n <= length bp)%nat -> length lost = n ->
  exists m', raid4_encode (Z.of_nat (length (d1 ++ d :: d2))) ((d1 ++ d :: d2) ++ more) (p :: ps) (Z.of_nat n) m = Ok (tt, m') /\
    raid4_decode (Z.of_nat (length (d1 ++ d :: d2))) (Z.of_nat (length d1) :: -1 :: es) (d1 ++ d :: d2 ++ more) (p :: ps) (Z.of_nat n)
      (<[d := lost ++ drop n b]> m') = Ok (0, m').
Proof.
  intros Hat Hlen Hp [Hpn Hnd]%NoDup_cons Hlong Hbp Hlost.
  eexists. split; [by eapply (raid4_encode_ok n _ more p ps _ bp m); [by destruct d1|..]|].
  apply Forall2_app_inv in Hat as [Hat1 Hat]; [|done]. apply Forall2_cons in Hat as [Hd Hat2].
  pose proof Hlong as [Hl1 [Hb Hl2]%Forall_cons]%Forall_app. assert (Hpd : p <> d /\ p ∉ d1 /\ p ∉ d2) by set_solver.
  assert (Hdn : d ∉ d1 /\ d ∉ d2) by (apply NoDup_app in Hnd as (_ & Hx & [Hy _]%NoDup_cons); set_solver).
  set (par := xsum n (take n <$> bs1 ++ b :: bs2)) in *. assert (Hpar : length par = n) by (by apply xsum_length, long_take).
  erewrite (raid4_decode_ok n d1 d d2 more p ps es bs1 (lost ++ drop n b) bs2 (par ++ drop n bp)).
  - rewrite take_app_length', drop_app_length' by done. unfold par at 1. rewrite !fmap_app, fmap_cons. rewrite xsum_recover.
    + rewrite take_drop, insert_insert_eq, insert_insert_ne by naive_solver. by rewrite (insert_id m d b).
    + rewrite length_take. lia.
    + rewrite <- fmap_app. by apply long_take, Forall_app.
  - apply at_blocks_insert; [|apply Hdn]. by apply at_blocks_insert; [|apply Hpd].
  - apply at_blocks_insert; [|apply Hdn]. by apply at_blocks_insert; [|apply Hpd].
  - by rewrite lookup_insert_eq.
  - rewrite lookup_insert_ne by naive_solver. by rewrite lookup_insert_eq.
  - done.
  - by apply Forall_app.
  - rewrite length_app. lia.
  - rewrite length_app. lia.
Qed.

End behaviour.

Lemma raid4_recovers_witness :
  exists m', raid4_encode 3 [1; 2; 3; 4]%positive [4]%positive 2 {[1%positive := [5; 6]; 2%positive := [7; 8]; 3%positive := [9; 10]; 4%positive := [0; 0]]} = Ok (tt, m') /\
    raid4_decode 3 [1; -1] [1; 2; 3; 4]%positive [4]%positive 2 (<[2%positive := [255; 255]]> m') = Ok (0, m').
Proof.
  apply (raid4_recovers 2 [1%positive] 2%positive [3%positive] [4%positive] 4%positive [] [] [[5; 6]] [7; 8] [[9; 10]] [0; 0] [255; 255]);
    [by repeat constructor|done|done|apply (bool_decide_unpack _); by vm_compute|by repeat constructor|done..].
Defined.
