(* ===== verification/ErasureTools.v ===== *)
(** * Erasure plans ([lio/erasure_tools.c])

    A plan names a code, the number of data and parity strips, and the sizes
    a file is cut into.  The codes of the Jerasure library are parameters
    (class [Jerasure]); the code [raid4] is the one of [Raid4].  Files are
    lists of bytes, and the blocks a routine works on are those of [Raid4]. *)
From Stdlib Require Import Znumtheory Ascii String Floats.SpecFloat.
From S2P Require Import Prelude ByteSegment Raid4.
Local Open Scope Z_scope.

(** ** The Jerasure library *)

(** The calls the plans make; an array it returns can be [NULL]. *)
Class Jerasure (matrix schedule : Type) := {
  reed_sol_r6_coding_matrix : Z -> Z -> option matrix;
  reed_sol_vandermonde_coding_matrix : Z -> Z -> Z -> option matrix;
  cauchy_original_coding_matrix : Z -> Z -> Z -> option matrix;
  cauchy_good_general_coding_matrix : Z -> Z -> Z -> option matrix;
  jerasure_matrix_to_bitmatrix : Z -> Z -> Z -> option matrix -> option matrix;
  blaum_roth_coding_bitmatrix : Z -> Z -> option matrix;
  liberation_coding_bitmatrix : Z -> Z -> option matrix;
  liber8tion_coding_bitmatrix : Z -> option matrix;
  jerasure_smart_bitmatrix_to_schedule : Z -> Z -> Z -> option matrix -> option schedule;
  jerasure_schedule_encode : Z -> Z -> Z -> option schedule -> list loc -> list loc -> Z -> Z -> blM unit;
  jerasure_matrix_encode : Z -> Z -> Z -> option matrix -> list loc -> list loc -> Z -> blM unit;
  reed_sol_r6_encode : Z -> Z -> list loc -> list loc -> Z -> blM unit;
  jerasure_matrix_decode : Z -> Z -> Z -> option matrix -> Z -> list Z -> list loc -> list loc -> Z -> blM Z;
  jerasure_schedule_decode_lazy : Z -> Z -> Z -> option matrix -> list Z -> list loc -> list loc -> Z -> Z -> Z -> blM Z }.

(** ** Primes *)

Definition prime55 : list Z :=
  [2; 3; 5; 7; 11; 13; 17; 19; 23; 29; 31; 37; 41; 43; 47; 53; 59; 61; 67; 71;
   73; 79; 83; 89; 97; 101; 103; 107; 109; 113; 127; 131; 137; 139; 149; 151; 157; 163; 167; 173; 179;
   181; 191; 193; 197; 199; 211; 223; 227; 229; 233; 239; 241; 251; 257].

(** [q] is the entry before the ones that are left. *)
Fixpoint prime_loop (w which q : Z) (primes : list Z) : Z :=
  match primes with
  | [] => q
  | p :: primes =>
    if w <=? p then
      if which >? 0 then p
      else if which <? 0 then q
      else if w - q <? p - w then q else p
    else prime_loop w which p primes
  end.

Definition nearest_prime (w which : Z) : Z :=
  match prime55 with [] => 0 | q :: primes => prime_loop w which q primes end.

(** Trial division. *)
Definition is_prime (p : Z) : bool := (1 <? p) && forallb (fun d => negb (p mod d =? 0)) (seqZ 2 (p - 2)).

Lemma is_prime_ok p : is_prime p = true <-> prime p.
Proof.
  rewrite <- prime_alt. unfold is_prime, prime'. rewrite andb_true_iff, Z.ltb_lt, forallb_forall. split; intros [Hp Hd]; (split; [done|]).
  - intros n Hn Hdiv. specialize (Hd n). rewrite <- list_elem_of_In, elem_of_seqZ, negb_true_iff, Z.eqb_neq in Hd.
    apply Hd; [lia|]. by apply Z.mod_divide; [lia|].
  - intros d Hin. apply list_elem_of_In, elem_of_seqZ in Hin. apply negb_true_iff, Z.eqb_neq. intros Hm. apply (Hd d); [lia|]. by apply Z.mod_divide; [lia|].
Qed.

(** What is checked for every number of the table's range. *)
Definition nearest_check (w : Z) : bool :=
  let p := nearest_prime w 1 in
  is_prime p && (w <=? p) && forallb (fun q => negb (is_prime q)) (seqZ w (p - w)) && eqb (nearest_prime w 0 =? w) (is_prime w).

Lemma nearest_check_all : forallb nearest_check (seqZ 3 255) = true.
Proof. vm_compute. reflexivity. Qed.

(** Upwards the nearest prime is the least one that is not smaller, and the
    nearest of both sides is the number itself exactly when it is prime. *)
Lemma nearest_prime_ok w :
  2 < w <= 257 ->
  prime (nearest_prime w 1) /\ w <= nearest_prime w 1 /\ (forall q, prime q -> w <= q -> nearest_prime w 1 <= q) /\
  (nearest_prime w 0 = w <-> prime w).
Proof.
  intros Hw. pose proof (proj1 (forallb_forall _ _) nearest_check_all w) as Hc. rewrite <- list_elem_of_In, elem_of_seqZ in Hc. specialize (Hc ltac:(lia)).
  unfold nearest_check in Hc. rewrite !andb_true_iff, is_prime_ok, Z.leb_le, forallb_forall, eqb_true_iff in Hc. destruct Hc as (((Hp & Hle) & Hmin) & Heq).
  split; [done|]. split; [done|]. split.
  - intros q Hq Hwq. destruct (Z.le_gt_cases (nearest_prime w 1) q) as [|Hlt]; [done|]. specialize (Hmin q).
    rewrite <- list_elem_of_In, elem_of_seqZ, negb_true_iff in Hmin. specialize (Hmin ltac:(lia)). apply is_prime_ok in Hq. congruence.
  - rewrite <- is_prime_ok, <- Heq. apply iff_sym, Z.eqb_eq.
Qed.

(** Downwards a prime is not found itself. *)
Lemma nearest_prime_down : nearest_prime 7 (-1) = 5 /\ prime 7.
Proof. split; [done|]. by apply is_prime_ok. Qed.

(** ** Plans *)

Inductive je_method := REED_SOL_VAN | REED_SOL_R6_OP | CAUCHY_ORIG | CAUCHY_GOOD | BLAUM_ROTH | LIBERATION | LIBER8TION | RAID4.

#[export] Instance je_method_eq_dec : EqDecision je_method.
Proof. solve_decision. Defined.

(** The numbers of [erasure_tools.h]. *)
Definition method_of (m : Z) : option je_method :=
  if m <? 0 then None else
  [REED_SOL_VAN; REED_SOL_R6_OP; CAUCHY_ORIG; CAUCHY_GOOD; BLAUM_ROTH; LIBERATION; LIBER8TION; RAID4] !! Z.to_nat m.

Definition JE_method : list string :=
  ["reed_sol_van"; "reed_sol_r6_op"; "cauchy_orig"; "cauchy_good"; "blaum_roth"; "liberation"; "liber8tion"; "raid4"]%string.

(** [strcasecmp(a, b) == 0]: equal up to the case of letters. *)
Definition lower (c : ascii) : ascii :=
  let n := N_of_ascii c in if ((65 <=? n) && (n <=? 90))%N then ascii_of_N (n + 32) else c.
Fixpoint strcaseeq (a b : string) : bool :=
  match a, b with
  | EmptyString, EmptyString => true
  | String x a, String y b => Ascii.eqb (lower x) (lower y) && strcaseeq a b
  | _, _ => false
  end.

Fixpoint method_loop (meth : string) (i : Z) (names : list string) : Z :=
  match names with
  | [] => -1
  | n :: names => if strcaseeq meth n then i else method_loop meth (i + 1) names
  end.
Definition et_method_type (meth : string) : Z := method_loop meth 0 JE_method.

(** The numbers of the names are those of the methods, in either case. *)
Lemma et_method_type_names :
  et_method_type <$> JE_method = seqZ 0 8 /\ method_of (et_method_type "RAID4") = Some RAID4 /\ et_method_type "raid5" = -1.
Proof. by vm_compute. Qed.

(** [lio_erasure_plan_t]; the routines a plan points to are those of its
    method. *)
Record erasure_plan (matrix schedule : Type) := Plan {
  strip_size : Z;
  method : je_method;
  data_strips : Z;
  parity_strips : Z;
  pl_w : Z;
  packet_size : Z;
  base_unit : Z;
  encode_matrix : option matrix;
  encode_bitmatrix : option matrix;
  encode_schedule : option schedule }.
Arguments strip_size {_ _} _.
Arguments method {_ _} _.
Arguments data_strips {_ _} _.
Arguments parity_strips {_ _} _.
Arguments pl_w {_ _} _.
Arguments packet_size {_ _} _.
Arguments base_unit {_ _} _.
Arguments encode_matrix {_ _} _.
Arguments encode_bitmatrix {_ _} _.
Arguments encode_schedule {_ _} _.

Section plans.
Context {matrix schedule : Type} `{Jerasure matrix schedule}.
Abbreviation plan := (erasure_plan matrix schedule).

Definition set_matrix (x : option matrix) (p : plan) : plan :=
  Plan _ _ (strip_size p) (method p) (data_strips p) (parity_strips p) (pl_w p) (packet_size p) (base_unit p) x (encode_bitmatrix p) (encode_schedule p).
Definition set_bitmatrix (x : option matrix) (p : plan) : plan :=
  Plan _ _ (strip_size p) (method p) (data_strips p) (parity_strips p) (pl_w p) (packet_size p) (base_unit p) (encode_matrix p) x (encode_schedule p).
Definition set_schedule (x : option schedule) (p : plan) : plan :=
  Plan _ _ (strip_size p) (method p) (data_strips p) (parity_strips p) (pl_w p) (packet_size p) (base_unit p) (encode_matrix p) (encode_bitmatrix p) x.

Definition is_null {A} (x : option A) : bool := match x with None => true | Some _ => false end.

(** *** Forming the matrices

    Each routine returns its code and the plan it leaves. *)

Definition dummy_coding_matrix (p : plan) : Z * plan := (0, p).

Definition reed_sol_r6_op_form_coding_matrix (p : plan) : Z * plan :=
  if negb (is_null (encode_matrix p)) then (0, p)
  else (0, set_matrix (reed_sol_r6_coding_matrix (data_strips p) (pl_w p)) p).

Definition reed_sol_van_form_coding_matrix (p : plan) : Z * plan :=
  if negb (is_null (encode_matrix p)) then (0, p) else
  let p := set_matrix (reed_sol_vandermonde_coding_matrix (data_strips p) (parity_strips p) (pl_w p)) p in
  (if is_null (encode_matrix p) then -1 else 0, p).

(** The code is -1 until the schedule has been made. *)
Definition schedule_code (p : plan) : Z := if is_null (encode_schedule p) then -1 else 0.

Definition cauchy_orig_form_coding_matrix (p : plan) : Z * plan :=
  if negb (is_null (encode_matrix p)) then (0, p) else
  let p := set_matrix (cauchy_original_coding_matrix (data_strips p) (parity_strips p) (pl_w p)) p in
  let p := set_bitmatrix (jerasure_matrix_to_bitmatrix (data_strips p) (parity_strips p) (pl_w p) (encode_matrix p)) p in
  (schedule_code p, p).

Definition cauchy_good_form_coding_matrix (p : plan) : Z * plan :=
  if negb (is_null (encode_matrix p)) then (0, p) else
  let p := set_matrix (cauchy_good_general_coding_matrix (data_strips p) (parity_strips p) (pl_w p)) p in
  let p := set_bitmatrix (jerasure_matrix_to_bitmatrix (data_strips p) (parity_strips p) (pl_w p) (encode_matrix p)) p in
  (schedule_code p, p).

Definition blaum_roth_form_coding_matrix (p : plan) : Z * plan :=
  if negb (is_null (encode_bitmatrix p)) then (0, p) else
  let p := set_bitmatrix (blaum_roth_coding_bitmatrix (data_strips p) (pl_w p)) p in
  (schedule_code p, p).

Definition liberation_form_coding_matrix (p : plan) : Z * plan :=
  if negb (is_null (encode_bitmatrix p)) then (0, p) else
  let p := set_bitmatrix (liberation_coding_bitmatrix (data_strips p) (pl_w p)) p in
  (schedule_code p, p).

Definition liber8tion_form_coding_matrix (p : plan) : Z * plan :=
  if negb (is_null (encode_bitmatrix p)) then (0, p) else
  let p := set_bitmatrix (liber8tion_coding_bitmatrix (data_strips p)) p in
  (schedule_code p, p).

Definition make_schedule (p : plan) : Z * plan :=
  let p := set_schedule (jerasure_smart_bitmatrix_to_schedule (data_strips p) (parity_strips p) (pl_w p) (encode_bitmatrix p)) p in
  (schedule_code p, p).

Definition cauchy_orig_form_encoding_matrix (p : plan) : Z * plan :=
  if negb (is_null (encode_matrix p)) then (0, p) else make_schedule (snd (cauchy_orig_form_coding_matrix p)).
Definition cauchy_good_form_encoding_matrix (p : plan) : Z * plan :=
  if negb (is_null (encode_matrix p)) then (0, p) else make_schedule (snd (cauchy_good_form_coding_matrix p)).
Definition blaum_roth_form_encoding_matrix (p : plan) : Z * plan :=
  if negb (is_null (encode_bitmatrix p)) then (0, p) else make_schedule (snd (blaum_roth_form_coding_matrix p)).
Definition liberation_form_encoding_matrix (p : plan) : Z * plan :=
  if negb (is_null (encode_bitmatrix p)) then (0, p) else make_schedule (snd (liberation_form_coding_matrix p)).
Definition liber8tion_form_encoding_matrix (p : plan) : Z * plan :=
  if negb (is_null (encode_bitmatrix p)) then (0, p) else make_schedule (snd (liber8tion_form_coding_matrix p)).

(** *** What [et_new_plan] points a plan to *)

Definition form_encoding_matrix (p : plan) : Z * plan :=
  match method p with
  | REED_SOL_R6_OP => reed_sol_r6_op_form_coding_matrix p
  | REED_SOL_VAN => reed_sol_van_form_coding_matrix p
  | CAUCHY_ORIG => cauchy_orig_form_encoding_matrix p
  | CAUCHY_GOOD => cauchy_good_form_encoding_matrix p
  | BLAUM_ROTH => blaum_roth_form_encoding_matrix p
  | LIBERATION => liberation_form_encoding_matrix p
  | LIBER8TION => liber8tion_form_encoding_matrix p
  | RAID4 => dummy_coding_matrix p
  end.

Definition form_decoding_matrix (p : plan) : Z * plan :=
  match method p with
  | REED_SOL_R6_OP => reed_sol_r6_op_form_coding_matrix p
  | REED_SOL_VAN => reed_sol_van_form_coding_matrix p
  | CAUCHY_ORIG => cauchy_orig_form_coding_matrix p
  | CAUCHY_GOOD => cauchy_good_form_coding_matrix p
  | BLAUM_ROTH => blaum_roth_form_coding_matrix p
  | LIBERATION => liberation_form_coding_matrix p
  | LIBER8TION => liber8tion_form_coding_matrix p
  | RAID4 => dummy_coding_matrix p
  end.

(** [&(ptr[plan->data_strips])]. *)
Definition parity_ptr (p : plan) (ptr : list loc) : list loc := drop (Z.to_nat (data_strips p)) ptr.

Definition schedule_encode_block (p : plan) (ptr : list loc) (block_size : Z) : blM unit :=
  jerasure_schedule_encode (data_strips p) (parity_strips p) (pl_w p) (encode_schedule p) ptr (parity_ptr p ptr) block_size (packet_size p).
Definition matrix_encode_block (p : plan) (ptr : list loc) (block_size : Z) : blM unit :=
  jerasure_matrix_encode (data_strips p) (parity_strips p) (pl_w p) (encode_matrix p) ptr (parity_ptr p ptr) block_size.
Definition reed_sol_r6_op_encode_block (p : plan) (ptr : list loc) (block_size : Z) : blM unit :=
  reed_sol_r6_encode (data_strips p) (pl_w p) ptr (parity_ptr p ptr) block_size.
Definition raid4_op_encode_block (p : plan) (ptr : list loc) (block_size : Z) : blM unit :=
  raid4_encode (data_strips p) ptr (parity_ptr p ptr) block_size.

Definition encode_block (p : plan) : list loc -> Z -> blM unit :=
  match method p with
  | REED_SOL_R6_OP => reed_sol_r6_op_encode_block p
  | REED_SOL_VAN => matrix_encode_block p
  | RAID4 => raid4_op_encode_block p
  | _ => schedule_encode_block p
  end.

Definition matrix_decode_block (p : plan) (ptr : list loc) (block_size : Z) (erasures : list Z) : blM Z :=
  jerasure_matrix_decode (data_strips p) (parity_strips p) (pl_w p) (encode_matrix p) 1 erasures ptr (parity_ptr p ptr) block_size.
Definition schedule_decode_block (p : plan) (ptr : list loc) (block_size : Z) (erasures : list Z) : blM Z :=
  jerasure_schedule_decode_lazy (data_strips p) (parity_strips p) (pl_w p) (encode_bitmatrix p) erasures ptr (parity_ptr p ptr) block_size (packet_size p) 1.
Definition raid4_op_decode_block (p : plan) (ptr : list loc) (block_size : Z) (erasures : list Z) : blM Z :=
  raid4_decode (data_strips p) erasures ptr (parity_ptr p ptr) block_size.

Definition decode_block (p : plan) : list loc -> Z -> list Z -> blM Z :=
  match method p with
  | REED_SOL_R6_OP | REED_SOL_VAN => matrix_decode_block p
  | RAID4 => raid4_op_decode_block p
  | _ => schedule_decode_block p
  end.

(** A method with no number between 0 and 7 gives no plan. *)
Definition et_new_plan (m strip_size data_strips parity_strips w packet_size base_unit : Z) : option plan :=
  match method_of m with
  | Some m => Some (Plan _ _ strip_size m data_strips parity_strips w packet_size base_unit None None None)
  | None => None
  end.

(** *** Choosing the sizes *)

(** A product of [int]s. *)
Definition int_of (x : Z) : res Z := if int32_ok x then Ok x else Fault Overflow.
Fixpoint int_prod (acc : Z) (l : list Z) : res Z :=
  match l with [] => Ok acc | x :: l => acc ← int_of (acc * x); int_prod acc l end.

(** [a / b] and [a % b]. *)
Definition c_div (a b : Z) : res Z := if b =? 0 then Fault DivByZero else Ok (Z.quot a b).
Definition c_rem (a b : Z) : res Z := if b =? 0 then Fault DivByZero else Ok (Z.rem a b).

(** [double] and [float]. *)
Definition to_double (x : Z) : spec_float := binary_normalize 53 1024 x 0 false.
Definition to_float (x : spec_float) : spec_float :=
  match x with
  | S754_finite s m e => binary_normalize 24 128 (if s then Z.neg m else Z.pos m) e s
  | _ => x
  end.

(** [increase = (1.0*j) / file_size * 100; increase < 1]. *)
Definition increase_small (j file_size : Z) : bool :=
  let increase := SFmul 53 1024 (SFdiv 53 1024 (SFmul 53 1024 (to_double 1) (to_double j)) (to_double file_size)) (to_double 100) in
  SFltb (to_float increase) (to_float (to_double 1)).

(** [w] when it is left to the routine, and the unit. *)
Definition default_w (m : je_method) (data_strips : Z) : Z * Z :=
  match m with
  | BLAUM_ROTH => (nearest_prime (data_strips + 1) 1 - 1, 8)
  | LIBERATION => (nearest_prime data_strips 1, 8)
  | RAID4 => (8, 1)
  | _ => (8, 8)
  end.

Definition choose_w (m : je_method) (data_strips w : Z) : Z * Z := if w =? -1 then default_w m data_strips else (w, 8).

(** The parameters a method accepts. *)
Definition plan_valid (m : je_method) (data_strips parity_strips w packet_size : Z) : bool :=
  match m with
  | REED_SOL_R6_OP => (parity_strips =? 2) && ((w =? 8) || (w =? 16) || (w =? 32))
  | REED_SOL_VAN | CAUCHY_ORIG | CAUCHY_GOOD => (w =? 8) || (w =? 16) || (w =? 32)
  | BLAUM_ROTH => (data_strips <=? w) && (nearest_prime (w + 1) 0 =? w + 1) && (Z.rem packet_size 8 =? 0)
  | LIBERATION => (data_strips <=? w) && (nearest_prime w 0 =? w) && (Z.rem packet_size 8 =? 0)
  | LIBER8TION => (w =? 8) && (parity_strips =? 2) && (data_strips <=? w)
  | RAID4 => parity_strips =? 1
  end.

(** The best packet size and file size so far, and the excess. *)
Record packet_search := PacketSearch { ps_excess : Z; ps_best : Z; ps_size : Z }.

Fixpoint packet_loop (fuel : nat) (file_size data_strips w base_unit packet_low packet_size : Z) (b : packet_search) : res packet_search :=
  if packet_size >? packet_low then
    match fuel with
    | O => Fault OutOfFuel
    | S fuel =>
      i ← int_prod data_strips [w; packet_size; base_unit];
      rem ← c_rem file_size i;
      let new_size := if rem >? 0 then file_size + (i - rem) else file_size in
      let j := to_signed 32 (new_size - file_size) in
      if j <=? ps_excess b then
        let b := PacketSearch j packet_size new_size in
        if increase_small j file_size then Ok b
        else packet_loop fuel file_size data_strips w base_unit packet_low (packet_size - base_unit) b
      else packet_loop fuel file_size data_strips w base_unit packet_low (packet_size - base_unit) b
    end
  else Ok b.

(** [if (packet % base_unit != 0) packet = (packet / base_unit) * base_unit]. *)
Definition round_packet (packet base_unit : Z) : Z :=
  if Z.rem packet base_unit =? 0 then packet else Z.quot packet base_unit * base_unit.

(** The loop's bounds and unit: those of [raid4] replace the others. *)
Definition packet_range (m : je_method) (packet_low packet_high base_unit : Z) : Z * Z * Z :=
  match m with RAID4 => (0, 1, 1) | _ => (packet_low, packet_high, base_unit) end.

Definition et_generate_plan (file_size m data_strips parity_strips w packet_low packet_high : Z) : res (option plan) :=
  match method_of m with
  | None => if w =? -1 then Ok None else unit ← int_prod w [8; data_strips]; _ ← c_div file_size unit; Ok None
  | Some mth =>
    let '(w, base_unit) := choose_w mth data_strips w in
    unit ← int_prod w [base_unit; data_strips];
    strip ← c_div file_size unit;
    let '(plow, phigh) := if strip <? 4 * 1024 then (Z.quot strip 4, strip) else (512, 4096) in
    let packet_low := if packet_low <? 0 then plow else packet_low in
    let packet_high := if packet_high <? 0 then phigh else packet_high in
    if packet_low >? packet_high then Ok None else
    let packet_low := round_packet packet_low base_unit in
    let packet_high := round_packet packet_high base_unit in
    if negb (plan_valid mth data_strips parity_strips w packet_high) then Ok None else
    let '(packet_low, packet_high, base_unit) := packet_range mth packet_low packet_high base_unit in
    b ← packet_loop (Z.to_nat (packet_high - packet_low)) file_size data_strips w base_unit packet_low packet_high
      (PacketSearch (10 * file_size) (-1) 0);
    strip_size ← c_div (ps_size b) data_strips;
    _ ← int_prod data_strips [w; ps_best b; base_unit];
    Ok (et_new_plan m strip_size data_strips parity_strips w (ps_best b) base_unit)
  end.

(** ** The sizes of a plan *)

(** A file of [file_size] bytes fits the plan's strips, which are cut into
    whole groups of packets, with less than one group for each strip to
    spare. *)
Record plan_fits (p : plan) (file_size : Z) : Prop := PlanFits {
  pf_packet : 0 < packet_size p;
  pf_unit : 0 < base_unit p;
  pf_groups : (pl_w p * packet_size p * base_unit p | strip_size p);
  pf_holds : file_size <= data_strips p * strip_size p;
  pf_excess : data_strips p * strip_size p - file_size < data_strips p * (pl_w p * packet_size p * base_unit p) }.

(** What the search has found fits. *)
Definition search_fits (file_size k w base_unit top : Z) (b : packet_search) : Prop :=
  0 < ps_best b <= top /\ (k * w * ps_best b * base_unit | ps_size b) /\ file_size <= ps_size b /\
  ps_size b - file_size < k * w * ps_best b * base_unit.

Lemma int_of_ok x : - 2 ^ 31 <= x < 2 ^ 31 -> int_of x = Ok x.
Proof. intros Hx. unfold int_of, int32_ok. by rewrite (proj2 (Z.leb_le _ _)), (proj2 (Z.ltb_lt _ _)) by lia. Qed.

(** A product of positive factors is computed when it fits. *)
Lemma int_prod_ok acc l : 0 < acc -> Forall (fun x => 0 < x) l -> foldl Z.mul acc l < 2 ^ 31 -> int_prod acc l = Ok (foldl Z.mul acc l).
Proof.
  intros Ha Hl. revert acc Ha. induction Hl as [|x l Hx Hl IH]; intros acc Ha Hb; [done|]. cbn [int_prod foldl] in *.
  assert (Hle : acc * x <= foldl Z.mul (acc * x) l).
  { clear IH Hb. assert (Hp : 0 < acc * x) by nia. generalize (acc * x) Hp. clear -Hl. intros a Ha. revert a Ha.
    induction Hl as [|y l Hy Hl IH]; intros a Ha; simpl; [lia|]. specialize (IH (a * y) ltac:(nia)). nia. }
  rewrite int_of_ok by nia. apply IH; [nia|done].
Qed.

(** One packet size: the size the file is rounded up to. *)
Lemma round_up file_size i :
  0 <= file_size -> 0 < i -> let rem := Z.rem file_size i in
  let new_size := if rem >? 0 then file_size + (i - rem) else file_size in
  (i | new_size) /\ file_size <= new_size < file_size + i.
Proof.
  intros Hf Hi rem new_size. subst rem new_size. rewrite Z.rem_mod_nonneg by lia. pose proof (Z.mod_pos_bound file_size i Hi) as Hm.
  pose proof (Z.div_mod file_size i ltac:(lia)) as Hd. destruct (Z.gtb_spec (file_size mod i) 0) as [Hr|Hr].
  - split; [|lia]. exists (file_size / i + 1). lia.
  - split; [|lia]. exists (file_size / i). lia.
Qed.

Lemma packet_loop_ok fuel file_size k w u top low packet b :
  0 < file_size -> 0 < k -> 0 < w -> 0 < u -> 0 <= low -> k * w * packet * u < 2 ^ 31 -> packet - low <= Z.of_nat fuel -> packet <= top ->
  (search_fits file_size k w u top b \/ (low < packet /\ k * w * packet * u <= ps_excess b)) ->
  exists b', packet_loop fuel file_size k w u low packet b = Ok b' /\ search_fits file_size k w u top b'.
Proof.
  revert packet b. induction fuel as [|fuel IH]; intros packet b Hf Hk Hw Hu Hlow Hmax Hfuel Htop Hb; cbn [packet_loop]; rewrite Z.gtb_ltb.
  - rewrite (proj2 (Z.ltb_ge _ _)) by lia. exists b. split; [done|]. destruct Hb as [?|[? _]]; [done|lia].
  - destruct (Z.ltb_spec low packet) as [Hlt|Hge]; [|exists b; split; [done|]; destruct Hb as [?|[? _]]; [done|lia]].
    rewrite int_prod_ok; [|done|repeat constructor; lia|done]. cbn [foldl]. set (i := k * w * packet * u) in *.
    assert (Hi : 0 < i) by (unfold i; repeat apply Z.mul_pos_pos; lia). unfold mbind, res_bind, c_rem. rewrite (proj2 (Z.eqb_neq i 0)) by lia.
    destruct (round_up file_size i ltac:(lia) Hi) as [Hdiv Hrange]. cbn zeta in Hdiv, Hrange |- *.
    set (new_size := if Z.rem file_size i >? 0 then file_size + (i - Z.rem file_size i) else file_size) in *.
    rewrite to_signed_small by lia.
    assert (Hnext : k * w * (packet - u) * u < 2 ^ 31) by (unfold i in *; nia).
    destruct (Z.leb_spec (new_size - file_size) (ps_excess b)) as [Hle|Hgt].
    + assert (Hb' : search_fits file_size k w u top (PacketSearch (new_size - file_size) packet new_size)).
      { split; [simpl; lia|]. split; [exact Hdiv|]. simpl. fold i. lia. }
      destruct (increase_small _ _); [by eexists|]. apply IH; [done..|lia|lia|by left].
    + apply IH; [done..|lia|lia|]. destruct Hb as [?|[_ Hex]]; [by left|lia].
Qed.

Lemma round_packet_ok packet u : 0 <= packet -> 0 < u -> round_packet packet u = packet / u * u.
Proof.
  intros Hp Hu. unfold round_packet. rewrite Z.rem_mod_nonneg, Z.quot_div_nonneg by lia.
  destruct (Z.eqb_spec (packet mod u) 0) as [E|E]; [|done]. pose proof (Z.div_mod packet u ltac:(lia)). lia.
Qed.

(** The packet sizes that are tried when the caller leaves them open. *)
Lemma packet_bounds strip u :
  (u = 1 \/ u = 8) -> 8 <= strip ->
  let '(plow, phigh) := if strip <? 4 * 1024 then (Z.quot strip 4, strip) else (512, 4096) in
  plow <= phigh /\ 0 <= round_packet plow u < round_packet phigh u /\ round_packet phigh u <= Z.min strip 4096 /\ (u = 8 -> Z.rem (round_packet phigh u) 8 = 0).
Proof.
  intros Hu Hs. rewrite Z.quot_div_nonneg by lia. destruct (Z.ltb_spec strip (4 * 1024)) as [Hlt|Hge].
  - rewrite !round_packet_ok by (lia || apply Z.div_pos; lia). destruct Hu as [->| ->].
    + rewrite !Z.div_1_r, !Z.mul_1_r. pose proof (Z.div_lt strip 4 ltac:(lia) ltac:(lia)). pose proof (Z.div_pos strip 4 ltac:(lia) ltac:(lia)). lia.
    + pose proof (Z.div_pos strip 4 ltac:(lia) ltac:(lia)). rewrite Z.div_div by lia. change (4 * 8) with 32.
      pose proof (Z.div_mod strip 8 ltac:(lia)). pose proof (Z.mod_pos_bound strip 8 ltac:(lia)).
      pose proof (Z.div_mod strip 32 ltac:(lia)). pose proof (Z.mod_pos_bound strip 32 ltac:(lia)). pose proof (Z.div_mod strip 4 ltac:(lia)). pose proof (Z.mod_pos_bound strip 4 ltac:(lia)).
      split; [lia|]. split; [lia|]. split; [lia|]. intros _. by rewrite Z.rem_mul.
  - assert (Ht : 4096 <= strip) by lia. destruct Hu as [->| ->]; vm_compute round_packet; rewrite ?Z.min_r by lia; done.
Qed.

Lemma choose_unit m k w : snd (choose_w m k w) = 8 \/ (m = RAID4 /\ snd (choose_w m k w) = 1).
Proof. unfold choose_w. destruct (w =? -1); [|by left]. destruct m; simpl; tauto. Qed.

Lemma plan_valid_packet m k n w packet : (m <> RAID4 -> Z.rem packet 8 = 0) -> plan_valid m k n w packet = plan_valid m k n w 8.
Proof. intros Hp. destruct m; try done; cbn [plan_valid]; by rewrite Hp. Qed.

(** The packet sizes that are searched. *)
Lemma packet_range_ok mth plow phigh u cap :
  (u = 8 \/ (mth = RAID4 /\ u = 1)) -> 0 <= plow < phigh -> phigh <= cap -> 1 <= cap ->
  let '(low, high, unit) := packet_range mth plow phigh u in
  0 <= low < high /\ high <= cap /\ 0 < unit <= u.
Proof. intros Hu Hl Hc H1. destruct mth; cbn [packet_range]; destruct Hu as [->|[? ->]]; (done || lia). Qed.


(** *** The order in which the matrices are formed *)

(** Everything the block routines of a method read. *)
Definition plan_ready (p : plan) : bool :=
  match method p with
  | REED_SOL_VAN => negb (is_null (encode_matrix p))
  | REED_SOL_R6_OP => negb (is_null (encode_matrix p))
  | RAID4 => true
  | _ => negb (is_null (encode_bitmatrix p)) && negb (is_null (encode_schedule p))
  end.

Definition fresh_plan (p : plan) : Prop := encode_matrix p = None /\ encode_bitmatrix p = None /\ encode_schedule p = None.

(** The library returns the arrays it is asked for. *)
Record jerasure_total : Prop := JerasureTotal {
  jt_r6 k w : reed_sol_r6_coding_matrix k w <> None;
  jt_van k n w : reed_sol_vandermonde_coding_matrix k n w <> None;
  jt_orig k n w : cauchy_original_coding_matrix k n w <> None;
  jt_good k n w : cauchy_good_general_coding_matrix k n w <> None;
  jt_bits k n w x : jerasure_matrix_to_bitmatrix k n w x <> None;
  jt_blaum k w : blaum_roth_coding_bitmatrix k w <> None;
  jt_liber k w : liberation_coding_bitmatrix k w <> None;
  jt_liber8 k : liber8tion_coding_bitmatrix k <> None;
  jt_schedule k n w x : jerasure_smart_bitmatrix_to_schedule k n w x <> None }.

Lemma not_null {A} (x : option A) : x <> None -> is_null x = false.
Proof. by destruct x. Qed.

(** Evaluates the routines up to the next call of the library. *)
Ltac form_eval := lazy -[reed_sol_r6_coding_matrix reed_sol_vandermonde_coding_matrix cauchy_original_coding_matrix cauchy_good_general_coding_matrix
  jerasure_matrix_to_bitmatrix blaum_roth_coding_bitmatrix liberation_coding_bitmatrix liber8tion_coding_bitmatrix jerasure_smart_bitmatrix_to_schedule not].

Ltac form_call :=
  match goal with
  | |- context [match ?f with Some _ => _ | None => _ end] =>
    lazymatch f with context [match _ with _ => _ end] => fail | _ => destruct f eqn:?; [form_eval; try done|exfalso; unfold not in *; eauto] end
  end.

(** Formed for encoding first, a plan serves both directions; formed for
    decoding first, it never gets the schedule the encoding needs. *)
Lemma form_order p :
  jerasure_total -> fresh_plan p ->
  plan_ready (snd (form_decoding_matrix (snd (form_encoding_matrix p)))) = true /\
  (method p <> REED_SOL_VAN -> method p <> REED_SOL_R6_OP -> method p <> RAID4 ->
   encode_schedule (snd (form_encoding_matrix (snd (form_decoding_matrix p)))) = None).
Proof.
  destruct p as [ss m k n w pk u em eb es]. intros [] Hfresh. unfold fresh_plan in Hfresh. cbn in Hfresh. destruct Hfresh as (-> & -> & ->).
  destruct m; form_eval; (split; [|intros]); try done; repeat form_call.
Qed.

(** ** Files *)

(** [fseek(fd, pos, SEEK_SET)] and [fread] of at most [n] bytes; [pos] is not
    negative. *)
Definition file_get (f : bytes) (pos n : Z) : bytes := take (Z.to_nat n) (drop (Z.to_nat pos) f).
(** The same with [fwrite]; a gap after the end is filled with zeros. *)
Definition file_put (f : bytes) (pos : Z) (d : bytes) : bytes :=
  resize (Z.to_nat pos) 0 (take (Z.to_nat pos) f) ++ d ++ drop (Z.to_nat pos + length d) f.

(** The blocks in memory, the data file and the parity file. *)
Record et_state := EtState { es_blocks : blocks; es_file : bytes; es_parity : bytes }.
Abbreviation etM := (ST et_state).

Definition on_blocks {A} (m : blM A) : etM A := fun s => '(a, b) ← m (es_blocks s); Ok (a, EtState b (es_file s) (es_parity s)).
Definition put_file (f : bytes) : etM unit := fun s => Ok (tt, EtState (es_blocks s) f (es_parity s)).
Definition put_parity (f : bytes) : etM unit := fun s => Ok (tt, EtState (es_blocks s) (es_file s) f).

Definition BLANK_CHAR : Z := 48.

(** The bytes [d] are put at the start of a block. *)
Definition block_fill (p : loc) (d : bytes) : blM unit :=
  b ← block_at p;
  if decide (length d <= length b)%nat then block_put p (d ++ drop (length d) b) else st_fail OutOfBounds.

(** The first [n] bytes of a block; [n] is taken as a [size_t]. *)
Definition block_take (p : loc) (n : Z) : blM bytes :=
  b ← block_at p;
  if decide (0 <= n <= Z.of_nat (length b)) then mret (take (Z.to_nat n) b) else st_fail OutOfBounds.

(** [bread(p, 1, n, fd_file)] at [pos]. *)
Definition bread (p : loc) (n pos : Z) : etM unit :=
  s ← st_get;
  let d := file_get (es_file s) pos n in
  on_blocks (block_fill p (d ++ replicate (Z.to_nat n - length d) BLANK_CHAR)).

(** *** Encoding *)

(** One [bread] for each of the strips. *)
Fixpoint read_strips (ptr : list loc) (bpos bsize ss : Z) : etM unit :=
  match ptr with
  | [] => mret tt
  | p :: ptr => _ ← bread p bsize bpos; read_strips ptr (bpos + ss) bsize ss
  end.

Fixpoint write_parity (ptr : list loc) (bpos bsize ss : Z) : etM unit :=
  match ptr with
  | [] => mret tt
  | p :: ptr =>
    d ← on_blocks (block_take p bsize);
    s ← st_get;
    _ ← put_parity (file_put (es_parity s) bpos d);
    write_parity ptr (bpos + ss) bsize ss
  end.

Definition strip_ptrs (p : plan) : list loc := Pos.of_succ_nat <$> seq 0 (Z.to_nat (data_strips p + parity_strips p)).
Definition data_ptrs (p : plan) : list loc := take (Z.to_nat (data_strips p)) (strip_ptrs p).

(** The part of the strip that is left may be shorter than a block. *)
Definition chunk (rpos block_size ss : Z) : Z := if rpos + block_size >? ss then ss - rpos else block_size.

Fixpoint et_encode_loop (fuel : nat) (p : plan) (rpos apos ppos block_size : Z) : etM unit :=
  if rpos <? strip_size p then
    match fuel with
    | O => st_fail OutOfFuel
    | S fuel =>
      let bsize := chunk rpos block_size (strip_size p) in
      _ ← read_strips (data_ptrs p) apos bsize (strip_size p);
      _ ← on_blocks (encode_block p (strip_ptrs p) bsize);
      _ ← write_parity (parity_ptr p (strip_ptrs p)) ppos bsize (strip_size p);
      et_encode_loop fuel p (rpos + block_size) (apos + block_size) (ppos + block_size) block_size
    end
  else mret tt.

(** The size of the blocks a buffer is divided into. *)
Definition et_block_size (p : plan) (buffer_size : Z) : res Z :=
  let n := data_strips p + parity_strips p in
  i ← int_prod n [pl_w p; packet_size p; base_unit p];
  let buffer_size := if buffer_size =? 0 then 10 * 1024 * 1024 else buffer_size in
  j ← c_div buffer_size i;
  let j := if j =? 0 then 1 else j in
  size ← int_of (j * i);
  c_div size n.

(** The buffer, with what happens to be in it. *)
Definition new_blocks (p : plan) (block_size : Z) (junk : Z -> Z) : blocks :=
  list_to_map (zip (strip_ptrs p) ((fun i => slice junk (Z.of_nat i * block_size) block_size) <$> seq 0 (length (strip_ptrs p)))).

(** [file] and [parity] are the files' contents, [None] for one that cannot be
    opened; [create] tells whether the parity file can be made.  The result is
    the code, with the plan and the parity file when both were opened. *)
Definition et_encode (p : plan) (file : option bytes) (foffset : Z) (parity : option bytes) (create : bool) (poffset buffer_size : Z)
    (junk : Z -> Z) : res (Z * option (plan * bytes)) :=
  match file with
  | None => Ok (1, None)
  | Some f =>
    match (match parity with Some g => Some g | None => if create then Some [] else None end) with
    | None => Ok (1, None)
    | Some g =>
      let p := snd (form_encoding_matrix p) in
      bs ← et_block_size p buffer_size;
      '(_, s) ← et_encode_loop (Z.to_nat (strip_size p)) p 0 foffset poffset bs (EtState (new_blocks p bs junk) f g);
      Ok (0, Some (p, es_parity s))
    end
  end.

(** *** Decoding *)

Fixpoint read_missing (ptr : list loc) (missing : list Z) (bpos bsize ss : Z) : etM unit :=
  match ptr, missing with
  | p :: ptr, x :: missing =>
    _ ← (if x =? 0 then bread p bsize bpos else mret tt);
    read_missing ptr missing (bpos + ss) bsize ss
  | _, _ => mret tt
  end.

(** The parity that is there is read in full or the program aborts. *)
Fixpoint read_parity (ptr : list loc) (missing : list Z) (bpos bsize ss : Z) : etM unit :=
  match ptr, missing with
  | p :: ptr, x :: missing =>
    _ ← (if x =? 0 then
           s ← st_get;
           let d := file_get (es_parity s) bpos bsize in
           _ ← on_blocks (block_fill p d);
           if Z.of_nat (length d) =? bsize then mret tt else st_fail Aborted
         else mret tt);
    read_parity ptr missing (bpos + ss) bsize ss
  | _, _ => mret tt
  end.

(** The missing data strips are written; of the last one only what lies
    before the end of the file. *)
Fixpoint write_missing (ptr : list loc) (missing : list Z) (fsize bpos bsize ss : Z) : etM unit :=
  match ptr, missing with
  | p :: ptr, x :: missing =>
    let n := match ptr with [] => if bpos + bsize >? fsize then fsize - bpos else bsize | _ => bsize end in
    _ ← (if x =? 1 then
           d ← on_blocks (block_take p n);
           s ← st_get;
           put_file (file_put (es_file s) bpos d)
         else mret tt);
    write_missing ptr missing fsize (bpos + ss) bsize ss
  | _, _ => mret tt
  end.

Fixpoint et_decode_loop (fuel : nat) (p : plan) (fsize : Z) (erasures missing : list Z) (rpos apos ppos block_size : Z) : etM unit :=
  if rpos <? strip_size p then
    match fuel with
    | O => st_fail OutOfFuel
    | S fuel =>
      let bsize := chunk rpos block_size (strip_size p) in
      let k := Z.to_nat (data_strips p) in
      _ ← read_missing (data_ptrs p) (take k missing) apos bsize (strip_size p);
      _ ← read_parity (parity_ptr p (strip_ptrs p)) (drop k missing) ppos bsize (strip_size p);
      _ ← on_blocks (decode_block p (strip_ptrs p) bsize erasures);
      _ ← write_missing (data_ptrs p) (take k missing) fsize apos bsize (strip_size p);
      et_decode_loop fuel p fsize erasures missing (rpos + block_size) (apos + block_size) (ppos + block_size) block_size
    end
  else mret tt.

(** The strips to rebuild, up to the -1 that ends the list, and their
    number. *)
Fixpoint mark_missing (erasures missing : list Z) (i : Z) : res (list Z * Z) :=
  match erasures with
  | [] => Fault Uninitialised
  | e :: erasures =>
    if e =? -1 then Ok (missing, i)
    else if (e <? 0) || (e >=? Z.of_nat (length missing)) then Fault OutOfBounds
    else mark_missing erasures (<[Z.to_nat e := 1]> missing) (i + 1)
  end.

(** [int missing[n]; memset(missing, 0, sizeof(long)*n)], where an [int] has
    four bytes and a [long] has [sizeof_long]. *)
Definition clear_missing (sizeof_long n : Z) : res (list Z) :=
  if sizeof_long * n <=? 4 * n then Ok (replicate (Z.to_nat n) 0) else Fault OutOfBounds.

Definition et_decode (sizeof_long : Z) (p : plan) (fsize : Z) (file : option bytes) (foffset : Z) (parity : option bytes) (poffset buffer_size : Z)
    (erasures : list Z) (junk : Z -> Z) : res (Z * option (plan * bytes)) :=
  missing ← clear_missing sizeof_long (data_strips p + parity_strips p);
  '(missing, i) ← mark_missing erasures missing 0;
  if i =? 0 then Ok (0, None) else
  match file with
  | None => Ok (1, None)
  | Some f =>
    match parity with
    | None => Ok (1, None)
    | Some g =>
      let p := snd (form_decoding_matrix p) in
      bs ← et_block_size p buffer_size;
      '(_, s) ← et_decode_loop (Z.to_nat (strip_size p)) p fsize erasures missing 0 foffset poffset bs (EtState (new_blocks p bs junk) f g);
      Ok (0, Some (p, es_file s))
    end
  end.

(** ** Contents of files *)

Section files.
Implicit Types (f d : bytes) (pos n : Z).

Lemma file_get_lookup f pos n (j : nat) : 0 <= pos -> Z.of_nat j < n -> file_get f pos n !! j = f !! Z.to_nat (pos + Z.of_nat j).
Proof. intros Hp Hj. unfold file_get. rewrite lookup_take_lt by lia. rewrite lookup_drop. f_equal. lia. Qed.

Lemma file_get_length f pos n : 0 <= pos -> 0 <= n -> pos + n <= Z.of_nat (length f) -> length (file_get f pos n) = Z.to_nat n.
Proof. intros. unfold file_get. rewrite length_take, length_drop. lia. Qed.

(** What a piece of a file is. *)
Lemma file_get_eq f pos n d :
  0 <= pos -> 0 <= n -> length d = Z.to_nat n ->
  file_get f pos n = d <-> forall j : nat, (j < length d)%nat -> f !! Z.to_nat (pos + Z.of_nat j) = d !! j.
Proof.
  intros Hp Hn Hd. split.
  - intros <- j Hj. rewrite file_get_lookup by lia. done.
  - intros Hall. apply list_eq. intros j. destruct (decide (j < length d)%nat) as [Hj|Hj].
    + rewrite file_get_lookup by lia. by apply Hall.
    + rewrite (lookup_ge_None_2 d) by lia. apply lookup_ge_None. unfold file_get. rewrite length_take. lia.
Qed.

Lemma file_put_lookup f pos d (x : nat) :
  0 <= pos ->
  file_put f pos d !! x =
    if decide (pos <= Z.of_nat x < pos + Z.of_nat (length d)) then d !! Z.to_nat (Z.of_nat x - pos)
    else if decide (x < length f)%nat then f !! x
    else if decide (Z.of_nat x < pos) then Some 0 else None.
Proof.
  intros Hp. unfold file_put. set (q := Z.to_nat pos). assert (Hl : length (resize q 0 (take q f)) = q) by apply length_resize.
  destruct (decide (x < q)%nat) as [Hx|Hx].
  - rewrite lookup_app_l by lia. rewrite decide_False by lia. case_decide as Hf.
    + rewrite lookup_resize by (rewrite ?length_take; lia). by rewrite lookup_take_lt.
    + rewrite decide_True by lia. apply lookup_resize_new; [rewrite length_take; lia|done].
  - rewrite lookup_app_r, Hl by lia. destruct (decide (x < q + length d)%nat) as [Hd|Hd].
    + rewrite lookup_app_l by lia. rewrite decide_True by lia. f_equal. lia.
    + rewrite lookup_app_r by lia. rewrite decide_False by lia. rewrite lookup_drop. replace (q + length d + (x - q - length d))%nat with x by lia.
      case_decide as Hf; [done|]. rewrite decide_False by lia. by apply lookup_ge_None_2; lia.
Qed.

Lemma file_put_length f pos d : 0 <= pos -> pos + Z.of_nat (length d) <= Z.of_nat (length f) -> length (file_put f pos d) = length f.
Proof. intros. unfold file_put. rewrite !length_app, length_resize, length_drop. lia. Qed.

(** What was just written is there, and a piece beside it is still there. *)
Lemma file_get_put f pos d : 0 <= pos -> file_get (file_put f pos d) pos (Z.of_nat (length d)) = d.
Proof.
  intros Hp. apply file_get_eq; [done|lia|by rewrite Nat2Z.id|]. intros j Hj. rewrite file_put_lookup, decide_True by lia. f_equal. lia.
Qed.

Lemma file_get_put_beside f pos d pos' d' :
  0 <= pos -> 0 <= pos' -> file_get f pos' (Z.of_nat (length d')) = d' ->
  pos + Z.of_nat (length d) <= pos' \/ pos' + Z.of_nat (length d') <= pos ->
  file_get (file_put f pos d) pos' (Z.of_nat (length d')) = d'.
Proof.
  intros Hp Hp' Hg Hbeside. rewrite file_get_eq in Hg |- * by (done || lia || by rewrite Nat2Z.id). intros j Hj. specialize (Hg j Hj).
  rewrite file_put_lookup, decide_False by lia. destruct (lookup_lt_is_Some_2 d' j Hj) as [y Hy]. rewrite Hy in *.
  rewrite decide_True; [done|]. by apply lookup_lt_Some in Hg.
Qed.

End files.

(** ** Where decoding goes wrong *)

(** Where a [long] is longer than an [int], [missing] is cleared beyond its end
    whenever there is a strip. *)
Lemma et_decode_overrun sizeof_long p fsize file foffset parity poffset buffer_size erasures junk :
  4 < sizeof_long -> 0 < data_strips p + parity_strips p -> et_decode sizeof_long p fsize file foffset parity poffset buffer_size erasures junk = Fault OutOfBounds.
Proof. intros Hl Hn. unfold et_decode, clear_missing. by rewrite (proj2 (Z.leb_gt _ _)) by nia. Qed.

(** A block of the last strip that starts behind the end of the file is
    written with a negative length, as a [size_t]. *)
Lemma write_last_behind ptr fsize bpos bsize ss m f g b :
  m !! ptr = Some b -> 0 <= bsize -> fsize < bpos -> write_missing [ptr] [1] fsize bpos bsize ss (EtState m f g) = Fault OutOfBounds.
Proof.
  intros Hp Hb Hf. cbn [write_missing]. rewrite Z.gtb_ltb, (proj2 (Z.ltb_lt _ _)) by lia. cbn [Z.eqb Pos.eqb].
  unfold mbind, st_bind, on_blocks, block_take. cbn [es_blocks]. unfold mbind, st_bind, block_at. rewrite Hp. by rewrite decide_False by lia.
Qed.

End plans.

(** A generated plan can have such blocks: the last eight bytes of the sixth
    strip start at byte 424 of a file of 385. *)
Lemma generated_plan_behind :
  et_generate_plan 385 7 6 1 (-1) (-1) (-1) = Ok (Some (Plan unit unit 72 RAID4 6 1 8 1 1 None None None)).
Proof. by vm_compute. Qed.

(** A library without any of the codes, over which [raid4] still works. *)
Definition no_jerasure : Jerasure unit unit := {|
  reed_sol_r6_coding_matrix _ _ := None;
  reed_sol_vandermonde_coding_matrix _ _ _ := None;
  cauchy_original_coding_matrix _ _ _ := None;
  cauchy_good_general_coding_matrix _ _ _ := None;
  jerasure_matrix_to_bitmatrix _ _ _ _ := None;
  blaum_roth_coding_bitmatrix _ _ := None;
  liberation_coding_bitmatrix _ _ := None;
  liber8tion_coding_bitmatrix _ := None;
  jerasure_smart_bitmatrix_to_schedule _ _ _ _ := None;
  jerasure_schedule_encode _ _ _ _ _ _ _ _ _ := Fault NullDeref;
  jerasure_matrix_encode _ _ _ _ _ _ _ _ := Fault NullDeref;
  reed_sol_r6_encode _ _ _ _ _ _ := Fault NullDeref;
  jerasure_matrix_decode _ _ _ _ _ _ _ _ _ _ := Fault NullDeref;
  jerasure_schedule_decode_lazy _ _ _ _ _ _ _ _ _ _ _ := Fault NullDeref |}.


(** With larger groups the products of the search overflow an [int], although
    the parameters suit the method: 2048 strips and 32 bits per word. *)
Lemma et_generate_plan_overflow :
  plan_valid REED_SOL_VAN 2048 2 32 8 = true /\
  et_generate_plan (matrix := unit) (schedule := unit) (2 ^ 40) 0 2048 2 32 (-1) (-1) = Fault Overflow.
Proof. split; by vm_compute. Qed.
