(* ===== verification/ErasureFiles.v ===== *)
(** * Encoding and decoding files ([et_encode], [et_decode])

    A file is cut into strips, the strips into blocks, and the blocks of one
    position are encoded together.  A file whose lost strips a code can rebuild
    and which reaches to their end is restored exactly, for every code that does
    on blocks what its documentation says, and [raid4] does. *)
From S2P Require Import Prelude ByteSegment Raid4 ErasureTools.
Local Open Scope Z_scope.

(** Blocks whose first bytes are replaced. *)
Definition refill (n : nat) (ds bs : list bytes) : list bytes := zip_with (fun d b => d ++ drop n b) ds bs.

(** The bytes of a file, with blanks after its end. *)
Definition padded (f : bytes) (pos n : Z) : bytes :=
  let d := file_get f pos n in d ++ replicate (Z.to_nat n - length d) BLANK_CHAR.

Definition sized (n : nat) (bs : list bytes) : Prop := Forall (fun b => length b = n) bs.

(** [m'] differs from [m] at [ptr] only. *)
Definition changes (ptr : list loc) (m m' : blocks) : Prop := forall q, q ∉ ptr -> m' !! q = m !! q.

Section blocks.
Implicit Types (m : blocks) (ptr : list loc) (f g d : bytes) (bs ds : list bytes) (n : nat) (pos ss : Z).

Lemma padded_length f pos n : length (padded f pos (Z.of_nat n)) = n.
Proof. unfold padded. rewrite length_app, length_replicate, Nat2Z.id. unfold file_get. rewrite length_take. lia. Qed.

Lemma at_blocks_frame ptr ptr' m m' bs : at_blocks m ptr bs -> changes ptr' m m' -> (forall q, q ∈ ptr -> q ∉ ptr') -> at_blocks m' ptr bs.
Proof.
  intros Hat Hc Hd. induction Hat as [|q b ptr bs Hq _ IH]; [constructor|]. constructor; [rewrite Hc; [done|apply Hd; by left]|].
  apply IH. intros x Hx. apply Hd. by right.
Qed.

Lemma changes_trans ptr m1 m2 m3 : changes ptr m1 m2 -> changes ptr m2 m3 -> changes ptr m1 m3.
Proof. intros H1 H2 q Hq. by rewrite H2, H1. Qed.

Lemma changes_insert p ptr m b : p ∈ ptr -> changes ptr m (<[p := b]> m).
Proof. intros Hp q Hq. rewrite lookup_insert_ne; [done|]. by intros ->. Qed.

Lemma changes_sub ptr ptr' m m' : changes ptr m m' -> (forall q, q ∈ ptr -> q ∈ ptr') -> changes ptr' m m'.
Proof. intros Hc Hs q Hq. apply Hc. naive_solver. Qed.

Lemma block_fill_ok p d b m : m !! p = Some b -> (length d <= length b)%nat -> block_fill p d m = Ok (tt, <[p := d ++ drop (length d) b]> m).
Proof. intros Hp Hl. unfold block_fill. rewrite (st_bind_ok _ _ _ _ _ (block_at_ok m p b Hp)). by rewrite decide_True. Qed.

Lemma block_take_ok p b n m : m !! p = Some b -> (n <= length b)%nat -> block_take p (Z.of_nat n) m = Ok (take n b, m).
Proof. intros Hp Hl. unfold block_take. rewrite (st_bind_ok _ _ _ _ _ (block_at_ok m p b Hp)). rewrite decide_True by lia. by rewrite Nat2Z.id. Qed.

Lemma bread_ok p n pos b m f g :
  m !! p = Some b -> (n <= length b)%nat ->
  bread p (Z.of_nat n) pos (EtState m f g) = Ok (tt, EtState (<[p := padded f pos (Z.of_nat n) ++ drop n b]> m) f g).
Proof.
  intros Hp Hl. unfold bread. erewrite st_bind_ok; [|done]. cbn [es_file]. fold (padded f pos (Z.of_nat n)).
  unfold on_blocks. cbn [es_blocks es_file es_parity]. rewrite (block_fill_ok p _ b m Hp); rewrite padded_length; done.
Qed.

(** The strips from [pos] on, [ss] bytes apart. *)
Definition strips_at (f : bytes) (pos n ss : Z) (k : nat) : list bytes := (fun i : nat => padded f (pos + Z.of_nat i * ss) n) <$> seq 0 k.

Lemma strips_at_S f pos (n : Z) ss k : strips_at f pos n ss (S k) = padded f pos n :: strips_at f (pos + ss) n ss k.
Proof.
  unfold strips_at. cbn [seq]. rewrite fmap_cons. f_equal; [f_equal; lia|]. rewrite <- fmap_S_seq, <- list_fmap_compose.
  apply list_fmap_ext. intros _ i _. unfold compose. f_equal. lia.
Qed.

Lemma strips_at_sized f pos n ss k : sized n (strips_at f pos (Z.of_nat n) ss k).
Proof. apply Forall_fmap, Forall_forall. intros i _. apply padded_length. Qed.

Lemma strips_at_length f pos (n : Z) ss k : length (strips_at f pos n ss k) = k.
Proof. unfold strips_at. by rewrite length_fmap, length_seq. Qed.

Lemma read_strips_ok ptr n pos ss bs m f g :
  NoDup ptr -> at_blocks m ptr bs -> long n bs ->
  exists m', read_strips ptr pos (Z.of_nat n) ss (EtState m f g) = Ok (tt, EtState m' f g) /\
    at_blocks m' ptr (refill n (strips_at f pos (Z.of_nat n) ss (length ptr)) bs) /\ changes ptr m m'.
Proof.
  intros Hnd Hat. revert pos. revert m Hat. induction Hnd as [|p ptr Hp Hnd IH] in bs |- *; intros m Hat pos Hl.
  - exists m. split; [done|]. inversion Hat; subst. split; [constructor|done].
  - inversion Hat as [|? b ? bs' Hb Hat']; subst. apply Forall_cons in Hl as [Hb' Hl]. cbn [read_strips].
    rewrite (st_bind_ok _ _ _ _ _ (bread_ok p n pos b m f g Hb Hb')).
    destruct (IH bs' (<[p := padded f pos (Z.of_nat n) ++ drop n b]> m)) with (pos := pos + ss) as (m' & E & Hat2 & Hc); [by apply at_blocks_insert|done|].
    exists m'. split; [done|]. cbn [length]. rewrite strips_at_S. split.
    + constructor; [|done]. rewrite Hc by done. by rewrite lookup_insert_eq.
    + eapply changes_trans; [by apply (changes_insert p); left|]. eapply changes_sub; [done|]. by right.
Qed.

(** Refilled blocks. *)
Lemma refill_lengths n ds bs : sized n ds -> length ds = length bs -> long n bs -> length <$> refill n ds bs = length <$> bs.
Proof.
  intros Hs. revert bs. induction Hs as [|d ds Hd _ IH]; intros [|b bs] Hl Hlong; try done. apply Forall_cons in Hlong as [Hb Hlong].
  unfold refill. cbn [zip_with]. rewrite !fmap_cons. fold (refill n ds bs). injection Hl as Hl. rewrite IH by done. f_equal. rewrite length_app, length_drop. lia.
Qed.

Lemma refill_take n ds bs : sized n ds -> length ds = length bs -> take n <$> refill n ds bs = ds.
Proof.
  intros Hs. revert bs. induction Hs as [|d ds Hd _ IH]; intros [|b bs] Hl; try done. unfold refill. cbn [zip_with]. rewrite fmap_cons.
  fold (refill n ds bs). injection Hl as Hl. rewrite IH by done. f_equal. by apply take_app_length'.
Qed.

Lemma refill_refill n ds ds' bs : sized n ds -> length ds = length bs -> refill n ds' (refill n ds bs) = refill n ds' bs.
Proof.
  intros Hs. revert bs ds'. induction Hs as [|d ds Hd _ IH]; intros [|b bs] [|d' ds'] Hl; try done. unfold refill. cbn [zip_with].
  injection Hl as Hl. fold (refill n ds bs) (refill n ds' (refill n ds bs)) (refill n ds' bs). rewrite IH by done. do 2 f_equal. by apply drop_app_length'.
Qed.

Lemma long_lengths n bs bs' : length <$> bs' = length <$> bs -> long n bs -> long n bs'.
Proof.
  unfold long. rewrite !Forall_lookup. intros E Hl i b Hb. assert (Hi : (length <$> bs) !! i = Some (length b)) by (by rewrite <- E, list_lookup_fmap, Hb).
  rewrite list_lookup_fmap in Hi. destruct (bs !! i) as [b'|] eqn:Hb'; [|done]. injection Hi as <-. by apply (Hl i).
Qed.

Lemma long_le n n' bs : (n' <= n)%nat -> long n bs -> long n' bs.
Proof. intros Hn Hl. eapply Forall_impl; [exact Hl|]. intros b Hb. cbn beta in *. lia. Qed.

Lemma at_blocks_length m ptr bs : at_blocks m ptr bs -> length ptr = length bs.
Proof. apply Forall2_length. Qed.

(** A piece of a file that none of [k] strips touches. *)
Definition beside (pos n ss : Z) (k : nat) (pos' len : Z) : Prop :=
  forall i : nat, (i < k)%nat -> pos + Z.of_nat i * ss + n <= pos' \/ pos' + len <= pos + Z.of_nat i * ss.

Lemma beside_S pos (n : Z) ss k pos' len :
  beside pos n ss (S k) pos' len <-> (pos + n <= pos' \/ pos' + len <= pos) /\ beside (pos + ss) n ss k pos' len.
Proof.
  split.
  - intros Hb. split; [specialize (Hb 0%nat ltac:(lia)); lia|]. intros i Hi. specialize (Hb (S i) ltac:(lia)). lia.
  - intros [H0 Hb] [|i] Hi; [lia|]. specialize (Hb i ltac:(lia)). lia.
Qed.

Lemma write_parity_ok ptr n pos ss bs m f g :
  at_blocks m ptr bs -> long n bs -> 0 <= pos -> Z.of_nat n <= ss ->
  exists g', write_parity ptr pos (Z.of_nat n) ss (EtState m f g) = Ok (tt, EtState m f g') /\
    (forall i b, bs !! i = Some b -> file_get g' (pos + Z.of_nat i * ss) (Z.of_nat n) = take n b) /\
    (forall pos' d, 0 <= pos' -> file_get g pos' (Z.of_nat (length d)) = d -> beside pos (Z.of_nat n) ss (length ptr) pos' (Z.of_nat (length d)) ->
       file_get g' pos' (Z.of_nat (length d)) = d).
Proof.
  intros Hat Hl Hpos Hss. revert pos g Hpos. induction Hat as [|p b ptr bs Hb Hat IH]; intros pos g Hpos.
  - exists g. split; [done|]. split; [by intros i b|by intros].
  - apply Forall_cons in Hl as [Hb' Hl]. cbn beta in Hb'. assert (Hlt : length (take n b) = n) by (rewrite length_take; lia). cbn [write_parity].
    erewrite st_bind_ok; [|unfold on_blocks; cbn [es_blocks es_file es_parity]; by rewrite (block_take_ok p b n m Hb Hb')].
    erewrite st_bind_ok; [|done]. erewrite st_bind_ok; [|done]. cbn [es_blocks es_file es_parity].
    destruct (IH Hl (pos + ss) (file_put g pos (take n b)) ltac:(lia)) as (g' & E & Hget & Hold). exists g'. split; [done|]. split.
    + intros [|i] c Hc; cbn in Hc.
      * injection Hc as <-. rewrite Z.mul_0_l, Z.add_0_r. rewrite <- Hlt at 1. apply Hold; [done|by apply file_get_put|]. intros i Hi. rewrite Hlt. nia.
      * rewrite <- (Hget i c Hc). f_equal. lia.
    + intros pos' d Hp' Hd [H0 Hbes]%beside_S. apply Hold; [done| |done]. apply file_get_put_beside; [done..|]. rewrite Hlt. done.
Qed.

Lemma take_fill (d b : bytes) n : length d = n -> take n (d ++ drop n b) = d.
Proof. intros <-. by rewrite take_app_length. Qed.

(** The strips that are not missing are read. *)
Lemma read_missing_ok ptr missing n pos ss bs m f g :
  NoDup ptr -> at_blocks m ptr bs -> long n bs -> length missing = length ptr ->
  exists m' bs', read_missing ptr missing pos (Z.of_nat n) ss (EtState m f g) = Ok (tt, EtState m' f g) /\
    at_blocks m' ptr bs' /\ length <$> bs' = length <$> bs /\ changes ptr m m' /\
    forall i b, bs' !! i = Some b -> missing !! i = Some 0 -> take n b = padded f (pos + Z.of_nat i * ss) (Z.of_nat n).
Proof.
  intros Hnd. revert missing pos bs m. induction Hnd as [|p ptr Hp Hnd IH]; intros missing pos bs m Hat Hl Hm.
  - inversion Hat; subst. exists m, []. by repeat split.
  - inversion Hat as [|? b ? bs0 Hb Hat']; subst. apply Forall_cons in Hl as [Hb' Hl]. destruct missing as [|x missing]; [done|]. injection Hm as Hm. cbn [read_missing].
    assert (Hone : exists m1 b1, (if x =? 0 then bread p (Z.of_nat n) pos else mret tt) (EtState m f g) = Ok (tt, EtState m1 f g) /\ m1 !! p = Some b1 /\
      length b1 = length b /\ changes [p] m m1 /\ (x = 0 -> take n b1 = padded f pos (Z.of_nat n))).
    { destruct (Z.eqb_spec x 0) as [->|Hx]; [|exists m, b; by repeat split]. eexists _, _. split; [by apply (bread_ok p n pos b)|]. split; [by rewrite lookup_insert_eq|].
      split; [rewrite length_app, length_drop, padded_length; lia|]. split; [by apply changes_insert; left|]. intros _. apply take_fill, padded_length. }
    destruct Hone as (m1 & b1 & E1 & Hb1 & Hlb & Hc1 & Ht1). rewrite (st_bind_ok _ _ _ _ _ E1).
    destruct (IH missing (pos + ss) bs0 m1) as (m2 & bs2 & E2 & Hat2 & Hlen & Hc2 & Ht2); [|done|done|].
    { eapply at_blocks_frame; [done..|]. intros q Hq. apply not_elem_of_cons. split; [by intros ->|apply not_elem_of_nil]. }
    exists m2, (b1 :: bs2). split; [done|]. split; [constructor; [by rewrite Hc2|done]|]. split; [rewrite !fmap_cons; congruence|]. split.
    + eapply changes_trans; eapply changes_sub; [exact Hc1|set_solver|exact Hc2|set_solver].
    + intros [|i] c Hc Hx; cbn in Hc, Hx.
      * injection Hc as <-. injection Hx as ->. rewrite Ht1 by done. f_equal. lia.
      * rewrite (Ht2 i c Hc Hx). f_equal. lia.
Qed.

Lemma read_parity_ok ptr missing n pos ss bs m f g :
  NoDup ptr -> at_blocks m ptr bs -> long n bs -> length missing = length ptr ->
  (forall i, missing !! i = Some 0 -> length (file_get g (pos + Z.of_nat i * ss) (Z.of_nat n)) = n) ->
  exists m' bs', read_parity ptr missing pos (Z.of_nat n) ss (EtState m f g) = Ok (tt, EtState m' f g) /\
    at_blocks m' ptr bs' /\ length <$> bs' = length <$> bs /\ changes ptr m m' /\
    forall i b, bs' !! i = Some b -> missing !! i = Some 0 -> take n b = file_get g (pos + Z.of_nat i * ss) (Z.of_nat n).
Proof.
  intros Hnd. revert missing pos bs m. induction Hnd as [|p ptr Hp Hnd IH]; intros missing pos bs m Hat Hl Hm Hfull.
  - inversion Hat; subst. exists m, []. by repeat split.
  - inversion Hat as [|? b ? bs0 Hb Hat']; subst. apply Forall_cons in Hl as [Hb' Hl]. destruct missing as [|x missing]; [done|]. injection Hm as Hm. cbn [read_parity].
    set (d := file_get g pos (Z.of_nat n)). assert (Hd : x = 0 -> length d = n).
    { intros ->. pose proof (Hfull 0%nat eq_refl) as H0. by rewrite Z.mul_0_l, Z.add_0_r in H0. }
    match goal with |- context [mbind _ ?one] => assert (Hone : exists m1 b1, one (EtState m f g) = Ok (tt, EtState m1 f g) /\ m1 !! p = Some b1 /\
      length b1 = length b /\ changes [p] m m1 /\ (x = 0 -> take n b1 = d)) end.
    { destruct (Z.eqb_spec x 0) as [->|Hx]; [|exists m, b; by repeat split]. specialize (Hd eq_refl). eexists _, _. split.
      { erewrite st_bind_ok; [|done]. cbn [es_parity]. fold d. erewrite st_bind_ok; [|unfold on_blocks; cbn [es_blocks es_file es_parity]; rewrite (block_fill_ok p d b m Hb) by lia; done].
        rewrite (proj2 (Z.eqb_eq _ _)) by lia. done. }
      split; [by rewrite lookup_insert_eq|]. rewrite Hd. split; [rewrite length_app, length_drop; lia|]. split; [by apply changes_insert; left|]. intros _. by apply take_fill. }
    destruct Hone as (m1 & b1 & E1 & Hb1 & Hlb & Hc1 & Ht1). rewrite (st_bind_ok _ _ _ _ _ E1).
    destruct (IH missing (pos + ss) bs0 m1) as (m2 & bs2 & E2 & Hat2 & Hlen & Hc2 & Ht2); [|done|done|..].
    { eapply at_blocks_frame; [done..|]. intros q Hq. apply not_elem_of_cons. split; [by intros ->|apply not_elem_of_nil]. }
    { intros i Hi. pose proof (Hfull (S i) Hi) as H0. by replace (pos + Z.of_nat (S i) * ss) with (pos + ss + Z.of_nat i * ss) in H0 by lia. }
    exists m2, (b1 :: bs2). split; [done|]. split; [constructor; [by rewrite Hc2|done]|]. split; [rewrite !fmap_cons; congruence|]. split.
    + eapply changes_trans; eapply changes_sub; [exact Hc1|set_solver|exact Hc2|set_solver].
    + intros [|i] c Hc Hx; cbn in Hc, Hx.
      * injection Hc as <-. injection Hx as ->. rewrite Ht1 by done. unfold d. f_equal. lia.
      * rewrite (Ht2 i c Hc Hx). f_equal. lia.
Qed.

(** Putting back a piece that reaches to [n] or to the end of the file. *)
Lemma file_put_restores f0 f pos (n n' : Z) :
  0 <= pos -> length f = length f0 -> 0 <= n' <= n -> pos + n' <= Z.of_nat (length f0) -> n' = n \/ pos + n' = Z.of_nat (length f0) ->
  length (file_put f pos (take (Z.to_nat n') (padded f0 pos n))) = length f0 /\
  forall x : nat, (f !! x = f0 !! x \/ pos <= Z.of_nat x < pos + n) -> file_put f pos (take (Z.to_nat n') (padded f0 pos n)) !! x = f0 !! x.
Proof.
  intros Hpos Hlen Hn Hin Hend. assert (Hg : take (Z.to_nat n') (padded f0 pos n) = file_get f0 pos n').
  { unfold padded. pose proof (file_get_length f0 pos n' Hpos ltac:(lia) Hin) as Hl.
    assert (Hle : (Z.to_nat n' <= length (file_get f0 pos n))%nat) by (unfold file_get in *; rewrite length_take, length_drop in *; lia).
    rewrite take_app_le by done. unfold file_get. rewrite take_take. f_equal. lia. }
  rewrite Hg. pose proof (file_get_length f0 pos n' Hpos ltac:(lia) Hin) as Hl.
  assert (Hlf : length (file_put f pos (file_get f0 pos n')) = length f0) by (rewrite file_put_length; lia). split; [done|].
  intros x Hx. rewrite file_put_lookup by done. case_decide as Hr.
  - rewrite file_get_lookup by lia. f_equal. lia.
  - case_decide as Hxl; [|rewrite decide_False by lia; symmetry; apply lookup_ge_None; lia].
    destruct Hx as [?|Hx]; [done|]. lia.
Qed.

(** The rebuilt strips are written back. *)
Lemma write_missing_ok ptr missing n pos ss bs f0 m f g :
  at_blocks m ptr bs -> long n bs -> length missing = length ptr -> 0 <= pos -> Z.of_nat n <= ss -> length f = length f0 ->
  (forall i b, bs !! i = Some b -> missing !! i = Some 1 -> take n b = padded f0 (pos + Z.of_nat i * ss) (Z.of_nat n)) ->
  (forall i, missing !! i = Some 1 -> pos + Z.of_nat i * ss + (if decide (S i = length ptr) then 0 else Z.of_nat n) <= Z.of_nat (length f0)) ->
  exists f', write_missing ptr missing (Z.of_nat (length f0)) pos (Z.of_nat n) ss (EtState m f g) = Ok (tt, EtState m f' g) /\ length f' = length f0 /\
    forall x : nat, (f !! x = f0 !! x \/ exists i : nat, missing !! i = Some 1 /\ pos + Z.of_nat i * ss <= Z.of_nat x < pos + Z.of_nat i * ss + Z.of_nat n) -> f' !! x = f0 !! x.
Proof.
  intros Hat. revert missing pos f. induction Hat as [|p b ptr bs Hb Hat IH]; intros missing pos f Hl Hm Hpos Hss Hlen Hgood Hin.
  - exists f. destruct missing; [|done]. split; [done|]. split; [done|]. by intros x [?|(i & ? & _)].
  - apply Forall_cons in Hl as [Hb' Hl]. destruct missing as [|x missing]; [done|]. injection Hm as Hm. cbn [write_missing].
    set (n' := match ptr with [] => if pos + Z.of_nat n >? Z.of_nat (length f0) then Z.of_nat (length f0) - pos else Z.of_nat n | _ => Z.of_nat n end).
    assert (Hn' : x = 1 -> 0 <= n' <= Z.of_nat n /\ pos + n' <= Z.of_nat (length f0) /\ (n' = Z.of_nat n \/ pos + n' = Z.of_nat (length f0))).
    { intros ->. specialize (Hin 0%nat eq_refl). unfold n'. destruct ptr; cbn [length] in Hin; [destruct (Z.gtb_spec (pos + Z.of_nat n) (Z.of_nat (length f0)))|]; case_decide; (done || lia). } clearbody n'.
    match goal with |- context [mbind _ ?one] => assert (Hone : exists f1, one (EtState m f g) = Ok (tt, EtState m f1 g) /\ length f1 = length f0 /\
      forall y : nat, (f !! y = f0 !! y \/ (x = 1 /\ pos <= Z.of_nat y < pos + Z.of_nat n)) -> f1 !! y = f0 !! y) end.
    { destruct (Z.eqb_spec x 1) as [->|Hx]; [|exists f; split; [done|]; split; [done|]; by intros y [?|[? _]]].
      specialize (Hn' eq_refl). destruct (file_put_restores f0 f pos (Z.of_nat n) n' Hpos Hlen ltac:(lia) ltac:(lia) ltac:(tauto)) as [Hl1 Hr1]. eexists. split.
      - assert (Hbt : block_take p n' m = Ok (take (Z.to_nat n') b, m)) by (rewrite <- (Z2Nat.id n') at 1 by lia; apply block_take_ok; [done|lia]).
        erewrite st_bind_ok; [|unfold on_blocks; cbn [es_blocks es_file es_parity]; by rewrite Hbt]. erewrite st_bind_ok; [|done]. done.
      - cbn [es_file]. replace (take (Z.to_nat n') b) with (take (Z.to_nat n') (padded f0 pos (Z.of_nat n))); [split; [done|]; intros y [?|[_ ?]]; apply Hr1; tauto|].
        pose proof (Hgood 0%nat b eq_refl eq_refl) as Hg. rewrite Z.mul_0_l, Z.add_0_r in Hg. rewrite <- Hg, take_take. f_equal. lia. }
    destruct Hone as (f1 & E1 & Hlf1 & Hf1). rewrite (st_bind_ok _ _ _ _ _ E1).
    destruct (IH missing (pos + ss) f1) as (f2 & E2 & Hlf2 & Hf2); [done|done|lia|done|done|..].
    + intros i c Hc Hi. rewrite (Hgood (S i) c Hc Hi). f_equal. lia.
    + intros i Hi. specialize (Hin (S i) Hi). cbn [length] in Hin. do 2 case_decide; lia.
    + exists f2. split; [done|]. split; [done|]. intros y Hy. apply Hf2. destruct Hy as [Hy|([|i] & Hi & Hy)].
      * left. apply Hf1. by left.
      * left. apply Hf1. right. cbn in Hi. split; [congruence|lia].
      * right. exists i. split; [done|lia].
Qed.

End blocks.

(** ** Codes *)
Section codes.
Context {matrix schedule : Type} `{Jerasure matrix schedule}.
Abbreviation plan := (erasure_plan matrix schedule).
Implicit Types (p : plan) (m : blocks) (ds bs cs : list bytes).

Abbreviation parity_ptrs p := (parity_ptr p (strip_ptrs p)).

(** What the documentation of a code promises of one group of blocks: the
    parity blocks are [enc] of the data blocks, ... *)
Record encodes p (size_ok : Z -> Prop) (enc : list bytes -> list bytes) : Prop := Encodes {
  en_sized n ds : length ds = Z.to_nat (data_strips p) -> sized n ds -> length (enc ds) = Z.to_nat (parity_strips p) /\ sized n (enc ds);
  en_run n m bs cs :
    size_ok (Z.of_nat n) -> at_blocks m (data_ptrs p) bs -> at_blocks m (parity_ptrs p) cs -> long n bs -> long n cs ->
    exists m', encode_block p (strip_ptrs p) (Z.of_nat n) m = Ok (tt, m') /\
      at_blocks m' (data_ptrs p) bs /\ at_blocks m' (parity_ptrs p) (refill n (enc (take n <$> bs)) cs) }.

(** ... and the data blocks named by erasures it can deal with are rebuilt
    from the others. *)
Definition decodes p (size_ok : Z -> Prop) (rebuilds : list Z -> Prop) (enc : list bytes -> list bytes) : Prop :=
  forall n m ds bs cs es rest,
    size_ok (Z.of_nat n) -> rebuilds es -> at_blocks m (data_ptrs p) bs -> at_blocks m (parity_ptrs p) cs -> long n bs -> long n cs ->
    length ds = Z.to_nat (data_strips p) -> sized n ds ->
    (forall i b, (bs ++ cs) !! i = Some b -> Z.of_nat i ∉ es -> (ds ++ enc ds) !! i = Some (take n b)) ->
    exists r m' cs', decode_block p (strip_ptrs p) (Z.of_nat n) (es ++ -1 :: rest) m = Ok (r, m') /\
      at_blocks m' (data_ptrs p) (refill n ds bs) /\ at_blocks m' (parity_ptrs p) cs' /\ length <$> cs' = length <$> cs.

(** *** The pointers of a plan *)

Lemma strip_ptrs_length p : length (strip_ptrs p) = Z.to_nat (data_strips p + parity_strips p).
Proof. unfold strip_ptrs. by rewrite length_fmap, length_seq. Qed.

Lemma strip_ptrs_nodup p : NoDup (strip_ptrs p).
Proof. unfold strip_ptrs. apply NoDup_fmap_2; [apply _|apply NoDup_seq]. Qed.

Lemma strip_ptrs_split p : strip_ptrs p = data_ptrs p ++ parity_ptrs p.
Proof. unfold data_ptrs, parity_ptr. by rewrite take_drop. Qed.

Lemma data_ptrs_length p : 0 <= data_strips p -> 0 <= parity_strips p -> length (data_ptrs p) = Z.to_nat (data_strips p).
Proof. intros. unfold data_ptrs. rewrite length_take, strip_ptrs_length. lia. Qed.

Lemma parity_ptrs_length p : 0 <= data_strips p -> 0 <= parity_strips p -> length (parity_ptrs p) = Z.to_nat (parity_strips p).
Proof. intros. unfold parity_ptr. rewrite length_drop, strip_ptrs_length. lia. Qed.

Lemma ptrs_apart p q : q ∈ data_ptrs p -> q ∉ parity_ptrs p.
Proof. pose proof (strip_ptrs_nodup p) as Hnd. rewrite strip_ptrs_split in Hnd. apply NoDup_app in Hnd as (_ & Hd & _). apply Hd. Qed.

Lemma data_ptrs_nodup p : NoDup (data_ptrs p).
Proof. pose proof (strip_ptrs_nodup p) as Hnd. rewrite strip_ptrs_split in Hnd. by apply NoDup_app in Hnd as (? & _). Qed.

Lemma parity_ptrs_nodup p : NoDup (parity_ptrs p).
Proof. pose proof (strip_ptrs_nodup p) as Hnd. rewrite strip_ptrs_split in Hnd. by apply NoDup_app in Hnd as (_ & _ & ?). Qed.

(** *** Blocks of a strip *)

Lemma chunk_ok rpos B ss : 0 < B -> 0 <= rpos < ss -> 0 < chunk rpos B ss <= B /\ rpos + chunk rpos B ss <= ss /\ (rpos + B <= ss -> chunk rpos B ss = B).
Proof. intros Hb Hr. unfold chunk. destruct (Z.gtb_spec (rpos + B) ss); lia. Qed.

(** The starts of two blocks. *)
Lemma block_before B r rpos : 0 < B -> (B | r) -> (B | rpos) -> r < rpos -> r + B <= rpos.
Proof. intros Hb [a ->] [b ->] Hlt. assert (a < b) by (by apply (Z.mul_lt_mono_pos_r B)). nia. Qed.

Section loops.
Context (p : plan) (f : bytes) (foff poff B : Z) (size_ok : Z -> Prop) (enc : list bytes -> list bytes).
Abbreviation ss := (strip_size p).
Abbreviation k := (Z.to_nat (data_strips p)).
Context (Hk : 0 <= data_strips p) (Hnp : 0 <= parity_strips p) (HB : 0 < B) (Hfoff : 0 <= foff) (Hpoff : 0 <= poff).
Context (Hsize : forall r, 0 <= r < ss -> (B | r) -> size_ok (chunk r B ss)).
Context (Hsized : forall n ds, length ds = k -> sized n ds -> length (enc ds) = Z.to_nat (parity_strips p) /\ sized n (enc ds)).

(** The data blocks at [r], and what the parity file has for them. *)
Definition dblocks (r : Z) : list bytes := strips_at f (foff + r) (chunk r B ss) ss k.
Definition parity_good (g : bytes) (r : Z) : Prop :=
  forall i c, enc (dblocks r) !! i = Some c -> file_get g (poff + r + Z.of_nat i * ss) (chunk r B ss) = c.

Lemma dblocks_sized r : 0 <= r < ss -> sized (Z.to_nat (chunk r B ss)) (dblocks r) /\ length (dblocks r) = k.
Proof.
  intros Hr. pose proof (chunk_ok r B ss HB Hr). split; [|apply strips_at_length]. unfold dblocks.
  rewrite <- (Z2Nat.id (chunk r B ss)) at 2 by lia. apply strips_at_sized.
Qed.

(** A block of parity stays as later blocks are written. *)
Lemma parity_beside r rpos i : 
  0 <= r -> r < rpos < ss -> (B | r) -> (B | rpos) ->
  beside (poff + rpos) (chunk rpos B ss) ss (length (parity_ptrs p)) (poff + r + Z.of_nat i * ss) (chunk r B ss).
Proof.
  intros Hr Hlt Hd Hd' i' Hi'. pose proof (block_before B r rpos HB Hd Hd' ltac:(lia)).
  pose proof (chunk_ok r B ss HB ltac:(lia)) as (? & ? & Hfull). rewrite Hfull by lia. pose proof (chunk_ok rpos B ss HB ltac:(lia)).
  destruct (decide (i <= i')%nat); [right|left]; nia.
Qed.

(** One group of blocks is encoded. *)
Lemma encode_step rpos m g bsd bsp :
  encodes p size_ok enc -> 0 <= rpos < ss -> (B | rpos) ->
  at_blocks m (data_ptrs p) bsd -> at_blocks m (parity_ptrs p) bsp -> long (Z.to_nat B) bsd -> long (Z.to_nat B) bsp ->
  (forall r, 0 <= r < rpos -> (B | r) -> parity_good g r) ->
  exists m' g' bsd' bsp', (_ ← read_strips (data_ptrs p) (foff + rpos) (chunk rpos B ss) ss;
      _ ← on_blocks (encode_block p (strip_ptrs p) (chunk rpos B ss));
      write_parity (parity_ptrs p) (poff + rpos) (chunk rpos B ss) ss) (EtState m f g) = Ok (tt, EtState m' f g') /\
    at_blocks m' (data_ptrs p) bsd' /\ at_blocks m' (parity_ptrs p) bsp' /\ long (Z.to_nat B) bsd' /\ long (Z.to_nat B) bsp' /\
    (forall r, 0 <= r < rpos + B -> r < ss -> (B | r) -> parity_good g' r).
Proof.
  intros [_ Hrun] Hr Hdiv Hd Hp Hld Hlp Hgood. pose proof (chunk_ok rpos B ss HB Hr) as (Hc & Hcs & _). specialize (Hsize rpos Hr Hdiv).
  destruct (dblocks_sized rpos Hr) as [Hds Hdl]. unfold parity_good, dblocks in *. set (n := Z.to_nat (chunk rpos B ss)) in *.
  assert (Hn : chunk rpos B ss = Z.of_nat n) by lia. rewrite Hn in *. set (ds := strips_at f (foff + rpos) (Z.of_nat n) ss k) in *.
  assert (Hld' : long n bsd) by (eapply long_le; [|done]; lia). assert (Hlp' : long n bsp) by (eapply long_le; [|done]; lia).
  pose proof (at_blocks_length _ _ _ Hd) as Hdlen. pose proof (at_blocks_length _ _ _ Hp) as Hplen. rewrite data_ptrs_length in Hdlen by done. rewrite parity_ptrs_length in Hplen by done.
  destruct (read_strips_ok (data_ptrs p) n (foff + rpos) ss bsd m f g (data_ptrs_nodup p) Hd Hld') as (m1 & E1 & Hd1 & Hc1). rewrite data_ptrs_length in Hd1 by done. fold ds in Hd1.
  rewrite (st_bind_ok _ _ _ _ _ E1). assert (Hp1 : at_blocks m1 (parity_ptrs p) bsp) by (eapply at_blocks_frame; [done..|]; intros q Hq Hq'; by apply (ptrs_apart p q)).
  assert (Hlen1 : length <$> refill n ds bsd = length <$> bsd) by (apply refill_lengths; [done|lia|done]).
  destruct (Hrun n m1 _ bsp Hsize Hd1 Hp1) as (m2 & E2 & Hd2 & Hp2); [by eapply long_lengths|done|]. rewrite refill_take in Hp2 by (done || lia).
  erewrite st_bind_ok; [|unfold on_blocks; cbn [es_blocks es_file es_parity]; by rewrite E2].
  destruct (Hsized n ds) as [Hel Hes]; [done..|]. assert (Hlen2 : length <$> refill n (enc ds) bsp = length <$> bsp) by (apply refill_lengths; [done|lia|done]).
  destruct (write_parity_ok (parity_ptrs p) n (poff + rpos) ss _ m2 f g Hp2) as (g' & E3 & Hnew & Hold); [by eapply long_lengths|lia|lia|].
  exists m2, g', (refill n ds bsd), (refill n (enc ds) bsp). split; [exact E3|]. do 2 (split; [done|]). split; [by eapply long_lengths|]. split; [by eapply long_lengths|].
  intros r Hr0 Hrs Hrd i c Hi. destruct (decide (r = rpos)) as [->|Hne].
  - rewrite Hn in *. fold ds in Hi. destruct (lookup_lt_is_Some_2 (refill n (enc ds) bsp) i) as [b Hb].
    { unfold refill. rewrite length_zip_with. apply lookup_lt_Some in Hi. lia. }
    rewrite (Hnew i b Hb). assert (Ht : (take n <$> refill n (enc ds) bsp) !! i = Some (take n b)) by (by rewrite list_lookup_fmap, Hb).
    rewrite refill_take in Ht by (done || lia). congruence.
  - assert (Hlt : r < rpos) by (destruct (Z.lt_trichotomy r rpos) as [|[|Hgt]]; [done|done|]; pose proof (block_before B rpos r HB Hdiv Hrd Hgt); lia).
    pose proof (chunk_ok r B ss HB ltac:(lia)) as (Hc0 & _). destruct (dblocks_sized r ltac:(lia)) as [Hs0 Hl0]. unfold dblocks in Hs0, Hl0.
    destruct (Hsized _ _ Hl0 Hs0) as [_ Hes0]. assert (Hcl : length c = Z.to_nat (chunk r B ss)) by (by eapply (proj1 (Forall_lookup _ _) Hes0)).
    replace (chunk r B ss) with (Z.of_nat (length c)) by lia. apply Hold; [nia| |].
    + replace (Z.of_nat (length c)) with (chunk r B ss) by lia. apply Hgood; [lia|done|done].
    + replace (Z.of_nat (length c)) with (chunk r B ss) by lia. rewrite <- Hn. apply parity_beside; (done || lia).
Qed.

Lemma file_encode_loop_ok fuel rpos m g bsd bsp :
  encodes p size_ok enc -> 0 <= rpos -> (B | rpos) ->
  at_blocks m (data_ptrs p) bsd -> at_blocks m (parity_ptrs p) bsp -> long (Z.to_nat B) bsd -> long (Z.to_nat B) bsp ->
  (forall r, 0 <= r < rpos -> r < ss -> (B | r) -> parity_good g r) -> ss - rpos <= Z.of_nat fuel ->
  exists s, et_encode_loop fuel p rpos (foff + rpos) (poff + rpos) B (EtState m f g) = Ok (tt, s) /\
    forall r, 0 <= r < ss -> (B | r) -> parity_good (es_parity s) r.
Proof.
  intros Henc. revert rpos m g bsd bsp. induction fuel as [|fuel IH]; intros rpos m g bsd bsp Hr Hdiv Hd Hp Hld Hlp Hgood Hfuel; cbn [et_encode_loop].
  - rewrite (proj2 (Z.ltb_ge _ _)) by lia. eexists. split; [done|]. intros r Hrs Hrd. apply Hgood; (done || lia).
  - destruct (Z.ltb_spec rpos ss) as [Hlt|Hge]; [|eexists; split; [done|]; intros r Hrs Hrd; apply Hgood; (done || lia)].
    destruct (encode_step rpos m g bsd bsp) as (m' & g' & bsd' & bsp' & E & Hd' & Hp' & Hld' & Hlp' & Hgood'); [done..| |].
    { intros r Hr0 Hrd. apply Hgood; (done || lia). }
    destruct (IH (rpos + B) m' g' bsd' bsp') as (s & Es & Hs); [lia|by apply Z.divide_add_r; [|apply Z.divide_refl]|done..|lia|]. exists s. split; [|done].
    revert E. unfold mbind, st_bind. destruct (read_strips _ _ _ _ _) as [[? s1]|]; [|done]. destruct (on_blocks _ s1) as [[? s2]|]; [|done].
    intros ->. rewrite !Z.add_assoc in Es. done.
Qed.

(** *** Decoding *)

Context (es rest : list Z) (rebuilds : list Z -> Prop).
Context (Hes : rebuilds es) (Hlast : forall r e, 0 <= r < ss -> (B | r) -> e ∈ es -> 0 <= e < data_strips p ->
  foff + r + e * ss + (if decide (e + 1 = data_strips p) then 0 else chunk r B ss) <= Z.of_nat (length f)).

(** The strips that are marked. *)
Definition missing_of (n : nat) : list Z := (fun i : nat => if decide (Z.of_nat i ∈ es) then 1 else 0) <$> seq 0 n.

Lemma missing_lookup n i x : missing_of n !! i = Some x <-> (i < n)%nat /\ x = if decide (Z.of_nat i ∈ es) then 1 else 0.
Proof.
  unfold missing_of. rewrite list_lookup_fmap. destruct (decide (i < n)%nat) as [Hi|Hi].
  - rewrite lookup_seq_lt by done. cbn. split; [intros [= <-]|intros [_ ->]]; done.
  - rewrite lookup_seq_ge by lia. cbn. naive_solver.
Qed.

(** The bytes that may still be wrong when the blocks before [rpos] are
    done. *)
Definition dirty (rpos : Z) (x : nat) : Prop :=
  exists e : nat, (e < k)%nat /\ Z.of_nat e ∈ es /\ foff + Z.of_nat e * ss + rpos <= Z.of_nat x < foff + Z.of_nat e * ss + ss.

Definition restored (rpos : Z) (f' : bytes) : Prop := length f' = length f /\ forall x, ~ dirty rpos x -> f' !! x = f !! x.

(** A strip that is not missing is read as it was. *)
Lemma restored_padded rpos f' (i : nat) :
  restored rpos f' -> 0 <= rpos < ss -> (i < k)%nat -> Z.of_nat i ∉ es ->
  padded f' (foff + rpos + Z.of_nat i * ss) (chunk rpos B ss) = padded f (foff + rpos + Z.of_nat i * ss) (chunk rpos B ss).
Proof.
  intros [Hl Hf] Hr Hi Hn. pose proof (chunk_ok rpos B ss HB Hr) as (Hc & Hcs & _). unfold padded.
  assert (Hg : file_get f' (foff + rpos + Z.of_nat i * ss) (chunk rpos B ss) = file_get f (foff + rpos + Z.of_nat i * ss) (chunk rpos B ss)).
  { apply list_eq. intros j. destruct (decide (Z.of_nat j < chunk rpos B ss)) as [Hj|Hj].
    - rewrite !file_get_lookup by nia. apply Hf. intros (e & He & Hin & Hx). destruct (decide (e = i)) as [->|Hne]; [done|].
      destruct (decide (e < i)%nat); nia.
    - unfold file_get. rewrite !lookup_take_ge by lia. done. }
  by rewrite Hg.
Qed.

Lemma take_missing : take k (missing_of (length (strip_ptrs p))) = missing_of k.
Proof.
  unfold missing_of. rewrite <- fmap_take. f_equal. rewrite strip_ptrs_length. apply list_eq. intros i.
  destruct (decide (i < k)%nat); [rewrite lookup_take_lt, !lookup_seq_lt by lia|rewrite lookup_take_ge, lookup_seq_ge by lia]; done.
Qed.

Lemma drop_missing i x : drop k (missing_of (length (strip_ptrs p))) !! i = Some x -> x = 0 -> Z.of_nat (k + i) ∉ es.
Proof. rewrite lookup_drop. intros [_ ->]%missing_lookup. by case_decide. Qed.

(** The groups read are those of the codeword where nothing is missing. *)
Lemma group_read rpos f' g bsd bsp n :
  restored rpos f' -> 0 <= rpos < ss -> (B | rpos) -> n = Z.to_nat (chunk rpos B ss) -> parity_good g rpos ->
  length bsd = k -> length bsp = Z.to_nat (parity_strips p) ->
  (forall i b, bsd !! i = Some b -> missing_of k !! i = Some 0 -> take n b = padded f' (foff + rpos + Z.of_nat i * ss) (chunk rpos B ss)) ->
  (forall i b, bsp !! i = Some b -> drop k (missing_of (length (strip_ptrs p))) !! i = Some 0 ->
     take n b = file_get g (poff + rpos + Z.of_nat i * ss) (chunk rpos B ss)) ->
  forall i b, (bsd ++ bsp) !! i = Some b -> Z.of_nat i ∉ es -> (dblocks rpos ++ enc (dblocks rpos)) !! i = Some (take n b).
Proof.
  intros Hres Hr Hdiv Hn Hgood Hbd Hbp Hd Hp i b Hb Hin. destruct (dblocks_sized rpos Hr) as [Hs Hl]. destruct (Hsized _ _ Hl Hs) as [Hel _].
  destruct (decide (i < k)%nat) as [Hi|Hi].
  - rewrite lookup_app_l in Hb |- * by lia. rewrite (Hd i b Hb) by (apply missing_lookup; by rewrite decide_False). unfold dblocks, strips_at.
    rewrite list_lookup_fmap, lookup_seq_lt by done. cbn. f_equal. symmetry. by apply restored_padded.
  - rewrite lookup_app_r in Hb |- * by lia. rewrite Hl, Hbd in *. destruct (lookup_lt_is_Some_2 (enc (dblocks rpos)) (i - k)) as [c Hc].
    { apply lookup_lt_Some in Hb. lia. }
    rewrite Hc. f_equal. rewrite (Hp (i - k)%nat b Hb).
    + symmetry. by apply Hgood.
    + rewrite lookup_drop. apply missing_lookup. rewrite strip_ptrs_length. replace (k + (i - k))%nat with i by lia. apply lookup_lt_Some in Hb.
      split; [lia|]. by rewrite decide_False.
Qed.

Abbreviation missing := (missing_of (length (strip_ptrs p))).

Lemma missing_length : length missing = length (strip_ptrs p).
Proof. unfold missing_of. by rewrite length_fmap, length_seq. Qed.

(** What writing the rebuilt blocks back leaves to do. *)
Lemma restored_step rpos f' f2 :
  0 <= rpos < ss -> restored rpos f' -> length f2 = length f ->
  (forall x : nat, (f' !! x = f !! x \/ exists i : nat, missing_of k !! i = Some 1 /\
      foff + rpos + Z.of_nat i * ss <= Z.of_nat x < foff + rpos + Z.of_nat i * ss + chunk rpos B ss) -> f2 !! x = f !! x) ->
  restored (rpos + B) f2.
Proof.
  intros Hr Hres Hl Hf2. pose proof (chunk_ok rpos B ss HB Hr) as (Hc & Hcs & Hfull). split; [done|]. intros x Hx. apply Hf2.
  destruct (decide (Exists (fun e : nat => Z.of_nat e ∈ es /\ foff + Z.of_nat e * ss + rpos <= Z.of_nat x < foff + Z.of_nat e * ss + ss) (seq 0 k))) as [He|He].
  - right. apply Exists_exists in He as (e & He%elem_of_seq & Hin & Hrng). exists e. split; [apply missing_lookup; rewrite decide_True by done; split; [lia|done]|].
    destruct (Z.lt_ge_cases (Z.of_nat x) (foff + Z.of_nat e * ss + (rpos + B))) as [Hlt|Hge]; [|exfalso; apply Hx; exists e; split; [lia|]; split; [done|lia]].
    destruct (Z.le_gt_cases (rpos + B) ss); [rewrite Hfull by done; lia|]. unfold chunk. rewrite Z.gtb_ltb, (proj2 (Z.ltb_lt _ _)) by lia. lia.
  - left. apply Hres. intros (e & He' & Hin & Hrng). apply He, Exists_exists. exists e. split; [apply elem_of_seq; lia|done].
Qed.

Lemma decode_step rpos m f' g bsd bsp :
  decodes p size_ok rebuilds enc -> 0 <= rpos < ss -> (B | rpos) -> 0 < data_strips p ->
  at_blocks m (data_ptrs p) bsd -> at_blocks m (parity_ptrs p) bsp -> long (Z.to_nat B) bsd -> long (Z.to_nat B) bsp ->
  parity_good g rpos -> restored rpos f' ->
  exists m' f'' bsd' bsp', (_ ← read_missing (data_ptrs p) (take k missing) (foff + rpos) (chunk rpos B ss) ss;
      _ ← read_parity (parity_ptrs p) (drop k missing) (poff + rpos) (chunk rpos B ss) ss;
      _ ← on_blocks (decode_block p (strip_ptrs p) (chunk rpos B ss) (es ++ -1 :: rest));
      write_missing (data_ptrs p) (take k missing) (Z.of_nat (length f)) (foff + rpos) (chunk rpos B ss) ss) (EtState m f' g) = Ok (tt, EtState m' f'' g) /\
    at_blocks m' (data_ptrs p) bsd' /\ at_blocks m' (parity_ptrs p) bsp' /\ long (Z.to_nat B) bsd' /\ long (Z.to_nat B) bsp' /\ restored (rpos + B) f''.
Proof.
  intros Hdec Hr Hdiv Hkpos Hd Hp Hld Hlp Hgood Hres. pose proof (chunk_ok rpos B ss HB Hr) as (Hc & Hcs & Hfull). specialize (Hsize rpos Hr Hdiv).
  pose proof (dblocks_sized rpos Hr) as [Hds Hdl]. destruct (Hsized _ _ Hdl Hds) as [Hel Hes'].
  pose proof (at_blocks_length _ _ _ Hd) as Hdlen. pose proof (at_blocks_length _ _ _ Hp) as Hplen. rewrite data_ptrs_length in Hdlen by done. rewrite parity_ptrs_length in Hplen by done.
  set (n := Z.to_nat (chunk rpos B ss)) in *. assert (Hn : chunk rpos B ss = Z.of_nat n) by lia.
  assert (Hld' : long n bsd) by (eapply long_le; [|done]; lia). assert (Hlp' : long n bsp) by (eapply long_le; [|done]; lia). rewrite take_missing.
  assert (Hml : length (missing_of k) = k) by (unfold missing_of; by rewrite length_fmap, length_seq).
  destruct (read_missing_ok (data_ptrs p) (missing_of k) n (foff + rpos) ss bsd m f' g) as (m1 & bsd1 & E1 & Hd1 & Hlen1 & Hc1 & Ht1); [apply data_ptrs_nodup|done|done|by rewrite data_ptrs_length|].
  rewrite <- Hn in E1, Ht1. rewrite (st_bind_ok _ _ _ _ _ E1).
  assert (Hp1 : at_blocks m1 (parity_ptrs p) bsp) by (eapply at_blocks_frame; [done..|]; intros q Hq Hq'; by apply (ptrs_apart p q)).
  destruct (read_parity_ok (parity_ptrs p) (drop k missing) n (poff + rpos) ss bsp m1 f' g) as (m2 & bsp2 & E2 & Hp2 & Hlen2 & Hc2 & Ht2);
    [apply parity_ptrs_nodup|done|done|rewrite length_drop, missing_length, strip_ptrs_length, parity_ptrs_length by done; lia|..].
  { intros i Hi. destruct (lookup_lt_is_Some_2 (enc (dblocks rpos)) i) as [c Hci].
    - apply lookup_lt_Some in Hi. rewrite length_drop, missing_length, strip_ptrs_length in Hi. lia.
    - rewrite <- Hn, (Hgood i c Hci). by eapply (proj1 (Forall_lookup _ _) Hes'). }
  rewrite <- Hn in E2, Ht2. rewrite (st_bind_ok _ _ _ _ _ E2).
  assert (Hd2 : at_blocks m2 (data_ptrs p) bsd1) by (eapply at_blocks_frame; [done..|]; apply ptrs_apart).
  assert (Hb1 : length bsd1 = k) by (rewrite <- (length_fmap length), Hlen1, length_fmap; done).
  assert (Hb2 : length bsp2 = Z.to_nat (parity_strips p)) by (rewrite <- (length_fmap length), Hlen2, length_fmap; done).
  destruct (Hdec n m2 (dblocks rpos) bsd1 bsp2 es rest) as (r & m3 & bsp3 & E3 & Hd3 & Hp3 & Hlen3); [by rewrite <- Hn|done..| | |done|done| |].
  { by eapply long_lengths. } { by eapply long_lengths. } { by eapply (group_read rpos f' g). }
  rewrite <- Hn in E3. erewrite st_bind_ok; [|unfold on_blocks; cbn [es_blocks es_file es_parity]; by rewrite E3].
  assert (Hlen4 : length <$> refill n (dblocks rpos) bsd1 = length <$> bsd) by (rewrite refill_lengths by (done || lia || by eapply long_lengths); done).
  destruct (write_missing_ok (data_ptrs p) (missing_of k) n (foff + rpos) ss _ f m3 f' g Hd3) as (f2 & E4 & Hl2 & Hf2);
    [by eapply long_lengths|by rewrite data_ptrs_length|lia|lia|apply Hres|..].
  { intros i b Hb _. assert (Ht : (take n <$> refill n (dblocks rpos) bsd1) !! i = Some (take n b)) by (by rewrite list_lookup_fmap, Hb).
    rewrite refill_take in Ht by (done || lia). unfold dblocks, strips_at in Ht. rewrite list_lookup_fmap in Ht. destruct (seq 0 k !! i) as [i'|] eqn:Hi; [|done].
    apply lookup_seq in Hi as [-> _]. cbn in Ht. rewrite Hn in Ht. by injection Ht. }
  { intros i [Hi Ee]%missing_lookup. case_decide as He; [|done]. rewrite data_ptrs_length by done. pose proof (Hlast rpos (Z.of_nat i) Hr Hdiv He ltac:(lia)). do 2 case_decide; lia. }
  exists m3, f2, (refill n (dblocks rpos) bsd1), bsp3. rewrite <- Hn in E4. split; [exact E4|]. do 2 (split; [done|]). split; [by eapply long_lengths|].
  split; [eapply long_lengths; [|exact Hlp]; congruence|].
  apply (restored_step rpos f'); [done..|]. by rewrite Hn.
Qed.

Lemma decode_loop_ok fuel rpos m f' g bsd bsp :
  decodes p size_ok rebuilds enc -> 0 <= rpos -> (B | rpos) -> 0 < data_strips p ->
  at_blocks m (data_ptrs p) bsd -> at_blocks m (parity_ptrs p) bsp -> long (Z.to_nat B) bsd -> long (Z.to_nat B) bsp ->
  (forall r, 0 <= r < ss -> (B | r) -> parity_good g r) -> restored rpos f' -> ss - rpos <= Z.of_nat fuel ->
  exists s, et_decode_loop fuel p (Z.of_nat (length f)) (es ++ -1 :: rest) missing rpos (foff + rpos) (poff + rpos) B (EtState m f' g) = Ok (tt, s) /\ es_file s = f.
Proof.
  intros Hdec. assert (Hdone : forall rpos f', ss <= rpos -> restored rpos f' -> f' = f).
  { intros r f1 Hr [_ Hf]. apply list_eq. intros x. apply Hf. intros (e & _ & _ & Hx). lia. }
  revert rpos m f' bsd bsp. induction fuel as [|fuel IH]; intros rpos m f' bsd bsp Hr Hdiv Hkpos Hd Hp Hld Hlp Hgood Hres Hfuel; cbn [et_decode_loop].
  - rewrite (proj2 (Z.ltb_ge _ _)) by lia. eexists. split; [done|]. apply (Hdone rpos); [lia|done].
  - destruct (Z.ltb_spec rpos ss) as [Hlt|Hge]; [|eexists; split; [done|]; by apply (Hdone rpos)].
    destruct (decode_step rpos m f' g bsd bsp) as (m' & f2 & bsd' & bsp' & E & Hd' & Hp' & Hld' & Hlp' & Hres'); [done|lia|done..|by apply Hgood|done|].
    destruct (IH (rpos + B) m' f2 bsd' bsp') as (s & Es & Hs); [lia|by apply Z.divide_add_r; [|apply Z.divide_refl]|done..|lia|]. exists s. split; [|done].
    revert E. unfold mbind, st_bind. destruct (read_missing _ _ _ _ _ _) as [[? s1]|]; [|done]. destruct (read_parity _ _ _ _ _ s1) as [[? s2]|]; [|done].
    destruct (on_blocks _ s2) as [[? s3]|]; [|done]. intros ->. rewrite !Z.add_assoc in Es. done.
Qed.

End loops.


(** ** Whole files *)

(** The sizes of two plans are the same. *)
Definition same_sizes p (q : plan) : Prop :=
  strip_size q = strip_size p /\ data_strips q = data_strips p /\ parity_strips q = parity_strips p /\
  pl_w q = pl_w p /\ packet_size q = packet_size p /\ base_unit q = base_unit p.

Lemma form_encoding_sizes p : same_sizes p (snd (form_encoding_matrix p)).
Proof. destruct p as [? m ? ? ? ? ? em eb ?]. destruct m, em, eb; by repeat split. Qed.

Lemma form_decoding_sizes p : same_sizes p (snd (form_decoding_matrix p)).
Proof. destruct p as [? m ? ? ? ? ? em eb ?]. destruct m, em, eb; by repeat split. Qed.

Lemma block_size_ok p (q : plan) buffer_size :
  same_sizes p q -> 0 < data_strips p -> 0 <= parity_strips p -> 0 < pl_w p -> 0 < packet_size p -> 0 < base_unit p ->
  (data_strips p + parity_strips p) * pl_w p * packet_size p * base_unit p < 2 ^ 31 -> 0 <= buffer_size < 2 ^ 31 ->
  exists B, et_block_size q buffer_size = Ok B /\ 0 < B /\ (pl_w p * packet_size p * base_unit p | B) /\ et_block_size p buffer_size = Ok B.
Proof.
  intros (_ & Ek & En & Ew & Ep & Eu) Hk Hnp Hw Hpk Hu Hmax Hbuf. unfold et_block_size. rewrite Ek, En, Ew, Ep, Eu.
  set (n := data_strips p + parity_strips p) in *. set (U := pl_w p * packet_size p * base_unit p).
  assert (HU : 0 < U) by (unfold U; nia). assert (Hi : n * pl_w p * packet_size p * base_unit p = n * U) by (unfold U; lia).
  rewrite int_prod_ok; [|lia|repeat constructor; lia|done]. cbn [foldl]. rewrite Hi in *. unfold mbind, res_bind, c_div.
  rewrite (proj2 (Z.eqb_neq (n * U) 0)) by nia. set (size := if buffer_size =? 0 then _ else _). assert (Hsz : 0 < size < 2 ^ 31).
  { unfold size. destruct (Z.eqb_spec buffer_size 0); lia. }
  rewrite Z.quot_div_nonneg by nia. set (j := if size / (n * U) =? 0 then 1 else size / (n * U)).
  assert (Hj : 0 < j /\ j * (n * U) < 2 ^ 31).
  { unfold j. destruct (Z.eqb_spec (size / (n * U)) 0); [lia|]. pose proof (Z.div_pos size (n * U) ltac:(lia) ltac:(nia)). pose proof (Z.mul_div_le size (n * U) ltac:(nia)). lia. }
  assert (HnU : 0 < n * U) by nia. assert (HjnU : 0 < j * (n * U)) by nia. rewrite int_of_ok by lia. rewrite (proj2 (Z.eqb_neq n 0)) by lia. replace (j * (n * U)) with (j * U * n) by lia. rewrite Z.quot_mul by lia.
  exists (j * U). split; [done|]. split; [nia|]. split; [by exists j|done].
Qed.

Lemma zip_blocks (ptr : list loc) bs : NoDup ptr -> length ptr = length bs -> at_blocks (list_to_map (zip ptr bs)) ptr bs.
Proof.
  intros Hnd. revert bs. induction Hnd as [|q ptr Hq Hnd IH]; intros [|b bs] Hl; try done; [constructor|]. injection Hl as Hl. cbn. constructor.
  - apply lookup_insert_eq.
  - apply at_blocks_insert; [by apply IH|done].
Qed.

(** The buffer has a block of the right size for every strip. *)
Lemma new_blocks_ok p B junk :
  0 <= data_strips p -> 0 <= parity_strips p -> 0 <= B ->
  exists bsd bsp, at_blocks (new_blocks p B junk) (data_ptrs p) bsd /\ at_blocks (new_blocks p B junk) (parity_ptrs p) bsp /\
    long (Z.to_nat B) bsd /\ long (Z.to_nat B) bsp.
Proof.
  intros Hk Hnp HB. set (bs := (fun i => slice junk (Z.of_nat i * B) B) <$> seq 0 (length (strip_ptrs p))).
  assert (Hl : length (strip_ptrs p) = length bs) by (unfold bs; by rewrite length_fmap, length_seq).
  assert (Hlong : long (Z.to_nat B) bs) by (apply Forall_fmap, Forall_forall; intros i _; unfold compose; by rewrite slice_length).
  pose proof (zip_blocks (strip_ptrs p) bs (strip_ptrs_nodup p) Hl) as Hat. unfold new_blocks. fold bs.
  rewrite strip_ptrs_split in Hat at 2. rewrite <- (take_drop (length (data_ptrs p)) bs) in Hat at 2, Hlong. apply Forall_app in Hlong as [H1 H2].
  apply Forall2_app_inv in Hat as [Ha1 Ha2]; [by eexists _, _|].
  rewrite length_take, <- Hl, strip_ptrs_length, data_ptrs_length by done. lia.
Qed.

Lemma mark_missing_ok es rest missing i :
  Forall (fun e => 0 <= e < Z.of_nat (length missing)) es ->
  exists missing', mark_missing (es ++ -1 :: rest) missing i = Ok (missing', i + Z.of_nat (length es)) /\ length missing' = length missing /\
    forall j, (j < length missing)%nat -> missing' !! j = if decide (Z.of_nat j ∈ es) then Some 1 else missing !! j.
Proof.
  intros Hes. revert missing i Hes. induction es as [|e es IH]; intros missing i Hes; cbn [app mark_missing].
  - exists missing. cbn [Z.eqb]. rewrite Z.add_0_r. split; [done|]. split; [done|]. intros j _. by rewrite decide_False by apply not_elem_of_nil.
  - apply Forall_cons in Hes as [He Hes]. rewrite (proj2 (Z.eqb_neq e (-1))), (proj2 (Z.ltb_ge e 0)), Z.geb_leb, (proj2 (Z.leb_gt _ _)) by lia. cbn [orb].
    destruct (IH (<[Z.to_nat e := 1]> missing) (i + 1)) as (m' & E & Hl & Hm); [by rewrite length_insert|]. rewrite length_insert in Hl, Hm.
    exists m'. split; [rewrite E; cbn [length]; do 2 f_equal; lia|]. split; [done|]. intros j Hj. rewrite (Hm j Hj). destruct (decide (Z.of_nat j ∈ es)) as [Hin|Hin].
    + by rewrite decide_True by (by right).
    + destruct (decide (Z.of_nat j = e)) as [<-|Hne].
      * rewrite Nat2Z.id, list_lookup_insert_eq, decide_True by (done || by left). done.
      * rewrite list_lookup_insert_ne by lia. rewrite decide_False; [done|]. by apply not_elem_of_cons.
Qed.

(** The pointers and positions depend on the sizes only. *)
Lemma same_ptrs p (q : plan) : same_sizes p q -> strip_ptrs q = strip_ptrs p /\ data_ptrs q = data_ptrs p /\ parity_ptrs q = parity_ptrs p.
Proof. intros (_ & Ek & En & _). unfold data_ptrs, parity_ptr, strip_ptrs. by rewrite Ek, En. Qed.

Lemma same_parity_good p (q : plan) f foff poff B enc g r : same_sizes p q -> parity_good p f foff poff B enc g r -> parity_good q f foff poff B enc g r.
Proof. intros (Es & Ek & _) Hg. unfold parity_good, dblocks in *. by rewrite Es, Ek. Qed.

(** Groups of packets. *)
Definition groups p (n : Z) : Prop := 0 < n /\ (pl_w p * packet_size p * base_unit p | n).

Lemma chunk_groups p B r :
  0 < B -> (pl_w p * packet_size p * base_unit p | B) -> (pl_w p * packet_size p * base_unit p | strip_size p) ->
  0 <= r < strip_size p -> (B | r) -> groups p (chunk r B (strip_size p)).
Proof.
  intros HB HUB HUs Hr Hdiv. split; [by apply chunk_ok|]. unfold chunk. destruct (_ >? _); [|done]. apply Z.divide_sub_r; [done|]. by apply (Z.divide_trans _ B).
Qed.

(** The lost data strips end in the file, and the last strip at most within
    its last group of packets behind it. *)
Definition strips_end p (f : bytes) foff (es : list Z) : Prop :=
  forall e, e ∈ es -> e < data_strips p ->
    foff + (e + 1) * strip_size p <= Z.of_nat (length f) + (if decide (e + 1 = data_strips p) then pl_w p * packet_size p * base_unit p else 0).

(** Then every block of theirs can be written. *)
Lemma blocks_end p B (f : bytes) foff es r e :
  0 < B -> (pl_w p * packet_size p * base_unit p | B) -> (pl_w p * packet_size p * base_unit p | strip_size p) -> 0 < pl_w p * packet_size p * base_unit p ->
  strips_end p f foff es -> 0 <= r < strip_size p -> (B | r) -> e ∈ es -> e < data_strips p ->
  foff + r + e * strip_size p + (if decide (e + 1 = data_strips p) then 0 else chunk r B (strip_size p)) <= Z.of_nat (length f).
Proof.
  intros HB HUB HUs HU Hf Hr Hdiv He Hk. assert (HUr : (pl_w p * packet_size p * base_unit p | r)) by (by apply (Z.divide_trans _ B)).
  pose proof (block_before _ r (strip_size p) HU HUr HUs ltac:(lia)). specialize (Hf e He Hk). pose proof (chunk_ok r B (strip_size p) HB Hr). case_decide; lia.
Qed.

(** What a plan's users see to before they encode or decode a file. *)
Record file_fits p (foff poff buffer_size : Z) : Prop := FileFits {
  ff_data : 0 < data_strips p;
  ff_parity : 0 <= parity_strips p;
  ff_word : 0 < pl_w p;
  ff_packet : 0 < packet_size p;
  ff_unit : 0 < base_unit p;
  ff_strip : 0 <= strip_size p;
  ff_groups : (pl_w p * packet_size p * base_unit p | strip_size p);
  ff_int : (data_strips p + parity_strips p) * pl_w p * packet_size p * base_unit p < 2 ^ 31;
  ff_buffer : 0 <= buffer_size < 2 ^ 31;
  ff_offsets : 0 <= foff /\ 0 <= poff }.

Lemma et_encode_ok p f foff poff buffer_size parity create junk enc B :
  file_fits p foff poff buffer_size -> encodes (snd (form_encoding_matrix p)) (groups p) enc -> (is_Some parity \/ create = true) ->
  et_block_size p buffer_size = Ok B ->
  exists g, et_encode p (Some f) foff parity create poff buffer_size junk = Ok (0, Some (snd (form_encoding_matrix p), g)) /\
    forall r, 0 <= r < strip_size p -> (B | r) -> parity_good p f foff poff B enc g r.
Proof.
  intros [Hk Hnp Hw Hpk Hu Hs HUs Hint Hbuf [Hfo Hpo]] Henc Hpar EB. pose proof (form_encoding_sizes p) as Hse. set (pe := snd (form_encoding_matrix p)) in *.
  destruct (block_size_ok p pe buffer_size) as (B' & EBe & HB & HUB & EB'); [done..|]. rewrite EB in EB'. injection EB' as <-. pose proof Hse as (Ess & Eks & Ens & _).
  assert (Hg0 : exists g0, match parity with Some g => Some g | None => if create then Some [] else None end = Some g0) by (destruct Hpar as [[g0 ->]| ->]; [by exists g0|destruct parity; by eexists]).
  destruct Hg0 as [g0 Eg0]. unfold et_encode. rewrite Eg0. fold pe. cbn zeta. rewrite EBe. cbn [mbind res_bind].
  destruct (new_blocks_ok pe B junk) as (bsd & bsp & Hd & Hp & Hld & Hlp); [by rewrite Eks; lia|by rewrite Ens|lia|].
  destruct (file_encode_loop_ok pe f foff poff B (groups p) enc ltac:(rewrite Eks; lia) ltac:(by rewrite Ens) HB Hpo) with
    (fuel := Z.to_nat (strip_size pe)) (rpos := 0) (m := new_blocks pe B junk) (g := g0) (bsd := bsd) (bsp := bsp) as (s & E & Hgood); try done.
  - rewrite Ess. intros r Hr Hdiv. by apply chunk_groups.
  - intros n ds Hl Hsz. by apply (en_sized _ _ _ Henc).
  - apply Z.divide_0_r.
  - intros r Hr. lia.
  - lia.
  - rewrite !Z.add_0_r in E. rewrite E. eexists. split; [done|]. intros r Hr Hdiv. apply (same_parity_good pe).
    + destruct Hse as (? & ? & ? & ? & ? & ?). by repeat split.
    + rewrite Ess in Hgood. by apply Hgood.
Qed.

Lemma et_decode_ok p f foff poff buffer_size junk es rest f' g rebuilds enc B :
  file_fits p foff poff buffer_size -> decodes (snd (form_decoding_matrix p)) (groups p) rebuilds enc ->
  (forall n ds, length ds = Z.to_nat (data_strips p) -> sized n ds -> length (enc ds) = Z.to_nat (parity_strips p) /\ sized n (enc ds)) ->
  rebuilds es -> es <> [] -> Forall (fun e => 0 <= e < data_strips p + parity_strips p) es -> strips_end p f foff es -> et_block_size p buffer_size = Ok B ->
  restored p f foff es 0 f' -> (forall r, 0 <= r < strip_size p -> (B | r) -> parity_good p f foff poff B enc g r) ->
  et_decode 4 p (Z.of_nat (length f)) (Some f') foff (Some g) poff buffer_size (es ++ -1 :: rest) junk = Ok (0, Some (snd (form_decoding_matrix p), f)).
Proof.
  intros [Hk Hnp Hw Hpk Hu Hs HUs Hint Hbuf [Hfo Hpo]] Hdec Hsz Hes Hne Hrange Hend EB Hres Hgood. pose proof (form_decoding_sizes p) as Hsd. set (pd := snd (form_decoding_matrix p)) in *.
  destruct (block_size_ok p pd buffer_size) as (B' & EBd & HB & HUB & EB'); [done..|]. rewrite EB in EB'. injection EB' as <-. pose proof Hsd as (Esd & Ekd & End & _).
  destruct (same_ptrs p pd Hsd) as (Hsp & _ & _). assert (HU : 0 < pl_w p * packet_size p * base_unit p) by nia.
  destruct (mark_missing_ok es rest (replicate (Z.to_nat (data_strips p + parity_strips p)) 0) 0) as (missing & Em & Hml & Hm);
    [rewrite length_replicate, Z2Nat.id by lia; done|]. rewrite length_replicate in Hml, Hm.
  unfold et_decode, clear_missing. rewrite Z.leb_refl. cbn [mbind res_bind]. rewrite Em. cbn [mbind res_bind]. assert (Hnz : 0 + Z.of_nat (length es) =? 0 = false) by (apply Z.eqb_neq; destruct es; [done|simpl; lia]). rewrite Hnz.
  fold pd. cbn zeta. rewrite EBd. cbn [mbind res_bind].
  assert (Hmiss : missing = missing_of es (length (strip_ptrs pd))).
  { apply list_eq. intros i. rewrite Hsp, strip_ptrs_length. destruct (decide (i < Z.to_nat (data_strips p + parity_strips p))%nat) as [Hi|Hi].
    - rewrite Hm by done. symmetry. rewrite (proj2 (missing_lookup p enc Hsz es _ i (if decide (Z.of_nat i ∈ es) then 1 else 0))) by done. case_decide; [done|]. by rewrite lookup_replicate_2.
    - rewrite (lookup_ge_None_2 missing) by lia. symmetry. apply lookup_ge_None. unfold missing_of. rewrite length_fmap, length_seq. lia. }
  rewrite Hmiss. destruct (new_blocks_ok pd B junk) as (bsd & bsp & Hd & Hp & Hld & Hlp); [by rewrite Ekd; lia|by rewrite End|lia|].
  destruct (decode_loop_ok pd f foff poff B (groups p) enc ltac:(rewrite Ekd; lia) ltac:(by rewrite End) HB Hfo) with
    (fuel := Z.to_nat (strip_size pd)) (rpos := 0) (m := new_blocks pd B junk) (f' := f') (g := g) (bsd := bsd) (bsp := bsp) (es := es) (rest := rest) (rebuilds := rebuilds)
    as (s & E & Hf); try done.
  - rewrite Esd. intros r Hr Hdiv. by apply chunk_groups.
  - rewrite Ekd, End. done.
  - rewrite Esd, Ekd. intros r e Hr Hdiv He Hek. apply (blocks_end p B f foff es r e); (done || lia).
  - apply Z.divide_0_r.
  - by rewrite Ekd.
  - intros r Hr Hdiv. rewrite Esd in Hr. apply (same_parity_good p); [done|]. by apply Hgood.
  - unfold restored, dirty in *. by rewrite Esd, Ekd.
  - lia.
  - rewrite !Z.add_0_r in E. rewrite E. cbn [mbind res_bind]. by rewrite Hf.
Qed.


End codes.

(** ** [raid4] is such a code *)
Section raid4_code.
Context {matrix schedule : Type} `{Jerasure matrix schedule}.
Implicit Types (p : erasure_plan matrix schedule) (m : blocks) (ds bs cs : list bytes).

(** The parity is the sum of the data. *)
Definition raid4_enc (ds : list bytes) : list bytes := [xsum (match ds with [] => 0%nat | d :: _ => length d end) ds].

Lemma raid4_enc_sized n ds : (0 < length ds)%nat -> sized n ds -> raid4_enc ds = [xsum n ds].
Proof. intros Hne Hs. destruct ds as [|d ds]; [by inversion Hne|]. unfold raid4_enc. by apply Forall_cons in Hs as [-> _]. Qed.

Definition is_raid4 p : Prop := method p = RAID4 /\ 0 < data_strips p /\ parity_strips p = 1.

Lemma raid4_parity_ptr p : is_raid4 p -> exists q, parity_ptr p (strip_ptrs p) = [q] /\ q ∉ data_ptrs p.
Proof.
  intros (_ & Hk & Hn). pose proof (parity_ptrs_length p ltac:(lia) ltac:(lia)) as Hl. rewrite Hn in Hl.
  destruct (parity_ptr p (strip_ptrs p)) as [|q [|? ?]] eqn:Eq; [done| |done]. exists q. split; [done|].
  intros Hin. apply (ptrs_apart p q Hin). rewrite Eq. by left.
Qed.

Lemma refill_same n bs : refill n (take n <$> bs) bs = bs.
Proof. unfold refill. induction bs as [|b bs IH]; [done|]. cbn. by rewrite take_drop, IH. Qed.

Lemma raid4_encodes p size_ok : is_raid4 p -> encodes p size_ok raid4_enc.
Proof.
  intros Hp. pose proof Hp as (Hm & Hk & Hn). destruct (raid4_parity_ptr p Hp) as (q & Eq & Hq). split.
  - intros n ds Hl Hs. rewrite (raid4_enc_sized n) by (done || lia). rewrite Hn. split; [done|].
    constructor; [by apply xsum_length|constructor].
  - intros n m bs cs _ Hd Hc Hld Hlc. rewrite Eq in Hc |- *. inversion Hc as [|? c ? cs' Hqc Hc']; subst. inversion Hc'; subst.
    pose proof (data_ptrs_length p ltac:(lia) ltac:(lia)) as Hdl. assert (Hne : data_ptrs p <> []) by (destruct (data_ptrs p); simpl in *; [lia|done]).
    assert (Hbs : (0 < length (take n <$> bs))%nat) by (pose proof (Forall2_length _ _ _ Hd); rewrite length_fmap; lia).
    unfold encode_block. rewrite Hm. unfold raid4_op_encode_block. rewrite Eq, (strip_ptrs_split p).
    replace (data_strips p) with (Z.of_nat (length (data_ptrs p))) by lia. inversion Hlc; subst.
    eexists. split; [by apply (raid4_encode_ok n _ _ q [] bs c)|]. split; [by apply at_blocks_insert|].
    rewrite (raid4_enc_sized n) by (done || by apply long_take). constructor; [by rewrite lookup_insert_eq|constructor].
Qed.

(** It can deal with one lost data strip. *)
Definition raid4_rebuilds p (es : list Z) : Prop := exists i, es = [i] /\ 0 <= i < data_strips p.

Lemma at_blocks_update m ptr bs i q b : at_blocks m ptr bs -> NoDup ptr -> ptr !! i = Some q -> at_blocks (<[q := b]> m) ptr (<[i := b]> bs).
Proof.
  intros Hat Hnd Hi. revert i Hi. induction Hat as [|x c ptr bs Hx Hat IH]; intros [|i] Hi; [done..| |]; apply NoDup_cons in Hnd as [Hn Hnd].
  - injection Hi as ->. constructor; [by rewrite lookup_insert_eq|by apply at_blocks_insert].
  - cbn in Hi. constructor; [|by apply IH]. rewrite lookup_insert_ne; [done|]. intros ->. apply Hn. by apply list_elem_of_lookup_2 in Hi.
Qed.

(** Blocks that agree with a group's but for one. *)
Lemma all_but_one n bs ds i d : 
  length ds = length bs -> ds !! i = Some d -> (forall j x, bs !! j = Some x -> j <> i -> ds !! j = Some (take n x)) -> ds = <[i := d]> (take n <$> bs).
Proof.
  intros Hl Hd Hall. apply list_eq. intros j. pose proof (lookup_lt_Some _ _ _ Hd). destruct (decide (j = i)) as [->|Hne].
  - rewrite list_lookup_insert_eq; [done|]. rewrite length_fmap. lia.
  - rewrite list_lookup_insert_ne by done. rewrite list_lookup_fmap. destruct (bs !! j) as [x|] eqn:Ej; [by apply Hall|].
    apply lookup_ge_None in Ej. apply lookup_ge_None. lia.
Qed.

Lemma refill_insert n bs i b d : bs !! i = Some b -> refill n (<[i := d]> (take n <$> bs)) bs = <[i := d ++ drop n b]> bs.
Proof.
  revert i. induction bs as [|x bs IH]; intros [|i] Hi; [done..| |]; cbn in Hi |- *.
  - injection Hi as ->. f_equal. apply refill_same.
  - rewrite take_drop. f_equal. by apply IH.
Qed.

Lemma raid4_decodes p size_ok : is_raid4 p -> decodes p size_ok (raid4_rebuilds p) raid4_enc.
Proof.
  intros Hp n m ds bs cs es rest _ (i & -> & Hi) Hd Hc Hld Hlc Hlen Hs Hgood. pose proof Hp as (Hm & Hk & Hn).
  destruct (raid4_parity_ptr p Hp) as (q & Eq & Hq). rewrite Eq in Hc |- *. inversion Hc as [|? c ? cs' Hqc Hc']; subst. inversion Hc'; subst. inversion Hlc; subst.
  pose proof (data_ptrs_length p ltac:(lia) ltac:(lia)) as Hdl. pose proof (Forall2_length _ _ _ Hd) as Hbl. assert (Hii : i = Z.of_nat (Z.to_nat i)) by lia.
  set (e := Z.to_nat i) in *. assert (He : (e < Z.to_nat (data_strips p))%nat) by lia. clearbody e. subst i.
  destruct (lookup_lt_is_Some_2 (data_ptrs p) e) as [d Hdi]; [lia|]. destruct (lookup_lt_is_Some_2 bs e) as [b Hbi]; [lia|].
  destruct (lookup_lt_is_Some_2 ds e) as [d0 Hd0]; [lia|].
  rewrite (raid4_enc_sized n) in Hgood by (done || lia).
  assert (Hcc : take n c = xsum n ds).
  { specialize (Hgood (length bs) c). rewrite !lookup_app_r, Nat.sub_diag in Hgood by lia. replace (length bs - length ds)%nat with 0%nat in Hgood by lia.
    assert (Hni : Z.of_nat (length bs) ∉ [Z.of_nat e]) by (rewrite list_elem_of_singleton; lia). specialize (Hgood eq_refl Hni). by injection Hgood. }
  assert (Hds : ds = <[e := d0]> (take n <$> bs)).
  { apply all_but_one; [lia|done|]. intros j x Hj Hne. pose proof (lookup_lt_Some _ _ _ Hj). specialize (Hgood j x).
    rewrite !lookup_app_l in Hgood by lia. apply Hgood; [done|]. rewrite list_elem_of_singleton. lia. }
  assert (Hdn : length d0 = n) by (by apply (proj1 (Forall_lookup _ _) Hs e)).
  exists 0, (<[d := d0 ++ drop n b]> m), [c]. split; [|split; [|split; [|done]]].
  - unfold decode_block. rewrite Hm. unfold raid4_op_decode_block. rewrite Eq, (strip_ptrs_split p), Eq.
    pose proof (data_ptrs_nodup p) as Hnd. pose proof (take_drop_middle _ _ _ Hdi) as Hmid. rewrite <- Hmid in Hd, Hnd. rewrite <- (take_drop_middle _ _ _ Hbi) in Hd, Hld.
    assert (Hlt : length (take e (data_ptrs p)) = e) by (rewrite length_take; lia).
    apply Forall2_app_inv in Hd as [Hd1 [Hdb Hd2]%Forall2_cons]; [|rewrite !length_take; lia]. apply Forall_app in Hld as [Hl1 [Hlb Hl2]%Forall_cons].
    pose proof (raid4_decode_ok n _ d _ [q] q [] rest (take e bs) b (drop (S e) bs) c m Hd1 Hd2 Hdb Hqc Hnd ltac:(by apply Forall_app) Hlb ltac:(done)) as E.
    rewrite Hlt, Hmid, Hdl, Z2Nat.id, app_comm_cons, (assoc_L (++)), Hmid in E by lia. cbn [app]. rewrite E.
    rewrite Hcc, Hds, insert_take_drop by (rewrite length_fmap; lia). rewrite <- fmap_take, <- fmap_drop, fmap_app, xsum_recover; [done|done|].
    rewrite <- fmap_app. by apply long_take, Forall_app.
  - rewrite Hds, (refill_insert n bs e b d0 Hbi). apply at_blocks_update; [done|apply data_ptrs_nodup|done].
  - constructor; [|constructor]. rewrite lookup_insert_ne; [done|]. intros ->. apply Hq. by apply list_elem_of_lookup_2 in Hdi.
Qed.

End raid4_code.

