(* ===== verification/JeraseCheck.v ===== *)
(** * Finding bad chunks of a stripe ([lio/segment/jerasure.c])

    A stripe has one chunk per device.  [jerase_control_check] rebuilds chunks
    that are taken to be bad, and some good ones as a control;
    [jerase_brute_recovery] looks for a set of bad chunks with which the check
    passes.  A checksum of the stripe, its magic, can replace the controls.
    Chunks are blocks of memory as in [Raid4]; [zlib]'s [adler32] and the code
    of the plan are parameters. *)
From Stdlib Require Import Sorting.Sorted.
From S2P Require Import Prelude ByteSegment Raid4 ErasureTools ErasureFiles.
Local Open Scope Z_scope.

(** [l[i]] and [l[i] = x] for the arrays of a stripe. *)
Definition arr_at {A} (l : list A) (i : nat) : blM A :=
  match l !! i with Some x => mret x | None => st_fail OutOfBounds end.
Definition arr_set {A} (l : list A) (i : nat) (x : A) : blM (list A) :=
  if decide (i < length l)%nat then mret (<[i := x]> l) else st_fail OutOfBounds.

Definition JE_MAGIC_SIZE : nat := 4.

(** [m[i] = cksum & 255; cksum >>= 8]. *)
Fixpoint magic_bytes (n : nat) (cksum : Z) : bytes :=
  match n with O => [] | S n => Z.land cksum 255 :: magic_bytes n (Z.shiftr cksum 8) end.

Definition sj_nonzero (b : bytes) : bool := existsb (fun x => negb (x =? 0)) b.

Section check.
Context {matrix schedule : Type} `{Jerasure matrix schedule}.
(** [adler32(0L, Z_NULL, 0)] and [adler32(cksum, ptr, size)]. *)
Context (adler_init : Z) (adler32 : Z -> bytes -> Z).
Context (p : erasure_plan matrix schedule) (chunk_size : Z) (n_devs n_parity : nat).

(** ** The checksum *)

Fixpoint cksum_devs (n i : nat) (ptr : list loc) (cksum : Z) : blM Z :=
  match n with
  | O => mret cksum
  | S n => q ← arr_at ptr i; b ← block_take q chunk_size; cksum_devs n (S i) ptr (adler32 cksum b)
  end.

Definition je_cksum_calc (ptr : list loc) : blM bytes :=
  cksum ← cksum_devs n_devs 0 ptr adler_init;
  mret (magic_bytes JE_MAGIC_SIZE cksum).

Definition je_cksum_compare (magic : bytes) (ptr : list loc) : blM Z :=
  magic_calc ← je_cksum_calc ptr;
  mret (if decide (magic = magic_calc) then 0 else 1).

(** ** The control check *)

(** The erasures, the control devices, the pointers for the decoding and the
    last control device; [n_control] is the number of controls. *)
Record picks := Picks { pk_erasures : list nat; pk_control : list nat; pk_eptr : list loc; pk_index : Z }.
Definition n_control (s : picks) : nat := length (pk_control s).

Definition pick_one (i : nat) (b n_ctl_max : Z) (no_magic : bool) (pwork : list loc) (s : picks) : blM picks :=
  if ((b =? 0) && (Z.of_nat (n_control s) <? n_ctl_max) && (Z.of_nat i >? pk_index s)) || (b =? 1) then
    let erasures := pk_erasures s ++ [i] in
    if no_magic && (b =? 0) && (Z.of_nat (n_control s) <? n_ctl_max) then
      q ← arr_at pwork (n_control s);
      eptr ← arr_set (pk_eptr s) i q;
      mret (Picks erasures (pk_control s ++ [i]) eptr (Z.of_nat i))
    else mret (Picks erasures (pk_control s) (pk_eptr s) (pk_index s))
  else mret s.

Fixpoint pick_loop (n i : nat) (n_ctl_max : Z) (no_magic : bool) (badmap : list Z) (pwork : list loc) (s : picks) : blM picks :=
  match n with
  | O => mret s
  | S n =>
    b ← arr_at badmap i;
    s ← pick_one i b n_ctl_max no_magic pwork s;
    pick_loop n (S i) n_ctl_max no_magic badmap pwork s
  end.

(** Whether a control was rebuilt differently. *)
Fixpoint controls_differ (control : list nat) (ptr eptr : list loc) : blM bool :=
  match control with
  | [] => mret false
  | i :: control =>
    a ← arr_at ptr i; b ← arr_at eptr i;
    x ← block_take a chunk_size; y ← block_take b chunk_size;
    if decide (x = y) then controls_differ control ptr eptr else mret true
  end.

(** The rounds of the loop: the number of errors and [eptr]. *)
Fixpoint control_rounds (fuel : nat) (control_index n_ctl_max : Z) (badmap : list Z) (ptr pwork : list loc) (magic : option bytes) : blM (Z * list loc) :=
  match fuel with
  | O => st_fail OutOfFuel
  | S fuel =>
    s ← pick_loop n_devs 0 n_ctl_max (is_null magic) badmap pwork (Picks [] [] ptr control_index);
    let eptr := pk_eptr s in
    _ ← decode_block p eptr chunk_size ((Z.of_nat <$> pk_erasures s) ++ [-1]);
    match magic with
    | Some magic => r ← je_cksum_compare magic eptr; mret (r, eptr)
    | None =>
      if (Z.of_nat (n_control s) <=? 0) && negb (n_ctl_max >? 0) then mret (0, eptr) else
      let control_index := if Z.of_nat (n_control s) <=? 0 then Z.of_nat n_devs - 1 else pk_index s in
      bad ← controls_differ (pk_control s) ptr eptr;
      if (bad : bool) then mret (1, eptr)
      else if control_index <? Z.of_nat n_devs - 1 then control_rounds fuel control_index n_ctl_max badmap ptr pwork None
      else mret (0, eptr)
    end
  end.

(** The result and what is left in [eptr]. *)
Definition jerase_control_check (badmap : list Z) (ptr eptr pwork : list loc) (magic : option bytes) : blM (Z * list loc) :=
  let n_bad := zsum id (take n_devs badmap) in
  match magic with
  | Some mg => if n_bad =? 0 then r ← je_cksum_compare mg ptr; mret (r, eptr) else control_rounds (S n_devs) (-1) 0 badmap ptr pwork magic
  | None => control_rounds (S n_devs) (-1) (Z.of_nat n_parity - n_bad) badmap ptr pwork None
  end.

(** ** Trying sets of bad devices *)

Record brute := Brute { br_index : list nat; br_badmap : list Z; br_ptr : list loc; br_eptr : list loc }.

(** The chunks of the devices in [index] are replaced by work buffers ... *)
Fixpoint swap_in (n i : nat) (index : list nat) (pwork : list loc) (tptr : list loc) (badmap : list Z) (ptr : list loc) : blM (list loc * list Z * list loc) :=
  match n with
  | O => mret (tptr, badmap, ptr)
  | S n =>
    d ← arr_at index i;
    t ← arr_at ptr d;
    q ← arr_at pwork i;
    ptr ← arr_set ptr d q;
    badmap ← arr_set badmap d 1;
    swap_in n (S i) index pwork (tptr ++ [t]) badmap ptr
  end.

(** ... and put back. *)
Fixpoint swap_out (n i : nat) (index : list nat) (tptr ptr : list loc) : blM (list loc) :=
  match n with
  | O => mret ptr
  | S n =>
    d ← arr_at index i;
    t ← arr_at tptr i;
    ptr ← arr_set ptr d t;
    swap_out n (S i) index tptr ptr
  end.

Definition brute_try (n_bad_devs : nat) (pwork : list loc) (magic : option bytes) (s : brute) : blM (Z * brute) :=
  '(tptr, badmap, ptr) ← swap_in n_bad_devs 0 (br_index s) pwork [] (replicate n_devs 0) (br_ptr s);
  '(n, eptr) ← jerase_control_check badmap ptr (br_eptr s) (drop n_bad_devs pwork) magic;
  ptr ← swap_out n_bad_devs 0 (br_index s) tptr ptr;
  mret (n, Brute (br_index s) badmap ptr eptr).

(** [for (i = from; n steps; i++)] with the recursive call [body]. *)
Fixpoint brute_loop (n i level : nat) (body : brute -> blM (Z * brute)) (s : brute) : blM (Z * brute) :=
  match n with
  | O => mret (1, s)
  | S n =>
    index ← arr_set (br_index s) level i;
    '(r, s) ← body (Brute index (br_badmap s) (br_ptr s) (br_eptr s));
    if r =? 0 then mret (0, s) else brute_loop n (S i) level body s
  end.

(** [todo] levels of [n_bad_devs] are to be done. *)
Fixpoint jerase_brute_recurse (todo level n_bad_devs : nat) (pwork : list loc) (magic : option bytes) (s : brute) : blM (Z * brute) :=
  match todo with
  | O => brute_try n_bad_devs pwork magic s
  | S todo =>
    start ← match level with O => mret 0%nat | S l => x ← arr_at (br_index s) l; mret (S x) end;
    brute_loop (n_devs - start) start level (jerase_brute_recurse todo (S level) n_bad_devs pwork magic) s
  end.

Fixpoint recovery_loop (n i : nat) (pwork : list loc) (magic : option bytes) (s : brute) : blM (Z * brute) :=
  match n with
  | O => mret (1, s)
  | S n =>
    '(r, s) ← jerase_brute_recurse i 0 i pwork magic (Brute (replicate n_parity 0%nat) (br_badmap s) (br_ptr s) (br_eptr s));
    if r =? 0 then mret (0, s) else recovery_loop n (S i) pwork magic s
  end.

(** The result, the bad devices found, and [eptr]. *)
Definition jerase_brute_recovery (badmap : list Z) (ptr eptr pwork : list loc) (magic : option bytes) : blM (Z * list Z * list loc) :=
  '(r, eptr) ← jerase_control_check badmap ptr eptr pwork magic;
  if r =? 0 then mret (0, badmap, eptr) else
  let ncheck := match magic with Some _ => S n_parity | None => n_parity end in
  '(r, s) ← recovery_loop (ncheck - 1) 1 pwork magic (Brute [] (replicate n_devs 0) ptr eptr);
  mret (r, br_badmap s, br_eptr s).

End check.

(** ** Words and codes *)

(** The words agree on the devices outside of [E]. *)
Definition agree_out (E : list nat) (xs ys : list bytes) : Prop := forall i, i ∉ E -> xs !! i = ys !! i.

Section words.
Context (n : nat).
Implicit Types (m : blocks) (ptr : list loc) (xs ys ws : list bytes).

(** The first [n] bytes at the pointers. *)
Definition has m (q : loc) (x : bytes) : Prop := exists b, m !! q = Some b /\ (n <= length b)%nat /\ take n b = x.
Definition reads m ptr xs : Prop := Forall2 (has m) ptr xs.

Lemma has_take m q x : has m q x -> block_take q (Z.of_nat n) m = Ok (x, m).
Proof. intros (b & Hb & Hl & <-). by apply block_take_ok. Qed.

Lemma has_length m q x : has m q x -> length x = n.
Proof. intros (b & _ & Hl & <-). rewrite length_take. lia. Qed.

Lemma reads_lookup m ptr xs i q : reads m ptr xs -> ptr !! i = Some q -> exists x, xs !! i = Some x /\ has m q x.
Proof. intros Hr Hi. destruct (Forall2_lookup_l _ _ _ _ _ Hr Hi) as (x & ? & ?). by exists x. Qed.

Lemma reads_intro m ptr xs : length ptr = length xs -> (forall i q x, ptr !! i = Some q -> xs !! i = Some x -> has m q x) -> reads m ptr xs.
Proof. intros Hl Hall. apply Forall2_same_length_lookup_2; [done|]. intros i q x Hq Hx. by apply (Hall i). Qed.

Lemma reads_length m ptr xs : reads m ptr xs -> length ptr = length xs.
Proof. apply Forall2_length. Qed.

Lemma reads_sized m ptr xs : reads m ptr xs -> sized n xs.
Proof. induction 1 as [|q x ptr xs Hq _ IH]; constructor; [by apply (has_length m q)|done]. Qed.

Lemma has_changes L m m' q x : has m q x -> changes L m m' -> q ∉ L -> has m' q x.
Proof. intros (b & Hb & ?) Hc Hq. exists b. by rewrite Hc. Qed.

Lemma has_inj m q x y : has m q x -> has m q y -> x = y.
Proof. intros (b & Hb & _ & <-) (b' & Hb' & _ & <-). by simplify_eq. Qed.

Lemma reads_changes L m m' ptr xs : reads m ptr xs -> changes L m m' -> (forall q, q ∈ ptr -> q ∉ L) -> reads m' ptr xs.
Proof.
  intros Hr Hc Hd. apply reads_intro; [by apply (reads_length m)|]. intros i q x Hq Hx. destruct (reads_lookup _ _ _ _ _ Hr Hq) as (x' & Hx' & Hh).
  simplify_eq. apply (has_changes L m); [done|done|]. apply Hd. by apply list_elem_of_lookup_2 in Hq.
Qed.

Lemma arr_at_ok {A} (l : list A) i x m : l !! i = Some x -> arr_at l i m = Ok (x, m).
Proof. intros E. unfold arr_at. by rewrite E. Qed.

Lemma arr_set_ok {A} (l : list A) i x m : (i < length l)%nat -> arr_set l i x m = Ok (<[i := x]> l, m).
Proof. intros Hi. unfold arr_set. by rewrite decide_True. Qed.

End words.

Lemma agree_out_sub E E' xs ys : agree_out E xs ys -> (forall i, i ∈ E -> i ∈ E') -> agree_out E' xs ys.
Proof. intros Ha Hs i Hi. apply Ha. naive_solver. Qed.

Lemma agree_out_trans E xs ys zs : agree_out E xs ys -> agree_out E ys zs -> agree_out E xs zs.
Proof. intros H1 H2 i Hi. by rewrite H1, H2. Qed.

Lemma agree_out_sym E xs ys : agree_out E xs ys -> agree_out E ys xs.
Proof. intros Ha i Hi. by rewrite Ha. Qed.

(** What the documentation of a code that tolerates the loss of any
    [n_parity] devices promises of chunks of [n] bytes: any chunks of the
    other devices belong to one codeword, and decoding touches the erased
    chunks only and completes the others to the codeword they belong to. *)
Record mds {matrix schedule : Type} `{Jerasure matrix schedule} (p : erasure_plan matrix schedule) (n n_devs n_parity : nat) (code : list bytes -> Prop) : Prop := Mds {
  md_sized w : code w -> length w = n_devs /\ sized n w;
  md_unique w w' E : code w -> code w' -> (length E <= n_parity)%nat -> agree_out E w w' -> w = w';
  md_fill xs E : length xs = n_devs -> sized n xs -> NoDup E -> Forall (fun i => (i < n_devs)%nat) E -> length E = n_parity ->
    exists w, code w /\ agree_out E w xs;
  md_run m ptr xs E :
    NoDup ptr -> reads n m ptr xs -> length xs = n_devs -> NoDup E -> Forall (fun i => (i < n_devs)%nat) E -> (length E <= n_parity)%nat ->
    exists r m' ys, decode_block p ptr (Z.of_nat n) ((Z.of_nat <$> E) ++ [-1]) m = Ok (r, m') /\
      reads n m' ptr ys /\ agree_out E ys xs /\ changes ptr m m' /\ forall w, code w -> agree_out E w xs -> ys = w }.

Lemma filter_seq_S (P : nat -> Prop) `{!forall x, Decision (P x)} i : filter P (seq 0 (S i)) = filter P (seq 0 i) ++ (if decide (P i) then [i] else []).
Proof. rewrite seq_S, filter_app. cbn [Nat.add]. by rewrite filter_cons. Qed.

(** ** What the checks do *)
Section proofs.
Context {matrix schedule : Type} `{Jerasure matrix schedule}.
Context (adler_init : Z) (adler32 : Z -> bytes -> Z).
Context (p : erasure_plan matrix schedule) (n n_devs n_parity : nat) (code : list bytes -> Prop).
Context (Hcode : mds p n n_devs n_parity code).
Implicit Types (m : blocks) (ptr pwork eptr : list loc) (xs ys ws : list bytes) (badmap : list Z).

(** The checksum of a word. *)
Definition word_magic xs : bytes := magic_bytes JE_MAGIC_SIZE (foldl adler32 adler_init xs).

Lemma cksum_devs_ok k i m ptr xs c :
  reads n m ptr xs -> (i + k = length xs)%nat -> cksum_devs adler32 (Z.of_nat n) k i ptr c m = Ok (foldl adler32 c (drop i xs), m).
Proof.
  intros Hr. revert i c. induction k as [|k IH]; intros i c Hi; [by rewrite drop_ge by lia|]. cbn [cksum_devs].
  destruct (lookup_lt_is_Some_2 ptr i) as [q Hq]; [rewrite (reads_length n m ptr xs Hr); lia|]. destruct (reads_lookup n m ptr xs i q Hr Hq) as (x & Hx & Hh).
  rewrite (st_bind_ok _ _ _ _ _ (arr_at_ok ptr i q m Hq)), (st_bind_ok _ _ _ _ _ (has_take n m q x Hh)), IH by lia. by rewrite (drop_S xs x i Hx).
Qed.

Lemma je_cksum_compare_ok m ptr xs mg :
  reads n m ptr xs -> length xs = n_devs -> je_cksum_compare adler_init adler32 (Z.of_nat n) n_devs mg ptr m = Ok (if decide (mg = word_magic xs) then 0 else 1, m).
Proof.
  intros Hr Hl. unfold je_cksum_compare, je_cksum_calc. erewrite st_bind_ok; [|rewrite (st_bind_ok _ _ _ _ _ (cksum_devs_ok n_devs 0 m ptr xs adler_init Hr ltac:(lia))); done]. done.
Qed.

(** *** The devices that are bad, and the controls *)

Definition badmap_ok badmap : Prop := length badmap = n_devs /\ Forall (fun b => b = 0 \/ b = 1) badmap.
Definition bads badmap : list nat := filter (fun i => badmap !! i = Some 1) (seq 0 n_devs).

Lemma elem_of_bads badmap i : badmap_ok badmap -> i ∈ bads badmap <-> badmap !! i = Some 1.
Proof.
  intros [Hl _]. unfold bads. rewrite list_elem_of_filter, elem_of_seq. split; [naive_solver|]. intros Hi. split; [done|]. apply lookup_lt_Some in Hi. lia.
Qed.

Lemma bads_sum badmap : badmap_ok badmap -> zsum id (take n_devs badmap) = Z.of_nat (length (bads badmap)).
Proof.
  intros [Hl Hb]. rewrite take_ge by lia. unfold bads. rewrite <- Hl. clear Hl. induction badmap as [|b badmap IH] using rev_ind; [done|].
  apply Forall_app in Hb as [Hb [Hx _]%Forall_cons]. rewrite zsum_app, length_app, IH by done. cbn [length zsum]. rewrite Nat.add_1_r, filter_seq_S, length_app, Nat2Z.inj_add.
  f_equal.
  - f_equal. f_equal. apply filter_iff_in. intros i Hi. apply elem_of_seq in Hi. by rewrite lookup_app_l by lia.
  - rewrite lookup_app_r, Nat.sub_diag by lia. cbn [lookup list_lookup]. destruct Hx as [-> | ->]; by case_decide.
Qed.

(** What [pick_loop] has picked among the first [i] devices. *)
Record picked badmap ptr pwork (c ci : Z) (i : nat) (s : picks) : Prop := Picked {
  pi_erasures : pk_erasures s = filter (fun j => badmap !! j = Some 1 \/ j ∈ pk_control s) (seq 0 i);
  pi_control : Forall (fun j => badmap !! j = Some 0 /\ ci < Z.of_nat j /\ (j < i)%nat) (pk_control s);
  pi_nodup : NoDup (pk_control s);
  pi_count : Z.of_nat (n_control s) <= c;
  pi_eptr k j : pk_control s !! k = Some j -> pk_eptr s !! j = pwork !! k;
  pi_ptr j : j ∉ pk_control s -> pk_eptr s !! j = ptr !! j;
  pi_length : length (pk_eptr s) = length ptr;
  pi_index : (pk_control s = [] /\ pk_index s = ci) \/ (pk_control s <> [] /\ ci < pk_index s < Z.of_nat i);
  pi_all : Z.of_nat (n_control s) < c -> forall j, (j < i)%nat -> badmap !! j = Some 0 -> ci < Z.of_nat j -> j ∈ pk_control s }.

(** A device that is no control ... *)
Lemma picked_other badmap ptr pwork c ci i b s es :
  picked badmap ptr pwork c ci i s -> badmap !! i = Some b -> es = pk_erasures s ++ (if decide (b = 1) then [i] else []) ->
  (b = 0 -> Z.of_nat (n_control s) < c -> ci < Z.of_nat i -> False) ->
  picked badmap ptr pwork c ci (S i) (Picks es (pk_control s) (pk_eptr s) (pk_index s)).
Proof.
  intros [He Hc Hnd Hcnt Heq Hpt Hlen Hidx Hall] Hb -> Hno.
  assert (Hnew : i ∉ pk_control s) by (intros Hin; pose proof (proj1 (Forall_forall _ _) Hc i Hin) as (_ & _ & ?); lia).
  split; cbn [pk_erasures pk_control pk_eptr pk_index]; try done.
  - rewrite filter_seq_S, <- He. f_equal. rewrite Hb. repeat case_decide; naive_solver.
  - eapply Forall_impl; [exact Hc|]. intros j (? & ? & ?). split; [done|]. split; [done|lia].
  - destruct Hidx as [?|[? ?]]; [by left|right]. split; [done|lia].
  - intros Hlt j Hj Hjb Hjc. destruct (decide (j = i)) as [->|Hne]; [|apply Hall; [done|lia|done|done]].
    exfalso. apply Hno; [congruence|done|done].
Qed.

(** ... and a new control. *)
Lemma picked_control badmap ptr pwork c ci i s q :
  picked badmap ptr pwork c ci i s -> badmap !! i = Some 0 -> Z.of_nat (n_control s) < c -> pk_index s < Z.of_nat i ->
  pwork !! n_control s = Some q -> (i < length ptr)%nat ->
  picked badmap ptr pwork c ci (S i) (Picks (pk_erasures s ++ [i]) (pk_control s ++ [i]) (<[i := q]> (pk_eptr s)) (Z.of_nat i)).
Proof.
  intros [He Hc Hnd Hcnt Heq Hpt Hlen Hidx Hall] Hb Hlt Hgt Hq Hi.
  assert (Hnew : i ∉ pk_control s) by (intros Hin; pose proof (proj1 (Forall_forall _ _) Hc i Hin) as (_ & _ & ?); lia).
  assert (Hci : ci < Z.of_nat i) by (destruct Hidx as [[_ ?]|[_ ?]]; lia).
  split; cbn [pk_erasures pk_control pk_eptr pk_index]; unfold n_control in *; cbn [pk_control].
  - rewrite filter_seq_S, decide_True by (right; apply elem_of_app; right; by apply list_elem_of_singleton). f_equal. rewrite He.
    apply filter_iff_in. intros j Hj. apply elem_of_seq in Hj. rewrite elem_of_app, list_elem_of_singleton. naive_solver lia.
  - apply Forall_app. split; [|apply Forall_cons; split; [split; [done|lia]|constructor]]. eapply Forall_impl; [exact Hc|]. intros j (? & ? & ?). split; [done|]. split; [done|lia].
  - apply NoDup_app. split; [done|]. split; [|apply NoDup_singleton]. intros x Hx ->%list_elem_of_singleton. done.
  - rewrite length_app. cbn. lia.
  - intros k j Hj. apply lookup_app_Some in Hj as [Hj|[Hk Hj]].
    + rewrite list_lookup_insert_ne; [by apply Heq|]. intros ->. apply Hnew. by apply list_elem_of_lookup_2 in Hj.
    + apply list_lookup_singleton_Some in Hj as [Hk0 <-]. rewrite list_lookup_insert_eq by lia. rewrite <- Hq. f_equal. lia.
  - intros j Hj. apply not_elem_of_app in Hj as [Hj Hji]. rewrite list_lookup_insert_ne; [by apply Hpt|]. intros ->. apply Hji. by apply list_elem_of_singleton.
  - by rewrite length_insert.
  - right. split; [by destruct (pk_control s)|lia].
  - intros _ j Hj Hjb Hjc. apply elem_of_app. destruct (decide (j = i)) as [->|Hne]; [right; by apply list_elem_of_singleton|]. left. apply Hall; [done|lia|done|done].
Qed.

Lemma pick_one_ok badmap ptr pwork c ci i b nm s m :
  picked badmap ptr pwork c ci i s -> badmap !! i = Some b -> (b = 0 \/ b = 1) -> (i < length ptr)%nat -> c <= Z.of_nat (length pwork) -> (nm = true \/ c = 0) ->
  exists s', pick_one i b c nm pwork s m = Ok (s', m) /\ picked badmap ptr pwork c ci (S i) s'.
Proof.
  intros Hp Hb Hb01 Hi Hpw Hnm. unfold pick_one. pose proof (pi_index _ _ _ _ _ _ _ Hp) as Hidx. pose proof (pi_length _ _ _ _ _ _ _ Hp) as Hlen.
  destruct Hb01 as [-> | ->].
  - cbn [Z.eqb andb orb]. rewrite orb_false_r. destruct (Z.ltb_spec (Z.of_nat (n_control s)) c) as [Hlt|Hge]; cbn [andb].
    + destruct (Z.gtb_spec (Z.of_nat i) (pk_index s)) as [Hgt|Hle].
      * destruct Hnm as [-> | ->]; [|lia]. cbn [andb]. destruct (lookup_lt_is_Some_2 pwork (n_control s)) as [q Hq]; [lia|].
        rewrite (st_bind_ok _ _ _ _ _ (arr_at_ok pwork (n_control s) q m Hq)), (st_bind_ok _ _ _ _ _ (arr_set_ok (pk_eptr s) i q m ltac:(lia))).
        eexists. split; [done|]. by apply picked_control.
      * eexists. split; [done|]. destruct s. apply (picked_other _ _ _ _ _ _ 0 _ _ Hp); [done|by rewrite app_nil_r|]. cbn in *. destruct Hidx as [[_ ?]|[_ ?]]; lia.
    + eexists. split; [done|]. destruct s. apply (picked_other _ _ _ _ _ _ 0 _ _ Hp); [done|by rewrite app_nil_r|lia].
  - cbn [Z.eqb Pos.eqb andb orb]. rewrite andb_false_r. cbn [andb]. eexists. split; [done|]. by apply (picked_other _ _ _ _ _ _ 1 _ _ Hp).
Qed.

Lemma pick_loop_ok badmap ptr pwork c ci nm k i s m :
  picked badmap ptr pwork c ci i s -> badmap_ok badmap -> length ptr = n_devs -> (i + k = n_devs)%nat -> c <= Z.of_nat (length pwork) -> (nm = true \/ c = 0) ->
  exists s', pick_loop k i c nm badmap pwork s m = Ok (s', m) /\ picked badmap ptr pwork c ci n_devs s'.
Proof.
  intros Hp [Hbl Hb] Hl Hk Hpw Hnm. revert i s Hp Hk. induction k as [|k IH]; intros i s Hp Hk; cbn [pick_loop].
  - exists s. split; [done|]. by replace n_devs with i by lia.
  - destruct (lookup_lt_is_Some_2 badmap i) as [b Hbi]; [lia|]. rewrite (st_bind_ok _ _ _ _ _ (arr_at_ok badmap i b m Hbi)).
    destruct (pick_one_ok badmap ptr pwork c ci i b nm s m) as (s' & Es & Hs'); [done|done|by apply (proj1 (Forall_lookup _ _) Hb i)|lia|done|done|].
    rewrite (st_bind_ok _ _ _ _ _ Es). apply (IH (S i) s' Hs'). lia.
Qed.

Lemma picked_start badmap ptr pwork c ci : 0 <= c -> picked badmap ptr pwork c ci 0 (Picks [] [] ptr ci).
Proof. intros Hc. split; cbn; try done; [constructor|by left|lia]. Qed.

Lemma picked_perm badmap ptr pwork c ci s :
  badmap_ok badmap -> picked badmap ptr pwork c ci n_devs s -> NoDup (pk_erasures s) /\ pk_erasures s ≡ₚ bads badmap ++ pk_control s.
Proof.
  intros Hb [He Hc Hnd _ _ _ _ _ _]. assert (Hn : NoDup (pk_erasures s)) by (rewrite He; apply NoDup_filter, NoDup_seq). split; [done|]. apply NoDup_Permutation; [done| |].
  - apply NoDup_app. split; [apply NoDup_filter, NoDup_seq|]. split; [|done]. intros j Hj%(elem_of_bads _ _ Hb) Hj'.
    pose proof (proj1 (Forall_forall _ _) Hc j Hj') as (? & _). congruence.
  - intros j. rewrite He, elem_of_app, list_elem_of_filter, elem_of_seq, (elem_of_bads badmap j Hb). split; [intros [? _]; done|]. intros [Hj|Hj].
    + split; [by left|]. apply lookup_lt_Some in Hj. destruct Hb as [Hb _]. lia.
    + split; [by right|]. pose proof (proj1 (Forall_forall _ _) Hc j Hj) as (_ & _ & ?). lia.
Qed.

(** *** One round *)

(** The chunks of a stripe and the work buffers. *)
Definition stripe m ptr pwork xs : Prop := NoDup (ptr ++ pwork) /\ reads n m ptr xs /\ length xs = n_devs /\ exists ws, reads n m pwork ws.

Lemma reads_exists m l : (forall q, q ∈ l -> exists x, has n m q x) -> exists xs, reads n m l xs.
Proof.
  induction l as [|q l IH]; intros Hl; [exists []; constructor|]. destruct (Hl q ltac:(by left)) as [x Hx]. destruct IH as [xs Hxs]; [intros y Hy; apply Hl; by right|].
  exists (x :: xs). by constructor.
Qed.

Lemma stripe_nodup m ptr pwork xs : stripe m ptr pwork xs -> NoDup ptr /\ NoDup pwork /\ forall q, q ∈ ptr -> q ∉ pwork.
Proof. intros (Hnd & _). apply NoDup_app in Hnd as (? & ? & ?). done. Qed.

(** The pointers for the decoding are distinct and lead somewhere. *)
Lemma eptr_split badmap ptr pwork c ci s j q :
  picked badmap ptr pwork c ci n_devs s -> pk_eptr s !! j = Some q ->
  (j ∉ pk_control s /\ ptr !! j = Some q) \/ (exists k, pk_control s !! k = Some j /\ pwork !! k = Some q).
Proof.
  intros Hp Hq. destruct (decide (j ∈ pk_control s)) as [Hj|Hj].
  - apply list_elem_of_lookup_1 in Hj as [k Hk]. right. exists k. split; [done|]. by rewrite <- (pi_eptr _ _ _ _ _ _ _ Hp k j Hk).
  - left. split; [done|]. by rewrite <- (pi_ptr _ _ _ _ _ _ _ Hp j Hj).
Qed.

Lemma eptr_nodup badmap ptr pwork c ci s m xs : picked badmap ptr pwork c ci n_devs s -> stripe m ptr pwork xs -> NoDup (pk_eptr s).
Proof.
  intros Hp Hs. destruct (stripe_nodup _ _ _ _ Hs) as (Hn1 & Hn2 & Hd). apply NoDup_alt. intros i j q Hi Hj.
  destruct (eptr_split _ _ _ _ _ _ _ _ Hp Hi) as [[_ Hi1]|(k & Hk & Hi1)]; destruct (eptr_split _ _ _ _ _ _ _ _ Hp Hj) as [[_ Hj1]|(l & Hl & Hj1)].
  - by apply (NoDup_lookup ptr i j q).
  - exfalso. apply (Hd q); by eapply list_elem_of_lookup_2.
  - exfalso. apply (Hd q); by eapply list_elem_of_lookup_2.
  - pose proof (NoDup_lookup pwork k l q Hn2 Hi1 Hj1). congruence.
Qed.

Lemma eptr_in badmap ptr pwork c ci s q : picked badmap ptr pwork c ci n_devs s -> q ∈ pk_eptr s -> q ∈ ptr ++ pwork.
Proof.
  intros Hp Hq. apply list_elem_of_lookup_1 in Hq as [j Hj]. apply elem_of_app.
  destruct (eptr_split _ _ _ _ _ _ _ _ Hp Hj) as [[_ Hi]|(k & _ & Hi)]; [left|right]; by eapply list_elem_of_lookup_2.
Qed.

Lemma eptr_reads badmap ptr pwork c ci s m xs :
  picked badmap ptr pwork c ci n_devs s -> stripe m ptr pwork xs -> exists es, reads n m (pk_eptr s) es /\ length es = n_devs /\ agree_out (pk_control s) es xs.
Proof.
  intros Hp (_ & Hr & Hl & ws & Hw). destruct (reads_exists m (pk_eptr s)) as [es Hes].
  { intros q Hq. apply (eptr_in _ _ _ _ _ _ _ Hp) in Hq. apply elem_of_app in Hq as [Hq|Hq]; apply list_elem_of_lookup_1 in Hq as [j Hj].
    - destruct (reads_lookup n m ptr xs j q Hr Hj) as (x & _ & Hx). by exists x.
    - destruct (reads_lookup n m pwork ws j q Hw Hj) as (x & _ & Hx). by exists x. }
  assert (Hle : length es = n_devs) by (rewrite <- (reads_length n _ _ _ Hes), (pi_length _ _ _ _ _ _ _ Hp), (reads_length n _ _ _ Hr); done).
  exists es. split; [done|]. split; [done|]. intros j Hj. pose proof (pi_ptr _ _ _ _ _ _ _ Hp j Hj) as Hjp. destruct (ptr !! j) as [q|] eqn:Eq.
  - destruct (reads_lookup n m _ _ j q Hes Hjp) as (x & Hx & H1). destruct (reads_lookup n m _ _ j q Hr Eq) as (y & Hy & H2). rewrite Hx, Hy. f_equal. by apply (has_inj n m q).
  - apply lookup_ge_None in Eq. rewrite (reads_length n m _ _ Hr) in Eq. rewrite !lookup_ge_None_2 by lia. done.
Qed.

(** After the decoding the stripe is the same but for the bad devices. *)
Lemma stripe_decoded badmap ptr pwork c ci s m m' xs ys :
  badmap_ok badmap -> picked badmap ptr pwork c ci n_devs s -> stripe m ptr pwork xs -> reads n m' (pk_eptr s) ys -> changes (pk_eptr s) m m' ->
  agree_out (pk_erasures s) ys xs -> exists xs', stripe m' ptr pwork xs' /\ agree_out (bads badmap) xs' xs.
Proof.
  intros Hb Hp Hs Hr' Hc Ha. pose proof Hs as (Hnd & Hr & Hl & ws & Hw). destruct (stripe_nodup _ _ _ _ Hs) as (Hn1 & Hn2 & Hd).
  assert (Hold : forall q x, q ∉ pk_eptr s -> has n m q x -> has n m' q x) by (intros q x Hq Hx; by apply (has_changes n (pk_eptr s) m)).
  assert (Hany : forall q x, has n m q x -> exists y, has n m' q y).
  { intros q x Hx. destruct (decide (q ∈ pk_eptr s)) as [Hq|Hq]; [|eexists; by apply Hold]. apply list_elem_of_lookup_1 in Hq as [j Hj].
    destruct (reads_lookup n m' _ _ j q Hr' Hj) as (y & _ & Hy). by exists y. }
  destruct (reads_exists m' ptr) as [xs' Hxs'].
  { intros q Hq. apply list_elem_of_lookup_1 in Hq as [j Hj]. destruct (reads_lookup n m _ _ j q Hr Hj) as (x & _ & Hx). by apply (Hany q x). }
  destruct (reads_exists m' pwork) as [ws' Hws'].
  { intros q Hq. apply list_elem_of_lookup_1 in Hq as [j Hj]. destruct (reads_lookup n m _ _ j q Hw Hj) as (x & _ & Hx). by apply (Hany q x). }
  assert (Hl' : length xs' = n_devs) by (rewrite <- (reads_length n _ _ _ Hxs'), (reads_length n _ _ _ Hr); done).
  exists xs'. split; [split; [done|]; split; [done|]; split; [done|]; by exists ws'|]. intros j Hj. destruct (ptr !! j) as [q|] eqn:Eq.
  - destruct (reads_lookup n m' _ _ j q Hxs' Eq) as (x' & Hx' & Hh'). destruct (reads_lookup n m _ _ j q Hr Eq) as (x & Hx & Hh). rewrite Hx', Hx. f_equal.
    destruct (decide (j ∈ pk_control s)) as [Hjc|Hjc].
    + apply (has_inj n m' q); [done|]. apply Hold; [|done]. intros Hin. apply list_elem_of_lookup_1 in Hin as [i Hi].
      destruct (eptr_split _ _ _ _ _ _ _ _ Hp Hi) as [[Hic Hip]|(k & _ & Hk)].
      * pose proof (NoDup_lookup ptr i j q Hn1 Hip Eq) as ->. done.
      * apply (Hd q); by eapply list_elem_of_lookup_2.
    + assert (Hje : pk_eptr s !! j = Some q) by (by rewrite (pi_ptr _ _ _ _ _ _ _ Hp j Hjc)). destruct (reads_lookup n m' _ _ j q Hr' Hje) as (y & Hy & Hhy).
      assert (x = y) as ->; [|by apply (has_inj n m' q)]. rewrite (Ha j) in Hy; [congruence|].
      destruct (picked_perm _ _ _ _ _ _ Hb Hp) as [_ ->]. apply not_elem_of_app. done.
  - apply lookup_ge_None in Eq. rewrite (reads_length n m _ _ Hr) in Eq. by rewrite !lookup_ge_None_2 by lia.
Qed.

Lemma changes_app L L' m m' : changes L m m' -> (forall q, q ∈ L -> q ∈ L') -> changes L' m m'.
Proof. intros Hc Hs q Hq. apply Hc. naive_solver. Qed.

(** Picking and decoding. *)
Lemma round_ok badmap ptr pwork c ci nm m xs :
  stripe m ptr pwork xs -> badmap_ok badmap -> 0 <= c <= Z.of_nat (length pwork) -> Z.of_nat (length (bads badmap)) + c <= Z.of_nat n_parity -> (nm = true \/ c = 0) ->
  exists s r m' ys xs', pick_loop n_devs 0 c nm badmap pwork (Picks [] [] ptr ci) m = Ok (s, m) /\ picked badmap ptr pwork c ci n_devs s /\
    decode_block p (pk_eptr s) (Z.of_nat n) ((Z.of_nat <$> pk_erasures s) ++ [-1]) m = Ok (r, m') /\
    reads n m' (pk_eptr s) ys /\ length ys = n_devs /\ agree_out (pk_erasures s) ys xs /\ (forall w, code w -> agree_out (pk_erasures s) w xs -> ys = w) /\
    stripe m' ptr pwork xs' /\ agree_out (bads badmap) xs' xs /\ changes (ptr ++ pwork) m m'.
Proof.
  intros Hs Hb Hc Hbc Hnm. pose proof Hs as (_ & Hr & Hl & _).
  destruct (pick_loop_ok badmap ptr pwork c ci nm n_devs 0 (Picks [] [] ptr ci) m) as (s & Es & Hp); [apply picked_start; lia|done|by rewrite (reads_length n m ptr xs)|done|lia|done|].
  destruct (picked_perm _ _ _ _ _ _ Hb Hp) as [Hnd Hperm]. destruct (eptr_reads _ _ _ _ _ _ _ _ Hp Hs) as (es & Hes & Hel & Hea).
  assert (Hsub : agree_out (pk_erasures s) es xs) by (apply (agree_out_sub _ _ _ _ Hea); intros i Hi; rewrite Hperm; apply elem_of_app; by right).
  destruct (md_run _ _ _ _ _ Hcode m (pk_eptr s) es (pk_erasures s)) as (r & m' & ys & Ed & Hys & Hagr & Hch & Huniq); [by apply (eptr_nodup _ _ _ _ _ _ _ _ Hp Hs)|done|done|done| | |].
  - rewrite (pi_erasures _ _ _ _ _ _ _ Hp). apply Forall_forall. intros i Hi. apply list_elem_of_filter in Hi as [_ Hi%elem_of_seq]. lia.
  - rewrite Hperm, length_app. pose proof (pi_count _ _ _ _ _ _ _ Hp). unfold n_control in *. lia.
  - assert (Hya : agree_out (pk_erasures s) ys xs) by (by apply (agree_out_trans _ _ es)).
    destruct (stripe_decoded _ _ _ _ _ _ _ _ _ _ Hb Hp Hs Hys Hch Hya) as (xs' & Hs' & Hxs').
    exists s, r, m', ys, xs'. split; [done|]. split; [done|]. split; [done|]. split; [done|].
    split; [rewrite <- (reads_length n _ _ _ Hys), (reads_length n _ _ _ Hes); done|]. split; [done|].
    split; [intros w Hw Hwa; apply Huniq; [done|]; apply (agree_out_trans _ _ xs); [done|by apply agree_out_sym]|].
    split; [done|]. split; [done|]. apply (changes_app _ _ _ _ Hch). intros q Hq. by apply (eptr_in _ _ _ _ _ _ _ Hp).
Qed.

Lemma controls_differ_ok control m ptr eptr xs ys :
  reads n m ptr xs -> reads n m eptr ys -> Forall (fun j => (j < length xs)%nat /\ (j < length ys)%nat) control ->
  controls_differ (Z.of_nat n) control ptr eptr m = Ok (bool_decide (~ Forall (fun j => xs !! j = ys !! j) control), m).
Proof.
  intros Hr He Hc. induction Hc as [|j control [Hjx Hjy] Hc IH]; cbn [controls_differ].
  - rewrite bool_decide_false; [done|]. intros Hn. by apply Hn.
  - destruct (lookup_lt_is_Some_2 ptr j) as [q Hq]; [by rewrite (reads_length n m ptr xs)|]. destruct (lookup_lt_is_Some_2 eptr j) as [e Hje]; [by rewrite (reads_length n m eptr ys)|].
    destruct (reads_lookup n m _ _ j q Hr Hq) as (x & Hx & Hhx). destruct (reads_lookup n m _ _ j e He Hje) as (y & Hy & Hhy).
    rewrite (st_bind_ok _ _ _ _ _ (arr_at_ok ptr j q m Hq)), (st_bind_ok _ _ _ _ _ (arr_at_ok eptr j e m Hje)), (st_bind_ok _ _ _ _ _ (has_take n m q x Hhx)), (st_bind_ok _ _ _ _ _ (has_take n m e y Hhy)).
    destruct (decide (x = y)) as [->|Hne].
    + rewrite IH. do 2 f_equal. apply bool_decide_ext. rewrite Forall_cons, Hx, Hy. naive_solver.
    + rewrite bool_decide_true; [done|]. rewrite Forall_cons, Hx, Hy. naive_solver.
Qed.

(** *** The control check *)

Definition accepts (magic : option bytes) ys : Prop := match magic with None => code ys | Some mg => mg = word_magic ys end.

(** The outcome of a check with the devices [I] taken to be bad: it passes
    only with an acceptable word for the other devices, and does when they
    belong to a codeword that is acceptable. *)
Record checked (magic : option bytes) (I : list nat) xs m ptr pwork (r : Z) eptr m' : Prop := Checked {
  ck_stripe : exists xs', stripe m' ptr pwork xs' /\ agree_out I xs' xs;
  ck_frame : changes (ptr ++ pwork) m m';
  ck_word : exists ys, reads n m' eptr ys /\ length ys = n_devs /\ (r = 0 -> accepts magic ys /\ agree_out I ys xs) /\ forall w, code w -> agree_out I w xs -> ys = w;
  ck_inplace i : i ∈ I -> eptr !! i = ptr !! i;
  ck_complete : forall w, code w -> accepts magic w -> agree_out I w xs -> r = 0 }.

(** Bad devices are rebuilt in place. *)
Lemma picked_inplace badmap ptr pwork c ci s i : badmap_ok badmap -> picked badmap ptr pwork c ci n_devs s -> i ∈ bads badmap -> pk_eptr s !! i = ptr !! i.
Proof.
  intros Hb Hp Hi%(elem_of_bads _ _ Hb). apply (pi_ptr _ _ _ _ _ _ _ Hp). intros Hc. pose proof (proj1 (Forall_forall _ _) (pi_control _ _ _ _ _ _ _ Hp) i Hc) as (? & _). congruence.
Qed.

(** With a codeword for the good devices all rounds pass. *)
Lemma rounds_pass fuel ci c badmap ptr pwork m xs w :
  stripe m ptr pwork xs -> badmap_ok badmap -> 0 <= c <= Z.of_nat (length pwork) -> Z.of_nat (length (bads badmap)) + c <= Z.of_nat n_parity ->
  code w -> agree_out (bads badmap) w xs -> -1 <= ci < Z.of_nat n_devs -> Z.of_nat n_devs - 1 - ci < Z.of_nat fuel ->
  exists eptr m', control_rounds adler_init adler32 p (Z.of_nat n) n_devs fuel ci c badmap ptr pwork None m = Ok ((0, eptr), m') /\
    (exists xs', stripe m' ptr pwork xs' /\ agree_out (bads badmap) xs' xs) /\ changes (ptr ++ pwork) m m' /\ reads n m' eptr w /\
    forall i, i ∈ bads badmap -> eptr !! i = ptr !! i.
Proof.
  revert ci m xs. induction fuel as [|fuel IH]; intros ci m xs Hs Hb Hc Hbc Hw Hwa Hci Hfuel; [lia|]. cbn [control_rounds is_null].
  destruct (round_ok badmap ptr pwork c ci true m xs) as (s & r & m' & ys & xs' & Es & Hp & Ed & Hys & Hyl & Hya & Hyu & Hs' & Hxa & Hch); [done..|by left|].
  destruct (picked_perm _ _ _ _ _ _ Hb Hp) as [_ Hperm].
  assert (ys = w) as ->. { apply Hyu; [done|]. apply (agree_out_sub _ _ _ _ Hwa). intros i Hi. rewrite Hperm. apply elem_of_app. by left. }
  rewrite (st_bind_ok _ _ _ _ _ Es), (st_bind_ok _ _ _ _ _ Ed). pose proof Hs' as (_ & Hr' & Hl' & _).
  assert (Hwx : agree_out (bads badmap) w xs') by (apply (agree_out_trans _ _ xs); [done|by apply agree_out_sym]).
  assert (Hdone : exists eptr m'', Ok ((0, pk_eptr s), m') = Ok ((0, eptr), m'') /\ (exists xs'', stripe m'' ptr pwork xs'' /\ agree_out (bads badmap) xs'' xs) /\ changes (ptr ++ pwork) m m'' /\ reads n m'' eptr w /\
    forall i, i ∈ bads badmap -> eptr !! i = ptr !! i).
  { exists (pk_eptr s), m'. split; [done|]. split; [by exists xs'|]. split; [done|]. split; [done|]. intros i Hi. by apply (picked_inplace _ _ _ _ _ _ _ Hb Hp). }
  destruct ((Z.of_nat (n_control s) <=? 0) && negb (c >? 0)); [done|].
  rewrite (st_bind_ok _ _ _ _ _ (controls_differ_ok (pk_control s) m' ptr (pk_eptr s) xs' w Hr' Hys ltac:(eapply Forall_impl; [exact (pi_control _ _ _ _ _ _ _ Hp)|]; intros j (_ & _ & ?); lia))).
  rewrite bool_decide_false.
  2: { intros Hn. apply Hn. eapply Forall_impl; [exact (pi_control _ _ _ _ _ _ _ Hp)|]. intros j (Hj & _). symmetry. apply Hwx. rewrite (elem_of_bads _ _ Hb), Hj. done. }
  destruct (Z.ltb_spec (if Z.of_nat (n_control s) <=? 0 then Z.of_nat n_devs - 1 else pk_index s) (Z.of_nat n_devs - 1)) as [Hlt|]; [|done].
  destruct (Z.leb_spec (Z.of_nat (n_control s)) 0) as [?|Hpos]; [lia|].
  destruct (pi_index _ _ _ _ _ _ _ Hp) as [[Hnil _]|[_ Hidx]]; [unfold n_control in Hpos; rewrite Hnil in Hpos; simpl in Hpos; lia|].
  destruct (IH (pk_index s) m' xs') as (eptr & m'' & E & (xs'' & Hs'' & Hx'') & Hch' & Hrw & Hin); [done..|lia|lia|].
  exists eptr, m''. split; [done|]. split; [exists xs''; split; [done|by apply (agree_out_trans _ _ xs')]|]. split; [by apply (changes_trans _ _ m')|done].
Qed.

(** The first round has as many controls as are wanted. *)
Lemma picked_full badmap ptr pwork c s :
  badmap_ok badmap -> picked badmap ptr pwork c (-1) n_devs s -> Z.of_nat (length (bads badmap)) + c <= Z.of_nat n_devs -> Z.of_nat (n_control s) = c.
Proof.
  intros Hb Hp Hc. pose proof (pi_count _ _ _ _ _ _ _ Hp) as Hcnt. destruct (Z.lt_ge_cases (Z.of_nat (n_control s)) c) as [Hlt|]; [|lia]. exfalso.
  pose proof (pi_all _ _ _ _ _ _ _ Hp Hlt) as Hall. assert (Hsub : seq 0 n_devs ⊆+ bads badmap ++ pk_control s).
  { apply NoDup_submseteq; [apply NoDup_seq|]. intros j Hj. apply elem_of_seq in Hj. apply elem_of_app. rewrite (elem_of_bads _ _ Hb). destruct Hb as [Hbl Hb].
    destruct (lookup_lt_is_Some_2 badmap j) as [b Hbj]; [lia|]. destruct (proj1 (Forall_lookup _ _) Hb j b Hbj) as [-> | ->]; [right|by left]. apply Hall; [lia|done|lia]. }
  apply submseteq_length in Hsub. rewrite length_seq, length_app in Hsub. unfold n_control in *. lia.
Qed.

Context (Hnp : (n_parity <= n_devs)%nat).
Abbreviation control_check := (jerase_control_check adler_init adler32 p (Z.of_nat n) n_devs n_parity).

Lemma control_check_plain badmap ptr eptr pwork m xs :
  stripe m ptr pwork xs -> badmap_ok badmap -> (length (bads badmap) <= n_parity <= length (bads badmap) + length pwork)%nat ->
  exists r eptr' m', control_check badmap ptr eptr pwork None m = Ok ((r, eptr'), m') /\ checked None (bads badmap) xs m ptr pwork r eptr' m'.
Proof.
  intros Hs Hb Hnb. unfold jerase_control_check. rewrite (bads_sum badmap Hb). set (c := Z.of_nat n_parity - Z.of_nat (length (bads badmap))). cbn [control_rounds is_null].
  destruct (round_ok badmap ptr pwork c (-1) true m xs) as (s & r & m' & ys & xs' & Es & Hp & Ed & Hys & Hyl & Hya & Hyu & Hs' & Hxa & Hch); [done|done|lia|lia|by left|].
  destruct (picked_perm _ _ _ _ _ _ Hb Hp) as [Hnd Hperm]. pose proof (picked_full _ _ _ _ _ Hb Hp ltac:(lia)) as Hfull.
  rewrite (st_bind_ok _ _ _ _ _ Es), (st_bind_ok _ _ _ _ _ Ed). pose proof Hs as (_ & Hr & Hl & _). pose proof Hs' as (_ & Hr' & Hl' & _).
  assert (Hsub : forall w, agree_out (bads badmap) w xs -> agree_out (pk_erasures s) w xs) by (intros w Hwa; apply (agree_out_sub _ _ _ _ Hwa); intros i Hi; rewrite Hperm; apply elem_of_app; by left).
  assert (Hcy : code ys).
  { destruct (md_fill _ _ _ _ _ Hcode xs (pk_erasures s)) as (w & Hw & Hwa); [done|by apply (reads_sized n m ptr)|done| | |by rewrite (Hyu w Hw Hwa)].
    - rewrite (pi_erasures _ _ _ _ _ _ _ Hp). apply Forall_forall. intros i Hi. apply list_elem_of_filter in Hi as [_ Hi%elem_of_seq]. lia.
    - rewrite Hperm, length_app. unfold n_control in Hfull. lia. }
  assert (Hctl : Forall (fun j => xs' !! j = ys !! j) (pk_control s) -> agree_out (bads badmap) ys xs).
  { intros Hall i Hi. destruct (decide (i ∈ pk_control s)) as [Hic|Hic]; [|apply Hya; rewrite Hperm, not_elem_of_app; done].
    rewrite <- (proj1 (Forall_forall _ _) Hall i Hic). by apply Hxa. }
  assert (Hin : forall i, i ∈ bads badmap -> pk_eptr s !! i = ptr !! i) by (intros i Hi; by apply (picked_inplace _ _ _ _ _ _ _ Hb Hp)).
  assert (Hnot : ~ Forall (fun j => xs' !! j = ys !! j) (pk_control s) -> forall w, code w -> agree_out (bads badmap) w xs -> False).
  { intros Hn w Hw Hwa. apply Hn. rewrite (Hyu w Hw (Hsub w Hwa)). eapply Forall_impl; [exact (pi_control _ _ _ _ _ _ _ Hp)|]. intros j (Hj & _).
    assert (Hjb : j ∉ bads badmap) by (rewrite (elem_of_bads _ _ Hb), Hj; done). by rewrite (Hwa j Hjb), (Hxa j Hjb). }
  destruct ((Z.of_nat (n_control s) <=? 0) && negb (c >? 0)) eqn:Ec.
  { apply andb_true_iff in Ec as [Hle%Z.leb_le _]. exists 0, (pk_eptr s), m'. split; [done|]. split; [by exists xs'|done| |done|done]. exists ys. split; [done|]. split; [done|]. split; [|by intros w Hw Hwa; apply Hyu, Hsub].
    intros _. split; [done|]. apply Hctl. unfold n_control in Hle. destruct (pk_control s); [constructor|simpl in Hle; lia]. }
  rewrite (st_bind_ok _ _ _ _ _ (controls_differ_ok (pk_control s) m' ptr (pk_eptr s) xs' ys Hr' Hys ltac:(eapply Forall_impl; [exact (pi_control _ _ _ _ _ _ _ Hp)|]; intros j (_ & _ & ?); lia))).
  case_bool_decide as Hd.
  { exists 1, (pk_eptr s), m'. split; [done|]. split; [by exists xs'|done| |done|].
    - exists ys. split; [done|]. split; [done|]. split; [done|]. by intros w Hw Hwa; apply Hyu, Hsub.
    - intros w Hw _ Hwa. exfalso. by apply (Hnot Hd w). }
  assert (Hall : Forall (fun j => xs' !! j = ys !! j) (pk_control s)) by (by destruct (decide (Forall (fun j => xs' !! j = ys !! j) (pk_control s)))).
  pose proof (Hctl Hall) as Hyx.
  destruct (Z.ltb_spec (if Z.of_nat (n_control s) <=? 0 then Z.of_nat n_devs - 1 else pk_index s) (Z.of_nat n_devs - 1)) as [Hlt|].
  - destruct (Z.leb_spec (Z.of_nat (n_control s)) 0) as [?|Hpos]; [lia|].
    destruct (pi_index _ _ _ _ _ _ _ Hp) as [[Hnil _]|[_ Hidx]]; [unfold n_control in Hpos; rewrite Hnil in Hpos; simpl in Hpos; lia|].
    destruct (rounds_pass n_devs (pk_index s) c badmap ptr pwork m' xs' ys) as (eptr' & m'' & E & (xs'' & Hs'' & Hx'') & Hch' & Hry & Hin');
      [done|done|lia|lia|done|by apply (agree_out_trans _ _ xs), agree_out_sym|lia|lia|].
    exists 0, eptr', m''. split; [done|]. split; [|by apply (changes_trans _ _ m')| |done|done]; [exists xs''; split; [done|by apply (agree_out_trans _ _ xs')]|].
    exists ys. split; [done|]. split; [done|]. split; [done|]. by intros w Hw Hwa; apply Hyu, Hsub.
  - exists 0, (pk_eptr s), m'. split; [done|]. split; [by exists xs'|done| |done|done]. exists ys. split; [done|]. split; [done|]. split; [done|]. by intros w Hw Hwa; apply Hyu, Hsub.
Qed.

(** With a checksum nothing but the bad devices is rebuilt. *)
Lemma control_check_magic badmap ptr eptr pwork m xs mg :
  stripe m ptr pwork xs -> badmap_ok badmap -> (0 < length (bads badmap) <= n_parity)%nat ->
  exists r eptr' m', control_check badmap ptr eptr pwork (Some mg) m = Ok ((r, eptr'), m') /\ checked (Some mg) (bads badmap) xs m ptr pwork r eptr' m'.
Proof.
  intros Hs Hb Hnb. unfold jerase_control_check. rewrite (bads_sum badmap Hb), (proj2 (Z.eqb_neq _ _)) by lia. cbn [control_rounds is_null].
  destruct (round_ok badmap ptr pwork 0 (-1) false m xs) as (s & r & m' & ys & xs' & Es & Hp & Ed & Hys & Hyl & Hya & Hyu & Hs' & Hxa & Hch); [done|done|lia|lia|by right|].
  destruct (picked_perm _ _ _ _ _ _ Hb Hp) as [Hnd Hperm]. pose proof (pi_count _ _ _ _ _ _ _ Hp) as Hcnt. unfold n_control in Hcnt.
  assert (Hnil : pk_control s = []) by (destruct (pk_control s); [done|simpl in Hcnt; lia]). rewrite Hnil, app_nil_r in Hperm.
  assert (Hsame : forall w, agree_out (pk_erasures s) w xs <-> agree_out (bads badmap) w xs) by (intros w; split; intros Ha; apply (agree_out_sub _ _ _ _ Ha); intros i; by rewrite Hperm).
  rewrite (st_bind_ok _ _ _ _ _ Es), (st_bind_ok _ _ _ _ _ Ed). rewrite (st_bind_ok _ _ _ _ _ (je_cksum_compare_ok m' (pk_eptr s) ys mg Hys Hyl)).
  eexists _, (pk_eptr s), m'. split; [done|]. split; [by exists xs'|done| |by intros i Hi; apply (picked_inplace _ _ _ _ _ _ _ Hb Hp)|].
  - exists ys. split; [done|]. split; [done|]. split; [|by intros w Hw Hwa; apply Hyu, Hsame]. case_decide; [|done]. intros _. split; [done|]. by apply Hsame.
  - intros w Hw Hm Hwa. apply Hsame in Hwa. rewrite (Hyu w Hw Hwa). by rewrite decide_True.
Qed.

(** Without bad devices the checksum is compared. *)
Lemma control_check_same badmap ptr eptr pwork m xs mg :
  stripe m ptr pwork xs -> badmap_ok badmap -> bads badmap = [] ->
  control_check badmap ptr eptr pwork (Some mg) m = Ok ((if decide (mg = word_magic xs) then 0 else 1, eptr), m).
Proof.
  intros (_ & Hr & Hl & _) Hb Hnil. unfold jerase_control_check. rewrite (bads_sum badmap Hb), Hnil, (proj2 (Z.eqb_eq _ _)) by done. by rewrite (st_bind_ok _ _ _ _ _ (je_cksum_compare_ok m ptr xs mg Hr Hl)).
Qed.

Lemma control_check_ok badmap ptr eptr pwork m xs magic :
  stripe m ptr pwork xs -> badmap_ok badmap -> (0 < length (bads badmap) \/ magic = None)%nat -> (length (bads badmap) <= n_parity <= length (bads badmap) + length pwork)%nat ->
  exists r eptr' m', control_check badmap ptr eptr pwork magic m = Ok ((r, eptr'), m') /\ checked magic (bads badmap) xs m ptr pwork r eptr' m'.
Proof.
  intros Hs Hb Hor Hn. destruct magic as [mg|]; [|by apply control_check_plain]. destruct Hor as [?|?]; [|done]. by apply control_check_magic; [|done|lia].
Qed.

(** *** One set of devices *)

(** The first [i] devices of [index] have been replaced. *)
Record swapped (index : list nat) pwork ptr (i : nat) (tptr : list loc) badmap ptr' : Prop := Swapped {
  sw_saved : length tptr = i;
  sw_save k j : (k < i)%nat -> index !! k = Some j -> tptr !! k = ptr !! j;
  sw_work k j : (k < i)%nat -> index !! k = Some j -> ptr' !! j = pwork !! k;
  sw_other j : j ∉ take i index -> ptr' !! j = ptr !! j;
  sw_length : length ptr' = length ptr;
  sw_map : length badmap = n_devs;
  sw_bad j : (j < n_devs)%nat -> badmap !! j = Some (if decide (j ∈ take i index) then 1 else 0) }.

(** Devices to replace. *)
Definition devs (l : list nat) : Prop := NoDup l /\ Forall (fun j => (j < n_devs)%nat) l.

Lemma swap_in_ok k i index pwork ptr tptr badmap ptr' m :
  swapped index pwork ptr i tptr badmap ptr' -> devs (take (i + k) index) -> (i + k <= length index)%nat -> (i + k <= length pwork)%nat -> length ptr = n_devs ->
  exists tptr2 badmap2 ptr2, swap_in k i index pwork tptr badmap ptr' m = Ok ((tptr2, badmap2, ptr2), m) /\ swapped index pwork ptr (i + k) tptr2 badmap2 ptr2.
Proof.
  revert i tptr badmap ptr'. induction k as [|k IH]; intros i tptr badmap ptr' Hsw [Hnd Hlt] Hi Hpw Hl; cbn [swap_in].
  - exists tptr, badmap, ptr'. by rewrite Nat.add_0_r.
  - destruct (lookup_lt_is_Some_2 index i) as [j Hj]; [lia|]. destruct (lookup_lt_is_Some_2 pwork i) as [q Hq]; [lia|].
    assert (Hji : take (i + S k) index !! i = Some j) by (rewrite lookup_take_lt by lia; done). pose proof (proj1 (Forall_lookup _ _) Hlt i j Hji) as Hjn. cbn beta in Hjn.
    assert (Hnew : j ∉ take i index).
    { intros Hin. apply list_elem_of_lookup_1 in Hin as [k' Hk']. apply lookup_take_Some in Hk' as [Hk' Hki].
      assert (Hk2 : take (i + S k) index !! k' = Some j) by (rewrite lookup_take_lt by lia; done). pose proof (NoDup_lookup _ _ _ _ Hnd Hji Hk2). lia. }
    pose proof Hsw as [Hs1 Hs2 Hs3 Hs4 Hs5 Hs6 Hs7]. destruct (lookup_lt_is_Some_2 ptr j) as [t Ht]; [lia|].
    assert (Hjt : ptr' !! j = Some t) by (by rewrite Hs4).
    rewrite (st_bind_ok _ _ _ _ _ (arr_at_ok index i j m Hj)), (st_bind_ok _ _ _ _ _ (arr_at_ok ptr' j t m Hjt)), (st_bind_ok _ _ _ _ _ (arr_at_ok pwork i q m Hq)).
    rewrite (st_bind_ok _ _ _ _ _ (arr_set_ok ptr' j q m ltac:(lia))), (st_bind_ok _ _ _ _ _ (arr_set_ok badmap j 1 m ltac:(lia))).
    rewrite Nat.add_succ_r. apply (IH (S i)); [|rewrite Nat.add_succ_r in Hnd, Hlt; by split|lia|lia|done]. split.
    + rewrite length_app. cbn. lia.
    + intros k' j' Hk' Hj'. destruct (decide (k' = i)) as [->|Hne]; [|rewrite lookup_app_l by lia; apply Hs2; [lia|done]].
      rewrite lookup_app_r, Hs1, Nat.sub_diag by lia. simplify_eq. by rewrite Ht.
    + intros k' j' Hk' Hj'. destruct (decide (k' = i)) as [->|Hne]; [simplify_eq; by rewrite list_lookup_insert_eq by lia|].
      rewrite list_lookup_insert_ne; [apply Hs3; [lia|done]|]. intros ->. apply Hnew. apply (list_elem_of_lookup_2 _ k'). rewrite lookup_take_lt by lia. done.
    + intros j' Hj'. rewrite (take_S_r _ _ _ Hj), not_elem_of_app, list_elem_of_singleton in Hj'. rewrite list_lookup_insert_ne by naive_solver. apply Hs4. naive_solver.
    + by rewrite length_insert.
    + by rewrite length_insert.
    + intros j' Hj'. rewrite (take_S_r _ _ _ Hj). destruct (decide (j' = j)) as [->|Hne].
      * rewrite list_lookup_insert_eq by lia. rewrite decide_True; [done|]. apply elem_of_app. right. by apply list_elem_of_singleton.
      * rewrite list_lookup_insert_ne by done. rewrite Hs7 by done. f_equal. apply decide_ext. rewrite elem_of_app, list_elem_of_singleton. naive_solver.
Qed.

Lemma swapped_start index pwork ptr : swapped index pwork ptr 0 [] (replicate n_devs 0) ptr.
Proof.
  split; try done; [lia|lia|by rewrite length_replicate|]. intros j Hj. rewrite take_0, decide_False by (by apply not_elem_of_nil). by rewrite lookup_replicate_2.
Qed.

Lemma swap_out_ok k i index pwork ptr tptr badmap ptr1 ptr2 m :
  swapped index pwork ptr (i + k) tptr badmap ptr1 -> devs (take (i + k) index) -> (i + k <= length index)%nat -> length ptr = n_devs -> length ptr2 = length ptr ->
  (forall j, j ∈ take i index \/ j ∉ take (i + k) index -> ptr2 !! j = ptr !! j) -> swap_out k i index tptr ptr2 m = Ok (ptr, m).
Proof.
  intros Hsw [Hnd Hlt]. revert i ptr2 Hsw Hnd Hlt. induction k as [|k IH]; intros i ptr2 Hsw Hnd Hlt Hi Hl Hl2 Hp2; cbn [swap_out].
  - assert (ptr2 = ptr) as ->; [|done]. apply list_eq. intros j. apply Hp2. rewrite Nat.add_0_r. destruct (decide (j ∈ take i index)); [by left|by right].
  - destruct (lookup_lt_is_Some_2 index i) as [j Hj]; [lia|]. assert (Hji : take (i + S k) index !! i = Some j) by (rewrite lookup_take_lt by lia; done).
    pose proof (proj1 (Forall_lookup _ _) Hlt i j Hji) as Hjn. cbn beta in Hjn. destruct (lookup_lt_is_Some_2 ptr j) as [t Ht]; [lia|].
    assert (Htt : tptr !! i = Some t) by (rewrite (sw_save _ _ _ _ _ _ _ Hsw i j) by (done || lia); done).
    rewrite (st_bind_ok _ _ _ _ _ (arr_at_ok index i j m Hj)), (st_bind_ok _ _ _ _ _ (arr_at_ok tptr i t m Htt)), (st_bind_ok _ _ _ _ _ (arr_set_ok ptr2 j t m ltac:(lia))).
    rewrite Nat.add_succ_r in *. apply (IH (S i)); [done|done|done|done|done|by rewrite length_insert|].
    intros j' Hj'. destruct (decide (j' = j)) as [->|Hne]; [rewrite list_lookup_insert_eq by lia; done|]. rewrite list_lookup_insert_ne by done. apply Hp2.
    rewrite (take_S_r _ _ _ Hj), elem_of_app, list_elem_of_singleton in Hj'. naive_solver.
Qed.

Lemma swapped_bads index pwork ptr k tptr badmap ptr' :
  swapped index pwork ptr k tptr badmap ptr' -> devs (take k index) -> badmap_ok badmap /\ bads badmap ≡ₚ take k index.
Proof.
  intros [_ _ _ _ _ Hl Hb] [Hnd Hlt]. assert (Hok : badmap_ok badmap).
  { split; [done|]. apply Forall_lookup. intros j b Hj. pose proof (lookup_lt_Some _ _ _ Hj). rewrite Hb in Hj by lia. injection Hj as <-. case_decide; [by right|by left]. }
  split; [done|]. apply NoDup_Permutation; [apply NoDup_filter, NoDup_seq|done|]. intros j. rewrite (elem_of_bads _ _ Hok). split.
  - intros Hj. pose proof (lookup_lt_Some _ _ _ Hj). rewrite Hb in Hj by lia. by case_decide.
  - intros Hj. rewrite Hb by (by apply (proj1 (Forall_forall _ _) Hlt)). by rewrite decide_True.
Qed.

Lemma swapped_split index pwork ptr k tptr badmap ptr' j q :
  swapped index pwork ptr k tptr badmap ptr' -> ptr' !! j = Some q ->
  (j ∉ take k index /\ ptr !! j = Some q) \/ (exists i, (i < k)%nat /\ index !! i = Some j /\ pwork !! i = Some q).
Proof.
  intros Hsw Hq. destruct (decide (j ∈ take k index)) as [Hj|Hj].
  - apply list_elem_of_lookup_1 in Hj as [i Hi]. apply lookup_take_Some in Hi as [Hi Hik]. right. exists i. split; [done|]. split; [done|].
    by rewrite <- (sw_work _ _ _ _ _ _ _ Hsw i j).
  - left. split; [done|]. by rewrite <- (sw_other _ _ _ _ _ _ _ Hsw j).
Qed.

(** The pointers that a check sees. *)
Lemma swapped_stripe index pwork ptr k tptr badmap ptr' m xs :
  stripe m ptr pwork xs -> swapped index pwork ptr k tptr badmap ptr' ->
  exists xs', stripe m ptr' (drop k pwork) xs' /\ agree_out (take k index) xs' xs.
Proof.
  intros Hs Hsw. destruct (stripe_nodup _ _ _ _ Hs) as (Hn1 & Hn2 & Hd). pose proof Hs as (_ & Hr & Hl & ws & Hw).
  destruct (reads_exists m ptr') as [xs' Hxs'].
  { intros q Hq. apply list_elem_of_lookup_1 in Hq as [j Hj]. destruct (swapped_split _ _ _ _ _ _ _ _ _ Hsw Hj) as [[_ Hi]|(i & _ & _ & Hi)].
    - destruct (reads_lookup n m _ _ j q Hr Hi) as (x & _ & Hx). by exists x.
    - destruct (reads_lookup n m _ _ i q Hw Hi) as (x & _ & Hx). by exists x. }
  assert (Hl' : length xs' = n_devs) by (rewrite <- (reads_length n _ _ _ Hxs'), (sw_length _ _ _ _ _ _ _ Hsw), (reads_length n _ _ _ Hr); done).
  exists xs'. split; [split; [|split; [done|split; [done|]]]|].
  - apply NoDup_app. split; [|split; [|rewrite <- (take_drop k pwork) in Hn2; by apply NoDup_app in Hn2 as (_ & _ & ?)]].
    + apply NoDup_alt. intros i j q Hi Hj.
      destruct (swapped_split _ _ _ _ _ _ _ _ _ Hsw Hi) as [[_ Hi1]|(a & _ & Ha & Hi1)]; destruct (swapped_split _ _ _ _ _ _ _ _ _ Hsw Hj) as [[_ Hj1]|(b & _ & Hb & Hj1)].
      * by apply (NoDup_lookup ptr i j q).
      * exfalso. apply (Hd q); by eapply list_elem_of_lookup_2.
      * exfalso. apply (Hd q); by eapply list_elem_of_lookup_2.
      * pose proof (NoDup_lookup pwork a b q Hn2 Hi1 Hj1). congruence.
    + intros q Hq Hq'. apply list_elem_of_lookup_1 in Hq as [j Hj]. apply list_elem_of_lookup_1 in Hq' as [l Hl2]. rewrite lookup_drop in Hl2.
      destruct (swapped_split _ _ _ _ _ _ _ _ _ Hsw Hj) as [[_ Hj1]|(b & Hbk & _ & Hj1)]; [apply (Hd q); by eapply list_elem_of_lookup_2|].
      pose proof (NoDup_lookup pwork b (k + l) q Hn2 Hj1 Hl2). lia.
  - exists (drop k ws). by apply Forall2_drop.
  - intros j Hj. pose proof (sw_other _ _ _ _ _ _ _ Hsw j Hj) as Hjp. destruct (ptr !! j) as [q|] eqn:Eq.
    + destruct (reads_lookup n m _ _ j q Hxs' Hjp) as (x & Hx & H1). destruct (reads_lookup n m _ _ j q Hr Eq) as (y & Hy & H2). rewrite Hx, Hy. f_equal. by apply (has_inj n m q).
    + apply lookup_ge_None in Eq. rewrite (reads_length n m _ _ Hr) in Eq. rewrite !lookup_ge_None_2 by lia. done.
Qed.

Lemma swapped_in index pwork ptr k tptr badmap ptr' q : swapped index pwork ptr k tptr badmap ptr' -> q ∈ ptr' ++ drop k pwork -> q ∈ ptr ++ pwork.
Proof.
  intros Hsw Hq. apply elem_of_app in Hq as [Hq|Hq]; apply elem_of_app.
  - apply list_elem_of_lookup_1 in Hq as [j Hj]. destruct (swapped_split _ _ _ _ _ _ _ _ _ Hsw Hj) as [[_ Hi]|(i & _ & _ & Hi)]; [left|right]; by eapply list_elem_of_lookup_2.
  - right. apply list_elem_of_lookup_1 in Hq as [j Hj]. rewrite lookup_drop in Hj. by eapply list_elem_of_lookup_2.
Qed.

(** The stripe is as before when the pointers are put back. *)
Lemma swapped_back index pwork ptr k tptr badmap ptr' m m' xs xs2 :
  stripe m ptr pwork xs -> swapped index pwork ptr k tptr badmap ptr' -> (k <= length index)%nat -> Forall (fun j => (j < n_devs)%nat) (take k index) ->
  stripe m' ptr' (drop k pwork) xs2 -> agree_out (take k index) xs2 xs -> changes (ptr' ++ drop k pwork) m m' -> stripe m' ptr pwork xs.
Proof.
  intros Hs Hsw Hki Hlt Hs' Ha Hc. destruct (stripe_nodup _ _ _ _ Hs) as (Hn1 & Hn2 & Hd). pose proof Hs as (Hnd & Hr & Hl & ws & Hw). pose proof Hs' as (_ & Hr' & Hl' & ws' & Hw').
  split; [done|]. split; [|split; [done|]].
  - apply reads_intro; [by apply (reads_length n m)|]. intros j q x Hq Hx. destruct (reads_lookup n m _ _ j q Hr Hq) as (y & Hy & Hh). simplify_eq.
    destruct (decide (j ∈ take k index)) as [Hj|Hj].
    + apply (has_changes n _ m m' q x Hh Hc). intros Hin. apply elem_of_app in Hin as [Hin|Hin].
      * apply list_elem_of_lookup_1 in Hin as [i Hi]. destruct (swapped_split _ _ _ _ _ _ _ _ _ Hsw Hi) as [[Hni Hi1]|(a & _ & _ & Hi1)].
        -- pose proof (NoDup_lookup ptr i j q Hn1 Hi1 Hq) as ->. done.
        -- apply (Hd q); by eapply list_elem_of_lookup_2.
      * apply list_elem_of_lookup_1 in Hin as [i Hi]. rewrite lookup_drop in Hi. apply (Hd q); by eapply list_elem_of_lookup_2.
    + assert (Hq' : ptr' !! j = Some q) by (by rewrite (sw_other _ _ _ _ _ _ _ Hsw j Hj)). destruct (reads_lookup n m' _ _ j q Hr' Hq') as (z & Hz & Hhz). rewrite (Ha j Hj) in Hz. by simplify_eq.
  - apply reads_exists. intros q Hq. apply list_elem_of_lookup_1 in Hq as [i Hi]. destruct (decide (i < k)%nat) as [Hik|Hik].
    + destruct (lookup_lt_is_Some_2 index i) as [j Hj]; [lia|]. assert (Hjq : ptr' !! j = Some q) by (by rewrite (sw_work _ _ _ _ _ _ _ Hsw i j)).
      destruct (reads_lookup n m' _ _ j q Hr' Hjq) as (x & _ & Hx). by exists x.
    + assert (Hdq : drop k pwork !! (i - k)%nat = Some q) by (rewrite lookup_drop; by replace (k + (i - k))%nat with i by lia).
      destruct (reads_lookup n m' _ _ _ q Hw' Hdq) as (x & _ & Hx). by exists x.
Qed.

(** *** The search *)

(** A set of devices the check passes with, and one it has passed with. *)
Definition passes (magic : option bytes) xs (S : list nat) : Prop := exists w, code w /\ accepts magic w /\ agree_out S w xs.
Definition found (magic : option bytes) xs (S : list nat) (s : brute) m : Prop :=
  (badmap_ok (br_badmap s) /\ bads (br_badmap s) ≡ₚ S) /\ exists ys, reads n m (br_eptr s) ys /\ accepts magic ys /\ agree_out S ys xs.

(** What the search keeps. *)
Definition search ptr pwork xs (s : brute) m : Prop := stripe m ptr pwork xs /\ br_ptr s = ptr /\ length (br_index s) = n_parity.

Abbreviation recurse := (jerase_brute_recurse adler_init adler32 p (Z.of_nat n) n_devs n_parity).

Lemma brute_try_ok k pwork magic s m ptr xs :
  search ptr pwork xs s m -> (0 < k <= n_parity)%nat -> length pwork = n_parity -> devs (take k (br_index s)) ->
  exists r s' m', brute_try adler_init adler32 p (Z.of_nat n) n_devs n_parity k pwork magic s m = Ok ((r, s'), m') /\
    search ptr pwork xs s' m' /\ changes (ptr ++ pwork) m m' /\ br_index s' = br_index s /\ (r = 0 -> found magic xs (take k (br_index s)) s' m') /\
    (passes magic xs (take k (br_index s)) -> r = 0).
Proof.
  intros (Hs & Hptr & Hil) Hk Hpw Hdev. unfold brute_try. rewrite Hptr. set (index := br_index s) in *. pose proof Hs as (_ & Hr & Hl & _).
  assert (Hpl : length ptr = n_devs) by (by rewrite (reads_length n m ptr xs)).
  destruct (swap_in_ok k 0 index pwork ptr [] (replicate n_devs 0) ptr m) as (tptr & bm & ptr' & Esw & Hsw); [apply swapped_start|done|lia|lia|done|]. rewrite Nat.add_0_l in Hsw.
  rewrite (st_bind_ok _ _ _ _ _ Esw). destruct (swapped_bads _ _ _ _ _ _ _ Hsw Hdev) as [Hbm Hperm]. destruct (swapped_stripe _ _ _ _ _ _ _ _ _ Hs Hsw) as (xs' & Hs' & Ha').
  assert (Hbl : length (bads bm) = k) by (rewrite Hperm, length_take; lia).
  destruct (control_check_ok bm ptr' (br_eptr s) (drop k pwork) m xs' magic) as (r & eptr & m' & Ec & [(xs2 & Hs2 & Ha2) Hfr (ys & Hys & Hyl & Hy & _) _ Hcomp]); [done|done|left; lia|rewrite length_drop; lia|].
  rewrite (st_bind_ok _ _ _ _ _ Ec). rewrite (st_bind_ok _ _ _ _ _ (swap_out_ok k 0 index pwork ptr tptr bm ptr' ptr' m' Hsw Hdev ltac:(lia) Hpl (sw_length _ _ _ _ _ _ _ Hsw)
    ltac:(intros j [Hj|Hj]; [rewrite take_0 in Hj; by apply not_elem_of_nil in Hj|by apply (sw_other _ _ _ _ _ _ _ Hsw)]))).
  assert (Hag : forall us, agree_out (bads bm) us xs' <-> agree_out (take k index) us xs).
  { intros us. split; intros Hu; [apply (agree_out_trans _ _ xs'); [|done]|apply (agree_out_sub (take k index)); [apply (agree_out_trans _ _ xs); [done|by apply agree_out_sym]|]].
    - apply (agree_out_sub _ _ _ _ Hu). intros i. by rewrite Hperm.
    - intros i. by rewrite Hperm. }
  exists r, (Brute index bm ptr eptr), m'. split; [done|]. split; [|split; [|split; [done|split]]].
  - split; [|done]. apply (swapped_back index pwork ptr k tptr bm ptr' m m' xs xs2); [done|done|lia|apply Hdev|done| |done].
    apply Hag, Ha2.
  - apply (changes_app _ _ _ _ Hfr). intros q Hq. by apply (swapped_in _ _ _ _ _ _ _ _ Hsw).
  - intros Hr0. destruct (Hy Hr0) as [Hacc Hya]. split; [done|]. exists ys. split; [done|]. split; [done|]. by apply Hag.
  - intros (w & Hw & Hacc & Hwa). apply (Hcomp w Hw Hacc). by apply Hag.
Qed.

(** The sets that extend the devices chosen so far. *)
Definition extends (k todo : nat) (pre S : list nat) : Prop :=
  StronglySorted lt S /\ Forall (fun j => (j < n_devs)%nat) S /\ length S = (k + todo)%nat /\ take k S = pre.

(** The outcome of a part of the search. *)
Record searched magic xs ptr pwork (N level : nat) (pre : list nat) (ok : list nat -> Prop) m (r : Z) (s' : brute) m' : Prop := Searched {
  se_search : search ptr pwork xs s' m';
  se_frame : changes (ptr ++ pwork) m m';
  se_pre : take level (br_index s') = pre;
  se_found : r = 0 -> exists S, length S = N /\ devs S /\ found magic xs S s' m';
  se_complete : forall S, ok S -> passes magic xs S -> r = 0 }.

Lemma sorted_devs l : StronglySorted lt l -> Forall (fun j => (j < n_devs)%nat) l -> devs l.
Proof.
  intros Hs Hl. split; [|done]. induction Hs as [|x l Hs IH Hx]; [constructor|]. apply Forall_cons in Hl as [_ Hl]. constructor; [|by apply IH].
  intros Hin. pose proof (proj1 (Forall_forall _ _) Hx x Hin). lia.
Qed.

Lemma sorted_snoc l x : StronglySorted lt l -> (forall y, y ∈ l -> (y < x)%nat) -> StronglySorted lt (l ++ [x]).
Proof.
  intros Hs Hx. induction Hs as [|y l Hs IH Hy]; cbn; [by repeat constructor|]. constructor.
  - apply IH. intros z Hz. apply Hx. by right.
  - apply Forall_app. split; [done|]. constructor; [|constructor]. apply Hx. by left.
Qed.

Lemma sorted_lookup l i j x y : StronglySorted lt l -> l !! i = Some x -> l !! j = Some y -> (i < j)%nat -> (x < y)%nat.
Proof.
  intros Hs. revert i j. induction Hs as [|z l Hs IH Hz]; intros i j Hi Hj Hlt; [done|]. destruct j as [|j]; [lia|]. cbn in Hj. destruct i as [|i]; cbn in Hi.
  - simplify_eq. apply (proj1 (Forall_lookup _ _) Hz j y Hj).
  - apply (IH i j); [done|done|lia].
Qed.

Lemma take_insert_snoc {A} (l : list A) k x : (k < length l)%nat -> take (S k) (<[k := x]> l) = take k l ++ [x].
Proof. intros Hk. rewrite (take_S_r _ _ x) by (by rewrite list_lookup_insert_eq). by rewrite take_insert_ge by lia. Qed.

(** Trying one device after the other at a level. *)
Lemma brute_loop_ok magic xs ptr pwork N todo level pre cnt i body s m :
  (forall i' s m, (i <= i' < n_devs)%nat -> search ptr pwork xs s m -> take (S level) (br_index s) = pre ++ [i'] ->
     exists r s' m', body s m = Ok ((r, s'), m') /\ searched magic xs ptr pwork N (S level) (pre ++ [i']) (extends (S level) todo (pre ++ [i'])) m r s' m') ->
  (i + cnt = n_devs)%nat -> (level < n_parity)%nat -> length pre = level -> search ptr pwork xs s m -> take level (br_index s) = pre ->
  exists r s' m', brute_loop cnt i level body s m = Ok ((r, s'), m') /\
    searched magic xs ptr pwork N level pre (fun S => extends level (Datatypes.S todo) pre S /\ forall x, S !! level = Some x -> (i <= x)%nat) m r s' m'.
Proof.
  intros Hbody Hcnt Hlev Hpre. revert i s m Hbody Hcnt. induction cnt as [|cnt IH]; intros i s m Hbody Hcnt Hs Htk; cbn [brute_loop].
  - exists 1, s, m. split; [done|]. split; [done|done|done|done|]. intros S [(_ & Hlt & Hl & _) Hi] _. exfalso.
    destruct (lookup_lt_is_Some_2 S level) as [x Hx]; [lia|]. pose proof (Hi x Hx). pose proof (proj1 (Forall_lookup _ _) Hlt _ _ Hx). cbn in *. lia.
  - pose proof Hs as (Hst & Hptr & Hil). rewrite (st_bind_ok _ _ _ _ _ (arr_set_ok (br_index s) level i m ltac:(lia))).
    destruct (Hbody i (Brute (<[level := i]> (br_index s)) (br_badmap s) (br_ptr s) (br_eptr s)) m) as (r & s' & m' & Eb & [Hs' Hch Hpr Hfo Hco]);
      [lia|split; [done|]; split; [done|]; cbn; by rewrite length_insert|cbn; rewrite take_insert_snoc by lia; by rewrite Htk|].
    assert (Hpr' : take level (br_index s') = pre) by (rewrite <- (take_app_length' pre [i] level), <- Hpr, take_take, Nat.min_l by lia; done).
    rewrite (st_bind_ok _ _ _ _ _ Eb). destruct (Z.eqb_spec r 0) as [->|Hr].
    + exists 0, s', m'. split; [done|]. split; [done|done|done|by intros _; apply Hfo|done].
    + destruct (IH (S i) s' m') as (r2 & s2 & m2 & E2 & [Hs2 Hch2 Hpr2 Hfo2 Hco2]); [intros i' ?? ?; apply Hbody; lia|lia|done|done|].
      exists r2, s2, m2. split; [done|]. split; [done|by apply (changes_trans _ _ m')|done|done|]. intros S [Hext Hi] Hpass. apply (Hco2 S); [|done]. split; [done|].
      intros x Hx. destruct (decide (x = i)) as [->|Hne]; [|pose proof (Hi x Hx); lia]. exfalso. apply Hr. apply (Hco S); [|done].
      destruct Hext as (H1 & H2 & H3 & H4). split; [done|]. split; [done|]. split; [lia|]. rewrite (take_S_r _ _ _ Hx). by rewrite H4.
Qed.

Lemma recurse_ok magic xs ptr pwork N todo level pre s m :
  (0 < N <= n_parity)%nat -> (level + todo = N)%nat -> length pwork = n_parity -> search ptr pwork xs s m -> take level (br_index s) = pre ->
  StronglySorted lt pre -> Forall (fun j => (j < n_devs)%nat) pre ->
  exists r s' m', recurse todo level N pwork magic s m = Ok ((r, s'), m') /\ searched magic xs ptr pwork N level pre (extends level todo pre) m r s' m'.
Proof.
  intros HN. revert level pre s m. induction todo as [|todo IH]; intros level pre s m Hlev Hpw Hs Htk Hso Hlt; cbn [jerase_brute_recurse].
  - rewrite Nat.add_0_r in Hlev. subst N. destruct (brute_try_ok level pwork magic s m ptr xs) as (r & s' & m' & E & Hs' & Hch & Hix & Hfo & Hco); [done|done|done|rewrite Htk; by apply sorted_devs|].
    exists r, s', m'. split; [done|]. rewrite Htk in Hfo, Hco. split; [done|done|by rewrite Hix| |].
    + intros Hr. exists pre. split; [rewrite <- Htk, length_take; destruct Hs as (_ & _ & ->); lia|]. split; [by apply sorted_devs|by apply Hfo].
    + intros S (_ & _ & Hl & Hpr) Hp. apply Hco. rewrite <- Hpr. by rewrite take_ge by lia.
  - assert (Hpl : length pre = level) by (rewrite <- Htk, length_take; destruct Hs as (_ & _ & ->); lia).
    assert (Hstart : exists start, (match level with O => mret 0%nat | S l => x ← arr_at (br_index s) l; mret (S x) end : blM nat) m = Ok (start, m) /\ (start <= n_devs)%nat /\
      (forall y, y ∈ pre -> (y < start)%nat) /\ forall S x, extends level (Datatypes.S todo) pre S -> S !! level = Some x -> (start <= x)%nat).
    { destruct level as [|l].
      - exists 0%nat. split; [done|]. split; [lia|]. split; [|intros; lia]. intros y Hy. destruct pre; [by apply not_elem_of_nil in Hy|done].
      - destruct (lookup_lt_is_Some_2 (br_index s) l) as [x Hx]; [destruct Hs as (_ & _ & ->); lia|]. rewrite (st_bind_ok _ _ _ _ _ (arr_at_ok _ _ _ m Hx)).
        assert (Hxp : pre !! l = Some x) by (rewrite <- Htk, lookup_take_lt by lia; done). exists (S x). split; [done|]. split; [|split].
        + pose proof (proj1 (Forall_lookup _ _) Hlt _ _ Hxp). cbn in *. lia.
        + intros y Hy. apply list_elem_of_lookup_1 in Hy as [j Hj]. pose proof (lookup_lt_Some _ _ _ Hj). destruct (decide (j = l)) as [->|Hne]; [simplify_eq; lia|].
          pose proof (sorted_lookup pre j l y x Hso Hj Hxp ltac:(lia)). lia.
        + intros S z (HsS & _ & _ & Hpr) Hz. assert (HxS : S !! l = Some x) by (rewrite <- (lookup_take_lt S (Datatypes.S l)) by lia; by rewrite Hpr). pose proof (sorted_lookup S l (Datatypes.S l) x z HsS HxS Hz ltac:(lia)). lia. }
    destruct Hstart as (start & Est & Hsn & Hlow & Hhi). rewrite (st_bind_ok _ _ _ _ _ Est).
    destruct (brute_loop_ok magic xs ptr pwork N todo level pre (n_devs - start) start (recurse todo (S level) N pwork magic) s m) as (r & s' & m' & E & [H1 H2 H3 H4 H5]); [|lia|lia|done|done|done|].
    { intros i' s2 m2 Hi' Hs2 Htk2. apply IH; [lia|done|done|done| |].
      - apply sorted_snoc; [done|]. intros y Hy. pose proof (Hlow y Hy). lia.
      - apply Forall_app. split; [done|]. constructor; [lia|constructor]. }
    exists r, s', m'. split; [done|]. split; [done|done|done|done|]. intros S Hext Hp. apply (H5 S); [|done]. split; [done|]. intros x Hx. by apply (Hhi S).
Qed.

(** Sets of more and more devices. *)
Lemma recovery_loop_ok magic xs ptr pwork cnt i s m :
  (0 < i)%nat -> (i + cnt <= S n_parity)%nat -> length pwork = n_parity -> stripe m ptr pwork xs -> br_ptr s = ptr ->
  exists r s' m', recovery_loop adler_init adler32 p (Z.of_nat n) n_devs n_parity cnt i pwork magic s m = Ok ((r, s'), m') /\
    stripe m' ptr pwork xs /\ changes (ptr ++ pwork) m m' /\
    (forall S', StronglySorted lt S' -> Forall (fun j => (j < n_devs)%nat) S' -> (i <= length S' < i + cnt)%nat -> passes magic xs S' -> r = 0) /\
    (r = 0 -> exists S, devs S /\ found magic xs S s' m' /\
       forall S', StronglySorted lt S' -> Forall (fun j => (j < n_devs)%nat) S' -> (i <= length S')%nat -> passes magic xs S' -> (length S <= length S')%nat).
Proof.
  revert i s m. induction cnt as [|cnt IH]; intros i s m Hi Hc Hpw Hs Hptr; cbn [recovery_loop].
  - exists 1, s, m. split; [done|]. split; [done|]. split; [done|]. split; [intros; lia|done].
  - destruct (recurse_ok magic xs ptr pwork i i 0 [] (Brute (replicate n_parity 0%nat) (br_badmap s) (br_ptr s) (br_eptr s)) m) as (r & s' & m' & E & [(Hs' & Hp' & _) Hch _ Hfo Hco]);
      [lia|done|done|split; [done|]; split; [done|]; cbn; by rewrite length_replicate|done|constructor|constructor|].
    rewrite (st_bind_ok _ _ _ _ _ E). destruct (Z.eqb_spec r 0) as [->|Hr].
    + exists 0, s', m'. split; [done|]. split; [done|]. split; [done|]. split; [done|]. intros _. destruct (Hfo eq_refl) as (S & HlS & HdS & HfS). exists S. split; [done|]. split; [done|]. intros; lia.
    + assert (Hnone : forall S', StronglySorted lt S' -> Forall (fun j => (j < n_devs)%nat) S' -> length S' = i -> ~ passes magic xs S').
      { intros S' H1 H2 H3 Hp. apply Hr, (Hco S'); [|done]. split; [done|]. split; [done|]. split; [lia|]. apply take_0. }
      destruct (IH (S i) s' m') as (r2 & s2 & m2 & E2 & Hs2 & Hch2 & Hco2 & Hfo2); [lia|lia|done|done|done|].
      exists r2, s2, m2. split; [done|]. split; [done|]. split; [by apply (changes_trans _ _ m')|]. split.
      * intros S' H1 H2 H3 Hp. destruct (decide (length S' = i)) as [Hl|Hl]; [by destruct (Hnone S')|]. apply (Hco2 S'); [done|done|lia|done].
      * intros Hr2. destruct (Hfo2 Hr2) as (S & HdS & HfS & Hmin). exists S. split; [done|]. split; [done|]. intros S' H1 H2 H3 Hp.
        destruct (decide (length S' = i)) as [Hl|Hl]; [by destruct (Hnone S')|]. apply Hmin; [done|done|lia|done].
Qed.

Lemma sort_devs W : devs W -> exists W', StronglySorted lt W' /\ Forall (fun j => (j < n_devs)%nat) W' /\ W' ≡ₚ W.
Proof.
  intros [Hnd Hlt]. exists (filter (fun j => j ∈ W) (seq 0 n_devs)). split; [|split].
  - assert (Hss : forall a l, StronglySorted lt (filter (fun j => j ∈ W) (seq a l)) /\ Forall (fun j => (a <= j)%nat) (filter (fun j => j ∈ W) (seq a l))).
    { intros a l. revert a. induction l as [|l IH]; intros a; [by repeat constructor|]. cbn [seq]. rewrite filter_cons. destruct (IH (S a)) as [H1 H2].
      assert (H3 : Forall (fun j => (a <= j)%nat) (filter (fun j => j ∈ W) (seq (S a) l))) by (eapply Forall_impl; [exact H2|]; cbn; lia).
      case_decide; [|done]. split; constructor; try done. }
    apply Hss.
  - apply Forall_forall. intros j Hj. apply list_elem_of_filter in Hj as [_ Hj%elem_of_seq]. lia.
  - apply NoDup_Permutation; [apply NoDup_filter, NoDup_seq|done|]. intros j. rewrite list_elem_of_filter, elem_of_seq. split; [naive_solver|].
    intros Hj. split; [done|]. pose proof (proj1 (Forall_forall _ _) Hlt j Hj). cbn in *. lia.
Qed.

(** When the word is acceptable but for devices [W], and the devices given
    are among them, the recovery succeeds with no more devices than [W]. *)
Lemma brute_recovery_ok magic badmap ptr eptr pwork m xs w W :
  stripe m ptr pwork xs -> badmap_ok badmap -> length pwork = n_parity -> devs W -> (forall i, i ∈ bads badmap -> i ∈ W) ->
  code w -> accepts magic w -> agree_out W w xs -> (length W <= n_parity)%nat -> (magic = None -> length W < n_parity \/ length W = 0)%nat ->
  (bads badmap = [] -> forall mg, magic = Some mg -> mg <> word_magic xs) ->
  exists badmap' eptr' m' S ys us,
    jerase_brute_recovery adler_init adler32 p (Z.of_nat n) n_devs n_parity badmap ptr eptr pwork magic m = Ok ((0, badmap', eptr'), m') /\
    reads n m' eptr' ys /\ accepts magic ys /\ (length S <= length W)%nat /\ stripe m' ptr pwork us /\ agree_out W us xs /\ agree_out S ys us /\
    badmap_ok badmap' /\ bads badmap' ≡ₚ S /\ changes (ptr ++ pwork) m m'.
Proof.
  intros Hs Hb Hpw HW Hsub Hw Hacc Hwa HWn HWp Hmg. assert (HbW : (length (bads badmap) <= length W)%nat).
  { apply submseteq_length, NoDup_submseteq; [apply NoDup_filter, NoDup_seq|done]. }
  assert (Hsrch : forall m1 xs1 eptr1, stripe m1 ptr pwork xs1 -> agree_out W xs1 xs -> changes (ptr ++ pwork) m m1 -> (0 < length W)%nat ->
    exists badmap' eptr' m' S ys us,
    ('(r, s) ← recovery_loop adler_init adler32 p (Z.of_nat n) n_devs n_parity (match magic with Some _ => Datatypes.S n_parity | None => n_parity end - 1) 1 pwork magic (Brute [] (replicate n_devs 0) ptr eptr1);
     mret (r, br_badmap s, br_eptr s)) m1 = Ok ((0, badmap', eptr'), m') /\
    reads n m' eptr' ys /\ accepts magic ys /\ (length S <= length W)%nat /\ stripe m' ptr pwork us /\ agree_out W us xs /\ agree_out S ys us /\
    badmap_ok badmap' /\ bads badmap' ≡ₚ S /\ changes (ptr ++ pwork) m m').
  { intros m1 xs1 eptr1 Hs1 Hx1 Hch1 HW0. destruct (sort_devs W HW) as (W' & Hso & Hlt & Hp). pose proof (Permutation_length Hp) as Hpl.
    assert (Hpass : passes magic xs1 W'). { exists w. split; [done|]. split; [done|]. apply (agree_out_sub W); [|by intros i; rewrite Hp]. apply (agree_out_trans _ _ xs); [done|by apply agree_out_sym]. }
    destruct (recovery_loop_ok magic xs1 ptr pwork (match magic with Some _ => S n_parity | None => n_parity end - 1) 1 (Brute [] (replicate n_devs 0) ptr eptr1) m1)
      as (r & s & m2 & E & Hs2 & Hch2 & Hco & Hfo); [lia|destruct magic; lia|done|done|done|].
    assert (r = 0) as ->. { apply (Hco W' Hso Hlt); [|done]. destruct magic as [mg|]; [lia|]. destruct (HWp eq_refl); lia. }
    destruct (Hfo eq_refl) as (S & HdS & ((Hbo & Hbp) & ys & Hys & Hya & Hyx) & Hmin). rewrite (st_bind_ok _ _ _ _ _ E).
    exists (br_badmap s), (br_eptr s), m2, S, ys, xs1. split; [done|]. split; [done|]. split; [done|]. split; [rewrite <- Hpl; apply Hmin; [done|done|lia|done]|].
    split; [done|]. split; [done|]. split; [done|]. split; [done|]. split; [done|by apply (changes_trans _ _ m1)]. }
  unfold jerase_brute_recovery. destruct (decide (bads badmap = [] /\ magic <> None)) as [[Hnil Hsome]|Hcase].
  - destruct magic as [mg|]; [|done]. rewrite (st_bind_ok _ _ _ _ _ (control_check_same badmap ptr eptr pwork m xs mg Hs Hb Hnil)).
    pose proof (Hmg Hnil mg eq_refl) as Hne. rewrite decide_False by done. cbn [Z.eqb]. apply (Hsrch m xs eptr); [done|by intros i _|by intros q _|].
    destruct W as [|? ?]; [|simpl; lia]. exfalso. apply Hne. cbn [accepts] in Hacc. rewrite Hacc. f_equal. apply list_eq. intros i. apply Hwa. apply not_elem_of_nil.
  - destruct (control_check_ok badmap ptr eptr pwork m xs magic) as (r & eptr1 & m1 & Ec & [(xs1 & Hs1 & Hx1) Hfr (ys & Hys & Hyl & Hy & _) _ Hcomp]); [done|done| |lia|].
    { destruct magic as [mg|]; [left|by right]. destruct (bads badmap); [|simpl; lia]. exfalso. by apply Hcase. }
    assert (Hx1W : agree_out W xs1 xs) by (by apply (agree_out_sub _ _ _ _ Hx1)).
    rewrite (st_bind_ok _ _ _ _ _ Ec). destruct (Z.eqb_spec r 0) as [->|Hr0].
    + destruct (Hy eq_refl) as [Hya Hyx]. exists badmap, eptr1, m1, (bads badmap), ys, xs1. split; [done|]. split; [done|]. split; [done|]. split; [done|]. split; [done|]. split; [done|].
      split; [by apply (agree_out_trans _ _ xs), agree_out_sym|]. done.
    + apply (Hsrch m1 xs1 eptr1); [done|done|done|]. destruct W as [|? ?]; [|simpl; lia]. exfalso. apply Hr0, (Hcomp w Hw Hacc).
      intros i _. apply Hwa. apply not_elem_of_nil.
Qed.

(** C31: Bad chunks are found without a checksum: when the chunks of a stripe
    belong to a codeword but for at most half as many devices as there are
    parities, among them those given as bad, the brute-force recovery returns
    0, the chunks it points to are the codeword, and the devices outside of
    the map it leaves hold the codeword's chunks. *)
Theorem brute_recovers badmap ptr eptr pwork m xs w W :
  stripe m ptr pwork xs -> badmap_ok badmap -> length pwork = n_parity -> devs W -> (forall i, i ∈ bads badmap -> i ∈ W) ->
  code w -> agree_out W w xs -> (2 * length W <= n_parity)%nat ->
  exists badmap' eptr' m' us,
    jerase_brute_recovery adler_init adler32 p (Z.of_nat n) n_devs n_parity badmap ptr eptr pwork None m = Ok ((0, badmap', eptr'), m') /\
    reads n m' eptr' w /\ reads n m' ptr us /\ agree_out (bads badmap') us w.
Proof.
  intros Hs Hb Hpw HW Hsub Hw Hwa Hlen.
  destruct (brute_recovery_ok None badmap ptr eptr pwork m xs w W) as (bm & e & m' & S & ys & us & E & Hys & Hya & HS & (_ & Hus & _) & HuW & Hyu & Hbo & Hbp & _); [done..|lia|lia|done|].
  assert (ys = w) as ->.
  { apply (md_unique _ _ _ _ _ Hcode ys w (S ++ W)); [done|done|rewrite length_app; lia|]. intros i Hi. apply not_elem_of_app in Hi as [Hi1 Hi2]. by rewrite Hyu, HuW, Hwa. }
  exists bm, e, m', us. split; [done|]. split; [done|]. split; [done|]. apply agree_out_sym, (agree_out_sub _ _ _ _ Hyu). intros i. by rewrite Hbp.
Qed.

(** C32: With a checksum as many bad chunks as there are parities are dealt
    with: when the chunks belong to a codeword with that checksum but for so
    many devices, among them those given as bad, the recovery returns 0 and
    the chunks it points to have the checksum and differ from the stripe's at
    no more devices. *)
Theorem brute_recovers_magic badmap ptr eptr pwork m xs w W :
  stripe m ptr pwork xs -> badmap_ok badmap -> length pwork = n_parity -> devs W -> (forall i, i ∈ bads badmap -> i ∈ W) ->
  code w -> agree_out W w xs -> (length W <= n_parity)%nat -> (bads badmap = [] -> word_magic w <> word_magic xs) ->
  exists badmap' eptr' m' ys us,
    jerase_brute_recovery adler_init adler32 p (Z.of_nat n) n_devs n_parity badmap ptr eptr pwork (Some (word_magic w)) m = Ok ((0, badmap', eptr'), m') /\
    reads n m' eptr' ys /\ word_magic ys = word_magic w /\ reads n m' ptr us /\ agree_out W us w /\ agree_out (bads badmap') us ys /\ (length (bads badmap') <= length W)%nat.
Proof.
  intros Hs Hb Hpw HW Hsub Hw Hwa Hlen Hne.
  destruct (brute_recovery_ok (Some (word_magic w)) badmap ptr eptr pwork m xs w W) as (bm & e & m' & S & ys & us & E & Hys & Hya & HS & (_ & Hus & _) & HuW & Hyu & Hbo & Hbp & _); [done..| |].
  { intros Hnil mg [= <-]. by apply Hne. }
  exists bm, e, m', ys, us. split; [done|]. split; [done|]. split; [done|]. split; [done|]. split; [by apply (agree_out_trans _ _ xs), agree_out_sym|].
  split; [|by rewrite Hbp]. apply agree_out_sym, (agree_out_sub _ _ _ _ Hyu). intros i. by rewrite Hbp.
Qed.

End proofs.

(** ** Copies *)

(** With one data strip the parities are copies.  This is such a code: the
    parities are copied from the data, and the erased chunks from the first one
    that is left. *)
Fixpoint copy_to (src : loc) (ptr : list loc) (erasures : list Z) (size : Z) : blM Z :=
  match erasures with
  | [] => mret 0
  | e :: erasures =>
    if e =? -1 then mret 0 else
    d ← ptr_at ptr e;
    _ ← block_copy d src size;
    copy_to src ptr erasures size
  end.

Definition copies_decode (n_devs : nat) (erasures : list Z) (data coding : list loc) (size : Z) : blM Z :=
  let ptr := take 1 data ++ coding in
  match filter (fun i => Z.of_nat i ∉ erasures) (seq 0 n_devs) with
  | [] => mret (-1)
  | i :: _ => src ← ptr_at ptr (Z.of_nat i); copy_to src ptr erasures size
  end.

Definition copies_jerasure : Jerasure unit unit := {|
  reed_sol_r6_coding_matrix _ _ := None;
  reed_sol_vandermonde_coding_matrix _ _ _ := Some tt;
  cauchy_original_coding_matrix _ _ _ := None;
  cauchy_good_general_coding_matrix _ _ _ := None;
  jerasure_matrix_to_bitmatrix _ _ _ _ := None;
  blaum_roth_coding_bitmatrix _ _ := None;
  liberation_coding_bitmatrix _ _ := None;
  liber8tion_coding_bitmatrix _ := None;
  jerasure_smart_bitmatrix_to_schedule _ _ _ _ := None;
  jerasure_schedule_encode _ _ _ _ _ _ _ _ := st_fail NullDeref;
  jerasure_matrix_encode k m _ _ data coding size := src ← ptr_at data 0; _ ← copy_to src (take 1 data ++ coding) ((Z.of_nat <$> seq 1 (Z.to_nat m)) ++ [-1]) size; mret tt;
  reed_sol_r6_encode _ _ _ _ _ := st_fail NullDeref;
  jerasure_matrix_decode k m _ _ _ erasures data coding size := copies_decode (Z.to_nat (k + m)) erasures data coding size;
  jerasure_schedule_decode_lazy _ _ _ _ _ _ _ _ _ _ := st_fail NullDeref |}.

Definition copies_plan (np : nat) : erasure_plan unit unit := Plan unit unit 0 REED_SOL_VAN 1 (Z.of_nat np) 8 1 1 (Some tt) None None.
Definition copies (n n_devs : nat) (w : list bytes) : Prop := exists x, length x = n /\ w = replicate n_devs x.

Section copies.
Context (n np : nat).
Implicit Types (m : blocks) (ptr : list loc) (xs : list bytes).

(** A device outside of a set that is too small. *)
Lemma survivor E : (length E <= np)%nat -> exists i, (i < S np)%nat /\ i ∉ E.
Proof.
  intros Hl. destruct (filter (fun i => i ∉ E) (seq 0 (S np))) as [|i l] eqn:Ef.
  - exfalso. assert (Hsub : seq 0 (S np) ⊆+ E).
    { apply NoDup_submseteq; [apply NoDup_seq|]. intros i Hi. destruct (decide (i ∈ E)) as [?|Hn]; [done|]. exfalso.
      assert (Hin : i ∈ filter (fun i => i ∉ E) (seq 0 (S np))) by (by apply list_elem_of_filter). rewrite Ef in Hin. by apply not_elem_of_nil in Hin. }
    apply submseteq_length in Hsub. rewrite length_seq in Hsub. lia.
  - exists i. assert (Hin : i ∈ filter (fun i => i ∉ E) (seq 0 (S np))) by (rewrite Ef; by left). apply list_elem_of_filter in Hin as [? Hi%elem_of_seq]. split; [lia|done].
Qed.

Lemma copies_unique w w' E : copies n (S np) w -> copies n (S np) w' -> (length E <= np)%nat -> agree_out E w w' -> w = w'.
Proof.
  intros (x & _ & ->) (y & _ & ->) Hl Ha. destruct (survivor E Hl) as (i & Hi & Hni). specialize (Ha i Hni). rewrite !lookup_replicate_2 in Ha by done. by injection Ha as ->.
Qed.

Lemma copies_fill xs E :
  length xs = S np -> sized n xs -> NoDup E -> Forall (fun i => (i < S np)%nat) E -> length E = np -> exists w, copies n (S np) w /\ agree_out E w xs.
Proof.
  intros Hl Hs Hnd Hlt HE. destruct (survivor E ltac:(lia)) as (i & Hi & Hni). destruct (lookup_lt_is_Some_2 xs i) as [x Hx]; [lia|].
  exists (replicate (S np) x). split; [exists x; split; [by apply (proj1 (Forall_lookup _ _) Hs i)|done]|]. intros j Hj.
  destruct (decide (j < S np)%nat) as [Hjl|Hjl]; [|rewrite !lookup_ge_None_2; [done|lia|rewrite length_replicate; lia]].
  destruct (decide (j = i)) as [->|Hne]; [by rewrite lookup_replicate_2|]. exfalso. assert (Hsub : j :: i :: E ⊆+ seq 0 (S np)).
  { apply NoDup_submseteq; [|intros k Hk; apply elem_of_seq; rewrite !elem_of_cons in Hk; destruct Hk as [->|[->|Hk]]; [lia|lia|pose proof (proj1 (Forall_forall _ _) Hlt k Hk); cbn in *; lia]].
    constructor; [rewrite elem_of_cons; naive_solver|by constructor]. }
  apply submseteq_length in Hsub. rewrite length_seq in Hsub. simpl in Hsub. lia.
Qed.

Lemma copy_to_ok i src x rest E m ptr xs :
  NoDup ptr -> reads n m ptr xs -> ptr !! i = Some src -> xs !! i = Some x -> i ∉ E -> Forall (fun j => (j < length xs)%nat) E ->
  exists m' ys, copy_to src ptr ((Z.of_nat <$> E) ++ -1 :: rest) (Z.of_nat n) m = Ok (0, m') /\ reads n m' ptr ys /\ length ys = length xs /\
    agree_out E ys xs /\ (forall j, j ∈ E -> ys !! j = Some x) /\ changes ptr m m'.
Proof.
  intros Hnd Hr Hsrc Hx. revert m xs Hr Hx. induction E as [|e E IH]; intros m xs Hr Hx Hi Hlt; cbn [fmap list_fmap app copy_to].
  - exists m, xs. repeat (split; [done|]). split; [intros j Hj; by apply not_elem_of_nil in Hj|done].
  - apply not_elem_of_cons in Hi as [Hie Hi]. apply Forall_cons in Hlt as [He Hlt]. rewrite (proj2 (Z.eqb_neq _ _)) by lia.
    destruct (lookup_lt_is_Some_2 ptr e) as [d Hd]; [by rewrite (reads_length n m ptr xs)|]. rewrite (st_bind_ok _ _ _ _ _ (ptr_at_ok ptr e d m Hd)).
    destruct (reads_lookup n m _ _ e d Hr Hd) as (z & Hz & (b' & Hb' & Hbl' & _)). destruct (reads_lookup n m _ _ i src Hr Hsrc) as (x' & Hx' & (b & Hb & Hbl & Htk)). simplify_eq.
    rewrite (st_bind_ok _ _ _ _ _ (block_copy_ok d src n b b' m Hb Hb' Hbl Hbl')). set (m1 := <[d := _]> m).
    assert (Hr1 : reads n m1 ptr (<[e := take n b]> xs)).
    { apply reads_intro; [rewrite length_insert; by apply (reads_length n m)|]. intros j q y Hq Hy. destruct (decide (j = e)) as [->|Hne].
      - rewrite list_lookup_insert_eq in Hy by done. simplify_eq. exists (take n b ++ drop n b'). unfold m1. rewrite lookup_insert_eq. split; [done|].
        rewrite length_app, length_take, length_drop. split; [lia|]. by rewrite take_app_length' by (rewrite length_take; lia).
      - rewrite list_lookup_insert_ne in Hy by done. destruct (reads_lookup n m _ _ j q Hr Hq) as (y' & Hy' & Hh). simplify_eq. apply (has_changes n [d] m); [done| |].
        + apply changes_insert. by left.
        + rewrite list_elem_of_singleton. intros ->. apply Hne. by apply (NoDup_lookup ptr j e d). }
    destruct (IH m1 (<[e := take n b]> xs)) as (m' & ys & E1 & Hr' & Hl' & Ha & Hall & Hch); [done|by rewrite list_lookup_insert_ne|done|by rewrite length_insert|].
    exists m', ys. split; [done|]. split; [done|]. split; [by rewrite Hl', length_insert|]. split; [|split].
    + intros j Hj. apply not_elem_of_cons in Hj as [Hje Hj]. rewrite (Ha j Hj). by rewrite list_lookup_insert_ne.
    + intros j Hj. destruct (decide (j ∈ E)) as [HjE|HjE]; [by apply Hall|]. apply elem_of_cons in Hj as [->|?]; [|done]. rewrite (Ha e HjE). by rewrite list_lookup_insert_eq.
    + apply (changes_trans _ _ m1); [|done]. apply changes_insert. by eapply list_elem_of_lookup_2.
Qed.

(** The copies are such a code. *)
Lemma copies_mds : mds (H := copies_jerasure) (copies_plan np) n (S np) np (copies n (S np)).
Proof.
  split.
  - intros w (x & Hx & ->). split; [by rewrite length_replicate|]. by apply Forall_replicate.
  - apply copies_unique.
  - apply copies_fill.
  - intros m ptr xs E Hnd Hr Hl HndE Hlt HE. pose proof (reads_length n m ptr xs Hr) as Hpl. cbn. unfold matrix_decode_block, parity_ptr. cbn.
    unfold copies_decode. rewrite take_drop. replace (Z.to_nat (Z.of_nat (1 + np))) with (S np) by lia.
    replace (Z.to_nat (1 + Z.of_nat np)) with (S np) by lia.
    destruct (filter _ (seq 0 (S np))) as [|i l] eqn:Ef.
    + exfalso. destruct (survivor E HE) as (i & Hi & Hni). assert (Hin : i ∈ filter (fun i => Z.of_nat i ∉ (Z.of_nat <$> E) ++ [-1]) (seq 0 (S np))).
      { apply list_elem_of_filter. split; [|apply elem_of_seq; lia]. rewrite elem_of_app, list_elem_of_fmap, list_elem_of_singleton. intros [(y & Hy & HyE)|?]; [|lia]. apply Nat2Z.inj in Hy. by subst. }
      rewrite Ef in Hin. by apply not_elem_of_nil in Hin.
    + assert (Hin : i ∈ filter (fun i => Z.of_nat i ∉ (Z.of_nat <$> E) ++ [-1]) (seq 0 (S np))) by (rewrite Ef; by left).
      apply list_elem_of_filter in Hin as [Hni Hi%elem_of_seq]. assert (HiE : i ∉ E) by (intros HiE; apply Hni, elem_of_app; left; by apply list_elem_of_fmap_2).
      destruct (lookup_lt_is_Some_2 ptr i) as [src Hsrc]; [lia|]. destruct (reads_lookup n m _ _ i src Hr Hsrc) as (x & Hx & Hh).
      rewrite (st_bind_ok _ _ _ _ _ (ptr_at_ok ptr i src m Hsrc)). destruct (copy_to_ok i src x [] E m ptr xs) as (m' & ys & E1 & Hr' & Hl' & Ha & Hall & Hch); [done..|by rewrite Hl|].
      exists 0, m', ys. split; [done|]. split; [done|]. split; [done|]. split; [done|]. intros w (z & Hz & ->) Hwa.
      assert (z = x) as ->. { specialize (Hwa i HiE). rewrite lookup_replicate_2 in Hwa by lia. congruence. }
      apply list_eq. intros j. destruct (decide (j ∈ E)) as [HjE|HjE]; [|by rewrite (Ha j HjE), (Hwa j HjE)].
      rewrite (Hall j HjE), lookup_replicate_2; [done|]. by apply (proj1 (Forall_forall _ _) Hlt).
Qed.

End copies.

(** Three copies of two bytes and a bad one, found without a checksum. *)
Definition heap_of (bs : list bytes) : blocks := list_to_map (zip (Pos.of_succ_nat <$> seq 0 (length bs)) bs).

Lemma brute_recovers_witness :
  let m := heap_of [[7; 8]; [9; 9]; [7; 8]; [0; 0]; [0; 0]] in
  exists badmap' eptr' m' us,
    jerase_brute_recovery (H := copies_jerasure) 1 (fun c b => zsum id b + c) (copies_plan 2) 2 3 2 [0; 0; 0] [1; 2; 3]%positive [] [4; 5]%positive None m = Ok ((0, badmap', eptr'), m') /\
    reads 2 m' eptr' [[7; 8]; [7; 8]; [7; 8]] /\ reads 2 m' [1; 2; 3]%positive us /\ agree_out (bads 3 badmap') us [[7; 8]; [7; 8]; [7; 8]].
Proof.
  intros m. assert (Hh : forall i b, m !! i = Some b -> length b = 2%nat -> has 2 m i b) by (intros i b Hi Hb; exists b; split; [done|]; split; [lia|by rewrite take_ge by lia]).
  apply (brute_recovers (H := copies_jerasure) 1 (fun c b => zsum id b + c) (copies_plan 2) 2 3 2 (copies 2 3) (copies_mds 2 2) ltac:(lia) [0; 0; 0] [1; 2; 3]%positive [] [4; 5]%positive m
    [[7; 8]; [9; 9]; [7; 8]] [[7; 8]; [7; 8]; [7; 8]] [1%nat]).
  - split; [apply (bool_decide_unpack _); by vm_compute|]. split; [by repeat (constructor; [by apply Hh|])|]. split; [done|]. exists [[0; 0]; [0; 0]]. by repeat (constructor; [by apply Hh|]).
  - split; [done|]. repeat constructor; by left.
  - done.
  - split; [apply (bool_decide_unpack _); by vm_compute|]. repeat constructor.
  - intros i Hi. by apply not_elem_of_nil in Hi.
  - by exists [7; 8].
  - intros [|[|[|i]]] Hi; [done|exfalso; apply Hi; by left|done|done].
  - done.
Defined.

(** Two bad chunks of four, with a checksum. *)
Lemma brute_recovers_magic_witness :
  let m := heap_of [[7; 8]; [9; 9]; [7; 8]; [1; 2]; [0; 0]; [0; 0]; [0; 0]] in let w := [[7; 8]; [7; 8]; [7; 8]; [7; 8]] in let mg := word_magic 1 (fun c b => zsum id b + c) w in
  exists badmap' eptr' m' ys us,
    jerase_brute_recovery (H := copies_jerasure) 1 (fun c b => zsum id b + c) (copies_plan 3) 2 4 3 [0; 1; 0; 0] [1; 2; 3; 4]%positive [] [5; 6; 7]%positive (Some mg) m = Ok ((0, badmap', eptr'), m') /\
    reads 2 m' eptr' ys /\ word_magic 1 (fun c b => zsum id b + c) ys = mg /\ reads 2 m' [1; 2; 3; 4]%positive us /\ agree_out [1; 3]%nat us w /\ agree_out (bads 4 badmap') us ys /\
    (length (bads 4 badmap') <= 2)%nat.
Proof.
  intros m w mg. assert (Hh : forall i b, m !! i = Some b -> length b = 2%nat -> has 2 m i b) by (intros i b Hi Hb; exists b; split; [done|]; split; [lia|by rewrite take_ge by lia]).
  apply (brute_recovers_magic (H := copies_jerasure) 1 (fun c b => zsum id b + c) (copies_plan 3) 2 4 3 (copies 2 4) (copies_mds 2 3) ltac:(lia) [0; 1; 0; 0] [1; 2; 3; 4]%positive [] [5; 6; 7]%positive m
    [[7; 8]; [9; 9]; [7; 8]; [1; 2]] w [1; 3]%nat).
  - split; [apply (bool_decide_unpack _); by vm_compute|]. split; [by repeat (constructor; [by apply Hh|])|]. split; [done|]. exists [[0; 0]; [0; 0]; [0; 0]]. by repeat (constructor; [by apply Hh|]).
  - split; [done|]. repeat (constructor; [by (left + right)|]). constructor.
  - done.
  - split; [apply (bool_decide_unpack _); by vm_compute|]. repeat constructor.
  - intros i Hi. apply list_elem_of_singleton in Hi as ->. by left.
  - by exists [7; 8].
  - intros [|[|[|[|i]]]] Hi; [done|exfalso; apply Hi; by left|done|exfalso; apply Hi; right; by left|done].
  - cbn. lia.
  - done.
Defined.

(** Without a checksum [n_parity - 1] bad chunks can be too many: with two of
    four copies bad, the other two are replaced. *)
Lemma brute_recovery_wrong :
  let m := heap_of [[7]; [7]; [9]; [9]; [0]; [0]; [0]] in
  exists eptr m', jerase_brute_recovery (H := copies_jerasure) 1 (fun c b => zsum id b + c) (copies_plan 3) 1 4 3 [0; 0; 0; 0] [1; 2; 3; 4]%positive [] [5; 6; 7]%positive None m =
    Ok ((0, [1; 1; 0; 0], eptr), m') /\ reads 1 m' eptr [[9]; [9]; [9]; [9]].
Proof.
  intros m. eexists _, _. split; [by vm_compute|]. repeat (constructor; [by eexists; split; [by vm_compute|split]|]). constructor.
Qed.
