(* ===== verification/SegJerase.v ===== *)
(** * The erasure-coded segment ([lio/segment/jerasure.c])

    The segment keeps its data in stripes of one child segment.  A stripe has
    a chunk per device, each preceded by the stripe's magic, a checksum of the
    chunks; reading takes the magic most devices have as the stripe's and
    rebuilds the chunks of the others ([JeraseCheck]).  The caller's buffer is
    a list of bytes; where it is cut into pages has no part in the model, so
    the copies through straddle buffers are not there.  Operations on the
    child can fail; those of one batch can complete in any order. *)
From S2P Require Import Prelude ByteSegment Raid4 ErasureTools ErasureFiles JeraseCheck.
Local Open Scope Z_scope.

(** ** The child segment *)

(** Whether an operation succeeded, and its error code, which for a child on
    several devices is the number of them that failed. *)
Record op_status := OpStatus { op_ok : bool; error_code : Z }.
Definition gop_success_status : op_status := OpStatus true 0.

(** Accesses to several places at a time; [hints] is the number of devices that
    may be skipped, if it is given. *)
Class Child (C : Type) := {
  child_readv (hints : option Z) : list (Z * Z) -> C -> op_status * bytes;
  child_writev (hints : option Z) : list (Z * bytes) -> C -> op_status * C;
  child_truncate : Z -> C -> op_status * C;
  child_remove : C -> op_status * C;
  child_size : C -> Z }.

Definition child_read {C} `{Child C} (hints : option Z) (off len : Z) (c : C) : op_status * bytes := child_readv hints [(off, len)] c.
Definition child_write {C} `{Child C} (hints : option Z) (off : Z) (data : bytes) (c : C) : op_status * C := child_writev hints [(off, data)] c.

(** ** The magic of a stripe *)

(** The different magics and the devices that have them. *)
Fixpoint magic_add (k : nat) (mg : bytes) (t : list (bytes * list nat)) : list (bytes * list nat) :=
  match t with
  | [] => [(mg, [k])]
  | (key, ds) :: t => if decide (key = mg) then (key, ds ++ [k]) :: t else (key, ds) :: magic_add k mg t
  end.

Fixpoint magic_loop (k : nat) (magics : list bytes) (t : list (bytes * list nat)) : list (bytes * list nat) :=
  match magics with [] => t | mg :: magics => magic_loop (S k) magics (magic_add k mg t) end.

(** The first entry with the most devices. *)
Fixpoint quorum_loop (best index k : nat) (t : list (bytes * list nat)) : nat :=
  match t with
  | [] => index
  | (_, ds) :: t => if decide (best < length ds)%nat then quorum_loop (length ds) k (S k) t else quorum_loop best index (S k) t
  end.
Definition quorum (t : list (bytes * list nat)) : nat := match t with [] => 0%nat | (_, ds) :: t => quorum_loop (length ds) 0 1 t end.

(** The devices of the other entries are bad. *)
Definition mark_bad (n_devs index : nat) (t : list (bytes * list nat)) : list Z :=
  foldl (fun badmap d => <[d := 1]> badmap) (replicate n_devs 0) (concat (delete index t).*2).

Section segment.
Context {matrix schedule : Type} `{Jerasure matrix schedule} (adler_init : Z) (adler32 : Z -> bytes -> Z).
Context {C : Type} `{Child C}.

(** [segjerase_priv_t]; the sizes that follow from others are functions. *)
Record segjerase := SegJerase {
  sj_child : C;
  sj_plan : erasure_plan matrix schedule;
  sj_blacklist : bool;
  sj_max_parity : Z;
  sj_write_errors : Z;
  sj_soft_errors : Z;
  sj_hard_errors : Z;
  sj_data_devs : nat;
  sj_parity_devs : nat;
  sj_magic_cksum : Z;
  sj_chunk : nat;
  sj_paranoid : Z }.
Implicit Types (s : segjerase).

Definition n_devs s : nat := (sj_data_devs s + sj_parity_devs s)%nat.
Definition chunk_size_with_magic s : nat := (JE_MAGIC_SIZE + sj_chunk s)%nat.
Definition stripe_size_with_magic s : nat := (n_devs s * chunk_size_with_magic s)%nat.
Definition data_size s : Z := Z.of_nat (sj_data_devs s) * Z.of_nat (sj_chunk s).
Definition parity_size s : Z := Z.of_nat (sj_parity_devs s) * Z.of_nat (sj_chunk s).

(** ** Reading a stripe *)

(** What a read keeps: the status, the error code of the last operation that
    missed blocks, the kinds of errors, and the last map of bad devices found
    by brute force. *)
Record rd_state := RdState { rd_status : op_status; rd_op : Z; rd_soft : bool; rd_hard : bool; rd_brute : option (list Z) }.

Definition rd_fail (code : Z) (st : rd_state) : rd_state := RdState (OpStatus false code) code (rd_soft st) true (rd_brute st).
Definition rd_softly (code : Z) (st : rd_state) : rd_state :=
  RdState (if rd_hard st then rd_status st else OpStatus (op_ok (rd_status st)) code) code true (rd_hard st) (rd_brute st).
Definition rd_found (badmap : list Z) (st : rd_state) : rd_state := RdState (rd_status st) (rd_op st) (rd_soft st) (rd_hard st) (Some badmap).

(** The chunks and the work buffers are blocks of their own. *)
Definition chunk_ptrs s : list loc := Pos.of_succ_nat <$> seq 0 (n_devs s).
Definition work_ptrs s : list loc := Pos.of_succ_nat <$> seq (n_devs s) (sj_parity_devs s).

Fixpoint any_nonzero (n i : nat) (ptr : list loc) (chunk_size : Z) : blM bool :=
  match n with
  | O => mret false
  | S n => q ← arr_at ptr i; b ← block_take q chunk_size; if sj_nonzero b then mret true else any_nonzero n (S i) ptr chunk_size
  end.

(** 1: the data is good, 2: there is none, 0: blocks are missing. *)
Definition data_state s (code : Z) (t : list (bytes * list nat)) (index : nat) (ptr : list loc) : blM Z :=
  match t !! index with
  | None => st_fail OutOfBounds
  | Some (key, ds) =>
    if decide (length ds = n_devs s) then
      if decide (key = replicate JE_MAGIC_SIZE 0) then
        nz ← any_nonzero (n_devs s) 0 ptr (Z.of_nat (sj_chunk s));
        mret (if (nz : bool) then if code =? 0 then 1 else 0 else 2)
      else mret 1
    else mret (if decide (length (filter (fun d => d < sj_data_devs s)%nat ds) = sj_data_devs s) then 1 else 0)
  end.

Fixpoint blank_chunks (n i : nat) (ptr : list loc) (chunk : nat) : blM unit :=
  match n with
  | O => mret tt
  | S n => q ← arr_at ptr i; _ ← block_fill q (replicate chunk 0); blank_chunks n (S i) ptr chunk
  end.

(** [if (eptr[k] != ptr[k]) memcpy(ptr[k], eptr[k], chunk_size)]. *)
Fixpoint copy_back (n i : nat) (ptr eptr : list loc) (chunk_size : Z) : blM unit :=
  match n with
  | O => mret tt
  | S n =>
    q ← arr_at ptr i; e ← arr_at eptr i;
    _ ← (if decide (e = q) then mret tt else block_copy q e chunk_size);
    copy_back n (S i) ptr eptr chunk_size
  end.

Definition recover s (badmap : list Z) (magic : option bytes) (ptr : list loc) (st : rd_state) : blM rd_state :=
  let n := Z.of_nat (sj_chunk s) in
  '(r, eptr) ← jerase_control_check adler_init adler32 (sj_plan s) n (n_devs s) (sj_parity_devs s) badmap ptr ptr (work_ptrs s) magic;
  if r =? 0 then mret st else
  let badmap := match rd_brute st with Some b => b | None => badmap end in
  '(r, badmap, eptr) ← jerase_brute_recovery adler_init adler32 (sj_plan s) n (n_devs s) (sj_parity_devs s) badmap ptr eptr (work_ptrs s) magic;
  if r =? 0 then
    _ ← copy_back (sj_data_devs s) 0 ptr eptr n;
    mret (rd_found badmap st)
  else mret (rd_fail (rd_op st) st).

(** One stripe whose devices have [magics]; [op] is the status of the read. *)
Definition read_blocks s (op : op_status) (magics : list bytes) (st : rd_state) : blM rd_state :=
  let ptr := chunk_ptrs s in
  let t := magic_loop 0 magics [] in
  let index := quorum t in
  let paranoid := if error_code op =? 0 then sj_paranoid s else 1 in
  let badmap := mark_bad (n_devs s) index t in
  match t !! index with
  | None => st_fail OutOfBounds
  | Some (key, ds) =>
    let magic := if sj_magic_cksum s =? 0 then None else Some key in
    ok ← data_state s (error_code op) t index ptr;
    if ok =? 1 then if paranoid =? 1 then recover s badmap magic ptr st else mret st
    else if ok =? 2 then _ ← blank_chunks (sj_data_devs s) 0 ptr (sj_chunk s); mret st
    else if decide (length ds < sj_data_devs s)%nat then mret (rd_fail (error_code op) st)
    else recover s badmap magic ptr (rd_softly (error_code op) st)
  end.

Fixpoint take_chunks (n i : nat) (ptr : list loc) (chunk_size : Z) : blM bytes :=
  match n with
  | O => mret []
  | S n => q ← arr_at ptr i; b ← block_take q chunk_size; rest ← take_chunks n (S i) ptr chunk_size; mret (b ++ rest)
  end.

(** The magic and the chunk of each device in the bytes of a stripe. *)
Definition cut_devs s (stripe : bytes) : list (bytes * bytes) :=
  (fun k => let d := take (chunk_size_with_magic s) (drop (k * chunk_size_with_magic s) stripe) in (take JE_MAGIC_SIZE d, drop JE_MAGIC_SIZE d)) <$> seq 0 (n_devs s).

(** [work] is what the work buffers hold. *)
Definition read_stripe s (op : op_status) (work : list bytes) (stripe : bytes) (st : rd_state) : res (bytes * rd_state) :=
  let devs := cut_devs s stripe in
  '(st, m) ← read_blocks s op devs.*1 st (heap_of (devs.*2 ++ work));
  '(d, _) ← take_chunks (sj_data_devs s) 0 (chunk_ptrs s) (Z.of_nat (sj_chunk s)) m;
  Ok (d, st).

(** ** Reading *)

(** The caller's buffer. *)
Definition buf_put (buf : bytes) (pos : Z) (d : bytes) : res bytes :=
  if decide (0 <= pos /\ pos + Z.of_nat (length d) <= Z.of_nat (length buf))
  then Ok (take (Z.to_nat pos) buf ++ d ++ drop (Z.to_nat pos + length d) buf) else Fault OutOfBounds.
Definition buf_get (buf : bytes) (pos n : Z) : res bytes :=
  if decide (0 <= pos /\ 0 <= n /\ pos + n <= Z.of_nat (length buf)) then Ok (take (Z.to_nat n) (drop (Z.to_nat pos) buf)) else Fault OutOfBounds.

(** The stripes an operation has read go to the buffer at [pos]. *)
Fixpoint read_stripes s (op : op_status) (work : list bytes) (nstripes : nat) (data : bytes) (pos : Z) (buf : bytes) (st : rd_state) : res (bytes * rd_state) :=
  match nstripes with
  | O => Ok (buf, st)
  | S nstripes =>
    '(d, st) ← read_stripe s op work (take (stripe_size_with_magic s) data) st;
    buf ← buf_put buf pos d;
    read_stripes s op work nstripes (drop (stripe_size_with_magic s) data) (pos + data_size s) buf st
  end.

(** An operation that is under way: its number of stripes, its place in the
    buffer, and the child's answer. *)
Record rd_op_t := RdOp { ro_stripes : nat; ro_pos : Z; ro_status : op_status; ro_data : bytes }.

(** The operations complete in the order [arrive] gives. *)
Context (arrive : list rd_op_t -> list rd_op_t) (work : list bytes).

Fixpoint read_done s (ops : list rd_op_t) (buf : bytes) (st : rd_state) : res (bytes * rd_state) :=
  match ops with
  | [] => Ok (buf, st)
  | o :: ops =>
    '(buf, st) ← read_stripes s (ro_status o) work (ro_stripes o) (ro_data o) (ro_pos o) buf st;
    read_done s ops buf st
  end.

(** [iov]: offsets and lengths, on stripe boundaries. *)
Definition iov_stripes s (iov : Z * Z) : Z := Z.quot (snd iov) (data_size s).
Definition iov_offset s (iov : Z * Z) : Z := Z.quot (fst iov) (data_size s) * Z.of_nat (stripe_size_with_magic s).

(** The parity buffer: all that is needed, or what is allowed, but never less
    than what one operation needs. *)
Definition parity_len s (iov : list (Z * Z)) : Z :=
  let all := zsum (iov_stripes s) iov * parity_size s in
  if sj_max_parity s <? all then foldl (fun len v => Z.max len (iov_stripes s v * parity_size s)) (sj_max_parity s) iov else all.

Definition max_blacklist s (hints : option Z) (loop : bool) : Z :=
  let np := Z.of_nat (sj_parity_devs s) in
  if loop then 0 else match hints with None => np | Some h => if h >? np then np else h end.

(** Operations are added until the parity buffer is full. *)
Fixpoint read_loop s (blacklist plen : Z) (iov : list (Z * Z)) (pending : list rd_op_t) (used pos : Z) (buf : bytes) (st : rd_state) : res (bytes * rd_state) :=
  match iov with
  | [] => read_done s (arrive pending) buf st
  | v :: iov =>
    let need := iov_stripes s v * parity_size s in
    '(pending, used, buf, st) ← (if need + used >? plen
      then '(buf, st) ← read_done s (arrive pending) buf st; Ok ([], 0, buf, st)
      else Ok (pending, used, buf, st));
    let '(op, d) := child_read (Some blacklist) (iov_offset s v) (iov_stripes s v * Z.of_nat (stripe_size_with_magic s)) (sj_child s) in
    read_loop s blacklist plen iov (pending ++ [RdOp (Z.to_nat (iov_stripes s v)) pos op d]) (used + need) (pos + snd v) buf st
  end.

Definition set_errors s (write_errors paranoid soft hard : Z) : segjerase :=
  SegJerase (sj_child s) (sj_plan s) (sj_blacklist s) (sj_max_parity s) write_errors soft hard (sj_data_devs s) (sj_parity_devs s) (sj_magic_cksum s) (sj_chunk s) paranoid.

Definition count_errors s (soft hard : bool) : segjerase :=
  set_errors s (sj_write_errors s) (sj_paranoid s) (sj_soft_errors s + if soft then 1 else 0) (sj_hard_errors s + if hard then 1 else 0).

Definition rd_start : rd_state := RdState gop_success_status 0 false false None.

(** The operations are tried again without a blacklist when that may help. *)
Definition segjerase_read_func s (hints : option Z) (iov : list (Z * Z)) (boff : Z) (buf : bytes) : res (op_status * bytes * segjerase) :=
  let plen := parity_len s iov in
  '(buf, st) ← read_loop s (max_blacklist s hints false) plen iov [] 0 boff buf rd_start;
  '(buf, st) ← (if rd_hard st && sj_blacklist s
    then read_loop s (max_blacklist s hints true) plen iov [] 0 boff buf (RdState gop_success_status (rd_op st) false false None) else Ok (buf, st));
  Ok (rd_status st, buf, count_errors s (rd_soft st) (rd_hard st)).

Definition on_stripes s (iov : list (Z * Z)) : bool :=
  forallb (fun v => (Z.rem (fst v) (data_size s) =? 0) && (Z.rem (snd v) (data_size s) =? 0)) iov.

(** No operation for accesses that are not on stripe boundaries. *)
Definition segjerase_read s (hints : option Z) (iov : list (Z * Z)) (boff : Z) (buf : bytes) : res (option (op_status * bytes * segjerase)) :=
  if data_size s =? 0 then match iov with [] => x ← segjerase_read_func s hints iov boff buf; Ok (Some x) | _ => Fault DivByZero end else
  if on_stripes s iov then x ← segjerase_read_func s hints iov boff buf; Ok (Some x) else Ok None.

(** ** Writing *)

Definition cut_chunks s (d : bytes) : list bytes := (fun k => take (sj_chunk s) (drop (k * sj_chunk s) d)) <$> seq 0 (sj_data_devs s).

Fixpoint take_each (n i : nat) (ptr : list loc) (chunk_size : Z) : blM (list bytes) :=
  match n with
  | O => mret []
  | S n => q ← arr_at ptr i; b ← block_take q chunk_size; rest ← take_each n (S i) ptr chunk_size; mret (b :: rest)
  end.

(** The bytes of a stripe; [work] is what the parity buffer holds. *)
Definition write_blocks s : blM bytes :=
  let ptr := strip_ptrs (sj_plan s) in let n := Z.of_nat (sj_chunk s) in
  _ ← encode_block (sj_plan s) ptr n;
  magic ← je_cksum_calc adler_init adler32 n (n_devs s) ptr;
  chunks ← take_each (n_devs s) 0 ptr n;
  mret (concat ((fun c => magic ++ c) <$> chunks)).

Definition write_stripe s (d : bytes) : res bytes :=
  '(stripe, _) ← write_blocks s (heap_of (cut_chunks s d ++ work));
  Ok stripe.

Fixpoint write_stripes s (nstripes : nat) (pos : Z) (buf : bytes) : res bytes :=
  match nstripes with
  | O => Ok []
  | S nstripes =>
    d ← buf_get buf pos (data_size s);
    stripe ← write_stripe s d;
    rest ← write_stripes s nstripes (pos + data_size s) buf;
    Ok (stripe ++ rest)
  end.

(** The status of the write, and the kinds of errors. *)
Record wr_state := WrState { wr_status : op_status; wr_soft : bool; wr_hard : bool }.

Definition write_done s (st : wr_state) (op : op_status) : wr_state :=
  if op_ok op then st else
  if error_code op >? Z.of_nat (sj_parity_devs s) then WrState op (wr_soft st) true
  else WrState (OpStatus (op_ok (wr_status st)) (error_code op)) true (wr_hard st).

Definition set_child (c : C) s : segjerase :=
  SegJerase c (sj_plan s) (sj_blacklist s) (sj_max_parity s) (sj_write_errors s) (sj_soft_errors s) (sj_hard_errors s) (sj_data_devs s) (sj_parity_devs s) (sj_magic_cksum s) (sj_chunk s) (sj_paranoid s).

Context (arrive_w : list op_status -> list op_status).

Fixpoint write_loop s (blacklist plen : Z) (iov : list (Z * Z)) (pending : list op_status) (used pos : Z) (buf : bytes) (st : wr_state) : res (wr_state * segjerase) :=
  match iov with
  | [] => Ok (foldl (write_done s) st (arrive_w pending), s)
  | v :: iov =>
    let need := iov_stripes s v * parity_size s in
    let '(pending, used, st) := if need + used >? plen then ([], 0, foldl (write_done s) st (arrive_w pending)) else (pending, used, st) in
    d ← write_stripes s (Z.to_nat (iov_stripes s v)) pos buf;
    let '(op, c) := child_write (Some blacklist) (iov_offset s v) d (sj_child s) in
    write_loop (set_child c s) blacklist plen iov (pending ++ [op]) (used + need) (pos + snd v) buf st
  end.

Definition segjerase_write_func s (hints : option Z) (iov : list (Z * Z)) (boff : Z) (buf : bytes) : res (op_status * segjerase) :=
  let plen := parity_len s iov in
  let start := WrState gop_success_status false false in
  '(st, s) ← write_loop s (max_blacklist s hints false) plen iov [] 0 boff buf start;
  '(st, s) ← (if wr_hard st && sj_blacklist s then write_loop s (max_blacklist s hints true) plen iov [] 0 boff buf start else Ok (st, s));
  let s := if wr_soft st || wr_hard st then count_errors (set_errors s 1 1 (sj_soft_errors s) (sj_hard_errors s)) (wr_soft st) (wr_hard st) else s in
  Ok (wr_status st, s).

Definition segjerase_write s (hints : option Z) (iov : list (Z * Z)) (boff : Z) (buf : bytes) : res (option (op_status * segjerase)) :=
  if data_size s =? 0 then match iov with [] => x ← segjerase_write_func s hints iov boff buf; Ok (Some x) | _ => Fault DivByZero end else
  if on_stripes s iov then x ← segjerase_write_func s hints iov boff buf; Ok (Some x) else Ok None.

(** ** Size *)

Definition segjerase_size s : res Z := n ← c_div (child_size (sj_child s)) (Z.of_nat (stripe_size_with_magic s)); Ok (n * data_size s).

(** A negative size reserves space. *)
Definition segjerase_truncate s (new_size : Z) : res (op_status * segjerase) :=
  let abs_size := if new_size <? 0 then - new_size else new_size in
  n ← c_div abs_size (data_size s);
  let n := if Z.rem abs_size (data_size s) >? 0 then n + 1 else n in
  let tweaked := n * Z.of_nat (stripe_size_with_magic s) in
  let tweaked := if new_size <? 0 then - tweaked else tweaked in
  let '(op, c) := child_truncate tweaked (sj_child s) in
  Ok (op, SegJerase c (sj_plan s) (sj_blacklist s) (sj_max_parity s) (sj_write_errors s) (sj_soft_errors s) (sj_hard_errors s) (sj_data_devs s) (sj_parity_devs s)
    (if new_size =? 0 then 1 else sj_magic_cksum s) (sj_chunk s) (sj_paranoid s)).

Definition segjerase_remove s : op_status * segjerase := let '(op, c) := child_remove (sj_child s) in (op, set_child c s).

End segment.

Lemma set_child_same {matrix schedule C : Type} (s : segjerase (matrix := matrix) (schedule := schedule) (C := C)) : set_child (sj_child s) s = s.
Proof. by destruct s. Qed.

(** ** The table of magics *)
Section magics.
Implicit Types (magics keys : list bytes) (t : list (bytes * list nat)).

(** The devices that have a magic. *)
Definition holders magics (mg : bytes) : list nat := filter (fun k => magics !! k = Some mg) (seq 0 (length magics)).
Definition table magics keys : list (bytes * list nat) := (fun key => (key, holders magics key)) <$> keys.

Lemma elem_of_holders magics mg k : k ∈ holders magics mg <-> magics !! k = Some mg.
Proof.
  unfold holders. rewrite list_elem_of_filter, elem_of_seq. split; [naive_solver|]. intros Hk. split; [done|]. apply lookup_lt_Some in Hk. lia.
Qed.

Lemma holders_snoc magics mg key : holders (magics ++ [mg]) key = holders magics key ++ (if decide (key = mg) then [length magics] else []).
Proof.
  unfold holders. rewrite length_app, Nat.add_1_r, filter_seq_S. f_equal.
  - apply filter_iff_in. intros k Hk. apply elem_of_seq in Hk. by rewrite lookup_app_l by lia.
  - rewrite lookup_app_r, Nat.sub_diag by lia. cbn. repeat case_decide; naive_solver.
Qed.

Lemma table_other magics l mg : mg ∉ l -> table (magics ++ [mg]) l = table magics l.
Proof.
  intros Hl. apply list_fmap_ext. intros i key Hi. rewrite holders_snoc, decide_False, app_nil_r; [done|]. intros ->. apply Hl. by eapply list_elem_of_lookup_2.
Qed.

Lemma magic_add_in magics l mg : NoDup l -> mg ∈ l -> magic_add (length magics) mg (table magics l) = table (magics ++ [mg]) l.
Proof.
  induction l as [|key l IH]; intros Hnd Hin; [by apply not_elem_of_nil in Hin|]. apply NoDup_cons in Hnd as [Hkl Hnd]. unfold table. rewrite !fmap_cons. fold (table magics l) (table (magics ++ [mg]) l).
  cbn [magic_add]. rewrite holders_snoc. destruct (decide (key = mg)) as [->|Hne]; [by rewrite table_other|].
  rewrite app_nil_r, IH; [done|done|]. apply elem_of_cons in Hin as [->|?]; done.
Qed.

Lemma magic_add_new magics l mg : mg ∉ l -> mg ∉ magics -> magic_add (length magics) mg (table magics l) = table (magics ++ [mg]) (l ++ [mg]).
Proof.
  intros Hl Hm. unfold table. rewrite fmap_app. fold (table (magics ++ [mg]) l). rewrite table_other by done. cbn [fmap list_fmap].
  assert (Hh : holders magics mg = []).
  { destruct (holders magics mg) as [|k h] eqn:Eh; [done|]. exfalso. assert (Hk : k ∈ holders magics mg) by (rewrite Eh; by left). apply elem_of_holders in Hk. apply Hm. by eapply list_elem_of_lookup_2. }
  rewrite holders_snoc, Hh, decide_True by done. cbn [app]. clear Hm Hh. induction l as [|key l IH]; [done|]. apply not_elem_of_cons in Hl as [Hne Hl]. unfold table. rewrite fmap_cons. fold (table magics l).
  cbn [magic_add app]. rewrite decide_False by done. f_equal. by apply IH.
Qed.

Lemma magic_add_table magics keys mg :
  NoDup keys -> (forall key, key ∈ keys <-> key ∈ magics) ->
  exists keys', magic_add (length magics) mg (table magics keys) = table (magics ++ [mg]) keys' /\ NoDup keys' /\ forall key, key ∈ keys' <-> key ∈ magics ++ [mg].
Proof.
  intros Hnd Hk. destruct (decide (mg ∈ keys)) as [Hin|Hin].
  - exists keys. split; [by apply magic_add_in|]. split; [done|]. intros key. rewrite elem_of_app, list_elem_of_singleton, Hk. split; [by left|]. intros [?| ->]; [done|by apply Hk].
  - exists (keys ++ [mg]). split; [apply magic_add_new; [done|by rewrite <- Hk]|]. split; [|intros key; by rewrite !elem_of_app, Hk].
    apply NoDup_app. split; [done|]. split; [by intros y Hy ->%list_elem_of_singleton|apply NoDup_singleton].
Qed.

Lemma magic_loop_table magics : exists keys, magic_loop 0 magics [] = table magics keys /\ NoDup keys /\ forall key, key ∈ keys <-> key ∈ magics.
Proof.
  assert (Hgen : forall rest pre keys, NoDup keys -> (forall key, key ∈ keys <-> key ∈ pre) ->
    exists keys', magic_loop (length pre) rest (table pre keys) = table (pre ++ rest) keys' /\ NoDup keys' /\ forall key, key ∈ keys' <-> key ∈ pre ++ rest).
  { induction rest as [|mg rest IH]; intros pre keys Hnd Hk; cbn [magic_loop]; [exists keys; by rewrite app_nil_r|].
    destruct (magic_add_table pre keys mg Hnd Hk) as (keys1 & -> & Hnd1 & Hk1). destruct (IH (pre ++ [mg]) keys1 Hnd1 Hk1) as (keys2 & E & H2).
    rewrite length_app, Nat.add_1_r in E. exists keys2. rewrite E. rewrite <- (assoc_L (++)) in *. done. }
  apply (Hgen magics [] []); [constructor|done].
Qed.

Lemma quorum_loop_ok best index k t t0 :
  (k <= length t0)%nat -> drop k t0 = t -> (forall j key ds, (j < k)%nat -> t0 !! j = Some (key, ds) -> (length ds <= best)%nat) -> (exists key ds, t0 !! index = Some (key, ds) /\ length ds = best) ->
  exists key ds, t0 !! quorum_loop best index k t = Some (key, ds) /\ forall j key' ds', t0 !! j = Some (key', ds') -> (length ds' <= length ds)%nat.
Proof.
  revert best index k. induction t as [|[key ds] t IH]; intros best index k Hk Hd Hall (key0 & ds0 & Hi & Hb); cbn [quorum_loop].
  - exists key0, ds0. split; [done|]. intros j key' ds' Hj. rewrite Hb. apply (Hall j key'); [|done]. pose proof (lookup_lt_Some _ _ _ Hj).
    apply (f_equal length) in Hd. rewrite length_drop in Hd. cbn in Hd. lia.
  - assert (Hkk : t0 !! k = Some (key, ds)) by (rewrite <- (Nat.add_0_r k), <- lookup_drop, Hd; done). pose proof (lookup_lt_Some _ _ _ Hkk) as Hlt.
    assert (Hd' : drop (S k) t0 = t) by (rewrite (drop_S _ _ _ Hkk) in Hd; by injection Hd).
    case_decide as Hc; apply IH; [lia|done| |by exists key, ds|lia|done| |by exists key0, ds0].
    + intros j key' ds' Hj Hjt. destruct (decide (j = k)) as [->|Hne]; [simplify_eq; done|]. pose proof (Hall j key' ds' ltac:(lia) Hjt). lia.
    + intros j key' ds' Hj Hjt. destruct (decide (j = k)) as [->|Hne]; [simplify_eq; lia|]. apply (Hall j key'); [lia|done].
Qed.

Lemma quorum_ok t : t <> [] -> exists key ds, t !! quorum t = Some (key, ds) /\ forall j key' ds', t !! j = Some (key', ds') -> (length ds' <= length ds)%nat.
Proof.
  intros Hne. destruct t as [|[key ds] t]; [done|]. cbn [quorum]. apply (quorum_loop_ok (length ds) 0 1 t ((key, ds) :: t)); [simpl; lia|done| |by exists key, ds].
  intros [|j] key' ds' Hj Ht; [|lia]. cbn in Ht. by simplify_eq.
Qed.

(** A magic that more devices have than any other wins. *)
Lemma quorum_wins magics mg :
  holders magics mg <> [] -> (forall mg', mg' <> mg -> (length (holders magics mg') < length (holders magics mg))%nat) ->
  let t := magic_loop 0 magics [] in t !! quorum t = Some (mg, holders magics mg).
Proof.
  intros Hne Hmax t. subst t. destruct (magic_loop_table magics) as (keys & -> & Hnd & Hk).
  assert (Hmg : mg ∈ keys). { apply Hk. destruct (holders magics mg) as [|k h] eqn:Eh; [done|]. assert (Hh : k ∈ holders magics mg) by (rewrite Eh; by left). apply elem_of_holders in Hh. by eapply list_elem_of_lookup_2. }
  destruct (quorum_ok (table magics keys)) as (key & ds & Hq & Hall); [destruct keys; [by apply not_elem_of_nil in Hmg|done]|].
  rewrite Hq. unfold table in *. rewrite list_lookup_fmap in Hq. destruct (keys !! _) as [key'|] eqn:Ek; [|done]. injection Hq as -> <-.
  destruct (decide (key = mg)) as [->|Hnk]; [done|]. exfalso. apply list_elem_of_lookup_1 in Hmg as [j Hj].
  pose proof (Hall j mg (holders magics mg) ltac:(by rewrite list_lookup_fmap, Hj)). pose proof (Hmax key Hnk). lia.
Qed.

Lemma mark_lookup l (badmap : list Z) d :
  Forall (fun d => (d < length badmap)%nat) l -> foldl (fun badmap d => <[d := 1]> badmap) badmap l !! d = if decide (d ∈ l) then Some 1 else badmap !! d.
Proof.
  revert badmap. induction l as [|e l IH]; intros badmap Hl; cbn [foldl]; [by rewrite decide_False by apply not_elem_of_nil|]. apply Forall_cons in Hl as [He Hl].
  rewrite IH by (by rewrite length_insert). destruct (decide (d ∈ l)) as [Hd|Hd]; [by rewrite decide_True by by right|].
  destruct (decide (d = e)) as [->|Hne]; [rewrite list_lookup_insert_eq, decide_True by (done || by left); done|].
  rewrite list_lookup_insert_ne, decide_False; [done| |done]. rewrite elem_of_cons. naive_solver.
Qed.

Lemma mark_length l (badmap : list Z) : length (foldl (fun badmap d => <[d := 1]> badmap) badmap l) = length badmap.
Proof. revert badmap. induction l as [|e l IH]; intros badmap; [done|]. cbn [foldl]. by rewrite IH, length_insert. Qed.

(** The devices with another magic are bad. *)
Lemma mark_bad_ok magics mg ds :
  let t := magic_loop 0 magics [] in t !! quorum t = Some (mg, ds) ->
  badmap_ok (length magics) (mark_bad (length magics) (quorum t) t) /\
  forall d, d ∈ bads (length magics) (mark_bad (length magics) (quorum t) t) <-> (d < length magics)%nat /\ magics !! d <> Some mg.
Proof.
  intros t Ht. subst t. destruct (magic_loop_table magics) as (keys & Et & Hnd & Hk). rewrite Et in *. set (index := quorum _) in *.
  unfold table in Ht. rewrite list_lookup_fmap in Ht. destruct (keys !! index) as [key|] eqn:Ek; [|done]. injection Ht as -> <-.
  set (others := concat (delete index (table magics keys)).*2).
  set (rest := take index keys ++ drop (S index) keys). assert (Hrest : others = concat (table magics rest).*2).
  { unfold others, rest, table. rewrite delete_take_drop, <- fmap_take, <- fmap_drop. by rewrite <- fmap_app. }
  assert (Hmid : keys ≡ₚ mg :: rest) by (rewrite <- (take_drop_middle _ _ _ Ek) at 1; by rewrite <- Permutation_middle).
  assert (Hmr : mg ∉ rest) by (rewrite Hmid in Hnd; by apply NoDup_cons in Hnd as [? _]).
  assert (Hoth : forall d, d ∈ others <-> (d < length magics)%nat /\ magics !! d <> Some mg).
  { intros d. rewrite Hrest. unfold table. rewrite list_elem_of_In, in_concat. split.
    - intros (ds & Hds & Hd). apply list_elem_of_In, list_elem_of_fmap in Hds as ([key ds'] & -> & Hin). apply list_elem_of_fmap in Hin as (key' & [= -> ->] & Hkey).
      apply list_elem_of_In, elem_of_holders in Hd. split; [by apply lookup_lt_Some in Hd|]. rewrite Hd. by intros [= ->].
    - intros [Hd Hm]. destruct (lookup_lt_is_Some_2 magics d) as [key Hkey]; [done|]. exists (holders magics key). split; [|by apply list_elem_of_In, elem_of_holders].
      apply list_elem_of_In, list_elem_of_fmap. exists (key, holders magics key). split; [done|]. apply list_elem_of_fmap. exists key. split; [done|].
      assert (Hin : key ∈ keys) by (apply Hk; by eapply list_elem_of_lookup_2). rewrite Hmid, elem_of_cons in Hin. destruct Hin as [Hin|Hin]; [congruence|done]. }
  assert (Hall : Forall (fun d => (d < length (replicate (length magics) 0%Z))%nat) others) by (apply Forall_forall; intros d Hd; rewrite length_replicate; by apply Hoth).
  assert (Hbm : badmap_ok (length magics) (mark_bad (length magics) index (table magics keys))).
  { split; [unfold mark_bad; by rewrite mark_length, length_replicate|]. apply Forall_lookup. intros d b Hd. unfold mark_bad in Hd. fold others in Hd. rewrite (mark_lookup others _ d Hall) in Hd.
    case_decide; [right; congruence|]. apply lookup_replicate in Hd as [-> _]. by left. }
  split; [done|]. intros d. rewrite (elem_of_bads _ _ _ Hbm). unfold mark_bad. fold others. rewrite (mark_lookup others _ d Hall). rewrite <- Hoth. case_decide; [done|].
  split; [|done]. intros Hr. apply lookup_replicate in Hr as [? _]. done.
Qed.

End magics.

(** ** Reading a damaged stripe *)

Lemma filter_perm_split {A} (P : A -> Prop) `{!forall x, Decision (P x)} (l : list A) : filter P l ++ filter (fun x => ~ P x) l ≡ₚ l.
Proof.
  induction l as [|x l IH]; [done|]. rewrite !filter_cons. destruct (decide (P x)) as [Hx|Hx].
  - rewrite decide_False by naive_solver. cbn. by rewrite IH.
  - rewrite decide_True by done. by rewrite <- Permutation_middle, IH.
Qed.

Lemma heap_of_lookup bs i b : bs !! i = Some b -> heap_of bs !! Pos.of_succ_nat i = Some b.
Proof.
  intros Hi. unfold heap_of. apply elem_of_list_to_map_1.
  - rewrite fst_zip by (by rewrite length_fmap, length_seq). apply NoDup_fmap_2; [apply _|apply NoDup_seq].
  - apply (list_elem_of_lookup_2 _ i). rewrite lookup_zip_with, list_lookup_fmap, lookup_seq_lt by (by eapply lookup_lt_Some). cbn. by rewrite Hi.
Qed.

Section reading.
Context {matrix schedule : Type} `{Jerasure matrix schedule} (adler_init : Z) (adler32 : Z -> bytes -> Z).
Context {C : Type} `{Child C} (s : segjerase (matrix := matrix) (schedule := schedule) (C := C)) (code : list bytes -> Prop).
Abbreviation N := (n_devs s).
Abbreviation np := (sj_parity_devs s).
Abbreviation k := (sj_data_devs s).
Abbreviation n := (sj_chunk s).
Abbreviation magic_of := (word_magic adler_init adler32).
Context (Hcode : mds (sj_plan s) n N np code).
Implicit Types (m : blocks) (xs w work : list bytes) (st : rd_state).

(** The bytes of a stripe with the chunks [w]. *)
Definition encoded w : bytes := concat ((fun c => magic_of w ++ c) <$> w).

(** The chunks of a stripe that can still be read: a device has its chunk or
    lost it, which shows in the magic; no more are lost than there are
    parities, and no other magic is as frequent. *)
Record readable (devs : list (bytes * bytes)) w : Prop := Readable {
  rb_length : length devs = N;
  rb_sized : sized n devs.*2;
  rb_devs i d x : devs !! i = Some d -> w !! i = Some x -> d = (magic_of w, x) \/ d.1 <> magic_of w;
  rb_few : (length (filter (fun i => devs.*1 !! i <> Some (magic_of w)) (seq 0 N)) <= np)%nat;
  rb_quorum mg : mg <> magic_of w -> (length (holders devs.*1 mg) < length (holders devs.*1 (magic_of w)))%nat }.

Lemma start_stripe xs work :
  length xs = N -> sized n xs -> length work = np -> long n work -> stripe n N (heap_of (xs ++ work)) (chunk_ptrs s) (work_ptrs s) xs.
Proof.
  intros Hl Hs Hwl Hw. unfold chunk_ptrs, work_ptrs. split; [|split; [|split; [done|]]].
  - rewrite <- fmap_app, <- seq_app. apply NoDup_fmap_2; [apply _|apply NoDup_seq].
  - apply reads_intro; [by rewrite length_fmap, length_seq|]. intros i q x Hq Hx. rewrite list_lookup_fmap in Hq. pose proof (lookup_lt_Some _ _ _ Hx).
    rewrite lookup_seq_lt in Hq by lia. injection Hq as <-. exists x. pose proof (proj1 (Forall_lookup _ _) Hs i x Hx) as Hxn. cbn in Hxn.
    split; [apply heap_of_lookup; by rewrite lookup_app_l by lia|]. split; [lia|]. by rewrite take_ge by lia.
  - exists (take n <$> work). apply reads_intro; [by rewrite !length_fmap, length_seq|]. intros i q x Hq Hx. rewrite list_lookup_fmap in Hq. rewrite list_lookup_fmap in Hx. destruct (work !! i) as [b|] eqn:Eb; [|done].
    injection Hx as <-. pose proof (lookup_lt_Some _ _ _ Eb). rewrite lookup_seq_lt in Hq by lia. injection Hq as <-. exists b. split; [|split; [by apply (proj1 (Forall_lookup _ _) Hw i)|done]].
    apply heap_of_lookup. rewrite lookup_app_r by lia. by replace (N + i - length xs)%nat with i by lia.
Qed.

(** *** Rebuilding the lost chunks *)

Lemma check_rebuilds badmap magic ptr m xs w :
  stripe n N m ptr (work_ptrs s) xs -> badmap_ok N badmap -> (length (bads N badmap) <= np <= N)%nat -> code w -> agree_out (bads N badmap) w xs ->
  (magic = None \/ magic = Some (magic_of w)) ->
  exists eptr m', jerase_control_check adler_init adler32 (sj_plan s) (Z.of_nat n) N np badmap ptr ptr (work_ptrs s) magic m = Ok ((0, eptr), m') /\
    reads n m' ptr w /\ forall i, i ∈ bads N badmap -> eptr !! i = ptr !! i.
Proof.
  intros Hs Hb [Hn HN] Hw Hwa Hmg. pose proof Hs as (_ & Hr & Hl & _).
  destruct (decide (bads N badmap = [] /\ magic <> None)) as [[Hnil Hsome]|Hcase].
  - destruct Hmg as [->| ->]; [done|]. rewrite (control_check_same adler_init adler32 (sj_plan s) n N np badmap ptr ptr (work_ptrs s) m xs (magic_of w) Hs Hb Hnil).
    assert (xs = w) as -> by (apply list_eq; intros i; symmetry; apply Hwa; rewrite Hnil; apply not_elem_of_nil). rewrite decide_True by done. by exists ptr, m.
  - destruct (control_check_ok adler_init adler32 (sj_plan s) n N np code Hcode HN badmap ptr ptr (work_ptrs s) m xs magic)
      as (r & eptr & m' & Ec & [(xs1 & (_ & Hr1 & Hl1 & _) & Hx1) _ (ys & Hys & Hyl & _ & Hyu) Hin Hcomp]); [done|done| | |].
    { destruct magic as [mg|]; [left|by right]. destruct (bads N badmap); [|simpl; lia]. exfalso. by apply Hcase. }
    { unfold work_ptrs. rewrite length_fmap, length_seq. lia. }
    rewrite (Hcomp w) in Ec; [|done|by destruct Hmg as [->| ->]|done]. exists eptr, m'. split; [done|]. split; [|done].
    pose proof (Hyu w Hw Hwa) as ->. destruct (md_sized _ _ _ _ _ Hcode w Hw) as [Hwl _].
    apply reads_intro; [rewrite (reads_length n m ptr xs Hr); lia|]. intros i q x Hq Hx. destruct (decide (i ∈ bads N badmap)) as [Hi|Hi].
    + pose proof (Hin i Hi) as He. rewrite Hq in He. destruct (reads_lookup n m' _ _ i q Hys He) as (y & Hy & Hh). by simplify_eq.
    + destruct (reads_lookup n m' _ _ i q Hr1 Hq) as (y & Hy & Hh). rewrite (Hx1 i Hi), <- (Hwa i Hi) in Hy. by simplify_eq.
Qed.

Lemma recover_ok badmap magic ptr m xs w st :
  stripe n N m ptr (work_ptrs s) xs -> badmap_ok N badmap -> (length (bads N badmap) <= np <= N)%nat -> code w -> agree_out (bads N badmap) w xs ->
  (magic = None \/ magic = Some (magic_of w)) ->
  exists m', recover adler_init adler32 s badmap magic ptr st m = Ok (st, m') /\ reads n m' ptr w.
Proof.
  intros Hs Hb Hn Hw Hwa Hmg. destruct (check_rebuilds badmap magic ptr m xs w) as (eptr & m' & E & Hr & _); [done..|].
  unfold recover. rewrite (st_bind_ok _ _ _ _ _ E). by exists m'.
Qed.

(** *** The state of the data *)

Lemma any_nonzero_ok c i m ptr xs :
  reads n m ptr xs -> (i + c = length xs)%nat -> any_nonzero c i ptr (Z.of_nat n) m = Ok (existsb sj_nonzero (drop i xs), m).
Proof.
  intros Hr. revert i. induction c as [|c IH]; intros i Hi; cbn [any_nonzero]; [by rewrite drop_ge by lia|].
  destruct (lookup_lt_is_Some_2 ptr i) as [q Hq]; [rewrite (reads_length n m ptr xs Hr); lia|]. destruct (reads_lookup n m ptr xs i q Hr Hq) as (x & Hx & Hh).
  rewrite (st_bind_ok _ _ _ _ _ (arr_at_ok ptr i q m Hq)), (st_bind_ok _ _ _ _ _ (has_take n m q x Hh)), (drop_S xs x i Hx). cbn [existsb].
  destruct (sj_nonzero x); [done|]. by rewrite IH by lia.
Qed.

Lemma sj_nonzero_false x : sj_nonzero x = false -> x = replicate (length x) 0.
Proof.
  unfold sj_nonzero. induction x as [|y x IH]; [done|]. cbn [existsb length replicate]. rewrite orb_false_iff, negb_false_iff, Z.eqb_eq. intros [-> Hx]. by rewrite <- IH.
Qed.

Lemma blank_chunks_ok c i m ptr xs :
  NoDup ptr -> reads n m ptr xs -> (i + c <= length xs)%nat ->
  exists m' ys, blank_chunks c i ptr n m = Ok (tt, m') /\ reads n m' ptr ys /\ length ys = length xs /\
    forall j, ys !! j = if decide (i <= j < i + c)%nat then Some (replicate n 0) else xs !! j.
Proof.
  intros Hnd. revert i m xs. induction c as [|c IH]; intros i m xs Hr Hi; cbn [blank_chunks].
  - exists m, xs. split; [done|]. split; [done|]. split; [done|]. intros j. by rewrite decide_False by lia.
  - destruct (lookup_lt_is_Some_2 ptr i) as [q Hq]; [rewrite (reads_length n m ptr xs Hr); lia|]. destruct (reads_lookup n m ptr xs i q Hr Hq) as (x & Hx & (b & Hb & Hbl & _)).
    rewrite (st_bind_ok _ _ _ _ _ (arr_at_ok ptr i q m Hq)), (st_bind_ok _ _ _ _ _ (block_fill_ok q (replicate n 0) b m Hb ltac:(rewrite length_replicate; lia))). rewrite length_replicate.
    set (m1 := <[q := replicate n 0 ++ drop n b]> m). assert (Hr1 : reads n m1 ptr (<[i := replicate n 0]> xs)).
    { apply reads_intro; [rewrite length_insert; by apply (reads_length n m)|]. intros j q' y Hq' Hy. destruct (decide (j = i)) as [->|Hne].
      - rewrite list_lookup_insert_eq in Hy by lia. simplify_eq. exists (replicate n 0 ++ drop n b). unfold m1. rewrite lookup_insert_eq. split; [done|].
        rewrite length_app, length_replicate. split; [lia|]. by rewrite take_app_length' by (by rewrite length_replicate).
      - rewrite list_lookup_insert_ne in Hy by done. destruct (reads_lookup n m _ _ j q' Hr Hq') as (y' & Hy' & Hh). simplify_eq. apply (has_changes n [q] m); [done|apply changes_insert; by left|].
        rewrite list_elem_of_singleton. intros ->. apply Hne. by apply (NoDup_lookup ptr j i q). }
    destruct (IH (S i) m1 (<[i := replicate n 0]> xs) Hr1) as (m' & ys & E & Hr' & Hl' & Hy); [rewrite length_insert; lia|].
    exists m', ys. split; [done|]. split; [done|]. split; [by rewrite Hl', length_insert|]. intros j. rewrite Hy. destruct (decide (j = i)) as [->|Hne].
    + rewrite decide_False, decide_True by lia. by rewrite list_lookup_insert_eq by lia.
    + rewrite list_lookup_insert_ne by done. repeat case_decide; done || lia.
Qed.

(** All of the first devices are among [k] different ones below [k]. *)
Lemma filter_all (c : nat) ds i : NoDup ds -> length (filter (fun d => d < c)%nat ds) = c -> (i < c)%nat -> i ∈ ds.
Proof.
  intros Hnd Hl Hi. assert (Hsub : filter (fun d => d < c)%nat ds ⊆+ seq 0 c).
  { apply NoDup_submseteq; [by apply NoDup_filter|]. intros d Hd. apply list_elem_of_filter in Hd as [Hd _]. apply elem_of_seq. lia. }
  apply submseteq_length_Permutation in Hsub; [|rewrite length_seq; lia]. assert (Hin : i ∈ seq 0 c) by (apply elem_of_seq; lia). rewrite <- Hsub in Hin. by apply list_elem_of_filter in Hin as [_ ?].
Qed.

Lemma readable_word devs w i : readable devs w -> length w = N -> devs.*1 !! i = Some (magic_of w) -> devs.*2 !! i = w !! i.
Proof.
  intros Hrb Hw Hi. rewrite list_lookup_fmap in Hi |- *. destruct (devs !! i) as [d|] eqn:Ed; [|done]. injection Hi as Hi.
  destruct (lookup_lt_is_Some_2 w i) as [x Hx]; [rewrite Hw, <- (rb_length _ _ Hrb); by eapply lookup_lt_Some|]. destruct (rb_devs _ _ Hrb i d x Ed Hx) as [->|?]; [by rewrite Hx|done].
Qed.

Lemma readable_full devs w : readable devs w -> length w = N -> length (holders devs.*1 (magic_of w)) = N -> devs.*2 = w.
Proof.
  intros Hrb Hw Hl. pose proof (rb_length _ _ Hrb) as Hd. apply list_eq. intros i. destruct (decide (i < N)%nat) as [Hi|Hi].
  - apply readable_word; [done|done|]. apply elem_of_holders. unfold holders in *. rewrite length_fmap, Hd in Hl |- *. apply (filter_all N); [apply NoDup_filter, NoDup_seq| |done].
    rewrite <- Hl at 2. f_equal. symmetry. rewrite list_filter_filter. apply filter_iff_in. intros j Hj. apply elem_of_seq in Hj. naive_solver lia.
  - rewrite !lookup_ge_None_2; [done|lia|rewrite length_fmap; lia].
Qed.

(** The data is called good only when it is, and empty only when it is 0. *)
Lemma data_state_ok devs w ec t index m ptr :
  readable devs w -> length w = N -> reads n m ptr devs.*2 -> t !! index = Some (magic_of w, holders devs.*1 (magic_of w)) ->
  exists v, data_state s ec t index ptr m = Ok (v, m) /\
    ((v = 1 /\ forall i, (i < k)%nat -> devs.*2 !! i = w !! i) \/ (v = 2 /\ forall i x, w !! i = Some x -> x = replicate n 0) \/ v = 0).
Proof.
  intros Hrb Hw Hr Ht. unfold data_state. rewrite Ht. destruct (decide (length (holders devs.*1 (magic_of w)) = N)) as [Hl|Hl].
  - pose proof (readable_full _ _ Hrb Hw Hl) as Hall. case_decide as Hz; [|exists 1; split; [done|]; left; split; [done|]; intros i _; by rewrite Hall].
    rewrite (st_bind_ok _ _ _ _ _ (any_nonzero_ok N 0 m ptr devs.*2 Hr ltac:(rewrite Hall; lia))). rewrite drop_0, Hall. destruct (existsb sj_nonzero w) eqn:Ez.
    + destruct (ec =? 0); eexists; (split; [done|]); [left|by right; right]. split; [done|]. intros i _. done.
    + eexists. split; [done|]. right. left. split; [done|]. intros i x Hx. assert (Hnz : sj_nonzero x = false).
      { apply not_true_iff_false. intros Ht'. apply not_true_iff_false in Ez. apply Ez, existsb_exists. exists x. split; [|done]. apply list_elem_of_In. by eapply list_elem_of_lookup_2. }
      rewrite (sj_nonzero_false x Hnz). f_equal. pose proof (rb_sized _ _ Hrb) as Hsz. rewrite Hall in Hsz. by apply (proj1 (Forall_lookup _ _) Hsz i).
  - eexists. split; [done|]. case_decide as Hf; [left|by right; right]. split; [done|]. intros i Hi. apply readable_word; [done|done|]. apply elem_of_holders.
    apply (filter_all k); [apply NoDup_filter, NoDup_seq|done|done].
Qed.

(** The magic of a readable stripe wins, and the devices without it are bad. *)
Record voted (devs : list (bytes * bytes)) w (t : list (bytes * list nat)) (badmap : list Z) : Prop := Voted {
  vt_wins : t !! quorum t = Some (magic_of w, holders devs.*1 (magic_of w));
  vt_badmap : badmap_ok N badmap;
  vt_bads d : d ∈ bads N badmap <-> (d < N)%nat /\ devs.*1 !! d <> Some (magic_of w);
  vt_few : (length (bads N badmap) <= np)%nat;
  vt_agree : agree_out (bads N badmap) w devs.*2;
  vt_count : (length (holders devs.*1 (magic_of w)) + length (bads N badmap) = N)%nat }.

Lemma readable_voted devs w : readable devs w -> length w = N -> let t := magic_loop 0 devs.*1 [] in voted devs w t (mark_bad N (quorum t) t).
Proof.
  intros Hrb Hwn t. pose proof (rb_length _ _ Hrb) as Hdl. subst t.
  assert (Hne : holders devs.*1 (magic_of w) <> []).
  { intros Hn. pose proof (rb_quorum _ _ Hrb (0 :: magic_of w)) as Hq. rewrite Hn in Hq. assert (Hx : 0 :: magic_of w <> magic_of w) by (intros Hx; apply (f_equal length) in Hx; simpl in Hx; lia). specialize (Hq Hx). simpl in Hq. lia. }
  pose proof (quorum_wins devs.*1 (magic_of w) Hne (rb_quorum _ _ Hrb)) as Ht. cbn zeta in Ht.
  destruct (mark_bad_ok devs.*1 (magic_of w) _ Ht) as [Hb Hbads]. rewrite length_fmap, Hdl in Hb, Hbads. set (badmap := mark_bad _ _ _) in *.
  assert (Hperm : bads N badmap ≡ₚ filter (fun i => devs.*1 !! i <> Some (magic_of w)) (seq 0 N)).
  { apply NoDup_Permutation; [apply NoDup_filter, NoDup_seq|apply NoDup_filter, NoDup_seq|]. intros i. rewrite Hbads, list_elem_of_filter, elem_of_seq. naive_solver lia. }
  split; [done|done|done| | |].
  - rewrite Hperm. apply Hrb.
  - intros i Hi. destruct (decide (i < N)%nat) as [HiN|HiN]; [|rewrite !lookup_ge_None_2; [done|rewrite length_fmap; lia|lia]].
    symmetry. apply readable_word; [done|done|]. destruct (decide (devs.*1 !! i = Some (magic_of w))) as [?|Hn]; [done|]. exfalso. apply Hi, Hbads. done.
  - rewrite Hperm. unfold holders. rewrite length_fmap, Hdl. rewrite <- length_app. rewrite <- (length_seq N 0) at 3. apply Permutation_length. apply filter_perm_split.
Qed.

(** The data chunks of a readable stripe are read, and it is no failure. *)
Lemma read_blocks_ok op devs w work st :
  readable devs w -> code w -> length work = np -> long n work ->
  exists st' m' xs', read_blocks adler_init adler32 s op devs.*1 st (heap_of (devs.*2 ++ work)) = Ok (st', m') /\
    reads n m' (chunk_ptrs s) xs' /\ (forall i, (i < k)%nat -> xs' !! i = w !! i) /\ rd_hard st' = rd_hard st /\ op_ok (rd_status st') = op_ok (rd_status st).
Proof.
  intros Hrb Hw Hwl Hwork. destruct (md_sized _ _ _ _ _ Hcode w Hw) as [Hwn Hws]. pose proof (rb_length _ _ Hrb) as Hdl.
  assert (Hs : stripe n N (heap_of (devs.*2 ++ work)) (chunk_ptrs s) (work_ptrs s) devs.*2) by (apply start_stripe; [by rewrite length_fmap|apply Hrb|done|done]).
  pose proof Hs as (Hnd & Hr & _). set (m := heap_of _) in *. assert (HNk : (np <= N)%nat) by (unfold n_devs; lia).
  destruct (readable_voted devs w Hrb Hwn) as [Ht Hb Hbads Hbl Hag Hcount]. unfold read_blocks. rewrite Ht.
  set (badmap := mark_bad _ _ _) in *. set (magic := if sj_magic_cksum s =? 0 then None else Some (magic_of w)).
  assert (Hmg : magic = None \/ magic = Some (magic_of w)) by (unfold magic; destruct (_ =? 0); [by left|by right]).
  assert (Hrec : forall st, exists m', recover adler_init adler32 s badmap magic (chunk_ptrs s) st m = Ok (st, m') /\ reads n m' (chunk_ptrs s) w) by (intros st1; by apply (recover_ok badmap magic (chunk_ptrs s) m devs.*2 w st1)).
  destruct (data_state_ok devs w (error_code op) _ _ m (chunk_ptrs s) Hrb Hwn Hr Ht) as (v & Ev & Hv). rewrite (st_bind_ok _ _ _ _ _ Ev).
  destruct Hv as [[-> Hv]|[[-> Hv]| ->]]; cbn [Z.eqb Pos.eqb].
  - destruct (_ =? 1); [|by exists st, m, devs.*2]. destruct (Hrec st) as (m' & E & Hr'). by exists st, m', w.
  - apply NoDup_app in Hnd as (Hnd & _). destruct (blank_chunks_ok k 0 m (chunk_ptrs s) devs.*2 Hnd Hr) as (m' & ys & E & Hr' & Hl' & Hy); [rewrite length_fmap, Hdl; unfold n_devs; lia|].
    rewrite (st_bind_ok _ _ _ _ _ E). exists st, m', ys. split; [done|]. split; [done|]. split; [|done]. intros i Hi. rewrite Hy, decide_True by lia.
    destruct (lookup_lt_is_Some_2 w i) as [x Hx]; [unfold n_devs in Hwn; lia|]. rewrite Hx. f_equal. symmetry. by apply (Hv i).
  - rewrite decide_False by (unfold n_devs in *; lia).
    destruct (Hrec (rd_softly (error_code op) st)) as (m' & E & Hr'). rewrite E. eexists _, m', w. split; [done|]. split; [done|]. split; [done|]. split; [done|]. cbn. by destruct (rd_hard st).
Qed.

(** *** The stripes of an operation *)

Definition stripe_data w : bytes := concat (take k w).

Lemma concat_sized c (l : list bytes) : sized c l -> length (concat l) = (length l * c)%nat.
Proof. induction 1 as [|x l Hx Hf IH]; [done|]. cbn [concat length]. rewrite length_app. lia. Qed.

Lemma concat_slice c (ls : list bytes) j l : sized c ls -> ls !! j = Some l -> take c (drop (j * c) (concat ls)) = l.
Proof.
  intros Hs. revert j. induction Hs as [|l' ls Hl' Hls IH]; intros [|j] Hj; [done..| |]; cbn in Hj |- *.
  - injection Hj as ->. by apply take_app_length'.
  - rewrite <- drop_drop, (drop_app_length' l') by done. by apply IH.
Qed.

Lemma stripe_data_length w : length w = N -> sized n w -> Z.of_nat (length (stripe_data w)) = data_size s.
Proof.
  intros Hl Hs. unfold stripe_data, data_size. rewrite (concat_sized n) by (by apply Forall_take). rewrite length_take, Hl. unfold n_devs. lia.
Qed.

Lemma take_chunks_ok c i m ptr xs :
  reads n m ptr xs -> (i + c <= length xs)%nat -> take_chunks c i ptr (Z.of_nat n) m = Ok (concat (take c (drop i xs)), m).
Proof.
  intros Hr. revert i. induction c as [|c IH]; intros i Hi; cbn [take_chunks]; [by rewrite take_0|].
  destruct (lookup_lt_is_Some_2 ptr i) as [q Hq]; [rewrite (reads_length n m ptr xs Hr); lia|]. destruct (reads_lookup n m ptr xs i q Hr Hq) as (x & Hx & Hh).
  rewrite (st_bind_ok _ _ _ _ _ (arr_at_ok ptr i q m Hq)), (st_bind_ok _ _ _ _ _ (has_take n m q x Hh)), (st_bind_ok _ _ _ _ _ (IH (S i) ltac:(lia))). by rewrite (drop_S xs x i Hx).
Qed.

(** What reading does not change. *)
Definition rd_same (st st' : rd_state) : Prop := rd_hard st' = rd_hard st /\ op_ok (rd_status st') = op_ok (rd_status st).

Lemma read_stripe_ok op work data w st :
  readable (cut_devs s data) w -> code w -> length work = np -> long n work ->
  exists st', read_stripe adler_init adler32 s op work data st = Ok (stripe_data w, st') /\ rd_same st st'.
Proof.
  intros Hrb Hw Hwl Hwork. unfold read_stripe. destruct (read_blocks_ok op _ w work st Hrb Hw Hwl Hwork) as (st' & m' & xs' & E & Hr & Hx & Hsame).
  rewrite E. cbn [mbind res_bind]. destruct (md_sized _ _ _ _ _ Hcode w Hw) as [Hwn _]. pose proof (reads_length n m' _ _ Hr) as Hl. unfold chunk_ptrs in Hl. rewrite length_fmap, length_seq in Hl.
  rewrite (take_chunks_ok k 0 m' (chunk_ptrs s) xs' Hr) by (rewrite <- Hl; unfold n_devs; lia). cbn [mbind res_bind]. exists st'. split; [|done]. do 2 f_equal. unfold stripe_data. f_equal. rewrite drop_0.
  apply list_eq. intros i. destruct (decide (i < k)%nat) as [Hi|Hi]; [rewrite !lookup_take_lt by lia; by apply Hx|]. by rewrite !lookup_take_ge by lia.
Qed.

Definition splice (buf : bytes) (pos : nat) (d : bytes) : bytes := take pos buf ++ d ++ drop (pos + length d) buf.

Lemma splice_lookup buf pos d x :
  (pos + length d <= length buf)%nat -> splice buf pos d !! x = if decide (pos <= x < pos + length d)%nat then d !! (x - pos)%nat else buf !! x.
Proof.
  intros Hl. unfold splice. assert (Htl : length (take pos buf) = pos) by (rewrite length_take; lia). destruct (decide (x < pos)%nat) as [Hx|Hx].
  - rewrite lookup_app_l by lia. rewrite lookup_take_lt by lia. by rewrite decide_False by lia.
  - rewrite lookup_app_r by lia. rewrite Htl. destruct (decide (x < pos + length d)%nat) as [Hx2|Hx2].
    + rewrite lookup_app_l by lia. by rewrite decide_True by lia.
    + rewrite lookup_app_r by lia. rewrite lookup_drop, decide_False by lia. f_equal. lia.
Qed.

Lemma splice_length buf pos d : (pos + length d <= length buf)%nat -> length (splice buf pos d) = length buf.
Proof. intros Hl. unfold splice. rewrite !length_app, length_take, length_drop. lia. Qed.

Lemma splice_app buf pos d1 d2 : (pos + length (d1 ++ d2) <= length buf)%nat -> splice (splice buf pos d1) (pos + length d1) d2 = splice buf pos (d1 ++ d2).
Proof.
  intros Hl. rewrite length_app in Hl. apply list_eq. intros x. rewrite !splice_lookup by (rewrite ?splice_length, ?length_app; lia). rewrite length_app.
  repeat case_decide; try lia; [rewrite lookup_app_r by lia; f_equal; lia|by rewrite lookup_app_l by lia|done].
Qed.

Lemma buf_put_ok buf (pos : nat) d : (pos + length d <= length buf)%nat -> buf_put buf (Z.of_nat pos) d = Ok (splice buf pos d).
Proof. intros Hl. unfold buf_put. rewrite decide_True by lia. by rewrite Nat2Z.id. Qed.

(** The words of the stripes in what an operation has read. *)
Definition readable_all (data : bytes) (ws : list (list bytes)) : Prop :=
  forall j w, ws !! j = Some w -> code w /\ readable (cut_devs s (take (stripe_size_with_magic s) (drop (j * stripe_size_with_magic s) data))) w.

Definition words_data (ws : list (list bytes)) : bytes := concat (stripe_data <$> ws).

Lemma readable_all_cons data w ws : readable_all data (w :: ws) -> (code w /\ readable (cut_devs s (take (stripe_size_with_magic s) data)) w) /\ readable_all (drop (stripe_size_with_magic s) data) ws.
Proof. intros Ha. split; [by apply (Ha 0%nat w)|]. intros j w' Hj. rewrite drop_drop. by apply (Ha (S j) w'). Qed.

Lemma words_length data ws : readable_all data ws -> Z.of_nat (length (words_data ws)) = Z.of_nat (length ws) * data_size s.
Proof.
  revert data. induction ws as [|w ws IH]; intros data Ha; [done|]. apply readable_all_cons in Ha as [[Hw _] Ha]. destruct (md_sized _ _ _ _ _ Hcode w Hw) as [Hl Hsz].
  unfold words_data in *. cbn [fmap list_fmap concat length]. rewrite length_app, Nat2Z.inj_add, (stripe_data_length w Hl Hsz), (IH _ Ha). lia.
Qed.

Lemma read_stripes_ok op work ws data (pos : nat) buf st :
  length work = np -> long n work -> readable_all data ws -> (pos + length (words_data ws) <= length buf)%nat ->
  exists st', read_stripes adler_init adler32 s op work (length ws) data (Z.of_nat pos) buf st = Ok (splice buf pos (words_data ws), st') /\ rd_same st st'.
Proof.
  intros Hwl Hwork. revert data pos buf st. induction ws as [|w ws IH]; intros data pos buf st Ha Hl; cbn [length read_stripes].
  - exists st. split; [|done]. do 2 f_equal. unfold splice. cbn. by rewrite Nat.add_0_r, take_drop.
  - apply readable_all_cons in Ha as [[Hw Hrb] Ha]. destruct (read_stripe_ok op work _ w st Hrb Hw Hwl Hwork) as (st1 & E & Hs1 & Ho1). rewrite E. cbn [mbind res_bind].
    destruct (md_sized _ _ _ _ _ Hcode w Hw) as [Hwn Hws]. pose proof (stripe_data_length w Hwn Hws) as Hdl.
    assert (Hcons : words_data (w :: ws) = stripe_data w ++ words_data ws) by done. rewrite Hcons, length_app in Hl. rewrite buf_put_ok by lia. cbn [mbind res_bind].
    replace (Z.of_nat pos + data_size s) with (Z.of_nat (pos + length (stripe_data w))) by lia.
    destruct (IH (drop (stripe_size_with_magic s) data) (pos + length (stripe_data w))%nat (splice buf pos (stripe_data w)) st1 Ha) as (st2 & E2 & Hs2 & Ho2); [rewrite splice_length; lia|].
    rewrite E2. exists st2. rewrite splice_app by (rewrite length_app; lia). rewrite Hcons. split; [done|]. split; congruence.
Qed.

(** *** All operations *)

Context (arrive : list rd_op_t -> list rd_op_t) (Harrive : forall l, arrive l ≡ₚ l) (work : list bytes) (Hwl : length work = np) (Hwork : long n work).

Definition in_op (o : rd_op_t) (x : nat) : Prop := ro_pos o <= Z.of_nat x < ro_pos o + Z.of_nat (ro_stripes o) * data_size s.

(** The bytes that an operation is to bring are those of [F]. *)
Definition op_good (F : bytes) (o : rd_op_t) : Prop :=
  exists ws (pos : nat), ro_pos o = Z.of_nat pos /\ ro_stripes o = length ws /\ readable_all (ro_data o) ws /\ (pos + length (words_data ws) <= length F)%nat /\
    forall x, (pos <= x < pos + length (words_data ws))%nat -> F !! x = words_data ws !! (x - pos)%nat.

Lemma read_done_ok F ops buf st :
  Forall (op_good F) ops -> length buf = length F ->
  exists buf' st', read_done adler_init adler32 work s ops buf st = Ok (buf', st') /\ length buf' = length F /\ rd_same st st' /\
    forall x, buf' !! x = F !! x \/ (buf' !! x = buf !! x /\ forall o, o ∈ ops -> ~ in_op o x).
Proof.
  intros Hops. revert buf st. induction Hops as [|o ops (ws & pos & Hp & Hst & Hrb & Hfit & HF) Hops IH]; intros buf st Hl; cbn [read_done].
  - exists buf, st. split; [done|]. split; [done|]. split; [done|]. intros x. right. split; [done|]. intros o Ho. by apply not_elem_of_nil in Ho.
  - rewrite Hp, Hst. destruct (read_stripes_ok (ro_status o) work ws (ro_data o) pos buf st Hwl Hwork Hrb) as (st1 & E & Hs1 & Ho1); [lia|]. rewrite E. cbn [mbind res_bind].
    destruct (IH (splice buf pos (words_data ws)) st1) as (buf' & st2 & E2 & Hl2 & [Hs2 Ho2] & Hx2); [rewrite splice_length; lia|]. exists buf', st2. split; [done|]. split; [done|]. split; [split; congruence|].
    intros x. destruct (Hx2 x) as [?|[Hbx Hno]]; [by left|]. rewrite splice_lookup in Hbx by lia. case_decide as Hr; [left; by rewrite Hbx, HF|]. right. split; [done|].
    intros o' [->|Ho']%elem_of_cons; [|by apply Hno]. unfold in_op. rewrite Hp, Hst, <- (words_length _ _ Hrb). lia.
Qed.

(** The words that an access is to bring. *)
Definition iov_good (blacklist : Z) (v : Z * Z) (ws : list (list bytes)) : Prop :=
  snd v = Z.of_nat (length ws) * data_size s /\
  readable_all (snd (child_read (Some blacklist) (iov_offset s v) (iov_stripes s v * Z.of_nat (stripe_size_with_magic s)) (sj_child s))) ws.

Lemma read_loop_ok F bl plen iov wss pending used (pos : nat) buf st :
  0 < data_size s -> Forall2 (iov_good bl) iov wss -> Forall (op_good F) pending -> length buf = length F ->
  (pos + length (concat (words_data <$> wss)) <= length F)%nat ->
  (forall x, (pos <= x < pos + length (concat (words_data <$> wss)))%nat -> F !! x = concat (words_data <$> wss) !! (x - pos)%nat) ->
  exists buf' st', read_loop adler_init adler32 arrive work s bl plen iov pending used (Z.of_nat pos) buf st = Ok (buf', st') /\ length buf' = length F /\ rd_same st st' /\
    forall x, buf' !! x = F !! x \/ (buf' !! x = buf !! x /\ (forall o, o ∈ pending -> ~ in_op o x) /\ ~ (pos <= x < pos + length (concat (words_data <$> wss)))%nat).
Proof.
  intros Hds Hio. revert pending used pos buf st. induction Hio as [|v ws iov wss [Hv Hrb] Hio IH]; intros pending used pos buf st Hpe Hl Hfit HF; cbn [read_loop].
  - destruct (read_done_ok F (arrive pending) buf st) as (buf' & st' & E & Hl' & Hs & Hx); [by rewrite Harrive|done|]. exists buf', st'. split; [done|]. split; [done|]. split; [done|].
    intros x. destruct (Hx x) as [?|[? Hno]]; [by left|right]. split; [done|]. split; [|cbn; lia]. intros o Ho. apply Hno. by rewrite Harrive.
  - assert (Hq : iov_stripes s v = Z.of_nat (length ws)) by (unfold iov_stripes; rewrite Hv; apply Z.quot_mul; lia). rewrite Hq in *.
    destruct (child_read (Some bl) (iov_offset s v) (Z.of_nat (length ws) * Z.of_nat (stripe_size_with_magic s)) (sj_child s)) as [op d] eqn:Ec. cbn [snd] in Hrb.
    pose proof (words_length _ _ Hrb) as Hwsl. rewrite fmap_cons in Hfit, HF. cbn [concat] in Hfit, HF. rewrite length_app in Hfit, HF.
    assert (Hnew : op_good F (RdOp (length ws) (Z.of_nat pos) op d)).
    { exists ws, pos. split; [done|]. split; [done|]. split; [done|]. split; [lia|]. intros x Hx. rewrite HF by lia. by rewrite lookup_app_l by lia. }
    assert (Hflush : exists pending1 used1 buf1 st1,
      (if Z.of_nat (length ws) * parity_size s + used >? plen then '(buf, st) ← read_done adler_init adler32 work s (arrive pending) buf st; Ok ([], 0, buf, st) else Ok (pending, used, buf, st)) = Ok (pending1, used1, buf1, st1) /\
      Forall (op_good F) pending1 /\ length buf1 = length F /\ rd_same st st1 /\
      forall x, buf1 !! x = F !! x \/ (buf1 !! x = buf !! x /\ forall o, o ∈ pending -> o ∈ pending1 \/ ~ in_op o x)).
    { destruct (_ >? plen).
      - destruct (read_done_ok F (arrive pending) buf st) as (buf' & st' & E & Hl' & Hs & Hx); [by rewrite Harrive|done|]. rewrite E. cbn [mbind res_bind]. exists [], 0, buf', st'.
        split; [done|]. split; [constructor|]. split; [done|]. split; [done|]. intros x. destruct (Hx x) as [?|[? Hno]]; [by left|right]. split; [done|]. intros o Ho. right. apply Hno. by rewrite Harrive.
      - exists pending, used, buf, st. split; [done|]. split; [done|]. split; [done|]. split; [done|]. intros x. right. split; [done|]. intros o Ho. by left. }
    destruct Hflush as (pending1 & used1 & buf1 & st1 & -> & Hpe1 & Hl1 & [Hs1 Ho1] & Hx1). cbn [mbind res_bind].
    replace (Z.of_nat pos + snd v) with (Z.of_nat (pos + length (words_data ws))) by lia. rewrite Nat2Z.id.
    destruct (IH (pending1 ++ [RdOp (length ws) (Z.of_nat pos) op d]) (used1 + Z.of_nat (length ws) * parity_size s) (pos + length (words_data ws))%nat buf1 st1) as (buf' & st' & E & Hl' & [Hs2 Ho2] & Hx2).
    + apply Forall_app. split; [done|]. by constructor.
    + done.
    + lia.
    + intros x Hx. rewrite HF by lia. rewrite lookup_app_r by lia. f_equal. lia.
    + exists buf', st'. split; [done|]. split; [done|]. split; [split; congruence|]. intros x. destruct (Hx2 x) as [?|(Hb & Hno & Hout)]; [by left|]. destruct (Hx1 x) as [Hf1|[Hb1 Hno1]]; [left; congruence|].
      right. split; [congruence|]. split.
      * intros o Ho. destruct (Hno1 o Ho) as [Ho1'|?]; [|done]. apply Hno, elem_of_app. by left.
      * rewrite fmap_cons. cbn [concat]. rewrite length_app. assert (Hn := Hno (RdOp (length ws) (Z.of_nat pos) op d) ltac:(apply elem_of_app; right; by left)). unfold in_op in Hn. cbn in Hn. lia.
Qed.

Lemma read_func_ok hints iov wss (boff : nat) buf :
  0 < data_size s -> Forall2 (iov_good (max_blacklist s hints false)) iov wss -> (boff + length (concat (words_data <$> wss)) <= length buf)%nat ->
  exists op soft, segjerase_read_func adler_init adler32 arrive work s hints iov (Z.of_nat boff) buf =
      Ok (op, splice buf boff (concat (words_data <$> wss)), count_errors s soft false) /\ op_ok op = true.
Proof.
  intros Hds Hio Hl. unfold segjerase_read_func.
  destruct (read_loop_ok (splice buf boff (concat (words_data <$> wss))) (max_blacklist s hints false) (parity_len s iov) iov wss [] 0 boff buf rd_start) as (buf' & st & E & Hl' & [Hs Ho] & Hx); [done|done|constructor| | | |].
  - by rewrite splice_length.
  - by rewrite splice_length.
  - intros x Hx. rewrite splice_lookup by lia. by rewrite decide_True by lia.
  - rewrite E. cbn [mbind res_bind]. cbn in Hs, Ho. rewrite Hs. cbn [andb mbind res_bind]. exists (rd_status st), (rd_soft st). split; [|done].
    assert (buf' = splice buf boff (concat (words_data <$> wss))) as ->; [|by rewrite Hs]. apply list_eq. intros x. destruct (Hx x) as [?|(Hb & _ & Hout)]; [done|].
    rewrite splice_lookup by lia. by rewrite decide_False by lia.
Qed.

(** C6: A read of the erasure-coded segment whose stripes are readable, that
    is have lost no more chunks than there are parities, succeeds and puts
    exactly the data of the stripes into the buffer, with and without
    checksums, however the accesses are batched and whatever the order in
    which the child completes them. *)
Theorem segjerase_read_ok hints iov wss (boff : nat) buf :
  0 < data_size s -> on_stripes s iov = true -> Forall2 (iov_good (max_blacklist s hints false)) iov wss ->
  (boff + length (concat (words_data <$> wss)) <= length buf)%nat ->
  exists op soft, segjerase_read adler_init adler32 arrive work s hints iov (Z.of_nat boff) buf =
      Ok (Some (op, splice buf boff (concat (words_data <$> wss)), count_errors s soft false)) /\ op_ok op = true.
Proof.
  intros Hds Hon Hio Hl. destruct (read_func_ok hints iov wss boff buf Hds Hio Hl) as (op & soft & E & Hop). exists op, soft. split; [|done].
  unfold segjerase_read. rewrite (proj2 (Z.eqb_neq _ _)) by lia. by rewrite Hon, E.
Qed.

End reading.

(** ** Writing *)

Section writing.
Context {matrix schedule : Type} `{Jerasure matrix schedule} (adler_init : Z) (adler32 : Z -> bytes -> Z).
Context {C : Type} `{Child C} (s : segjerase (matrix := matrix) (schedule := schedule) (C := C)) (code : list bytes -> Prop).
Abbreviation N := (n_devs s).
Abbreviation np := (sj_parity_devs s).
Abbreviation k := (sj_data_devs s).
Abbreviation n := (sj_chunk s).
Abbreviation encoded := (encoded adler_init adler32).

Lemma take_each_ok c i m ptr xs : reads n m ptr xs -> (i + c = length xs)%nat -> take_each c i ptr (Z.of_nat n) m = Ok (drop i xs, m).
Proof.
  intros Hr. revert i. induction c as [|c IH]; intros i Hi; cbn [take_each]; [by rewrite drop_ge by lia|].
  destruct (lookup_lt_is_Some_2 ptr i) as [q Hq]; [rewrite (reads_length n m ptr xs Hr); lia|]. destruct (reads_lookup n m ptr xs i q Hr Hq) as (x & Hx & Hh).
  rewrite (st_bind_ok _ _ _ _ _ (arr_at_ok ptr i q m Hq)), (st_bind_ok _ _ _ _ _ (has_take n m q x Hh)), (st_bind_ok _ _ _ _ _ (IH (S i) ltac:(lia))). by rewrite (drop_S xs x i Hx).
Qed.

Context (Hcode : mds (sj_plan s) n N np code).

(** Encoding makes a word of the data and what the parities were. *)
Definition completes : Prop := forall m ptr xs,
  NoDup ptr -> reads n m ptr xs -> length xs = N ->
  exists m' w, encode_block (sj_plan s) ptr (Z.of_nat n) m = Ok (tt, m') /\ reads n m' ptr w /\ code w /\ take k w = take k xs.

Context (Henc : completes) (Hplan : Z.to_nat (data_strips (sj_plan s) + parity_strips (sj_plan s)) = N).
Context (work : list bytes) (Hwl : length work = np) (Hwork : long n work).

Lemma cut_concat c e (d : bytes) : length d = (c * e)%nat -> concat ((fun i => take e (drop (i * e) d)) <$> seq 0 c) = d.
Proof.
  revert d. induction c as [|c IH]; intros d Hd; [by apply nil_length_inv in Hd|]. rewrite <- cons_seq. cbn [fmap list_fmap concat]. rewrite Nat.mul_0_l, drop_0. etransitivity; [|apply (take_drop e)]. f_equal.
  rewrite <- (IH (drop e d)) by (rewrite length_drop; lia). rewrite <- fmap_S_seq, <- list_fmap_compose. f_equal. apply list_fmap_ext. intros i x _. cbn. rewrite drop_drop. done.
Qed.

Lemma cut_sized d : length d = (k * n)%nat -> sized n (cut_chunks s d).
Proof.
  intros Hd. apply Forall_fmap, Forall_forall. intros i Hi%elem_of_seq. cbn. rewrite length_take, length_drop. nia.
Qed.

Lemma write_stripe_ok d :
  length d = (k * n)%nat -> exists w, write_stripe adler_init adler32 work s d = Ok (encoded w) /\ code w /\ stripe_data s w = d.
Proof.
  intros Hd. assert (Hcl : length (cut_chunks s d) = k) by (unfold cut_chunks; by rewrite length_fmap, length_seq).
  set (bs := cut_chunks s d ++ work). assert (Hbl : length bs = N) by (unfold bs; rewrite length_app, Hcl, Hwl; done).
  assert (Hlong : long n bs) by (apply Forall_app; split; [eapply Forall_impl; [by apply cut_sized|]; cbn; lia|done]).
  assert (Hr : reads n (heap_of bs) (strip_ptrs (sj_plan s)) (take n <$> bs)).
  { apply reads_intro; [by rewrite strip_ptrs_length, length_fmap, Hplan|]. intros i q x Hq Hx. rewrite list_lookup_fmap in Hx. destruct (bs !! i) as [b|] eqn:Eb; [|done]. injection Hx as <-.
    unfold strip_ptrs in Hq. rewrite Hplan, list_lookup_fmap, lookup_seq_lt in Hq by (rewrite <- Hbl; by eapply lookup_lt_Some). injection Hq as <-. exists b. split; [by apply heap_of_lookup|]. split; [by apply (proj1 (Forall_lookup _ _) Hlong i)|done]. }
  destruct (Henc _ _ _ (strip_ptrs_nodup _) Hr) as (m' & w & E & Hrw & Hw & Ht); [by rewrite length_fmap|]. destruct (md_sized _ _ _ _ _ Hcode w Hw) as [Hwn _].
  exists w. split; [|split; [done|]].
  - unfold write_stripe, write_blocks. fold bs. rewrite (st_bind_ok _ _ _ _ _ E).
    assert (Em : je_cksum_calc adler_init adler32 (Z.of_nat n) N (strip_ptrs (sj_plan s)) m' = Ok (word_magic adler_init adler32 w, m')).
    { unfold je_cksum_calc. rewrite (st_bind_ok _ _ _ _ _ (cksum_devs_ok adler32 n N 0 m' _ w adler_init Hrw ltac:(lia))). by rewrite drop_0. }
    rewrite (st_bind_ok _ _ _ _ _ Em), (st_bind_ok _ _ _ _ _ (take_each_ok N 0 m' _ w Hrw ltac:(lia))). done.
  - unfold stripe_data. rewrite Ht, <- fmap_take. unfold bs. rewrite take_app_length' by done. rewrite <- (cut_concat k n d Hd) at 2. f_equal.
    change (take n <$> cut_chunks s d = cut_chunks s d). rewrite <- (list_fmap_id (cut_chunks s d)) at 2. apply list_fmap_ext. intros i x Hx. pose proof (proj1 (Forall_lookup _ _) (cut_sized d Hd) i x Hx) as Hxn. cbn in Hxn. by rewrite take_ge by lia.
Qed.

(** The words that are written for a part of the buffer. *)
Definition words_of (ws : list (list bytes)) (c pos : nat) (buf : bytes) : Prop :=
  length ws = c /\ Forall code ws /\ words_data s ws = take (c * (k * n)) (drop pos buf).

Lemma write_stripes_ok c (pos : nat) buf :
  (pos + c * (k * n) <= length buf)%nat ->
  exists ws, write_stripes adler_init adler32 work s c (Z.of_nat pos) buf = Ok (concat (encoded <$> ws)) /\ words_of ws c pos buf.
Proof.
  revert pos. induction c as [|c IH]; intros pos Hl; cbn [write_stripes]; [by exists []|].
  assert (Hds : data_size s = Z.of_nat (k * n)) by (unfold data_size; lia). rewrite Hds.
  unfold buf_get. rewrite decide_True by lia. rewrite !Nat2Z.id. cbn [mbind res_bind].
  destruct (write_stripe_ok (take (k * n) (drop pos buf))) as (w & E & Hw & Hd); [rewrite length_take, length_drop; lia|]. rewrite E. cbn [mbind res_bind].
  destruct (IH (pos + k * n)%nat) as (ws & E2 & Hc & Hws & Hdat); [lia|]. replace (Z.of_nat pos + Z.of_nat (k * n)) with (Z.of_nat (pos + k * n)) by lia. rewrite E2. cbn [mbind res_bind].
  exists (w :: ws). split; [done|]. split; [cbn; by rewrite Hc|]. split; [by constructor|]. unfold words_data in *. rewrite fmap_cons. cbn [concat]. rewrite Hd, Hdat, <- drop_drop.
  by rewrite take_take_drop.
Qed.

Lemma write_stripe_child ch d : write_stripe adler_init adler32 work (set_child ch s) d = write_stripe adler_init adler32 work s d.
Proof. done. Qed.

Lemma write_stripes_child ch c pos buf : write_stripes adler_init adler32 work (set_child ch s) c pos buf = write_stripes adler_init adler32 work s c pos buf.
Proof.
  revert pos. induction c as [|c IH]; intros pos; [done|]. cbn [write_stripes]. rewrite IH. done.
Qed.

(** *** The child *)

Definition apart (off len off' len' : Z) : Prop := off + len <= off' \/ off' + len' <= off.

(** A write that counts as done: at most the parities' number of devices
    failed. *)
Definition tolerable (op : op_status) : Prop := op_ok op = true \/ error_code op <= Z.of_nat np.

(** What the segment needs of its child, in the states [inv] and for the
    accesses it [may] make: it holds words that were written so until other
    bytes are written over them, and what it holds can be read. *)
Record stores (inv : C -> Prop) (may : Z -> Z -> Prop) (holds : C -> Z -> list (list bytes) -> Prop) : Prop := Stores {
  st_inv bl off d c : inv c -> may off (Z.of_nat (length d)) -> inv (child_write bl off d c).2;
  st_write bl off ws c :
    inv c -> may off (Z.of_nat (length ws) * Z.of_nat (stripe_size_with_magic s)) -> Forall code ws ->
    tolerable (child_write bl off (concat (encoded <$> ws)) c).1 -> holds (child_write bl off (concat (encoded <$> ws)) c).2 off ws;
  st_other bl off ws off' d c :
    inv c -> may off' (Z.of_nat (length d)) -> holds c off ws -> apart off' (Z.of_nat (length d)) off (Z.of_nat (length ws) * Z.of_nat (stripe_size_with_magic s)) ->
    holds (child_write bl off' d c).2 off ws }.

Definition gives_back (inv : C -> Prop) (may : Z -> Z -> Prop) (holds : C -> Z -> list (list bytes) -> Prop) (fine : list bytes -> Prop) : Prop := forall bl off ws c,
  inv c -> may off (Z.of_nat (length ws) * Z.of_nat (stripe_size_with_magic s)) -> holds c off ws -> Forall fine ws ->
  readable_all adler_init adler32 s code (child_read bl off (Z.of_nat (length ws) * Z.of_nat (stripe_size_with_magic s)) c).2 ws.

Lemma write_done_hard st op : wr_hard (write_done s st op) = false <-> wr_hard st = false /\ tolerable op.
Proof.
  unfold write_done, tolerable. destruct (op_ok op) eqn:Eo; [naive_solver|]. destruct (_ >? _) eqn:Eg; cbn; [|naive_solver lia]. split; [done|]. intros [_ [?|?]]; [done|lia].
Qed.

Lemma writes_done_hard ops st : wr_hard (foldl (write_done s) st ops) = false <-> wr_hard st = false /\ Forall tolerable ops.
Proof.
  revert st. induction ops as [|op ops IH]; intros st; cbn [foldl]; [naive_solver|]. rewrite IH, write_done_hard, Forall_cons. naive_solver.
Qed.

(** The status says success when there was no hard error. *)
Definition told (st : wr_state) : Prop := op_ok (wr_status st) = negb (wr_hard st).

Lemma writes_done_told ops st : told st -> told (foldl (write_done s) st ops).
Proof.
  revert st. induction ops as [|op ops IH]; intros st Hst; [done|]. apply IH. unfold write_done. destruct (op_ok op) eqn:Eo; [done|]. by destruct (_ >? _).
Qed.

Context (inv : C -> Prop) (may : Z -> Z -> Prop) (holds : C -> Z -> list (list bytes) -> Prop) (Hstores : stores inv may holds).
Context (arrive_w : list op_status -> list op_status) (Harrive : forall l, arrive_w l ≡ₚ l).

(** *** All operations *)

Abbreviation ss := (Z.of_nat (stripe_size_with_magic s)).
Abbreviation write_loop := (write_loop adler_init adler32 work arrive_w).

Definition whole (v : Z * Z) : Prop := exists q (c : nat), v = (q * data_size s, Z.of_nat c * data_size s).
Definition iov_apart (iov : list (Z * Z)) : Prop := ForallOrdPairs (fun v v' => apart v.1 v.2 v'.1 v'.2) iov.

Lemma encoded_length w : code w -> length (encoded w) = stripe_size_with_magic s.
Proof.
  intros Hw. destruct (md_sized _ _ _ _ _ Hcode w Hw) as [Hl Hs]. unfold SegJerase.encoded. rewrite (concat_sized (chunk_size_with_magic s)).
  - rewrite length_fmap, Hl. done.
  - apply Forall_fmap. eapply Forall_impl; [done|]. intros x Hx. cbn in Hx |- *. by rewrite Hx.
Qed.

Lemma encoded_all_length ws : Forall code ws -> length (concat (encoded <$> ws)) = (length ws * stripe_size_with_magic s)%nat.
Proof.
  intros Hws. rewrite (concat_sized (stripe_size_with_magic s)), length_fmap; [done|]. apply Forall_fmap. eapply Forall_impl; [done|]. intros w Hw. by apply encoded_length.
Qed.

Lemma whole_stripes q (c : nat) : 0 < data_size s -> iov_stripes s (q * data_size s, Z.of_nat c * data_size s) = Z.of_nat c.
Proof. intros Hds. unfold iov_stripes. cbn. apply Z.quot_mul. lia. Qed.

Lemma whole_offset q x : 0 < data_size s -> iov_offset s (q * data_size s, x) = q * ss.
Proof. intros Hds. unfold iov_offset. cbn. by rewrite Z.quot_mul by lia. Qed.

Lemma whole_apart v v' : 
  0 < data_size s -> whole v -> whole v' -> apart v.1 v.2 v'.1 v'.2 -> apart (iov_offset s v) (iov_stripes s v * ss) (iov_offset s v') (iov_stripes s v' * ss).
Proof.
  intros Hds (q & c & ->) (q' & c' & ->). rewrite !whole_stripes, !whole_offset by done. unfold apart. cbn. rewrite <- !Z.mul_add_distr_r. intros [Hle|Hle]; [left|right]; apply Z.mul_le_mono_nonneg_r; nia.
Qed.

Lemma whole_sum iov : 0 < data_size s -> Forall whole iov -> 0 <= zsum snd iov.
Proof. intros Hds. induction 1 as [|v iov (q & c & ->) _ IH]; [done|]. cbn. nia. Qed.

(** A flush forgets what was pending but the errors. *)
Lemma flush_ok (full : bool) pending used st : told st ->
  exists pending1 used1 st1, (if full then ([], 0, foldl (write_done s) st (arrive_w pending)) else (pending, used, st)) = (pending1, used1, st1) /\ told st1 /\
    (wr_hard st1 = false /\ Forall tolerable pending1 <-> wr_hard st = false /\ Forall tolerable pending).
Proof.
  intros Hst. destruct full; eexists _, _, _; (split; [done|]); [|done]. split; [by apply writes_done_told|]. rewrite writes_done_hard, Harrive. by split; [intros [? _]|intros; split].
Qed.

(** The accesses the child may be asked for. *)
Definition allowed (iov : list (Z * Z)) : Prop := Forall (fun v => may (iov_offset s v) (iov_stripes s v * ss)) iov.

(** Operations on the child that fail no more than they may. *)
Definition bearable : Prop := forall bl off ws c, inv c -> may off (Z.of_nat (length ws) * ss) -> Forall code ws -> tolerable (child_write bl off (concat (encoded <$> ws)) c).1.

Lemma write_loop_ok bl plen iov pending used (pos : nat) buf st ch :
  0 < data_size s -> Forall whole iov -> iov_apart iov -> allowed iov -> inv ch -> told st -> Z.of_nat pos + zsum snd iov <= Z.of_nat (length buf) ->
  exists st' ch' wss, write_loop (set_child ch s) bl plen iov pending used (Z.of_nat pos) buf st = Ok (st', set_child ch' s) /\ told st' /\ inv ch' /\ (bearable -> Forall tolerable pending -> wr_hard st = false -> wr_hard st' = false) /\
    Forall2 (fun v ws => v.2 = Z.of_nat (length ws) * data_size s /\ Forall code ws) iov wss /\
    concat (words_data s <$> wss) = take (Z.to_nat (zsum snd iov)) (drop pos buf) /\
    (forall off ws, holds ch off ws -> Forall (fun v => apart (iov_offset s v) (iov_stripes s v * ss) off (Z.of_nat (length ws) * ss)) iov -> holds ch' off ws) /\
    (wr_hard st' = false -> wr_hard st = false /\ Forall tolerable pending /\ Forall2 (fun v ws => holds ch' (iov_offset s v) ws) iov wss).
Proof.
  intros Hds Hall Hap. revert pending used pos st ch. induction Hap as [|v iov Hv Hap IH]; intros pending used pos st ch Hmay Hinv Hst Hl.
  - exists (foldl (write_done s) st (arrive_w pending)), ch, []. split; [done|]. split; [by apply writes_done_told|]. split; [done|].
    split; [intros _ Ht ?; apply writes_done_hard; by rewrite Harrive|]. split; [constructor|]. split; [done|]. split; [done|].
    intros [? Ht]%writes_done_hard. rewrite Harrive in Ht. split; [done|]. split; [done|constructor].
  - apply Forall_cons in Hall as [Hwv Hall]. apply Forall_cons in Hmay as [Hm Hmay]. pose proof Hwv as (q & c & ->). cbn [SegJerase.write_loop zsum] in Hl |- *. cbn [snd] in Hl.
    destruct (flush_ok (iov_stripes s (q * data_size s, Z.of_nat c * data_size s) * parity_size s + used >? plen) pending used st Hst) as (pending1 & used1 & st1 & Ef & Hst1 & Hback).
    change (iov_stripes (set_child ch s)) with (iov_stripes s). change (parity_size (set_child ch s)) with (parity_size s). change (iov_offset (set_child ch s)) with (iov_offset s). 
    change (write_done (set_child ch s)) with (write_done s). rewrite Ef. rewrite whole_stripes, Nat2Z.id, write_stripes_child by done.
    assert (Hkn : data_size s = Z.of_nat (k * n)) by (unfold data_size; lia).
    pose proof (whole_sum iov Hds Hall) as Hnn.
    destruct (write_stripes_ok c pos buf) as (ws & E & Hwc & Hws & Hwd); [nia|]. rewrite E. cbn [mbind res_bind]. cbn [sj_child set_child].
    rewrite whole_stripes in Hm by done. assert (Hm1 : may (iov_offset s (q * data_size s, Z.of_nat c * data_size s)) (Z.of_nat (length ws) * ss)) by (by rewrite Hwc). assert (Hm' : may (iov_offset s (q * data_size s, Z.of_nat c * data_size s)) (Z.of_nat (length (concat (encoded <$> ws))))) by (by rewrite encoded_all_length, Nat2Z.inj_mul).
    pose proof (st_inv _ _ _ Hstores (Some bl) _ _ ch Hinv Hm') as Hinv1. destruct (child_write (Some bl) _ _ ch) as [op ch1] eqn:Ech. cbn [snd] in Hinv1 |- *.
    replace (Z.of_nat pos + Z.of_nat c * data_size s) with (Z.of_nat (pos + c * (k * n))) by nia.
    destruct (IH Hall (pending1 ++ [op]) (used1 + Z.of_nat c * parity_size s) (pos + c * (k * n))%nat st1 ch1 Hmay Hinv1 Hst1) as (st' & ch' & wss & El & Hst' & Hinv' & Hfw & Hio & Hdat & Hkp & Hok); [nia|].
    exists st', ch', (ws :: wss). split; [exact El|]. split; [done|]. split; [done|]. split.
    { intros Hbear Hp Hh. destruct (proj2 Hback (conj Hh Hp)) as [Hh1 Hp1]. apply Hfw; [done| |done]. apply Forall_app. split; [done|]. apply Forall_singleton.
      pose proof (Hbear (Some bl) _ ws ch Hinv Hm1 Hws) as Hb. by rewrite Ech in Hb. }
    split; [constructor; [cbn; by rewrite Hwc|done]|]. split; [|split].
    + rewrite fmap_cons. cbn [concat]. rewrite Hdat, Hwd. rewrite <- drop_drop, take_take_drop. f_equal. nia.
    + intros off ws' Hh Hfa. apply Forall_cons in Hfa as [Hf Hfa]. apply Hkp; [|done]. pose proof (st_other _ _ _ Hstores (Some bl) off ws' (iov_offset s (q * data_size s, Z.of_nat c * data_size s)) (concat (encoded <$> ws)) ch Hinv Hm' Hh) as Ho.
      rewrite Ech in Ho. apply Ho. rewrite encoded_all_length, Hwc by done. rewrite whole_stripes in Hf by done. by rewrite Nat2Z.inj_mul.
    + intros Hh'. destruct (Hok Hh') as (Hh1 & Hp & Hrest). apply Forall_app in Hp as [Hp Hop]. apply Forall_cons in Hop as [Hop _]. destruct (proj1 Hback (conj Hh1 Hp)) as [? ?]. split; [done|]. split; [done|]. constructor; [|done].
      pose proof (st_write _ _ _ Hstores (Some bl) (iov_offset s (q * data_size s, Z.of_nat c * data_size s)) ws ch Hinv Hm1 Hws) as Hw. rewrite Ech in Hw. apply Hkp; [by apply Hw|].
      apply Forall_forall. intros v' Hv'. cbn beta. pose proof (proj1 (Forall_forall _ _) Hv v' Hv') as Ha. cbn in Ha.
      assert (Hs : apart (iov_offset s v') (iov_stripes s v' * ss) (iov_offset s (q * data_size s, Z.of_nat c * data_size s)) (iov_stripes s (q * data_size s, Z.of_nat c * data_size s) * ss)).
      { apply whole_apart; [done|by apply (proj1 (Forall_forall _ _) Hall)|done|]. unfold apart in *. cbn. lia. }
      by rewrite whole_stripes, <- Hwc in Hs by done.
Qed.

(** Whatever is written, only the child and the counters change; after a
    success the child holds the words of the data. *)
Lemma write_func_ok hints iov (boff : nat) buf :
  0 < data_size s -> Forall whole iov -> iov_apart iov -> allowed iov -> inv (sj_child s) -> Z.of_nat boff + zsum snd iov <= Z.of_nat (length buf) ->
  exists op ch we pa so ha, segjerase_write_func adler_init adler32 work arrive_w s hints iov (Z.of_nat boff) buf = Ok (op, set_errors (set_child ch s) we pa so ha) /\ inv ch /\ (bearable -> op_ok op = true) /\
    (op_ok op = true -> exists wss, Forall (Forall code) wss /\ Forall2 (fun v ws => v.2 = Z.of_nat (length ws) * data_size s /\ holds ch (iov_offset s v) ws) iov wss /\
      concat (words_data s <$> wss) = take (Z.to_nat (zsum snd iov)) (drop boff buf)).
Proof.
  intros Hds Hwh Hap Hmay Hinv Hl. unfold segjerase_write_func.
  assert (Hloop : forall bl ch, inv ch -> exists st' ch', write_loop (set_child ch s) bl (parity_len s iov) iov [] 0 (Z.of_nat boff) buf (WrState gop_success_status false false) = Ok (st', set_child ch' s) /\ told st' /\ inv ch' /\ (bearable -> wr_hard st' = false) /\
    (wr_hard st' = false -> exists wss, Forall (Forall code) wss /\ Forall2 (fun v ws => v.2 = Z.of_nat (length ws) * data_size s /\ holds ch' (iov_offset s v) ws) iov wss /\
      concat (words_data s <$> wss) = take (Z.to_nat (zsum snd iov)) (drop boff buf))).
  { intros bl ch Hc. destruct (write_loop_ok bl (parity_len s iov) iov [] 0 boff buf (WrState gop_success_status false false) ch) as (st' & ch' & wss & E & Ht & Hc' & Hf & Hio & Hd & _ & Hok); [done..|].
    exists st', ch'. split; [done|]. split; [done|]. split; [done|]. split; [intros Hb; by apply Hf|]. intros Hh. exists wss. split; [apply Forall_forall; intros ws Hws; apply list_elem_of_lookup_1 in Hws as [i Hi]; destruct (Forall2_lookup_r _ _ _ _ _ Hio Hi) as (v & _ & _ & Hcw); exact Hcw|].
    split; [|done]. apply Hok in Hh as (_ & _ & Hh). clear -Hio Hh. induction Hio as [|v ws iov wss [Hv _] Hio IH]; [constructor|]. inversion Hh; subst. constructor; [done|by apply IH]. }
  destruct (Hloop (max_blacklist s hints false) (sj_child s) Hinv) as (st1 & ch1 & E1 & Ht1 & Hc1 & Hf1 & Hk1). rewrite set_child_same in E1. rewrite E1. cbn [mbind res_bind].
  assert (Hst : exists st ch, (if wr_hard st1 && sj_blacklist (set_child ch1 s) then write_loop (set_child ch1 s) (max_blacklist (set_child ch1 s) hints true) (parity_len s iov) iov [] 0 (Z.of_nat boff) buf (WrState gop_success_status false false)
      else Ok (st1, set_child ch1 s)) = Ok (st, set_child ch s) /\ told st /\ inv ch /\ (bearable -> wr_hard st = false) /\
    (wr_hard st = false -> exists wss, Forall (Forall code) wss /\ Forall2 (fun v ws => v.2 = Z.of_nat (length ws) * data_size s /\ holds ch (iov_offset s v) ws) iov wss /\
      concat (words_data s <$> wss) = take (Z.to_nat (zsum snd iov)) (drop boff buf))).
  { destruct (_ && _); [|by exists st1, ch1]. by apply Hloop. }
  destruct Hst as (st & ch & -> & Ht & Hc & Hf & Hk). cbn [mbind res_bind]. exists (wr_status st), ch.
  assert (Hop : op_ok (wr_status st) = true -> wr_hard st = false) by (rewrite Ht; by destruct (wr_hard st)).
  assert (Hgo : bearable -> op_ok (wr_status st) = true) by (intros Hb%Hf; rewrite Ht; by rewrite Hb).
  destruct (_ || _); eexists _, _, _, _; (split; [f_equal; f_equal|naive_solver]); unfold count_errors, set_errors; cbn; reflexivity.
Qed.

Lemma on_stripes_whole iov : 0 < data_size s -> on_stripes s iov = true -> Forall (fun v => 0 <= v.2) iov -> Forall whole iov.
Proof.
  intros Hds Hon Hnn. unfold on_stripes in Hon. rewrite forallb_forall in Hon. apply Forall_forall. intros [off len] Hv. pose proof (proj1 (Forall_forall _ _) Hnn _ Hv) as Hlen. cbn in Hlen.
  specialize (Hon _ (proj1 (list_elem_of_In _ _) Hv)). cbn in Hon. apply andb_prop in Hon as [Ho Hn]. apply Z.eqb_eq in Ho, Hn.
  exists (Z.quot off (data_size s)), (Z.to_nat (Z.quot len (data_size s))). pose proof (Z.quot_pos len (data_size s) Hlen Hds). f_equal; [|rewrite Z2Nat.id by done].
  - rewrite (Z.quot_rem' off (data_size s)) at 1. lia.
  - rewrite (Z.quot_rem' len (data_size s)) at 1. lia.
Qed.

Lemma readable_errors ch we pa so ha data ws :
  readable_all adler_init adler32 s code data ws -> readable_all adler_init adler32 (set_errors (set_child ch s) we pa so ha) code data ws.
Proof. intros Ha j w Hj. destruct (Ha j w Hj) as [Hw [Hl Hs Hd Hf Hq]]. split; [done|]. by split. Qed.

(** The write of accesses on stripe boundaries. *)
Lemma write_held hints iov (boff : nat) buf :
  0 < data_size s -> on_stripes s iov = true -> Forall (fun v => 0 <= v.2) iov -> iov_apart iov -> allowed iov -> inv (sj_child s) -> Z.of_nat boff + zsum snd iov <= Z.of_nat (length buf) ->
  exists op ch we pa so ha, segjerase_write adler_init adler32 work arrive_w s hints iov (Z.of_nat boff) buf = Ok (Some (op, set_errors (set_child ch s) we pa so ha)) /\ inv ch /\ (bearable -> op_ok op = true) /\
    (op_ok op = true -> exists wss, Forall (Forall code) wss /\ Forall2 (fun v ws => v.2 = Z.of_nat (length ws) * data_size s /\ holds ch (iov_offset s v) ws) iov wss /\
      concat (words_data s <$> wss) = take (Z.to_nat (zsum snd iov)) (drop boff buf)).
Proof.
  intros Hds Hon Hnn Hap Hmay Hinv Hl. destruct (write_func_ok hints iov boff buf Hds (on_stripes_whole iov Hds Hon Hnn) Hap Hmay Hinv Hl) as (op & ch & we & pa & so & ha & E & Hc & Hgo & Hok).
  exists op, ch, we, pa, so, ha. unfold segjerase_write. rewrite (proj2 (Z.eqb_neq _ _)) by lia. by rewrite Hon, E.
Qed.

(** The words that are in the data. *)
Definition word_of (data : bytes) (w : list bytes) : Prop := code w /\ exists j, stripe_data s w = take (k * n) (drop (j * (k * n)) data).

Lemma words_written wss w ws : Forall (Forall code) wss -> ws ∈ wss -> w ∈ ws -> word_of (concat (words_data s <$> wss)) w.
Proof using Hcode.
  intros Hc Hws Hw. pose proof (proj1 (Forall_forall _ _) (proj1 (Forall_forall _ _) Hc ws Hws) w Hw) as Hcw. split; [done|].
  assert (Hin : w ∈ concat wss) by (apply list_elem_of_In, in_concat; exists ws; by rewrite <- !list_elem_of_In). apply list_elem_of_lookup_1 in Hin as [j Hj]. exists j. symmetry.
  assert (E : concat (words_data s <$> wss) = concat (stripe_data s <$> concat wss)).
  { clear. induction wss as [|ws wss IH]; [done|]. cbn [fmap list_fmap concat]. by rewrite fmap_app, concat_app, <- IH. }
  rewrite E. apply concat_slice; [|by rewrite list_lookup_fmap, Hj]. apply Forall_fmap, Forall_concat. eapply Forall_impl; [exact Hc|]. intros ws' Hws'. eapply Forall_impl; [exact Hws'|]. intros w' Hw'.
  destruct (md_sized _ _ _ _ _ Hcode w' Hw') as [Hl Hs]. pose proof (stripe_data_length s w' Hl Hs) as Hd. unfold data_size in Hd. cbn [compose]. clear -Hd. lia.
Qed.

(** The read of what the child holds. *)
Lemma read_held fine ch we pa so ha iov wss arrive work' hints (boff : nat) buf :
  gives_back inv may holds fine -> Forall (Forall fine) wss ->
  0 < data_size s -> on_stripes s iov = true -> allowed iov -> inv ch ->
  Forall2 (fun v ws => v.2 = Z.of_nat (length ws) * data_size s /\ holds ch (iov_offset s v) ws) iov wss ->
  (forall l, arrive l ≡ₚ l) -> length work' = np -> long n work' -> (boff + length (concat (words_data s <$> wss)) <= length buf)%nat ->
  exists op s', segjerase_read adler_init adler32 arrive work' (set_errors (set_child ch s) we pa so ha) hints iov (Z.of_nat boff) buf =
      Ok (Some (op, splice buf boff (concat (words_data s <$> wss)), s')) /\ op_ok op = true.
Proof using Hcode.
  intros Hback Hfine Hds Hon Hmay Hc Hio Har Hw' Hlw' Hl'. set (s' := set_errors _ _ _ _ _).
  destruct (read_func_ok adler_init adler32 s' code Hcode arrive Har work' Hw' Hlw' hints iov wss boff buf) as (op & soft & Er & Hop).
  - done.
  - clear -Hio Hds Hback Hfine Hcode Hmay Hc. induction Hio as [|v ws iov wss [Hv Hh] Hio IH]; [constructor|]. apply Forall_cons in Hmay as [Hm Hmay], Hfine as [Hf Hfine]. constructor; [|by apply IH]. split; [done|]. apply readable_errors.
    assert (Hq : iov_stripes s v = Z.of_nat (length ws)) by (unfold iov_stripes; rewrite Hv; apply Z.quot_mul; lia).
    rewrite Hq in Hm. pose proof (Hback (Some (max_blacklist s hints false)) _ _ _ Hc Hm Hh Hf) as Hr. rewrite <- Hq in Hr. exact Hr.
  - done.
  - unfold segjerase_read. change (data_size s') with (data_size s). rewrite (proj2 (Z.eqb_neq (data_size s) 0)) by (clear -Hds; lia). change (on_stripes s' iov) with (on_stripes s iov). rewrite Hon, Er. by eexists _, _.
Qed.

(** C7: What is written to the erasure-coded segment is read back.  If the
    write of separate accesses on stripe boundaries says success, although
    devices of the child may have failed, then reading the same accesses gives
    the written bytes, although chunks may be lost, as long as the child gives
    back what it holds; and it does say success if the child's writes fail on
    no more devices than there are parities. *)
Theorem segjerase_roundtrip hints iov (boff : nat) buf :
  0 < data_size s -> on_stripes s iov = true -> Forall (fun v => 0 <= v.2) iov -> iov_apart iov -> allowed iov -> inv (sj_child s) -> Z.of_nat boff + zsum snd iov <= Z.of_nat (length buf) ->
  gives_back inv may holds (word_of (take (Z.to_nat (zsum snd iov)) (drop boff buf))) ->
  exists op s', segjerase_write adler_init adler32 work arrive_w s hints iov (Z.of_nat boff) buf = Ok (Some (op, s')) /\ (bearable -> op_ok op = true) /\
    (op_ok op = true -> forall arrive work' hints' (boff' : nat) buf', (forall l, arrive l ≡ₚ l) -> length work' = np -> long n work' ->
      Z.of_nat boff' + zsum snd iov <= Z.of_nat (length buf') ->
      exists op' s'', segjerase_read adler_init adler32 arrive work' s' hints' iov (Z.of_nat boff') buf' =
          Ok (Some (op', splice buf' boff' (take (Z.to_nat (zsum snd iov)) (drop boff buf)), s'')) /\ op_ok op' = true).
Proof.
  intros Hds Hon Hnn Hap Hmay Hinv Hl Hback. destruct (write_held hints iov boff buf Hds Hon Hnn Hap Hmay Hinv Hl) as (op & ch & we & pa & so & ha & E & Hc & Hgo & Hok).
  exists op, (set_errors (set_child ch s) we pa so ha). split; [done|]. split; [done|]. intros Hop arrive work' hints' boff' buf' Har Hw' Hlw' Hl'. destruct (Hok Hop) as (wss & Hcw & Hio & Hdat). rewrite <- Hdat in Hback |- *.
  apply (read_held _ _ _ _ _ _ _ _ _ _ _ _ _ Hback); try done.
  - apply Forall_forall. intros ws Hws. apply Forall_forall. intros w Hw. by eapply words_written.
  - rewrite Hdat, length_take, length_drop. pose proof (whole_sum iov Hds (on_stripes_whole iov Hds Hon Hnn)). lia.
Qed.

End writing.

(** ** A segment of three copies

    The first device of the child has lost everything: its magics are wrong and
    its chunks are 0. *)

Lemma copies_completes {C : Type} `{Child C} (ch : C) bl mp np n ck :
  completes (H := copies_jerasure) (SegJerase ch (copies_plan np) bl mp 0 0 0 1 np ck n 0) (copies n (S np)).
Proof.
  intros m ptr xs Hnd Hr Hl. cbn in Hnd, Hr, Hl. pose proof (reads_length n m ptr xs Hr) as Hpl. destruct xs as [|x xs]; [done|]. destruct ptr as [|src ptr]; [done|]. cbn in Hl, Hpl.
  cbn [encode_block copies_plan method sj_plan sj_chunk sj_data_devs]. unfold matrix_encode_block, parity_ptr. cbn [jerasure_matrix_encode copies_jerasure copies_plan data_strips parity_strips].
  rewrite (st_bind_ok _ _ _ _ _ (ptr_at_ok (src :: ptr) 0 src m eq_refl)). rewrite Nat2Z.id. change (take 1 (src :: ptr) ++ drop (Z.to_nat 1) (src :: ptr)) with (src :: ptr).
  destruct (copy_to_ok n 0 src x [] (seq 1 np) m (src :: ptr) (x :: xs)) as (m' & ys & E & Hr' & Hl' & Ha & Hall & _); [done..|by rewrite elem_of_seq; lia| |].
  { apply Forall_forall. intros j Hj%elem_of_seq. cbn. lia. }
  rewrite (st_bind_ok _ _ _ _ _ E). exists m', ys. split; [done|]. split; [done|]. assert (Hy0 : ys !! 0%nat = Some x) by (rewrite Ha by (rewrite elem_of_seq; lia); done).
  split; [|destruct ys; [done|]; by injection Hy0 as ->]. exists x. split; [by eapply has_length, (proj1 (Forall2_cons _ _ _ _ _) Hr)|].
  apply list_eq. intros j. destruct (decide (j < S np)%nat) as [Hj|Hj]; [|rewrite !lookup_ge_None_2; [done|rewrite length_replicate; lia|rewrite Hl'; cbn; lia]].
  rewrite lookup_replicate_2 by done. destruct j as [|j]; [done|]. apply Hall, elem_of_seq. lia.
Qed.

Definition spoil (i : nat) (b : Z) : Z := if (i mod 18 =? 0)%nat then Z.lxor b 1 else if (i mod 18 <? 6)%nat then 0 else b.

Definition put (c : Z -> Z) (v : Z * bytes) : Z -> Z := fun a => if decide (v.1 <= a < v.1 + Z.of_nat (length v.2)) then v.2 !!! Z.to_nat (a - v.1) else c a.

#[local] Instance spoiled_child : Child (Z -> Z) := {|
  child_readv _ vs c := (OpStatus false 1, concat ((fun v => imap spoil (c <$> seqZ v.1 v.2)) <$> vs));
  child_writev _ vs c := (gop_success_status, foldl put c vs);
  child_truncate _ c := (gop_success_status, c);
  child_remove c := (gop_success_status, c);
  child_size _ := 180 |}.

Definition sum_cksum (c : Z) (b : bytes) : Z := zsum id b + c.
Definition three_copies (c : Z -> Z) : segjerase := SegJerase c (copies_plan 2) true 1000 0 0 0 1 2 1 2 0.
Abbreviation enc3 := (encoded 1 sum_cksum).

Definition stored (c : Z -> Z) (off : Z) (ws : list (list bytes)) : Prop := Forall (copies 2 3) ws /\ c <$> seqZ off (Z.of_nat (length ws) * 18) = concat (enc3 <$> ws).

Lemma enc3_length w : copies 2 3 w -> length (enc3 w) = 18%nat.
Proof. intros (x & Hx & ->). destruct x as [|a [|b [|]]]; try done. Qed.

Lemma spoil_concat (ls : list bytes) : sized 18 ls -> imap spoil (concat ls) = concat (imap spoil <$> ls).
Proof.
  induction 1 as [|l ls Hl Hls IH]; [done|]. cbn [concat fmap list_fmap]. rewrite imap_app, <- IH. f_equal. apply imap_ext. intros i b _. cbn. rewrite Hl. unfold spoil.
  replace (18 + i)%nat with (i + 1 * 18)%nat by lia. by rewrite Nat.Div0.mod_add.
Qed.

(** The second and the third device decide. *)
Lemma spoiled_readable ch w : copies 2 3 w -> readable 1 sum_cksum (three_copies ch) (cut_devs (three_copies ch) (imap spoil (enc3 w))) w.
Proof.
  intros (x & Hx & ->). destruct x as [|u [|v [|]]]; try done. unfold encoded. set (mg := word_magic _ _ _). assert (Hmg : exists a b c d, mg = [a; b; c; d]) by (unfold mg; cbn; by eauto).
  destruct Hmg as (a & b & c & d & Emg). rewrite Emg.
  assert (Ec : cut_devs (three_copies ch) (imap spoil (concat ((fun c0 => [a; b; c; d] ++ c0) <$> replicate 3 [u; v]))) = [([Z.lxor a 1; 0; 0; 0], [0; 0]); (mg, [u; v]); (mg, [u; v])]) by (rewrite Emg; reflexivity).
  rewrite Ec. assert (Hne : [Z.lxor a 1; 0; 0; 0] <> mg).
  { rewrite Emg. intros [=Ha _ _ _]. apply (f_equal (fun z => Z.testbit z 0)) in Ha. rewrite Z.lxor_spec in Ha. by destruct (Z.testbit a 0). }
  assert (Hh : forall mg', holders [[Z.lxor a 1; 0; 0; 0]; mg; mg] mg' = (if decide ([Z.lxor a 1; 0; 0; 0] = mg') then [0%nat] else []) ++ (if decide (mg = mg') then [1%nat; 2%nat] else [])).
  { intros mg'. unfold holders. cbn [length seq]. rewrite !filter_cons, filter_nil. cbn [lookup list_lookup]. repeat case_decide; naive_solver. }
  split; fold mg.
  - done.
  - by repeat constructor.
  - intros [|[|[|i]]] dv y Hd Hy; cbn in Hd, Hy; simplify_eq; auto.
  - change (seq 0 (n_devs (three_copies ch))) with [0; 1; 2]%nat. change (sj_parity_devs (three_copies ch)) with 2%nat. rewrite !filter_cons, filter_nil. cbn [fmap list_fmap fst lookup list_lookup]. repeat case_decide; cbn; naive_solver lia.
  - intros mg' Hmg'. cbn [fmap list_fmap fst]. rewrite !Hh. rewrite (decide_False (P := [Z.lxor a 1; 0; 0; 0] = mg)), (decide_True (P := mg = mg)), (decide_False (P := mg = mg')) by done. case_decide; cbn; lia.
Qed.

Lemma stored_keeps ch : stores 1 sum_cksum (three_copies ch) (copies 2 3) (fun _ => True) (fun _ _ => True) stored.
Proof.
  split.
  - done.
  - intros bl off ws c _ _ Hws _. split; [done|]. unfold child_write. cbn [child_writev spoiled_child snd foldl]. unfold put. cbn [fst snd]. assert (Hl : length (concat (enc3 <$> ws)) = (length ws * 18)%nat).
    { rewrite (concat_sized 18), length_fmap; [done|]. apply Forall_fmap. eapply Forall_impl; [done|]. apply enc3_length. }
    apply list_eq. intros i. rewrite list_lookup_fmap. destruct (decide (i < length ws * 18)%nat) as [Hi|Hi].
    + rewrite lookup_seqZ_lt by lia. cbn [fmap option_fmap option_map]. rewrite decide_True by lia. replace (Z.to_nat (off + Z.of_nat i - off)) with i by lia. symmetry. apply list_lookup_lookup_total_lt. lia.
    + rewrite lookup_seqZ_ge by lia. symmetry. apply lookup_ge_None_2. lia.
  - intros bl off ws off' d c _ _ [Hws Hc] Hap. split; [done|]. rewrite <- Hc. unfold child_write. cbn [child_writev spoiled_child snd foldl]. unfold put. cbn [fst snd]. apply list_fmap_ext. intros i a Ha. apply lookup_seqZ in Ha as [-> Hi].
    rewrite decide_False; [done|]. unfold apart in Hap. change (stripe_size_with_magic (three_copies ch)) with 18%nat in Hap. lia.
Qed.

Lemma stored_back ch fine : gives_back 1 sum_cksum (three_copies ch) (copies 2 3) (fun _ => True) (fun _ _ => True) stored fine.
Proof.
  intros bl off ws c _ _ [Hws Hc] _ j w Hj. pose proof (proj1 (Forall_lookup _ _) Hws j w Hj) as Hw. split; [done|]. change (stripe_size_with_magic (three_copies ch)) with 18%nat. unfold child_read. cbn [child_readv spoiled_child snd fst fmap list_fmap concat]. rewrite app_nil_r.
  change (Z.of_nat 18) with 18. rewrite Hc, spoil_concat by (apply Forall_fmap; eapply Forall_impl; [done|apply enc3_length]).
  rewrite (concat_slice 18 _ j (imap spoil (enc3 w))); [by apply spoiled_readable| |].
  - apply Forall_fmap, Forall_fmap. eapply Forall_impl; [done|]. intros w' Hw'. cbn [compose]. rewrite length_imap. by apply enc3_length.
  - rewrite !list_lookup_fmap, Hj. done.
Qed.

Lemma rev_arrives {A} (l : list A) : reverse l ≡ₚ l.
Proof. apply reverse_Permutation. Qed.

(** Two words at the start and one four stripes later. *)
Definition word3 (x : bytes) : list bytes := replicate 3 x.
Lemma word3_copies a b : copies 2 3 (word3 [a; b]).
Proof. by exists [a; b]. Qed.

Definition filled : Z -> Z :=
  let c := (child_write None 0 (concat (enc3 <$> [word3 [1; 2]; word3 [3; 4]])) (fun _ => 0)).2 in
  (child_write None 72 (concat (enc3 <$> [word3 [5; 6]])) c).2.

Lemma segjerase_read_ok_witness :
  exists op soft, segjerase_read (H := copies_jerasure) 1 sum_cksum reverse [[0; 0]; [0; 0]] (three_copies filled) None [(0, 4); (8, 2)] 1 (replicate 8 9) =
      Ok (Some (op, [9; 1; 2; 3; 4; 5; 6; 9], count_errors (three_copies filled) soft false)) /\ op_ok op = true.
Proof.
  apply (segjerase_read_ok (H := copies_jerasure) 1 sum_cksum (three_copies filled) (copies 2 3) (copies_mds 2 2) reverse rev_arrives [[0; 0]; [0; 0]] eq_refl
    ltac:(by repeat constructor) None [(0, 4); (8, 2)] [[word3 [1; 2]; word3 [3; 4]]; [word3 [5; 6]]] 1 (replicate 8 9)); [done|done| |cbn; lia].
  pose proof (stored_keeps filled) as Hk.
  assert (H1 : stored filled 0 [word3 [1; 2]; word3 [3; 4]]).
  { apply (st_other _ _ _ _ _ _ _ Hk None 0 _ 72 (concat (enc3 <$> [word3 [5; 6]]))); [done|done| |right; vm_compute; done].
    apply (st_write _ _ _ _ _ _ _ Hk None 0 [word3 [1; 2]; word3 [3; 4]] (fun _ => 0)); [done|done| |by left]. by repeat (constructor; [apply word3_copies|]). }
  assert (H2 : stored filled 72 [word3 [5; 6]]) by (apply (st_write _ _ _ _ _ _ _ Hk None 72 [word3 [5; 6]]); [done|done|by repeat (constructor; [apply word3_copies|])|by left]).
  constructor; [|constructor; [|constructor]]; (split; [done|]).
  - exact (stored_back filled (fun _ => True) (Some 2) _ _ _ I I H1 ltac:(by repeat constructor)).
  - exact (stored_back filled (fun _ => True) (Some 2) _ _ _ I I H2 ltac:(by repeat constructor)).
Defined.

Lemma segjerase_roundtrip_witness :
  exists op s', segjerase_write (H := copies_jerasure) 1 sum_cksum [[0; 0]; [0; 0]] reverse (three_copies (fun _ => 0)) None [(0, 4); (8, 2)] 1 [7; 1; 2; 3; 4; 5; 6] = Ok (Some (op, s')) /\
    exists op' s'', segjerase_read (H := copies_jerasure) 1 sum_cksum reverse [[0; 0]; [0; 0]] s' None [(0, 4); (8, 2)] 0 (replicate 6 9) = Ok (Some (op', [1; 2; 3; 4; 5; 6], s'')) /\ op_ok op' = true.
Proof.
  destruct (segjerase_roundtrip (H := copies_jerasure) 1 sum_cksum (three_copies (fun _ => 0)) (copies 2 3) (copies_mds 2 2) (copies_completes _ true 1000 2 2 1) eq_refl [[0; 0]; [0; 0]] eq_refl ltac:(by repeat constructor)
    (fun _ => True) (fun _ _ => True) stored (stored_keeps _) reverse rev_arrives None [(0, 4); (8, 2)] 1 [7; 1; 2; 3; 4; 5; 6]) as (op & s' & E & Hgo & Hr); [done|done|by repeat constructor| |by repeat constructor|done|done|apply stored_back|].
  { constructor; [constructor; [by left|constructor]|repeat constructor]. }
  exists op, s'. split; [exact E|]. assert (Hop : op_ok op = true) by (apply Hgo; intros bl off ws c _ _ _; by left).
  apply (Hr Hop reverse [[0; 0]; [0; 0]] None 0%nat (replicate 6 9)); [apply rev_arrives|done|by repeat constructor|done].
Defined.

(** ** Size *)

(** After a truncate the size is the new one, in whole stripes. *)
Lemma truncate_size {matrix schedule C : Type} `{Child C} (s : segjerase (matrix := matrix) (schedule := schedule) (C := C)) new_size :
  0 < data_size s -> 0 <= new_size -> (forall z c, 0 <= z -> child_size (child_truncate z c).2 = z) ->
  exists op s', segjerase_truncate s new_size = Ok (op, s') /\ segjerase_size s' = Ok ((new_size + data_size s - 1) `quot` data_size s * data_size s).
Proof.
  intros Hds Hnn Hch. unfold segjerase_truncate. rewrite (proj2 (Z.ltb_ge _ _)) by lia. unfold c_div. rewrite (proj2 (Z.eqb_neq (data_size s) 0)) by lia. cbn [mbind res_bind].
  set (cnt := if Z.rem new_size (data_size s) >? 0 then _ else _). assert (Hss : 0 < Z.of_nat (stripe_size_with_magic s)).
  { unfold stripe_size_with_magic, n_devs, chunk_size_with_magic, JE_MAGIC_SIZE. unfold data_size in Hds. nia. }
  assert (Hcnt : cnt = (new_size + data_size s - 1) `quot` data_size s).
  { unfold cnt. clear cnt. rewrite Z.rem_mod_nonneg, !Z.quot_div_nonneg by lia. pose proof (Z.div_mod new_size (data_size s) ltac:(lia)). pose proof (Z.mod_pos_bound new_size (data_size s) Hds).
    destruct (_ >? 0) eqn:Eg; [apply (Z.div_unique_pos _ _ _ (new_size `mod` data_size s - 1))|apply (Z.div_unique_pos _ _ _ (data_size s - 1))]; lia. }
  assert (Hc0 : 0 <= cnt) by (rewrite Hcnt; apply Z.quot_pos; lia).
  destruct (child_truncate _ _) as [op c] eqn:Ec. eexists _, _. split; [done|]. unfold segjerase_size. cbn [sj_child].
  assert (Hsz : child_size c = cnt * Z.of_nat (stripe_size_with_magic s)) by (rewrite <- (Hch (cnt * Z.of_nat (stripe_size_with_magic s)) (sj_child s)) by nia; by rewrite Ec).
  rewrite Hsz. unfold c_div. change (stripe_size_with_magic (SegJerase _ _ _ _ _ _ _ _ _ _ _ _)) with (stripe_size_with_magic s). rewrite (proj2 (Z.eqb_neq (Z.of_nat (stripe_size_with_magic s)) 0)) by lia. cbn [mbind res_bind]. rewrite Z.quot_mul by lia. by rewrite Hcnt.
Qed.

(** ** Errors that go unnoticed *)

(** A child that has lost what two of the three devices had, and whose writes
    fail without a number of devices ([gop_failure_status]). *)
Definition failing_child : Child bytes := {|
  child_readv _ vs c := (OpStatus false 2, concat ((fun v => take (Z.to_nat v.2) (drop (Z.to_nat v.1) c)) <$> vs));
  child_writev _ _ c := (OpStatus false 0, c);
  child_truncate _ c := (gop_success_status, c);
  child_remove c := (gop_success_status, c);
  child_size c := Z.of_nat (length c) |}.
Definition one_left (magic_cksum : Z) : segjerase (C := bytes) := SegJerase (take 6 (enc3 (word3 [1; 2])) ++ replicate 12 0) (copies_plan 2) true 1000 0 0 0 1 2 magic_cksum 2 0.

(** The lost devices outvote the other one: 0 is read for the data, and without
    checksums it is a success. *)
Lemma lost_outvote :
  (exists s', segjerase_read (H := copies_jerasure) (H0 := failing_child) 1 sum_cksum id [[0; 0]; [0; 0]] (one_left 0) None [(0, 2)] 0 [9; 9] = Ok (Some (OpStatus true 2, [0; 0], s'))) /\
  (exists s', segjerase_read (H := copies_jerasure) (H0 := failing_child) 1 sum_cksum id [[0; 0]; [0; 0]] (one_left 1) None [(0, 2)] 0 [9; 9] = Ok (Some (OpStatus false 2, [0; 0], s'))).
Proof. split; eexists; vm_compute; reflexivity. Qed.

(** Nothing is written, and it is a success. *)
Lemma failed_write_succeeds :
  exists s', segjerase_write (H := copies_jerasure) (H0 := failing_child) 1 sum_cksum [[0; 0]; [0; 0]] id (one_left 1) None [(0, 2)] 0 [5; 6] = Ok (Some (OpStatus true 0, s')) /\ sj_child s' = sj_child (one_left 1).
Proof. eexists. vm_compute. split; reflexivity. Qed.

