(* ===== verification/JeraseInspect.v ===== *)
(** * Inspecting the erasure-coded segment ([lio/segment/jerasure.c])

    A full inspection reads stripes in batches, checks each as a read does
    ([JeraseCheck]) and stores the chunks that are wrong; a scan compares only
    the magics and has the ranges that differ inspected in full; the driver
    runs them after the child was inspected, over the ranges that the child
    reports, and again while errors can be fixed.  Messages and timings are
    left out.  Ranges are lists merged by [merge_list], which the range stack
    refines ([RangeStack]). *)
From S2P Require Import Prelude RangeStack ByteSegment Raid4 ErasureTools ErasureFiles JeraseCheck SegJerase.
Local Open Scope Z_scope.

(** ** Modes and results *)

Definition INSPECT_QUICK_CHECK : Z := 1.
Definition INSPECT_SCAN_CHECK : Z := 2.
Definition INSPECT_FULL_CHECK : Z := 3.
Definition INSPECT_QUICK_REPAIR : Z := 4.
Definition INSPECT_SCAN_REPAIR : Z := 5.
Definition INSPECT_FULL_REPAIR : Z := 6.
Definition INSPECT_SOFT_ERRORS : Z := 7.
Definition INSPECT_HARD_ERRORS : Z := 8.
Definition INSPECT_MIGRATE : Z := 9.
Definition INSPECT_WRITE_ERRORS : Z := 10.
Definition INSPECT_COMMAND_BITS : Z := 15.
Definition INSPECT_FORCE_REPAIR : Z := Z.shiftl 1 7.
Definition INSPECT_FAIL_ON_ERROR : Z := Z.shiftl 1 10.
Definition INSPECT_FIX_READ_ERROR : Z := Z.shiftl 1 11.
Definition INSPECT_FIX_WRITE_ERROR : Z := Z.shiftl 1 12.
Definition INSPECT_RESULT_FULL_CHECK : Z := Z.shiftl 1 9.
Definition INSPECT_RESULT_SOFT_ERROR : Z := Z.shiftl 1 10.
Definition INSPECT_RESULT_HARD_ERROR : Z := Z.shiftl 1 11.
Definition INSPECT_RESULT_MIGRATE_ERROR : Z := 4096.
Definition INSPECT_RESULT_COUNT_MASK : Z := 511.

Definition command (mode : Z) : Z := Z.land mode INSPECT_COMMAND_BITS.
Definition has_bit (mode bit : Z) : bool := negb (Z.land mode bit =? 0).
Definition do_fix (mode : Z) : bool :=
  (command mode =? INSPECT_QUICK_REPAIR) || (command mode =? INSPECT_SCAN_REPAIR) || (command mode =? INSPECT_FULL_REPAIR).

Section inspect.
Context {matrix schedule : Type} `{Jerasure matrix schedule} (adler_init : Z) (adler32 : Z -> bytes -> Z).
Context {C : Type} `{Child C}.
Implicit Types (s : segjerase (matrix := matrix) (schedule := schedule) (C := C)) (c : C).

(** ** A stripe *)

(** What a full inspection counts, and the last map of bad devices that was
    found by brute force. *)
Record full := Full { f_repair : Z; f_bad : Z; f_erasure : Z; f_lost : Z; f_empty : Z; f_brute : option (list Z); f_rerror : Z; f_werror : Z }.

Definition count_bad (f : full) : full := Full (f_repair f) (f_bad f + 1) (f_erasure f) (f_lost f) (f_empty f) (f_brute f) (f_rerror f) (f_werror f).
Definition count_erasure (f : full) : full := Full (f_repair f) (f_bad f) (f_erasure f + 1) (f_lost f) (f_empty f) (f_brute f) (f_rerror f) (f_werror f).
Definition count_lost (f : full) : full := Full (f_repair f) (f_bad f) (f_erasure f) (f_lost f + 1) (f_empty f) (f_brute f) (f_rerror f) (f_werror f).
Definition count_empty (f : full) : full := Full (f_repair f) (f_bad f) (f_erasure f) (f_lost f) (f_empty f + 1) (f_brute f) (f_rerror f) (f_werror f).
Definition set_brute (badmap : list Z) (f : full) : full := Full (f_repair f) (f_bad f) (f_erasure f) (f_lost f) (f_empty f) (Some badmap) (f_rerror f) (f_werror f).
Definition count_rerror (f : full) : full := Full (f_repair f) (f_bad f) (f_erasure f) (f_lost f) (f_empty f) (f_brute f) (f_rerror f + 1) (f_werror f).
Definition count_werror (f : full) : full := Full (f_repair f + 1) (f_bad f) (f_erasure f) (f_lost f) (f_empty f) (f_brute f) (f_rerror f) (f_werror f + 1).

(** The chunks of bad devices, or all with old magics, get the magic and the
    chunk that [eptr] has; [out] are the devices to be written one by one. *)
Fixpoint store_back (n i : nat) s (badmap : list Z) (key : bytes) (ptr eptr : list loc) (magics : list bytes) (out : list nat) : blM (list bytes * list nat) :=
  match n with
  | O => mret (magics, out)
  | S n =>
    bad ← arr_at badmap i;
    if (bad =? 1) || (sj_magic_cksum s =? 0) then
      q ← arr_at ptr i; e ← arr_at eptr i;
      _ ← (if decide (e = q) then mret tt else block_copy q e (Z.of_nat (sj_chunk s)));
      store_back n (S i) s badmap key ptr eptr (<[i := key]> magics) (if sj_magic_cksum s =? 0 then out else out ++ [i])
    else store_back n (S i) s badmap key ptr eptr magics out
  end.

(** The check of the chunks and the search for bad ones: the counters, whether
    there is nothing to store, the bad devices and where the chunks are. *)
Definition check_blocks s (count : nat) (badmap : list Z) (magic : option bytes) (ptr : list loc) (f : full) : blM (full * bool * list Z * list loc) :=
  let n := Z.of_nat (sj_chunk s) in
  '(r, eptr) ← jerase_control_check adler_init adler32 (sj_plan s) n (n_devs s) (sj_parity_devs s) badmap ptr ptr (work_ptrs s) magic;
  if r =? 0 then
    mret (if decide (count = n_devs s) then (f, negb (sj_magic_cksum s =? 0), badmap, eptr) else (count_bad f, false, badmap, eptr))
  else
    let f := count_erasure (count_bad f) in
    let badmap := match f_brute f with Some b => b | None => badmap end in
    '(r, badmap, eptr) ← jerase_brute_recovery adler_init adler32 (sj_plan s) n (n_devs s) (sj_parity_devs s) badmap ptr eptr (work_ptrs s) magic;
    mret (if r =? 0 then (set_brute badmap f, false, badmap, eptr) else (count_lost f, true, badmap, eptr)).

(** A stripe with [magics]: the counters and, unless the batch is to be read
    again, the magics and the devices to be written. *)
Definition inspect_blocks s (fixing retried : bool) (magics : list bytes) (f : full) : blM (full * option (list bytes * list nat)) :=
  let ptr := chunk_ptrs s in
  let t := magic_loop 0 magics [] in
  let index := quorum t in
  match t !! index with
  | None => st_fail OutOfBounds
  | Some (key, ds) =>
    good ← (if decide (key = replicate JE_MAGIC_SIZE 0) then any_nonzero (n_devs s) 0 ptr (Z.of_nat (sj_chunk s)) else mret true);
    if negb (good : bool) && bool_decide (length ds = n_devs s) then mret (count_empty f, Some (magics, [])) else
    if negb good || bool_decide (length ds < sj_data_devs s)%nat then
      mret (if (retried : bool) then (count_bad (count_lost f), Some (magics, [])) else (f, None))
    else
    '(f, skip, badmap, eptr) ← check_blocks s (length ds) (mark_bad (n_devs s) index t) (if sj_magic_cksum s =? 0 then None else Some key) ptr f;
    if negb (skip : bool) && fixing then
      key ← (if sj_magic_cksum s =? 0 then je_cksum_calc adler_init adler32 (Z.of_nat (sj_chunk s)) (n_devs s) eptr else mret key);
      '(magics, out) ← store_back (n_devs s) 0 s badmap key ptr eptr magics [];
      mret (f, Some (magics, out))
    else mret (f, Some (magics, []))
  end.

(** [settle] is what happens to the child while the inspection sleeps, and
    [work] is what the work buffers hold. *)
Context (settle : C -> C) (work : list bytes).

Definition inspect_stripe s (fixing retried : bool) (devs : list (bytes * bytes)) (f : full) : res (full * option (list (bytes * bytes) * list nat)) :=
  '((f, r), m) ← inspect_blocks s fixing retried devs.*1 f (heap_of (devs.*2 ++ work));
  match r with
  | None => Ok (f, None)
  | Some (magics, out) => '(chunks, _) ← take_each (n_devs s) 0 (chunk_ptrs s) (Z.of_nat (sj_chunk s)) m; Ok (f, Some (zip magics chunks, out))
  end.

(** ** A batch of stripes *)

Definition join_devs (devs : list (bytes * bytes)) : bytes := concat ((fun d => d.1 ++ d.2) <$> devs).
Definition pieces s (off : Z) (devs : list (bytes * bytes)) (out : list nat) : list (Z * bytes) :=
  (fun k => let d := default ([], []) (devs !! k) in (off + Z.of_nat (k * chunk_size_with_magic s), d.1 ++ d.2)) <$> out.

(** The counters, what the buffer holds and the pieces to be written. *)
Fixpoint inspect_stripes s (fixing retried : bool) (nstripes : nat) (off : Z) (data : bytes) (f : full) : res (full * option (bytes * list (Z * bytes))) :=
  match nstripes with
  | O => Ok (f, Some ([], []))
  | S nstripes =>
    '(f, r) ← inspect_stripe s fixing retried (cut_devs s (take (stripe_size_with_magic s) data)) f;
    match r with
    | None => Ok (f, None)
    | Some (devs, out) =>
      '(f, r) ← inspect_stripes s fixing retried nstripes (off + Z.of_nat (stripe_size_with_magic s)) (drop (stripe_size_with_magic s) data) f;
      Ok (f, '(buf, vs) ← r; Some (join_devs devs ++ buf, pieces s off devs out ++ vs))
    end
  end.

Definition inspect_read s (fixing retried : bool) (nstripes : nat) (off : Z) (f : full) : res (full * option (bytes * list (Z * bytes))) :=
  let '(op, data) := child_read None off (Z.of_nat (nstripes * stripe_size_with_magic s)) (sj_child s) in
  inspect_stripes s fixing retried nstripes off data (if op_ok op then f else count_rerror f).

Definition inspect_batch s (fixing : bool) (nstripes : nat) (off : Z) (f : full) : res (full * segjerase) :=
  '(f, r) ← inspect_read s fixing false nstripes off f;
  '(s, f, r) ← (match r with
    | Some _ => Ok (s, f, r)
    | None => let s := set_child (settle (sj_child s)) s in '(f, r) ← inspect_read s fixing true nstripes off f; Ok (s, f, r)
    end);
  match r with
  | None => Fault OutOfFuel
  | Some (buf, vs) =>
    match (if (sj_magic_cksum s =? 0) && fixing then [(off, buf)] else vs) with
    | [] => Ok (f, s)
    | vs =>
      let '(op, c) := child_writev None vs (sj_child s) in
      Ok (if op_ok op then f else count_werror f, set_child c s)
    end
  end.

Fixpoint inspect_batches (fuel : nat) s (fixing quick : bool) (total bufstripes stripe base_offset : Z) (f : full) : res (full * segjerase) :=
  match fuel with
  | O => Fault OutOfFuel
  | S fuel =>
    if stripe <? total then
      let nstripes := (if stripe + bufstripes >? total then total else stripe + bufstripes) - stripe in
      '(f, s) ← inspect_batch s fixing (Z.to_nat nstripes) (base_offset + stripe * Z.of_nat (stripe_size_with_magic s)) f;
      if (f_repair f + f_lost f >? 0) && quick then Ok (f, s)
      else inspect_batches fuel s fixing quick total bufstripes (stripe + bufstripes) base_offset f
    else Ok (f, s)
  end.

(** The status: hard errors, or soft ones that were not fixed. *)
Definition full_status (fixing : bool) (f : full) : op_status :=
  let hard := (f_lost f >? 0) || (f_repair f >? 0) in
  OpStatus (negb (hard || (f_bad f >? 0) && negb fixing))
    (Z.lor (Z.lor INSPECT_RESULT_FULL_CHECK (if hard then INSPECT_RESULT_HARD_ERROR else 0))
      (if negb fixing && (f_bad f >? f_lost f + f_repair f) then INSPECT_RESULT_SOFT_ERROR else 0)).

(** The bytes from [lo] to [hi] of the segment. *)
Definition segjerase_inspect_full_func s (mode buf_size lo hi : Z) : res (op_status * full * segjerase) :=
  let fixing := do_fix mode in
  let ss := Z.of_nat (stripe_size_with_magic s) in
  base_stripe ← c_div lo (data_size s);
  total ← c_div (hi - lo + 1) (data_size s);
  let bufsize := if total * ss >? buf_size then buf_size else total * ss in
  bufstripes ← c_div bufsize ss;
  '(f, s) ← inspect_batches (S (Z.to_nat total)) s fixing (has_bit mode INSPECT_FAIL_ON_ERROR) total bufstripes 0 (base_stripe * ss) (Full 0 0 0 0 0 None 0 0);
  Ok (full_status fixing f, f, s).

(** ** Scanning the magics *)

Definition MAXSTRIPES : Z := 1024.
Definition gop_failure_status : op_status := OpStatus false 0.

(** What a scan counts, the first of a series of bad stripes, and the ranges
    that are to be inspected in full. *)
Record scan := Scan { sc_bad : Z; sc_empty : Z; sc_start : option Z; sc_ranges : list (Z * Z) }.

(** The offsets are products of type [int]. *)
Definition scan_queue s (fixing : bool) (start_stripe i : Z) (sc : scan) : res scan :=
  match sc_start sc with
  | Some start_bad => if fixing then
      lo ← int_of ((start_stripe + start_bad) * data_size s);
      hi ← int_of ((start_stripe + i) * data_size s);
      Ok (Scan (sc_bad sc) (sc_empty sc) None (sc_ranges sc ++ [(lo, hi - 1)]))
    else Ok sc
  | None => Ok sc
  end.

Definition magics_differ (magics : list bytes) : bool :=
  match magics with [] => false | m0 :: magics => existsb (fun m => negb (bool_decide (m0 = m))) magics end.

Fixpoint scan_check s (fixing : bool) (start_stripe i : Z) (stripes : list (list bytes)) (sc : scan) : res scan :=
  match stripes with
  | [] => scan_queue s fixing start_stripe i sc
  | magics :: stripes =>
    sc ← (if magics_differ magics then
        Ok (Scan (sc_bad sc + 1) (sc_empty sc) (Some (default i (sc_start sc))) (sc_ranges sc))
      else
        let empty := bool_decide (head magics = Some (replicate JE_MAGIC_SIZE 0)) in
        scan_queue s fixing start_stripe i (Scan (sc_bad sc) (sc_empty sc + if empty then 1 else 0) (sc_start sc) (sc_ranges sc)));
    scan_check s fixing start_stripe (i + 1) stripes sc
  end.

(** The full inspections of the ranges, one after the other. *)
Fixpoint inspect_ranges s (mode buf_size : Z) (ranges : list (Z * Z)) : res (list (op_status * full) * segjerase) :=
  match ranges with
  | [] => Ok ([], s)
  | (lo, hi) :: ranges =>
    '(op, f, s) ← segjerase_inspect_full_func s mode buf_size lo hi;
    '(l, s) ← inspect_ranges s mode buf_size ranges;
    Ok ((op, f) :: l, s)
  end.

(** The inspections complete in the order [arrive_f] gives; the status is that
    of the last one. *)
Context (arrive_f : list (op_status * full) -> list (op_status * full)).

Definition scan_magics s (start n : Z) : list (list bytes) :=
  let m := Z.to_nat n in
  let iov := (fun d => (start * Z.of_nat (stripe_size_with_magic s) + Z.of_nat (d * chunk_size_with_magic s), Z.of_nat JE_MAGIC_SIZE)) <$> seq 0 (m * n_devs s) in
  let data := (child_readv None iov (sj_child s)).2 in
  (fun i => (fun d => take JE_MAGIC_SIZE (drop ((i * n_devs s + d) * JE_MAGIC_SIZE) data)) <$> seq 0 (n_devs s)) <$> seq 0 m.

Fixpoint scan_rounds (fuel : nat) s (mode buf_size start total : Z) (sc : scan) (status : op_status) : res (scan * op_status * segjerase) :=
  match fuel with
  | O => Fault OutOfFuel
  | S fuel =>
    if start <? total then
      let n := Z.min MAXSTRIPES (total - start) in
      sc ← scan_check s (do_fix mode) start 0 (scan_magics s start n) (Scan (sc_bad sc) (sc_empty sc) None []);
      '(l, s) ← inspect_ranges s mode buf_size (sc_ranges sc);
      let done := arrive_f l in
      scan_rounds fuel s mode buf_size (start + n) total (Scan (sc_bad sc + zsum (fun x => f_bad x.2) done) (sc_empty sc) None []) (foldl (fun _ x => x.1) status done)
    else Ok (sc, status, s)
  end.

Definition segjerase_inspect_scan s (mode buf_size : Z) : res (op_status * Z * segjerase) :=
  fsize ← segjerase_size s;
  total ← c_div fsize (data_size s);
  '(sc, status, s) ← scan_rounds (S (Z.to_nat total)) s mode buf_size 0 total (Scan 0 0 None []) gop_success_status;
  Ok (if negb (do_fix mode) && (sc_bad sc >? 0) then gop_failure_status else status, sc_bad sc, s).

(** ** The driver *)

(** What the child's inspection reports: the bad ranges, in its own offsets,
    and the devices that were replaced in each row. *)
Record inspect_args := InspectArgs { bad_ranges : option (list (Z * Z)); dev_row_replaced : list Z }.
Context (child_inspect : Z -> inspect_args -> C -> op_status * inspect_args * C).

Fixpoint remap_loop s (ranges add : list (Z * Z)) : res (list (Z * Z)) :=
  match add with
  | [] => Ok ranges
  | (r0, r1) :: add =>
    let ss := Z.of_nat (stripe_size_with_magic s) in
    a ← c_div r0 ss;
    b ← c_div r1 ss;
    remap_loop s (merge_list ranges (a * data_size s) ((b + 1) * data_size s - 1)) add
  end.
Definition segjerase_remap_add_ranges s (ranges : list (Z * Z)) (args : inspect_args) : res (list (Z * Z) * inspect_args) :=
  match bad_ranges args with
  | None => Ok (ranges, args)
  | Some add => ranges ← remap_loop s ranges add; Ok (ranges, InspectArgs None (dev_row_replaced args))
  end.

(** What the driver keeps: the status, the replaced devices, the bad stripes. *)
Record driver := Driver { dr_status : op_status; dr_child_replaced : Z; dr_max_replaced : Z; dr_bad_stripes : Z; dr_args : inspect_args }.

Definition fixable (mode : Z) (f : full) : bool :=
  has_bit mode INSPECT_FIX_READ_ERROR && (f_rerror f >? 0) || has_bit mode INSPECT_FIX_WRITE_ERROR && (f_werror f >? 0).

(** [loops] is how often the child can still be repaired: 9 at first. *)
Fixpoint full_loop (loops : nat) s (mode buf_size lo hi : Z) (ranges : list (Z * Z)) (d : driver) {struct loops} : res (driver * segjerase) :=
  (fix go s (lo hi : Z) (ranges : list (Z * Z)) (d : driver) {struct ranges} : res (driver * segjerase) :=
    '(status, f, s) ← segjerase_inspect_full_func s mode buf_size lo hi;
    let d := Driver status (dr_child_replaced d) (dr_max_replaced d) (f_bad f) (dr_args d) in
    let next := match ranges with [] => Ok (d, s) | (lo, hi) :: ranges => go s lo hi ranges d end in
    if op_ok status then next else
    match loops with
    | O => next
    | S loops =>
      if fixable mode f then
        let '(status, args, c) := child_inspect mode (dr_args d) (sj_child s) in
        let s := set_child c s in
        '(ranges, args) ← segjerase_remap_add_ranges s ranges args;
        let child_replaced := foldl Z.max 0 (dev_row_replaced args) in
        let max_replaced := Z.max (dr_max_replaced d) child_replaced in
        if negb (op_ok status) || (child_replaced >? Z.of_nat (sj_parity_devs s))
        then Ok (Driver (OpStatus false (error_code status)) child_replaced max_replaced (f_bad f) args, s)
        else full_loop loops s mode buf_size lo hi ranges (Driver status child_replaced max_replaced (f_bad f) args)
      else Ok (d, s)
    end) s lo hi ranges d.

(** A full inspection without errors clears the write errors, and a repair
    turns checksums on. *)
Definition full_done s (option_ : Z) (d : driver) : segjerase :=
  if op_ok (dr_status d) then
    SegJerase (sj_child s) (sj_plan s) (sj_blacklist s) (sj_max_parity s) 0 (sj_soft_errors s) (sj_hard_errors s) (sj_data_devs s) (sj_parity_devs s)
      (if option_ =? INSPECT_FULL_REPAIR then 1 else sj_magic_cksum s) (sj_chunk s) (sj_paranoid s)
  else s.

Definition inspect_full_driver s (mode buf_size : Z) (d : driver) : res (driver * segjerase) :=
  '(ranges, args) ← segjerase_remap_add_ranges s [] (dr_args d);
  let d := Driver (dr_status d) 0 (dr_max_replaced d) (dr_bad_stripes d) args in
  size ← segjerase_size s;
  let '(lo, hi, ranges) := match ranges with [] => (0, size, []) | (lo, hi) :: ranges => (lo, hi, ranges) end in
  '(d, s) ← full_loop 9 s mode buf_size lo hi ranges d;
  Ok (d, full_done s (command mode) d).

Definition inspect_end s (mode migrate_errors : Z) (d : driver) : driver :=
  let failed := (dr_max_replaced d >? Z.of_nat (sj_data_devs s)) || (dr_child_replaced d >? 0) && negb (has_bit mode INSPECT_FORCE_REPAIR) || negb (migrate_errors =? 0) in
  Driver (if failed then OpStatus false (error_code (dr_status d)) else dr_status d) (dr_child_replaced d) (dr_max_replaced d) (dr_bad_stripes d) (dr_args d).

Definition segjerase_inspect_func s (mode buf_size : Z) (args : inspect_args) : res (driver * segjerase) :=
  let '(status, args, c) := child_inspect mode args (sj_child s) in
  let s := set_child c s in
  let replaced := Z.land (error_code status) INSPECT_RESULT_COUNT_MASK in
  let migrate_errors := Z.land (error_code status) INSPECT_RESULT_MIGRATE_ERROR in
  let d := Driver status replaced replaced (-1) args in
  if negb (op_ok status) && (replaced >? Z.of_nat (sj_parity_devs s)) || negb (migrate_errors =? 0)
  then Ok (inspect_end s mode migrate_errors (Driver (OpStatus false (error_code status)) replaced replaced (-1) args), s)
  else
    size ← segjerase_size s;
    _ ← c_div size (data_size s);
    let forced := ((replaced >? 0) || (sj_magic_cksum s =? 0) || (sj_write_errors s >? 0)) && (command mode =? INSPECT_QUICK_REPAIR) in
    let mode := if forced then mode - command mode + INSPECT_FULL_REPAIR else mode in
    '(d, s) ← (if (command mode =? INSPECT_SCAN_CHECK) || (command mode =? INSPECT_SCAN_REPAIR) then
        '(status, bad, s) ← segjerase_inspect_scan s mode buf_size;
        Ok (Driver status replaced replaced bad args, s)
      else if (command mode =? INSPECT_FULL_CHECK) || (command mode =? INSPECT_FULL_REPAIR) then inspect_full_driver s mode buf_size d
      else Ok (d, s));
    Ok (inspect_end s mode migrate_errors d, s).

(** Counters are reported, other commands go to the child or to the driver; no
    operation for a command there is not. *)
Definition segjerase_inspect s (mode buf_size : Z) (args : inspect_args) : res (option (op_status * segjerase)) :=
  let option_ := command mode in
  if (INSPECT_QUICK_CHECK <=? option_) && (option_ <=? INSPECT_FULL_REPAIR) then '(d, s) ← segjerase_inspect_func s mode buf_size args; Ok (Some (dr_status d, s))
  else if (option_ =? INSPECT_MIGRATE) || (option_ =? INSPECT_WRITE_ERRORS) then let '(status, _, c) := child_inspect mode args (sj_child s) in Ok (Some (status, set_child c s))
  else if option_ =? INSPECT_SOFT_ERRORS then Ok (Some (OpStatus (sj_soft_errors s =? 0) (sj_soft_errors s), s))
  else if option_ =? INSPECT_HARD_ERRORS then Ok (Some (OpStatus (sj_hard_errors s =? 0) (sj_hard_errors s), s))
  else Ok None.

End inspect.

(** ** Repairing a stripe *)

Lemma ret_bind {A B} (x : A) (k : A -> blM B) m : (mret x ≫= k) m = k x m.
Proof. done. Qed.

Section stripes.
Context {matrix schedule : Type} `{Jerasure matrix schedule} (adler_init : Z) (adler32 : Z -> bytes -> Z).
Context {C : Type} `{Child C} (s : segjerase (matrix := matrix) (schedule := schedule) (C := C)) (code : list bytes -> Prop).
Abbreviation N := (n_devs s).
Abbreviation np := (sj_parity_devs s).
Abbreviation n := (sj_chunk s).
Abbreviation cs := (chunk_size_with_magic s).
Abbreviation ss := (stripe_size_with_magic s).
Abbreviation magic_of := (word_magic adler_init adler32).
Abbreviation encoded := (encoded adler_init adler32).
Abbreviation readable := (readable adler_init adler32 s).
Context (Hcode : mds (sj_plan s) n N np code) (Hck : sj_magic_cksum s <> 0).
Implicit Types (m : blocks) (w xs : list bytes) (f : full).

Lemma store_back_ok c i badmap key ptr eptr magics out m :
  badmap_ok N badmap -> length ptr = N -> (forall j, j ∈ bads N badmap -> eptr !! j = ptr !! j) -> (i + c = N)%nat -> length magics = N ->
  exists magics', store_back c i s badmap key ptr eptr magics out m = Ok ((magics', out ++ filter (fun j => badmap !! j = Some 1) (seq i c)), m) /\ length magics' = N /\
    forall j, magics' !! j = if decide (i <= j /\ j ∈ bads N badmap)%nat then Some key else magics !! j.
Proof.
  intros Hb Hpl He. revert i magics out. induction c as [|c IH]; intros i magics out Hi Hm; cbn [store_back].
  - exists magics. rewrite app_nil_r. split; [done|]. split; [done|]. intros j. rewrite decide_False; [done|]. intros [Hij Hj%(elem_of_bads _ _ _ Hb)]. apply lookup_lt_Some in Hj. destruct Hb as [Hbl _]. lia.
  - destruct (lookup_lt_is_Some_2 badmap i) as [b Hbi]; [destruct Hb as [-> _]; lia|]. rewrite (st_bind_ok _ _ _ _ _ (arr_at_ok badmap i b m Hbi)). cbn [seq]. rewrite filter_cons.
    rewrite (proj2 (Z.eqb_neq (sj_magic_cksum s) 0) Hck), orb_false_r. destruct (Z.eqb_spec b 1) as [->|Hb1].
    + destruct (lookup_lt_is_Some_2 ptr i) as [q Hq]; [lia|]. rewrite (st_bind_ok _ _ _ _ _ (arr_at_ok ptr i q m Hq)).
      assert (Hin : i ∈ bads N badmap) by (by apply (elem_of_bads _ _ _ Hb)). rewrite (st_bind_ok _ _ _ _ _ (arr_at_ok eptr i q m ltac:(by rewrite He))). rewrite decide_True by done.
      rewrite ret_bind. destruct (IH (S i) (<[i := key]> magics) (out ++ [i])) as (magics' & E & Hl & Hx); [lia|by rewrite length_insert|].
      rewrite E. exists magics'. rewrite decide_True by done. rewrite <- (assoc_L (++)). split; [done|]. split; [done|]. intros j. rewrite Hx. destruct (decide (j = i)) as [->|Hne].
      * rewrite decide_False, decide_True by (done || lia). apply list_lookup_insert_eq. lia.
      * rewrite list_lookup_insert_ne by done. repeat case_decide; try done; naive_solver lia.
    + destruct (IH (S i) magics out) as (magics' & E & Hl & Hx); [lia|done|]. rewrite E. exists magics'. rewrite decide_False by naive_solver. split; [done|]. split; [done|]. intros j. rewrite Hx.
      destruct (decide (j = i)) as [->|Hne]; [|repeat case_decide; try done; naive_solver lia]. rewrite !decide_False; [done| |lia]. intros [_ Hj%(elem_of_bads _ _ _ Hb)]. congruence.
Qed.

Definition counted f f' (bad : Z) : Prop := f_bad f' = f_bad f + bad /\ f_lost f' = f_lost f /\ f_repair f' = f_repair f.

Lemma inspect_blocks_ok fixing retried devs w work f :
  readable devs w -> code w -> magic_of w <> replicate JE_MAGIC_SIZE 0 -> length work = np -> long n work ->
  let lost := filter (fun i => devs.*1 !! i <> Some (magic_of w)) (seq 0 N) in
  exists f' magics m', inspect_blocks adler_init adler32 s fixing retried devs.*1 f (heap_of (devs.*2 ++ work)) = Ok ((f', Some (magics, if fixing then lost else [])), m') /\
    reads n m' (chunk_ptrs s) w /\ counted f f' (if decide (lost = []) then 0 else 1) /\ length magics = N /\ (fixing = true -> magics = replicate N (magic_of w)).
Proof.
  intros Hrb Hw Hz Hwl Hwork lost. destruct (md_sized _ _ _ _ _ Hcode w Hw) as [Hwn Hws]. pose proof (rb_length _ _ _ _ _ Hrb) as Hdl.
  assert (Hs : stripe n N (heap_of (devs.*2 ++ work)) (chunk_ptrs s) (work_ptrs s) devs.*2) by (apply start_stripe; [by rewrite length_fmap|apply Hrb|done|done]).
  set (m := heap_of _) in *. destruct (readable_voted _ _ s devs w Hrb Hwn) as [Ht Hb Hbads Hbl Hag Hcount].
  unfold inspect_blocks. rewrite Ht, (decide_False (P := magic_of w = _)) by done. rewrite ret_bind. cbn [negb andb orb].
  rewrite bool_decide_eq_false_2 by (unfold n_devs in *; lia). set (badmap := mark_bad _ _ _) in *. rewrite (proj2 (Z.eqb_neq (sj_magic_cksum s) 0) Hck).
  destruct (check_rebuilds adler_init adler32 s code Hcode badmap (Some (magic_of w)) (chunk_ptrs s) m devs.*2 w) as (eptr & m' & E & Hr & Hep); [done|done|unfold n_devs in *; lia|done|done|by right|].
  assert (Hlost : bads N badmap = lost).
  { unfold bads, lost. apply filter_iff_in. intros i Hi. rewrite <- (elem_of_bads _ _ _ Hb), Hbads. apply elem_of_seq in Hi. naive_solver lia. }
  assert (Hcases : (bads N badmap = [] <-> length (holders devs.*1 (magic_of w)) = N)) by (rewrite <- length_zero_iff_nil; lia).
  assert (Hall : bads N badmap = [] -> devs.*1 = replicate N (magic_of w)).
  { intros Hnil. apply list_eq. intros i. destruct (decide (i < N)%nat) as [Hi|Hi]; [|rewrite !lookup_ge_None_2; [done|rewrite length_replicate; lia|rewrite length_fmap; lia]].
    rewrite lookup_replicate_2 by done. destruct (decide (devs.*1 !! i = Some (magic_of w))) as [?|Hn]; [done|]. exfalso. apply (not_elem_of_nil i). rewrite <- Hnil. by apply Hbads. }
  set (f' := if decide (lost = []) then f else count_bad f).
  assert (Echk : check_blocks adler_init adler32 s (length (holders devs.*1 (magic_of w))) badmap (Some (magic_of w)) (chunk_ptrs s) f m = Ok ((f', bool_decide (lost = []), badmap, eptr), m')).
  { unfold check_blocks, f'. rewrite (st_bind_ok _ _ _ _ _ E). rewrite (proj2 (Z.eqb_neq (sj_magic_cksum s) 0) Hck). rewrite Hlost in Hcases. destruct (decide (lost = [])) as [Hl|Hl].
    - rewrite decide_True by (by apply Hcases). by rewrite bool_decide_eq_true_2.
    - rewrite decide_False by (by rewrite <- Hcases). by rewrite bool_decide_eq_false_2. }
  rewrite (st_bind_ok _ _ _ _ _ Echk). exists f'. assert (Hcnt : counted f f' (if decide (lost = []) then 0 else 1)) by (unfold f', counted; case_decide; cbn; lia).
  destruct (bool_decide_reflect (lost = [])) as [Hl|Hl]; cbn [negb andb].
  - exists devs.*1, m'. rewrite Hl. split; [by destruct fixing|]. rewrite Hl in Hcnt. split; [done|]. split; [done|]. split; [by rewrite length_fmap|]. intros _. apply Hall. by rewrite Hlost.
  - destruct fixing; [|exists devs.*1, m'; split; [done|]; split; [done|]; split; [done|]; split; [by rewrite length_fmap|done]].
    rewrite ret_bind. destruct (store_back_ok N 0 badmap (magic_of w) (chunk_ptrs s) eptr devs.*1 [] m') as (magics & Es & Hml & Hx); [done| |done|done|by rewrite length_fmap|].
    { unfold chunk_ptrs. by rewrite length_fmap, length_seq. }
    rewrite (st_bind_ok _ _ _ _ _ Es). exists magics, m'. split; [cbn [app]; by rewrite <- Hlost|]. split; [done|]. split; [done|]. split; [done|]. intros _.
    apply list_eq. intros i. rewrite Hx. destruct (decide (i < N)%nat) as [Hi|Hi]; [|rewrite decide_False by (rewrite Hbads; lia); rewrite !lookup_ge_None_2; [done|rewrite length_replicate; lia|rewrite length_fmap; lia]].
    rewrite lookup_replicate_2 by done. destruct (decide (0 <= i /\ i ∈ bads N badmap)%nat) as [|Hd]; [done|]. destruct (decide (devs.*1 !! i = Some (magic_of w))) as [?|Hn]; [done|]. exfalso. apply Hd. split; [lia|]. by apply Hbads.
Qed.

(** A stripe that holds no data, or one of a word that is readable, and what
    it should be. *)
Inductive repairable : bytes -> bytes -> Prop :=
  | rp_empty : repairable (replicate ss 0) (replicate ss 0)
  | rp_word data w : length data = ss -> readable (cut_devs s data) w -> code w -> magic_of w <> replicate JE_MAGIC_SIZE 0 -> repairable data (encoded w).

Lemma repairable_length data target : repairable data target -> length data = ss /\ length target = ss.
Proof.
  intros [|d w Hd _ Hw _]; [by rewrite length_replicate|]. split; [done|]. by apply (encoded_length adler_init adler32 s code).
Qed.

(** Pieces that turn [data] into [target], both of them at [off]. *)
Definition patches (off : Z) (data target : bytes) (vs : list (Z * bytes)) : Prop :=
  (forall v, v ∈ vs -> exists x, v.1 = off + Z.of_nat x /\ (x + length v.2 <= length target)%nat /\ forall i b, v.2 !! i = Some b -> target !! (x + i)%nat = Some b) /\
  (forall x, (x < length target)%nat -> data !! x = target !! x \/ exists v, v ∈ vs /\ v.1 <= off + Z.of_nat x < v.1 + Z.of_nat (length v.2)).

Lemma patches_same off data : patches off data data [].
Proof. split; [intros v Hv; by apply not_elem_of_nil in Hv|by left]. Qed.

Lemma patches_app off d1 t1 vs1 d2 t2 vs2 :
  length d1 = length t1 -> patches off d1 t1 vs1 -> patches (off + Z.of_nat (length t1)) d2 t2 vs2 -> patches off (d1 ++ d2) (t1 ++ t2) (vs1 ++ vs2).
Proof.
  intros Hl [Hv1 Hx1] [Hv2 Hx2]. split.
  - intros v [Hv|Hv]%elem_of_app.
    + destruct (Hv1 v Hv) as (x & Hx & Hlen & Hi). exists x. rewrite length_app. split; [done|]. split; [lia|]. intros i b Hb. pose proof (lookup_lt_Some _ _ _ (Hi i b Hb)). rewrite lookup_app_l by done. by apply Hi.
    + destruct (Hv2 v Hv) as (x & Hx & Hlen & Hi). exists (length t1 + x)%nat. rewrite length_app. split; [lia|]. split; [lia|]. intros i b Hb. rewrite lookup_app_r by lia. rewrite <- (Hi i b Hb). f_equal. lia.
  - intros x Hx. rewrite length_app in Hx. destruct (decide (x < length t1)%nat) as [Hlt|Hge].
    + rewrite !lookup_app_l by lia. destruct (Hx1 x Hlt) as [?|(v & Hv & Hr)]; [by left|right]. exists v. split; [apply elem_of_app; by left|done].
    + rewrite !lookup_app_r by lia. rewrite Hl. destruct (Hx2 (x - length t1)%nat) as [?|(v & Hv & Hr)]; [lia|by left|right]. exists v. split; [apply elem_of_app; by right|lia].
Qed.

(** The place of a device in the stripe. *)
Lemma cut_devs_lookup data i : (i < N)%nat -> cut_devs s data !! i = Some (take JE_MAGIC_SIZE (take cs (drop (i * cs) data)), drop JE_MAGIC_SIZE (take cs (drop (i * cs) data))).
Proof. intros Hi. unfold cut_devs. by rewrite list_lookup_fmap, lookup_seq_lt. Qed.

Lemma encoded_slice w i x : code w -> w !! i = Some x -> take cs (drop (i * cs) (encoded w)) = magic_of w ++ x.
Proof.
  intros Hw Hx. destruct (md_sized _ _ _ _ _ Hcode w Hw) as [Hl Hs]. unfold SegJerase.encoded. apply concat_slice; [|by rewrite list_lookup_fmap, Hx].
  apply Forall_fmap. eapply Forall_impl; [done|]. intros y Hy. cbn in Hy |- *. by rewrite Hy.
Qed.

Lemma cut_lookup (d : bytes) o l i : (i < l)%nat -> take l (drop o d) !! i = d !! (o + i)%nat.
Proof. intros Hi. rewrite lookup_take_lt by done. apply lookup_drop. Qed.

(** The lost chunks make the difference. *)
Lemma word_patches off data w :
  length data = ss -> readable (cut_devs s data) w -> code w ->
  let lost := filter (fun i => (cut_devs s data).*1 !! i <> Some (magic_of w)) (seq 0 N) in
  patches off data (encoded w) (pieces s off (zip (replicate N (magic_of w)) w) lost) /\ (lost = [] <-> data = encoded w).
Proof.
  intros Hd Hrb Hw lost. destruct (md_sized _ _ _ _ _ Hcode w Hw) as [Hl Hsz]. pose proof (encoded_length adler_init adler32 s code Hcode w Hw) as Hel.
  assert (Hmg : length (magic_of w) = JE_MAGIC_SIZE) by done.
  assert (Hgood : forall i, (i < N)%nat -> i ∉ lost -> take cs (drop (i * cs) data) = take cs (drop (i * cs) (encoded w))).
  { intros i Hi Hn. destruct (lookup_lt_is_Some_2 w i) as [x Hx]; [lia|]. rewrite (encoded_slice w i x Hw Hx).
    assert (Hm : (cut_devs s data).*1 !! i = Some (magic_of w)). { destruct (decide ((cut_devs s data).*1 !! i = Some (magic_of w))) as [?|Hne]; [done|]. exfalso. apply Hn, list_elem_of_filter. split; [done|]. apply elem_of_seq. lia. }
    pose proof (readable_word _ _ s _ w i Hrb Hl Hm) as Hc. rewrite list_lookup_fmap, cut_devs_lookup in Hm by done. rewrite list_lookup_fmap, cut_devs_lookup, Hx in Hc by done.
    injection Hm as Hm. injection Hc as Hc. rewrite <- Hm at 1. rewrite <- Hc at 1. by rewrite take_drop. }
  assert (Hat : forall x, (x < ss)%nat -> exists i j, (i < N)%nat /\ (j < cs)%nat /\ x = (i * cs + j)%nat).
  { intros x Hx. unfold stripe_size_with_magic in Hx. exists (x / cs)%nat, (x mod cs)%nat. assert (cs <> 0)%nat by (unfold chunk_size_with_magic, JE_MAGIC_SIZE; lia).
    split; [apply Nat.Div0.div_lt_upper_bound; lia|]. split; [by apply Nat.mod_upper_bound|]. pose proof (Nat.div_mod_eq x cs). lia. }
  split; [split|].
  - intros v Hv. unfold pieces in Hv. apply list_elem_of_fmap in Hv as (i & -> & Hi). apply list_elem_of_filter in Hi as [_ Hi%elem_of_seq]. destruct (lookup_lt_is_Some_2 w i) as [x Hx]; [lia|].
    assert (Hz : zip (replicate N (magic_of w)) w !! i = Some (magic_of w, x)) by (rewrite lookup_zip_with, lookup_replicate_2 by lia; cbn; by rewrite Hx). rewrite Hz. cbn [default from_option id fst snd].
    pose proof (proj1 (Forall_lookup _ _) Hsz i x Hx) as Hxl. cbn in Hxl. exists (i * cs)%nat. assert (Hpl : length (magic_of w ++ x) = cs) by (rewrite length_app, Hmg, Hxl; done).
    split; [done|]. split; [rewrite Hel, Hpl; unfold stripe_size_with_magic; nia|]. intros j b Hb. pose proof (lookup_lt_Some _ _ _ Hb) as Hj. rewrite Hpl in Hj.
    by rewrite <- (cut_lookup _ _ cs j Hj), (encoded_slice w i x Hw Hx).
  - intros x Hx. rewrite Hel in Hx. destruct (Hat x Hx) as (i & j & Hi & Hj & ->). destruct (decide (i ∈ lost)) as [Hin|Hn].
    + right. destruct (lookup_lt_is_Some_2 w i) as [y Hy]; [lia|]. exists (off + Z.of_nat (i * cs), magic_of w ++ y). split.
      * apply list_elem_of_fmap. exists i. split; [|done]. rewrite lookup_zip_with, lookup_replicate_2 by lia. cbn [mbind option_bind]. by rewrite Hy.
      * pose proof (proj1 (Forall_lookup _ _) Hsz i y Hy) as Hyl. cbn in Hyl. cbn [fst snd]. rewrite length_app, Hmg, Hyl. fold cs. lia.
    + left. rewrite <- !(cut_lookup _ _ cs j Hj). by rewrite Hgood.
  - split.
    + intros Hnil. apply list_eq. intros x. destruct (decide (x < ss)%nat) as [Hx|Hx]; [|rewrite !lookup_ge_None_2; [done|lia|lia]].
      destruct (Hat x Hx) as (i & j & Hi & Hj & ->). rewrite <- !(cut_lookup _ _ cs j Hj). rewrite Hgood; [done|done|]. rewrite Hnil. apply not_elem_of_nil.
    + intros Heq. destruct lost as [|i l] eqn:El; [done|]. exfalso. assert (Hi : i ∈ lost) by (rewrite El; by left). apply list_elem_of_filter in Hi as [Hne Hi%elem_of_seq]. apply Hne.
      destruct (lookup_lt_is_Some_2 w i) as [x Hx]; [lia|]. rewrite list_lookup_fmap, cut_devs_lookup by lia. cbn [fmap option_fmap option_map fst]. rewrite Heq, (encoded_slice w i x Hw Hx). by rewrite take_app_length'.
Qed.

Context (work : list bytes) (Hwl : length work = np) (Hwork : long n work).

Lemma cut_zeros : cut_devs s (replicate ss 0) = replicate N (replicate JE_MAGIC_SIZE 0, replicate n 0).
Proof.
  apply list_eq. intros i. destruct (decide (i < N)%nat) as [Hi|Hi]; [|rewrite !lookup_ge_None_2; [done|rewrite length_replicate; lia|unfold cut_devs; rewrite length_fmap, length_seq; lia]].
  rewrite cut_devs_lookup, lookup_replicate_2 by done. rewrite drop_replicate, take_replicate, take_replicate, drop_replicate.
  unfold stripe_size_with_magic, chunk_size_with_magic, JE_MAGIC_SIZE in *. do 3 f_equal; nia.
Qed.

(** A stripe without data is left as it is. *)
Lemma inspect_empty fixing retried f : (0 < N)%nat ->
  exists devs, inspect_stripe adler_init adler32 work s fixing retried (cut_devs s (replicate ss 0)) f = Ok (count_empty f, Some (devs, [])).
Proof.
  intros HN. rewrite cut_zeros. unfold inspect_stripe. rewrite !fmap_replicate. cbn [fst snd]. set (z4 := replicate JE_MAGIC_SIZE 0). set (zs := replicate N (replicate n 0)).
  assert (Hs : stripe n N (heap_of (zs ++ work)) (chunk_ptrs s) (work_ptrs s) zs) by (apply start_stripe; [by unfold zs; rewrite length_replicate|apply Forall_replicate; by rewrite length_replicate|done|done]).
  destruct Hs as (_ & Hr & Hl & _). set (m := heap_of _) in *.
  assert (Hh : forall mg, holders (replicate N z4) mg = if decide (mg = z4) then seq 0 N else []).
  { intros mg. unfold holders. rewrite length_replicate. case_decide as Hd.
    - apply filter_keeps. intros k Hk%elem_of_seq. rewrite lookup_replicate_2 by lia. by subst.
    - apply filter_drops. intros k Hk%elem_of_seq. rewrite lookup_replicate_2 by lia. naive_solver. }
  assert (Hw : let t := magic_loop 0 (replicate N z4) [] in t !! quorum t = Some (z4, holders (replicate N z4) z4)).
  { apply quorum_wins; rewrite Hh, decide_True by done; [destruct N; [lia|done]|]. intros mg Hmg. rewrite Hh, decide_False, length_seq by done. done. }
  unfold inspect_blocks. rewrite Hw, (decide_True (P := z4 = _)) by done. cbn [mbind res_bind].
  rewrite (st_bind_ok _ _ _ _ _ (any_nonzero_ok s N 0 m (chunk_ptrs s) zs Hr ltac:(unfold zs; rewrite length_replicate; lia))).
  assert (Hz : existsb sj_nonzero (drop 0 zs) = false).
  { apply not_true_iff_false. rewrite existsb_exists. intros (x & Hx & Hnz). apply list_elem_of_In, elem_of_replicate in Hx as [-> _]. unfold sj_nonzero in Hnz. apply existsb_exists in Hnz as (b & Hb & Hb0).
    apply list_elem_of_In, elem_of_replicate in Hb as [-> _]. done. }
  rewrite Hz, Hh, (decide_True (P := z4 = z4)) by done. rewrite length_seq, bool_decide_eq_true_2 by done. cbn [negb andb mret st_ret mbind res_bind].
  rewrite (take_each_ok s N 0 m (chunk_ptrs s) zs Hr ltac:(unfold zs; rewrite length_replicate; lia)). cbn [mbind res_bind]. by eexists.
Qed.

Lemma inspect_stripe_ok fixing retried off data target f :
  (0 < N)%nat -> repairable data target ->
  exists f' devs out, inspect_stripe adler_init adler32 work s fixing retried (cut_devs s data) f = Ok (f', Some (devs, out)) /\
    counted f f' (if decide (data = target) then 0 else 1) /\ (if fixing then patches off data target (pieces s off devs out) else out = []).
Proof.
  intros HN [|d w Hd Hrb Hw Hz].
  - destruct (inspect_empty fixing retried f HN) as (devs & E). exists (count_empty f), devs, []. split; [done|]. split; [rewrite decide_True by done; unfold counted; cbn; lia|].
    destruct fixing; [apply patches_same|done].
  - destruct (inspect_blocks_ok fixing retried _ w work f Hrb Hw Hz Hwl Hwork) as (f' & magics & m' & E & Hr & Hc & Hml & Hmg). destruct (md_sized _ _ _ _ _ Hcode w Hw) as [Hl _].
    destruct (word_patches off d w Hd Hrb Hw) as [Hp Hnil]. set (lost := filter _ _) in *. unfold inspect_stripe. rewrite E. cbn [mbind res_bind].
    rewrite (take_each_ok s N 0 m' (chunk_ptrs s) w Hr ltac:(lia)). cbn [mbind res_bind]. eexists _, _, _. split; [done|]. split.
    + destruct (decide (lost = [])) as [Hn|Hn]; [rewrite decide_True by (by apply Hnil)|rewrite decide_False by (by rewrite <- Hnil)]; done.
    + destruct fixing; [|done]. by rewrite (Hmg eq_refl).
Qed.

(** How many stripes are not as they should be. *)
Fixpoint damaged (ds ts : list bytes) : Z :=
  match ds, ts with d :: ds, t :: ts => (if decide (d = t) then 0 else 1) + damaged ds ts | _, _ => 0 end.

Lemma inspect_stripes_ok fixing retried off ds ts f :
  (0 < N)%nat -> Forall2 repairable ds ts ->
  exists f' buf vs, inspect_stripes adler_init adler32 work s fixing retried (length ds) off (concat ds) f = Ok (f', Some (buf, vs)) /\
    counted f f' (damaged ds ts) /\ (if fixing then patches off (concat ds) (concat ts) vs else vs = []).
Proof.
  intros HN Hall. revert off f. induction Hall as [|d t ds ts Hd Hall IH]; intros off f; cbn [length inspect_stripes].
  - exists f, [], []. split; [done|]. split; [unfold counted; cbn; lia|]. destruct fixing; [apply patches_same|done].
  - destruct (repairable_length d t Hd) as [Hdl Htl]. cbn [concat]. rewrite take_app_length', drop_app_length' by done.
    destruct (inspect_stripe_ok fixing retried off d t f HN Hd) as (f1 & devs & out & E & (Hb1 & Hl1 & Hr1) & Hp). rewrite E. cbn [mbind res_bind].
    destruct (IH (off + Z.of_nat ss) f1) as (f2 & buf & vs & E2 & (Hb2 & Hl2 & Hr2) & Hp2). rewrite E2. cbn [mbind res_bind option_bind].
    eexists f2, _, _. split; [done|]. split; [unfold counted; cbn [damaged]; lia|]. destruct fixing; [|by subst; cbn].
    apply patches_app; [congruence|done|by rewrite Htl].
Qed.

End stripes.

(** ** Repairing the segment *)

Lemma puts_cases (g : Z -> Z) vs a :
  (exists v, v ∈ vs /\ v.1 <= a < v.1 + Z.of_nat (length v.2) /\ foldl put g vs a = v.2 !!! Z.to_nat (a - v.1)) \/
  (forall v, v ∈ vs -> ~ v.1 <= a < v.1 + Z.of_nat (length v.2)) /\ foldl put g vs a = g a.
Proof.
  induction vs as [|v vs IH] using rev_ind; [right; split; [intros v Hv; by apply not_elem_of_nil in Hv|done]|]. rewrite foldl_snoc. change (put (foldl put g vs) v a) with (if decide (v.1 <= a < v.1 + Z.of_nat (length v.2)) then v.2 !!! Z.to_nat (a - v.1) else foldl put g vs a). case_decide as Hd.
  - left. exists v. split; [apply elem_of_app; right; by left|]. done.
  - destruct IH as [(v' & Hv' & Hr & E)|[Hno E]]; [left|right].
    + exists v'. split; [apply elem_of_app; by left|]. done.
    + split; [|done]. intros v' [Hv'|Hv']%elem_of_app; [by apply Hno|]. apply list_elem_of_singleton in Hv' as ->. done.
Qed.

Lemma patches_put (g : Z -> Z) off data target vs :
  patches off data target vs -> g <$> seqZ off (Z.of_nat (length target)) = data ->
  foldl put g vs <$> seqZ off (Z.of_nat (length target)) = target /\ forall a, ~ off <= a < off + Z.of_nat (length target) -> foldl put g vs a = g a.
Proof.
  intros [Hv Hx] Hg. split.
  - apply list_eq. intros x. rewrite list_lookup_fmap. destruct (decide (x < length target)%nat) as [Hlt|Hge]; [|rewrite lookup_seqZ_ge, lookup_ge_None_2 by lia; done].
    rewrite lookup_seqZ_lt by lia. cbn [fmap option_fmap option_map]. destruct (puts_cases g vs (off + Z.of_nat x)) as [(v & Hin & Hr & ->)|[Hno ->]].
    + destruct (Hv v Hin) as (y & Hy & Hl & Hi). symmetry. replace x with (y + Z.to_nat (off + Z.of_nat x - v.1))%nat by lia. apply Hi. replace (y + _)%nat with x by lia. apply list_lookup_lookup_total_lt. lia.
    + destruct (Hx x Hlt) as [<-|(v & Hin & Hr)]; [|exfalso; by apply (Hno v)]. subst data. rewrite list_lookup_fmap, lookup_seqZ_lt by lia. done.
  - intros a Ha. destruct (puts_cases g vs a) as [(v & Hin & Hr & _)|[_ E]]; [|done]. exfalso. apply Ha. destruct (Hv v Hin) as (y & Hy & Hl & _). lia.
Qed.

Section repair.
Context {matrix schedule : Type} `{Jerasure matrix schedule} (adler_init : Z) (adler32 : Z -> bytes -> Z).
Context {C : Type} `{Child C} (s : segjerase (matrix := matrix) (schedule := schedule) (C := C)) (code : list bytes -> Prop).
Abbreviation ss := (stripe_size_with_magic s).
Abbreviation repairable := (repairable adler_init adler32 s code).
Context (Hcode : mds (sj_plan s) (sj_chunk s) (n_devs s) (sj_parity_devs s) code) (Hck : sj_magic_cksum s <> 0) (HN : (0 < n_devs s)%nat).
Context (settle : C -> C) (work : list bytes) (Hwl : length work = sj_parity_devs s) (Hwork : long (sj_chunk s) work).

(** The child as bytes that can be read and written. *)
Record stores (content : C -> Z -> Z) : Prop := Stores {
  st_read hints vs c : (child_readv hints vs c).2 = concat ((fun v => content c <$> seqZ v.1 v.2) <$> vs);
  st_write hints vs c : op_ok (child_writev hints vs c).1 = true /\ forall a, content (child_writev hints vs c).2 a = foldl put (content c) vs a }.
Context (content : C -> Z -> Z) (Hst : stores content).

(** The bytes of [n] stripes. *)
Definition stripes_at c (off : Z) (n : nat) : bytes := content c <$> seqZ off (Z.of_nat (n * ss)).

Lemma repairable_child c ds ts : Forall2 repairable ds ts -> Forall2 (JeraseInspect.repairable adler_init adler32 (set_child c s) code) ds ts.
Proof.
  intros Hall. eapply Forall2_impl; [done|]. intros d t [|d' w Hd [H1 H2 H3 H4 H5] Hw Hz]; [apply (rp_empty _ _ (set_child c s))|]. by apply rp_word.
Qed.

Lemma repairable_concat ds ts : Forall2 repairable ds ts -> length (concat ds) = (length ds * ss)%nat /\ length (concat ts) = (length ds * ss)%nat.
Proof.
  induction 1 as [|d t ds ts Hd _ IH]; [done|]. cbn [concat length]. rewrite !length_app. destruct (repairable_length _ _ s code Hcode d t Hd). lia.
Qed.

(** What is done with stripes at [off]: repaired, and nothing else, or left. *)
Definition repaired (fixing : bool) c c' (off : Z) (ts : list bytes) : Prop :=
  if fixing then stripes_at c' off (length ts) = concat ts /\ (forall a, ~ off <= a < off + Z.of_nat (length ts * ss) -> content c' a = content c a) else c' = c.

Lemma inspect_batch_ok fixing ds ts off f c :
  Forall2 repairable ds ts -> stripes_at c off (length ds) = concat ds ->
  exists f' c', inspect_batch adler_init adler32 settle work (set_child c s) fixing (length ds) off f = Ok (f', set_child c' s) /\
    counted f f' (damaged ds ts) /\ repaired fixing c c' off ts.
Proof.
  intros Hall Hc. destruct (repairable_concat ds ts Hall) as [Hdl Htl]. pose proof (Forall2_length _ _ _ Hall) as Hlen. unfold inspect_batch, inspect_read, child_read.
  change (stripe_size_with_magic (set_child c s)) with ss. change (sj_child (set_child c s)) with c.
  pose proof (st_read _ Hst None [(off, Z.of_nat (length ds * ss))] c) as Hrd. cbn [fmap list_fmap concat fst snd] in Hrd. rewrite app_nil_r in Hrd. fold (stripes_at c off (length ds)) in Hrd. rewrite Hc in Hrd.
  destruct (child_readv None _ c) as [op data]. cbn [snd] in Hrd. subst data. set (f0 := if op_ok op then f else count_rerror f).
  destruct (inspect_stripes_ok adler_init adler32 (set_child c s) code Hcode Hck work Hwl Hwork fixing false off ds ts f0 HN (repairable_child c ds ts Hall)) as (f1 & buf & vs & E & Hcnt & Hp).
  rewrite E. cbn [mbind res_bind]. change (sj_magic_cksum (set_child c s)) with (sj_magic_cksum s). rewrite (proj2 (Z.eqb_neq _ _) Hck). cbn [andb].
  assert (Hc1 : counted f f1 (damaged ds ts)) by (unfold counted, f0 in *; destruct (op_ok op); done).
  assert (Hfix : fixing = true -> foldl put (content c) vs <$> seqZ off (Z.of_nat (length ts * ss)) = concat ts /\ forall a, ~ off <= a < off + Z.of_nat (length ts * ss) -> foldl put (content c) vs a = content c a).
  { intros ->. rewrite <- Hlen, <- Htl. eapply patches_put; [done|]. rewrite Htl. exact Hc. }
  destruct vs as [|v vs].
  - exists f1, c. split; [done|]. split; [done|]. destruct fixing; [|done]. split; [by apply Hfix|done].
  - destruct fixing; [|done]. change (sj_child (set_child c s)) with c. destruct (st_write _ Hst None (v :: vs) c) as [Hok Hw]. destruct (child_writev None (v :: vs) c) as [op' c'] eqn:Ew. cbn [fst snd] in Hok, Hw. rewrite Hok.
    exists f1, c'. split; [done|]. split; [done|]. destruct (Hfix eq_refl) as [H1 H2]. split; [|intros a Ha; by rewrite Hw, H2].
    rewrite <- H1. unfold stripes_at. apply list_fmap_ext. intros i a _. apply Hw.
Qed.

Lemma stripes_at_app c off a b : stripes_at c off (a + b) = stripes_at c off a ++ stripes_at c (off + Z.of_nat (a * ss)) b.
Proof. unfold stripes_at. rewrite Nat.mul_add_distr_r, Nat2Z.inj_add, seqZ_app, fmap_app by lia. done. Qed.

Lemma damaged_app ds1 ts1 ds2 ts2 : length ds1 = length ts1 -> damaged (ds1 ++ ds2) (ts1 ++ ts2) = damaged ds1 ts1 + damaged ds2 ts2.
Proof.
  revert ts1. induction ds1 as [|d ds1 IH]; intros [|t ts1] Hl; [done..|]. cbn [app damaged]. rewrite IH by (by injection Hl). lia.
Qed.

(** Two parts, one after the other. *)
Lemma repaired_app fixing c c1 c' off ts1 ts2 :
  repaired fixing c c1 off ts1 -> repaired fixing c1 c' (off + Z.of_nat (length ts1 * ss)) ts2 -> repaired fixing c c' off (ts1 ++ ts2).
Proof.
  destruct fixing; cbn [repaired]; [|congruence]. intros [H1 Ho1] [H2 Ho2]. rewrite length_app, concat_app, stripes_at_app, H2. split; [f_equal|].
  - rewrite <- H1. unfold stripes_at. apply list_fmap_ext. intros i a Ha. apply lookup_seqZ in Ha as [-> Hi]. apply Ho2. lia.
  - intros a Ha. rewrite Ho2, Ho1 by lia. done.
Qed.

Lemma repaired_nil fixing c c' off off' : repaired fixing c c' off [] -> repaired fixing c c' off' [].
Proof.
  destruct fixing; [|done]. intros [_ Ho]. split; [unfold stripes_at; by rewrite seqZ_nil|]. intros a _. apply Ho. cbn. lia.
Qed.

Lemma inspect_batches_ok fuel fixing quick total b stripe base ds ts f c :
  Forall2 repairable ds ts -> 1 <= b -> (if decide (ds = []) then total <= stripe else total = stripe + Z.of_nat (length ds)) -> (length ds < fuel)%nat ->
  stripes_at c (base + stripe * Z.of_nat ss) (length ds) = concat ds -> f_lost f = 0 -> f_repair f = 0 ->
  exists f' c', inspect_batches adler_init adler32 settle work fuel (set_child c s) fixing quick total b stripe base f = Ok (f', set_child c' s) /\
    counted f f' (damaged ds ts) /\ repaired fixing c c' (base + stripe * Z.of_nat ss) ts.
Proof.
  intros Hall Hb. revert stripe ds ts f c Hall. induction fuel as [|fuel IH]; intros stripe ds ts f c Hall Ht Hf Hc Hl0 Hr0; [lia|]. cbn [inspect_batches].
  destruct (decide (ds = [])) as [->|Hne].
  - inversion Hall; subst. rewrite (proj2 (Z.ltb_ge _ _)) by lia. exists f, c. split; [done|]. split; [unfold counted; cbn; lia|]. destruct fixing; [|done]. split; [unfold stripes_at; by rewrite seqZ_nil|done].
  - assert (Hlen : (0 < length ds)%nat) by (destruct ds; [done|cbn; lia]). rewrite (proj2 (Z.ltb_lt _ _)) by lia. set (n1 := Nat.min (Z.to_nat b) (length ds)).
    assert (Hn : Z.to_nat ((if stripe + b >? total then total else stripe + b) - stripe) = n1) by (unfold n1; destruct (Z.gtb_spec (stripe + b) total); lia). rewrite Hn.
    change (stripe_size_with_magic (set_child c s)) with ss. set (off := base + stripe * Z.of_nat ss) in *.
    assert (Hsplit : exists ds1 ds2 ts1 ts2, ds = ds1 ++ ds2 /\ ts = ts1 ++ ts2 /\ length ds1 = n1 /\ length ts1 = n1).
    { exists (take n1 ds), (drop n1 ds), (take n1 ts), (drop n1 ts). rewrite !take_drop, !length_take. apply Forall2_length in Hall. split; [done|]. split; [done|]. unfold n1. lia. }
    destruct Hsplit as (ds1 & ds2 & ts1 & ts2 & -> & -> & Hl1 & Hl2). apply Forall2_app_inv in Hall as [Hall1 Hall2]; [|congruence]. rewrite length_app in Ht, Hf, Hc, Hlen.
    assert (Hn1 : n1 = Nat.min (Z.to_nat b) (length ds1 + length ds2)) by (unfold n1; by rewrite length_app). clearbody n1.
    rewrite stripes_at_app, concat_app in Hc. apply app_inj_1 in Hc as [Hc1 Hc2]; [|unfold stripes_at; rewrite length_fmap, length_seqZ; destruct (repairable_concat _ _ Hall1) as [-> _]; lia].
    destruct (inspect_batch_ok fixing ds1 ts1 off f c Hall1 Hc1) as (f1 & c1 & E & (Hcb & Hcl & Hcr) & Hrep1). rewrite Hl1 in E. rewrite E. cbn [mbind res_bind].
    replace (f_repair f1 + f_lost f1 >? 0) with false by (rewrite Hcl, Hcr, Hl0, Hr0; done). cbn [andb].
    destruct (IH (stripe + b) ds2 ts2 f1 c1 Hall2) as (f2 & c2 & E2 & (Hcb2 & Hcl2 & Hcr2) & Hrep2).
    + destruct (decide (ds2 = [])) as [->|Hne2]; [cbn [length] in *; lia|]. destruct ds2; [done|]. cbn [length] in *. lia.
    + lia.
    + destruct (decide (ds2 = [])) as [->|Hne2]; [unfold stripes_at; by rewrite seqZ_nil|]. assert (Hbn : n1 = Z.to_nat b) by (destruct ds2; [done|]; cbn [length] in *; lia).
      rewrite <- Hc2. replace (base + (stripe + b) * Z.of_nat ss) with (off + Z.of_nat (length ds1 * ss)) by (unfold off; rewrite Hl1, Hbn; nia).
      unfold stripes_at. apply list_fmap_ext. intros i a Ha. apply lookup_seqZ in Ha as [-> Hi]. destruct fixing; [|by rewrite Hrep1]. apply Hrep1. lia.
    + lia.
    + lia.
    + exists f2, c2. split; [exact E2|]. split; [unfold counted; rewrite damaged_app by congruence; lia|]. apply (repaired_app _ _ c1); [done|]. destruct (decide (ts2 = [])) as [->|Hne2]; [by eapply repaired_nil|].
      assert (Hbn : n1 = Z.to_nat b). { apply Forall2_length in Hall2. destruct ts2; [done|]. cbn [length] in *. lia. }
      replace (off + Z.of_nat (length ts1 * ss)) with (base + (stripe + b) * Z.of_nat ss); [done|]. unfold off. rewrite Hl2, Hbn. nia.
Qed.

Lemma damaged_zero ds ts : length ds = length ts -> 0 <= damaged ds ts /\ (damaged ds ts = 0 <-> ds = ts).
Proof.
  revert ts. induction ds as [|d ds IH]; intros [|t ts] Hl; [done..|]. cbn [damaged]. destruct (IH ts) as [Hnn Hz]; [by injection Hl|]. case_decide as Hd; (split; [lia|]); [rewrite Z.add_0_l, Hz; split; [by intros ->; subst|by intros [= _ ->]]|].
  split; [lia|]. by intros [= ->].
Qed.

(** A full inspection of stripes that are empty or readable counts the ones that
    are not as they should be.  With repair it ends in success, all of them are
    as they should be, and no other byte has changed; without it nothing
    changes, and it says success if and only if there is nothing to repair. *)
Lemma inspect_full_ok mode buf_size base hi ds ts :
  0 < data_size s -> Z.of_nat ss <= buf_size -> Forall2 repairable ds ts -> stripes_at (sj_child s) (base * Z.of_nat ss) (length ds) = concat ds ->
  Z.quot (hi - base * data_size s + 1) (data_size s) = Z.of_nat (length ds) ->
  exists op f c', segjerase_inspect_full_func adler_init adler32 settle work s mode buf_size (base * data_size s) hi = Ok (op, f, set_child c' s) /\
    f_bad f = damaged ds ts /\ repaired (do_fix mode) (sj_child s) c' (base * Z.of_nat ss) ts /\ (op_ok op = true <-> do_fix mode = true \/ ds = ts).
Proof.
  intros Hds Hbuf Hall Hc Hhi. unfold segjerase_inspect_full_func, c_div. rewrite (proj2 (Z.eqb_neq (data_size s) 0)) by lia. cbn [mbind res_bind].
  assert (Hss : 0 < Z.of_nat ss) by (unfold stripe_size_with_magic, chunk_size_with_magic, JE_MAGIC_SIZE; nia).
  rewrite Hhi, Z.quot_mul by lia. rewrite (proj2 (Z.eqb_neq (Z.of_nat ss) 0)) by lia. cbn [mbind res_bind].
  set (b := Z.quot _ (Z.of_nat ss)). assert (Hb : ds <> [] -> 1 <= b).
  { intros Hne. unfold b. assert (1 <= Z.of_nat (length ds)) by (destruct ds; [done|cbn; lia]). apply Z.quot_le_lower_bound; [done|]. destruct (_ >? _); nia. }
  assert (Hrun : exists f c', inspect_batches adler_init adler32 settle work (S (Z.to_nat (Z.of_nat (length ds)))) s (do_fix mode) (has_bit mode INSPECT_FAIL_ON_ERROR) (Z.of_nat (length ds)) b 0 (base * Z.of_nat ss) (Full 0 0 0 0 0 None 0 0) = Ok (f, set_child c' s) /\
    counted (Full 0 0 0 0 0 None 0 0) f (damaged ds ts) /\ repaired (do_fix mode) (sj_child s) c' (base * Z.of_nat ss) ts).
  { destruct (decide (ds = [])) as [->|Hne].
    - inversion Hall; subst. eexists _, (sj_child s). rewrite set_child_same. split; [done|]. split; [done|]. destruct (do_fix mode); [|done]. split; [unfold stripes_at; by rewrite seqZ_nil|done].
    - destruct (inspect_batches_ok (S (Z.to_nat (Z.of_nat (length ds)))) (do_fix mode) (has_bit mode INSPECT_FAIL_ON_ERROR) (Z.of_nat (length ds)) b 0 (base * Z.of_nat ss) ds ts (Full 0 0 0 0 0 None 0 0) (sj_child s)) as (f & c' & E & Hrest);
        [done|by apply Hb|by rewrite decide_False|lia|by rewrite Z.mul_0_l, Z.add_0_r|done|done|]. rewrite set_child_same in E. rewrite Z.mul_0_l, Z.add_0_r in Hrest. by exists f, c'. }
  destruct Hrun as (f & c' & E & (Hfb & Hfl & Hfr) & Hrep). rewrite E. cbn [mbind res_bind]. cbn in Hfb, Hfl, Hfr. eexists _, f, c'. split; [done|]. split; [lia|]. split; [done|].
  pose proof (damaged_zero ds ts (Forall2_length _ _ _ Hall)) as [Hnn Hz]. unfold full_status. cbn [op_ok]. rewrite Hfl, Hfr, Hfb, Z.add_0_l. cbn [Z.gtb Z.compare orb]. rewrite <- Hz.
  destruct (do_fix mode); cbn [negb andb]; [rewrite andb_false_r; cbn; naive_solver|]. rewrite andb_true_r. destruct (Z.gtb_spec (damaged ds ts) 0); cbn; [split; [done|intros [?|?]; [done|lia]]|split; [intros _; right; lia|done]].
Qed.

End repair.

Section driver.
Context {matrix schedule : Type} `{Jerasure matrix schedule} (adler_init : Z) (adler32 : Z -> bytes -> Z).
Context {C : Type} `{Child C} (s : segjerase (matrix := matrix) (schedule := schedule) (C := C)) (code : list bytes -> Prop).
Abbreviation ss := (stripe_size_with_magic s).
Context (Hcode : mds (sj_plan s) (sj_chunk s) (n_devs s) (sj_parity_devs s) code) (Hck : sj_magic_cksum s <> 0) (HN : (0 < n_devs s)%nat).
Context (settle : C -> C) (work : list bytes) (Hwl : length work = sj_parity_devs s) (Hwork : long (sj_chunk s) work).
Context (content : C -> Z -> Z) (Hst : stores content) (arrive_f : list (op_status * full) -> list (op_status * full)).
Context (child_inspect : Z -> inspect_args -> C -> op_status * inspect_args * C).

(** The child is in order and knows no bad ranges. *)
Definition child_fine (mode : Z) (args : inspect_args) (c : C) : Prop :=
  exists code rows, child_inspect mode args (sj_child s) = (OpStatus true code, InspectArgs None rows, c) /\ Z.land code INSPECT_RESULT_COUNT_MASK = 0 /\ Z.land code INSPECT_RESULT_MIGRATE_ERROR = 0.

(** C13: A full inspection, without the options that fix read or write errors,
    of a segment with checksums, with a buffer for at least one stripe, whose
    child reports nothing bad and does what it is told, and whose stripes are
    empty or readable with a checksum other than 0, returns.  With repair it
    says success, all stripes are as they should be, and no other byte has
    changed; without repair nothing changes, and it says success if and only if
    there is nothing to repair.  A success clears the write errors. *)
Theorem segjerase_inspect_ok mode buf_size args c ds ts :
  1 < data_size s -> Z.of_nat ss <= buf_size -> Forall2 (repairable adler_init adler32 s code) ds ts ->
  child_fine mode args c -> child_size c = Z.of_nat (length ds * ss) -> stripes_at s content c 0 (length ds) = concat ds ->
  command mode = INSPECT_FULL_CHECK \/ command mode = INSPECT_FULL_REPAIR -> has_bit mode INSPECT_FIX_READ_ERROR = false -> has_bit mode INSPECT_FIX_WRITE_ERROR = false ->
  exists op s', segjerase_inspect adler_init adler32 settle work arrive_f child_inspect s mode buf_size args = Ok (Some (op, s')) /\
    repaired s content (do_fix mode) c (sj_child s') 0 ts /\ (op_ok op = true <-> do_fix mode = true \/ ds = ts) /\ (op_ok op = true -> sj_write_errors s' = 0).
Proof.
  intros Hds Hbuf Hall (ec & rows & Eci & Hmask & Hmig) Hsize Hc Hcmd Hfr Hfw. set (s1 := set_child c s).
  assert (Hsz : segjerase_size s1 = Ok (Z.of_nat (length ds) * data_size s)).
  { unfold segjerase_size. change (sj_child s1) with c. rewrite Hsize. unfold c_div. change (stripe_size_with_magic s1) with ss. change (data_size s1) with (data_size s).
    assert (0 < Z.of_nat ss) by (unfold stripe_size_with_magic, chunk_size_with_magic, JE_MAGIC_SIZE; nia). rewrite (proj2 (Z.eqb_neq _ _)) by lia. cbn [mbind res_bind]. by rewrite Nat2Z.inj_mul, Z.quot_mul by lia. }
  destruct (inspect_full_ok adler_init adler32 s1 code Hcode Hck HN settle work Hwl Hwork content Hst mode buf_size 0 (Z.of_nat (length ds) * data_size s) ds ts) as (op & f & c' & E & _ & Hrep & Hop).
  { change (data_size s1) with (data_size s). lia. }
  { done. }
  { by apply repairable_child. }
  { exact Hc. }
  { change (data_size s1) with (data_size s). rewrite Z.quot_div_nonneg by nia. symmetry. apply (Z.div_unique_pos _ _ _ 1); lia. }
  set (s2 := set_child c' s1) in *. set (d := Driver op 0 0 (f_bad f) (InspectArgs None rows)).
  assert (Edr : inspect_full_driver adler_init adler32 settle work child_inspect s1 mode buf_size (Driver (OpStatus true ec) 0 0 (-1) (InspectArgs None rows)) = Ok (d, full_done s2 (command mode) d)).
  { unfold inspect_full_driver, segjerase_remap_add_ranges. cbn [dr_args bad_ranges mbind res_bind]. rewrite Hsz. cbn [mbind res_bind]. cbn [full_loop]. rewrite Z.mul_0_l in E. rewrite E. cbn [mbind res_bind].
    unfold fixable. rewrite Hfr, Hfw. cbn [andb orb]. by destruct (op_ok op). }
  assert (Hend : inspect_end (full_done s2 (command mode) d) mode 0 d = d) by (unfold inspect_end; assert (E0 : (dr_max_replaced d >? Z.of_nat (sj_data_devs (full_done s2 (command mode) d))) = false) by (rewrite Z.gtb_ltb; apply Z.ltb_ge; apply Nat2Z.is_nonneg); by rewrite E0).
  exists op, (full_done s2 (command mode) d). split.
  - unfold segjerase_inspect, segjerase_inspect_func. rewrite Eci. cbn [error_code]. rewrite Hmask, Hmig. fold s1. rewrite Hsz. cbn [mbind res_bind]. unfold c_div. change (data_size s1) with (data_size s). rewrite (proj2 (Z.eqb_neq (data_size s) 0)) by lia. cbn [mbind res_bind negb op_ok andb orb Z.eqb].
    replace (command mode =? INSPECT_QUICK_REPAIR) with false by (destruct Hcmd as [-> | ->]; done). rewrite andb_false_r.
    replace ((INSPECT_QUICK_CHECK <=? command mode) && (command mode <=? INSPECT_FULL_REPAIR)) with true by (destruct Hcmd as [-> | ->]; done).
    replace ((command mode =? INSPECT_SCAN_CHECK) || (command mode =? INSPECT_SCAN_REPAIR)) with false by (destruct Hcmd as [-> | ->]; done).
    replace ((command mode =? INSPECT_FULL_CHECK) || (command mode =? INSPECT_FULL_REPAIR)) with true by (destruct Hcmd as [-> | ->]; done).
    rewrite Edr. cbn [mbind res_bind]. by rewrite Hend.
  - unfold full_done. split; [|split; [done|]].
    + rewrite Z.mul_0_l in Hrep. by destruct (op_ok (dr_status d)).
    + intros Hok. by rewrite (Hok : op_ok (dr_status d) = true).
Qed.

End driver.

(** ** Three copies, of which the first is lost *)

Definition memory_child : Child (Z -> Z) := {|
  child_readv _ vs c := (gop_success_status, concat ((fun v => c <$> seqZ v.1 v.2) <$> vs));
  child_writev _ vs c := (gop_success_status, foldl put c vs);
  child_truncate _ c := (gop_success_status, c);
  child_remove c := (gop_success_status, c);
  child_size _ := 54 |}.

Lemma memory_stores : stores (H0 := memory_child) id.
Proof. by split. Qed.

(** A stripe without data and two whose first device is lost. *)
Definition lossy_stripes : list bytes := [replicate 18 0; imap spoil (enc3 (word3 [1; 2])); imap spoil (enc3 (word3 [3; 4]))].
Definition lossy : segjerase := three_copies (put (fun _ => 0) (0, concat lossy_stripes)).

Lemma segjerase_inspect_ok_witness :
  exists op s', segjerase_inspect (H := copies_jerasure) (H0 := memory_child) 1 sum_cksum id [[0; 0]; [0; 0]] id (fun _ a c => (gop_success_status, a, c)) lossy INSPECT_FULL_REPAIR 40 (InspectArgs None []) = Ok (Some (op, s')) /\
    sj_child s' <$> seqZ 0 54 = replicate 18 0 ++ enc3 (word3 [1; 2]) ++ enc3 (word3 [3; 4]) /\ op_ok op = true.
Proof.
  destruct (segjerase_inspect_ok (H := copies_jerasure) (H0 := memory_child) 1 sum_cksum lossy (copies 2 3) (copies_mds 2 2) ltac:(done) ltac:(cbn; lia) id [[0; 0]; [0; 0]] eq_refl ltac:(by repeat constructor)
    id memory_stores id (fun _ a c => (gop_success_status, a, c)) INSPECT_FULL_REPAIR 40 (InspectArgs None []) (sj_child lossy) lossy_stripes [replicate 18 0; enc3 (word3 [1; 2]); enc3 (word3 [3; 4])]) as (op & s' & E & [Hrep _] & Hok & _);
    [done|done| |by exists 0, []|done|done|by right|done|done|].
  - constructor; [apply (rp_empty _ _ lossy)|]. constructor; [|constructor; [|constructor]]; (apply rp_word; [done|apply spoiled_readable, word3_copies|apply word3_copies|done]).
  - exists op, s'. split; [exact E|]. split; [|apply Hok; by left]. cbn [length concat] in Hrep. rewrite app_nil_r in Hrep. exact Hrep.
Defined.

(** ** Where inspections go wrong *)

Section wrong.
Context {matrix schedule : Type} `{Jerasure matrix schedule} (adler_init : Z) (adler32 : Z -> bytes -> Z).
Context {C : Type} `{Child C} (s : segjerase (matrix := matrix) (schedule := schedule) (C := C)).

(** With a buffer smaller than a stripe no batch has stripes, and the loop goes
    on for ever. *)
Lemma inspect_no_buffer settle work fuel fixing quick total stripe base f :
  sj_magic_cksum s <> 0 -> stripe < total -> f_repair f = 0 -> f_lost f = 0 ->
  inspect_batches adler_init adler32 settle work fuel s fixing quick total 0 stripe base f = Fault OutOfFuel.
Proof.
  intros Hck Ht. revert f. induction fuel as [|fuel IH]; intros f Hr Hl; [done|]. cbn [inspect_batches]. rewrite (proj2 (Z.ltb_lt _ _)) by done. rewrite Z.add_0_r.
  replace (stripe >? total) with false by lia. rewrite Z.sub_diag. change (Z.to_nat 0) with 0%nat. set (off := base + _).
  assert (Er : exists f', inspect_read adler_init adler32 work s fixing false 0 off f = Ok (f', Some ([], [])) /\ f_repair f' = 0 /\ f_lost f' = 0).
  { unfold inspect_read. destruct (child_read _ _ _ _) as [op data]. eexists. split; [done|]. by destruct (op_ok op). }
  destruct Er as (f' & Er & Hr' & Hl'). unfold inspect_batch. rewrite Er. cbn [mbind res_bind]. rewrite (proj2 (Z.eqb_neq _ _) Hck). cbn [andb mbind res_bind]. rewrite Hr', Hl'. by apply IH.
Qed.

(** The repair of a bad stripe from 2 GiB on overflows an [int]. *)
Lemma scan_overflow start i b sc :
  sc_start sc = Some b -> 2 ^ 31 <= (start + b) * data_size s -> scan_queue s true start i sc = Fault Overflow.
Proof.
  intros Hb Ho. unfold scan_queue. rewrite Hb. unfold int_of. assert (E : int32_ok ((start + b) * data_size s) = false) by (unfold int32_ok; lia). by rewrite E.
Qed.

End wrong.

(** Two devices lost everything, and with it the vote. *)
Definition outvoted : bytes := replicate 12 0 ++ [7; 7; 7; 7; 0; 0].

(** A stripe that is inspected again because of a later one is counted again:
    three of two. *)
Lemma retry_counts_twice :
  exists op f s', segjerase_inspect_full_func (H := copies_jerasure) (H0 := memory_child) 1 sum_cksum id [[0; 0]; [0; 0]]
    (three_copies (put (fun _ => 0) (0, imap spoil (enc3 (word3 [1; 2])) ++ outvoted))) INSPECT_FULL_CHECK 40 0 3 = Ok (op, f, s') /\ f_bad f = 3.
Proof. eexists _, _, _. vm_compute. split; reflexivity. Qed.

(** A scan with repair says what the last range said: the first one stays
    broken and it is a success. *)
Lemma scan_forgets :
  exists n s', segjerase_inspect_scan (H := copies_jerasure) (H0 := memory_child) 1 sum_cksum id [[0; 0]; [0; 0]] id
    (three_copies (put (fun _ => 0) (0, outvoted ++ enc3 (word3 [3; 4]) ++ imap spoil (enc3 (word3 [1; 2]))))) INSPECT_SCAN_REPAIR 40 = Ok (OpStatus true INSPECT_RESULT_FULL_CHECK, n, s') /\
    sj_child s' <$> seqZ 0 18 = outvoted.
Proof. eexists _, _. vm_compute. split; reflexivity. Qed.

(** Old magics, which are no checksums. *)
Definition old_stripe (x : bytes) : bytes := concat (replicate 3 ([9; 9; 9; 9] ++ x)).
Definition old_copies : segjerase := SegJerase (put (fun _ => 0) (0, old_stripe [1; 2] ++ old_stripe [3; 4])) (copies_plan 2) true 1000 0 0 0 1 2 0 2 1.

(** A repair of the range that the child reported turns checksums on for all
    stripes: an intact stripe, which could be read before, cannot be read. *)
Lemma partial_repair_converts :
  let read s := segjerase_read (H := copies_jerasure) (H0 := memory_child) 1 sum_cksum id [[0; 0]; [0; 0]] s None [(2, 2)] 0 [0; 0] in
  (exists s', read old_copies = Ok (Some (OpStatus true 0, [3; 4], s'))) /\
  exists d s', segjerase_inspect_func (H := copies_jerasure) (H0 := memory_child) 1 sum_cksum id [[0; 0]; [0; 0]] id (fun _ _ c => (gop_success_status, InspectArgs (Some [(0, 17)]) [], c))
      old_copies INSPECT_FULL_REPAIR 40 (InspectArgs None []) = Ok (d, s') /\ op_ok (dr_status d) = true /\ sj_magic_cksum s' = 1 /\
    exists d' s'', read s' = Ok (Some (OpStatus false 0, d', s'')).
Proof. split; [eexists; vm_compute; reflexivity|]. eexists _, _. split; [vm_compute; reflexivity|]. split; [done|]. split; [done|]. eexists _, _. vm_compute. reflexivity. Qed.
