(* ===== verification/SegLun.v ===== *)
(** * The striped segment ([lio/segment/lun.c])

    A striped segment is a run of rows.  A row has a block on each device and
    is cut into stripes of a chunk per device; from stripe to stripe the
    devices are shifted.  An interval index maps ranges of the file to rows.
    The allocations behind the blocks are a finite map of contents and sizes;
    [up] says which of them can be reached, [grants] which are allowed to
    grow, [blacklisted] which are to be avoided, and [rs_request] what the
    resource service answers.  The buffer is a function of the position.
    Offsets are unbounded integers; probing times, remapping of capabilities
    and the times that put a resource on the blacklist are left out. *)
From S2P Require Import Prelude IntervalIndex ByteSegment ErasureTools SegJerase.
Local Open Scope Z_scope.

(** [seglun_row_t]: the data blocks, with where their data starts. *)
Record seglun_row := Row {
  lr_block : list (nat * Z);
  lr_seg_offset : Z;
  lr_seg_end : Z;
  lr_block_len : Z;
  lr_row_len : Z }.

#[export] Instance seglun_row_eq_dec : EqDecision seglun_row.
Proof. solve_decision. Defined.

#[export] Instance seglun_row_range : HasRange seglun_row := { iv_lo := lr_seg_offset; iv_hi := lr_seg_end }.

(** [lio_seglun_priv_t], with the contents, sizes and recorded sizes of the
    allocations, the errors of each, and the number of the next one. *)
Record seglun_priv (M : Type) := SegLun {
  ln_isl : M;
  ln_used_size : Z;
  ln_total_size : Z;
  ln_max_block_size : Z;
  ln_excess_block_size : Z;
  ln_max_row_size : Z;
  ln_chunk_size : Z;
  ln_stripe_size : Z;
  ln_n_devices : nat;
  ln_n_shift : Z;
  ln_hard_errors : Z;
  ln_grow_break : bool;
  ln_depot : gmap nat (Z -> Z);
  ln_alloc : gmap nat Z;
  ln_max_size : gmap nat Z;
  ln_read_err : gmap nat Z;
  ln_write_err : gmap nat Z;
  ln_next : nat }.
Arguments SegLun {M}.
Arguments ln_isl {M}.
Arguments ln_used_size {M}.
Arguments ln_total_size {M}.
Arguments ln_max_block_size {M}.
Arguments ln_excess_block_size {M}.
Arguments ln_max_row_size {M}.
Arguments ln_chunk_size {M}.
Arguments ln_stripe_size {M}.
Arguments ln_n_devices {M}.
Arguments ln_n_shift {M}.
Arguments ln_hard_errors {M}.
Arguments ln_grow_break {M}.
Arguments ln_depot {M}.
Arguments ln_alloc {M}.
Arguments ln_max_size {M}.
Arguments ln_read_err {M}.
Arguments ln_write_err {M}.
Arguments ln_next {M}.

Section seglun.
Context {M : Type} `{!IntervalIndex M seglun_row}.
Implicit Types (s : seglun_priv M) (b : seglun_row).

(** ** What a row's devices have to do *)

(** [lun_rw_row_t]: the ranges in the allocation, the pieces of the buffer, and
    the number of bytes. *)
Record lun_rw := LunRw { rw_ex : list (Z * Z); rw_iov : list (Z * Z); rw_len : Z }.
Definition no_rw : lun_rw := LunRw [] [] 0.

(** What a device has in one call of [lun_row_decompose]. *)
Record dev_acc := DevAcc { da_offset : Z; da_len : Z; da_iov : list (Z * Z) }.

Definition chunk_step s (lo hi bpos ss stripe_shift stripe_off : Z) (i : nat) (a : dev_acc) : dev_acc :=
  let dev := Z.rem (Z.of_nat i + stripe_shift) (Z.of_nat (ln_n_devices s)) in
  let chunk_off := stripe_off + dev * ln_chunk_size s in
  let chunk_end := chunk_off + ln_chunk_size s - 1 in
  if (chunk_end >=? lo) && (chunk_off <=? hi) then
    let begin_ := if chunk_off <? lo then lo - chunk_off else 0 in
    let end_ := if chunk_end >? hi then hi - chunk_off else ln_chunk_size s - 1 in
    let nbytes := end_ - begin_ + 1 in
    DevAcc (if da_offset a =? -1 then ss * ln_chunk_size s + begin_ else da_offset a) (da_len a + nbytes)
      (da_iov a ++ [(bpos + chunk_off + begin_ - lo, nbytes)])
  else a.

Fixpoint stripe_loop (fuel : nat) s (lo hi bpos ss stripe_shift stripe_off : Z) (l : list dev_acc) : res (list dev_acc) :=
  match fuel with
  | O => Fault OutOfFuel
  | S fuel =>
    if stripe_off <=? hi then
      stripe_loop fuel s lo hi bpos (ss + 1) (stripe_shift + ln_n_shift s) (stripe_off + ln_stripe_size s) (imap (chunk_step s lo hi bpos ss stripe_shift stripe_off) l)
    else Ok l
  end.

Definition add_rw (rw : lun_rw) (a : dev_acc) : lun_rw :=
  LunRw (if da_offset a >=? 0 then rw_ex rw ++ [(da_offset a, da_len a)] else rw_ex rw) (rw_iov rw ++ da_iov a)
    (if da_offset a >=? 0 then rw_len rw + da_len a else rw_len rw).

(** [start] is relative to the row. *)
Definition lun_row_decompose s (rw_buf : list lun_rw) (start bpos rwlen : Z) : res (list lun_rw) :=
  let hi := start + rwlen - 1 in
  start_stripe ← c_div start (ln_stripe_size s);
  end_stripe ← c_div hi (ln_stripe_size s);
  l ← stripe_loop (S (Z.to_nat (end_stripe - start_stripe + 1))) s start hi bpos start_stripe (start_stripe * ln_n_shift s) (start_stripe * ln_stripe_size s)
        (replicate (ln_n_devices s) (DevAcc (-1) 0 []));
  Ok (zip_with add_rw rw_buf l).

(** ** The tables of an operation *)

(** [bused] and [rwb_table], with the sizes [isl_size] and of the table: at
    first the stack has 100 entries of each. *)
Record rw_table := RwTable { rt_rows : list (seglun_row * list lun_rw); rt_isl_size : Z; rt_size : Z }.
Definition rw_start : rw_table := RwTable [] 100 100.

Fixpoint row_index b (l : list (seglun_row * list lun_rw)) : option nat :=
  match l with [] => None | (b', _) :: l => if decide (b = b') then Some 0%nat else S <$> row_index b l end.

(** The slot of a row; a new one is cleared, after the tables were enlarged if
    there are no more slots. *)
Definition row_slot s b (t : rw_table) : res (nat * rw_table) :=
  match row_index b (rt_rows t) with
  | Some slot => Ok (slot, t)
  | None =>
    let slot := length (rt_rows t) in
    let n_bslots := Z.of_nat slot + 1 in
    let isl_size := if n_bslots >=? rt_isl_size t then rt_isl_size t * 3 / 2 + 10 else rt_isl_size t in
    let size := if n_bslots >=? rt_isl_size t then Z.of_nat (ln_n_devices s) * isl_size else rt_size t in
    if n_bslots * Z.of_nat (ln_n_devices s) <=? size
    then Ok (slot, RwTable (rt_rows t ++ [(b, replicate (ln_n_devices s) no_rw)]) isl_size size) else Fault OutOfBounds
  end.

Fixpoint plan_rows s (lo hi : Z) (bs : list seglun_row) (bpos : Z) (t : rw_table) : res (Z * rw_table) :=
  match bs with
  | [] => Ok (bpos, t)
  | b :: bs =>
    let start := if lo <=? lr_seg_offset b then 0 else lo - lr_seg_offset b in
    let end_ := if hi >=? lr_seg_end b then lr_row_len b - 1 else hi - lr_seg_offset b in
    let blen := end_ - start + 1 in
    '(slot, t) ← row_slot s b t;
    match rt_rows t !! slot with
    | None => Fault OutOfBounds
    | Some (_, rw_buf) =>
      rw_buf ← lun_row_decompose s rw_buf start bpos blen;
      plan_rows s lo hi bs (bpos + blen) (RwTable (<[slot := (b, rw_buf)]> (rt_rows t)) (rt_isl_size t) (rt_size t))
    end
  end.

Fixpoint plan_iov s (iov : list (Z * Z)) (bpos : Z) (t : rw_table) : res rw_table :=
  match iov with
  | [] => Ok t
  | (off, len) :: iov =>
    '(bpos, t) ← plan_rows s off (off + len - 1) (ix_search off (off + len - 1) (ln_isl s)) bpos t;
    plan_iov s iov bpos t
  end.

(** ** Running the operations *)

Context (up blacklisted : nat -> bool).

Definition lun_bytes (d : gmap nat (Z -> Z)) (i : nat) : Z -> Z := default (fun _ => 0) (d !! i).

(** The places in the allocation and in the buffer, byte by byte; with one
    piece of buffer there is one range. *)
Definition dev_places (rw : lun_rw) : list Z :=
  if decide (length (rw_iov rw) = 1%nat) then seqZ (from_option fst 0 (head (rw_ex rw))) (rw_len rw) else concat ((fun e => seqZ e.1 e.2) <$> rw_ex rw).
Definition buf_places (rw : lun_rw) : list Z := concat ((fun p => seqZ p.1 p.2) <$> rw_iov rw).

Definition assign {K : Type} `{EqDecision K} (f : K -> Z) (l : list (K * Z)) : K -> Z := foldl (fun f v x => if decide (x = v.1) then v.2 else f x) f l.

(** One device: whether it succeeded, the buffer and the contents.  A read that
    fails blanks its part of the buffer. *)
Definition run_dev (writing skip : bool) (i : nat) (rw : lun_rw) (buffer : Z -> Z) (d : gmap nat (Z -> Z)) : bool * (Z -> Z) * gmap nat (Z -> Z) :=
  if up i && negb skip then
    if writing then (true, buffer, <[i := assign (lun_bytes d i) (zip (dev_places rw) (buffer <$> buf_places rw))]> d)
    else (true, assign buffer (zip (buf_places rw) (lun_bytes d i <$> dev_places rw)), d)
  else (false, if writing then buffer else assign buffer ((fun p => (p, 0)) <$> buf_places rw), d).

(** Which of the devices of a row are skipped: those on the blacklist, but no
    more than [max]. *)
Fixpoint skips (max : Z) (l : list (nat * lun_rw)) (count : Z) : list bool :=
  match l with
  | [] => []
  | (i, rw) :: l =>
    match rw_ex rw with
    | [] => false :: skips max l count
    | _ => if blacklisted i && negb (count >=? max) then true :: skips max l (count + 1) else false :: skips max l count
    end
  end.

(** The devices of a row: the errors and the allocations that had them. *)
Fixpoint run_devs (writing : bool) (l : list (nat * lun_rw * bool)) (buffer : Z -> Z) (d : gmap nat (Z -> Z)) : list nat * (Z -> Z) * gmap nat (Z -> Z) :=
  match l with
  | [] => ([], buffer, d)
  | (i, rw, skip) :: l =>
    match rw_ex rw with
    | [] => run_devs writing l buffer d
    | _ =>
      let '(ok, buffer, d) := run_dev writing skip i rw buffer d in
      let '(errs, buffer, d) := run_devs writing l buffer d in
      (if ok then errs else i :: errs, buffer, d)
    end
  end.

(** All rows: the errors of each. *)
Fixpoint run_rows (writing : bool) (max : Z) (t : list (seglun_row * list lun_rw)) (buffer : Z -> Z) (d : gmap nat (Z -> Z)) : list (list nat) * (Z -> Z) * gmap nat (Z -> Z) :=
  match t with
  | [] => ([], buffer, d)
  | (b, rws) :: t =>
    let l := zip (lr_block b).*1 rws in
    let '(errs, buffer, d) := run_devs writing (zip l (skips max l 0)) buffer d in
    let '(rest, buffer, d) := run_rows writing max t buffer d in
    (errs :: rest, buffer, d)
  end.

Definition bump (l : list nat) (e : gmap nat Z) : gmap nat Z := foldl (fun e i => <[i := default 0 (e !! i) + 1]> e) e l.
Definition set_depot (d : gmap nat (Z -> Z)) (read_err write_err : gmap nat Z) s : seglun_priv M :=
  SegLun (ln_isl s) (ln_used_size s) (ln_total_size s) (ln_max_block_size s) (ln_excess_block_size s) (ln_max_row_size s) (ln_chunk_size s) (ln_stripe_size s) (ln_n_devices s) (ln_n_shift s)
    (ln_hard_errors s) (ln_grow_break s) d (ln_alloc s) (ln_max_size s) read_err write_err (ln_next s).

(** [hints]: no more devices of a row are skipped; none without hints. *)
Definition seglun_rw_op (hints : option Z) (iov : list (Z * Z)) (buffer : Z -> Z) (boff : Z) (writing : bool) s : res (op_status * (Z -> Z) * seglun_priv M) :=
  t ← plan_iov s iov boff rw_start;
  if forallb (fun r => forallb (fun rw => bool_decide (rw_ex rw = [])) r.2) (rt_rows t) then Ok (OpStatus false 0, buffer, s) else
  let '(errs, buffer, d) := run_rows writing (default 0 hints) (rt_rows t) buffer (ln_depot s) in
  let maxerr := foldl (fun m l => Z.max m (Z.of_nat (length l))) 0 errs in
  Ok (if maxerr =? 0 then gop_success_status else OpStatus false maxerr, buffer,
    if writing then set_depot d (ln_read_err s) (bump (concat errs) (ln_write_err s)) s else set_depot d (bump (concat errs) (ln_read_err s)) (ln_write_err s) s).

(** ** Growing *)

(** What becomes of the allocations: contents, sizes, recorded sizes, and the
    number of the next one. *)
Record sizes := Sizes { sz_depot : gmap nat (Z -> Z); sz_alloc : gmap nat Z; sz_max : gmap nat Z; sz_next : nat }.

(** Whether an allocation is allowed to grow to a size, and what the resource
    service answers in each round to a request for some devices of a row: no
    answer that helps, or which of them got an allocation. *)
Context (grants : nat -> Z -> bool) (rs_request : sizes -> nat -> list nat -> option (list bool)).

(** [slun_row_size_check]: the status of each block and the number of those
    that are missing or could not grow. *)
Definition size_block (block_len : Z) (blk : nat * Z) (st : Z) (z : sizes) : Z * Z * sizes :=
  let psize := if up blk.1 then default 0 (sz_alloc z !! blk.1) else 0 in
  let seg_size := blk.2 + block_len in
  if psize <? seg_size then
    if psize =? 0 then (1, 1, z)
    else if grants blk.1 seg_size then (2, 0, Sizes (sz_depot z) (<[blk.1 := seg_size]> (sz_alloc z)) (<[blk.1 := block_len]> (sz_max z)) (sz_next z))
    else (-2, 1, z)
  else (st, 0, z).

Fixpoint slun_row_size_check (block_len : Z) (blocks : list (nat * Z)) (status : list Z) (z : sizes) : list Z * Z * sizes :=
  match blocks, status with
  | blk :: blocks, st :: status =>
    let '(st, err, z) := size_block block_len blk st z in
    let '(l, n, z) := slun_row_size_check block_len blocks status z in
    (st :: l, err + n, z)
  | _, _ => ([], 0, z)
  end.

(** [slun_row_pad_fix]: a byte at the end of each block that has grown. *)
Definition pad_block (blk : nat * Z) (st : Z) (z : sizes) : Z * Z * sizes :=
  if st =? 2 then
    if up blk.1 then (0, 0, Sizes (<[blk.1 := overlay (blk.2 + default 0 (sz_max z !! blk.1) - 1) [0] (lun_bytes (sz_depot z) blk.1)]> (sz_depot z)) (sz_alloc z) (sz_max z) (sz_next z))
    else (3, 1, z)
  else if st =? -2 then (3, 1, z) else (st, 0, z).

Fixpoint slun_row_pad_fix (blocks : list (nat * Z)) (status : list Z) (z : sizes) : list Z * Z * sizes :=
  match blocks, status with
  | blk :: blocks, st :: status =>
    let '(st, err, z) := pad_block blk st z in
    let '(l, n, z) := slun_row_pad_fix blocks status z in
    (st :: l, err + n, z)
  | _, _ => ([], 0, z)
  end.

(** The blocks that got an allocation. *)
Fixpoint take_caps (block_len : Z) (missing : list nat) (caps : list bool) (blocks : list (nat * Z)) (status : list Z) (z : sizes) : list (nat * Z) * list Z * Z * sizes :=
  match missing, caps with
  | i :: missing, cap :: caps =>
    if (cap : bool) then
      let id := sz_next z in
      let blocks := alter (fun blk => (id, blk.2)) i blocks in
      let z := Sizes (<[id := fun _ => 0]> (sz_depot z)) (<[id := block_len]> (sz_alloc z)) (<[id := block_len]> (sz_max z)) (S id) in
      let '(blocks, status, n, z) := take_caps block_len missing caps blocks (<[i := 2]> status) z in
      (blocks, status, n + 1, z)
    else take_caps block_len missing caps blocks status z
  | _, _ => (blocks, status, 0, z)
  end.

(** [slun_row_replace_fix], at most 10000 rounds. *)
Fixpoint replace_rounds (rounds : nat) (round : nat) (block_len : Z) (blocks : list (nat * Z)) (status : list Z) (z : sizes) : list (nat * Z) * Z * sizes :=
  match rounds with
  | O => (blocks, 0, z)
  | S rounds =>
    let missing := filter (fun i => status !! i <> Some 0) (seq 0 (length blocks)) in
    let m := Z.of_nat (length missing) in
    match rs_request z round missing with
    | None => (blocks, m, z)
    | Some caps =>
      let '(blocks, status, n, z) := take_caps block_len missing caps blocks status z in
      let '(status, bad, z) := slun_row_pad_fix blocks status z in
      let err := m - n + bad in
      match rounds with
      | O => (blocks, err, z)
      | _ => if err >? 0 then replace_rounds rounds (S round) block_len blocks status z else (blocks, err, z)
      end
    end
  end.
Definition slun_row_replace_fix (block_len : Z) (blocks : list (nat * Z)) (status : list Z) (z : sizes) : list (nat * Z) * Z * sizes :=
  replace_rounds (Z.to_nat 10000) 0 block_len blocks status z.

Definition sizes_of s : sizes := Sizes (ln_depot s) (ln_alloc s) (ln_max_size s) (ln_next s).
Definition set_rows (m : M) (used total : Z) (z : sizes) s : seglun_priv M :=
  SegLun m used total (ln_max_block_size s) (ln_excess_block_size s) (ln_max_row_size s) (ln_chunk_size s) (ln_stripe_size s) (ln_n_devices s) (ln_n_shift s)
    (ln_hard_errors s) (ln_grow_break s) (sz_depot z) (sz_alloc z) (sz_max z) (ln_read_err s) (ln_write_err s) (sz_next z).

(** Sizes are rounded up to whole stripes. *)
Definition round_stripes s (size : Z) : res Z :=
  n ← c_div size (ln_stripe_size s);
  Ok (n * ln_stripe_size s + if Z.rem size (ln_stripe_size s) >? 0 then ln_stripe_size s else 0).

(** The last row is extended if it is not full: the index and where new rows
    start.  If padding fails the row keeps its length. *)
Definition grow_row (new_size : Z) s : res (M * Z * sizes) :=
  if (ln_total_size s >? 0) && negb (ln_grow_break s) then
    match ix_search (ln_total_size s - 1) (ln_total_size s) (ln_isl s) with
    | [] => Fault NullDeref
    | b :: _ =>
      if lr_row_len b <? ln_max_row_size s then
        let n := Z.of_nat (ln_n_devices s) in
        dsize ← c_div (new_size - lr_seg_offset b) n;
        more ← c_rem dsize (ln_chunk_size s);
        let dsize := dsize + more in
        let dsize := if dsize >? ln_max_block_size s then ln_max_block_size s else dsize in
        let '(status, _, z) := slun_row_size_check dsize (lr_block b) (replicate (ln_n_devices s) 0) (sizes_of s) in
        let '(berr, z) := if bool_decide (2 ∈ status) then let '(_, berr, z) := slun_row_pad_fix (lr_block b) status z in (berr, z) else (0, z) in
        let len := if berr >? 0 then lr_block_len b else dsize in
        let b' := Row (lr_block b) (lr_seg_offset b) (lr_seg_offset b + len * n - 1) len (len * n) in
        let z := if berr >? 0 then Sizes (sz_depot z) (sz_alloc z) (foldl (fun x blk => <[blk.1 := lr_block_len b]> x) (sz_max z) (lr_block b)) (sz_next z) else z in
        Ok (ix_insert b' (ix_remove b (ln_isl s)), lr_seg_end b' + 1, z)
      else Ok (ln_isl s, lr_seg_end b + 1, sizes_of s)
    end
  else Ok (ln_isl s, ln_total_size s, sizes_of s).

(** New rows: whether all were made. *)
Fixpoint grow_rows (fuel : nat) s (off new_size : Z) (m : M) (z : sizes) : res (bool * M * sizes) :=
  match fuel with
  | O => Fault OutOfFuel
  | S fuel =>
    if off <? new_size then
      let dsize := if off + ln_max_row_size s >? new_size then new_size - off else ln_max_row_size s in
      block_len ← c_div dsize (Z.of_nat (ln_n_devices s));
      let row_len := block_len * Z.of_nat (ln_n_devices s) in
      let '(blocks, err, z) := slun_row_replace_fix block_len (replicate (ln_n_devices s) (0%nat, 0)) (replicate (ln_n_devices s) 1) z in
      if err =? 0 then grow_rows fuel s (off + ln_max_row_size s) new_size (ix_insert (Row blocks off (off + row_len - 1) block_len row_len) m) z
      else Ok (false, m, z)
    else Ok (true, m, z)
  end.

(** [_seglun_grow]; a negative size reserves space. *)
Definition seglun_grow (new_size_arg : Z) s : res (bool * seglun_priv M) :=
  let new_size := if new_size_arg <? 0 then - new_size_arg else new_size_arg in
  if (new_size_arg <? 0) && (new_size <? ln_total_size s) then Ok (true, s) else
  new_size ← round_stripes s new_size;
  '(m, lo, z) ← grow_row new_size s;
  '(ok, m, z) ← grow_rows (S (S (Z.to_nat ((new_size - lo) / ln_max_row_size s)))) s lo new_size m z;
  Ok (ok, if (ok : bool) then set_rows m (if new_size_arg >? -1 then new_size else ln_used_size s) new_size z s else set_rows m (ln_used_size s) (ln_total_size s) z s).

(** ** Shrinking *)

Definition ds_remove_all (blocks : list (nat * Z)) (z : sizes) : sizes :=
  foldl (fun z blk => if up blk.1 then Sizes (delete blk.1 (sz_depot z)) (delete blk.1 (sz_alloc z)) (sz_max z) (sz_next z) else z) z blocks.
Definition ds_truncate_all (size : Z) (blocks : list (nat * Z)) (z : sizes) : sizes :=
  foldl (fun z blk => if up blk.1 then Sizes (<[blk.1 := fun x => if x <? size then lun_bytes (sz_depot z) blk.1 x else 0]> (sz_depot z)) (<[blk.1 := size]> (sz_alloc z)) (sz_max z) (sz_next z) else z) z blocks.
Definition all_up (bs : list seglun_row) : bool := forallb (fun b => forallb (fun blk => up blk.1) (lr_block b)) bs.

(** [_seglun_shrink]. *)
Definition seglun_shrink (new_used : Z) s : res (bool * seglun_priv M) :=
  new_size ← round_stripes s new_used;
  match ix_search new_size (ln_total_size s) (ln_isl s) with
  | [] => Ok (true, set_rows (ln_isl s) new_used new_size (sizes_of s) s)
  | b :: rest =>
    let dsize := new_size - lr_seg_offset b in
    let dropped := if dsize =? 0 then b :: rest else rest in
    block_size ← c_div dsize (Z.of_nat (ln_n_devices s));
    let z := foldl (fun z b => ds_remove_all (lr_block b) z) (if dsize =? 0 then sizes_of s else ds_truncate_all block_size (lr_block b) (sizes_of s)) dropped in
    let m := foldl (fun m b => ix_remove b m) (ln_isl s) (reverse dropped) in
    let m := if dsize =? 0 then m else ix_insert (Row (lr_block b) (lr_seg_offset b) (lr_seg_offset b + dsize - 1) block_size dsize) (ix_remove b m) in
    let z := if dsize =? 0 then z else Sizes (sz_depot z) (sz_alloc z) (foldl (fun x blk => <[blk.1 := block_size]> x) (sz_max z) (lr_block b)) (sz_next z) in
    Ok (all_up (b :: rest) || (new_size =? 0), set_rows m new_used new_size z s)
  end.

(** [_slun_truncate]. *)
Definition slun_truncate (new_size : Z) s : res (bool * seglun_priv M) :=
  if new_size <? 0 then seglun_grow new_size s
  else if ln_total_size s >? new_size then seglun_shrink new_size s
  else if ln_total_size s <? new_size then seglun_grow new_size s
  else Ok (true, s).

(** ** Reading and writing *)

Definition lun_extent (iov : list (Z * Z)) : Z := foldl (fun maxpos v => Z.max maxpos (v.1 + v.2 - 1)) 0 iov.

(** An access beyond the end makes a write grow the segment first, and a read
    fail. *)
Definition make_room (maxpos : Z) (writing : bool) s : res (bool * seglun_priv M) :=
  let new_size := maxpos + Z.of_nat (ln_n_devices s) * ln_excess_block_size s in
  if maxpos >=? ln_total_size s then
    if writing then if ln_total_size s <? new_size then slun_truncate (- new_size) s else Ok (true, s) else Ok (false, s)
  else Ok (true, s).

(** [seglun_rw_func]: writes grow the segment, reads do not go beyond it. *)
Definition seglun_rw_func (hints : option Z) (iov : list (Z * Z)) (buffer : Z -> Z) (boff : Z) (writing : bool) s : res (op_status * (Z -> Z) * seglun_priv M) :=
  let maxpos := lun_extent iov in
  let failed := OpStatus false (Z.of_nat (ln_n_devices s)) in
  '(ok, s) ← make_room maxpos writing s;
  if (ok : bool) then
    '(op, buffer, s) ← seglun_rw_op hints iov buffer boff writing s;
    let used := if writing && (ln_used_size s <=? maxpos) then maxpos + 1 else ln_used_size s in
    Ok (op, buffer, SegLun (ln_isl s) used (ln_total_size s) (ln_max_block_size s) (ln_excess_block_size s) (ln_max_row_size s) (ln_chunk_size s) (ln_stripe_size s) (ln_n_devices s) (ln_n_shift s)
      (if op_ok op then ln_hard_errors s else ln_hard_errors s + 1) (ln_grow_break s) (ln_depot s) (ln_alloc s) (ln_max_size s) (ln_read_err s) (ln_write_err s) (ln_next s))
  else Ok (failed, buffer, s).

Definition seglun_size s : Z := ln_used_size s.

(** [seglun_remove]: the allocations are removed, the rows stay. *)
Definition seglun_remove s : bool * seglun_priv M :=
  let rows := ix_list (ln_isl s) in
  (all_up rows, set_rows (ln_isl s) (ln_used_size s) (ln_total_size s) (foldl (fun z b => ds_remove_all (lr_block b) z) (sizes_of s) rows) s).

(** ** Where the bytes of a row are *)

(** A byte of a row is on one of its devices, at an offset of the block. *)
Definition row_dev s (r : Z) : Z := ((r mod ln_stripe_size s) / ln_chunk_size s - r / ln_stripe_size s * ln_n_shift s) mod Z.of_nat (ln_n_devices s).
Definition row_off s (r : Z) : Z := r / ln_stripe_size s * ln_chunk_size s + r mod ln_chunk_size s.

(** The layout: stripes of a chunk per device. *)
Record layout s : Prop := Layout {
  ly_devices : 0 < Z.of_nat (ln_n_devices s);
  ly_chunk : 0 < ln_chunk_size s;
  ly_stripe : ln_stripe_size s = Z.of_nat (ln_n_devices s) * ln_chunk_size s;
  ly_shift : 0 <= ln_n_shift s }.

(** Where the chunk of a device starts in a stripe. *)
Definition chunk_at s (t : Z) (i : nat) : Z := t * ln_stripe_size s + (Z.of_nat i + t * ln_n_shift s) mod Z.of_nat (ln_n_devices s) * ln_chunk_size s.

Lemma mod_shift (n i d a : Z) : 0 < n -> 0 <= i < n -> 0 <= d < n -> (d - a) mod n = i <-> (i + a) mod n = d.
Proof.
  intros Hn Hi Hd. split; intros <-.
  - rewrite Zplus_mod_idemp_l. replace (d - a + a) with d by lia. by apply Z.mod_small.
  - rewrite Zminus_mod_idemp_l. replace (i + a - a) with i by lia. by apply Z.mod_small.
Qed.

(** The positions of a list of ranges. *)
Definition flat (l : list (Z * Z)) : list Z := concat ((fun p => seqZ p.1 p.2) <$> l).

Lemma flat_cat l l' : flat (l ++ l') = flat l ++ flat l'.
Proof. unfold flat. by rewrite fmap_app, concat_app. Qed.

Lemma filter_seqZ (P : Z -> Prop) `{!forall r, Decision (P r)} (a b u v : Z) :
  a <= u <= v /\ v <= b -> (forall r, a <= r < b -> P r <-> u <= r < v) -> filter P (seqZ a (b - a)) = seqZ u (v - u).
Proof.
  intros Ha HP. replace (b - a) with ((u - a) + ((v - u) + (b - v))) by lia. rewrite !seqZ_app by lia.
  replace (a + (u - a)) with u by lia. replace (u + (v - u)) with v by lia. rewrite !filter_app.
  rewrite (filter_keeps P (seqZ u _)), !(filter_drops P); [by rewrite app_nil_r|..].
  all: intros r [Hr ?]%elem_of_seqZ; rewrite HP; lia.
Qed.

Lemma fmap_seqZ_shift (f : Z -> Z) u w m : (forall k, 0 <= k < m -> f (u + k) = w + k) -> f <$> seqZ u m = seqZ w m.
Proof.
  intros Hf. apply list_eq. intros k. rewrite list_lookup_fmap.
  destruct (decide (Z.of_nat k < m)); [|by rewrite !lookup_seqZ_ge by lia]. rewrite !lookup_seqZ_lt by lia. cbn. by rewrite Hf by lia.
Qed.

Lemma filter_partition {A} (f : A -> nat) n (l : list A) :
  filter (fun x => f x < n)%nat l ≡ₚ concat ((fun i => filter (fun x => f x = i) l) <$> seq 0 n).
Proof.
  induction n as [|n IH]; [by rewrite filter_drops by (intros; lia)|]. rewrite seq_S, fmap_app, concat_app, <- IH. cbn. rewrite app_nil_r. clear IH.
  induction l as [|x l IH]; [done|]. rewrite !filter_cons. destruct (decide (f x < n)%nat).
  - rewrite decide_True, decide_False by lia. cbn. by rewrite IH.
  - destruct (decide (f x = n)); [rewrite decide_True by lia|rewrite decide_False by lia; done]. rewrite IH. apply Permutation_middle.
Qed.

Lemma concat_seq_app {A} (f g : nat -> list A) l : concat ((fun i => f i ++ g i) <$> l) ≡ₚ concat (f <$> l) ++ concat (g <$> l).
Proof. induction l as [|i l IH]; [done|]. cbn. rewrite IH. solve_Permutation. Qed.

Lemma zip_with_seq {A B D} `{!Inhabited A, !Inhabited B} (f : A -> B -> D) l k n :
  length l = n -> length k = n -> zip_with f l k = (fun i => f (l !!! i) (k !!! i)) <$> seq 0 n.
Proof.
  intros <- Hk. apply list_eq. intros i. rewrite lookup_zip_with, list_lookup_fmap.
  destruct (decide (i < length l)%nat) as [Hi|Hi].
  - destruct (lookup_lt_is_Some_2 l i Hi) as [x Hx], (lookup_lt_is_Some_2 k i ltac:(lia)) as [y Hy].
    rewrite lookup_seq_lt by done. cbn. by rewrite (list_lookup_total_correct l i x), (list_lookup_total_correct k i y), Hx, Hy.
  - by rewrite (lookup_ge_None_2 l), (lookup_ge_None_2 (seq _ _)) by (rewrite ?length_seq; lia).
Qed.

#[export] Instance lun_rw_inhabited : Inhabited lun_rw := populate no_rw.

Section layout.
Context s (L : layout s).
#[local] Abbreviation n := (Z.of_nat (ln_n_devices s)).
#[local] Abbreviation c := (ln_chunk_size s).

Lemma stripe_pos : 0 < ln_stripe_size s.
Proof using L. destruct L as [? ? -> ?]. lia. Qed.

Lemma stripe_split r : 0 <= r -> exists t d o, r = t * ln_stripe_size s + d * c + o /\ 0 <= t /\ 0 <= d < n /\ 0 <= o < c /\
  r / ln_stripe_size s = t /\ (r mod ln_stripe_size s) / c = d /\ r mod c = o.
Proof using L.
  intros Hr. pose proof stripe_pos as HS. destruct L as [Hn Hc HL Hsh].
  pose proof (Z.div_mod r (ln_stripe_size s) ltac:(lia)) as E1. pose proof (Z.mod_pos_bound r (ln_stripe_size s) HS) as B1.
  set (m := r mod ln_stripe_size s) in *. set (t := r / ln_stripe_size s) in *.
  pose proof (Z.div_mod m c ltac:(lia)) as E2. pose proof (Z.mod_pos_bound m c Hc) as B2.
  exists t, (m / c), (m mod c). split_and!; try done; try lia.
  - by apply Z.div_pos.
  - apply Z.div_pos; lia.
  - apply Z.div_lt_upper_bound; [lia|]. lia.
  - rewrite E1, HL. replace (n * c * t + m) with (m + (n * t) * c) by ring. by rewrite Z.mod_add by lia.
Qed.

Lemma stripe_join t d o : 0 <= d < n -> 0 <= o < c ->
  (t * ln_stripe_size s + d * c + o) / ln_stripe_size s = t /\ ((t * ln_stripe_size s + d * c + o) mod ln_stripe_size s) / c = d /\ (t * ln_stripe_size s + d * c + o) mod c = o.
Proof using L.
  intros Hd Ho. pose proof stripe_pos as HS. destruct L as [Hn Hc HL Hsh].
  assert (B : 0 <= d * c + o < ln_stripe_size s) by nia.
  replace (t * ln_stripe_size s + d * c + o) with (d * c + o + t * ln_stripe_size s) by ring.
  rewrite Z.div_add, Z.mod_add by lia. rewrite Z.div_small, Z.mod_small by done.
  split_and!; [lia|rewrite Z.div_add_l, Z.div_small by lia; lia|].
  rewrite HL. replace (d * c + o + t * (n * c)) with (o + (d + t * n) * c) by ring. rewrite Z.mod_add by lia. by apply Z.mod_small.
Qed.

Lemma row_dev_bound r : 0 <= row_dev s r < n.
Proof using L. apply Z.mod_pos_bound, L. Qed.

Lemma chunk_at_bound t i : t * ln_stripe_size s <= chunk_at s t i /\ chunk_at s t i + c <= (t + 1) * ln_stripe_size s.
Proof using L.
  destruct L as [Hn Hc HL Hsh]. unfold chunk_at. pose proof (Z.mod_pos_bound (Z.of_nat i + t * ln_n_shift s) n Hn). nia.
Qed.

(** In a stripe, the bytes of a device are its chunk. *)
Lemma row_dev_chunk t i r :
  (i < ln_n_devices s)%nat -> 0 <= t -> t * ln_stripe_size s <= r < (t + 1) * ln_stripe_size s ->
  row_dev s r = Z.of_nat i <-> chunk_at s t i <= r < chunk_at s t i + c.
Proof using L.
  intros Hi Ht Hr. pose proof stripe_pos as HS. destruct (stripe_split r) as (t' & d & o & E & Ht' & Hd & Ho & E1 & E2 & _); [nia|].
  assert (t' = t) as -> by (rewrite <- E1; symmetry; apply (Z.div_unique_pos _ _ _ (r - t * ln_stripe_size s)); lia).
  unfold row_dev, chunk_at. rewrite E1, E2, mod_shift by (lia || apply L).
  set (e := (Z.of_nat i + t * ln_n_shift s) mod n). clearbody e. pose proof (ly_chunk s L) as Hc. split; [intros ->; lia|]. intros B.
  assert (e * c < (d + 1) * c /\ d * c < (e + 1) * c) as [B1 B2] by lia. apply Z.mul_lt_mono_pos_r in B1, B2; lia.
Qed.

(** There the offsets in the block go up with the bytes. *)
Lemma row_off_chunk t i r : 0 <= t -> chunk_at s t i <= r < chunk_at s t i + c -> row_off s r = t * c + (r - chunk_at s t i).
Proof using L.
  intros Ht Hr. unfold chunk_at in *. set (d := (Z.of_nat i + t * ln_n_shift s) mod n) in *.
  destruct (stripe_join t d (r - (t * ln_stripe_size s + d * c))) as (E1 & _ & E3); [apply Z.mod_pos_bound, L|lia|].
  replace (t * ln_stripe_size s + d * c + _) with r in E1, E3 by lia. unfold row_off. by rewrite E1, E3.
Qed.

(** No two bytes share a place. *)
Lemma row_place_inj r r' : 0 <= r -> 0 <= r' -> row_dev s r = row_dev s r' -> row_off s r = row_off s r' -> r = r'.
Proof using L.
  intros Hr Hr' Hd Ho. pose proof (ly_devices s L) as Hn. pose proof (ly_chunk s L) as Hc.
  destruct (stripe_split r) as (t & d & o & E & Ht & Bd & Bo & E1 & E2 & E3); [done|].
  destruct (stripe_split r') as (t' & d' & o' & E' & Ht' & Bd' & Bo' & E1' & E2' & E3'); [done|].
  unfold row_dev, row_off in *. rewrite E1, E2, E1', E2' in Hd. rewrite E1, E3, E1', E3' in Ho.
  assert (t = t' /\ o = o') as [-> ->] by (apply (Z.div_mod_unique c); lia).
  apply (mod_shift n _ d (t' * ln_n_shift s)) in Hd; [|done|by apply Z.mod_pos_bound|done].
  rewrite Zplus_mod_idemp_l in Hd. replace (d' - t' * ln_n_shift s + t' * ln_n_shift s) with d' in Hd by lia. rewrite Z.mod_small in Hd by done. lia.
Qed.

(** The bytes of a device in a range of the row. *)
Definition dev_part (i : nat) (lo x : Z) : list Z := filter (fun r => row_dev s r = Z.of_nat i) (seqZ lo (x - lo)).

Lemma dev_part_app i lo x y : lo <= x <= y -> dev_part i lo y = dev_part i lo x ++ dev_part i x y.
Proof using. intros. unfold dev_part. replace (y - lo) with ((x - lo) + (y - x)) by lia. rewrite seqZ_app, filter_app by lia. by replace (lo + (x - lo)) with x by lia. Qed.

(** Within a stripe. *)
Lemma dev_part_stripe t i x y :
  (i < ln_n_devices s)%nat -> 0 <= t -> t * ln_stripe_size s <= x <= y -> y <= (t + 1) * ln_stripe_size s ->
  let u := Z.max x (chunk_at s t i) in let v := Z.min y (chunk_at s t i + c) in
  dev_part i x y = if decide (u < v) then seqZ u (v - u) else [].
Proof using L.
  intros Hi Ht Hx Hy u v. unfold dev_part. destruct (decide (u < v)) as [Huv|Huv].
  - apply filter_seqZ; [subst u v; lia|]. intros r Hr. rewrite (row_dev_chunk t) by (done || lia). subst u v. lia.
  - rewrite (filter_seqZ _ x y x x); [by rewrite Z.sub_diag|lia|]. intros r Hr. rewrite (row_dev_chunk t) by (done || lia). subst u v. lia.
Qed.

(** What a device has after the bytes up to [x]. *)
Record dev_done (i : nat) (lo bpos x : Z) (a : dev_acc) : Prop := DevDone {
  dd_iov : flat (da_iov a) = (fun r => bpos + (r - lo)) <$> dev_part i lo x;
  dd_pieces : Forall (fun p => 0 < p.2) (da_iov a);
  dd_range : da_offset a = -1 /\ da_len a = 0 /\ da_iov a = [] \/
    0 <= da_offset a /\ 0 < da_len a /\ da_iov a <> [] /\ seqZ (da_offset a) (da_len a) = row_off s <$> dev_part i lo x }.

Lemma row_off_seqZ t i u v : 0 <= t -> chunk_at s t i <= u -> v <= chunk_at s t i + c -> row_off s <$> seqZ u (v - u) = seqZ (t * c + (u - chunk_at s t i)) (v - u).
Proof using L.
  intros Ht Hu Hv. apply fmap_seqZ_shift. intros k Hk. rewrite (row_off_chunk t i) by lia. lia.
Qed.

Lemma chunk_dev t i : 0 <= t -> t * ln_stripe_size s + Z.rem (Z.of_nat i + t * ln_n_shift s) n * c = chunk_at s t i.
Proof using L. intros Ht. destruct L. unfold chunk_at. by rewrite Z.rem_mod_nonneg by nia. Qed.

(** One stripe. *)
Lemma chunk_step_ok t i lo hi bpos a :
  (i < ln_n_devices s)%nat -> 0 <= t -> lo < (t + 1) * ln_stripe_size s -> t * ln_stripe_size s <= hi -> lo <= hi ->
  dev_done i lo bpos (Z.max lo (t * ln_stripe_size s)) a -> (da_offset a <> -1 -> da_offset a + da_len a = t * c /\ lo <= t * ln_stripe_size s) ->
  let a' := chunk_step s lo hi bpos t (t * ln_n_shift s) (t * ln_stripe_size s) i a in
  let y := Z.min (hi + 1) ((t + 1) * ln_stripe_size s) in
  dev_done i lo bpos y a' /\ (da_offset a' <> -1 -> (t + 1) * ln_stripe_size s <= hi -> da_offset a' + da_len a' = (t + 1) * c /\ lo <= (t + 1) * ln_stripe_size s).
Proof using L.
  intros Hi Ht Hlo Hhi Hlh [Hiov Hp Hr] Hk a' y. pose proof stripe_pos as HS. pose proof (ly_chunk s L) as Hc. pose proof (chunk_at_bound t i) as Hb.
  assert (Hpart : dev_part i lo y = dev_part i lo (Z.max lo (t * ln_stripe_size s)) ++
    if decide (Z.max lo (chunk_at s t i) < Z.min (hi + 1) (chunk_at s t i + c)) then seqZ (Z.max lo (chunk_at s t i)) (Z.min (hi + 1) (chunk_at s t i + c) - Z.max lo (chunk_at s t i)) else []).
  { rewrite (dev_part_app i lo (Z.max lo (t * ln_stripe_size s)) y) by lia. f_equal. rewrite (dev_part_stripe t) by lia.
    replace (Z.max (Z.max lo (t * ln_stripe_size s)) (chunk_at s t i)) with (Z.max lo (chunk_at s t i)) by lia.
    by replace (Z.min y (chunk_at s t i + c)) with (Z.min (hi + 1) (chunk_at s t i + c)) by lia. }
  subst a'. unfold chunk_step. rewrite chunk_dev by done. set (k := chunk_at s t i) in *. set (u := Z.max lo k) in *. set (v := Z.min (hi + 1) (k + c)) in *.
  destruct ((k + c - 1 >=? lo) && (k <=? hi)) eqn:E; breflect.
  - rewrite decide_True in Hpart by lia.
    replace (if k <? lo then lo - k else 0) with (u - k) by (case_match; breflect; lia).
    replace (if k + c - 1 >? hi then hi - k else c - 1) with (v - 1 - k) by (case_match; breflect; lia).
    replace (v - 1 - k - (u - k) + 1) with (v - u) by lia. replace (bpos + k + (u - k) - lo) with (bpos + (u - lo)) by lia.
    assert (Hrow : row_off s <$> seqZ u (v - u) = seqZ (t * c + (u - k)) (v - u)) by (apply row_off_seqZ; lia).
    split; cbn [da_offset da_len].
    + destruct Hr as [(Ho & Hl & Hn)|(Ho & Hl & Hn & Hs)]; constructor; cbn [da_iov da_offset da_len].
      1,4: rewrite flat_cat, Hiov, Hpart, fmap_app; f_equal; unfold flat; cbn; rewrite app_nil_r; symmetry; apply fmap_seqZ_shift; intros; lia.
      1,3: apply Forall_app; split; [done|]; apply Forall_singleton; cbn; lia.
      * right. rewrite Hn in *. symmetry in Hiov. apply fmap_nil_inv in Hiov. rewrite Hpart, Hiov, Ho, Hl. cbn. rewrite Hrow. split_and!; [nia|lia|done|done].
      * right. replace (da_offset a =? -1) with false by lia. destruct (Hk ltac:(lia)) as [Hk1 Hk2]. split_and!; [lia|lia|by destruct (da_iov a)|].
        rewrite seqZ_app, Hs, Hpart, fmap_app, Hrow by lia. do 2 f_equal. lia.
    + intros _ Hm. destruct Hr as [(-> & -> & Hn)|(Ho & Hl & Hn & Hs)]; cbn; [lia|].
      replace (da_offset a =? -1) with false by lia. destruct (Hk ltac:(lia)) as [Hk1 Hk2]. lia.
  - rewrite decide_False, app_nil_r in Hpart by lia. split; [constructor; by rewrite ?Hpart|]. intros Ha Hm. apply Hk in Ha. lia.
Qed.
(** All stripes. *)
Lemma stripe_loop_ok lo hi bpos fuel t l :
  (0 < fuel)%nat -> 0 <= t -> lo <= hi -> lo < (t + 1) * ln_stripe_size s -> hi < (t + Z.of_nat fuel - 1) * ln_stripe_size s -> length l = ln_n_devices s ->
  (forall i a, l !! i = Some a -> dev_done i lo bpos (Z.min (hi + 1) (Z.max lo (t * ln_stripe_size s))) a /\
    (da_offset a <> -1 -> t * ln_stripe_size s <= hi -> da_offset a + da_len a = t * c /\ lo <= t * ln_stripe_size s)) ->
  exists l', stripe_loop fuel s lo hi bpos t (t * ln_n_shift s) (t * ln_stripe_size s) l = Ok l' /\ length l' = ln_n_devices s /\
    forall i a, l' !! i = Some a -> dev_done i lo bpos (hi + 1) a.
Proof using L.
  pose proof stripe_pos as HS. revert t l. induction fuel as [|fuel IH]; intros t l H0 Ht Hlh Hlo Hf Hl Hinv; [lia|].
  cbn [stripe_loop]. destruct (t * ln_stripe_size s <=? hi) eqn:E; breflect.
  - replace (t * ln_n_shift s + ln_n_shift s) with ((t + 1) * ln_n_shift s) by ring. replace (t * ln_stripe_size s + ln_stripe_size s) with ((t + 1) * ln_stripe_size s) by ring.
    apply IH; [nia|lia|lia|lia|lia|by rewrite length_imap|]. intros i a Hi. rewrite list_lookup_imap in Hi. apply fmap_Some in Hi as (a0 & Hi & ->).
    destruct (Hinv i a0 Hi) as [Hd Hk]. replace (Z.min (hi + 1) (Z.max lo (t * ln_stripe_size s))) with (Z.max lo (t * ln_stripe_size s)) in Hd by lia.
    apply lookup_lt_Some in Hi. rewrite Hl in Hi.
    replace (Z.min (hi + 1) (Z.max lo ((t + 1) * ln_stripe_size s))) with (Z.min (hi + 1) ((t + 1) * ln_stripe_size s)) by lia. apply chunk_step_ok; auto.
  - exists l. split_and!; [done|done|]. intros i a Hi. destruct (Hinv i a Hi) as [Hd _]. by replace (Z.min _ _) with (hi + 1) in Hd by lia.
Qed.

(** What has been gathered for a device: places in the block and the buffer. *)
Record rw_ok (rw : lun_rw) : Prop := RwOk {
  ro_len : Z.of_nat (length (flat (rw_ex rw))) = rw_len rw;
  ro_same : length (flat (rw_ex rw)) = length (flat (rw_iov rw));
  ro_count : (length (rw_ex rw) <= length (rw_iov rw))%nat;
  ro_pieces : Forall (fun p => 0 < p.2) (rw_iov rw) }.
Definition rw_moves (rw : lun_rw) : list (Z * Z) := zip (flat (rw_ex rw)) (flat (rw_iov rw)).

Lemma no_rw_ok : rw_ok no_rw.
Proof using. by constructor. Qed.

Lemma dev_places_flat rw : rw_ok rw -> dev_places rw = flat (rw_ex rw).
Proof using.
  intros [Hl Hs Hc Hp]. unfold dev_places. destruct (decide _) as [E|]; [|done].
  destruct (rw_iov rw) as [|[p m] [|]]; try done. rewrite Forall_singleton in Hp. cbn in Hp.
  unfold flat in *. destruct (rw_ex rw) as [|[o k] [|]]; cbn in *; rewrite ?app_nil_r in *; rewrite ?length_seqZ in *; try lia.
  f_equal. lia.
Qed.

Lemma add_rw_ok i lo bpos x rw a : rw_ok rw -> dev_done i lo bpos x a ->
  rw_ok (add_rw rw a) /\ rw_moves (add_rw rw a) = rw_moves rw ++ ((fun r => (row_off s r, bpos + (r - lo))) <$> dev_part i lo x).
Proof using.
  intros [Hl Hs Hc Hp] [Di Dp Dr]. unfold add_rw, rw_moves. destruct Dr as [(Ho & Hz & Hn)|(Ho & Hz & Hn & Hr)].
  - rewrite Hn in *. symmetry in Di. apply fmap_nil_inv in Di. rewrite Di, Ho. cbn. rewrite !app_nil_r. by split; [constructor|].
  - replace (da_offset a >=? 0) with true by lia. cbn [rw_ex rw_iov].
    assert (Hf : flat [(da_offset a, da_len a)] = row_off s <$> dev_part i lo x) by (unfold flat; cbn; by rewrite app_nil_r).
    assert (Hfl : length (flat [(da_offset a, da_len a)]) = Z.to_nat (da_len a)) by (unfold flat; cbn; by rewrite app_nil_r, length_seqZ).
    split.
    + constructor; cbn [rw_ex rw_iov rw_len]; rewrite ?flat_cat, ?length_app, ?Hfl; [lia| |destruct (da_iov a); cbn; [done|lia]|by apply Forall_app].
      rewrite Hs, <- Hfl, Hf, Di. by rewrite !length_fmap.
    + rewrite !flat_cat, zip_with_app by done. f_equal. rewrite Hf, Di. by rewrite zip_with_fmap_l, zip_with_fmap_r, zip_with_diag.
Qed.

Definition dev_moves (i : nat) (start bpos rwlen : Z) : list (Z * Z) := (fun r => (row_off s r, bpos + (r - start))) <$> dev_part i start (start + rwlen).

Lemma lun_row_decompose_ok rw_buf start bpos rwlen :
  0 <= start -> 0 < rwlen -> length rw_buf = ln_n_devices s -> Forall rw_ok rw_buf ->
  exists rws, lun_row_decompose s rw_buf start bpos rwlen = Ok rws /\ length rws = ln_n_devices s /\ Forall rw_ok rws /\
    forall i, (i < ln_n_devices s)%nat -> rw_moves (rws !!! i) = rw_moves (rw_buf !!! i) ++ dev_moves i start bpos rwlen.
Proof using L.
  intros Hs Hr Hl Hok. pose proof stripe_pos as HS. unfold lun_row_decompose, c_div. replace (ln_stripe_size s =? 0) with false by lia. cbn [mbind res_bind].
  rewrite !Z.quot_div_nonneg by lia. set (t := start / ln_stripe_size s). set (hi := start + rwlen - 1). set (e := hi / ln_stripe_size s).
  pose proof (Z.div_mod start (ln_stripe_size s) ltac:(lia)) as E1. pose proof (Z.mod_pos_bound start (ln_stripe_size s) HS) as B1.
  pose proof (Z.div_mod hi (ln_stripe_size s) ltac:(lia)) as E2. pose proof (Z.mod_pos_bound hi (ln_stripe_size s) HS) as B2.
  fold t in E1. fold e in E2. assert (0 <= t) by (apply Z.div_pos; lia). assert (t <= e) by (apply Z.div_le_mono; lia).
  destruct (stripe_loop_ok start hi bpos (S (Z.to_nat (e - t + 1))) t (replicate (ln_n_devices s) (DevAcc (-1) 0 []))) as (l & -> & Hll & Hd); [lia..|by rewrite length_replicate| |].
  { intros i a [-> Hi]%lookup_replicate. split; [|done]. constructor; cbn; [|constructor|by left].
    unfold dev_part. by replace (Z.min _ _ - start) with 0 by lia. }
  cbn [mbind res_bind]. eexists. split; [done|]. split; [rewrite length_zip_with; lia|].
  assert (Hi : forall i rw a, rw_buf !! i = Some rw -> l !! i = Some a -> rw_ok (add_rw rw a) /\ rw_moves (add_rw rw a) = rw_moves rw ++ dev_moves i start bpos rwlen).
  { intros i rw a Hi Ha. unfold dev_moves. replace (start + rwlen) with (hi + 1) by lia. apply add_rw_ok; [|by apply Hd]. by eapply Forall_lookup_1. }
  split.
  - apply Forall_lookup. intros i x (rw & a & -> & ? & ?)%lookup_zip_with_Some. by eapply Hi.
  - intros i Hin. destruct (lookup_lt_is_Some_2 rw_buf i ltac:(lia)) as [rw Hrw], (lookup_lt_is_Some_2 l i ltac:(lia)) as [a Ha].
    rewrite (list_lookup_total_correct rw_buf i rw), (list_lookup_total_correct _ i (add_rw rw a)); [by eapply Hi|by rewrite lookup_zip_with, Hrw, Ha|done].
Qed.

(** The bytes moved between allocations and the buffer. *)
Definition moves_of (ids : list nat) (rws : list lun_rw) : list (nat * Z * Z) :=
  concat (zip_with (fun id rw => (fun m => (id, m.1, m.2)) <$> rw_moves rw) ids rws).

Lemma decompose_moves ids rw_buf rws start bpos rwlen :
  0 <= rwlen -> length ids = ln_n_devices s -> length rw_buf = ln_n_devices s -> length rws = ln_n_devices s ->
  (forall i, (i < ln_n_devices s)%nat -> rw_moves (rws !!! i) = rw_moves (rw_buf !!! i) ++ dev_moves i start bpos rwlen) ->
  moves_of ids rws ≡ₚ moves_of ids rw_buf ++ ((fun r => (ids !!! Z.to_nat (row_dev s r), row_off s r, bpos + (r - start))) <$> seqZ start rwlen).
Proof using L.
  intros Hr Hi Hb Hw Hm. unfold moves_of. rewrite !(zip_with_seq _ _ _ (ln_n_devices s)) by done.
  set (place := fun r : Z => (ids !!! Z.to_nat (row_dev s r), row_off s r, bpos + (r - start))).
  rewrite (list_fmap_ext _ (fun i => ((fun m => (ids !!! i, m.1, m.2)) <$> rw_moves (rw_buf !!! i)) ++ (place <$> filter (fun r => Z.to_nat (row_dev s r) = i) (seqZ start rwlen)))).
  - rewrite concat_seq_app. apply Permutation_app_head. trans (place <$> concat ((fun i => filter (fun r => Z.to_nat (row_dev s r) = i) (seqZ start rwlen)) <$> seq 0 (ln_n_devices s))).
    + clear. induction (seq 0 (ln_n_devices s)) as [|i l IH]; [done|]. cbn. by rewrite fmap_app, IH.
    + apply fmap_Permutation. rewrite <- filter_partition, filter_keeps; [done|]. intros r _. pose proof (row_dev_bound r). lia.
  - intros k i [-> Hk]%lookup_seq. rewrite Hm by done. cbn [Nat.add]. rewrite fmap_app. f_equal. unfold dev_moves, dev_part. replace (start + rwlen - start) with rwlen by lia.
    rewrite <- list_fmap_compose. subst place. rewrite (filter_iff_in _ (fun r => Z.to_nat (row_dev s r) = k)) by (intros r _; pose proof (row_dev_bound r); lia).
    apply list_fmap_ext. intros j r Hj. apply list_elem_of_lookup_2, list_elem_of_filter in Hj as [<- _]. done.
Qed.
End layout.

(** ** Well-formed segments *)

Record row_ok s b : Prop := RowOk {
  rk_offset : 0 <= lr_seg_offset b;
  rk_block : 0 < lr_block_len b;
  rk_len : lr_row_len b = lr_block_len b * Z.of_nat (ln_n_devices s);
  rk_end : lr_seg_end b = lr_seg_offset b + lr_row_len b - 1;
  rk_devices : length (lr_block b) = ln_n_devices s }.

Definition row_ids b : list nat := (lr_block b).*1.

(** The rows cover the file, and no two blocks share an allocation. *)
Record lun_wf s : Prop := LunWf {
  lu_layout : layout s;
  lu_index : ix_ok (ln_isl s);
  lu_row b : b ∈ ix_list (ln_isl s) -> row_ok s b;
  lu_cover x : 0 <= x < ln_total_size s -> exists b, b ∈ ix_list (ln_isl s) /\ inside b x;
  lu_ids : NoDup (concat (row_ids <$> ix_list (ln_isl s))) }.

(** Where a byte of the file is: the allocation and the offset in it. *)
Definition row_place s b (x : Z) : nat * Z := (row_ids b !!! Z.to_nat (row_dev s (x - lr_seg_offset b)), row_off s (x - lr_seg_offset b)).
Definition lun_place s (x : Z) : nat * Z := match ix_search x x (ln_isl s) with b :: _ => row_place s b x | [] => (0%nat, 0) end.

(** The file. *)
Definition lun_view s (x : Z) : Z := lun_bytes (ln_depot s) (lun_place s x).1 (lun_place s x).2.

Context `{!IntervalIndexLaws M seglun_row}.

Lemma lun_place_at s b x : ix_ok (ln_isl s) -> b ∈ ix_list (ln_isl s) -> inside b x -> lun_place s x = row_place s b x.
Proof using IntervalIndexLaws0.
  intros Hok Hb Hx. unfold lun_place.
  assert (Hin : b ∈ ix_search x x (ln_isl s)) by (apply ix_search_elem; [done|left; lia|]; unfold overlaps, inside in *; split; [lia|done]).
  destruct (ix_search x x (ln_isl s)) as [|b' l] eqn:E; [by apply not_elem_of_nil in Hin|].
  assert (Hin' : b' ∈ ix_search x x (ln_isl s)) by (rewrite E; by left).
  apply ix_search_elem in Hin' as [Ho Hb']; [|done|left; lia].
  by rewrite (ix_disjoint _ b' b x Hok Hb' Hb) by (done || (unfold overlaps, inside in *; lia)).
Qed.

(** ** The plan *)

Definition table_moves (rows : list (seglun_row * list lun_rw)) : list (nat * Z * Z) := concat ((fun r => moves_of (row_ids r.1) r.2) <$> rows).

Section plan.
Context s (W : lun_wf s).

(** The moves of a row are those of the bytes of the file in it. *)
Lemma row_moves_file b p bpos len :
  b ∈ ix_list (ln_isl s) -> lr_seg_offset b <= p -> p + len - 1 <= lr_seg_end b ->
  (fun r => (row_ids b !!! Z.to_nat (row_dev s r), row_off s r, bpos + (r - (p - lr_seg_offset b)))) <$> seqZ (p - lr_seg_offset b) len =
  (fun x => (lun_place s x, bpos + (x - p))) <$> seqZ p len.
Proof using W IntervalIndexLaws0.
  intros Hb Hp Hl. apply list_eq. intros k. rewrite !list_lookup_fmap. destruct (decide (Z.of_nat k < len)); [|by rewrite !lookup_seqZ_ge by lia].
  rewrite !lookup_seqZ_lt by lia. cbn. rewrite (lun_place_at s b) by (done || apply W || (unfold inside; cbn; lia)). unfold row_place.
  replace (p + Z.of_nat k - lr_seg_offset b) with (p - lr_seg_offset b + Z.of_nat k) by lia. do 2 f_equal. lia.
Qed.

(** What a list of ranges asks for, from a position of the buffer on. *)
Definition iov_moves (iov : list (Z * Z)) (bpos : Z) : list (nat * Z * Z) := zip (lun_place s <$> flat iov) (seqZ bpos (Z.of_nat (length (flat iov)))).

Lemma iov_moves_cons off len iov bpos : 0 <= len ->
  iov_moves ((off, len) :: iov) bpos = ((fun x => (lun_place s x, bpos + (x - off))) <$> seqZ off len) ++ iov_moves iov (bpos + len).
Proof using.
  intros Hl. unfold iov_moves. change (flat ((off, len) :: iov)) with (seqZ off len ++ flat iov).
  rewrite length_app, length_seqZ, Nat2Z.inj_add, Z2Nat.id by done. rewrite seqZ_app, fmap_app by lia.
  rewrite zip_with_app by (by rewrite length_fmap, !length_seqZ). f_equal.
  rewrite <- (fmap_seqZ_shift (fun x => bpos + (x - off)) off bpos len) by (intros; lia). by rewrite zip_with_fmap_l, zip_with_fmap_r, zip_with_diag.
Qed.

Definition in_file (iov : list (Z * Z)) : Prop := Forall (fun v => 0 <= v.1 /\ 0 < v.2 /\ v.1 + v.2 <= ln_total_size s) iov.

(** The rows [touched] fit in the table of the stack. *)
Context (touched : list seglun_row) (Hfit : Z.of_nat (length touched) * Z.of_nat (ln_n_devices s) <= 100) (Hin : forall b, b ∈ touched -> b ∈ ix_list (ln_isl s)).

Record table_ok (t : rw_table) : Prop := TableOk {
  tk_rows : NoDup (rt_rows t).*1;
  tk_row b rws : (b, rws) ∈ rt_rows t -> b ∈ touched /\ length rws = ln_n_devices s /\ Forall rw_ok rws;
  tk_size : (length (rt_rows t) < 100)%nat -> rt_isl_size t = 100 /\ rt_size t = 100 }.

Lemma row_index_some b rows k : row_index b rows = Some k -> exists rws, rows !! k = Some (b, rws).
Proof using.
  revert k. induction rows as [|[b' rws] rows IH]; intros k; cbn; [done|]. destruct (decide _) as [<-|]; [intros [= <-]; by exists rws|].
  intros (k' & Hk & ->)%fmap_Some. by apply IH.
Qed.

Lemma row_index_none b rows : row_index b rows = None -> b ∉ rows.*1.
Proof using.
  induction rows as [|[b' rws] rows IH]; cbn; [intros _; apply not_elem_of_nil|]. destruct (decide _); [done|]. intros H%fmap_None. apply not_elem_of_cons. auto.
Qed.

Lemma moves_of_none ids n : moves_of ids (replicate n no_rw) = [].
Proof using. unfold moves_of. revert n. induction ids as [|i ids IH]; intros [|n]; [done..|]. cbn. apply IH. Qed.

Lemma row_slot_ok b t : table_ok t -> b ∈ touched ->
  exists k t' rws, row_slot s b t = Ok (k, t') /\ rt_rows t' !! k = Some (b, rws) /\ table_ok t' /\ table_moves (rt_rows t') = table_moves (rt_rows t).
Proof using W Hfit.
  intros [Hn Hr Hz] Hb. pose proof (ly_devices s (lu_layout s W)) as Hd. unfold row_slot. destruct (row_index b (rt_rows t)) as [k|] eqn:E.
  - apply row_index_some in E as [rws Hk]. by exists k, t, rws.
  - apply row_index_none in E. assert (Hlt : (S (length (rt_rows t)) <= length touched)%nat).
    { assert (Hsub : b :: (rt_rows t).*1 ⊆+ touched).
      { apply NoDup_submseteq; [by constructor|]. intros b' [->|([? rws] & -> & H)%list_elem_of_fmap]%elem_of_cons; [done|]. by apply Hr in H as [? _]. }
      apply submseteq_length in Hsub. cbn in Hsub. by rewrite length_fmap in Hsub. }
    destruct (Hz ltac:(nia)) as [-> ->]. set (k := length (rt_rows t)) in *.
    pose proof (Z.mul_le_mono_nonneg_r (Z.of_nat k + 1) (Z.of_nat (length touched)) (Z.of_nat (ln_n_devices s)) ltac:(lia) ltac:(lia)) as Hm.
    assert (Hok : Z.of_nat k + 1 < 100 \/ Z.of_nat k + 1 = 100 /\ Z.of_nat (ln_n_devices s) = 1) by nia.
    set (new := (b, replicate (ln_n_devices s) no_rw)).
    assert (Hnew : forall iz sz, (Z.of_nat k + 1 < 100 -> iz = 100 /\ sz = 100) -> table_ok (RwTable (rt_rows t ++ [new]) iz sz)).
    { intros iz sz Hs. constructor; cbn [rt_rows rt_isl_size rt_size].
      - rewrite fmap_app. cbn. apply NoDup_app. split_and!; [done| |apply NoDup_singleton]. intros b' Hb' ->%list_elem_of_singleton. done.
      - intros b' rws [H|H%list_elem_of_singleton]%elem_of_app; [by apply Hr|]. injection H as -> ->.
        split_and!; [done|apply length_replicate|by apply Forall_replicate, no_rw_ok].
      - rewrite length_app. cbn. intros. apply Hs. lia. }
    assert (Hmv : table_moves (rt_rows t ++ [new]) = table_moves (rt_rows t)).
    { unfold table_moves. rewrite fmap_app, concat_app. cbn. by rewrite moves_of_none, !app_nil_r. }
    exists k. destruct Hok as [Hok|[Hk Hd1]].
    + replace (Z.of_nat k + 1 >=? 100) with false by lia. rewrite (proj2 (Z.leb_le _ _)) by lia. eexists _, _. split; [done|]. cbn [rt_rows].
      split_and!; [by rewrite lookup_app_r, Nat.sub_diag|by apply Hnew|done].
    + replace (Z.of_nat k + 1 >=? 100) with true by lia. rewrite (proj2 (Z.leb_le _ _)) by (rewrite Hk, Hd1; by vm_compute). eexists _, _. split; [done|]. cbn [rt_rows].
      split_and!; [by rewrite lookup_app_r, Nat.sub_diag|apply Hnew; lia|done].
Qed.

Lemma table_moves_update rows k b rws rws' new :
  rows !! k = Some (b, rws) -> moves_of (row_ids b) rws' ≡ₚ moves_of (row_ids b) rws ++ new -> table_moves (<[k := (b, rws')]> rows) ≡ₚ table_moves rows ++ new.
Proof using.
  intros Hk Hm. rewrite insert_take_drop by (by eapply lookup_lt_Some). rewrite <- (take_drop_middle rows k (b, rws) Hk) at 3.
  unfold table_moves. rewrite !fmap_app, !concat_app. cbn. rewrite Hm. solve_Permutation.
Qed.

Lemma table_ok_update t k b rws rws' :
  table_ok t -> rt_rows t !! k = Some (b, rws) -> length rws' = ln_n_devices s -> Forall rw_ok rws' ->
  table_ok (RwTable (<[k := (b, rws')]> (rt_rows t)) (rt_isl_size t) (rt_size t)).
Proof using.
  intros [Hn Hr Hz] Hk Hl Ho. constructor; cbn [rt_rows rt_isl_size rt_size].
  - rewrite list_fmap_insert, list_insert_id; [done|]. cbn. by rewrite list_lookup_fmap, Hk.
  - intros b' rws'' [j Hj]%list_elem_of_lookup. apply list_lookup_insert_Some in Hj as [(_ & [= <- <-] & _)|[_ Hj]]; [|by eapply Hr, list_elem_of_lookup_2].
    split; [|done]. by eapply Hr, list_elem_of_lookup_2.
  - by rewrite length_insert.
Qed.

(** The rows of one range. *)
Lemma plan_rows_ok lo hi p bs bpos t :
  table_ok t -> covering lo hi p bs -> (forall b, b ∈ bs -> b ∈ touched) ->
  exists t', plan_rows s lo hi bs bpos t = Ok (bpos + Z.max 0 (hi + 1 - p), t') /\ table_ok t' /\
    table_moves (rt_rows t') ≡ₚ table_moves (rt_rows t) ++ ((fun x => (lun_place s x, bpos + (x - p))) <$> seqZ p (hi + 1 - p)).
Proof using All.
  revert p bpos t. induction bs as [|b bs IH]; intros p bpos t Hok Hc Hb; cbn in Hc.
  { exists t. rewrite (Z.max_l 0), Z.add_0_r, seqZ_nil, app_nil_r by lia. done. }
  destruct Hc as (Hp & Hph & Hpe & Hc). assert (Hbt : b ∈ touched) by (apply Hb; by left). destruct (lu_row s W b (Hin b Hbt)) as [Ro Rb Rl Re Rd].
  cbn [plan_rows]. set (blen := Z.min hi (lr_seg_end b) - p + 1).
  replace (if lo <=? lr_seg_offset b then 0 else lo - lr_seg_offset b) with (p - lr_seg_offset b) by (case_match; breflect; lia).
  replace ((if hi >=? lr_seg_end b then lr_row_len b - 1 else hi - lr_seg_offset b) - (p - lr_seg_offset b) + 1) with blen by (subst blen; case_match; breflect; lia).
  destruct (row_slot_ok b t Hok Hbt) as (k & t1 & rws & -> & Hk & Hok1 & Hm1). cbn [mbind res_bind]. rewrite Hk.
  destruct (tk_row t1 Hok1 b rws) as (_ & Hl & Ho); [by eapply list_elem_of_lookup_2|].
  destruct (lun_row_decompose_ok s (lu_layout s W) rws (p - lr_seg_offset b) bpos blen) as (rws' & -> & Hl' & Ho' & Hm'); [lia|lia|done|done|].
  cbn [mbind res_bind]. destruct (IH (lr_seg_end b + 1) (bpos + blen) (RwTable (<[k := (b, rws')]> (rt_rows t1)) (rt_isl_size t1) (rt_size t1))) as (t' & Ht' & Hok' & Hmv).
  { by eapply table_ok_update. } { done. } { intros b' Hb'. apply Hb. by right. }
  rewrite Ht'. exists t'. split; [do 2 f_equal; lia|]. split; [done|]. rewrite Hmv. cbn [rt_rows].
  apply (decompose_moves s (lu_layout s W) (row_ids b)) in Hm'; [|lia|by unfold row_ids; rewrite length_fmap|done|done].
  rewrite (table_moves_update _ _ _ _ _ _ Hk Hm'), Hm1, <- app_assoc. apply Permutation_app_head.
  rewrite row_moves_file by (lia || by apply Hin). replace (hi + 1 - p) with (blen + (hi + 1 - p - blen)) by lia. rewrite seqZ_app, fmap_app by lia.
  apply Permutation_app_head. destruct (decide (lr_seg_end b <= hi)).
  - replace (lr_seg_end b + 1) with (p + blen) by lia. replace (hi + 1 - (p + blen)) with (hi + 1 - p - blen) by lia.
    apply Permutation_refl', list_fmap_ext. intros. f_equal. lia.
  - by rewrite !seqZ_nil by lia.
Qed.

Lemma plan_iov_ok iov bpos t :
  table_ok t -> in_file iov -> (forall v b, v ∈ iov -> b ∈ ix_search v.1 (v.1 + v.2 - 1) (ln_isl s) -> b ∈ touched) ->
  exists t', plan_iov s iov bpos t = Ok t' /\ table_ok t' /\ table_moves (rt_rows t') ≡ₚ table_moves (rt_rows t) ++ iov_moves iov bpos.
Proof using All.
  unfold in_file. revert bpos t. induction iov as [|[off len] iov IH]; intros bpos t Hok Hf Hs; cbn [plan_iov].
  { exists t. by rewrite app_nil_r. }
  apply Forall_cons in Hf as [(Ho & Hl & Ht) Hf]. cbn in Ho, Hl, Ht.
  destruct (plan_rows_ok off (off + len - 1) off (ix_search off (off + len - 1) (ln_isl s)) bpos t) as (t1 & -> & Hok1 & Hm1); [done| | |].
  { apply ix_search_covering; [apply W|lia|]. intros x Hx. apply W. lia. }
  { intros b Hb. apply (Hs (off, len)); [by left|done]. }
  cbn [mbind res_bind]. destruct (IH (bpos + Z.max 0 (off + len - 1 + 1 - off)) t1) as (t' & -> & Hok' & Hm'); [done|done|intros v b Hv; apply Hs; by right|].
  exists t'. split_and!; [done|done|]. rewrite Hm', Hm1, <- app_assoc, iov_moves_cons by lia.
  replace (off + len - 1 + 1 - off) with len by lia. by rewrite Z.max_r by lia.
Qed.
End plan.

(** ** The execution *)

Lemma assign_app {K} `{EqDecision K} (f : K -> Z) l l' : assign f (l ++ l') = assign (assign f l) l'.
Proof. unfold assign. by rewrite foldl_app. Qed.

Lemma assign_out {K} `{EqDecision K} (f : K -> Z) l k : k ∉ l.*1 -> assign f l k = f k.
Proof.
  induction l as [|[k' v] l IH] using rev_ind; intros Hk; [done|]. rewrite fmap_app in Hk. cbn in Hk. rewrite assign_app. cbn.
  rewrite decide_False by set_solver. apply IH. set_solver.
Qed.

Lemma assign_in {K} `{EqDecision K} (f : K -> Z) l k v : NoDup l.*1 -> (k, v) ∈ l -> assign f l k = v.
Proof.
  induction l as [|[k' v'] l IH] using rev_ind; intros Hn Hk; [by apply not_elem_of_nil in Hk|]. rewrite fmap_app in Hn. apply NoDup_app in Hn as (Hn & Hd & _).
  rewrite assign_app. cbn. apply elem_of_app in Hk as [Hk|[= -> ->]%list_elem_of_singleton]; [|by rewrite decide_True].
  rewrite decide_False; [by apply IH|]. intros ->. apply (Hd k'); [|by left]. apply list_elem_of_fmap. by exists (k', v).
Qed.

Lemma assign_ext {K} `{EqDecision K} (f g : K -> Z) l k : f k = g k -> assign f l k = assign g l k.
Proof. intros Hk. induction l as [|[k' v] l IH] using rev_ind; [done|]. rewrite !assign_app. cbn. by case_decide. Qed.

Lemma assign_pair (F : nat * Z -> Z) (v : Z * Z -> Z) i l j o :
  assign F ((fun m => ((i, m.1), v m)) <$> l) (j, o) = if decide (j = i) then assign (fun o => F (i, o)) ((fun m => (m.1, v m)) <$> l) o else F (j, o).
Proof.
  induction l as [|m l IH] using rev_ind; [cbn; by destruct (decide _) as [->|]|]. rewrite !fmap_app, !assign_app. cbn. rewrite IH.
  destruct (decide (j = i)) as [->|]; [|by rewrite decide_False by congruence]. destruct (decide (o = m.1)) as [->|]; [by rewrite decide_True|]. by rewrite decide_False by congruence.
Qed.

Lemma lun_bytes_insert d i f j : lun_bytes (<[i := f]> d) j = if decide (j = i) then f else lun_bytes d j.
Proof. unfold lun_bytes. destruct (decide (j = i)) as [->|]; [by rewrite lookup_insert_eq|by rewrite lookup_insert_ne]. Qed.

(** The devices of rows, which of them are lost, and what they move. *)
Definition row_entries (max : Z) (r : seglun_row * list lun_rw) : list (nat * lun_rw * bool) := let l := zip (row_ids r.1) r.2 in zip l (skips max l 0).
Definition lost_entry (e : nat * lun_rw * bool) : bool := bool_decide (rw_ex e.1.2 <> []) && negb (up e.1.1 && negb e.2).
Definition lost_of (l : list (nat * lun_rw * bool)) : list nat := (fun e => e.1.1) <$> filter (fun e => lost_entry e = true) l.
Definition entry_moves (l : list (nat * lun_rw * bool)) : list (nat * Z * Z) := concat ((fun e => (fun m => (e.1.1, m.1, m.2)) <$> rw_moves e.1.2) <$> l).
Definition tells (lost : list nat) (l : list (nat * lun_rw * bool)) : Prop :=
  forall e, e ∈ l -> rw_ok e.1.2 /\ (rw_ex e.1.2 <> [] -> e.1.1 ∈ lost <-> lost_entry e = true).

Definition read_of (d : gmap nat (Z -> Z)) (lost : list nat) (m : nat * Z * Z) : Z * Z := (m.2, if decide (m.1.1 ∈ lost) then 0 else lun_bytes d m.1.1 m.1.2).

Lemma zip_swap {A B D} (g : A -> D) (l : list A) (k : list B) : zip k (g <$> l) = (fun m => (m.2, g m.1)) <$> zip l k.
Proof. revert k. induction l as [|x l IH]; intros [|y k]; [done..|]. cbn. f_equal. apply IH. Qed.

Lemma zip_keep {A B D} (g : B -> D) (l : list A) (k : list B) : zip l (g <$> k) = (fun m => (m.1, g m.2)) <$> zip l k.
Proof. revert k. induction l as [|x l IH]; intros [|y k]; [done..|]. cbn. f_equal. apply IH. Qed.

Lemma run_dev_read lost i rw skip buffer d :
  rw_ok rw -> rw_ex rw <> [] -> (i ∈ lost <-> lost_entry (i, rw, skip) = true) ->
  run_dev false skip i rw buffer d = (negb (lost_entry (i, rw, skip)), assign buffer (read_of d lost <$> ((fun m => (i, m.1, m.2)) <$> rw_moves rw)), d).
Proof.
  intros Hok Hne Hl. unfold run_dev, lost_entry in *. cbn in *. rewrite bool_decide_eq_true_2 in * by done. cbn in *. rewrite <- list_fmap_compose.
  rewrite dev_places_flat by done. change (buf_places rw) with (flat (rw_iov rw)). pose proof (ro_same rw Hok) as Hs. unfold rw_moves, read_of.
  destruct (up i && negb skip); cbn in *.
  - do 3 f_equal. rewrite zip_swap. apply list_fmap_ext. intros k [o p] _. cbn. by rewrite decide_False by naive_solver.
  - do 3 f_equal. rewrite <- (snd_zip (flat (rw_ex rw)) (flat (rw_iov rw))) at 1 by lia. rewrite <- list_fmap_compose.
    apply list_fmap_ext. intros k [o p] _. cbn. by rewrite decide_True by naive_solver.
Qed.

Lemma run_devs_read lost l buffer d : tells lost l -> run_devs false l buffer d = (lost_of l, assign buffer (read_of d lost <$> entry_moves l), d).
Proof.
  revert buffer. induction l as [|[[i rw] skip] l IH]; intros buffer Ht; [done|]. cbn [run_devs].
  destruct (Ht (i, rw, skip) ltac:(by left)) as [Hok Hl]. cbn in Hok, Hl. assert (Htl : tells lost l) by (intros e He; apply Ht; by right).
  unfold lost_of, entry_moves. rewrite filter_cons. cbn [fmap list_fmap concat]. rewrite fmap_app, assign_app. destruct (rw_ex rw) as [|v ex] eqn:E.
  - rewrite IH by done. unfold lost_entry, rw_moves. cbn. rewrite E. done.
  - rewrite <- E in *. rewrite (run_dev_read lost) by (done || (rewrite ?E; done) || (apply Hl; by rewrite E)). rewrite IH by done. cbn.
    destruct (lost_entry (i, rw, skip)); by cbn.
Qed.
Definition kept (lost : list nat) (buffer : Z -> Z) (ms : list (nat * Z * Z)) : list (nat * Z * Z) := (fun m => (m.1, buffer m.2)) <$> filter (fun m => m.1.1 ∉ lost) ms.

Lemma run_dev_write lost i rw skip buffer d :
  rw_ok rw -> rw_ex rw <> [] -> (i ∈ lost <-> lost_entry (i, rw, skip) = true) ->
  exists d', run_dev true skip i rw buffer d = (negb (lost_entry (i, rw, skip)), buffer, d') /\
    forall j o, lun_bytes d' j o = assign (fun k => lun_bytes d k.1 k.2) (kept lost buffer ((fun m => (i, m.1, m.2)) <$> rw_moves rw)) (j, o).
Proof.
  intros Hok Hne Hl. unfold run_dev, lost_entry in *. cbn in *. rewrite bool_decide_eq_true_2 in * by done. cbn in *.
  rewrite dev_places_flat by done. change (buf_places rw) with (flat (rw_iov rw)). unfold kept. destruct (up i && negb skip); cbn in *; eexists; (split; [done|]); intros j o.
  - rewrite filter_keeps by (intros m (m' & -> & _)%list_elem_of_fmap; cbn; naive_solver). rewrite <- list_fmap_compose, lun_bytes_insert.
    etrans; [|symmetry; exact (assign_pair _ (fun m => buffer m.2) i (rw_moves rw) j o)]. destruct (decide (j = i)) as [->|]; [|done]. cbn. unfold rw_moves.
    by rewrite zip_keep.
  - by rewrite filter_drops by (intros m (m' & -> & _)%list_elem_of_fmap; cbn; naive_solver).
Qed.

Lemma run_devs_write lost l buffer d : tells lost l ->
  exists d', run_devs true l buffer d = (lost_of l, buffer, d') /\ forall j o, lun_bytes d' j o = assign (fun k => lun_bytes d k.1 k.2) (kept lost buffer (entry_moves l)) (j, o).
Proof.
  revert d. induction l as [|[[i rw] skip] l IH]; intros d Ht; [by exists d|]. cbn [run_devs].
  destruct (Ht (i, rw, skip) ltac:(by left)) as [Hok Hl]. cbn in Hok, Hl. assert (Htl : tells lost l) by (intros e He; apply Ht; by right).
  unfold lost_of, entry_moves. rewrite filter_cons. cbn [fmap list_fmap concat]. unfold kept. rewrite filter_app, fmap_app, assign_app. destruct (rw_ex rw) as [|v ex] eqn:E.
  - destruct (IH d Htl) as (d' & -> & Hd). exists d'. unfold lost_entry, rw_moves. cbn. rewrite E. done.
  - rewrite <- E in *. destruct (run_dev_write lost i rw skip buffer d) as (d1 & -> & Hd1); [done|by rewrite E|apply Hl; by rewrite E|].
    destruct (IH d1 Htl) as (d' & -> & Hd). exists d'. split; [by destruct (lost_entry (i, rw, skip))|].
    intros j o. rewrite Hd. apply assign_ext. apply Hd1.
Qed.

Lemma run_devs_app writing l l' buffer d :
  run_devs writing (l ++ l') buffer d =
  let '(errs, buffer, d) := run_devs writing l buffer d in let '(errs', buffer, d) := run_devs writing l' buffer d in (errs ++ errs', buffer, d).
Proof.
  revert buffer d. induction l as [|[[i rw] skip] l IH]; intros buffer d; cbn [run_devs app]; [by destruct (run_devs writing l' buffer d) as [[? ?] ?]|].
  destruct (rw_ex rw); [apply IH|]. destruct (run_dev writing skip i rw buffer d) as [[ok b1] d1]. rewrite IH.
  destruct (run_devs writing l b1 d1) as [[errs b2] d2], (run_devs writing l' b2 d2) as [[errs' b3] d3]. by destruct ok.
Qed.

Lemma run_devs_lost writing l buffer d : (run_devs writing l buffer d).1.1 = lost_of l.
Proof.
  revert buffer d. induction l as [|[[i rw] skip] l IH]; intros buffer d; [done|]. cbn [run_devs]. unfold lost_of. rewrite filter_cons.
  assert (El : lost_entry (i, rw, skip) = bool_decide (rw_ex rw <> []) && negb (up i && negb skip)) by done.
  destruct (rw_ex rw) as [|v ex]; [rewrite El; cbn; apply IH|]. rewrite bool_decide_eq_true_2 in El by done. rewrite El. unfold run_dev.
  destruct (up i && negb skip); destruct writing; cbn; by rewrite (surjective_pairing (run_devs _ l _ _)), (surjective_pairing (run_devs _ l _ _).1), IH.
Qed.

(** The rows are run like one. *)
Lemma run_rows_devs writing max rows buffer d :
  let '(errs, b1, d1) := run_devs writing (concat (row_entries max <$> rows)) buffer d in
  run_rows writing max rows buffer d = ((fun r => lost_of (row_entries max r)) <$> rows, b1, d1).
Proof.
  revert buffer d. induction rows as [|[b rws] rows IH]; intros buffer d; [done|]. cbn [fmap list_fmap concat run_rows]. rewrite run_devs_app.
  change (zip (zip (lr_block b).*1 rws) (skips max (zip (lr_block b).*1 rws) 0)) with (row_entries max (b, rws)).
  pose proof (run_devs_lost writing (row_entries max (b, rws)) buffer d) as Hl.
  destruct (run_devs writing (row_entries max (b, rws)) buffer d) as [[errs b1] d1]. cbn in Hl. subst errs.
  specialize (IH b1 d1). destruct (run_devs writing (concat (row_entries max <$> rows)) b1 d1) as [[errs' b2] d2]. by rewrite IH.
Qed.
(** ** An operation *)

Lemma concat_fmap_perm {A B} (f : A -> list B) l k : l ≡ₚ k -> concat (f <$> l) ≡ₚ concat (f <$> k).
Proof. induction 1; cbn; [done|by f_equiv|solve_Permutation|by etrans]. Qed.

Lemma elem_of_concat_fmap {A B} (f : A -> list B) l x : x ∈ concat (f <$> l) <-> exists a, a ∈ l /\ x ∈ f a.
Proof.
  induction l as [|a l IH]; cbn; [split; [by intros ?%not_elem_of_nil|by intros (? & ?%not_elem_of_nil & _)]|].
  rewrite elem_of_app, IH. setoid_rewrite elem_of_cons. naive_solver.
Qed.

Lemma concat_nodup_inj {A B} (f : A -> list B) l a a' x : NoDup (concat (f <$> l)) -> a ∈ l -> a' ∈ l -> x ∈ f a -> x ∈ f a' -> a = a'.
Proof.
  intros Hn Ha Ha' Hx Hx'. induction l as [|a0 l IH]; [by apply not_elem_of_nil in Ha|]. cbn in Hn. apply NoDup_app in Hn as (_ & Hd & Hn).
  assert (Hc : forall a, a ∈ l -> x ∈ f a -> x ∈ concat (f <$> l)) by (intros a1 H1 H2; apply elem_of_concat_fmap; eauto).
  apply elem_of_cons in Ha as [->|Ha], Ha' as [->|Ha']; [done|exfalso..|by apply IH].
  - exact (Hd x Hx (Hc a' Ha' Hx')).
  - exact (Hd x Hx' (Hc a Ha Hx)).
Qed.

Lemma nodup_key_inj {A B} (f : A -> B) l x y : NoDup (f <$> l) -> x ∈ l -> y ∈ l -> f x = f y -> x = y.
Proof.
  intros Hn [i Hi]%list_elem_of_lookup [j Hj]%list_elem_of_lookup He.
  assert (i = j) as <- by (apply (NoDup_lookup _ i j (f x) Hn); rewrite list_lookup_fmap, ?Hi, ?Hj; cbn; congruence). congruence.
Qed.

Lemma nodup_key_filter {A B} (f : A -> B) (P : A -> Prop) `{!forall x, Decision (P x)} l : NoDup (f <$> l) -> NoDup (f <$> filter P l).
Proof.
  induction l as [|x l IH]; [done|]. cbn [fmap list_fmap]. intros [Hx Hn]%NoDup_cons. rewrite filter_cons. case_decide; [|by apply IH]. cbn [fmap list_fmap].
  apply NoDup_cons. split; [|by apply IH]. intros (y & He & [_ Hy]%list_elem_of_filter)%list_elem_of_fmap. apply Hx. rewrite He. by apply list_elem_of_fmap_2.
Qed.

Lemma nodup_concat_sub {A B} (f : A -> list B) l k : NoDup l -> (forall a, a ∈ l -> a ∈ k) -> NoDup (concat (f <$> k)) -> NoDup (concat (f <$> l)).
Proof.
  intros Hl Hsub Hk. apply NoDup_submseteq, submseteq_Permutation in Hsub as [k' Hk']; [|done].
  rewrite (concat_fmap_perm _ _ _ Hk'), fmap_app, concat_app in Hk. by apply NoDup_app in Hk as [? _].
Qed.

Lemma skips_length max l k : length (skips max l k) = length l.
Proof. revert k. induction l as [|[i rw] l IH]; intros k; [done|]. cbn. destruct (rw_ex rw); cbn; [by rewrite IH|]. destruct (_ && _); cbn; by rewrite IH. Qed.

Lemma row_entries_fst max r : (row_entries max r).*1 = zip (row_ids r.1) r.2.
Proof. unfold row_entries. apply fst_zip. by rewrite skips_length. Qed.

Lemma entry_moves_row max r : entry_moves (row_entries max r) = moves_of (row_ids r.1) r.2.
Proof.
  unfold entry_moves. trans (concat ((fun e : nat * lun_rw => (fun m : Z * Z => (e.1, m.1, m.2)) <$> rw_moves e.2) <$> (row_entries max r).*1)); [by rewrite <- list_fmap_compose|].
  rewrite row_entries_fst. unfold moves_of. f_equal. generalize (row_ids r.1). induction r.2 as [|rw l IH]; intros [|i ids]; [done..|]. cbn. f_equal. apply IH.
Qed.

Lemma entry_moves_rows max rows : entry_moves (concat (row_entries max <$> rows)) = table_moves rows.
Proof.
  unfold table_moves. induction rows as [|r rows IH]; [done|]. cbn. rewrite <- (entry_moves_row max r), <- IH. unfold entry_moves. by rewrite fmap_app, concat_app.
Qed.

(** Devices are skipped only if they are on the blacklist, and not too many. *)
Lemma skips_blacklisted max l k e : e ∈ zip l (skips max l k) -> e.2 = true -> blacklisted e.1.1 = true /\ k < max.
Proof.
  revert k. induction l as [|[i rw] l IH]; intros k; cbn; [by intros ?%not_elem_of_nil|]. destruct (rw_ex rw); cbn.
  - intros [->|He]%elem_of_cons; [done|]. by apply IH.
  - destruct (blacklisted i && negb (k >=? max)) eqn:E; cbn; (intros [->|He]%elem_of_cons Ht; cbn in *; [|destruct (IH _ He Ht); split; [done|lia]]); [|done].
    breflect. split; [done|lia].
Qed.

Lemma skips_count max l k : Z.of_nat (length (filter (fun e => e.2 = true) (zip l (skips max l k)))) <= Z.max 0 (max - k).
Proof.
  revert k. induction l as [|[i rw] l IH]; intros k; [cbn; lia|]. cbn [skips]. destruct (rw_ex rw); [|destruct (blacklisted i && negb (k >=? max)) eqn:E; breflect].
  all: cbn [zip zip_with]; rewrite filter_cons.
  1,3: rewrite decide_False by done; apply IH.
  rewrite decide_True, length_cons by done. specialize (IH (k + 1)). lia.
Qed.

Section exec.
Context s (W : lun_wf s) (touched : list seglun_row) (Hin : forall b, b ∈ touched -> b ∈ ix_list (ln_isl s)).
Context (t : rw_table) (Hok : table_ok s touched t) (max : Z).

Definition op_entries : list (nat * lun_rw * bool) := concat (row_entries max <$> rt_rows t).
Definition op_lost : list nat := lost_of op_entries.

Lemma row_entries_ids r : r ∈ rt_rows t -> (fun e => e.1.1) <$> row_entries max r = row_ids r.1.
Proof using W Hin Hok.
  intros Hr. trans ((row_entries max r).*1.*1); [by rewrite <- list_fmap_compose|]. rewrite row_entries_fst. destruct r as [b rws].
  destruct (tk_row s touched t Hok b rws Hr) as (Hb & Hl & _). apply fst_zip. cbn in *. unfold row_ids. rewrite length_fmap, (rk_devices s b); [lia|]. by apply W, Hin.
Qed.

Lemma op_entries_ids : (fun e => e.1.1) <$> op_entries = concat (row_ids <$> (rt_rows t).*1).
Proof using W Hin Hok.
  unfold op_entries. pose proof row_entries_ids as Hr. induction (rt_rows t) as [|r l IH]; [done|]. cbn. rewrite fmap_app, Hr by (by left). f_equal.
  apply IH. intros r' Hr'. apply Hr. by right.
Qed.

Lemma op_ids_nodup : NoDup ((fun e => e.1.1) <$> op_entries).
Proof using W Hin Hok.
  rewrite op_entries_ids. apply (nodup_concat_sub _ _ (ix_list (ln_isl s))); [apply Hok| |apply W].
  intros b ([b' rws] & -> & Hb)%list_elem_of_fmap. by apply Hin, (tk_row s touched t Hok b' rws).
Qed.

Lemma op_lost_iff e : e ∈ op_entries -> e.1.1 ∈ op_lost <-> lost_entry e = true.
Proof using W Hin Hok.
  intros He. unfold op_lost, lost_of. split.
  - intros (e' & Heq & [Hl He']%list_elem_of_filter)%list_elem_of_fmap. by rewrite (nodup_key_inj _ _ e e' op_ids_nodup He He' Heq).
  - intros Hl. apply list_elem_of_fmap. exists e. split; [done|]. by apply list_elem_of_filter.
Qed.

Lemma op_entry r e : r ∈ rt_rows t -> e ∈ row_entries max r -> e ∈ op_entries.
Proof using. intros Hr He. apply elem_of_concat_fmap. eauto. Qed.

Lemma op_entry_row e : e ∈ op_entries -> exists r, r ∈ rt_rows t /\ e ∈ row_entries max r.
Proof using. by intros H%elem_of_concat_fmap. Qed.

Lemma op_tells : tells op_lost op_entries.
Proof using W Hin Hok.
  intros e He. split; [|intros _; by apply op_lost_iff]. apply op_entry_row in He as ([b rws] & Hr & He).
  destruct (tk_row s touched t Hok b rws Hr) as (_ & _ & Hf). apply (list_elem_of_fmap_2 fst) in He. rewrite row_entries_fst in He. destruct e as [[i rw] sk]. cbn in He.
  apply elem_of_zip_r in He. rewrite Forall_forall in Hf. by apply Hf.
Qed.

(** The lost devices of a row. *)
Lemma lost_row r : r ∈ rt_rows t -> filter (fun i => i ∈ op_lost) (row_ids r.1) = lost_of (row_entries max r).
Proof using W Hin Hok.
  intros Hr. rewrite <- (row_entries_ids r Hr). assert (Hl : forall e, e ∈ row_entries max r -> e.1.1 ∈ op_lost <-> lost_entry e = true).
  { intros e He. by apply op_lost_iff, (op_entry r). }
  unfold lost_of. induction (row_entries max r) as [|e l IH]; [done|]. cbn [fmap list_fmap]. rewrite !filter_cons. pose proof (Hl e ltac:(by left)) as He.
  destruct (decide (lost_entry e = true)) as [Hd|Hd]; [rewrite decide_True by tauto; cbn; f_equal|rewrite decide_False by tauto]; apply IH; intros e' He'; apply Hl; by right.
Qed.

Lemma lost_no_row b : b ∈ ix_list (ln_isl s) -> b ∉ (rt_rows t).*1 -> filter (fun i => i ∈ op_lost) (row_ids b) = [].
Proof using W Hin Hok.
  intros Hb Hn. apply filter_drops. intros i Hi (e & -> & [_ He]%list_elem_of_filter)%list_elem_of_fmap. apply Hn.
  apply op_entry_row in He as ([b' rws] & Hr & He). assert (Hi' : e.1.1 ∈ row_ids b').
  { pose proof (row_entries_ids (b', rws) Hr) as Hri. cbn in Hri. rewrite <- Hri. apply list_elem_of_fmap. by exists e. }
  assert (Hb' : b' ∈ ix_list (ln_isl s)) by (by apply Hin, (tk_row s touched t Hok b' rws)).
  rewrite (concat_nodup_inj row_ids _ b b' e.1.1 (lu_ids s W) Hb Hb' Hi Hi'). apply list_elem_of_fmap. by exists (b', rws).
Qed.
End exec.

Definition row_lost (lost : list nat) b : Z := Z.of_nat (length (filter (fun i => i ∈ lost) (row_ids b))).

(** The devices an operation lost: those that cannot be reached and those
    skipped; the error code is the largest number of a row. *)
Record io_done s (hints : option Z) (iov : list (Z * Z)) (lost : list nat) (op : op_status) : Prop := IoDone {
  io_down x : x ∈ flat iov -> up (lun_place s x).1 = false -> (lun_place s x).1 ∈ lost;
  io_why i : i ∈ lost -> up i = false \/ blacklisted i = true /\ 0 < default 0 hints;
  io_skipped b : b ∈ ix_list (ln_isl s) -> Z.of_nat (length (filter (fun i => i ∈ lost /\ up i = true) (row_ids b))) <= Z.max 0 (default 0 hints);
  io_ok : op_ok op = true <-> lost = [];
  io_code b : b ∈ ix_list (ln_isl s) -> row_lost lost b <= error_code op;
  io_worst : error_code op = 0 \/ exists b, b ∈ ix_list (ln_isl s) /\ error_code op = row_lost lost b }.

Definition max_errors (errs : list (list nat)) : Z := foldl (fun m l => Z.max m (Z.of_nat (length l))) 0 errs.

Lemma max_errors_snoc errs l : max_errors (errs ++ [l]) = Z.max (max_errors errs) (Z.of_nat (length l)).
Proof. unfold max_errors. by rewrite foldl_app. Qed.

Lemma max_errors_bound errs l : l ∈ errs -> Z.of_nat (length l) <= max_errors errs.
Proof.
  induction errs as [|l' errs IH] using rev_ind; [by intros ?%not_elem_of_nil|]. rewrite max_errors_snoc. intros [H%IH| ->%list_elem_of_singleton]%elem_of_app; lia.
Qed.

Lemma max_errors_worst errs : max_errors errs = 0 \/ exists l, l ∈ errs /\ max_errors errs = Z.of_nat (length l).
Proof.
  induction errs as [|l errs IH] using rev_ind; [by left|]. rewrite max_errors_snoc. destruct (decide (max_errors errs <= Z.of_nat (length l))).
  - right. exists l. split; [set_solver|lia].
  - rewrite Z.max_l by lia. destruct IH as [?|(l' & ? & ?)]; [by left|right]. exists l'. split; [set_solver|done].
Qed.

Lemma max_errors_zero errs : max_errors errs = 0 <-> concat errs = [].
Proof.
  induction errs as [|l errs IH] using rev_ind; [done|]. rewrite max_errors_snoc, concat_app. cbn. rewrite app_nil_r.
  assert (0 <= max_errors errs) by (destruct (max_errors_worst errs) as [->|(? & _ & ->)]; lia).
  split; [intros|intros [?%IH ->]%app_nil; cbn; lia]. rewrite (proj1 IH) by lia. apply length_zero_iff_nil. cbn. lia.
Qed.

(** The rows a list of ranges reaches. *)
Definition touched_rows s (iov : list (Z * Z)) : list seglun_row :=
  filter (fun b => Exists (fun v => overlaps v.1 (v.1 + v.2 - 1) b) iov) (ix_list (ln_isl s)).
Definition fits s (iov : list (Z * Z)) : Prop := Z.of_nat (length (touched_rows s iov)) * Z.of_nat (ln_n_devices s) <= 100.

Lemma touched_in s iov b : b ∈ touched_rows s iov -> b ∈ ix_list (ln_isl s).
Proof. by intros [_ ?]%list_elem_of_filter. Qed.

Lemma seglun_plan s iov boff : lun_wf s -> in_file s iov -> fits s iov ->
  exists t, plan_iov s iov boff rw_start = Ok t /\ table_ok s (touched_rows s iov) t /\ table_moves (rt_rows t) ≡ₚ iov_moves s iov boff.
Proof.
  intros W Hf Hfit. destruct (plan_iov_ok s W (touched_rows s iov) Hfit (touched_in s iov) iov boff rw_start) as (t & Ht & Hok & Hm); [|done| |by exists t].
  - constructor; [constructor|by intros ? ? ?%not_elem_of_nil|done].
  - intros v b Hv Hb. unfold in_file in Hf. rewrite Forall_forall in Hf. destruct (Hf v Hv) as (? & ? & ?).
    apply ix_search_elem in Hb as [Ho Hb]; [|apply W|left; lia]. apply list_elem_of_filter. split; [|done]. apply Exists_exists. by exists v.
Qed.

Lemma iov_moves_elem s iov boff k x : flat iov !! k = Some x -> (lun_place s x, boff + Z.of_nat k) ∈ iov_moves s iov boff.
Proof.
  intros Hk. apply list_elem_of_lookup. exists k. unfold iov_moves. rewrite lookup_zip_with, list_lookup_fmap, Hk. cbn.
  rewrite lookup_seqZ_lt; [done|]. apply lookup_lt_Some in Hk. lia.
Qed.

Lemma filter_fmap_count {A B} (f : A -> B) (P : B -> Prop) (Q : A -> Prop) `{!forall x, Decision (P x), !forall x, Decision (Q x)} l :
  (forall x, x ∈ l -> P (f x) -> Q x) -> (length (filter P (f <$> l)) <= length (filter Q l))%nat.
Proof.
  induction l as [|x l IH]; intros Hl; [done|]. cbn [fmap list_fmap]. rewrite !filter_cons. pose proof (Hl x ltac:(by left)) as Hx.
  assert (length (filter P (f <$> l)) <= length (filter Q l))%nat by (apply IH; intros y Hy; apply Hl; by right).
  destruct (decide (P (f x))), (decide (Q x)); rewrite ?length_cons; unfold fmap in *; (tauto || lia).
Qed.

Section done.
Context s (W : lun_wf s) (iov : list (Z * Z)) (boff : Z) (Hiov : in_file s iov) (Hne : iov <> []).
Context (t : rw_table) (Hok : table_ok s (touched_rows s iov) t) (Hm : table_moves (rt_rows t) ≡ₚ iov_moves s iov boff).

Lemma op_some : forallb (fun r => forallb (fun rw => bool_decide (rw_ex rw = [])) r.2) (rt_rows t) = false.
Proof using Hiov Hne Hm Hok.
  apply not_true_iff_false. intros Ha. assert (He : table_moves (rt_rows t) = []).
  { unfold table_moves. clear Hm Hok. induction (rt_rows t) as [|[b rws] rows IH]; [done|]. cbn in *. apply andb_true_iff in Ha as [Ha Hb]. rewrite IH, app_nil_r by done.
    unfold moves_of. generalize (row_ids b). clear -Ha. induction rws as [|rw rws IH]; intros [|i ids]; [done..|]. cbn in *. apply andb_true_iff in Ha as [Ha Hb].
    apply bool_decide_eq_true in Ha. unfold rw_moves. rewrite Ha. cbn. by apply IH. }
  rewrite He in Hm. apply Permutation_nil_l in Hm. destruct iov as [|[off len] iov']; [done|]. unfold in_file in Hiov. apply Forall_cons in Hiov as [(? & Hl & _) _]. cbn in Hl.
  rewrite iov_moves_cons in Hm by lia. apply (f_equal length) in Hm. rewrite length_app, length_fmap, length_seqZ in Hm. cbn in Hm. lia.
Qed.

Context (hints : option Z).
#[local] Abbreviation max := (default 0 hints).
#[local] Abbreviation errs := ((fun r => lost_of (row_entries max r)) <$> rt_rows t).
#[local] Abbreviation lost := (op_lost t max).
Let Htouched : forall b, b ∈ touched_rows s iov -> b ∈ ix_list (ln_isl s) := touched_in s iov.

Lemma op_lost_rows : lost = concat errs.
Proof using.
  unfold op_lost, op_entries, lost_of. clear Hm. induction (rt_rows t) as [|r rows IH]; [done|]. cbn [fmap list_fmap concat]. rewrite filter_app, fmap_app. by rewrite <- IH.
Qed.

Lemma op_lost_down x : x ∈ flat iov -> up (lun_place s x).1 = false -> (lun_place s x).1 ∈ lost.
Proof using W Hok Hm.
  intros [k Hk]%list_elem_of_lookup Hd. pose proof (iov_moves_elem s iov boff k x Hk) as Hx.
  rewrite <- Hm, <- (entry_moves_rows max) in Hx. apply elem_of_concat_fmap in Hx as (e & He & (m & Heq & Hmv)%list_elem_of_fmap).
  assert (Hi : (lun_place s x).1 = e.1.1) by (destruct (lun_place s x); injection Heq as -> _ _; done). rewrite Hi in *. apply (op_lost_iff s W _ Htouched t Hok); [done|].
  unfold lost_entry. rewrite Hd, bool_decide_eq_true_2; [done|]. intros Hex. unfold rw_moves in Hmv. rewrite Hex in Hmv. by apply not_elem_of_nil in Hmv.
Qed.

Lemma op_lost_entry i : i ∈ lost -> exists r e, r ∈ rt_rows t /\ e ∈ row_entries max r /\ i = e.1.1 /\ lost_entry e = true.
Proof using. intros (e & -> & [Hl (r & Hr & He)%op_entry_row]%list_elem_of_filter)%list_elem_of_fmap. by exists r, e. Qed.

Lemma lost_entry_why e : lost_entry e = true -> up e.1.1 = false \/ e.2 = true.
Proof using. unfold lost_entry. destruct (up e.1.1), e.2; rewrite ?andb_false_r; auto. Qed.

Lemma op_row b : b ∈ ix_list (ln_isl s) -> (exists r, r ∈ rt_rows t /\ b = r.1) \/ filter (fun i => i ∈ lost) (row_ids b) = [].
Proof using W Hok.
  intros Hb. destruct (decide (b ∈ (rt_rows t).*1)) as [(r & -> & Hr)%list_elem_of_fmap|Hn]; [left; by exists r|right]. by apply (lost_no_row s W _ Htouched t Hok).
Qed.

Lemma op_skipped b : b ∈ ix_list (ln_isl s) -> Z.of_nat (length (filter (fun i => i ∈ lost /\ up i = true) (row_ids b))) <= Z.max 0 max.
Proof using W Hok.
  intros [(r & Hr & ->)|He]%op_row.
  - pose proof (skips_count max (zip (row_ids r.1) r.2) 0) as Hc. rewrite Z.sub_0_r in Hc. etrans; [|exact Hc]. apply inj_le.
    rewrite <- (row_entries_ids s W _ Htouched t Hok max r Hr) at 1. apply filter_fmap_count. intros e He [Hl Hu].
    apply (op_lost_iff s W _ Htouched t Hok) in Hl; [|by apply (op_entry _ _ r)]. apply lost_entry_why in Hl as [?|?]; [congruence|done].
  - rewrite filter_drops; [cbn; lia|]. intros i Hi [Hl _]. apply (not_elem_of_nil i). rewrite <- He. by apply list_elem_of_filter.
Qed.

Lemma op_code b : b ∈ ix_list (ln_isl s) -> row_lost lost b <= max_errors errs.
Proof using IntervalIndexLaws0 W Hok.
  unfold row_lost. intros [(r & Hr & ->)|He]%op_row.
  - rewrite (lost_row s W _ Htouched t Hok max r Hr). apply max_errors_bound. by apply (list_elem_of_fmap_2 (fun r => lost_of (row_entries max r))).
  - rewrite He. destruct (max_errors_worst errs) as [->|(l & _ & ->)]; cbn; lia.
Qed.

Lemma op_done : io_done s hints iov lost (if max_errors errs =? 0 then gop_success_status else OpStatus false (max_errors errs)).
Proof using IntervalIndexLaws0 W Hok Hm.
  assert (Hc : error_code (if max_errors errs =? 0 then gop_success_status else OpStatus false (max_errors errs)) = max_errors errs) by (destruct (_ =? 0) eqn:E; breflect; cbn; lia).
  constructor; rewrite ?Hc.
  - apply op_lost_down.
  - intros i (r & e & Hr & He & -> & Hl)%op_lost_entry. apply lost_entry_why in Hl as [?|Hs]; [by left|right]. by apply (skips_blacklisted max (zip (row_ids r.1) r.2) 0 e).
  - apply op_skipped.
  - rewrite op_lost_rows, <- max_errors_zero. destruct (max_errors errs =? 0) eqn:E; breflect; cbn; [done|]. split; [done|]. intros. lia.
  - apply op_code.
  - destruct (max_errors_worst errs) as [?|(l & (r & -> & Hr)%list_elem_of_fmap & Hl)]; [by left|right]. exists r.1. unfold row_lost.
    rewrite (lost_row s W _ Htouched t Hok max r Hr). split; [|done]. destruct r as [b rws]. by apply Htouched, (tk_row s _ t Hok b rws).
Qed.
End done.

(** ** Reading and writing as a file *)

(** Segments with the same rows. *)
Record same_rows s s' : Prop := SameRows {
  sr_isl : ln_isl s' = ln_isl s;
  sr_total : ln_total_size s' = ln_total_size s;
  sr_layout : (ln_n_devices s', ln_chunk_size s', ln_stripe_size s', ln_n_shift s') = (ln_n_devices s, ln_chunk_size s, ln_stripe_size s, ln_n_shift s) }.

Lemma same_rows_wf s s' : same_rows s s' -> lun_wf s -> lun_wf s'.
Proof.
  intros [Ei Et [= En Ec Es Eh]] [[L1 L2 L3 L4] Hi Hr Hc Hd]. constructor; rewrite ?Ei, ?Et; try done.
  - constructor; rewrite ?En, ?Ec, ?Es, ?Eh; done.
  - intros b Hb. destruct (Hr b Hb). constructor; rewrite ?En; done.
Qed.

Lemma same_rows_place s s' x : same_rows s s' -> lun_place s' x = lun_place s x.
Proof.
  intros [Ei _ [= En Ec Es Eh]]. unfold lun_place, row_place, row_dev, row_off. rewrite Ei. destruct (ix_search x x (ln_isl s)); [done|]. by rewrite En, Ec, Es, Eh.
Qed.

Lemma same_rows_trans s s' s'' : same_rows s s' -> same_rows s' s'' -> same_rows s s''.
Proof. intros [Ei Et El] [Ei' Et' El']. split; congruence. Qed.

Lemma row_ids_nodup s b : lun_wf s -> b ∈ ix_list (ln_isl s) -> NoDup (row_ids b).
Proof.
  intros W Hb. pose proof (lu_ids s W) as Hn. apply list_elem_of_split in Hb as (l1 & l2 & El). rewrite El, fmap_app, concat_app in Hn. cbn in Hn.
  apply NoDup_app in Hn as (_ & _ & Hn). by apply NoDup_app in Hn as [? _].
Qed.

Lemma lun_place_inj s x y : lun_wf s -> 0 <= x < ln_total_size s -> 0 <= y < ln_total_size s -> lun_place s x = lun_place s y -> x = y.
Proof.
  intros W Hx Hy He. destruct (lu_cover s W x Hx) as (b & Hb & Hbx), (lu_cover s W y Hy) as (b' & Hb' & Hby).
  rewrite (lun_place_at s b), (lun_place_at s b') in He by (done || apply W). unfold row_place in He. injection He as Ei Eo.
  assert (Hids : forall b r, b ∈ ix_list (ln_isl s) -> row_ids b !! Z.to_nat (row_dev s r) = Some (row_ids b !!! Z.to_nat (row_dev s r))).
  { intros b0 r Hb0. apply list_lookup_lookup_total_lt. unfold row_ids. rewrite length_fmap, (rk_devices s b0 (lu_row s W b0 Hb0)). pose proof (row_dev_bound s (lu_layout s W) r). lia. }
  set (r := x - lr_seg_offset b) in *. set (r' := y - lr_seg_offset b') in *. pose proof (Hids b r Hb) as Hl. pose proof (Hids b' r' Hb') as Hl'. rewrite <- Ei in Hl'.
  assert (b' = b) as -> by exact (concat_nodup_inj row_ids _ _ _ _ (lu_ids s W) Hb' Hb (list_elem_of_lookup_2 _ _ _ Hl') (list_elem_of_lookup_2 _ _ _ Hl)).
  pose proof (row_ids_nodup s b W Hb) as Hn.
  pose proof (NoDup_lookup _ _ _ _ Hn Hl Hl') as Hz. pose proof (row_dev_bound s (lu_layout s W) r). pose proof (row_dev_bound s (lu_layout s W) r').
  unfold inside in *. cbn in *. enough (r = r') by lia. apply (row_place_inj s (lu_layout s W)); [lia|lia|lia|done].
Qed.

Lemma in_file_flat s iov x : in_file s iov -> x ∈ flat iov -> 0 <= x < ln_total_size s.
Proof.
  unfold in_file. rewrite Forall_forall. intros Hf (v & Hv & [Hx Hx']%elem_of_seqZ)%elem_of_concat_fmap. destruct (Hf v Hv) as (? & ? & ?). lia.
Qed.

Lemma iov_moves_keys s iov boff : (iov_moves s iov boff).*1 = lun_place s <$> flat iov /\ (iov_moves s iov boff).*2 = seqZ boff (Z.of_nat (length (flat iov))).
Proof. unfold iov_moves. split; [apply fst_zip|apply snd_zip]; rewrite length_fmap, length_seqZ; lia. Qed.

(** What a read leaves in the buffer and a write in the file. *)
Definition read_into s (iov : list (Z * Z)) (lost : list nat) (buffer : Z -> Z) (boff : Z) (buffer' : Z -> Z) : Prop :=
  (forall k x, flat iov !! k = Some x -> buffer' (boff + Z.of_nat k) = if decide ((lun_place s x).1 ∈ lost) then 0 else lun_view s x) /\
  (forall p, ~ boff <= p < boff + Z.of_nat (length (flat iov)) -> buffer' p = buffer p).
Definition written s (iov : list (Z * Z)) (lost : list nat) (buffer : Z -> Z) (boff : Z) s' : Prop :=
  (forall k x, flat iov !! k = Some x -> lun_view s' x = if decide ((lun_place s x).1 ∈ lost) then lun_view s x else buffer (boff + Z.of_nat k)) /\
  (forall x, 0 <= x < ln_total_size s -> x ∉ flat iov -> lun_view s' x = lun_view s x).

Lemma seglun_read_op s hints iov buffer boff :
  lun_wf s -> in_file s iov -> iov <> [] -> fits s iov ->
  exists op buffer' re lost, seglun_rw_op hints iov buffer boff false s = Ok (op, buffer', set_depot (ln_depot s) re (ln_write_err s) s) /\
    io_done s hints iov lost op /\ read_into s iov lost buffer boff buffer'.
Proof.
  intros W Hf Hne Hfit. destruct (seglun_plan s iov boff W Hf Hfit) as (t & Ht & Hok & Hm). unfold seglun_rw_op. rewrite Ht. cbn [mbind res_bind].
  rewrite (op_some s iov boff) by done. pose proof (run_rows_devs false (default 0 hints) (rt_rows t) buffer (ln_depot s)) as Hrun. change (concat (row_entries _ <$> _)) with (op_entries t (default 0 hints)) in Hrun.
  rewrite (run_devs_read (op_lost t (default 0 hints))) in Hrun by (eapply op_tells; [done|apply touched_in|done]). rewrite Hrun.
  eexists _, _, _, _. split; [done|]. split; [by apply (op_done s W iov boff t)|]. unfold op_entries at 1. rewrite entry_moves_rows. set (lost := op_lost t (default 0 hints)).
  destruct (iov_moves_keys s iov boff) as [_ Hk2].
  assert (Hkeys : (read_of (ln_depot s) lost <$> table_moves (rt_rows t)).*1 ≡ₚ seqZ boff (Z.of_nat (length (flat iov)))) by (rewrite <- list_fmap_compose, Hm, <- Hk2; done).
  split.
  - intros k x Hk. apply assign_in; [rewrite Hkeys; apply NoDup_seqZ|]. apply list_elem_of_fmap. exists (lun_place s x, boff + Z.of_nat k).
    split; [done|]. rewrite Hm. by apply iov_moves_elem.
  - intros p Hp. apply assign_out. rewrite Hkeys, elem_of_seqZ. lia.
Qed.

Lemma seglun_write_op s hints iov buffer boff :
  lun_wf s -> in_file s iov -> iov <> [] -> fits s iov -> NoDup (flat iov) ->
  exists op d we lost, seglun_rw_op hints iov buffer boff true s = Ok (op, buffer, set_depot d (ln_read_err s) we s) /\
    io_done s hints iov lost op /\ written s iov lost buffer boff (set_depot d (ln_read_err s) we s).
Proof.
  intros W Hf Hne Hfit Hnd. destruct (seglun_plan s iov boff W Hf Hfit) as (t & Ht & Hok & Hm). unfold seglun_rw_op. rewrite Ht. cbn [mbind res_bind].
  rewrite (op_some s iov boff) by done. pose proof (run_rows_devs true (default 0 hints) (rt_rows t) buffer (ln_depot s)) as Hrun. change (concat (row_entries _ <$> _)) with (op_entries t (default 0 hints)) in Hrun.
  set (lost := op_lost t (default 0 hints)). destruct (run_devs_write lost (op_entries t (default 0 hints)) buffer (ln_depot s)) as (d & Hd & Hb); [by eapply op_tells; [done|apply touched_in|done]|].
  rewrite Hd in Hrun. rewrite Hrun. eexists _, d, _, lost. split; [done|]. split; [by apply (op_done s W iov boff t)|].
  unfold op_entries in Hb. rewrite entry_moves_rows in Hb. destruct (iov_moves_keys s iov boff) as [Hk1 _].
  assert (Hsub : forall k, k ∈ (kept lost buffer (table_moves (rt_rows t))).*1 -> k.1 ∉ lost /\ k ∈ lun_place s <$> flat iov).
  { intros k. unfold kept. rewrite <- list_fmap_compose. intros (m & -> & [Hl H]%list_elem_of_filter)%list_elem_of_fmap. split; [done|].
    rewrite <- Hk1. apply list_elem_of_fmap_2. by rewrite <- Hm. }
  assert (Hnk : NoDup (kept lost buffer (table_moves (rt_rows t))).*1).
  { unfold kept. rewrite <- list_fmap_compose. apply nodup_key_filter. rewrite Hm. change (NoDup (iov_moves s iov boff).*1). rewrite Hk1.
    apply NoDup_fmap_2_strong; [|done]. intros x y Hx Hy. apply lun_place_inj; [done|by eapply in_file_flat..]. }
  assert (Hv : forall x, lun_view (set_depot d (ln_read_err s) (bump (concat ((fun r => lost_of (row_entries (default 0 hints) r)) <$> rt_rows t)) (ln_write_err s)) s) x =
    assign (fun k => lun_bytes (ln_depot s) k.1 k.2) (kept lost buffer (table_moves (rt_rows t))) (lun_place s x)).
  { intros x. unfold lun_view. rewrite (same_rows_place s) by done. cbn [ln_depot set_depot]. rewrite Hb. by destruct (lun_place s x). }
  split.
  - intros k x Hk. rewrite Hv. case_decide as Hl.
    + rewrite assign_out; [done|]. by intros [? _]%Hsub.
    + apply assign_in; [done|]. apply list_elem_of_fmap. exists (lun_place s x, boff + Z.of_nat k). split; [done|]. apply list_elem_of_filter. split; [done|]. rewrite Hm. by apply iov_moves_elem.
  - intros x Hx Hn. rewrite Hv, assign_out; [done|]. intros [_ (y & Hy & Hyf)%list_elem_of_fmap]%Hsub. apply Hn.
    by rewrite (lun_place_inj s x y W Hx (in_file_flat s iov y Hf Hyf) Hy).
Qed.

(** ** Growing keeps the file *)

Definition padded (st : Z) (st' : Z) : Prop := if decide (st = 2) then st' = 0 \/ st' = 3 else if decide (st = -2) then st' = 3 else st' = st.

(** Padding changes the last byte of the blocks that have grown. *)
Definition pads (z : sizes) (blk : nat * Z) (st : Z) (k : nat) (o : Z) : Prop := st = 2 /\ blk.1 = k /\ o = blk.2 + default 0 (sz_max z !! k) - 1.

Lemma pad_block_ok blk st z : exists st' err z', pad_block blk st z = (st', err, z') /\ padded st st' /\ 0 <= err /\ (err = 0 -> st' = if decide (st = 2) then 0 else st) /\
  sz_alloc z' = sz_alloc z /\ sz_max z' = sz_max z /\ sz_next z' = sz_next z /\ forall k o, ~ pads z blk st k o -> lun_bytes (sz_depot z') k o = lun_bytes (sz_depot z) k o.
Proof.
  unfold pad_block, padded. destruct (st =? 2) eqn:E2; [|destruct (st =? -2) eqn:E3]; breflect; [destruct (up blk.1)|..].
  all: eexists _, _, _; split; [done|]; repeat case_decide; split_and!; try done; try lia; auto.
  intros k o Hn. cbn. rewrite lun_bytes_insert. case_decide as Hk; [subst k|done]. apply overlay_out. cbn. unfold pads in Hn. intros ?. apply Hn. split_and!; [done..|lia].
Qed.

Lemma slun_row_pad_fix_ok blocks status z : length blocks = length status ->
  exists st err z', slun_row_pad_fix blocks status z = (st, err, z') /\ Forall2 padded status st /\ 0 <= err /\
    (err = 0 -> Forall2 (fun st st' => st' = if decide (st = 2) then 0 else st) status st) /\
    sz_alloc z' = sz_alloc z /\ sz_max z' = sz_max z /\ sz_next z' = sz_next z /\
    forall k o, (forall blk st, (blk, st) ∈ zip blocks status -> ~ pads z blk st k o) -> lun_bytes (sz_depot z') k o = lun_bytes (sz_depot z) k o.
Proof.
  revert status z. induction blocks as [|blk blocks IH]; intros [|st status] z Hl; try done.
  { exists [], 0, z. split_and!; by try constructor. }
  cbn [slun_row_pad_fix]. injection Hl as Hl. destruct (pad_block_ok blk st z) as (st1 & e1 & z1 & -> & P1 & N1 & R1 & A1 & M1 & X1 & B1).
  destruct (IH status z1 Hl) as (st2 & e2 & z2 & -> & P2 & N2 & R2 & A2 & M2 & X2 & B2). eexists _, _, z2. split; [done|].
  split_and!; [by constructor|lia|intros; constructor; [apply R1|apply R2]; lia|congruence..|].
  intros k o Hn. rewrite B2, B1; [done|apply Hn; by left|]. intros blk' st' Hin. unfold pads. rewrite M1. apply Hn. by right.
Qed.

(** The slots of a new row: a block that was given an allocation has one of its
    own, made since the row was begun. *)
Record slots_ok (base : nat) (blocks : list (nat * Z)) (status : list Z) (z : sizes) : Prop := SlotsOk {
  sk_length : length blocks = length status;
  sk_status i st : status !! i = Some st -> st = 0 \/ st = 1 \/ st = 2 \/ st = 3;
  sk_offset i blk : blocks !! i = Some blk -> blk.2 = 0;
  sk_fresh i blk st : blocks !! i = Some blk -> status !! i = Some st -> st <> 1 -> (base <= blk.1 < sz_next z)%nat;
  sk_own i j blk blk' st st' : blocks !! i = Some blk -> blocks !! j = Some blk' -> status !! i = Some st -> status !! j = Some st' -> st <> 1 -> st' <> 1 -> blk.1 = blk'.1 -> i = j }.

(** Allocations made before are left alone. *)
Definition grown (base : nat) (z z' : sizes) : Prop := (sz_next z <= sz_next z')%nat /\ forall k o, (k < base)%nat -> lun_bytes (sz_depot z') k o = lun_bytes (sz_depot z) k o.

Lemma grown_trans base z z' z'' : grown base z z' -> grown base z' z'' -> grown base z z''.
Proof. intros [H1 H2] [H3 H4]. split; [lia|]. intros. by rewrite H4, H2. Qed.

Lemma slots_give base blocks status z i len : (base <= sz_next z)%nat -> (i < length status)%nat -> slots_ok base blocks status z ->
  let z' := Sizes (<[sz_next z := fun _ => 0]> (sz_depot z)) (<[sz_next z := len]> (sz_alloc z)) (<[sz_next z := len]> (sz_max z)) (S (sz_next z)) in
  slots_ok base (alter (fun blk => (sz_next z, blk.2)) i blocks) (<[i := 2]> status) z' /\ grown base z z'.
Proof.
  intros Hb Hi [Hl Hs Ho Hf Hw] z'. assert (Hcase : forall j blk st, alter (fun blk => (sz_next z, blk.2)) i blocks !! j = Some blk -> <[i := 2]> status !! j = Some st ->
    j = i /\ blk.1 = sz_next z \/ j <> i /\ blocks !! j = Some blk /\ status !! j = Some st).
  { intros j blk st Hj Hst. destruct (decide (j = i)) as [->|Hn].
    - left. rewrite list_lookup_alter, decide_True in Hj by done. by apply fmap_Some in Hj as (? & _ & ->).
    - right. rewrite list_lookup_alter, decide_False in Hj by done. by rewrite list_lookup_insert_ne in Hst. }
  split; [|split; [cbn; lia|intros k o Hk; cbn; rewrite lun_bytes_insert, decide_False by lia; done]].
  constructor.
  - by rewrite length_alter, length_insert.
  - intros j st Hj. apply list_lookup_insert_Some in Hj as [(_ & <- & _)|[_ Hj]]; [lia|by eapply Hs].
  - intros j blk Hj. rewrite list_lookup_alter in Hj. case_decide; [apply fmap_Some in Hj as (blk' & Hj & ->); cbn|]; by eapply Ho.
  - intros j blk st Hj Hst Hn. cbn. destruct (Hcase j blk st Hj Hst) as [[_ ->]|(_ & Hj' & Hst')]; [lia|]. specialize (Hf j blk st Hj' Hst' Hn). lia.
  - intros j k blk blk' st st' Hj Hk Hst Hst' Hn Hn' He.
    destruct (Hcase j blk st Hj Hst) as [[-> E1]|(_ & Hj1 & Hs1)], (Hcase k blk' st' Hk Hst') as [[-> E2]|(_ & Hk1 & Hs2)]; [done|..|by eapply (Hw j k)].
    + specialize (Hf k blk' st' Hk1 Hs2 Hn'). lia.
    + specialize (Hf j blk st Hj1 Hs1 Hn). lia.
Qed.

Lemma take_caps_ok base len missing caps blocks status z :
  (base <= sz_next z)%nat -> (forall i, i ∈ missing -> (i < length status)%nat) -> slots_ok base blocks status z ->
  exists bl st n z', take_caps len missing caps blocks status z = (bl, st, n, z') /\ slots_ok base bl st z' /\ grown base z z' /\ length st = length status /\
    0 <= n <= Z.of_nat (length missing) /\ (forall i, i ∉ missing -> st !! i = status !! i) /\ (n = Z.of_nat (length missing) -> forall i, i ∈ missing -> st !! i = Some 2).
Proof.
  revert caps blocks status z. induction missing as [|i missing IH]; intros caps blocks status z Hb Hi Hs.
  { exists blocks, status, 0, z. split_and!; try done. by intros ? ? ?%not_elem_of_nil. }
  destruct caps as [|cap caps].
  { exists blocks, status, 0, z. split_and!; try done; cbn; lia. }
  cbn [take_caps]. destruct cap.
  - destruct (slots_give base blocks status z i len Hb ltac:(apply Hi; by left) Hs) as [Hs1 Hg1].
    assert (Hb1 : (base <= S (sz_next z))%nat) by lia. assert (Hi1 : forall j, j ∈ missing -> (j < length (<[i := 2%Z]> status))%nat) by (intros j Hj; rewrite length_insert; apply Hi; by right).
    pose proof (fun A B => IH caps _ _ _ A B Hs1) as IH1. destruct (IH1 Hb1 Hi1) as (bl & st & n & z' & -> & Hs2 & Hg2 & Hl & Hn & Ho & Ha).
    rewrite length_insert in Hl. exists bl, st, (n + 1), z'. split; [done|]. split; [done|]. split; [by eapply grown_trans|]. split_and!; [done|lia|rewrite length_cons; lia|..].
    + intros j [Hj Hj']%not_elem_of_cons. rewrite Ho by done. by rewrite list_lookup_insert_ne.
    + intros Hlen j Hj. cbn in Hlen. destruct (decide (j ∈ missing)) as [Hm|Hm]; [apply Ha; [lia|done]|]. apply elem_of_cons in Hj as [->|?]; [|done].
      rewrite Ho by done. apply list_lookup_insert_eq, Hi. by left.
  - destruct (IH caps blocks status z Hb ltac:(intros j Hj; apply Hi; by right) Hs) as (bl & st & n & z' & -> & Hs2 & Hg2 & Hl & Hn & Ho & Ha).
    exists bl, st, n, z'. rewrite length_cons. split; [done|]. split; [done|]. split; [done|]. split_and!; [done|lia|lia|intros j [_ Hj]%not_elem_of_cons; by apply Ho|lia].
Qed.

Lemma slots_pad base blocks status z : slots_ok base blocks status z ->
  exists st err z', slun_row_pad_fix blocks status z = (st, err, z') /\ slots_ok base blocks st z' /\ grown base z z' /\ length st = length status /\ 0 <= err /\
    (err = 0 -> forall i, status !! i = Some 0 \/ status !! i = Some 2 -> st !! i = Some 0).
Proof.
  intros [Hl Hs Ho Hf Hw]. destruct (slun_row_pad_fix_ok blocks status z Hl) as (st & err & z' & E & Hp & Hn & Hz & _ & _ & Hx & Hb). exists st, err, z'.
  assert (Hback : forall i x, st !! i = Some x -> exists y, status !! i = Some y /\ padded y x) by (intros i x Hi; by eapply Forall2_lookup_r).
  assert (Hst : forall i x, st !! i = Some x -> x <> 1 -> exists y, status !! i = Some y /\ y <> 1).
  { intros i x Hi Hn1. destruct (Hback i x Hi) as (y & Hy & Hyx). exists y. split; [done|]. intros ->. done. }
  split; [done|]. split; [|split; [|split_and!; [symmetry; by eapply Forall2_length|done|]]].
  - constructor; [rewrite Hl; by eapply Forall2_length| |done| |].
    + intros i x Hi. destruct (Hback i x Hi) as (y & Hy & Hyx). specialize (Hs i y Hy). unfold padded in Hyx. repeat case_decide; lia.
    + intros i blk x Hi Hx1 Hn1. rewrite Hx. destruct (Hst i x Hx1 Hn1) as (y & Hy & Hny). by eapply Hf.
    + intros i j blk blk' x x' Hi Hj Hx1 Hx2 Hn1 Hn2. destruct (Hst i x Hx1 Hn1) as (y & Hy & Hny), (Hst j x' Hx2 Hn2) as (y' & Hy' & Hny'). by eapply Hw.
  - split; [lia|]. intros k o Hk. apply Hb. intros blk x Hin (-> & <- & _). apply list_elem_of_lookup in Hin as [i Hi].
    apply lookup_zip_with_Some in Hi as (? & ? & [= <- <-] & Hi1 & Hi2). specialize (Hf i _ _ Hi1 Hi2). lia.
  - intros He i Hi. specialize (Hz He). assert (is_Some (status !! i)) as [y Hy] by (destruct Hi as [-> | ->]; eauto).
    destruct (Forall2_lookup_l _ _ _ _ _ Hz Hy) as (x & Hx1 & ->). rewrite Hx1. destruct Hi as [Hi|Hi]; rewrite Hi in Hy; injection Hy as <-; done.
Qed.

(** The blocks of a finished row. *)
Definition new_blocks (base next : nat) (blocks : list (nat * Z)) : Prop := NoDup blocks.*1 /\ Forall (fun blk => (base <= blk.1 < next)%nat /\ blk.2 = 0) blocks.

Lemma slots_done base blocks status z : slots_ok base blocks status z -> (forall i, (i < length status)%nat -> status !! i = Some 0) -> new_blocks base (sz_next z) blocks.
Proof.
  intros [Hl Hs Ho Hf Hw] Hall. assert (Hz : forall i blk, blocks !! i = Some blk -> status !! i = Some 0) by (intros i blk Hi; apply Hall; rewrite <- Hl; by eapply lookup_lt_Some).
  split.
  - apply NoDup_alt. intros i j k Hi Hj. rewrite list_lookup_fmap in Hi, Hj. apply fmap_Some in Hi as (b1 & Hi & ->). apply fmap_Some in Hj as (b2 & Hj & He).
    by eapply (Hw i j b1 b2 0 0); eauto.
  - apply Forall_lookup. intros i blk Hi. split; [by eapply (Hf i); eauto|by eapply Ho].
Qed.

Lemma replace_rounds_ok base len rounds round blocks status z :
  (0 < rounds)%nat -> (base <= sz_next z)%nat -> slots_ok base blocks status z ->
  exists bl err z', replace_rounds rounds round len blocks status z = (bl, err, z') /\ length bl = length blocks /\ grown base z z' /\ 0 <= err /\
    (err = 0 -> new_blocks base (sz_next z') bl).
Proof.
  revert round blocks status z. induction rounds as [|rounds IH]; intros round blocks status z Hr Hb Hs; [lia|]. cbn [replace_rounds].
  set (missing := filter (fun i => status !! i <> Some 0) (seq 0 (length blocks))). pose proof (sk_length _ _ _ _ Hs) as Hl.
  assert (Hok : forall i, (i < length status)%nat -> i ∉ missing -> status !! i = Some 0).
  { intros i Hi Hn. destruct (decide (status !! i = Some 0)); [done|]. destruct Hn. apply list_elem_of_filter. split; [done|]. apply elem_of_seq. lia. }
  assert (Hlt : forall i, i ∈ missing -> (i < length status)%nat) by (intros i [_ Hi%elem_of_seq]%list_elem_of_filter; lia).
  destruct (rs_request z round missing) as [caps|].
  - destruct (take_caps_ok base len missing caps blocks status z Hb Hlt Hs) as (bl & st & n & z1 & -> & Hs1 & Hg1 & Hl1 & Hn & Hout & Hin).
    destruct (slots_pad base bl st z1 Hs1) as (st2 & bad & z2 & -> & Hs2 & Hg2 & Hl2 & Hbad & Hz). pose proof (sk_length _ _ _ _ Hs1) as Hbl.
    assert (Hdone : Z.of_nat (length missing) - n + bad = 0 -> new_blocks base (sz_next z2) bl).
    { intros He. apply (slots_done base bl st2 z2 Hs2). intros i Hi. apply Hz; [lia|]. destruct (decide (i ∈ missing)) as [Hm|Hm]; [right; apply Hin; [lia|done]|left].
      rewrite Hout by done. apply Hok; [lia|done]. }
    assert (Hg : grown base z z2) by (by eapply grown_trans).
    assert (Hend : exists bl' err z', (bl, Z.of_nat (length missing) - n + bad, z2) = (bl', err, z') /\ length bl' = length blocks /\ grown base z z' /\ 0 <= err /\ (err = 0 -> new_blocks base (sz_next z') bl')).
    { eexists _, _, _. split; [done|]. split; [lia|]. split; [done|]. split; [lia|done]. }
    destruct rounds as [|rounds]; [done|]. destruct (_ >? 0); [|done].
    destruct (IH (S round) bl st2 z2 ltac:(lia) ltac:(destruct Hg; lia) Hs2) as (bl' & err & z' & -> & Hl' & Hg' & He & Hnew).
    exists bl', err, z'. split; [done|]. split; [lia|]. split; [by eapply grown_trans|done].
  - eexists _, _, z. split; [done|]. split; [done|]. split; [by split|]. split; [lia|]. intros Hm. apply (slots_done base blocks status z Hs). intros i Hi. apply Hok; [done|].
    destruct missing; [apply not_elem_of_nil|cbn in Hm; lia].
Qed.

Lemma slun_row_replace_fix_ok len n z :
  exists bl err z', slun_row_replace_fix len (replicate n (0%nat, 0)) (replicate n 1) z = (bl, err, z') /\ length bl = n /\ grown (sz_next z) z z' /\ 0 <= err /\
    (err = 0 -> new_blocks (sz_next z) (sz_next z') bl).
Proof.
  unfold slun_row_replace_fix. destruct (replace_rounds_ok (sz_next z) len (Z.to_nat 10000) 0 (replicate n (0%nat, 0)) (replicate n 1) z) as (bl & err & z' & E & Hl & H); [lia|done| |].
  - constructor; [by rewrite !length_replicate|..].
    + intros i st [-> _]%lookup_replicate. lia.
    + intros i blk [-> _]%lookup_replicate. done.
    + intros i blk st _ [-> _]%lookup_replicate. done.
    + intros i j blk blk' st st' _ _ [-> _]%lookup_replicate. done.
  - exists bl, err, z'. rewrite length_replicate in Hl. done.
Qed.

(** Rows of whole stripes up to an offset, made of allocations up to a number. *)
Record row_sized s b : Prop := RowSized {
  rz_offset : (ln_stripe_size s | lr_seg_offset b);
  rz_block : (ln_chunk_size s | lr_block_len b);
  rz_cap : Forall (fun blk => blk.2 = 0) (lr_block b) }.

Record rows_upto s (m : M) (next : nat) (off : Z) : Prop := RowsUpto {
  ru_index : ix_ok m;
  ru_row b : b ∈ ix_list m -> row_ok s b /\ row_sized s b /\ lr_seg_end b < off;
  ru_cover x : 0 <= x < off -> exists b, b ∈ ix_list m /\ inside b x;
  ru_ids : NoDup (concat (row_ids <$> ix_list m));
  ru_next b i : b ∈ ix_list m -> i ∈ row_ids b -> (i < next)%nat }.

Record lun_good s : Prop := LunGood {
  lg_layout : layout s;
  lg_max : 0 < ln_max_block_size s;
  lg_chunk : (ln_chunk_size s | ln_max_block_size s);
  lg_row : ln_max_row_size s = ln_max_block_size s * Z.of_nat (ln_n_devices s);
  lg_total : 0 <= ln_total_size s;
  lg_stripe : (ln_stripe_size s | ln_total_size s);
  lg_rows : rows_upto s (ln_isl s) (ln_next s) (ln_total_size s) }.

Lemma lun_good_wf s : lun_good s -> lun_wf s.
Proof. intros [L _ _ _ _ _ [Hi Hr Hc Hd _]]. constructor; [done|done|intros b Hb; by apply Hr|done|done]. Qed.

(** Every row is still there, maybe longer. *)
Definition extends (m m' : M) : Prop :=
  forall b, b ∈ ix_list m -> exists b', b' ∈ ix_list m' /\ lr_block b' = lr_block b /\ lr_seg_offset b' = lr_seg_offset b /\ lr_seg_end b <= lr_seg_end b'.

Lemma extends_refl m : extends m m.
Proof. intros b Hb. by exists b. Qed.

Lemma extends_trans m m' m'' : extends m m' -> extends m' m'' -> extends m m''.
Proof. intros H1 H2 b Hb. destruct (H1 b Hb) as (b' & Hb' & E1 & E2 & E3), (H2 b' Hb') as (b'' & Hb'' & E1' & E2' & E3'). exists b''. split_and!; [done|congruence|congruence|lia]. Qed.

Lemma ix_insert_perm m b : ix_ok m -> iv_lo b <= iv_hi b -> (forall w, w ∈ ix_list m -> ~ overlaps (iv_lo b) (iv_hi b) w) -> ix_list (ix_insert b m) ≡ₚ b :: ix_list m.
Proof.
  intros Hm Hb Hd. destruct (ix_insert_ok b m Hm Hb Hd) as [Hm' Hin]. apply NoDup_Permutation.
  - by apply ivs_nodup, ix_ok_ivs.
  - constructor; [|by apply ivs_nodup, ix_ok_ivs]. intros Hbm. apply (Hd b Hbm). unfold overlaps. lia.
  - intros w. by rewrite Hin, elem_of_cons.
Qed.

Lemma ix_remove_perm m b : ix_ok m -> b ∈ ix_list m -> ix_list m ≡ₚ b :: ix_list (ix_remove b m).
Proof.
  intros Hm Hb. destruct (ix_remove_ok b m Hm Hb) as [Hm' Hin]. apply NoDup_Permutation.
  - by apply ivs_nodup, ix_ok_ivs.
  - constructor; [|by apply ivs_nodup, ix_ok_ivs]. by intros [? _]%Hin.
  - intros w. rewrite elem_of_cons, Hin. destruct (decide (w = b)) as [->|]; naive_solver.
Qed.

(** A row after the last one. *)
Lemma rows_upto_add s m next off b next' :
  rows_upto s m next off -> layout s -> row_ok s b -> row_sized s b -> lr_seg_offset b = off -> NoDup (row_ids b) ->
  (forall i, i ∈ row_ids b -> (i < next')%nat /\ forall w, w ∈ ix_list m -> i ∉ row_ids w) -> (next <= next')%nat ->
  rows_upto s (ix_insert b m) next' (lr_seg_end b + 1) /\ forall w, w ∈ ix_list (ix_insert b m) <-> w = b \/ w ∈ ix_list m.
Proof.
  intros [Hi Hr Hc Hd Hn] L Hb Hz Ho Hnd Hnew Hle. destruct Hb as [B1 B2 B3 B4 B5] eqn:EB. pose proof (ly_devices s L) as Hdev.
  assert (Hlen : iv_lo b <= iv_hi b) by (cbn; nia).
  assert (Hdis : forall w, w ∈ ix_list m -> ~ overlaps (iv_lo b) (iv_hi b) w) by (intros w Hw; destruct (Hr w Hw) as (_ & _ & ?); unfold overlaps; cbn; lia).
  destruct (ix_insert_ok b m Hi Hlen Hdis) as [Hi' Hin]. pose proof (ix_insert_perm m b Hi Hlen Hdis) as Hp. split; [|done].
  constructor; [done|..].
  - intros w [->|Hw]%Hin; [split_and!; [done|done|lia]|]. destruct (Hr w Hw) as (? & ? & ?). split_and!; [done|done|cbn in Hlen; lia].
  - intros x Hx. destruct (decide (x < off)) as [Hlt|Hge].
    + destruct (Hc x ltac:(lia)) as (w & Hw & Hwx). exists w. split; [|done]. apply Hin. by right.
    + exists b. split; [apply Hin; by left|]. unfold inside. cbn. lia.
  - rewrite (concat_fmap_perm _ _ _ Hp). cbn. apply NoDup_app. split_and!; [done| |done]. intros i Hib (w & Hw & Hiw)%elem_of_concat_fmap. by apply (proj2 (Hnew i Hib) w).
  - intros w i [->|Hw]%Hin Hiw; [by apply Hnew|specialize (Hn w i Hw Hiw); lia].
Qed.

(** The last row made longer. *)
Lemma rows_upto_extend s m next b b' :
  rows_upto s m next (lr_seg_end b + 1) -> layout s -> b ∈ ix_list m -> row_ok s b' -> row_sized s b' ->
  lr_seg_offset b' = lr_seg_offset b -> lr_block b' = lr_block b -> lr_seg_end b <= lr_seg_end b' ->
  let m' := ix_insert b' (ix_remove b m) in rows_upto s m' next (lr_seg_end b' + 1) /\ extends m m'.
Proof.
  intros [Hi Hr Hc Hd Hn] L Hb Hb' Hz' Ho Hbl He m'. assert (Hids : row_ids b' = row_ids b) by (unfold row_ids; congruence).
  destruct (ix_remove_ok b m Hi Hb) as [Hi1 Hin1]. assert (Hlen : iv_lo b' <= iv_hi b') by (pose proof (ix_proper m b Hi Hb); cbn in *; lia).
  assert (Hdis : forall w, w ∈ ix_list (ix_remove b m) -> ~ overlaps (iv_lo b') (iv_hi b') w).
  { intros w [Hwb Hw]%Hin1 [Hw1 Hw2]. destruct (Hr w Hw) as (_ & _ & Hwe). pose proof (ix_proper m w Hi Hw) as Hp. cbn in *. apply Hwb.
    apply (ix_disjoint m w b (lr_seg_end w) Hi Hw Hb); unfold inside; cbn; lia. }
  destruct (ix_insert_ok b' _ Hi1 Hlen Hdis) as [Hi2 Hin2]. fold m' in Hi2, Hin2. pose proof (ix_insert_perm _ b' Hi1 Hlen Hdis) as Hp. pose proof (ix_remove_perm m b Hi Hb) as Hp1. split.
  - constructor; [done|..].
    + intros w [->|[_ Hw]%Hin1]%Hin2; [split_and!; [done|done|lia]|]. destruct (Hr w Hw) as (? & ? & ?). split_and!; [done|done|lia].
    + intros x Hx. destruct (decide (lr_seg_offset b <= x)) as [Hge|Hlt].
      * exists b'. split; [apply Hin2; by left|]. unfold inside. cbn. lia.
      * pose proof (ix_proper m b Hi Hb) as Hpb. cbn in Hpb. destruct (Hc x ltac:(lia)) as (w & Hw & Hwx). exists w. split; [|done]. apply Hin2. right. apply Hin1. split; [|done].
        intros ->. unfold inside in Hwx. cbn in Hwx. lia.
    + unfold m'. rewrite (concat_fmap_perm _ _ _ Hp). cbn. rewrite Hids. rewrite (concat_fmap_perm _ _ _ Hp1) in Hd. done.
    + intros w k [->|[_ Hw]%Hin1]%Hin2 Hk; [rewrite Hids in Hk; by apply (Hn b)|by apply (Hn w)].
  - intros w Hw. destruct (decide (w = b)) as [->|Hwb]; [exists b'; split_and!; [apply Hin2; by left|done..]|].
    exists w. split_and!; [apply Hin2; right; by apply Hin1|done..].
Qed.

(** A row of whole stripes. *)
Lemma new_row_ok s blocks off len : layout s -> 0 <= off -> 0 < len -> length blocks = ln_n_devices s ->
  (ln_stripe_size s | off) -> (ln_stripe_size s | len) -> Forall (fun blk => blk.2 = 0) blocks ->
  let n := Z.of_nat (ln_n_devices s) in let b := Row blocks off (off + len / n * n - 1) (len / n) (len / n * n) in row_ok s b /\ row_sized s b /\ lr_seg_end b = off + len - 1.
Proof.
  intros L Ho Hl Hb Do [q Dl] Hc n b. pose proof (ly_devices s L) as Hn. pose proof (ly_chunk s L) as Hch. pose proof (ly_stripe s L) as HS. fold n in Hn, HS.
  assert (Hq : len / n = q * ln_chunk_size s) by (rewrite Dl, HS; replace (q * (n * ln_chunk_size s)) with (q * ln_chunk_size s * n) by ring; apply Z.div_mul; lia).
  assert (0 < q) by nia. subst b. rewrite Hq. split_and!; [constructor; cbn; try done; nia|constructor; cbn; [done|by exists q|done]|cbn; nia].
Qed.

Lemma grow_rows_ok s fuel off new m z u : lun_good s -> 0 <= off -> (ln_stripe_size s | off) -> (ln_stripe_size s | new) -> u = Z.min off new ->
  rows_upto s m (sz_next z) u -> new - off <= (Z.of_nat fuel - 1) * ln_max_row_size s -> (0 < fuel)%nat ->
  exists ok m' z' u', grow_rows fuel s off new m z = Ok (ok, m', z') /\ extends m m' /\ grown (sz_next z) z z' /\ rows_upto s m' (sz_next z') u' /\ u <= u' /\ (ok = true -> u' = new \/ new <= off /\ u' = u).
Proof.
  intros G. pose proof (lg_layout s G) as L. pose proof (ly_devices s L) as Hn. pose proof (lg_row s G) as Hrow. pose proof (lg_max s G) as Hmax. assert (Hmr : 0 < ln_max_row_size s) by nia.
  assert (Dmr : (ln_stripe_size s | ln_max_row_size s)).
  { rewrite Hrow, (ly_stripe s L), (Z.mul_comm (ln_max_block_size s)). apply Z.mul_divide_mono_l, G. }
  revert off m z u. induction fuel as [|fuel IH]; intros off m z u Ho Do Dn Hu Hr Hf H0; [lia|]. cbn [grow_rows]. destruct (off <? new) eqn:E; breflect.
  - set (dsize := if off + ln_max_row_size s >? new then new - off else ln_max_row_size s).
    assert (Hd : 0 < dsize /\ (ln_stripe_size s | dsize) /\ (dsize = ln_max_row_size s /\ off + ln_max_row_size s <= new \/ dsize = new - off /\ new < off + ln_max_row_size s)).
    { subst dsize. case_match; breflect; split_and!; [lia|by apply Z.divide_sub_r|lia|done|done|lia]. }
    clearbody dsize. destruct Hd as (Hd1 & Dd & Hd2). unfold c_div. replace (Z.of_nat (ln_n_devices s) =? 0) with false by lia. cbn [mbind res_bind]. rewrite Z.quot_div_nonneg by lia.
    destruct (slun_row_replace_fix_ok (dsize / Z.of_nat (ln_n_devices s)) (ln_n_devices s) z) as (bl & err & z1 & -> & Hl & Hg & He & Hnew).
    destruct (err =? 0) eqn:Ee; breflect.
    + specialize (Hnew Ee). destruct Hnew as [Hnd Hnew]. assert (Hcap : Forall (fun blk : nat * Z => blk.2 = 0) bl) by (eapply Forall_impl; [exact Hnew|by intros ? [_ ?]]).
      destruct (new_row_ok s bl off dsize L Ho Hd1 Hl Do Dd Hcap) as (Hro & Hrs & Hre). set (b := Row _ _ _ _ _) in *.
      destruct (rows_upto_add s m (sz_next z) off b (sz_next z1)) as [Hr1 Hin1]; [by replace off with u by lia|done|done|done|done|done| |apply Hg|].
      { intros i (blk & -> & Hblk)%list_elem_of_fmap. rewrite Forall_forall in Hnew. apply Hnew in Hblk as [Hblk _]. split; [lia|]. intros w Hw Hiw.
        pose proof (ru_next _ _ _ _ Hr w _ Hw Hiw). lia. }
      assert (Hx1 : extends m (ix_insert b m)) by (intros w Hw; exists w; split_and!; [apply Hin1; by right|done..]). rewrite Hre in Hr1.
      destruct (IH (off + ln_max_row_size s) (ix_insert b m) z1 (off + dsize)) as (ok & m' & z' & u' & -> & Hx & Hg' & Hr' & Hu' & Hok); [lia|by apply Z.divide_add_r|done|lia|by replace (off + dsize) with (off + dsize - 1 + 1) by lia|lia|nia|].
      exists ok, m', z', u'. split; [done|]. split; [by eapply extends_trans|]. split; [|split_and!; [done|lia|]].
      * destruct Hg as [G1 G2], Hg' as [G3 G4]. split; [lia|]. intros k o Hk. rewrite G4, G2; [done|done|lia].
      * intros Hok1. left. destruct (Hok Hok1) as [?|[? ->]]; [done|lia].
    + exists false, m, z1, u. split; [done|]. split; [apply extends_refl|]. split; [done|]. split; [|split; [lia|done]]. destruct Hr as [R1 R2 R3 R4 R5], Hg as [G1 _]. constructor; try done.
      intros b i Hb Hi. specialize (R5 b i Hb Hi). lia.
  - exists true, m, z, u. split; [done|]. split; [apply extends_refl|]. split; [by split|]. split; [done|]. split; [lia|auto].
Qed.

(** A block marked as grown has its new size on record. *)
Lemma slun_row_size_check_ok len blocks status z : length blocks = length status -> Forall (fun st => st <> 2) status ->
  exists st n z', slun_row_size_check len blocks status z = (st, n, z') /\ length st = length status /\ sz_depot z' = sz_depot z /\ sz_next z' = sz_next z /\
    (forall k, sz_max z !! k = Some len -> sz_max z' !! k = Some len) /\ (forall blk, (blk, 2) ∈ zip blocks st -> sz_max z' !! blk.1 = Some len).
Proof.
  revert status z. induction blocks as [|blk blocks IH]; intros [|st status] z Hl Hf; try done.
  { exists [], 0, z. split_and!; try done. by intros blk ?%not_elem_of_nil. }
  injection Hl as Hl. apply Forall_cons in Hf as [Hst Hf]. cbn [slun_row_size_check].
  assert (H1 : exists st1 e1 z1, size_block len blk st z = (st1, e1, z1) /\ sz_depot z1 = sz_depot z /\ sz_next z1 = sz_next z /\
    (forall k, sz_max z !! k = Some len -> sz_max z1 !! k = Some len) /\ (st1 = 2 -> sz_max z1 !! blk.1 = Some len)).
  { unfold size_block. destruct (_ <? _); [destruct (_ =? 0); [|destruct (grants _ _)]|]; eexists _, _, _; (split; [done|]); split_and!; try done; cbn.
    - intros k Hk. destruct (decide (k = blk.1)) as [->|]; [by rewrite lookup_insert_eq|by rewrite lookup_insert_ne].
    - intros _. apply lookup_insert_eq. }
  destruct H1 as (st1 & e1 & z1 & -> & D1 & X1 & M1 & S1). destruct (IH status z1 Hl Hf) as (st2 & e2 & z2 & -> & L2 & D2 & X2 & M2 & S2).
  eexists _, _, z2. split; [done|]. split_and!; [cbn; lia|congruence|congruence|auto|]. intros blk' [[= <- Hs]|Hin]%elem_of_cons; [apply M2, S1; done|by apply S2].
Qed.

(** The bytes of a row are in its blocks. *)
Lemma row_off_bound s b r : layout s -> row_ok s b -> row_sized s b -> 0 <= r < lr_row_len b -> 0 <= row_off s r < lr_block_len b.
Proof.
  intros L [_ Hb Hl _ _] [_ [q Hq] _] Hr. destruct (stripe_split s L r) as (t & d & o & E & Ht & Hd & Ho & E1 & _ & E3); [lia|].
  unfold row_off. rewrite E1, E3. pose proof (ly_stripe s L) as HS. pose proof (ly_chunk s L) as Hc. split; [nia|].
  assert (t < q) by (apply (Z.mul_lt_mono_pos_r (ln_stripe_size s)); [by apply stripe_pos|nia]). nia.
Qed.

(** The contents of the rows are kept. *)
Definition keeps_rows s (z : sizes) : Prop :=
  forall b k o, b ∈ ix_list (ln_isl s) -> k ∈ row_ids b -> 0 <= o < lr_block_len b -> lun_bytes (sz_depot z) k o = lun_bytes (ln_depot s) k o.

Section grow_last.
Context s (G : lun_good s) (new : Z) (Dn : (ln_stripe_size s | new)) (Hnew : ln_total_size s < new) (b : seglun_row) (Hb : b ∈ ix_list (ln_isl s)) (Hend : lr_seg_end b + 1 = ln_total_size s).

(** The row with its new length. *)
Lemma grow_row_len : lr_row_len b < ln_max_row_size s ->
  let n := Z.of_nat (ln_n_devices s) in let d := (new - lr_seg_offset b) / n in
  d mod ln_chunk_size s = 0 /\ let len := if d >? ln_max_block_size s then ln_max_block_size s else d in
  lr_block_len b < len /\ (ln_chunk_size s | len) /\ lr_seg_offset b + len * n <= new.
Proof using G Dn Hnew Hb Hend.
  intros Hlt n d. destruct G as [L Hm Dc Hrow Ht Ds [Hi Hr _ _ _]]. destruct (Hr b Hb) as ([R1 R2 R3 R4 R5] & [R6 R7 R8] & _). pose proof (ly_devices s L) as Hn. pose proof (ly_chunk s L) as Hc.
  pose proof (ly_stripe s L) as HS. fold n in Hn, HS, R3, Hrow. assert (Dd : (ln_stripe_size s | new - lr_seg_offset b)) by (by apply Z.divide_sub_r). destruct Dd as [q Hq].
  assert (Hd : d = q * ln_chunk_size s) by (unfold d; rewrite Hq, HS; replace (q * (n * ln_chunk_size s)) with (q * ln_chunk_size s * n) by ring; apply Z.div_mul; lia).
  split; [rewrite Hd; apply Z.mod_mul; lia|]. assert (Hdn : d * n = new - lr_seg_offset b) by nia. destruct (d >? ln_max_block_size s) eqn:E; breflect; (split_and!; [nia|..]).
  - done.
  - nia.
  - by exists q.
  - lia.
Qed.

(** Padding it does not touch the file. *)
Lemma grow_row_pads len status n z1 z2 :
  lr_block_len b < len -> slun_row_size_check len (lr_block b) (replicate (ln_n_devices s) 0) (sizes_of s) = (status, n, z1) ->
  (z2 = z1 \/ exists st e, slun_row_pad_fix (lr_block b) status z1 = (st, e, z2)) -> keeps_rows s z2 /\ sz_next z2 = ln_next s.
Proof using G Hb.
  intros Hlen Hsc Hz. destruct G as [L Hm Dc Hrow Ht Ds [Hi Hr _ Hd _]]. destruct (Hr b Hb) as ([R1 R2 R3 R4 R5] & [R6 R7 R8] & _).
  destruct (slun_row_size_check_ok len (lr_block b) (replicate (ln_n_devices s) 0) (sizes_of s)) as (st' & n' & z' & E' & L1 & D1 & X1 & _ & S1); [by rewrite length_replicate|by apply Forall_replicate|].
  rewrite Hsc in E'. injection E' as <- <- <-. rewrite length_replicate in L1. destruct Hz as [->|(st & e & Hp)]; [split; [|done]; intros b' k o _ _ _; by rewrite D1|].
  destruct (slun_row_pad_fix_ok (lr_block b) status z1) as (st2 & e2 & z3 & E3 & _ & _ & _ & _ & _ & X3 & B3); [lia|]. rewrite Hp in E3. injection E3 as <- <- <-.
  split; [|by rewrite X3]. intros b' k o Hb' Hk Ho. rewrite B3; [by rewrite D1|]. intros blk x Hin (-> & Hbk & Hpos).
  rewrite <- Hbk in Hpos, Hk. rewrite (S1 blk Hin) in Hpos. cbn in Hpos. apply elem_of_zip_l in Hin. rewrite Forall_forall in R8. rewrite (R8 blk Hin) in Hpos.
  assert (Hkb : blk.1 ∈ row_ids b) by (by apply list_elem_of_fmap_2). rewrite (concat_nodup_inj row_ids _ b' b blk.1 Hd Hb' Hb Hk Hkb) in Ho. lia.
Qed.
End grow_last.

Lemma search_last_row s : lun_good s -> 0 < ln_total_size s ->
  exists b l, ix_search (ln_total_size s - 1) (ln_total_size s) (ln_isl s) = b :: l /\ b ∈ ix_list (ln_isl s) /\ lr_seg_end b + 1 = ln_total_size s.
Proof.
  intros G Ht. destruct (lg_rows s G) as [Hi Hr Hc _ _]. destruct (Hc (ln_total_size s - 1)) as (b0 & Hb0 & Hx); [lia|].
  assert (Hin : b0 ∈ ix_search (ln_total_size s - 1) (ln_total_size s) (ln_isl s)) by (apply ix_search_elem; [done|left; lia|]; unfold overlaps, inside in *; split; [lia|done]).
  destruct (ix_search _ _ _) as [|b l] eqn:E; [by apply not_elem_of_nil in Hin|]. exists b, l.
  assert (Hb : b ∈ ix_search (ln_total_size s - 1) (ln_total_size s) (ln_isl s)) by (rewrite E; by left).
  apply ix_search_elem in Hb as [Ho Hb]; [|done|left; lia]. destruct (Hr b Hb) as (_ & _ & He). unfold overlaps in Ho. cbn in Ho. split_and!; [done|done|lia].
Qed.

Lemma grow_row_ok s new : lun_good s -> (ln_stripe_size s | new) -> ln_total_size s < new ->
  exists m lo z, grow_row new s = Ok (m, lo, z) /\ rows_upto s m (sz_next z) lo /\ extends (ln_isl s) m /\ keeps_rows s z /\ sz_next z = ln_next s /\
    ln_total_size s <= lo <= new /\ (ln_stripe_size s | lo).
Proof.
  intros G Dn Hnew. pose proof (lg_layout s G) as L. pose proof (ly_devices s L) as Hn. pose proof (ly_chunk s L) as Hc. pose proof (lg_rows s G) as Hrows. unfold grow_row.
  assert (Hsame : exists m lo z, Ok (A := M * Z * sizes) (ln_isl s, ln_total_size s, sizes_of s) = Ok (m, lo, z) /\ rows_upto s m (sz_next z) lo /\ extends (ln_isl s) m /\ keeps_rows s z /\
    sz_next z = ln_next s /\ ln_total_size s <= lo <= new /\ (ln_stripe_size s | lo)).
  { eexists _, _, _. split; [done|]. split; [done|]. split; [apply extends_refl|]. split; [done|]. split_and!; [done|lia|lia|apply G]. }
  destruct ((ln_total_size s >? 0) && negb (ln_grow_break s)) eqn:E; [|done]. breflect.
  destruct (search_last_row s G) as (b & l & -> & Hb & Hend); [lia|]. destruct (lr_row_len b <? ln_max_row_size s) eqn:El; breflect; [|by rewrite Hend].
  destruct (ru_row _ _ _ _ Hrows b Hb) as ([R1 R2 R3 R4 R5] & [R6 R7 R8] & _).
  destruct (grow_row_len s G new Dn Hnew b Hb Hend El) as [Hmod Hlen]. cbn zeta in Hlen. unfold c_div, c_rem.
  replace (Z.of_nat (ln_n_devices s) =? 0) with false by lia. replace (ln_chunk_size s =? 0) with false by lia. cbn [mbind res_bind]. assert (0 <= new - lr_seg_offset b) by nia.
  rewrite Z.quot_div_nonneg by lia. rewrite Z.rem_mod_nonneg, Hmod, Z.add_0_r by (lia || apply Z.div_pos; lia).
  set (len := if (new - lr_seg_offset b) / Z.of_nat (ln_n_devices s) >? ln_max_block_size s then _ else _) in *. clearbody len. destruct Hlen as (Hlt & Dl & Hle).
  destruct (slun_row_size_check len (lr_block b) (replicate (ln_n_devices s) 0) (sizes_of s)) as [[status nm] z1] eqn:Es.
  set (p := if bool_decide (2 ∈ status) then _ else _). assert (Hp : exists berr z2, p = (berr, z2) /\ keeps_rows s z2 /\ sz_next z2 = ln_next s).
  { subst p. case_bool_decide; [destruct (slun_row_pad_fix (lr_block b) status z1) as [[st e] z2] eqn:Ep|]; eexists _, _; (split; [done|]); eapply (grow_row_pads s G b Hb len); eauto. }
  destruct Hp as (berr & z2 & -> & Hk & Hx). set (len' := if berr >? 0 then lr_block_len b else len).
  assert (Hl' : lr_block_len b <= len' <= len /\ (ln_chunk_size s | len')) by (subst len'; case_match; split; (lia || done)). clearbody len'. destruct Hl' as [Hl' Dl'].
  set (b' := Row _ _ _ _ _). eexists _, _, _. split; [done|]. assert (He : lr_seg_end b <= lr_seg_end b') by (cbn; nia).
  destruct (rows_upto_extend s (ln_isl s) (ln_next s) b b') as [Hr' Hx']; [by rewrite Hend|done|done|constructor; cbn; try done; nia|by constructor|done|done|done|].
  split; [by case_match; [|rewrite Hx]; cbn; rewrite ?Hx|]. split; [done|]. split; [by case_match|]. split; [by case_match|]. split; [cbn in *; nia|]. cbn.
  replace (lr_seg_offset b + len' * Z.of_nat (ln_n_devices s) - 1 + 1) with (lr_seg_offset b + len' * Z.of_nat (ln_n_devices s)) by lia.
  apply Z.divide_add_r; [done|]. rewrite (ly_stripe s L), (Z.mul_comm len'). by apply Z.mul_divide_mono_l.
Qed.

Lemma round_stripes_ok s x : layout s -> 0 <= x -> exists y, round_stripes s x = Ok y /\ x <= y < x + ln_stripe_size s /\ (ln_stripe_size s | y).
Proof.
  intros L Hx. pose proof (stripe_pos s L) as HS. unfold round_stripes, c_div. replace (ln_stripe_size s =? 0) with false by lia. cbn [mbind res_bind].
  rewrite Z.quot_div_nonneg, Z.rem_mod_nonneg by lia. pose proof (Z.div_mod x (ln_stripe_size s) ltac:(lia)) as E. pose proof (Z.mod_pos_bound x (ln_stripe_size s) HS) as B.
  eexists. split; [done|]. destruct (_ >? 0) eqn:Eg; breflect; (split; [lia|]); [apply Z.divide_add_r; [|done]|rewrite Z.add_0_r]; by exists (x / ln_stripe_size s).
Qed.

Section set_rows.
Context s (m : M) (used total : Z) (z : sizes).
#[local] Abbreviation s' := (set_rows m used total z s).

Lemma set_rows_layout : layout s -> layout s'.
Proof using. by intros []; constructor. Qed.

Lemma set_rows_upto next off : rows_upto s m next off -> rows_upto s' m next off.
Proof using. intros [Hi Hr Hc Hd Hn]. constructor; try done. intros b Hb. destruct (Hr b Hb) as ([] & [] & ?). by split_and!; [constructor|constructor|]. Qed.

Lemma set_rows_wf next off : layout s -> rows_upto s m next off -> total <= off -> lun_wf s'.
Proof using. intros L Hr%set_rows_upto Ht. destruct Hr as [Hi Hr Hc Hd Hn]. constructor; [by apply set_rows_layout|done|intros b Hb; by apply Hr|intros x Hx; apply Hc; cbn in Hx; lia|done]. Qed.

Lemma set_rows_good next : lun_good s -> rows_upto s m next total -> (next <= sz_next z)%nat -> 0 <= total -> (ln_stripe_size s | total) -> lun_good s'.
Proof using.
  intros [L Hm Dc Hrow _ _ _] Hr Hn Ht Dt. constructor; try done; [by apply set_rows_layout|]. apply set_rows_upto. destruct Hr as [R1 R2 R3 R4 R5]. constructor; try done.
  intros b i Hb Hi. specialize (R5 b i Hb Hi). cbn. lia.
Qed.

(** A row that is kept, with its contents. *)
Lemma set_rows_view_at x b b' :
  lun_wf s -> ix_ok m -> b ∈ ix_list (ln_isl s) -> b' ∈ ix_list m -> inside b x -> inside b' x -> lr_block b' = lr_block b -> lr_seg_offset b' = lr_seg_offset b ->
  (forall k, k ∈ row_ids b -> lun_bytes (sz_depot z) k (row_off s (x - lr_seg_offset b)) = lun_bytes (ln_depot s) k (row_off s (x - lr_seg_offset b))) ->
  lun_place s' x = lun_place s x /\ lun_view s' x = lun_view s x.
Proof using IntervalIndexLaws0.
  intros W Hm Hb Hb' Hx Hx' E1 E2 Hk. assert (Hp : lun_place s' x = lun_place s x).
  { rewrite (lun_place_at s' b'), (lun_place_at s b) by (done || apply W). unfold row_place, row_ids. by rewrite E1, E2. }
  split; [done|]. unfold lun_view. rewrite Hp, (lun_place_at s b) by (done || apply W). apply Hk.
  apply list_elem_of_lookup_2 with (Z.to_nat (row_dev s (x - lr_seg_offset b))), list_lookup_lookup_total_lt.
  unfold row_ids. rewrite length_fmap, (rk_devices s b) by (by apply W). pose proof (row_dev_bound s (lu_layout s W) (x - lr_seg_offset b)). lia.
Qed.

(** Extended rows hold what they held. *)
Lemma set_rows_view x : lun_good s -> ix_ok m -> extends (ln_isl s) m -> keeps_rows s z -> 0 <= x < ln_total_size s -> lun_place s' x = lun_place s x /\ lun_view s' x = lun_view s x.
Proof using IntervalIndexLaws0.
  intros G Hm He Hk Hx. destruct (lg_rows s G) as [Hi Hr Hc _ _]. destruct (Hc x Hx) as (b & Hb & Hbx). destruct (He b Hb) as (b' & Hb' & E1 & E2 & E3).
  destruct (Hr b Hb) as (Ho & Hz & _). pose proof (rk_end s b Ho) as Hend. apply (set_rows_view_at x b b'); try done; [by apply lun_good_wf|unfold inside in *; cbn in *; lia|].
  intros k Hkb. apply (Hk b); [done|done|]. unfold inside in Hbx. cbn in Hbx. apply row_off_bound; [apply G|done|done|lia].
Qed.
End set_rows.

(** After growing, the file is the same up to its old end. *)
Definition same_file s s' : Prop := forall x, 0 <= x < ln_total_size s -> lun_place s' x = lun_place s x /\ lun_view s' x = lun_view s x.

Lemma seglun_grow_ok s arg : lun_good s -> ln_total_size s < Z.abs arg ->
  exists ok s', seglun_grow arg s = Ok (ok, s') /\ lun_wf s' /\ same_file s s' /\
    if ok : bool then lun_good s' /\ Z.abs arg <= ln_total_size s' < Z.abs arg + ln_stripe_size s /\ ln_used_size s' = (if arg <? 0 then ln_used_size s else ln_total_size s')
    else ln_total_size s' = ln_total_size s /\ ln_used_size s' = ln_used_size s.
Proof.
  intros G Ht. pose proof (lg_layout s G) as L. unfold seglun_grow. replace (if arg <? 0 then - arg else arg) with (Z.abs arg) by (case_match; breflect; lia).
  replace ((arg <? 0) && (Z.abs arg <? ln_total_size s)) with false by (symmetry; apply andb_false_iff; right; lia).
  destruct (round_stripes_ok s (Z.abs arg) L) as (new & -> & Hb & Dn); [lia|]. cbn [mbind res_bind].
  destruct (grow_row_ok s new G Dn ltac:(lia)) as (m & lo & z & -> & Hr & Hx & Hk & Hnx & Hlo & Dlo). cbn [mbind res_bind].
  pose proof (lg_total s G) as H0. pose proof (lg_row s G) as Hrow. pose proof (lg_max s G) as Hmax. pose proof (ly_devices s L) as Hn. assert (Hmr : 0 < ln_max_row_size s) by nia.
  set (fuel := S (S _)). destruct (grow_rows_ok s fuel lo new m z lo G) as (ok & m' & z' & u & -> & Hx' & Hg & Hr' & Hu & Hok); [lia|done|done|lia|done| |lia|].
  { subst fuel. rewrite !Nat2Z.inj_succ, Z2Nat.id by (apply Z.div_pos; lia). pose proof (Z.div_mod (new - lo) (ln_max_row_size s) ltac:(lia)). pose proof (Z.mod_pos_bound (new - lo) (ln_max_row_size s) Hmr). nia. }
  cbn [mbind res_bind]. assert (Hkz : keeps_rows s z').
  { intros b k o Hb' Hk' Ho. destruct Hg as [_ Hg]. rewrite Hg, (Hk b k o Hb' Hk' Ho); [done|]. rewrite Hnx. by apply (ru_next _ _ _ _ (lg_rows s G) b). }
  assert (Hsame : forall used total, same_file s (set_rows m' used total z' s)).
  { intros used total x Hxx. apply set_rows_view; [done|apply Hr'|by eapply extends_trans|done|done]. }
  eexists ok, _. split; [done|]. destruct ok.
  - destruct (Hok eq_refl) as [->|[? ->]]; [|assert (lo = new) as -> by lia].
    all: split; [eapply set_rows_wf; [done|done|lia]|]; split; [apply Hsame|]; split; [by eapply set_rows_good; [done|done|done|lia|done]|]; split; [done|].
    all: cbn; destruct (arg >? -1) eqn:E1, (arg <? 0) eqn:E2; breflect; (done || lia).
  - split; [eapply set_rows_wf; [done|done|lia]|]. split; [apply Hsame|done].
Qed.

(** ** Shrinking keeps what is left *)

Lemma ds_remove_all_other blocks z k : k ∉ blocks.*1 -> lun_bytes (sz_depot (ds_remove_all blocks z)) k = lun_bytes (sz_depot z) k /\ sz_next (ds_remove_all blocks z) = sz_next z.
Proof.
  unfold ds_remove_all. revert z. induction blocks as [|blk blocks IH]; intros z; [done|]. cbn. intros [Hk Hn]%not_elem_of_cons. rewrite !(proj1 (IH _ Hn)), !(proj2 (IH _ Hn)).
  destruct (up blk.1); [|done]. cbn. unfold lun_bytes. by rewrite lookup_delete_ne.
Qed.

Lemma ds_remove_rows_other dropped z k : (forall b, b ∈ dropped -> k ∉ row_ids b) ->
  lun_bytes (sz_depot (foldl (fun z b => ds_remove_all (lr_block b) z) z dropped)) k = lun_bytes (sz_depot z) k.
Proof.
  revert z. induction dropped as [|b dropped IH]; intros z Hk; [done|]. cbn. rewrite IH by (intros b' Hb'; apply Hk; by right).
  by apply ds_remove_all_other, (Hk b); left.
Qed.

Lemma ds_remove_all_next blocks z : sz_next (ds_remove_all blocks z) = sz_next z.
Proof. unfold ds_remove_all. revert z. induction blocks as [|blk blocks IH]; intros z; [done|]. cbn. rewrite IH. by destruct (up blk.1). Qed.

Lemma ds_remove_rows_next dropped z : sz_next (foldl (fun z b => ds_remove_all (lr_block b) z) z dropped) = sz_next z.
Proof. revert z. induction dropped as [|b dropped IH]; intros z; [done|]. cbn. by rewrite IH, ds_remove_all_next. Qed.

Lemma ds_truncate_all_keeps size blocks z k o : k ∉ blocks.*1 \/ o < size -> lun_bytes (sz_depot (ds_truncate_all size blocks z)) k o = lun_bytes (sz_depot z) k o.
Proof.
  unfold ds_truncate_all. revert z. induction blocks as [|blk blocks IH]; intros z Hk; [done|]. cbn. rewrite IH by (destruct Hk as [Hk|Hk]; [left; by apply not_elem_of_cons in Hk as [_ ?]|by right]).
  destruct (up blk.1); [|done]. cbn. rewrite lun_bytes_insert. case_decide as Ek; [|done]. subst k. destruct Hk as [Hk|Hk]; [cbn in Hk; by apply not_elem_of_cons in Hk as [? _]|].
  by rewrite (proj2 (Z.ltb_lt _ _) Hk).
Qed.

Lemma ds_truncate_all_next size blocks z : sz_next (ds_truncate_all size blocks z) = sz_next z.
Proof. unfold ds_truncate_all. revert z. induction blocks as [|blk blocks IH]; intros z; [done|]. cbn. rewrite IH. by destruct (up blk.1). Qed.

(** The rows from an offset on. *)
Lemma search_from s new b rest : lun_good s -> 0 <= new < ln_total_size s -> ix_search new (ln_total_size s) (ln_isl s) = b :: rest ->
  b ∈ ix_list (ln_isl s) /\ inside b new /\ NoDup (b :: rest) /\ forall w, w ∈ b :: rest <-> w ∈ ix_list (ln_isl s) /\ new <= lr_seg_end w.
Proof.
  intros G Hn E. destruct (lg_rows s G) as [Hi Hr Hc _ _].
  assert (Hin : forall w, w ∈ b :: rest <-> w ∈ ix_list (ln_isl s) /\ new <= lr_seg_end w).
  { intros w. rewrite <- E, ix_search_elem by (done || (left; lia)). unfold overlaps. cbn. split; [tauto|]. intros [Hw Hle]. destruct (Hr w Hw) as (_ & _ & He). pose proof (ix_proper _ w Hi Hw) as Hp. cbn in Hp. split; [lia|done]. }
  pose proof (ix_search_ivs (ln_isl s) new (ln_total_size s) Hi ltac:(left; lia)) as Hs. rewrite E in Hs. destruct (proj1 (Hin b) ltac:(by left)) as [Hb Hbe].
  split_and!; [done| |by apply ivs_nodup|done]. destruct (Hc new Hn) as (c & Hcm & Hcx). apply ivs_ok_cons in Hs as (_ & Hbf & _). rewrite Forall_forall in Hbf.
  unfold inside in *. cbn in *. assert (Hcs : c ∈ b :: rest) by (apply Hin; split; [done|lia]). apply elem_of_cons in Hcs as [->|Hcs]; [done|].
  apply Hbf in Hcs. unfold before in Hcs. cbn in Hcs. pose proof (ix_proper _ b Hi Hb) as Hp. cbn in Hp. lia.
Qed.

Lemma rows_upto_drop s new b rest : lun_good s -> 0 <= new < ln_total_size s -> ix_search new (ln_total_size s) (ln_isl s) = b :: rest ->
  let m := foldl (fun m b => ix_remove b m) (ln_isl s) (reverse (b :: rest)) in
  rows_upto s m (ln_next s) (lr_seg_offset b) /\ forall w, w ∈ ix_list m <-> w ∈ ix_list (ln_isl s) /\ lr_seg_end w < lr_seg_offset b.
Proof.
  intros G Hn E m. destruct (search_from s new b rest G Hn E) as (Hb & Hbx & Hnd & Hin). destruct (lg_rows s G) as [Hi Hr Hc Hd Hx].
  destruct (ix_remove_all_ok (reverse (b :: rest)) (ln_isl s)) as [Hm Hel]; [done|by rewrite reverse_Permutation|intros w; rewrite elem_of_reverse; by intros [? _]%Hin|]. fold m in Hm, Hel.
  assert (Hmem : forall w, w ∈ ix_list m <-> w ∈ ix_list (ln_isl s) /\ lr_seg_end w < lr_seg_offset b).
  { intros w. rewrite Hel, elem_of_reverse, Hin. unfold inside in Hbx. cbn in Hbx. split; [intros [Hw Hwm]|intros [Hwm Hw]; split; [lia|done]]. split; [done|].
    apply Znot_ge_lt. intros Hge. pose proof (ix_proper _ w Hi Hwm) as Hp. cbn in Hp. assert (lr_seg_end w < new) by (destruct (decide (new <= lr_seg_end w)); [tauto|lia]).
    rewrite (ix_disjoint _ w b (lr_seg_end w) Hi Hwm Hb) in * by (unfold inside; cbn; lia). lia. }
  split; [|done]. constructor; [done|..].
  - intros w [Hw Hwe]%Hmem. destruct (Hr w Hw) as (? & ? & _). done.
  - intros x Hx'. unfold inside in Hbx. cbn in Hbx. destruct (Hc x ltac:(lia)) as (w & Hw & Hwx). exists w. split; [|done]. apply Hmem. split; [done|].
    apply Znot_ge_lt. intros Hge. unfold inside in Hwx. cbn in Hwx. rewrite (ix_disjoint _ w b (lr_seg_offset b) Hi Hw Hb) in Hwx by (unfold inside; cbn; lia). lia.
  - apply (nodup_concat_sub _ _ (ix_list (ln_isl s))); [by apply ivs_nodup, ix_ok_ivs| |done]. by intros w [? _]%Hmem.
  - intros w k [Hw _]%Hmem. by apply Hx.
Qed.

(** Dropping rows and trimming the one before them. *)
Definition same_upto s s' (n : Z) : Prop := forall x, 0 <= x < n -> lun_place s' x = lun_place s x /\ lun_view s' x = lun_view s x.

Section shrink.
Context s (G : lun_good s) (new : Z) (Hnew : 0 <= new < ln_total_size s) (Dnew : (ln_stripe_size s | new)).
Context (b : seglun_row) (rest : list seglun_row) (E : ix_search new (ln_total_size s) (ln_isl s) = b :: rest).
#[local] Abbreviation m := (foldl (fun m b => ix_remove b m) (ln_isl s) (reverse (b :: rest))).
#[local] Abbreviation n := (Z.of_nat (ln_n_devices s)).

(** Rows before the first one dropped. *)
Lemma shrink_before used total z x w :
  w ∈ ix_list (ln_isl s) -> lr_seg_end w < lr_seg_offset b -> inside w x -> (forall m', ix_ok m' -> w ∈ ix_list m' ->
  (forall k o, (forall v, v ∈ b :: rest -> k ∉ row_ids v) -> lun_bytes (sz_depot z) k o = lun_bytes (ln_depot s) k o) ->
  lun_place (set_rows m' used total z s) x = lun_place s x /\ lun_view (set_rows m' used total z s) x = lun_view s x).
Proof using IntervalIndexLaws0 G Hnew E.
  intros Hw He Hx m' Hm' Hw' Hz. pose proof (lun_good_wf s G) as W. destruct (search_from s new b rest G Hnew E) as (Hb & Hbx & _ & Hin).
  apply (set_rows_view_at s m' used total z x w w); try done. intros k Hk. apply Hz. intros v Hv Hkv. destruct (proj1 (Hin v) Hv) as [Hvm Hve].
  rewrite (concat_nodup_inj row_ids _ w v k (lu_ids s W) Hw Hvm Hk Hkv) in He. unfold inside in Hbx. cbn in Hbx. lia.
Qed.

Lemma shrink_whole used z : new = lr_seg_offset b -> sz_next z = ln_next s ->
  (forall k o, (forall v, v ∈ b :: rest -> k ∉ row_ids v) -> lun_bytes (sz_depot z) k o = lun_bytes (ln_depot s) k o) ->
  lun_good (set_rows m used new z s) /\ same_upto s (set_rows m used new z s) new.
Proof using IntervalIndexLaws0 G Hnew Dnew E.
  intros Eb Hz Hk. destruct (rows_upto_drop s new b rest G Hnew E) as [Hr Hmem]. split.
  - eapply set_rows_good; [done|by rewrite Eb|lia|lia|done].
  - intros x Hx. destruct (ru_cover _ _ _ _ Hr x ltac:(lia)) as (w & Hw & Hwx). destruct (proj1 (Hmem w) Hw) as [Hws Hwe]. by apply (shrink_before used new z x w Hws Hwe Hwx); [apply Hr|..].
Qed.

Lemma shrink_part used z : lr_seg_offset b < new -> sz_next z = ln_next s ->
  (forall k o, (forall v, v ∈ rest -> k ∉ row_ids v) -> k ∉ row_ids b \/ o < (new - lr_seg_offset b) / n -> lun_bytes (sz_depot z) k o = lun_bytes (ln_depot s) k o) ->
  let d := new - lr_seg_offset b in let m' := ix_insert (Row (lr_block b) (lr_seg_offset b) (lr_seg_offset b + d - 1) (d / n) d) m in
  lun_good (set_rows m' used new z s) /\ same_upto s (set_rows m' used new z s) new.
Proof using IntervalIndexLaws0 G Hnew Dnew E.
  intros Eb Hz Hk d m'. pose proof (lg_layout s G) as L. pose proof (lun_good_wf s G) as W. destruct (rows_upto_drop s new b rest G Hnew E) as [Hr Hmem].
  destruct (search_from s new b rest G Hnew E) as (Hb & Hbx & Hnd & Hin). destruct (ru_row _ _ _ _ (lg_rows s G) b Hb) as (Hro & Hrs & _). pose proof (rk_end s b Hro) as Hend.
  assert (Dd : (ln_stripe_size s | d)) by (apply Z.divide_sub_r; [done|apply Hrs]).
  destruct (new_row_ok s (lr_block b) (lr_seg_offset b) d L (rk_offset s b Hro) ltac:(lia) (rk_devices s b Hro) (rz_offset s b Hrs) Dd (rz_cap s b Hrs)) as (Ho' & Hs' & He').
  assert (Hdn : d / n * n = d) by (cbn in He'; lia). rewrite Hdn in Ho', Hs', He'. set (b' := Row _ _ _ _ _) in *.
  destruct (rows_upto_add s m (ln_next s) (lr_seg_offset b) b' (ln_next s)) as [Hr' Hin']; [done|done|done|done|done|by apply (row_ids_nodup s b)| |done|].
  { intros i Hi. split; [by apply (ru_next _ _ _ _ (lg_rows s G) b)|]. intros w [Hw Hwe]%Hmem Hiw.
    rewrite (concat_nodup_inj row_ids _ w b i (lu_ids s W) Hw Hb Hiw Hi) in Hwe. pose proof (ix_proper _ b (lu_index s W) Hb) as Hp. cbn in Hp. lia. }
  replace (lr_seg_end b' + 1) with new in Hr' by (cbn; lia). split; [eapply set_rows_good; [done|done|lia|lia|done]|]. intros x Hx. destruct (decide (x < lr_seg_offset b)) as [Hlt|Hge].
  - destruct (ru_cover _ _ _ _ Hr x ltac:(lia)) as (w & Hw & Hwx). destruct (proj1 (Hmem w) Hw) as [Hws Hwe]. apply (shrink_before used new z x w Hws Hwe Hwx); [apply Hr'|apply Hin'; by right|].
    intros k o Hv. apply Hk; [intros v Hv'; apply Hv; by right|]. left. apply Hv. by left.
  - unfold inside in Hbx. cbn in Hbx. apply (set_rows_view_at s m' used new z x b b'); try done; [apply Hr'|apply Hin'; by left|unfold inside; cbn; lia|unfold inside; cbn; lia|].
    intros k Hkb. apply Hk.
    + intros v Hv Hkv. apply NoDup_cons in Hnd as [Hnb _]. destruct (proj1 (Hin v) ltac:(by right)) as [Hvm _].
      by rewrite (concat_nodup_inj row_ids _ b v k (lu_ids s W) Hb Hvm Hkb Hkv) in Hnb.
    + right. apply (row_off_bound s b' (x - lr_seg_offset b) L Ho' Hs'). cbn. lia.
Qed.
End shrink.

Lemma seglun_shrink_ok s used : lun_good s -> 0 <= used < ln_total_size s ->
  exists ok s', seglun_shrink used s = Ok (ok, s') /\ lun_good s' /\ used <= ln_total_size s' < used + ln_stripe_size s /\ ln_used_size s' = used /\ same_upto s s' (ln_total_size s').
Proof using IntervalIndexLaws0.
  intros G Hu. pose proof (lg_layout s G) as L. pose proof (stripe_pos s L) as HS. pose proof (ly_devices s L) as Hn. unfold seglun_shrink.
  destruct (round_stripes_ok s used L) as (new & -> & Hb & Dn); [lia|]. cbn [mbind res_bind].
  assert (Hle : new <= ln_total_size s) by (destruct Dn as [q ->], (lg_stripe s G) as [t Ht]; assert (q < t + 1) by (apply (Z.mul_lt_mono_pos_r (ln_stripe_size s)); lia); nia).
  destruct (ix_search new (ln_total_size s) (ln_isl s)) as [|b rest] eqn:E.
  - assert (new = ln_total_size s) as ->.
    { apply Z.le_antisymm; [done|]. apply Znot_gt_le. intros Hgt. assert (Hnew : 0 <= new < ln_total_size s) by lia. destruct (ru_cover _ _ _ _ (lg_rows s G) new Hnew) as (b & Hbm & Hbx).
      assert (Hin : b ∈ ix_search new (ln_total_size s) (ln_isl s)) by (apply ix_search_elem; [apply (lg_rows s G)|left; lia|]; unfold overlaps, inside in *; split; [lia|done]).
      rewrite E in Hin. by apply not_elem_of_nil in Hin. }
    eexists true, _. split; [done|]. split; [eapply set_rows_good; [done|apply G|done|lia|apply G]|]. split_and!; [cbn; lia|cbn; lia|done|]. by intros x Hx.
  - assert (Hlt : new < ln_total_size s).
    { assert (Hin : b ∈ ix_search new (ln_total_size s) (ln_isl s)) by (rewrite E; by left). apply ix_search_elem in Hin as [[_ Ho] Hbm]; [|apply (lg_rows s G)|left; lia].
      destruct (ru_row _ _ _ _ (lg_rows s G) b Hbm) as (_ & _ & He). cbn in Ho. lia. }
    assert (Hnew : 0 <= new < ln_total_size s) by lia. destruct (search_from s new b rest G Hnew E) as (_ & Hbx & _ & _). unfold inside in Hbx. cbn in Hbx.
    unfold c_div. replace (Z.of_nat (ln_n_devices s) =? 0) with false by lia. cbn [mbind res_bind]. rewrite Z.quot_div_nonneg by lia.
    eexists _, _. split; [done|]. destruct (new - lr_seg_offset b =? 0) eqn:Ed; breflect.
    + destruct (shrink_whole s G new Hnew Dn b rest E used (foldl (fun z b => ds_remove_all (lr_block b) z) (sizes_of s) (b :: rest))) as [Hg Hs]; [lia|by rewrite ds_remove_rows_next|intros k o Hk; by rewrite ds_remove_rows_other|].
      split; [done|]. split; [cbn; lia|]. split; [done|exact Hs].
    + match goal with |- lun_good (set_rows _ _ _ ?z _) /\ _ => destruct (shrink_part s G new Hnew Dn b rest E used z) as [Hg Hs] end.
      { lia. } { cbn. by rewrite ds_remove_rows_next, ds_truncate_all_next. } { intros k o Hk Ho. cbn. rewrite ds_remove_rows_other by done. by rewrite ds_truncate_all_keeps. }
      rewrite reverse_cons, foldl_app in Hg, Hs. split; [done|]. split; [cbn; lia|]. split; [done|exact Hs].
Qed.

(** ** The operations of the segment *)

Lemma same_rows_good s s' : same_rows s s' -> ln_next s' = ln_next s -> (ln_max_block_size s', ln_max_row_size s') = (ln_max_block_size s, ln_max_row_size s) -> lun_good s -> lun_good s'.
Proof.
  intros [Ei Et [= En Ec Es Eh]] Ex [= Em Er] [[L1 L2 L3 L4] Hm Dc Hrow Ht Ds [Hi Hr Hc Hd Hn]]. constructor; rewrite ?Ei, ?Et, ?En, ?Ec, ?Es, ?Ex, ?Em, ?Er; try done.
  - constructor; rewrite ?En, ?Ec, ?Es, ?Eh; done.
  - constructor; try done. intros b Hb. destruct (Hr b Hb) as ([] & [] & ?). split_and!; [|constructor; rewrite ?Ec, ?Es; done|done]. constructor; rewrite ?En; done.
Qed.

Lemma lun_extent_bound iov v : v ∈ iov -> v.1 + v.2 - 1 <= lun_extent iov.
Proof.
  unfold lun_extent. induction iov as [|w iov IH] using rev_ind; [by intros ?%not_elem_of_nil|]. rewrite foldl_app. cbn.
  intros [Hv%IH| ->%list_elem_of_singleton]%elem_of_app; lia.
Qed.

Lemma lun_extent_least iov t : 0 < t -> Forall (fun v => v.1 + v.2 <= t) iov -> 0 <= lun_extent iov < t.
Proof.
  intros Ht. unfold lun_extent. induction iov as [|w iov IH] using rev_ind; [done|]. rewrite foldl_app, Forall_app, Forall_singleton. cbn. intros [H1%IH H2]. lia.
Qed.

Lemma in_file_extent s iov : in_file s iov -> iov <> [] -> 0 <= lun_extent iov < ln_total_size s.
Proof.
  unfold in_file. intros Hf Hne. apply lun_extent_least; [|by eapply Forall_impl; [exact Hf|intros v (_ & _ & ?)]].
  destruct iov as [|v iov]; [done|]. apply Forall_cons in Hf as [(? & ? & ?) _]. lia.
Qed.

(** A read inside the segment. *)
Lemma seglun_read_inside s hints iov buffer boff :
  lun_wf s -> in_file s iov -> iov <> [] -> fits s iov ->
  exists op buffer' s' lost, seglun_rw_func hints iov buffer boff false s = Ok (op, buffer', s') /\ io_done s hints iov lost op /\ read_into s iov lost buffer boff buffer' /\
    same_rows s s' /\ ln_depot s' = ln_depot s /\ seglun_size s' = seglun_size s.
Proof.
  intros W Hf Hne Hfit. destruct (in_file_extent s iov Hf Hne) as [_ He]. unfold seglun_rw_func, make_room. replace (lun_extent iov >=? ln_total_size s) with false by lia. cbn [mbind res_bind].
  destruct (seglun_read_op s hints iov buffer boff W Hf Hne Hfit) as (op & buffer' & re & lost & -> & Hio & Hr). cbn [mbind res_bind andb].
  eexists op, buffer', _, lost. by split_and!.
Qed.

(** C8: a read of ranges in the space of the file, which reach no more rows than
    the table on the stack has room for, puts the bytes of the file in the
    buffer and nothing else, except that the bytes on devices that are lost are
    blank; its error code is the largest number of devices lost in a row.
    Reading changes neither the rows nor the contents. *)
Theorem seglun_read_ok s hints iov buffer boff :
  lun_wf s -> in_file s iov -> iov <> [] -> fits s iov ->
  exists op buffer' s' lost, seglun_rw_func hints iov buffer boff false s = Ok (op, buffer', s') /\ io_done s hints iov lost op /\ read_into s iov lost buffer boff buffer' /\
    same_rows s s' /\ ln_depot s' = ln_depot s /\ seglun_size s' = seglun_size s.
Proof. apply seglun_read_inside. Qed.

(** A read that goes beyond the end fails as if all devices were lost. *)
Lemma seglun_read_beyond s hints iov buffer boff : ln_total_size s <= lun_extent iov -> seglun_rw_func hints iov buffer boff false s = Ok (OpStatus false (Z.of_nat (ln_n_devices s)), buffer, s).
Proof. intros He. unfold seglun_rw_func, make_room. by replace (lun_extent iov >=? ln_total_size s) with true by lia. Qed.

(** A write inside the segment. *)
Lemma seglun_write_inside s hints iov buffer boff :
  lun_wf s -> in_file s iov -> iov <> [] -> fits s iov -> NoDup (flat iov) ->
  exists op s' lost, seglun_rw_func hints iov buffer boff true s = Ok (op, buffer, s') /\ io_done s hints iov lost op /\ written s iov lost buffer boff s' /\ same_rows s s'.
Proof.
  intros W Hf Hne Hfit Hnd. destruct (in_file_extent s iov Hf Hne) as [_ He]. unfold seglun_rw_func, make_room. replace (lun_extent iov >=? ln_total_size s) with false by lia. cbn [mbind res_bind].
  destruct (seglun_write_op s hints iov buffer boff W Hf Hne Hfit Hnd) as (op & d & we & lost & -> & Hio & Hw). cbn [mbind res_bind andb].
  eexists op, _, lost. split; [done|]. split; [done|]. by split; [exact Hw|].
Qed.

(** The geometry of the stripes. *)
Definition same_layout s s' : Prop :=
  (ln_n_devices s', ln_chunk_size s', ln_stripe_size s', ln_n_shift s') = (ln_n_devices s, ln_chunk_size s, ln_stripe_size s, ln_n_shift s).

Lemma seglun_grow_layout arg s ok s' : seglun_grow arg s = Ok (ok, s') -> same_layout s s'.
Proof.
  unfold seglun_grow. destruct (_ && _); [by intros [= _ <-]|]. destruct (round_stripes _ _) as [new|]; [|done]. cbn [mbind res_bind].
  destruct (grow_row new s) as [[[m lo] z]|]; [|done]. cbn [mbind res_bind]. destruct (grow_rows _ _ _ _ _ _) as [[[ok' m'] z']|]; [|done]. cbn [mbind res_bind]. intros [= _ <-]. by destruct ok'.
Qed.

(** Before a write the segment is grown if it has to. *)
Lemma write_room s iov : lun_good s -> 0 < ln_excess_block_size s -> Forall (fun v => 0 <= v.1 /\ 0 < v.2) iov -> iov <> [] ->
  exists ok s', make_room (lun_extent iov) true s = Ok (ok, s') /\ lun_wf s' /\ same_layout s s' /\ same_file s s' /\ ln_used_size s' = ln_used_size s /\
    (lun_extent iov < ln_total_size s -> ok = true /\ s' = s) /\ (ok = true -> lun_good s' /\ in_file s' iov).
Proof.
  intros G Hx Hv Hne. unfold make_room. set (new := lun_extent iov + _). pose proof (ly_devices s (lg_layout s G)) as Hn. assert (H0 : 0 <= lun_extent iov).
  { destruct iov as [|v iov']; [done|]. pose proof (lun_extent_bound (v :: iov') v ltac:(by left)). apply Forall_cons in Hv as [? _]. lia. }
  assert (Hin : forall s', lun_extent iov < ln_total_size s' -> in_file s' iov).
  { intros s' He. apply Forall_forall. intros v Hv'. pose proof (lun_extent_bound iov v Hv'). rewrite Forall_forall in Hv. destruct (Hv v Hv'). split_and!; [done|done|lia]. }
  destruct (lun_extent iov >=? ln_total_size s) eqn:E; breflect.
  - assert (Hlt : ln_total_size s < new) by nia. rewrite (proj2 (Z.ltb_lt _ _) Hlt). pose proof (lg_total s G) as Ht. unfold slun_truncate. replace (- new <? 0) with true by lia.
    destruct (seglun_grow_ok s (- new) G ltac:(lia)) as (ok & s' & Eg & W' & Hs & Hok). rewrite Eg. exists ok, s'. split; [done|]. split; [done|]. split; [by eapply seglun_grow_layout|]. split; [done|].
    destruct ok; [destruct Hok as (G' & Hb & Hu)|destruct Hok as [_ Hu]]; replace (- new <? 0) with true in * by lia; (split; [done|]); (split; [lia|]); [|done]. intros _. split; [done|]. apply Hin. nia.
  - exists true, s. split; [done|]. split; [by apply lun_good_wf|]. split; [done|]. split; [by intros x|]. split; [done|]. split; [done|]. intros _. split; [done|]. apply Hin. lia.
Qed.

(** The stripes an access reaches.  When they are few enough the table of the
    operation has room for the rows, since every row is made of stripes. *)
Definition stripes_of s (v : Z * Z) : list Z := seqZ (v.1 / ln_stripe_size s) ((v.1 + v.2 - 1) / ln_stripe_size s - v.1 / ln_stripe_size s + 1).
Definition few_stripes s (iov : list (Z * Z)) : Prop := Z.of_nat (length (concat (stripes_of s <$> iov))) * Z.of_nat (ln_n_devices s) <= 100.

(** A stripe of the row that an access reaches. *)
Lemma row_stripe s b v : lun_good s -> b ∈ ix_list (ln_isl s) -> overlaps v.1 (v.1 + v.2 - 1) b -> 0 < v.2 ->
  let u := Z.max v.1 (lr_seg_offset b) / ln_stripe_size s in u ∈ stripes_of s v /\ inside b (u * ln_stripe_size s).
Proof.
  intros G Hb [Ho1 Ho2] Hv u. pose proof (stripe_pos s (lg_layout s G)) as HS. destruct (ru_row _ _ _ _ (lg_rows s G) b Hb) as ([H0 Hbl Hlen Hend _] & [[q Hq] [k Hk] _] & _). cbn [iv_lo iv_hi seglun_row_range] in Ho1, Ho2.
  assert (Hs : ln_stripe_size s = Z.of_nat (ln_n_devices s) * ln_chunk_size s) by apply (lg_layout s G).
  assert (Hl : lr_row_len b = k * ln_stripe_size s) by (rewrite Hlen, Hk, Hs; lia).
  assert (Hmul : u * ln_stripe_size s <= Z.max v.1 (lr_seg_offset b) < (u + 1) * ln_stripe_size s) by (unfold u; pose proof (Z.div_mod (Z.max v.1 (lr_seg_offset b)) (ln_stripe_size s)); pose proof (Z.mod_pos_bound (Z.max v.1 (lr_seg_offset b)) (ln_stripe_size s) HS); lia).
  assert (Hqu : q <= u) by (apply Z.lt_succ_r, (Z.mul_lt_mono_pos_r (ln_stripe_size s)); lia). split.
  - apply elem_of_seqZ. assert (v.1 / ln_stripe_size s <= u) by (apply Z.div_le_mono; lia). assert (u <= (v.1 + v.2 - 1) / ln_stripe_size s) by (apply Z.div_le_mono; lia). lia.
  - unfold inside. cbn [iv_lo iv_hi seglun_row_range]. assert (0 < lr_row_len b) by (pose proof (ly_devices s (lg_layout s G)); rewrite Hlen; apply Z.mul_pos_pos; lia). split; [rewrite Hq; apply Z.mul_le_mono_nonneg_r; lia|lia].
Qed.

Lemma few_fits s iov : lun_good s -> Forall (fun v => 0 <= v.1 /\ 0 < v.2) iov -> few_stripes s iov -> fits s iov.
Proof.
  intros G Hv Hf. unfold few_stripes in Hf. unfold fits. etrans; [|exact Hf]. apply Z.mul_le_mono_nonneg_r; [lia|]. apply inj_le. clear Hf. pose proof (lun_good_wf s G) as W.
  set (f := fun b => match filter (fun v => overlaps v.1 (v.1 + v.2 - 1) b) iov with v :: _ => Z.max v.1 (lr_seg_offset b) / ln_stripe_size s | [] => 0 end).
  assert (Hb : forall b, b ∈ touched_rows s iov -> b ∈ ix_list (ln_isl s) /\ f b ∈ concat (stripes_of s <$> iov) /\ inside b (f b * ln_stripe_size s)).
  { intros b [He Hb]%list_elem_of_filter. split; [done|]. unfold f. destruct (filter _ iov) as [|v l] eqn:Ef.
    { apply Exists_exists in He as (v & Hin & Ho). assert (Hc : v ∈ filter (fun v => overlaps v.1 (v.1 + v.2 - 1) b) iov) by by apply list_elem_of_filter. rewrite Ef in Hc. by apply not_elem_of_nil in Hc. }
    assert (Hin : v ∈ filter (fun v => overlaps v.1 (v.1 + v.2 - 1) b) iov) by (rewrite Ef; by left). apply list_elem_of_filter in Hin as [Ho Hin].
    destruct (row_stripe s b v G Hb Ho) as [H1 H2]; [apply (proj1 (Forall_forall _ _) Hv v Hin)|]. split; [|done].
    apply list_elem_of_In, in_concat. exists (stripes_of s v). rewrite <- !list_elem_of_In. split; [by apply list_elem_of_fmap_2|done]. }
  rewrite <- (length_fmap f). apply submseteq_length, NoDup_submseteq.
  - apply NoDup_fmap_2_strong; [|apply NoDup_filter, ivs_nodup, ix_ok_ivs, W]. intros b b' (H1 & _ & H2)%Hb (H3 & _ & H4)%Hb E. rewrite <- E in H4. by apply (ix_disjoint _ b b' _ (lu_index s W) H1 H3 H2 H4).
  - intros u (b & -> & Hin)%list_elem_of_fmap. by apply Hb.
Qed.

(** C9: where the rows are of whole stripes and have no [cap_offset], a write
    of ranges that do not meet, to so few stripes that the table of
    the operation has room for their rows, and with an excess block size that
    is not 0, makes room, without changing the file; if it cannot, it fails as
    if all devices were lost.  Then the bytes of the buffer are in the file
    where they were to go, except on the devices that are lost, and nothing
    else in the file has changed; the error code is the largest number of
    devices lost in a row. *)
Theorem seglun_write_ok s hints iov buffer boff :
  lun_good s -> 0 < ln_excess_block_size s -> Forall (fun v => 0 <= v.1 /\ 0 < v.2) iov -> iov <> [] -> NoDup (flat iov) -> few_stripes s iov ->
  exists (room : bool) s1, make_room (lun_extent iov) true s = Ok (room, s1) /\ lun_wf s1 /\ same_layout s s1 /\ same_file s s1 /\ (lun_extent iov < ln_total_size s -> room = true /\ s1 = s) /\
    if room then lun_good s1 /\ in_file s1 iov /\ exists op s' lost, seglun_rw_func hints iov buffer boff true s = Ok (op, buffer, s') /\
      io_done s1 hints iov lost op /\ written s1 iov lost buffer boff s' /\ lun_good s' /\ seglun_size s' = Z.max (seglun_size s) (lun_extent iov + 1)
    else seglun_rw_func hints iov buffer boff true s = Ok (OpStatus false (Z.of_nat (ln_n_devices s)), buffer, s1).
Proof.
  intros G Hx Hv Hne Hnd Hfew. destruct (write_room s iov G Hx Hv Hne) as (room & s1 & E & W1 & Hl1 & Hs1 & Hu & Hid & Hok). exists room, s1. split; [done|]. split; [done|]. split; [done|]. split; [done|]. split; [done|].
  unfold seglun_rw_func. rewrite E. cbn [mbind res_bind]. destruct room; [|done]. destruct (Hok eq_refl) as [G1 Hf]. split; [done|]. split; [done|].
  assert (Hfit : fits s1 iov) by (apply few_fits; [done|done|]; unfold few_stripes, stripes_of in *; injection Hl1 as -> _ -> _; done).
  destruct (seglun_write_op s1 hints iov buffer boff W1 Hf Hne Hfit Hnd) as (op & d & we & lost & -> & Hio & Hw). cbn [mbind res_bind andb].
  eexists op, _, lost. split; [done|]. split; [done|]. split; [exact Hw|]. split.
  - by apply (same_rows_good s1).
  - unfold seglun_size. cbn. rewrite Hu. destruct (ln_used_size s <=? lun_extent iov) eqn:El; breflect; lia.
Qed.

(** C14: setting the size to [n >= 0], where the rows are of whole stripes and
    have no [cap_offset], keeps the bytes that stay in the file, and
    the rows still cover it without sharing an allocation.  When the segment is
    cut or the call succeeds, the rows are those of whole stripes up to the
    space, which is rounded up to whole stripes; after a growth that failed
    there may be rows behind the end.  The size reported is the one asked for
    when the segment is cut, and that of the space when it is extended. *)
Theorem slun_truncate_ok s n :
  lun_good s -> 0 <= n ->
  exists ok s', slun_truncate n s = Ok (ok, s') /\ lun_wf s' /\ same_upto s s' (Z.min (ln_total_size s) (ln_total_size s')) /\
    (n < ln_total_size s \/ ok = true -> lun_good s' /\ n <= ln_total_size s' < n + ln_stripe_size s) /\
    (n < ln_total_size s -> seglun_size s' = n) /\ (ln_total_size s < n -> ok = true -> seglun_size s' = ln_total_size s').
Proof.
  intros G Hn. pose proof (stripe_pos s (lg_layout s G)) as HS. unfold slun_truncate, seglun_size. replace (n <? 0) with false by lia.
  destruct (ln_total_size s >? n) eqn:E1; [|destruct (ln_total_size s <? n) eqn:E2]; breflect.
  - destruct (seglun_shrink_ok s n G ltac:(lia)) as (ok & s' & -> & G' & Hb & Hu & Hs). exists ok, s'. split; [done|]. split; [by apply lun_good_wf|].
    split; [intros x Hx; apply Hs; lia|]. split; [done|]. split; [done|lia].
  - destruct (seglun_grow_ok s n G ltac:(lia)) as (ok & s' & -> & W' & Hs & Hok). exists ok, s'. split; [done|]. split; [done|]. split; [intros x Hx; apply Hs; lia|].
    rewrite Z.abs_eq in Hok by lia. replace (n <? 0) with false in Hok by lia. destruct ok; [destruct Hok as (? & ? & ?)|]; (split; [|split]); intros; (done || lia || naive_solver lia).
  - exists true, s. split; [done|]. split; [by apply lun_good_wf|]. split; [by intros x|]. split; [intros _; split; [done|lia]|]. split; intros; lia.
Qed.
End seglun.

(** ** An example *)

(** Two devices, chunks of two bytes, one row of two stripes. *)
Definition lun_row : seglun_row := Row [(0%nat, 0); (1%nat, 0)] 0 7 4 8.
Definition lun_example (max_block excess : Z) : seglun_priv (list seglun_row) :=
  SegLun [lun_row] 5 8 max_block excess (max_block * 2) 2 4 2 1 0 false {[0%nat := fun x => x + 10; 1%nat := fun x => x + 20]} {[0%nat := 4; 1%nat := 4]} {[0%nat := 4; 1%nat := 4]} ∅ ∅ 2.

Lemma lun_example_good excess : lun_good (lun_example 4 excess).
Proof.
  constructor; cbn; try lia; [constructor; cbn; lia|by exists 2|by exists 2|]. constructor.
  - apply ivs_ok_cons. split; [cbn; lia|]. split; [constructor|apply ivs_ok_nil].
  - intros b ->%list_elem_of_singleton. split_and!; [constructor; cbn; lia|constructor; cbn; [by exists 0|by exists 2|by repeat constructor]|cbn; lia].
  - intros x Hx. exists lun_row. split; [by left|]. unfold inside. cbn. lia.
  - cbn. repeat constructor; set_solver.
  - intros b i ->%list_elem_of_singleton. cbn. set_solver by lia.
Qed.

Definition one_down (i : nat) : bool := Nat.eqb i 0.
Definition none_listed (i : nat) : bool := false.

Lemma seglun_read_ok_witness :
  exists op buffer' s' lost, seglun_rw_func one_down none_listed (fun _ _ => true) (fun _ _ _ => None) None [(1, 4); (6, 2)] (fun _ => 99) 0 false (lun_example 4 2) = Ok (op, buffer', s') /\
    io_done one_down none_listed (lun_example 4 2) None [(1, 4); (6, 2)] lost op /\ read_into (lun_example 4 2) [(1, 4); (6, 2)] lost (fun _ => 99) 0 buffer' /\
    same_rows (lun_example 4 2) s' /\ ln_depot s' = ln_depot (lun_example 4 2) /\ seglun_size s' = seglun_size (lun_example 4 2).
Proof.
  apply (seglun_read_ok one_down none_listed (fun _ _ => true) (fun _ _ _ => None)); [apply lun_good_wf, lun_example_good|repeat constructor; cbn; lia|done|by vm_compute].
Defined.

Definition grant_all (z : sizes) (round : nat) (missing : list nat) : option (list bool) := Some (replicate (length missing) true).

Lemma seglun_write_ok_witness :
  exists s1, make_room (fun _ => true) (fun _ _ => true) grant_all (lun_extent [(6, 5)]) true (lun_example 4 2) = Ok (true, s1) /\ lun_wf s1 /\ same_layout (lun_example 4 2) s1 /\ same_file (lun_example 4 2) s1 /\
    lun_good s1 /\ in_file s1 [(6, 5)] /\ exists op s' lost,
      seglun_rw_func (fun _ => true) none_listed (fun _ _ => true) grant_all None [(6, 5)] (fun x => x + 50) 0 true (lun_example 4 2) = Ok (op, (fun x => x + 50), s') /\
      io_done (fun _ => true) none_listed s1 None [(6, 5)] lost op /\ written s1 [(6, 5)] lost (fun x => x + 50) 0 s' /\ lun_good s' /\ seglun_size s' = 11.
Proof.
  destruct (seglun_write_ok (fun _ => true) none_listed (fun _ _ => true) grant_all (lun_example 4 2) None [(6, 5)] (fun x => x + 50) 0) as (room & s1 & E & W & Hl & Hs & _ & H);
    [apply lun_example_good|done|repeat constructor; cbn; lia|done|cbn; repeat constructor; set_solver|by vm_compute|].
  assert (Hr : room = true) by (apply (f_equal (fun r => match r with Ok p => p.1 | Fault _ => false end)) in E; vm_compute in E; by rewrite E).
  rewrite Hr in E, H. exists s1. split; [exact E|]. split; [done|]. split; [done|]. split; [done|exact H].
Defined.

Lemma slun_truncate_ok_witness :
  exists ok s', slun_truncate (fun _ => true) (fun _ _ => true) (fun _ _ _ => None) 3 (lun_example 4 2) = Ok (ok, s') /\ lun_wf s' /\
    same_upto (lun_example 4 2) s' (Z.min 8 (ln_total_size s')) /\
    (3 < 8 \/ ok = true -> lun_good s' /\ 3 <= ln_total_size s' < 3 + 4) /\
    (3 < 8 -> seglun_size s' = 3) /\ (8 < 3 -> ok = true -> seglun_size s' = ln_total_size s').
Proof. apply (slun_truncate_ok (fun _ => true) (fun _ _ => true) (fun _ _ _ => None) (lun_example 4 2) 3); [apply lun_example_good|lia]. Defined.

(** ** Places where the code falls short *)

(** The table on the stack has room for 100 devices, not for 100 rows. *)
Definition wide_row (k : nat) : seglun_row := Row ((fun i => ((10 * k + i)%nat, 0)) <$> seq 0 10) (10 * Z.of_nat k) (10 * Z.of_nat k + 9) 1 10.
Definition wide_lun : seglun_priv (list seglun_row) := SegLun (wide_row <$> seq 0 11) 110 110 1 1 10 1 10 10 1 0 false ∅ ∅ ∅ ∅ ∅ 110.

Lemma table_overflow buffer : seglun_rw_func (fun _ => true) none_listed (fun _ _ => true) (fun _ _ _ => None) None [(0, 110)] buffer 0 false wide_lun = Fault OutOfBounds.
Proof. by vm_compute. Qed.

(** A row whose allocations could not grow is recorded as grown. *)
Lemma refused_growth :
  exists s', seglun_grow (fun _ => true) (fun _ _ => false) (fun _ _ _ => None) 16 (lun_example 8 2) = Ok (true, s') /\
    ln_isl s' = [Row (lr_block lun_row) 0 15 8 16] /\ ln_alloc s' = ln_alloc (lun_example 8 2).
Proof. eexists. by vm_compute. Qed.

(** Growing that fails leaves rows behind, and the next one makes them again. *)
Definition two_more (z : sizes) (round : nat) (missing : list nat) : option (list bool) := if (sz_next z <? 4)%nat then Some [true; true] else None.

Lemma failed_growth_repeats :
  exists s1 s2 b b', seglun_grow (fun _ => true) (fun _ _ => true) two_more 24 (lun_example 4 2) = Ok (false, s1) /\ ln_total_size s1 = 8 /\
    seglun_grow (fun _ => true) (fun _ _ => true) (fun _ _ _ => Some [true; true]) 24 s1 = Ok (true, s2) /\
    b ∈ ln_isl s2 /\ b' ∈ ln_isl s2 /\ b <> b' /\ inside b 8 /\ inside b' 8.
Proof.
  eexists _, _, (Row [(2%nat, 0); (3%nat, 0)] 8 15 4 8), (Row [(4%nat, 0); (5%nat, 0)] 8 15 4 8).
  split; [by vm_compute|]. split; [done|]. split; [by vm_compute|]. split; [vm_compute; set_solver|]. split; [vm_compute; set_solver|]. split; [done|]. unfold inside. cbn. lia.
Qed.

(** The space reserved for a write does not count its last byte: without excess
    it can be lost, and the size then exceeds the space. *)
Lemma write_loses_last :
  exists s', seglun_rw_func (fun _ => true) none_listed (fun _ _ => true) (fun _ _ missing => Some (replicate (length missing) true)) None [(8, 9)] (fun x => x + 50) 0 true (lun_example 4 0) =
    Ok (gop_success_status, (fun x => x + 50), s') /\ ln_total_size s' = 16 /\ seglun_size s' = 17.
Proof. eexists. by vm_compute. Qed.

(** Setting the size to that of the space does nothing, to a larger one gives
    the size of the space. *)
Lemma truncate_sizes :
  slun_truncate (fun _ => true) (fun _ _ => true) (fun _ _ _ => None) 8 (lun_example 4 2) = Ok (true, lun_example 4 2) /\ seglun_size (lun_example 4 2) = 5 /\
  exists s', slun_truncate (fun _ => true) (fun _ _ => true) (fun _ _ _ => Some [true; true]) 9 (lun_example 4 2) = Ok (true, s') /\ seglun_size s' = 12.
Proof. split; [done|]. split; [done|]. eexists. by vm_compute. Qed.
