(* ===== verification/JeraseLun.v ===== *)
(** * The erasure-coded segment over a striped one

    The erasure-coded segment ([lio/segment/jerasure.c]) keeps its stripes in a
    child segment, in practice a striped one ([lio/segment/lun.c]) with as many
    devices as the code has and chunks that hold a chunk of the code with its
    magic.  Then every device of the child has one chunk of a stripe, a lost
    device is a blank chunk, and the error code of the child is what the
    erasure-coded segment takes it for.  This file makes the striped segment a
    [Child] and shows that it keeps what [SegJerase] asks of one. *)
From S2P Require Import Prelude IntervalIndex ByteSegment Raid4 ErasureTools ErasureFiles JeraseCheck SegJerase SegLun.
Local Open Scope Z_scope.

(** ** The striped segment as a child *)

Section child.
Context {M : Type} `{!IntervalIndex M seglun_row}.
Context (up blacklisted : nat -> bool) (grants : nat -> Z -> bool) (rs_request : sizes -> nat -> list nat -> option (list bool)).

Definition buffer_of (d : bytes) (p : Z) : Z := default 0 (d !! Z.to_nat p).
Definition status_of (ok : bool) : op_status := if ok then gop_success_status else OpStatus false 0.

(** The counters a read changes are not the child's promise; a fault ends the
    program. *)
#[export] Instance lun_child : Child (seglun_priv M) := {|
  child_readv hints iov c :=
    match seglun_rw_func up blacklisted grants rs_request hints iov (fun _ => 0) 0 false c with
    | Ok (op, buffer, _) => (op, buffer <$> seqZ 0 (zsum snd iov))
    | Fault _ => (status_of false, [])
    end;
  child_writev hints vs c :=
    match seglun_rw_func up blacklisted grants rs_request hints ((fun v => (v.1, Z.of_nat (length v.2))) <$> vs) (buffer_of (concat vs.*2)) 0 true c with
    | Ok (op, _, c) => (op, c)
    | Fault _ => (status_of false, c)
    end;
  child_truncate z c := match slun_truncate up grants rs_request z c with Ok (ok, c) => (status_of ok, c) | Fault _ => (status_of false, c) end;
  child_remove c := let '(ok, c) := seglun_remove up c in (status_of ok, c);
  child_size := seglun_size |}.
End child.

(** ** A stripe with blank chunks *)

Lemma concat_at n (ls : list bytes) j l o y : sized n ls -> ls !! j = Some l -> l !! o = Some y -> concat ls !! (j * n + o)%nat = Some y.
Proof.
  intros Hs Hj Ho. rewrite <- (concat_slice n ls j l Hs Hj) in Ho. pose proof (lookup_lt_Some _ _ _ Ho) as Hl. rewrite length_take in Hl. by rewrite lookup_take_lt, lookup_drop in Ho by lia.
Qed.

Section stripe.
Context {matrix schedule : Type} `{Jerasure matrix schedule} (adler_init : Z) (adler32 : Z -> bytes -> Z).
Context {C : Type} `{Child C} (s : segjerase (matrix := matrix) (schedule := schedule) (C := C)).
#[local] Abbreviation N := (n_devs s).
#[local] Abbreviation magic_of := (word_magic adler_init adler32).
#[local] Abbreviation csm := (chunk_size_with_magic s).

Definition blank_magic : bytes := replicate JE_MAGIC_SIZE 0.

Lemma filter_count_le {A} (P Q : A -> Prop) `{!forall x, Decision (P x), !forall x, Decision (Q x)} (l : list A) :
  (forall x, x ∈ l -> P x -> Q x) -> (length (filter P l) <= length (filter Q l))%nat.
Proof. intros Hl. pose proof (filter_fmap_count id P Q l Hl) as Hc. by rewrite list_fmap_id in Hc. Qed.

(** A stripe whose chunks are there or blank can be read, if the blank ones are
    no more than the parities and fewer than the others. *)
Lemma blank_readable (data : bytes) w (dead : nat -> bool) (t : nat) :
  length w = N -> sized (sj_chunk s) w -> magic_of w <> blank_magic -> (length (filter (fun d => dead d = true) (seq 0 N)) <= t)%nat -> (t <= sj_parity_devs s)%nat -> (2 * t < N)%nat ->
  (forall d x, w !! d = Some x -> take csm (drop (d * csm) data) = if dead d then replicate csm 0 else magic_of w ++ x) ->
  readable adler_init adler32 s (cut_devs s data) w.
Proof.
  intros Hl Hs Hm Hd Ht Hq Hdata. assert (Hdev : forall d x, w !! d = Some x -> cut_devs s data !! d = Some (if dead d then (blank_magic, replicate (sj_chunk s) 0) else (magic_of w, x))).
  { intros d x Hx. unfold cut_devs. rewrite list_lookup_fmap, lookup_seq_lt by (apply lookup_lt_Some in Hx; lia). cbn [Nat.add fmap option_fmap option_map]. rewrite (Hdata d x Hx).
    destruct (dead d); f_equal. }
  assert (Hmg : forall d, d ∈ seq 0 N -> (cut_devs s data).*1 !! d = Some (if dead d then blank_magic else magic_of w)).
  { intros d Hd'%elem_of_seq. destruct (lookup_lt_is_Some_2 w d) as [x Hx]; [lia|]. rewrite list_lookup_fmap, (Hdev d x Hx). by destruct (dead d). }
  assert (Hlen : length (cut_devs s data) = N) by (unfold cut_devs; by rewrite length_fmap, length_seq). constructor; [done|..].
  - apply Forall_fmap, Forall_lookup. intros d dv Hdv. pose proof (lookup_lt_Some _ _ _ Hdv) as Hlt. destruct (lookup_lt_is_Some_2 w d) as [x Hx]; [lia|].
    rewrite (Hdev d x Hx) in Hdv. injection Hdv as <-. cbn. destruct (dead d); [apply length_replicate|]. by eapply (proj1 (Forall_lookup _ _) Hs).
  - intros d dv x Hdv Hx. rewrite (Hdev d x Hx) in Hdv. injection Hdv as <-. destruct (dead d); [right|by left]. intros E. apply Hm. symmetry. exact E.
  - etrans; [|exact Ht]. etrans; [|exact Hd]. apply filter_count_le. intros d Hin Hn. rewrite (Hmg d Hin) in Hn. by destruct (dead d).
  - intros mg Hne. unfold holders. rewrite length_fmap, Hlen.
    assert (H1 : (length (filter (fun k => (cut_devs s data).*1 !! k = Some mg) (seq 0 N)) <= t)%nat).
    { etrans; [|exact Hd]. apply filter_count_le. intros d Hin Hn. rewrite (Hmg d Hin) in Hn. destruct (dead d); [done|]. congruence. }
    assert (H2 : (length (filter (fun d => ~ dead d = true) (seq 0 N)) <= length (filter (fun k => (cut_devs s data).*1 !! k = Some (magic_of w)) (seq 0 N)))%nat).
    { apply filter_count_le. intros d Hin Hn. rewrite (Hmg d Hin). by destruct (dead d). }
    pose proof (Permutation_length (filter_perm_split (fun d => dead d = true) (seq 0 N))) as Hp. rewrite length_app, length_seq in Hp. lia.
Qed.
End stripe.

(** ** Stripes of the code in the rows *)

Section compose.
Context {matrix schedule : Type} `{Jerasure matrix schedule} (adler_init : Z) (adler32 : Z -> bytes -> Z).
Context {M : Type} `{!IntervalIndex M seglun_row, !IntervalIndexLaws M seglun_row}.
Context (up : nat -> bool) (grants : nat -> Z -> bool) (rs_request : sizes -> nat -> list nat -> option (list bool)).
#[local] Instance the_child : Child (seglun_priv M) := lun_child up none_listed grants rs_request.
Context (s : segjerase (matrix := matrix) (schedule := schedule) (C := seglun_priv M)) (code : list bytes -> Prop).
#[local] Abbreviation N := (n_devs s).
#[local] Abbreviation csm := (chunk_size_with_magic s).
#[local] Abbreviation SS := (Z.of_nat (stripe_size_with_magic s)).
#[local] Abbreviation encoded := (encoded adler_init adler32).

(** The space that has been made, and the number of devices of a row that may
    be down. *)
Context (T : Z) (t : nat).

(** The child has a chunk of the code on each device, and its rows are whole
    stripes. *)
Record fitting (c : seglun_priv M) : Prop := Fitting {
  ft_wf : lun_wf c;
  ft_devices : ln_n_devices c = N;
  ft_chunk : ln_chunk_size c = Z.of_nat csm;
  ft_space : T <= ln_total_size c;
  ft_rows b : b ∈ ix_list (ln_isl c) -> (SS | lr_seg_offset b) /\ (SS | lr_row_len b);
  ft_down b : b ∈ ix_list (ln_isl c) -> (length (filter (fun i => up i = false) (row_ids b)) <= t)%nat }.

(** Accesses to whole stripes of that space, and not to more than the tables of
    the striped segment have room for. *)
Definition may (off len : Z) : Prop :=
  exists q (k : nat), off = q * SS /\ len = Z.of_nat k * SS /\ 0 <= q /\ (0 < k)%nat /\ off + len <= T /\ Z.of_nat k * Z.of_nat N <= 100.

(** The words are where they should be, on the devices that can be reached. *)
Definition holds (c : seglun_priv M) (off : Z) (ws : list (list bytes)) : Prop :=
  Forall code ws /\ 0 <= off /\ off + Z.of_nat (length ws) * SS <= T /\
  forall p y, concat (encoded <$> ws) !! p = Some y -> up (lun_place c (off + Z.of_nat p)).1 = true -> lun_view c (off + Z.of_nat p) = y.

Section stripes.
Context c (F : fitting c).

Lemma fit_stripe : ln_stripe_size c = SS.
Proof using F. rewrite (ly_stripe c (lu_layout c (ft_wf c F))), (ft_devices c F), (ft_chunk c F). unfold stripe_size_with_magic. lia. Qed.

Lemma fit_pos : 0 < SS /\ 0 < Z.of_nat N /\ 0 < Z.of_nat csm.
Proof using F. pose proof (lu_layout c (ft_wf c F)) as L. rewrite <- fit_stripe, <- (ft_devices c F), <- (ft_chunk c F). split; [by apply stripe_pos|]. split; apply L. Qed.

(** A stripe of the file is in one row. *)
Lemma stripe_row u : 0 <= u -> (u + 1) * SS <= ln_total_size c ->
  exists b so, b ∈ ix_list (ln_isl c) /\ lr_seg_offset b = so * SS /\ so <= u /\ (u + 1) * SS - 1 <= lr_seg_end b.
Proof using F.
  intros Hu Ht. destruct fit_pos as [HS _]. destruct (lu_cover c (ft_wf c F) (u * SS)) as (b & Hb & Hx); [nia|]. destruct (ft_rows c F b Hb) as [[so Hso] [l Hl]].
  pose proof (rk_end c b (lu_row c (ft_wf c F) b Hb)) as He. unfold inside in Hx. cbn in Hx. exists b, so. split; [done|]. split; [done|].
  assert (so <= u) by (apply (Z.mul_le_mono_pos_r _ _ SS); lia). assert (u < so + l) by (apply (Z.mul_lt_mono_pos_r SS); lia). split; [done|]. nia.
Qed.

(** The device of a chunk. *)
Lemma chunk_place b so u d o : b ∈ ix_list (ln_isl c) -> lr_seg_offset b = so * SS -> so <= u -> (u + 1) * SS - 1 <= lr_seg_end b -> (d < N)%nat -> 0 <= o < Z.of_nat csm ->
  (lun_place c (u * SS + Z.of_nat d * Z.of_nat csm + o)).1 = row_ids b !!! Z.to_nat ((Z.of_nat d - (u - so) * ln_n_shift c) mod Z.of_nat N).
Proof using F IntervalIndexLaws0.
  intros Hb Hso Hle He Hd Ho. pose proof (ft_wf c F) as W. pose proof (lu_layout c W) as L. destruct fit_pos as [HS _].
  assert (HSS : SS = Z.of_nat N * Z.of_nat csm) by (unfold stripe_size_with_magic; lia).
  assert (Hin : Z.of_nat d * Z.of_nat csm + o < SS) by nia. assert (so * SS <= u * SS) by (apply Z.mul_le_mono_nonneg_r; lia). rewrite (lun_place_at c b); [|apply W|done|unfold inside; cbn [iv_lo iv_hi seglun_row_range]; lia]. unfold row_place. cbn [fst]. f_equal. f_equal. unfold row_dev.
  destruct (stripe_join c L (u - so) (Z.of_nat d) o) as (E1 & E2 & _); [rewrite (ft_devices c F); lia|by rewrite (ft_chunk c F)|]. rewrite fit_stripe, (ft_chunk c F) in E1, E2.
  replace (u * SS + Z.of_nat d * Z.of_nat csm + o - lr_seg_offset b) with ((u - so) * SS + Z.of_nat d * Z.of_nat csm + o) by lia.
  by rewrite fit_stripe, (ft_chunk c F), (ft_devices c F), E1, E2.
Qed.

Definition dead (u : Z) (d : nat) : bool := negb (up (lun_place c (u * SS + Z.of_nat d * Z.of_nat csm)).1).

(** All bytes of a chunk are on its device. *)
Lemma chunk_byte u d o : 0 <= u -> (u + 1) * SS <= ln_total_size c -> (d < N)%nat -> 0 <= o < Z.of_nat csm -> up (lun_place c (u * SS + Z.of_nat d * Z.of_nat csm + o)).1 = negb (dead u d).
Proof using F IntervalIndexLaws0.
  intros Hu Ht Hd Ho. destruct (stripe_row u Hu Ht) as (b & so & Hb & Hso & Hle & He). unfold dead. rewrite negb_involutive, (chunk_place b so) by done.
  pose proof (chunk_place b so u d 0 Hb Hso Hle He Hd ltac:(lia)) as Hz. rewrite Z.add_0_r in Hz. by rewrite Hz.
Qed.

(** No more chunks of a stripe are dead than devices of its row are down. *)
Lemma dead_count u : 0 <= u -> (u + 1) * SS <= ln_total_size c -> (length (filter (fun d => dead u d = true) (seq 0 N)) <= t)%nat.
Proof using F IntervalIndexLaws0.
  intros Hu Ht. pose proof (ft_wf c F) as W. destruct fit_pos as (_ & HN & Hc). destruct (stripe_row u Hu Ht) as (b & so & Hb & Hso & Hle & He). etrans; [|apply (ft_down c F b Hb)].
  set (idx := fun d : nat => Z.to_nat ((Z.of_nat d - (u - so) * ln_n_shift c) mod Z.of_nat N)).
  assert (Hdev : forall d, (d < N)%nat -> (idx d < N)%nat /\ row_ids b !! idx d = Some (row_ids b !!! idx d) /\ dead u d = negb (up (row_ids b !!! idx d))).
  { intros d Hd. assert (Hi : (idx d < N)%nat) by (unfold idx; pose proof (Z.mod_pos_bound (Z.of_nat d - (u - so) * ln_n_shift c) (Z.of_nat N) HN); lia). split; [done|]. split.
    - apply list_lookup_lookup_total_lt. unfold row_ids. by rewrite length_fmap, (rk_devices c b (lu_row c W b Hb)), (ft_devices c F).
    - unfold dead. pose proof (chunk_place b so u d 0 Hb Hso Hle He Hd ltac:(lia)) as Hz. rewrite Z.add_0_r in Hz. by rewrite Hz. }
  rewrite <- (length_fmap (fun d => row_ids b !!! idx d)). apply submseteq_length, NoDup_submseteq.
  - apply NoDup_fmap_2_strong; [|apply NoDup_filter, NoDup_seq]. intros d d' [_ Hd%elem_of_seq]%list_elem_of_filter [_ Hd'%elem_of_seq]%list_elem_of_filter E.
    destruct (Hdev d ltac:(lia)) as (H1 & H2 & _), (Hdev d' ltac:(lia)) as (H3 & H4 & _). rewrite <- E in H4. pose proof (NoDup_lookup _ _ _ _ (row_ids_nodup c b W Hb) H2 H4) as Hi.
    unfold idx in Hi. pose proof (Z.mod_pos_bound (Z.of_nat d - (u - so) * ln_n_shift c) (Z.of_nat N) HN). pose proof (Z.mod_pos_bound (Z.of_nat d' - (u - so) * ln_n_shift c) (Z.of_nat N) HN).
    assert (Hm : (Z.of_nat d - (u - so) * ln_n_shift c) mod Z.of_nat N = (Z.of_nat d' - (u - so) * ln_n_shift c) mod Z.of_nat N) by lia.
    apply (mod_shift (Z.of_nat N) _ (Z.of_nat d) ((u - so) * ln_n_shift c)) in Hm; [|lia..]. rewrite Zplus_mod_idemp_l in Hm. replace (Z.of_nat d' - (u - so) * ln_n_shift c + (u - so) * ln_n_shift c) with (Z.of_nat d') in Hm by lia. rewrite Z.mod_small in Hm by lia. lia.
  - intros i (d & -> & [Hdd Hd%elem_of_seq]%list_elem_of_filter)%list_elem_of_fmap. destruct (Hdev d ltac:(lia)) as (_ & H2 & H3). rewrite Hdd in H3. apply list_elem_of_filter.
    split; [by destruct (up _)|]. by eapply list_elem_of_lookup_2.
Qed.

(** A row that is reached has the start of a stripe that is. *)
Lemma may_fits off len : may off len -> in_file c [(off, len)] /\ fits c [(off, len)].
Proof using F IntervalIndexLaws0.
  intros (q & k & -> & -> & Hq & Hk & HT & Hfit). pose proof (ft_wf c F) as W. destruct fit_pos as (HS & HN & _). pose proof (ft_space c F) as Hsp.
  split; [apply Forall_singleton; cbn [fst snd]; split_and!; nia|]. unfold fits. rewrite (ft_devices c F). etrans; [|exact Hfit]. apply Z.mul_le_mono_nonneg_r; [lia|]. apply inj_le.
  set (at_ := fun b => Z.max (q * SS) (lr_seg_offset b)).
  assert (Hat : forall b, b ∈ touched_rows c [(q * SS, Z.of_nat k * SS)] -> b ∈ ix_list (ln_isl c) /\ inside b (at_ b) /\ exists u, at_ b = u * SS /\ q <= u < q + Z.of_nat k).
  { intros b [He Hb]%list_elem_of_filter. rewrite Exists_cons, Exists_nil in He. destruct He as [[Ho1 Ho2]|[]]. cbn [fst snd iv_lo iv_hi seglun_row_range] in Ho1, Ho2.
    pose proof (ix_proper _ b (lu_index c W) Hb) as Hp. destruct (ft_rows c F b Hb) as [[so Hso] _]. unfold inside. cbn [iv_lo iv_hi seglun_row_range] in Hp |- *. unfold at_. split; [done|]. split; [lia|].
    exists (Z.max q so). rewrite Hso in *. split; [|split; [lia|]]; [destruct (Z.max_spec q so) as [[? ->]|[? ->]]; nia|].
    enough (so < q + Z.of_nat k) by lia. apply (Z.mul_lt_mono_pos_r SS); lia. }
  rewrite <- (length_fmap (fun b => at_ b / SS)). replace k with (length (seqZ q (Z.of_nat k))) at 2 by (rewrite length_seqZ; lia). apply submseteq_length, NoDup_submseteq.
  - apply NoDup_fmap_2_strong; [|apply NoDup_filter, ivs_nodup, ix_ok_ivs, W]. intros b b' (Hb & Hx & u & Eu & _)%Hat (Hb' & Hx' & u' & Eu' & _)%Hat E.
    rewrite Eu, Eu', !Z.div_mul in E by lia. subst u'. rewrite Eu in Hx. rewrite Eu' in Hx'. by apply (ix_disjoint _ b b' (u * SS) (lu_index c W)).
  - intros i (b & -> & (_ & _ & u & Eu & Hu)%Hat)%list_elem_of_fmap. rewrite Eu, Z.div_mul by lia. apply elem_of_seqZ. lia.
Qed.

Lemma flat_one off len : flat [(off, len)] = seqZ off len.
Proof using. unfold flat. cbn. apply app_nil_r. Qed.

Lemma lost_down hints iov lost op i : io_done up none_listed c hints iov lost op -> i ∈ lost -> up i = false.
Proof using. intros Hio Hi. by destruct (io_why _ _ _ _ _ _ _ Hio i Hi) as [?|[? _]]. Qed.

(** What a write leaves. *)
Lemma child_write_ok bl off d : may off (Z.of_nat (length d)) ->
  exists op c' lost, child_write bl off d c = (op, c') /\ io_done up none_listed c bl [(off, Z.of_nat (length d))] lost op /\ same_rows c c' /\
    (forall p y, d !! p = Some y -> up (lun_place c (off + Z.of_nat p)).1 = true -> lun_view c' (off + Z.of_nat p) = y) /\
    (forall x, 0 <= x < ln_total_size c -> ~ off <= x < off + Z.of_nat (length d) -> lun_view c' x = lun_view c x).
Proof using F IntervalIndexLaws0.
  intros Hm. destruct (may_fits off _ Hm) as [Hf Hfit]. unfold child_write. cbn [child_writev the_child lun_child fmap list_fmap fst snd concat]. rewrite app_nil_r.
  destruct (seglun_write_inside up none_listed grants rs_request c bl [(off, Z.of_nat (length d))] (buffer_of d) 0 (ft_wf c F) Hf ltac:(done) Hfit) as (op & c' & lost & E & Hio & [Hw Hn] & Hs); [rewrite flat_one; apply NoDup_seqZ|].
  rewrite E. exists op, c', lost. split; [done|]. split; [done|]. split; [done|]. split.
  - intros p y Hp Hu. rewrite (Hw p); [|rewrite flat_one; apply lookup_seqZ_lt; apply lookup_lt_Some in Hp; lia]. rewrite decide_False by (intros Hl; by rewrite (lost_down _ _ _ _ _ Hio Hl) in Hu).
    unfold buffer_of. replace (Z.to_nat (0 + Z.of_nat p)) with p by lia. by rewrite Hp.
  - intros x Hx Hn'. apply Hn; [done|]. rewrite flat_one, elem_of_seqZ. lia.
Qed.

(** What a read gives. *)
Lemma child_read_ok bl off len : may off len ->
  exists op data, child_read bl off len c = (op, data) /\ Z.of_nat (length data) = len /\
    forall p, Z.of_nat p < len -> data !! p = Some (if up (lun_place c (off + Z.of_nat p)).1 then lun_view c (off + Z.of_nat p) else 0).
Proof using F IntervalIndexLaws0.
  intros Hm. destruct (may_fits off len Hm) as [Hf Hfit]. unfold child_read. cbn [child_readv the_child lun_child]. assert (Hz : zsum snd [(off, len)] = len) by (cbn; lia). rewrite Hz.
  pose proof (proj1 (Forall_singleton _ _) Hf) as (_ & Hlen & _). cbn [snd] in Hlen.
  destruct (seglun_read_inside up none_listed grants rs_request c bl [(off, len)] (fun _ => 0) 0 (ft_wf c F) Hf ltac:(done) Hfit) as (op & buffer & c' & lost & E & Hio & [Hr _] & _). rewrite E.
  exists op, (buffer <$> seqZ 0 len). split; [done|]. split; [rewrite length_fmap, length_seqZ; lia|]. intros p Hp. rewrite list_lookup_fmap, lookup_seqZ_lt by lia. cbn [fmap option_fmap option_map]. f_equal.
  rewrite (Hr p (off + Z.of_nat p)) by (rewrite flat_one; by apply lookup_seqZ_lt). destruct (up (lun_place c (off + Z.of_nat p)).1) eqn:Hu.
  - rewrite decide_False; [done|]. intros Hl. by rewrite (lost_down _ _ _ _ _ Hio Hl) in Hu.
  - rewrite decide_True; [done|]. apply (io_down _ _ _ _ _ _ _ Hio); [|done]. rewrite flat_one. apply elem_of_seqZ. lia.
Qed.

(** A write fails on no more devices than are down. *)
Lemma child_write_code bl off d : may off (Z.of_nat (length d)) -> error_code (child_write bl off d c).1 <= Z.of_nat t.
Proof using F IntervalIndexLaws0.
  intros Hm. destruct (child_write_ok bl off d Hm) as (op & c' & lost & -> & Hio & _). cbn [fst]. destruct (io_worst _ _ _ _ _ _ _ Hio) as [->|(b & Hb & ->)]; [lia|].
  unfold row_lost. apply inj_le. etrans; [|apply (ft_down c F b Hb)]. apply filter_count_le. intros i _ Hi. by eapply lost_down.
Qed.

Lemma fitting_same c' : same_rows c c' -> fitting c'.
Proof using F.
  intros Hs. pose proof Hs as [Ei Et [= En Ec Es Eh]]. destruct F. split; rewrite ?Ei, ?Et, ?En, ?Ec; try done. by apply (same_rows_wf c).
Qed.

(** The chunk of a stripe as it is read. *)
Lemma read_chunk bl off ws j w d x : mds (sj_plan s) (sj_chunk s) N (sj_parity_devs s) code -> may off (Z.of_nat (length ws) * SS) -> holds c off ws -> ws !! j = Some w -> w !! d = Some x ->
  take csm (drop (d * csm) (take (stripe_size_with_magic s) (drop (j * stripe_size_with_magic s) (child_read bl off (Z.of_nat (length ws) * SS) c).2))) =
    if dead (off / SS + Z.of_nat j) d then replicate csm 0 else word_magic adler_init adler32 w ++ x.
Proof using F IntervalIndexLaws0.
  intros Hcode Hm (Hws & H0 & HT & Hh) Hj Hx. destruct (child_read_ok bl off _ Hm) as (op & data & -> & Hl & Hd). cbn [snd]. destruct Hm as (q & k & -> & _ & Hq & _). destruct fit_pos as (HS & HN & Hc).
  pose proof (proj1 (Forall_lookup _ _) Hws j w Hj) as Hw. destruct (md_sized _ _ _ _ _ Hcode w Hw) as [Hlw Hsz]. pose proof (lookup_lt_Some _ _ _ Hj) as Hjl. pose proof (lookup_lt_Some _ _ _ Hx) as Hdl. pose proof (ft_space c F) as Hsp.
  assert (Hxl : length (word_magic adler_init adler32 w ++ x) = csm) by (rewrite length_app, (proj1 (Forall_lookup _ _) Hsz d x Hx); done).
  assert (HSS : stripe_size_with_magic s = (N * csm)%nat) by (unfold stripe_size_with_magic; lia). rewrite Z.div_mul by lia.
  assert (Hbig : (q + Z.of_nat j + 1) * SS <= T) by nia.
  apply list_eq. intros o. destruct (decide (o < csm)%nat) as [Ho|Ho]; [|rewrite !lookup_ge_None_2; [done|destruct (dead _ _); rewrite ?length_replicate, ?Hxl; lia|rewrite length_take; lia]].
  assert (Hin : (d * csm + o < stripe_size_with_magic s)%nat) by nia.
  rewrite lookup_take_lt by done. rewrite lookup_drop, lookup_take_lt by done. rewrite lookup_drop, Hd by nia.
  replace (q * SS + Z.of_nat (j * stripe_size_with_magic s + (d * csm + o))) with ((q + Z.of_nat j) * SS + Z.of_nat d * Z.of_nat csm + Z.of_nat o) by lia.
  pose proof (chunk_byte (q + Z.of_nat j) d (Z.of_nat o) ltac:(lia) ltac:(lia) ltac:(lia) ltac:(lia)) as Hu. rewrite Hu. destruct (dead _ d); cbn [negb] in Hu |- *; [by rewrite lookup_replicate_2|].
  destruct (lookup_lt_is_Some_2 (word_magic adler_init adler32 w ++ x) o) as [y Hy]; [by rewrite Hxl|]. rewrite Hy. f_equal.
  replace ((q + Z.of_nat j) * SS + Z.of_nat d * Z.of_nat csm + Z.of_nat o) with (q * SS + Z.of_nat (j * stripe_size_with_magic s + (d * csm + o))) in Hu |- * by lia.
  apply Hh; [|done]. apply (concat_at _ _ j (encoded w)).
  - apply Forall_fmap. eapply Forall_impl; [exact Hws|]. intros w' Hw'. by apply (encoded_length adler_init adler32 s code).
  - by rewrite list_lookup_fmap, Hj.
  - apply (concat_at _ _ d (word_magic adler_init adler32 w ++ x)); [|by rewrite list_lookup_fmap, Hx|done]. apply Forall_fmap. eapply Forall_impl; [exact Hsz|]. intros x' Hx'. cbn [compose]. by rewrite length_app, Hx'.
Qed.
End stripes.

Context (Hcode : mds (sj_plan s) (sj_chunk s) N (sj_parity_devs s) code).

(** The striped segment keeps what is written to it, and its rows. *)
Lemma lun_stores c0 : stores adler_init adler32 s code (fun c => fitting c /\ same_rows c0 c) may holds.
Proof using Hcode IntervalIndexLaws0.
  split.
  - intros bl off d c [F Hs0] Hm. destruct (child_write_ok c F bl off d Hm) as (op & c' & lost & -> & _ & Hs & _). split; [by apply (fitting_same c F)|]. by eapply same_rows_trans.
  - intros bl off ws c [F _] Hm Hws _. pose proof (encoded_all_length adler_init adler32 s code Hcode ws Hws) as Hl.
    destruct (child_write_ok c F bl off (concat (encoded <$> ws))) as (op & c' & lost & -> & _ & Hs & Hw & _); [by rewrite Hl, Nat2Z.inj_mul|]. cbn [snd]. destruct Hm as (q & k & -> & E & Hq0 & Hk & HT & _). destruct (fit_pos c F) as [HS _].
    split; [done|]. split; [nia|]. split; [lia|]. intros p y Hp Hu. rewrite (same_rows_place c) in Hu by done. by apply Hw.
  - intros bl off ws off' d c [F _] Hm (Hws & H0 & HT & Hh) Hap. pose proof (encoded_all_length adler_init adler32 s code Hcode ws Hws) as Hl.
    destruct (child_write_ok c F bl off' d Hm) as (op & c' & lost & -> & _ & Hs & _ & Hn). cbn [snd]. split; [done|]. split; [done|]. split; [done|]. intros p y Hp Hu. rewrite (same_rows_place c) in Hu by done.
    pose proof (lookup_lt_Some _ _ _ Hp) as Hpl. pose proof (ft_space c F). rewrite Hn; [by apply Hh|lia|]. unfold apart in Hap. lia.
Qed.

Context (Ht : (t <= sj_parity_devs s)%nat) (Hq : (2 * t < N)%nat).

(** What it holds can be read, unless the magic of a word is that of a blank
    chunk. *)
Lemma lun_back c0 : gives_back adler_init adler32 s code (fun c => fitting c /\ same_rows c0 c) may holds (fun w => word_magic adler_init adler32 w <> blank_magic).
Proof using Hcode Ht Hq IntervalIndexLaws0.
  intros bl off ws c [F _] Hm Hh Hf j w Hj. pose proof Hh as (Hws & H0 & HT & _). pose proof (proj1 (Forall_lookup _ _) Hws j w Hj) as Hw. destruct (md_sized _ _ _ _ _ Hcode w Hw) as [Hlw Hsz]. split; [done|].
  pose proof Hm as (q & k & -> & _ & Hq0 & _). pose proof (lookup_lt_Some _ _ _ Hj). pose proof (ft_space c F). destruct (fit_pos c F) as [HS _].
  apply (blank_readable adler_init adler32 s _ w (dead c (q * SS / SS + Z.of_nat j)) t); [done|done|by apply (proj1 (Forall_lookup _ _) Hf j)| |done|done|].
  - apply dead_count; [done|rewrite Z.div_mul; lia|rewrite Z.div_mul by lia; nia].
  - intros d x Hx. by apply read_chunk.
Qed.

Lemma lun_bearable c0 : bearable adler_init adler32 s code (fun c => fitting c /\ same_rows c0 c) may.
Proof using Ht IntervalIndexLaws0 Hcode.
  intros bl off ws c [F _] Hm Hws. right. etrans; [apply child_write_code; [done|]|by apply inj_le]. by rewrite (encoded_all_length adler_init adler32 s code Hcode ws Hws), Nat2Z.inj_mul.
Qed.
End compose.

(** ** Both segments together *)

Section together.
Context {matrix schedule : Type} `{Jerasure matrix schedule} (adler_init : Z) (adler32 : Z -> bytes -> Z).
Context {M : Type} `{!IntervalIndex M seglun_row, !IntervalIndexLaws M seglun_row}.
Context (grants : nat -> Z -> bool) (rs_request : sizes -> nat -> list nat -> option (list bool)).
#[local] Abbreviation over up := (lun_child up none_listed grants rs_request).
Context (s : segjerase (matrix := matrix) (schedule := schedule) (C := seglun_priv M)) (code : list bytes -> Prop) (T : Z) (t : nat).
#[local] Abbreviation SS := (Z.of_nat (stripe_size_with_magic s)).

(** Accesses that are not empty, in the space that has been made, and for which
    the tables of the striped segment have room. *)
Definition served (v : Z * Z) : Prop :=
  0 <= v.1 /\ 0 < v.2 /\ iov_offset s v + iov_stripes s v * SS <= T /\ iov_stripes s v * Z.of_nat (n_devs s) <= 100.

Lemma served_may iov : 0 < data_size s -> on_stripes s iov = true -> Forall served iov -> Forall (fun v => 0 <= v.2) iov /\ allowed s (may s T) iov.
Proof using.
  intros Hds Hon Hs. unfold on_stripes in Hon. rewrite forallb_forall in Hon. split; [eapply Forall_impl; [exact Hs|]; intros v (_ & ? & _); lia|]. apply Forall_forall. intros v Hv. destruct (proj1 (Forall_forall _ _) Hs v Hv) as (H0 & H1 & HT & Hn).
  specialize (Hon v (proj1 (list_elem_of_In _ _) Hv)). apply andb_prop in Hon as [_ Hr%Z.eqb_eq]. pose proof (Z.quot_rem' v.2 (data_size s)) as Hd. rewrite Hr in Hd. pose proof (Z.quot_pos v.1 (data_size s) H0 Hds). pose proof (Z.quot_pos v.2 (data_size s) ltac:(lia) Hds).
  assert (0 < iov_stripes s v) by (unfold iov_stripes; nia). exists (Z.quot v.1 (data_size s)), (Z.to_nat (iov_stripes s v)). rewrite !Z2Nat.id by lia. split_and!; [done|done|done|lia|done|done].
Qed.

Context (up up' : nat -> bool) (Hup : forall i, up' i = true -> up i = true).

Lemma fitting_before c : fitting up' s T t c -> fitting up s T t c.
Proof using Hup.
  intros [W Hd Hc Hsp Hr Hn]. split; try done. intros b Hb. etrans; [|apply (Hn b Hb)]. apply filter_count_le. intros i _ Hi. destruct (up' i) eqn:E; [|done]. by rewrite (Hup i E) in Hi.
Qed.

Lemma holds_later c off ws : holds adler_init adler32 up s code T c off ws -> holds adler_init adler32 up' s code T c off ws.
Proof using Hup. intros (Hws & H0 & HT & Hh). split_and!; [done..|]. intros p y Hp Hu. by apply Hh, Hup. Qed.

Context (Hcode : mds (sj_plan s) (sj_chunk s) (n_devs s) (sj_parity_devs s) code) (Henc : completes s code).
Context (Hplan : Z.to_nat (data_strips (sj_plan s) + parity_strips (sj_plan s)) = n_devs s).
Context (Ht : (t <= sj_parity_devs s)%nat) (Hq : (2 * t < n_devs s)%nat).
Context (work : list bytes) (Hwl : length work = sj_parity_devs s) (Hwork : long (sj_chunk s) work).
Context (arrive_w : list op_status -> list op_status) (Harrive : forall l, arrive_w l ≡ₚ l).

(** C3: The erasure-coded segment over a striped one survives the loss of
    devices.  If no more than [t] devices of a row are down, where [t] is at
    most the number of parities and less than half of the devices, then a write
    of separate accesses on stripe boundaries succeeds, and reading them gives
    the written bytes, although other devices may have failed in the meantime,
    as long as these and those that were down before, which stay down, are no
    more than [t] of a row and no stripe has the checksum 0, which is what a
    lost chunk is read with.  The accesses are not empty, lie in space that has
    been made before, and reach so few stripes each that stripes times devices
    are at most 100; no device is blacklisted; the code is one that rebuilds as
    many chunks as there are parities. *)
Theorem jerase_lun_roundtrip hints iov (boff : nat) buf :
  0 < data_size s -> on_stripes s iov = true -> iov_apart iov -> Forall served iov -> fitting up' s T t (sj_child s) -> Z.of_nat boff + zsum snd iov <= Z.of_nat (length buf) ->
  (forall w, word_of s code (take (Z.to_nat (zsum snd iov)) (drop boff buf)) w -> word_magic adler_init adler32 w <> blank_magic) ->
  exists op s', segjerase_write (H0 := over up) adler_init adler32 work arrive_w s hints iov (Z.of_nat boff) buf = Ok (Some (op, s')) /\ op_ok op = true /\
    forall arrive work' hints' (boff' : nat) buf', (forall l, arrive l ≡ₚ l) -> length work' = sj_parity_devs s -> long (sj_chunk s) work' ->
      Z.of_nat boff' + zsum snd iov <= Z.of_nat (length buf') ->
      exists op' s'', segjerase_read (H0 := over up') adler_init adler32 arrive work' s' hints' iov (Z.of_nat boff') buf' =
          Ok (Some (op', splice buf' boff' (take (Z.to_nat (zsum snd iov)) (drop boff buf)), s'')) /\ op_ok op' = true.
Proof.
  intros Hds Hon Hap Hsv F' Hl Hmagic. destruct (served_may iov Hds Hon Hsv) as [Hnn Hmay]. pose proof (fitting_before _ F') as F. set (c0 := sj_child s) in *.
  destruct (write_held (H0 := over up) adler_init adler32 s code Hcode Henc Hplan work Hwl Hwork _ _ _ (lun_stores adler_init adler32 up grants rs_request s code T t Hcode c0)
    arrive_w Harrive hints iov boff buf Hds Hon Hnn Hap Hmay) as (op & ch & we & pa & so & ha & E & [Fc Hs] & Hgo & Hok); [by split|done|].
  specialize (Hgo (lun_bearable adler_init adler32 up grants rs_request s code T t Hcode Ht c0)). exists op, (set_errors (set_child ch s) we pa so ha). split; [done|]. split; [done|].
  intros arrive work' hints' boff' buf' Har Hw' Hlw' Hl'. destruct (Hok Hgo) as (wss & Hcw & Hio & Hdat). rewrite <- Hdat in Hmagic |- *.
  apply (read_held (H0 := over up') adler_init adler32 s code Hcode _ _ _ _ _ _ _ _ _ _ _ _ _ _ _ _ (lun_back adler_init adler32 up' grants rs_request s code T t Hcode Ht Hq c0)); try done.
  - apply Forall_forall. intros ws Hws. apply Forall_forall. intros w Hw. by eapply Hmagic, words_written.
  - split; [|done]. by apply (fitting_same up' s T t c0).
  - eapply Forall2_impl; [exact Hio|]. intros v ws [Hv Hh]. split; [done|]. by apply holds_later.
  - rewrite Hdat, length_take, length_drop. assert (0 <= zsum snd iov) by (clear -Hnn; induction Hnn; cbn; lia). lia.
Qed.
End together.

(** ** Three copies on three devices

    Two stripes of three chunks; the second device fails after the write. *)

Definition lun_three : seglun_priv (list seglun_row) :=
  SegLun [Row [(0%nat, 0); (1%nat, 0); (2%nat, 0)] 0 35 12 36] 36 36 12 0 36 6 18 3 1 0 false
    {[0%nat := fun _ => 0; 1%nat := fun _ => 0; 2%nat := fun _ => 0]} {[0%nat := 12; 1%nat := 12; 2%nat := 12]} {[0%nat := 12; 1%nat := 12; 2%nat := 12]} ∅ ∅ 3.
Definition copies_on_lun : segjerase := SegJerase lun_three (copies_plan 2) true 1000 0 0 0 1 2 1 2 0.
Definition second_down (i : nat) : bool := negb (Nat.eqb i 1).

Lemma lun_three_fitting : fitting second_down copies_on_lun 36 1 lun_three.
Proof.
  constructor; [constructor|done..| |].
  - constructor; cbn; lia.
  - apply ivs_ok_cons. split; [cbn; lia|]. split; [constructor|apply ivs_ok_nil].
  - intros b ->%list_elem_of_singleton. constructor; cbn; lia.
  - intros x Hx. eexists. split; [by left|]. unfold inside. cbn in Hx |- *. lia.
  - cbn. repeat constructor; set_solver.
  - intros b ->%list_elem_of_singleton. split; [by exists 0|by exists 2].
  - intros b ->%list_elem_of_singleton. by vm_compute.
Qed.

Lemma three_magics w : word_of copies_on_lun (copies 2 3) [1; 2; 3; 4] w -> word_magic 1 sum_cksum w <> blank_magic.
Proof.
  intros [(x & Hx & ->) [j Hj]]. unfold stripe_data in Hj. cbn in Hj. rewrite app_nil_r in Hj. subst x.
  destruct j as [|[|j]]; [by vm_compute|by vm_compute|]. rewrite drop_ge in Hx by (cbn; lia). done.
Qed.

Lemma jerase_lun_roundtrip_witness :
  exists op s', segjerase_write (H := copies_jerasure) (H0 := lun_child (fun _ => true) none_listed (fun _ _ => true) (fun _ _ _ => None)) 1 sum_cksum [[0; 0]; [0; 0]] reverse copies_on_lun None [(0, 4)] 0 [1; 2; 3; 4] = Ok (Some (op, s')) /\ op_ok op = true /\
    exists op' s'', segjerase_read (H := copies_jerasure) (H0 := lun_child second_down none_listed (fun _ _ => true) (fun _ _ _ => None)) 1 sum_cksum reverse [[0; 0]; [0; 0]] s' None [(0, 4)] 0 (replicate 5 9) = Ok (Some (op', [1; 2; 3; 4; 9], s'')) /\ op_ok op' = true.
Proof.
  destruct (jerase_lun_roundtrip (H := copies_jerasure) 1 sum_cksum (fun _ _ => true) (fun _ _ _ => None) copies_on_lun (copies 2 3) 36 1 (fun _ => true) second_down ltac:(done) (copies_mds 2 2) (copies_completes (H := lun_child (fun _ => true) none_listed (fun _ _ => true) (fun _ _ _ => None)) lun_three true 1000 2 2 1) eq_refl
    ltac:(cbn; lia) ltac:(cbn; lia) [[0; 0]; [0; 0]] eq_refl ltac:(by repeat constructor) reverse rev_arrives None [(0, 4)] 0%nat [1; 2; 3; 4]) as (op & s' & E & Hop & Hr); [done|done|by repeat constructor| |apply lun_three_fitting|done|apply three_magics|].
  { apply Forall_singleton. by vm_compute. }
  exists op, s'. split; [exact E|]. split; [done|]. apply (Hr reverse [[0; 0]; [0; 0]] None 0%nat (replicate 5 9)); [apply rev_arrives|done|by repeat constructor|done].
Defined.
